(* ===== verification/_CoqProject ===== *)
-Q . S2P
Prelude.v
Text.v
Utf8.v
Errors.v
Metadata.v
Cursor.v
Plan.v
Batch.v
Payload.v
Filter.v
Query.v
Obfuscate.v
Pipeline.v
Session.v
Paging.v
TopicConfig.v
Group.v
Reset.v
Read.v
Export.v
Tables.v
Registry.v
Codec.v
Decode.v
Pool.v
Projections.v
Bus.v
Acl.v
Quota.v
Access.v
Lane.v
Handle.v
Tuning.v
Convert.v
Interest.v
Store.v
Ingest.v
Watermarks.v
Offsets.v
SchemaIds.v
Tail.v
Client.v
Untrusted.v
JsonText.v
Reply.v
Login.v
Updates.v
RecordApi.v
RecordText.v
Findings.v
Requests.v
Search.v
Visit.v
Resources.v
Refusal.v
ToolRows.v
Bodies.v
McpTools.v
McpWrites.v
Hosts.v
Config.v
Streams.v
Server.v
