(* ===== verification/Prelude.v ===== *)
(** * klens: a verification development

    klens shows Kafka clusters and lets a caller change them. Its server keeps, for each
    cluster, a store that pollers fill; answers lists and pages from the store; reads
    records straight from Kafka, decoded, masked by policy and filtered; and makes a change
    only for a caller whose roles allow it. A browser reaches it over HTTP, behind a login, and
    an agent over MCP, behind a gateway. This library models that server, its Rust code under
    [src/src], and proves what each part promises the next. File names below are relative to
    [src/src].

    ** Files

    Shared:
    - [Prelude]: results and their monad, machine integers, lawful comparators, stable sort,
      deduplication, ordered maps, collecting pairs; the hint databases [klens].
    - [Text], [Utf8]: the parts of Rust's [str] the program uses.
    - [Errors] (kafka/error.rs): errors, their codes and texts.
    - [Metadata] (kafka/metadata.rs): brokers, topics, partitions, watermarks, topic names.

    Reading records (kafka/scan):
    - [Cursor] (cursor.rs): the page cursor and its text form.
    - [Plan] (plan.rs): offset windows, the cursor on and the cursor back, time bounds.
    - [Batch] (batch.rs): the bounded heap. A [BinaryHeap] is the list it drains to.
    - [Payload] (payload.rs), [Filter] (filter.rs), [Query] (query.rs, limits.rs).
    - [Obfuscate] (obfuscate.rs, config/obfuscation.rs): masking rules and the compiled policy.
    - [Pipeline] (pipeline.rs): screening, decoding, masking, filtering and rendering.
    - [Session] (session.rs): a scan over a consumer and the passes that fill a page;
      [Paging]: what its pages promise together.
    - [Read] (read.rs), [Export] (export.rs), [Tail] (tail.rs).

    The schema registry (kafka/registry):
    - [Registry] (client.rs): subjects, schemas and their dependencies, and changes of them.
    - [Codec] (encode.rs, avro.rs, protobuf.rs): a payload under its schema, both ways.
    - [Decode] (decode.rs): which schema a payload has, the caches of what is known of it, and
      its tree; the instance of [PayloadCodec] that [Pipeline] decodes with.

    The Kafka client (kafka/client.rs and kafka/client):
    - [Pool] (pool.rs, scan.rs): consumers parked between pages.
    - [Convert] (convert.rs, groups.rs, offsets.rs): krafka's answers as klens keeps them.
    - [Client] (client.rs, transport.rs): every read and change of a cluster.

    Cluster state (kafka, kafka/store, kafka/ingest):
    - [TopicConfig] (topic_config.rs, storage.rs), [Group] (group.rs), [Reset] (reset.rs),
      [Acl] (acl.rs), [Quota] (quota.rs, scram.rs).
    - [Tables] (store/tables.rs): the tables, assembled from a sweep; [Projections]
      (store/projections.rs): the rows read from them; [Bus] (store/bus.rs): what changed
      between two; [Search] (store/search.rs): names found in them.
    - [Lane] (store/lane.rs): one table with its version and health, and waits for a poll;
      [Interest] (store/interest.rs): which groups somebody watches; [Store]
      (store/cluster.rs, rates.rs): the lanes, rates, bus and views of a cluster.
    - [Ingest] (ingest/runner.rs and seven lanes): the interface [LaneSource] of a poller, one
      poll of it, and its stateless instances; [Watermarks], [Offsets], [SchemaIds]
      (ingest): the lanes that keep state or caches of their own.

    Configuration (config.rs, config):
    - [Tuning] (tuning.rs), [Hosts] (hosts.rs, with server/hosts.rs), [Config] (the blocks,
      their secrets and defaults, and the rules that span them).

    Callers (app):
    - [Access] (auth/access.rs, config/auth.rs, mcp/gate.rs): roles, grants, capabilities and
      the MCP gates. [Login] (auth.rs and auth): users, sessions, the guard and the login.
    - [Handle] (context.rs and context/, error.rs): every change a caller can make;
      [Requests] (resources): its HTTP requests, their bodies and handlers.
    - [Visit] (context.rs, mcp/ext.rs): what a caller may look at, and clusters without what
      it may not read; [Resources], [Bodies] (resources): every read over HTTP, and the JSON
      it answers; [RecordApi] (resources/records): records, exports and tails; [Updates]
      (resources/updates.rs): the stream of changes; [Streams]: the handlers that open one, an
      export or a tail.
    - [Untrusted], [Reply], [RecordText], [Findings], [Refusal], [ToolRows] (mcp): enclosed text,
      replies that fit, records and groups as text, refusals and rows; [JsonText]: the form of
      JSON those rely on; [McpTools], [McpWrites] (mcp/tools, mcp/server.rs): every tool.
    - [Server] (app.rs, server.rs, mcp.rs, main.rs): the two routers with what stands in front of
      their handlers, the limits and the listeners.

    How they meet: a poller ([Ingest]) reads [Client], commits to a lane of [Store] and tells
    [Bus], which [Updates] follows. A page ([Session], through [Read]) takes a consumer of [Pool],
    and [Pipeline] decodes with [Decode], masks with [Obfuscate] and filters with [Filter]. A request
    passes [Server], gets its access from [Login] and [Access], and is a read of [Resources] on a
    [Visitor], a stream of [Streams], or a change of [Requests] on a [Session] of [Handle], which
    [Client] makes. A tool call
    passes the gateway, takes its access from the configuration, and is a read of [McpTools] or
    a change of [McpWrites], answered through [Reply] or [Refusal]. A cluster appears as what each
    side uses of it: [Cluster] of [Handle] is what a change sees at each time, [Served] of
    [Visit] what a read finds, [Kafka] of [Client] what krafka answers.

    ** How state and effects are modelled

    Functions of the source are functions here, with the source's names; a name two files
    share is prefixed with its type. A fallible function returns [result]. A method that
    changes its receiver returns the new one. A map is a [gmap]; where the source iterates a
    [HashMap] the model uses [map_to_list] and theorems hold for the order it gives, and a
    [BTreeMap] is iterated in key order. Integers are [Z], wrapped where the source can
    overflow, since the release build does not check overflow.

    What other code does is an argument of the operation that calls it. A scan or a tail runs
    against a list of turns (what each poll answered, the clock, positions and lags), a
    poll of a lane against the answers of the session, and a change against the answers of
    Kafka, with the calls made recorded in order ([Op] in [Handle]; [Act] in [McpTools] and
    [Change] in [McpWrites] add what was asked of the limiter). The theorems hold for every such
    environment, and those that need Kafka to behave say so in a hypothesis with a
    witness ([faithful_polls] in [Session]: a consumer returns the records of its log in
    order; [answers_asked] in [SchemaIds]: the registry answers for what it was asked). What other
    tasks do to the store while a poll waits is a function [mid] of which only [quiet_for] is
    assumed: a lane has one writer, and nobody takes a change back from the bus.

    Third-party code is a parameter, by class, some with a class of what its documentation
    promises: [PayloadLib] and [JsonLines] (schemreg's wire prefix, serde_json's printer),
    [RedactLib] (regex and HMAC), [FilterLib] (Aho-Corasick), [TimestampLib], [ApiTimeLib] and
    [ValueJson] (jiff and numbers in JSON), [SchemregLib] and [CodecLib] (schemreg; the Avro, JSON
    and Protobuf crates), [CacheLib], [CacheLaws], [ExpiryCacheLib] and [ExpiryCacheLaws] (moka),
    [KrafkaLib] and [KrafkaTexts] (krafka), [OidcLib] (openidconnect), [FrizbeeLib] and [FrizbeeLaws]
    (the fuzzy matcher), [ResultLib] (rmcp's encoding of a result), [UrlLib], [UrlLaws] and
    [HttpLib] (hosts and authorities). [Offsets] takes foldhash's fingerprint as an argument,
    and the tools take [str::to_lowercase] and the marker they draw. Every law has an instance
    that meets it, which the witnesses use.

    Loops end by the structure of what they consume: the turns of the environment (whose
    last turn stands for the deadline, which the source checks in each), the list of
    windows, or the number of passes, at most [MAX_FILTER_PASSES] as in the source. Where the
    source has no such bound the model runs on fuel, and enough is proved or built in:
    [fetch_waves] of [Registry] needs a wave per schema needed ([dependencies_answers]);
    [search_loop] of [Reply] halves a range of at most [RESULT_BYTES] rows, for which
    [SEARCH_TURNS] is enough ([search_ends]); [take_open] of [Pool] takes as many turns as
    consumers are parked; [print_hex] of [Hosts] prints the four digits of 16 bits.
    [store_create] of [Login] draws ids until one is free, from the draws it is given.

    ** What the theorems show

    - Pages: windows and cursors on and back cover exactly what is left; the heap keeps what
      a stable sort would; every record shown is a polled one, with the payloads the codec
      answered for its own bytes, then masked, matching the filter; paging loses and repeats
      nothing with a faithful consumer, an export that walks from the oldest record or whose
      pages are complete covers the log, and its body is the pages of one run. A newest-first
      page cut short by its deadline can skip records: [Paging.cut_short_newest_page_skips].
    - Tails: a live batch accounts for every record read, as shown, skipped or filtered
      out, and shows the newest ones; a tail that falls behind jumps to exactly its backlog.
    - Masking: the compiled policy is the rule that matches, and payloads that differ only where
      a rule hides, by the paths the rules name, are shown alike.
    - Schemas: what is encoded decodes again; a decoder answers what the registry says or said
      before, a missing schema or a failure only within its time to live; dependencies are read in as many waves as they need; a sweep
      that keeps what it knows lists what a full one does.
    - State: tables, rows and lags from what Kafka answered; that nothing a lane shows changes
      without being told on the bus, nor reaches a follower late or beyond its scope; that a
      reader of the bus knows every rate; that a watermark comes from the answers of this fetch
      or the first offset of an earlier one; which groups a sweep asks for, and that none waits
      for ever; where each schema id comes from, and when a kept one stands
      ([SchemaIds.reordered_recreation_kept] has one that should not have); that a parked
      consumer is used once.
    - Groups: the rows and totals of lag, and what a finding names.
    - Callers: grants from the configured roles; a login only with the state, nonce and claims
      klens expects; a guard that ends with its session.
    - Reads: no HTTP response to a read, no reply of an MCP tool that reads and no stream of the
      UI's server depends on what its caller may not read, nor does the answer to a change beyond
      the cluster's switch; a stranger learns only whether klens is ready; a tool
      without the limiter's permit reads nothing from Kafka. (The answer to a tool that changes
      something is not covered: an encode error can tell of a schema's text.)
    - Changes: offsets planned by a reset; a change is made only with the privilege, on a
      writable cluster, after its guards, in the order of its verdict, and is reported as done
      only when Kafka took all of it; a body that makes no sense changes nothing; a tool
      makes at most one change.
    - MCP text: what a producer wrote is a line between markers it cannot forge, and so is what
      Kafka or the registry said in most refusals ([Refusal.broker_message_unmarked] has
      one that is not); replies hold a number of rows or characters that fits where one more
      does not.
    - Configuration: an allowed host reads back as it says; MCP never shares the UI's address.

    ** Not modelled

    What krafka, its connections and TLS do beyond their answers; the matching of a search
    (frizbee), codecs, caches and cryptography, which are parameters; the random salt of a
    SCRAM credential; a panic of a blocking task ([JoinError]) and moka's choice of what to
    evict; the select that drops a tool's call when its client cancels; axum's routing and extractors and rmcp's reading of a call's arguments: the model
    starts from the request they hand on; cookies; YAML; sockets, compression, request logs and
    the signals that end the process; tracing; the web client, the chart and the build tasks,
    which are not Rust or not the server. The loop that runs a lane waits on tokio between polls
    and is not modelled; each of its polls is. An [Interner] only shares strings, so tables hold
    the strings. Locks make an operation one step, and where the source releases a lock between
    two reads the model takes two states or says it reads one; [watermark_publish] stores rates and
    tells the bus in one step, which the source does in two. *)

From Stdlib Require Import ZArith Lia Ascii.
From Stdlib Require Import DecimalString DecimalN DecimalFacts.
From stdpp Require Export base tactics gmap strings sorting numbers list.

Declare Scope klens_scope.
Delimit Scope klens_scope with klens.

(** Lemmas the components register for [auto with klens] and
    [autorewrite with klens]. *)
Create HintDb klens.
Create Rewrite HintDb klens.

(** ** Results

    Rust's [Result], as an instance of stdpp's monad classes, so [x ← e; k] is
    the source's [let x = e?; k]. *)

Inductive result (E A : Type) : Type :=
  | Ok (value : A)
  | Err (error : E).
Arguments Ok {E A} value.
Arguments Err {E A} error.

#[export] Instance result_ret E : MRet (result E) := fun A a => Ok a.
#[export] Instance result_bind E : MBind (result E) := fun A B f r =>
  match r with Ok a => f a | Err e => Err e end.
#[export] Instance result_fmap E : FMap (result E) := fun A B f r =>
  match r with Ok a => Ok (f a) | Err e => Err e end.

(** [Option::ok_or]. *)
Definition ok_or {E A} (o : option A) (e : E) : result E A :=
  match o with Some a => Ok a | None => Err e end.

(** [Result::ok]. *)
Definition result_ok {E A} (r : result E A) : option A :=
  match r with Ok a => Some a | Err _ => None end.

(** [Result::map_err]. *)
Definition map_err {E F A} (f : E → F) (r : result E A) : result F A :=
  match r with Ok a => Ok a | Err e => Err (f e) end.

#[export] Instance result_eq_dec {E A} `{EqDecision E, EqDecision A} :
  EqDecision (result E A).
Proof. solve_decision. Defined.

(** ** Machine integers

    The release profile of the crate leaves overflow checks off, so [+], [-]
    and [as] wrap. An [i64] is the [Z] it denotes; the wrap is written out. *)

Definition i32_min : Z := -2147483648.
Definition i32_max : Z := 2147483647.
Definition i64_min : Z := -9223372036854775808.
Definition i64_max : Z := 9223372036854775807.
Definition usize_max : Z := 18446744073709551615.

Definition in_i32 (z : Z) : Prop := (i32_min ≤ z ≤ i32_max)%Z.
Definition in_i64 (z : Z) : Prop := (i64_min ≤ z ≤ i64_max)%Z.
Definition in_usize (z : Z) : Prop := (0 ≤ z ≤ usize_max)%Z.

Definition wrap_i64 (z : Z) : Z :=
  ((z + 9223372036854775808) mod 18446744073709551616 - 9223372036854775808)%Z.
Definition i64_add (a b : Z) : Z := wrap_i64 (a + b).
Definition i64_sub (a b : Z) : Z := wrap_i64 (a - b).
Definition i64_saturating_add (a b : Z) : Z := Z.max i64_min (Z.min i64_max (a + b)).

Definition wrap_i32 (z : Z) : Z := ((z + 2147483648) mod 4294967296 - 2147483648)%Z.
Definition i32_add (a b : Z) : Z := wrap_i32 (a + b).
(** [usize as i32] keeps the low bits. *)
Definition usize_as_i32 (z : Z) : Z := wrap_i32 z.
(** [Iterator::sum] at [i32] and [i64]. *)
Definition sum_i32 (l : list Z) : Z := foldl i32_add 0%Z l.
Definition sum_i64 (l : list Z) : Z := foldl i64_add 0%Z l.

Definition usize_modulus : Z := 18446744073709551616.
Definition usize_add (a b : Z) : Z := ((a + b) mod usize_modulus)%Z.
Definition usize_sub (a b : Z) : Z := ((a - b) mod usize_modulus)%Z.
Definition usize_saturating_mul (a b : Z) : Z := Z.min usize_max (a * b).
(** [usize as i64] reinterprets the bits. *)
Definition usize_as_i64 (z : Z) : Z := wrap_i64 z.
(** [i64::clamp]. *)
Definition i64_clamp (z low high : Z) : Z :=
  if (z <? low)%Z then low else if (high <? z)%Z then high else z.

(** [Vec::len] as a [usize]. *)
Definition len {A} (l : list A) : Z := Z.of_nat (length l).

Ltac unfold_ints :=
  unfold in_i32, in_i64, in_usize, i64_min, i64_max, i32_min, i32_max, usize_max in *.

Lemma wrap_i64_id z : in_i64 z → wrap_i64 z = z.
Proof.
  unfold wrap_i64. unfold_ints. intros H.
  rewrite Z.mod_small; lia.
Qed.

Lemma wrap_i64_range z : in_i64 (wrap_i64 z).
Proof.
  unfold wrap_i64. unfold_ints.
  pose proof (Z.mod_pos_bound (z + 9223372036854775808) 18446744073709551616).
  lia.
Qed.

Lemma i64_add_id a b : in_i64 (a + b) → i64_add a b = (a + b)%Z.
Proof. apply wrap_i64_id. Qed.

Lemma i64_sub_id a b : in_i64 (a - b) → i64_sub a b = (a - b)%Z.
Proof. apply wrap_i64_id. Qed.

Lemma wrap_i32_id z : in_i32 z → wrap_i32 z = z.
Proof. unfold wrap_i32. unfold_ints. intros H. rewrite Z.mod_small; lia. Qed.

(** The plain sum. *)
Definition sum_Z (l : list Z) : Z := foldr Z.add 0%Z l.

Lemma sum_Z_app l k : sum_Z (l ++ k) = (sum_Z l + sum_Z k)%Z.
Proof. unfold sum_Z. induction l; simpl; lia. Qed.

Lemma sum_Z_nonneg l : Forall (λ z, 0 ≤ z)%Z l → (0 ≤ sum_Z l)%Z.
Proof. unfold sum_Z. induction 1; simpl; lia. Qed.

Lemma sum_Z_perm l k : l ≡ₚ k → sum_Z l = sum_Z k.
Proof. unfold sum_Z. induction 1; simpl; lia. Qed.

Lemma wrap_i64_add a b : wrap_i64 (wrap_i64 a + b) = wrap_i64 (a + b).
Proof.
  unfold wrap_i64. f_equal.
  replace ((a + 9223372036854775808) mod 18446744073709551616 - 9223372036854775808 + b + 9223372036854775808)%Z
    with ((a + 9223372036854775808) mod 18446744073709551616 + b)%Z by lia.
  rewrite Zplus_mod_idemp_l; f_equal; lia.
Qed.

Lemma wrap_i32_add a b : wrap_i32 (wrap_i32 a + b) = wrap_i32 (a + b).
Proof.
  unfold wrap_i32. f_equal.
  replace ((a + 2147483648) mod 4294967296 - 2147483648 + b + 2147483648)%Z
    with ((a + 2147483648) mod 4294967296 + b)%Z by lia.
  rewrite Zplus_mod_idemp_l; f_equal; lia.
Qed.

(** A wrapping sum is the wrapped sum. *)
Lemma sum_i64_wrap l : sum_i64 l = wrap_i64 (sum_Z l).
Proof.
  unfold sum_i64. assert (∀ z, foldl i64_add (wrap_i64 z) l = wrap_i64 (z + sum_Z l)) as Hgo.
  { induction l as [|x l IH]; intros z; simpl; [f_equal; unfold sum_Z; simpl; lia|].
    unfold i64_add at 2. rewrite wrap_i64_add, IH. f_equal. unfold sum_Z. simpl. lia. }
  rewrite <- (wrap_i64_id 0) at 1 by (unfold_ints; lia). by rewrite Hgo.
Qed.

Lemma sum_i32_wrap l : sum_i32 l = wrap_i32 (sum_Z l).
Proof.
  unfold sum_i32. assert (∀ z, foldl i32_add (wrap_i32 z) l = wrap_i32 (z + sum_Z l)) as Hgo.
  { induction l as [|x l IH]; intros z; simpl; [f_equal; unfold sum_Z; simpl; lia|].
    unfold i32_add at 2. rewrite wrap_i32_add, IH. f_equal. unfold sum_Z. simpl. lia. }
  rewrite <- (wrap_i32_id 0) at 1 by (unfold_ints; lia). by rewrite Hgo.
Qed.

Lemma usize_add_id a b : in_usize (a + b) → usize_add a b = (a + b)%Z.
Proof. unfold usize_add, usize_modulus. unfold_ints. intros. apply Z.mod_small. lia. Qed.

Lemma usize_sub_id a b : in_usize (a - b) → usize_sub a b = (a - b)%Z.
Proof. unfold usize_sub, usize_modulus. unfold_ints. intros. apply Z.mod_small. lia. Qed.

Lemma len_nonneg {A} (l : list A) : (0 ≤ len l)%Z.
Proof. unfold len. lia. Qed.

Lemma len_nil {A} : len (@nil A) = 0%Z.
Proof. reflexivity. Qed.

Lemma len_cons {A} (x : A) l : len (x :: l) = (len l + 1)%Z.
Proof. unfold len. simpl. lia. Qed.

Lemma len_app {A} (l k : list A) : len (l ++ k) = (len l + len k)%Z.
Proof. unfold len. rewrite length_app. lia. Qed.

Lemma elem_of_concat {A} (x : A) (ls : list (list A)) :
  x ∈ concat ls ↔ ∃ l, x ∈ l ∧ l ∈ ls.
Proof.
  rewrite list_elem_of_In, in_concat. split.
  - intros (l & H1%list_elem_of_In & H2%list_elem_of_In). by exists l.
  - intros (l & H1%list_elem_of_In & H2%list_elem_of_In). by exists l.
Qed.

(** ** Orderings

    Rust's [Ord::cmp] returns a [comparison]. A comparator is lawful when it is
    antisymmetric, transitive and respects its own equality; the class closes
    under [then], [reverse] and comparison by a key, which is how the source
    builds its comparators. *)

Definition cmp_then (a b : comparison) : comparison :=
  match a with Eq => b | c => c end.

Class OrderCmp {A} (cmp : A → A → comparison) : Prop := {
  cmp_opp : ∀ x y, cmp y x = CompOpp (cmp x y);
  cmp_lt_trans : ∀ x y z, cmp x y = Lt → cmp y z = Lt → cmp x z = Lt;
  cmp_eq_l : ∀ x y z, cmp x y = Eq → cmp x z = cmp y z;
}.

Arguments cmp_opp {A} cmp {_} x y.
Arguments cmp_lt_trans {A} cmp {_} x y z.
Arguments cmp_eq_l {A} cmp {_} x y z.
#[export] Hint Mode OrderCmp + ! : typeclass_instances.

Section order_cmp.
Context {A : Type} (cmp : A → A → comparison) `{!OrderCmp cmp}.

Lemma cmp_refl x : cmp x x = Eq.
Proof. pose proof (cmp_opp cmp x x). destruct (cmp x x); simpl in *; congruence. Qed.

Lemma cmp_gt_lt x y : cmp x y = Gt ↔ cmp y x = Lt.
Proof. rewrite (cmp_opp cmp x y). destruct (cmp x y); simpl; split; congruence. Qed.

Lemma cmp_eq_r x y z : cmp y z = Eq → cmp x y = cmp x z.
Proof.
  intros H. rewrite (cmp_opp cmp y x), (cmp_opp cmp z x). f_equal. by apply (cmp_eq_l cmp).
Qed.

Lemma cmp_eq_sym x y : cmp x y = Eq → cmp y x = Eq.
Proof. intros H. rewrite (cmp_opp cmp x y), H. done. Qed.

Definition cmp_le (x y : A) : Prop := cmp x y ≠ Gt.

#[global] Instance cmp_le_dec x y : Decision (cmp_le x y).
Proof. unfold cmp_le. apply _. Defined.

Lemma cmp_le_refl x : cmp_le x x.
Proof. unfold cmp_le. rewrite cmp_refl. done. Qed.

Lemma cmp_le_trans x y z : cmp_le x y → cmp_le y z → cmp_le x z.
Proof.
  unfold cmp_le. intros H1 H2.
  destruct (cmp x y) eqn:E1; [| | done].
  - rewrite (cmp_eq_l cmp x y z E1). done.
  - destruct (cmp y z) eqn:E2; [| | done].
    + rewrite <- (cmp_eq_r x y z E2). congruence.
    + rewrite (cmp_lt_trans cmp x y z); congruence.
Qed.

Lemma cmp_le_total x y : cmp_le x y ∨ cmp_le y x.
Proof.
  unfold cmp_le. rewrite (cmp_opp cmp x y). destruct (cmp x y); simpl; [left | left | right]; congruence.
Qed.

Lemma cmp_nle_lt x y : ¬ cmp_le x y ↔ cmp y x = Lt.
Proof.
  unfold cmp_le. rewrite <- (cmp_gt_lt x y). split; [|intros -> H; done].
  intros H. destruct (cmp x y); [destruct H; congruence | destruct H; congruence | done].
Qed.

Lemma cmp_lt_le x y : cmp x y = Lt → cmp_le x y.
Proof. unfold cmp_le. congruence. Qed.

Lemma cmp_le_lt_trans x y z : cmp_le x y → cmp y z = Lt → cmp x z = Lt.
Proof.
  unfold cmp_le. intros H1 H2. destruct (cmp x y) eqn:E; [| |done].
  - by rewrite (cmp_eq_l cmp x y z E).
  - by eapply (cmp_lt_trans cmp).
Qed.
End order_cmp.

#[export] Instance Zcompare_order : OrderCmp Z.compare.
Proof.
  split.
  - intros x y. apply Z.compare_antisym.
  - intros x y z. rewrite !Z.compare_lt_iff. lia.
  - intros x y z. rewrite Z.compare_eq_iff. congruence.
Qed.

Lemma cmp_on_order {A B} (f : A → B) cmp :
  OrderCmp cmp → OrderCmp (λ x y, cmp (f x) (f y)).
Proof.
  intros H. split; intros x y.
  - apply (cmp_opp cmp).
  - intros z. apply (cmp_lt_trans cmp).
  - intros z. apply (cmp_eq_l cmp).
Qed.

Lemma cmp_reverse_order {A} (cmp : A → A → comparison) :
  OrderCmp cmp → OrderCmp (λ x y, CompOpp (cmp x y)).
Proof.
  intros H. split; intros x y.
  - by rewrite (cmp_opp cmp x y).
  - intros z. rewrite !CompOpp_iff. simpl. rewrite !(cmp_gt_lt cmp).
    intros Hyx Hzy. by apply (cmp_lt_trans cmp) with y.
  - intros z. rewrite CompOpp_iff. simpl. intros E. by rewrite (cmp_eq_l cmp x y z E).
Qed.

Lemma cmp_flip_order {A} (cmp : A → A → comparison) :
  OrderCmp cmp → OrderCmp (λ x y, cmp y x).
Proof.
  intros H. split; intros x y.
  - apply (cmp_opp cmp).
  - intros z H1 H2. by apply (cmp_lt_trans cmp) with y.
  - intros z E. apply (cmp_eq_r cmp). by apply (cmp_eq_sym cmp).
Qed.

Lemma cmp_then_order {A} (c1 c2 : A → A → comparison) :
  OrderCmp c1 → OrderCmp c2 → OrderCmp (λ x y, cmp_then (c1 x y) (c2 x y)).
Proof.
  intros H1 H2. split.
  - intros x y. rewrite (cmp_opp c1 x y), (cmp_opp c2 x y).
    by destruct (c1 x y).
  - intros x y z Hxy Hyz.
    destruct (c1 x y) eqn:E1, (c1 y z) eqn:E2; simpl in *; try congruence.
    + rewrite (cmp_eq_l c1 x y z E1), E2. simpl. by apply (cmp_lt_trans c2) with y.
    + by rewrite (cmp_eq_l c1 x y z E1), E2.
    + by rewrite <- (cmp_eq_r c1 x y z E2), E1.
    + by rewrite (cmp_lt_trans c1 x y z E1 E2).
  - intros x y z. destruct (c1 x y) eqn:E1; simpl; try congruence.
    intros E2. by rewrite (cmp_eq_l c1 x y z E1), (cmp_eq_l c2 x y z E2).
Qed.

(** A key type of a [BTreeMap]: a lawful comparator whose [Eq] is equality. *)
Class KeyOrd (K : Type) := {
  key_cmp : K → K → comparison;
  key_cmp_order :: OrderCmp key_cmp;
  key_cmp_eq : ∀ x y, key_cmp x y = Eq → x = y;
}.

#[export] Instance Z_key_ord : KeyOrd Z.
Proof. refine {| key_cmp := Z.compare; key_cmp_order := Zcompare_order |}. apply Z.compare_eq. Defined.

Lemma string_compare_lt_trans s1 s2 s3 :
  String.compare s1 s2 = Lt → String.compare s2 s3 = Lt → String.compare s1 s3 = Lt.
Proof.
  revert s2 s3. induction s1 as [|a s1 IH]; intros [|b s2] [|c s3]; simpl; try done.
  unfold Ascii.compare.
  destruct (N.compare_spec (N_of_ascii a) (N_of_ascii b)) as [E1|L1|G1]; [|intros _|done];
  destruct (N.compare_spec (N_of_ascii b) (N_of_ascii c)) as [E2|L2|G2];
    intros; try done.
  - rewrite E1, E2, N.compare_refl. eauto.
  - rewrite E1. by apply N.compare_lt_iff in L2 as ->.
  - rewrite <- E2. by apply N.compare_lt_iff in L1 as ->.
  - assert (N_of_ascii a < N_of_ascii c)%N as L by lia.
    by apply N.compare_lt_iff in L as ->.
Qed.

#[export] Instance string_compare_order : OrderCmp String.compare.
Proof.
  split.
  - intros x y. apply String.compare_antisym.
  - apply string_compare_lt_trans.
  - intros x y z E. by apply String.compare_eq_iff in E as ->.
Qed.

#[export] Instance string_key_ord : KeyOrd string.
Proof. refine {| key_cmp := String.compare; key_cmp_order := string_compare_order |}. intros x y. apply String.compare_eq_iff. Defined.

(** Tuples compare lexicographically. *)
Definition pair_cmp {K1 K2} `{KeyOrd K1, KeyOrd K2} (x y : K1 * K2) : comparison :=
  cmp_then (key_cmp x.1 y.1) (key_cmp x.2 y.2).

#[export] Instance pair_cmp_order {K1 K2} `{KeyOrd K1, KeyOrd K2} :
  OrderCmp (pair_cmp (K1 := K1) (K2 := K2)).
Proof.
  exact (cmp_then_order _ _ (cmp_on_order fst key_cmp key_cmp_order)
           (cmp_on_order snd key_cmp key_cmp_order)).
Qed.

#[export] Instance pair_key_ord {K1 K2} `{KeyOrd K1, KeyOrd K2} : KeyOrd (K1 * K2).
Proof.
  refine {| key_cmp := pair_cmp; key_cmp_order := pair_cmp_order |}.
  intros [a1 a2] [b1 b2]; unfold pair_cmp; simpl.
  destruct (key_cmp a1 b1) eqn:E1; simpl; try done.
  intros E2. f_equal; by apply key_cmp_eq.
Defined.

(** ** Sorting

    [sort_by cmp] is the slice's stable [sort_by]. It also stands for
    [sort_unstable_by], which the source only calls with comparators that tell
    the elements apart. *)

Section sort_by.
Context {A : Type} (cmp : A → A → comparison).

(** Insert before the first element that is not smaller. *)
Fixpoint insert_by (x : A) (l : list A) : list A :=
  match l with
  | [] => [x]
  | y :: l' => match cmp x y with Gt => y :: insert_by x l' | _ => x :: y :: l' end
  end.

Definition sort_by (l : list A) : list A := foldr insert_by [] l.

Lemma insert_by_perm x l : insert_by x l ≡ₚ x :: l.
Proof.
  induction l as [|y l IH]; simpl; [done|].
  destruct (cmp x y); try done. rewrite IH. constructor.
Qed.

Lemma sort_by_perm l : sort_by l ≡ₚ l.
Proof. induction l as [|x l IH]; simpl; [done|]. by rewrite insert_by_perm, IH. Qed.

Lemma length_insert_by x l : length (insert_by x l) = S (length l).
Proof. by rewrite insert_by_perm. Qed.

Lemma length_sort_by l : length (sort_by l) = length l.
Proof. by rewrite sort_by_perm. Qed.

Lemma elem_of_sort_by x l : x ∈ sort_by l ↔ x ∈ l.
Proof. by rewrite sort_by_perm. Qed.

Context `{!OrderCmp cmp}.

Lemma insert_by_sorted x l :
  StronglySorted (cmp_le cmp) l → StronglySorted (cmp_le cmp) (insert_by x l).
Proof.
  induction 1 as [|y l Hl IH Hy]; simpl; [repeat constructor|].
  destruct (cmp x y) eqn:E.
  3: { constructor; [done|]. rewrite insert_by_perm. constructor; [|done].
       apply cmp_lt_le, (cmp_gt_lt cmp), E. }
  all: assert (cmp_le cmp x y) as Hxy by (unfold cmp_le; congruence).
  all: constructor; [by constructor|]; constructor; [done|].
  all: eapply Forall_impl; [exact Hy|]; intros z Hz; by apply (cmp_le_trans cmp) with y.
Qed.

Lemma sort_by_sorted l : StronglySorted (cmp_le cmp) (sort_by l).
Proof. induction l; simpl; [constructor|]. by apply insert_by_sorted. Qed.

Lemma insert_by_le_head x l :
  Forall (cmp_le cmp x) l → insert_by x l = x :: l.
Proof.
  destruct l as [|y l]; [done|]. intros [Hxy _]%Forall_cons. simpl.
  unfold cmp_le in Hxy. by destruct (cmp x y).
Qed.

Lemma sort_by_id l : StronglySorted (cmp_le cmp) l → sort_by l = l.
Proof.
  induction 1 as [|x l Hl IH Hx]; simpl; [done|]. rewrite IH. by apply insert_by_le_head.
Qed.

(** Inserting a new maximum. *)
Lemma insert_by_snoc x l w :
  StronglySorted (cmp_le cmp) (l ++ [w]) → cmp x w = Gt → insert_by x (l ++ [w]) = l ++ [w; x].
Proof.
  intros Hl Hx. induction l as [|y l IH]; simpl in *; [by rewrite Hx|].
  apply StronglySorted_inv in Hl as [Hl Hy]. apply Forall_app in Hy as [_ [Hy _]%Forall_cons].
  assert (cmp x y = Gt) as ->.
  { apply (cmp_gt_lt cmp). apply (cmp_gt_lt cmp) in Hx. by apply (cmp_le_lt_trans cmp) with w. }
  by rewrite IH.
Qed.

(** Inserting below the maximum leaves it last. *)
Lemma insert_by_last x l w :
  cmp x w ≠ Gt → insert_by x (l ++ [w]) = insert_by x l ++ [w].
Proof.
  intros Hx. induction l as [|y l IH]; simpl; [by destruct (cmp x w)|].
  destruct (cmp x y); try done. by rewrite IH.
Qed.

(** The smallest [n] of a list grow with each element from the smallest [n] alone. *)
Lemma take_insert_by n x l :
  take n (insert_by x (take n l)) = take n (insert_by x l).
Proof.
  revert n. induction l as [|y l IH]; intros [|n]; simpl; [done..|].
  destruct (cmp x y); simpl; rewrite ?IH; [destruct n; simpl|destruct n; simpl|done].
  all: try done; by rewrite take_take, Nat.min_l by lia.
Qed.

(** Two sorted permutations agree when the comparator tells elements apart. *)
Lemma sorted_perm_unique l k :
  (∀ x y, x ∈ l → y ∈ l → cmp x y = Eq → x = y) →
  StronglySorted (cmp_le cmp) l → StronglySorted (cmp_le cmp) k → l ≡ₚ k → l = k.
Proof.
  intros Hinj Hl Hk Hp. apply (StronglySorted_unique_strong (cmp_le cmp)); [|done..].
  intros x1 x2 H1 H2 L1 L2. apply Hinj; [done|by rewrite Hp|].
  unfold cmp_le in *. rewrite (cmp_opp cmp x1 x2) in L2. by destruct (cmp x1 x2).
Qed.

Lemma sort_by_perm_eq l k :
  (∀ x y, x ∈ l → y ∈ l → cmp x y = Eq → x = y) →
  l ≡ₚ k → sort_by l = sort_by k.
Proof.
  intros Hinj Hp. apply sorted_perm_unique; [|apply sort_by_sorted..|].
  - intros x y. rewrite !elem_of_sort_by. apply Hinj.
  - by rewrite !sort_by_perm.
Qed.
End sort_by.

(** [Vec::dedup]: drops an element equal to the one before it. *)
Fixpoint dedup {A} `{EqDecision A} (l : list A) : list A :=
  match l with
  | [] => []
  | x :: l =>
      match dedup l with
      | [] => [x]
      | y :: k => if decide (x = y) then y :: k else x :: y :: k
      end
  end.

Lemma elem_of_dedup {A} `{EqDecision A} (x : A) l : x ∈ dedup l ↔ x ∈ l.
Proof.
  induction l as [|y l IH]; simpl; [done|]. rewrite elem_of_cons, <- IH.
  destruct (dedup l) as [|z k]; [by rewrite elem_of_cons|].
  case_decide as E; rewrite !elem_of_cons; [subst; naive_solver|done].
Qed.

(** A sorted vector deduplicates to a strictly sorted one. *)
Lemma dedup_sorted {A} `{EqDecision A} (cmp : A → A → comparison) `{!OrderCmp cmp} l :
  (∀ x y, cmp x y = Eq → x = y) → StronglySorted (cmp_le cmp) l →
  StronglySorted (λ x y, cmp x y = Lt) (dedup l).
Proof.
  intros Heq. induction 1 as [|x l Hl IH Hx]; simpl; [constructor|].
  assert (∀ y, y ∈ dedup l → cmp_le cmp x y) as Hle.
  { intros y Hy. rewrite elem_of_dedup in Hy. rewrite Forall_forall in Hx. by apply Hx. }
  destruct (dedup l) as [|y k]; [repeat constructor|].
  case_decide as E; [done|]. constructor; [done|].
  assert (cmp x y = Lt) as Hlt.
  { specialize (Hle y ltac:(by left)). unfold cmp_le in Hle.
    destruct (cmp x y) eqn:C; [by apply Heq in C|done|done]. }
  apply StronglySorted_inv in IH as [_ Hk]. constructor; [done|].
  eapply Forall_impl; [exact Hk|]. intros z Hz. simpl in Hz. by apply (cmp_lt_trans cmp) with y.
Qed.

Lemma strictly_sorted_NoDup {A} (cmp : A → A → comparison) `{!OrderCmp cmp} l :
  StronglySorted (λ x y, cmp x y = Lt) l → NoDup l.
Proof.
  induction 1 as [|x l _ IH Hx]; constructor; [|done].
  intros Hin. rewrite Forall_forall in Hx. apply Hx in Hin. by rewrite (cmp_refl cmp) in Hin.
Qed.

(** A sorted list without repeats is strictly sorted. *)
Lemma sorted_strict {A} (cmp : A → A → comparison) l :
  (∀ x y, cmp x y = Eq → x = y) →
  StronglySorted (cmp_le cmp) l → NoDup l → StronglySorted (λ x y, cmp x y = Lt) l.
Proof.
  intros Heq. induction 1 as [|x l _ IH Hx]; [constructor|]. intros [Hnotin Hnd]%NoDup_cons.
  constructor; [by apply IH|]. rewrite Forall_forall in Hx |- *. intros y Hy.
  specialize (Hx y Hy). unfold cmp_le in Hx. destruct (cmp x y) eqn:E; [|done|done].
  apply Heq in E. by subst.
Qed.

(** Dropping elements keeps keys distinct. *)
Lemma NoDup_filtered {A B} (f : A → B) (p : A → bool) l :
  NoDup (f <$> l) → NoDup (f <$> List.filter p l).
Proof.
  induction l as [|x l IH]; csimpl; [done|]. intros [Hx Hnd]%NoDup_cons.
  destruct (p x); [|by apply IH]. csimpl. constructor; [|by apply IH].
  intros (y & Hy & Hin)%list_elem_of_fmap. apply Hx. rewrite Hy. apply list_elem_of_fmap_2.
  apply list_elem_of_In, filter_In in Hin as [Hin _]. by apply list_elem_of_In.
Qed.

(** ** Maps

    A [HashMap] is a [gmap]; the source never relies on its iteration order, so
    where it iterates, the model uses [map_to_list] and the theorems hold for
    any order. A [BTreeMap] is a [gmap] iterated in key order. *)

Section btree.
Context {K V : Type} `{Countable K, !KeyOrd K}.

Definition btree_iter (m : gmap K V) : list (K * V) :=
  sort_by (λ x y, key_cmp x.1 y.1) (map_to_list m).

Definition btree_keys (m : gmap K V) : list K := (btree_iter m).*1.

Lemma btree_iter_perm m : btree_iter m ≡ₚ map_to_list m.
Proof. apply sort_by_perm. Qed.

Lemma elem_of_btree_iter m k v : (k, v) ∈ btree_iter m ↔ m !! k = Some v.
Proof. rewrite btree_iter_perm. apply elem_of_map_to_list. Qed.

Lemma elem_of_btree_keys m k : k ∈ btree_keys m ↔ is_Some (m !! k).
Proof.
  unfold btree_keys. rewrite list_elem_of_fmap. split.
  - intros ([k' v] & -> & Hv). exists v. by apply elem_of_btree_iter.
  - intros [v Hv]. exists (k, v). by rewrite elem_of_btree_iter.
Qed.

Lemma NoDup_btree_keys m : NoDup (btree_keys m).
Proof. unfold btree_keys. rewrite btree_iter_perm. apply NoDup_fst_map_to_list. Qed.

Lemma btree_iter_sorted m :
  StronglySorted (cmp_le (λ x y : K * V, key_cmp x.1 y.1)) (btree_iter m).
Proof. apply sort_by_sorted, (cmp_on_order fst key_cmp key_cmp_order). Qed.

Lemma btree_keys_sorted m : StronglySorted (cmp_le key_cmp) (btree_keys m).
Proof.
  unfold btree_keys. apply StronglySorted_fmap with (R1 := cmp_le (λ x y : K * V, key_cmp x.1 y.1)).
  - done.
  - apply btree_iter_sorted.
Qed.

Lemma list_to_map_btree_iter m : list_to_map (btree_iter m) = m.
Proof.
  apply map_eq. intros k. apply option_eq. intros v.
  rewrite <- elem_of_list_to_map by apply NoDup_btree_keys. apply elem_of_btree_iter.
Qed.

Lemma btree_iter_empty : btree_iter ∅ = [].
Proof. unfold btree_iter. by rewrite map_to_list_empty. Qed.
End btree.

(** ** Collecting pairs into a map

    [Iterator::collect] into a map inserts in turn, so the last pair of a key
    stays. *)

Section collect.
Context {K V : Type} `{Countable K}.

Definition collect_into (m : gmap K V) (l : list (K * V)) : gmap K V :=
  foldl (λ m kv, <[kv.1 := kv.2]> m) m l.

Definition collect (l : list (K * V)) : gmap K V := collect_into ∅ l.

Lemma collect_into_notin m l k : k ∉ l.*1 → collect_into m l !! k = m !! k.
Proof.
  revert m. induction l as [|[k' v] l IH]; intros m; [done|].
  csimpl. rewrite not_elem_of_cons. intros [Hne Hnotin]. unfold collect_into in *. simpl.
  rewrite IH by done. by apply lookup_insert_ne.
Qed.

(** A collected key holds one of its pairs; an absent one has none. *)
Lemma collect_into_cases m l k :
  match collect_into m l !! k with
  | Some v => (k, v) ∈ l ∨ m !! k = Some v
  | None => k ∉ l.*1
  end.
Proof.
  revert m. induction l as [|[k' v'] l IH]; intros m.
  - simpl. destruct (m !! k); [by right|]. by apply not_elem_of_nil.
  - specialize (IH (<[k' := v']> m)). change (collect_into m ((k', v') :: l)) with
      (collect_into (<[k' := v']> m) l).
    destruct (collect_into _ l !! k) as [v|] eqn:E.
    + destruct IH as [IH|IH]; [left; by right|]. destruct (decide (k' = k)) as [->|Hne].
      * rewrite lookup_insert_eq in IH. injection IH as ->. left. by left.
      * rewrite lookup_insert_ne in IH by done. by right.
    + csimpl. rewrite not_elem_of_cons. split; [|done]. intros ->.
      rewrite collect_into_notin, lookup_insert_eq in E by done. done.
Qed.

Lemma collect_cases l k :
  match collect l !! k with Some v => (k, v) ∈ l | None => k ∉ l.*1 end.
Proof.
  pose proof (collect_into_cases ∅ l k) as Hc. unfold collect.
  destruct (collect_into ∅ l !! k); [|done]. destruct Hc as [Hc|Hc]; [done|].
  by rewrite lookup_empty in Hc.
Qed.

(** When a key's pairs agree, the map holds exactly the listed pairs. *)
Definition functional_pairs (l : list (K * V)) : Prop :=
  ∀ k v v', (k, v) ∈ l → (k, v') ∈ l → v = v'.

Lemma collect_into_elem m l k v :
  functional_pairs l → (k, v) ∈ l → collect_into m l !! k = Some v.
Proof.
  revert m. induction l as [|[k' v'] l IH]; intros m Hf Hin; [by apply not_elem_of_nil in Hin|].
  destruct (decide (k ∈ l.*1)) as [Hl|Hl].
  - apply list_elem_of_fmap in Hl as ([k1 v1] & -> & Hin1). simpl in *.
    assert (v = v1) as -> by (eapply Hf; [exact Hin|by right]).
    apply IH; [|done]. intros ? ? ? ? ?. eapply Hf; by right.
  - apply elem_of_cons in Hin as [[= <- <-]|Hin].
    + change (collect_into (<[k := v]> m) l !! k = Some v).
      rewrite collect_into_notin by done. apply lookup_insert_eq.
    + destruct Hl. apply list_elem_of_fmap. by exists (k, v).
Qed.

Lemma collect_lookup l k v :
  functional_pairs l → collect l !! k = Some v ↔ (k, v) ∈ l.
Proof.
  intros Hf. split; [|by apply collect_into_elem].
  intros Hk. destruct (decide (k ∈ l.*1)) as [Hl|Hl].
  - apply list_elem_of_fmap in Hl as ([k1 v1] & -> & Hin1). simpl in *.
    unfold collect in Hk. rewrite (collect_into_elem ∅ l k1 v1) in Hk by done. by injection Hk as ->.
  - unfold collect in Hk. rewrite collect_into_notin in Hk by done.
    by rewrite lookup_empty in Hk.
Qed.

Lemma functional_pairs_NoDup l : NoDup l.*1 → functional_pairs l.
Proof.
  intros Hnd k v v' H1 H2. apply list_elem_of_lookup in H1 as [i Hi].
  apply list_elem_of_lookup in H2 as [j Hj].
  assert (i = j) as ->.
  { apply (NoDup_lookup _ i j k Hnd); by rewrite list_lookup_fmap, ?Hi, ?Hj. }
  congruence.
Qed.

Lemma collect_btree_iter `{!KeyOrd K} (m : gmap K V) : collect (btree_iter m) = m.
Proof.
  apply map_eq. intros k. apply option_eq. intros v.
  rewrite collect_lookup, elem_of_btree_iter; [done|].
  apply functional_pairs_NoDup, NoDup_btree_keys.
Qed.
End collect.
