(* ===== verification/Text.v ===== *)
(** The parts of Rust's [str] the source uses. A [String] is the byte string of
    its UTF-8 encoding, so [len] is its byte length; bytes are [ascii]. *)

From Stdlib Require Import ZArith Lia Ascii DecimalString DecimalPos DecimalN DecimalFacts.
From S2P Require Import Prelude.

Definition comma : ascii := ",".
Definition colon : ascii := ":".
Definition dot : ascii := ".".

(** ** Splitting *)

(** [str::split_once] with an ASCII separator. *)
Fixpoint split_once (sep : ascii) (s : string) : option (string * string) :=
  match s with
  | EmptyString => None
  | String c r =>
      if Ascii.eqb c sep then Some (EmptyString, r)
      else match split_once sep r with
           | Some (a, b) => Some (String c a, b)
           | None => None
           end
  end.

(** [str::splitn]: at most [n] pieces, the last holding the rest. *)
Fixpoint splitn (n : nat) (sep : ascii) (s : string) : list string :=
  match n with
  | O => []
  | S O => [s]
  | S n' => match split_once sep s with
            | Some (a, b) => a :: splitn n' sep b
            | None => [s]
            end
  end.

(** [str::split] with an ASCII separator: never empty. *)
Fixpoint split (sep : ascii) (s : string) : list string :=
  match s with
  | EmptyString => [EmptyString]
  | String c r =>
      if Ascii.eqb c sep then EmptyString :: split sep r
      else match split sep r with
           | p :: ps => String c p :: ps
           | [] => [String c EmptyString]
           end
  end.

Fixpoint contains_char (sep : ascii) (s : string) : bool :=
  match s with
  | EmptyString => false
  | String c r => Ascii.eqb c sep || contains_char sep r
  end.

Fixpoint all_chars (p : ascii → bool) (s : string) : bool :=
  match s with
  | EmptyString => true
  | String c r => p c && all_chars p r
  end.

Fixpoint filter_chars (p : ascii → bool) (s : string) : string :=
  match s with
  | EmptyString => EmptyString
  | String c r => if p c then String c (filter_chars p r) else filter_chars p r
  end.

Fixpoint map_chars (f : ascii → ascii) (s : string) : string :=
  match s with
  | EmptyString => EmptyString
  | String c r => String (f c) (map_chars f r)
  end.

Definition is_empty (s : string) : bool :=
  match s with EmptyString => true | _ => false end.

(** [str::starts_with]. *)
Definition starts_with (prefix s : string) : bool := String.prefix prefix s.

(** ** Character classes *)

Definition is_digit (c : ascii) : bool :=
  let n := N_of_ascii c in (48 <=? n)%N && (n <=? 57)%N.
Definition is_upper (c : ascii) : bool :=
  let n := N_of_ascii c in (65 <=? n)%N && (n <=? 90)%N.
Definition is_lower (c : ascii) : bool :=
  let n := N_of_ascii c in (97 <=? n)%N && (n <=? 122)%N.
(** [char::is_ascii_alphanumeric]. *)
Definition is_alphanumeric (c : ascii) : bool := is_digit c || is_upper c || is_lower c.
(** [char::to_ascii_lowercase]. *)
Definition to_lower (c : ascii) : ascii :=
  if is_upper c then ascii_of_N (N_of_ascii c + 32) else c.
(** [str::eq_ignore_ascii_case]. *)
Definition eq_ignore_ascii_case (a b : string) : bool :=
  String.eqb (map_chars to_lower a) (map_chars to_lower b).

(** ** Trimming

    [str::trim] removes Unicode [White_Space], read off the UTF-8 bytes:
    U+0009-000D and U+0020; U+0085 and U+00A0 (two bytes); U+1680, U+2000-200A,
    U+2028, U+2029, U+202F, U+205F and U+3000 (three bytes). *)

Definition ws1 (a : ascii) : bool :=
  let n := N_of_ascii a in ((9 <=? n) && (n <=? 13) || (n =? 32))%N.
Definition ws2 (a b : ascii) : bool :=
  ((N_of_ascii a =? 194) && ((N_of_ascii b =? 133) || (N_of_ascii b =? 160)))%N.
Definition ws3 (a b c : ascii) : bool :=
  let x := N_of_ascii a in let y := N_of_ascii b in let z := N_of_ascii c in
  ((x =? 225) && (y =? 154) && (z =? 128)
   || (x =? 226) && (y =? 128)
      && ((128 <=? z) && (z <=? 138) || (z =? 168) || (z =? 169) || (z =? 175))
   || (x =? 226) && (y =? 129) && (z =? 159)
   || (x =? 227) && (y =? 128) && (z =? 128))%N.

Fixpoint trim_with (w2 : ascii → ascii → bool) (w3 : ascii → ascii → ascii → bool)
    (s : string) : string :=
  match s with
  | EmptyString => EmptyString
  | String a r1 =>
      if ws1 a then trim_with w2 w3 r1
      else match r1 with
           | EmptyString => s
           | String b r2 =>
               if w2 a b then trim_with w2 w3 r2
               else match r2 with
                    | EmptyString => s
                    | String c r3 => if w3 a b c then trim_with w2 w3 r3 else s
                    end
           end
  end.

Fixpoint rev_append (s acc : string) : string :=
  match s with
  | EmptyString => acc
  | String c r => rev_append r (String c acc)
  end.
Definition rev_string (s : string) : string := rev_append s EmptyString.

Definition trim_start (s : string) : string := trim_with ws2 ws3 s.
Definition trim_end (s : string) : string :=
  rev_string (trim_with (λ b a, ws2 a b) (λ c b a, ws3 a b c) (rev_string s)).
Definition trim (s : string) : string := trim_end (trim_start s).

(** ** Integers as text *)

(** A non-empty run of digits. *)
Definition parse_digits (s : string) : option Z :=
  match s with
  | EmptyString => None
  | _ => (λ d, Z.of_N (N.of_uint d)) <$> NilEmpty.uint_of_string s
  end.

Definition in_range (low high z : Z) : option Z :=
  if ((low <=? z) && (z <=? high))%Z then Some z else None.

(** [str::parse] at a signed integer type: an optional sign, then digits, within
    the type's bounds. *)
Definition parse_signed (low high : Z) (s : string) : option Z :=
  match s with
  | String "-" r => n ← parse_digits r; in_range low high (- n)
  | String "+" r => n ← parse_digits r; in_range low high n
  | _ => n ← parse_digits s; in_range low high n
  end.
Definition parse_i32 : string → option Z := parse_signed i32_min i32_max.
Definition parse_i64 : string → option Z := parse_signed i64_min i64_max.

Definition print_N (n : N) : string := NilEmpty.string_of_uint (N.to_uint n).
(** [Display] of an integer. *)
Definition print_Z (z : Z) : string :=
  match z with
  | Zneg p => String "-" (print_N (Npos p))
  | _ => print_N (Z.to_N z)
  end.

(** ** Lemmas on splitting *)

#[global] Arguments String.append !_ _ / : simpl nomatch.

Lemma app_cons c s t : String c s +:+ t = String c (s +:+ t).
Proof. done. Qed.

Lemma append_assoc s t u : (s +:+ t) +:+ u = s +:+ (t +:+ u).
Proof. induction s as [|c s IH]; simpl; [done|]. by rewrite IH. Qed.

Lemma append_nil_r s : s +:+ EmptyString = s.
Proof. induction s as [|c s IH]; simpl; [done|]. by rewrite IH. Qed.

Lemma split_once_app sep a b :
  contains_char sep a = false → split_once sep (a +:+ String sep b) = Some (a, b).
Proof.
  induction a as [|c a IH]; simpl.
  - by rewrite Ascii.eqb_refl.
  - intros [-> H]%orb_false_iff. by rewrite IH.
Qed.

Lemma split_once_none sep s : contains_char sep s = false → split_once sep s = None.
Proof.
  induction s as [|c s IH]; simpl; [done|].
  intros [-> H]%orb_false_iff. by rewrite IH.
Qed.

Lemma split_once_some sep s a b :
  split_once sep s = Some (a, b) → s = a +:+ String sep b ∧ contains_char sep a = false.
Proof.
  revert a. induction s as [|c s IH]; intros a; simpl; [done|].
  destruct (Ascii.eqb_spec c sep) as [->|Hne].
  - intros [= <- <-]. done.
  - destruct (split_once sep s) as [[a' b']|]; [|done]. intros [= <- <-].
    destruct (IH a') as [-> H]; [done|]. split; [done|]. simpl.
    by rewrite (proj2 (Ascii.eqb_neq c sep)).
Qed.

Lemma split_nonempty sep s : split sep s ≠ [].
Proof.
  destruct s as [|c s]; simpl; [done|]. destruct (Ascii.eqb c sep); [done|].
  by destruct (split sep s).
Qed.

Lemma split_no_sep sep s : contains_char sep s = false → split sep s = [s].
Proof.
  induction s as [|c s IH]; simpl; [done|].
  intros [-> H]%orb_false_iff. by rewrite IH.
Qed.

Lemma split_app sep a b :
  contains_char sep a = false → split sep (a +:+ String sep b) = a :: split sep b.
Proof.
  induction a as [|c a IH]; simpl.
  - by rewrite Ascii.eqb_refl.
  - intros [-> H]%orb_false_iff. by rewrite IH.
Qed.

Lemma split_pieces sep s : Forall (λ p, contains_char sep p = false) (split sep s).
Proof.
  induction s as [|c s IH]; simpl; [repeat constructor|].
  destruct (Ascii.eqb c sep) eqn:E; [by constructor|].
  destruct (split sep s) as [|p ps]; inversion_clear IH; constructor; simpl;
    rewrite ?E; done.
Qed.

Lemma contains_char_app sep a b :
  contains_char sep (a +:+ b) = contains_char sep a || contains_char sep b.
Proof. induction a as [|c a IH]; simpl; [done|]. by rewrite IH, orb_assoc. Qed.

(** ** Lemmas on integers as text *)

Lemma uint_string_digits d : all_chars is_digit (NilEmpty.string_of_uint d) = true.
Proof. induction d; simpl; try done; by rewrite IHd. Qed.

Lemma print_N_digits n : all_chars is_digit (print_N n) = true.
Proof. apply uint_string_digits. Qed.

Lemma print_N_nonempty n : print_N n ≠ EmptyString.
Proof.
  unfold print_N. intros H.
  assert (N.to_uint n = Decimal.Nil) as E by (destruct (N.to_uint n); simpl in H; congruence).
  destruct n as [|p]; [done|]. revert E. apply DecimalPos.Unsigned.to_uint_nonnil.
Qed.

Lemma parse_digits_print n : parse_digits (print_N n) = Some (Z.of_N n).
Proof.
  unfold parse_digits. destruct (print_N n) as [|c s] eqn:E.
  - by destruct (print_N_nonempty n).
  - rewrite <- E. unfold print_N. rewrite NilEmpty.usu. simpl.
    by rewrite DecimalN.Unsigned.of_to.
Qed.

Lemma all_chars_forall p s c r : s = String c r → all_chars p s = true → p c = true.
Proof. intros -> [H _]%andb_true_iff. done. Qed.

Lemma digits_no_char sep s :
  all_chars is_digit s = true → is_digit sep = false → contains_char sep s = false.
Proof.
  intros H Hsep. induction s as [|c s IH]; simpl in *; [done|].
  apply andb_true_iff in H as [Hc H]. rewrite IH by done.
  destruct (Ascii.eqb_spec c sep) as [->|]; [congruence|done].
Qed.

Lemma parse_signed_print low high z :
  (low ≤ z ≤ high)%Z → parse_signed low high (print_Z z) = Some z.
Proof.
  intros Hz.
  assert (in_range low high z = Some z) as Hr.
  { unfold in_range. by rewrite (proj2 (Z.leb_le low z)), (proj2 (Z.leb_le z high)) by lia. }
  destruct (decide (z < 0)%Z) as [Hneg|Hpos].
  - destruct z as [|p|p]; try lia. unfold print_Z, parse_signed.
    rewrite parse_digits_print. exact Hr.
  - assert (print_Z z = print_N (Z.to_N z)) as -> by (by destruct z).
    unfold parse_signed.
    pose proof (print_N_digits (Z.to_N z)) as Hd.
    pose proof (parse_digits_print (Z.to_N z)) as Hp.
    rewrite Z2N.id in Hp by lia.
    destruct (print_N (Z.to_N z)) as [|c s] eqn:E; [done|].
    pose proof (all_chars_forall _ _ _ _ eq_refl Hd) as Hc.
    destruct c as [[] [] [] [] [] [] [] []]; try (vm_compute in Hc; discriminate Hc);
      rewrite Hp; exact Hr.
Qed.

Lemma parse_signed_range low high s z :
  parse_signed low high s = Some z → (low ≤ z ≤ high)%Z.
Proof.
  assert (∀ n, in_range low high n = Some z → (low ≤ z ≤ high)%Z) as Hr.
  { intros n. unfold in_range. destruct ((low <=? n) && (n <=? high))%Z eqn:E; [|done].
    intros [= <-]. apply andb_true_iff in E. lia. }
  unfold parse_signed.
  repeat (case_match; try done); intros (n & _ & Hn)%bind_Some; by apply Hr in Hn.
Qed.

Lemma print_Z_no_char sep z :
  is_digit sep = false → Ascii.eqb "-" sep = false → contains_char sep (print_Z z) = false.
Proof.
  intros Hd Hm.
  assert (∀ n, contains_char sep (print_N n) = false) as Hn.
  { intros n. apply digits_no_char, Hd. apply print_N_digits. }
  destruct z as [|p|p]; unfold print_Z; [apply Hn..|].
  change (Ascii.eqb "-" sep || contains_char sep (print_N (N.pos p)) = false).
  by rewrite Hm, Hn.
Qed.

Lemma print_Z_nonempty z : print_Z z ≠ EmptyString.
Proof. destruct z; unfold print_Z; try apply print_N_nonempty. done. Qed.

(** ** Lemmas on trimming *)

Lemma rev_append_app s acc : rev_append s acc = rev_append s EmptyString +:+ acc.
Proof.
  revert acc. induction s as [|c s IH]; intros acc; simpl; [done|].
  rewrite IH, (IH (String c EmptyString)), append_assoc. done.
Qed.

Lemma rev_string_cons c s : rev_string (String c s) = rev_string s +:+ String c EmptyString.
Proof. unfold rev_string. simpl. apply rev_append_app. Qed.

Lemma rev_string_app s t : rev_string (s +:+ t) = rev_string t +:+ rev_string s.
Proof.
  induction s as [|c s IH]; simpl.
  - by rewrite append_nil_r.
  - rewrite !rev_string_cons, IH, append_assoc. done.
Qed.

Lemma rev_string_involutive s : rev_string (rev_string s) = s.
Proof.
  induction s as [|c s IH]; [done|].
  rewrite rev_string_cons, rev_string_app, IH. done.
Qed.

(** A printable ASCII byte is no part of a [White_Space] character, wherever it
    stands. *)
Definition is_graphic (c : ascii) : bool :=
  let n := N_of_ascii c in (33 <=? n)%N && (n <=? 126)%N.

Lemma trim_with_graphic w2 w3 c s :
  is_graphic c = true →
  (∀ b, w2 c b = false) → (∀ b d, w3 c b d = false) →
  trim_with w2 w3 (String c s) = String c s.
Proof.
  intros Hc H2 H3. simpl.
  assert (ws1 c = false) as ->.
  { unfold is_graphic, ws1 in *. apply andb_true_iff in Hc as [H33 H126].
    apply N.leb_le in H33. apply N.leb_le in H126.
    destruct (N.leb_spec (N_of_ascii c) 13); [lia|].
    destruct (N.eqb_spec (N_of_ascii c) 32); [lia|]. by rewrite andb_false_r. }
  destruct s as [|b s]; [done|]. rewrite H2. destruct s as [|d s]; [done|]. by rewrite H3.
Qed.

Lemma graphic_not_ws c :
  is_graphic c = true →
  (∀ b, ws2 c b = false) ∧ (∀ b, ws2 b c = false) ∧
  (∀ b d, ws3 c b d = false) ∧ (∀ b d, ws3 d b c = false).
Proof.
  intros Hc.
  destruct c as [[] [] [] [] [] [] [] []]; try (vm_compute in Hc; discriminate Hc);
    repeat split; intros; unfold ws2, ws3; simpl;
    rewrite ?andb_false_r; done.
Qed.

Lemma trim_graphic c s d :
  is_graphic c = true → is_graphic d = true →
  trim (String c (s +:+ String d EmptyString)) = String c (s +:+ String d EmptyString).
Proof.
  intros Hc Hd. unfold trim, trim_start, trim_end.
  destruct (graphic_not_ws c Hc) as (Hc1 & _ & Hc3 & _).
  destruct (graphic_not_ws d Hd) as (_ & Hd2 & _ & Hd4).
  rewrite trim_with_graphic by done.
  rewrite <- app_cons, rev_string_app. simpl (rev_string (String d EmptyString)).
  unfold rev_string at 2; simpl (rev_append _ _).
  rewrite app_cons, trim_with_graphic by done.
  simpl. rewrite rev_string_cons, rev_string_involutive. done.
Qed.

Lemma all_chars_app p a b : all_chars p (a +:+ b) = all_chars p a && all_chars p b.
Proof. induction a as [|c a IH]; simpl; [done|]. by rewrite IH, andb_assoc. Qed.

Lemma all_chars_impl (p q : ascii → bool) s :
  (∀ c, p c = true → q c = true) → all_chars p s = true → all_chars q s = true.
Proof.
  intros H. induction s as [|c s IH]; simpl; [done|].
  rewrite !andb_true_iff. intros [Hc Hs]. split; [by apply H | by apply IH].
Qed.

Lemma string_snoc s : s ≠ EmptyString → ∃ t d, s = t +:+ String d EmptyString.
Proof.
  induction s as [|c s IH]; [done|]. intros _. destruct s as [|c' s].
  - by exists EmptyString, c.
  - destruct IH as (t & d & ->); [done|]. by exists (String c t), d.
Qed.

(** Text of printable ASCII without spaces is its own trimming. *)
Lemma trim_all_graphic s : all_chars is_graphic s = true → trim s = s.
Proof.
  intros H. destruct s as [|c s]; [done|].
  apply andb_true_iff in H as [Hc H].
  destruct (decide (s = EmptyString)) as [->|Hne].
  - unfold trim, trim_start, trim_end. destruct (graphic_not_ws c Hc) as (Hc1 & Hc2 & Hc3 & Hc4).
    rewrite trim_with_graphic by done.
    change (rev_string (String c EmptyString)) with (String c EmptyString).
    rewrite trim_with_graphic by done. done.
  - destruct (string_snoc s Hne) as (t & d & ->).
    rewrite all_chars_app in H. apply andb_true_iff in H as [_ H].
    apply andb_true_iff in H as [Hd _]. by apply trim_graphic.
Qed.

Lemma digit_graphic c : is_digit c = true → is_graphic c = true.
Proof.
  unfold is_digit, is_graphic. rewrite !andb_true_iff, !N.leb_le. lia.
Qed.

Lemma print_Z_graphic z : all_chars is_graphic (print_Z z) = true.
Proof.
  assert (∀ n, all_chars is_graphic (print_N n) = true) as Hn.
  { intros n. apply (all_chars_impl is_digit), print_N_digits. apply digit_graphic. }
  destruct z as [|p|p]; unfold print_Z; [apply Hn..|]. apply (Hn (N.pos p)).
Qed.

(** The pieces joined by a separator. *)
Fixpoint join (sep : ascii) (pieces : list string) : string :=
  match pieces with
  | [] => EmptyString
  | [p] => p
  | p :: ps => p +:+ String sep (join sep ps)
  end.

Lemma split_join sep pieces :
  pieces ≠ [] → Forall (λ p, contains_char sep p = false) pieces →
  split sep (join sep pieces) = pieces.
Proof.
  intros Hne H. induction H as [|p ps Hp Hps IH]; [done|].
  destruct ps as [|q ps]; [by apply split_no_sep|].
  change (split sep (p +:+ String sep (join sep (q :: ps))) = p :: q :: ps).
  rewrite split_app by done. f_equal. by apply IH.
Qed.

Lemma all_chars_join p sep pieces :
  p sep = true → Forall (λ s, all_chars p s = true) pieces →
  all_chars p (join sep pieces) = true.
Proof.
  intros Hsep. induction 1 as [|s ps Hs Hps IH]; [done|].
  destruct ps as [|q ps]; [done|].
  change (all_chars p (s +:+ String sep (join sep (q :: ps))) = true).
  rewrite all_chars_app, Hs. simpl. by rewrite Hsep.
Qed.


(** ** Prefixes *)

Lemma starts_with_refl s : starts_with s s = true.
Proof. unfold starts_with. induction s as [|c s IH]; simpl; [done|]. by destruct (ascii_dec c c). Qed.

Lemma starts_with_spec p s : starts_with p s = true ↔ ∃ r, s = p +:+ r.
Proof.
  unfold starts_with. revert s. induction p as [|a p IH]; intros s; simpl.
  - split; [by exists s|]. by destruct s.
  - destruct s as [|b s]; [split; [done|by intros [r Hr]]|].
    simpl. destruct (ascii_dec a b) as [->|Hne].
    + etransitivity; [apply IH|]. split; [intros [r ->]; by exists r|]. intros [r Hr]. exists r. by injection Hr.
    + split; [done|]. intros [r Hr]. injection Hr. congruence.
Qed.

(** Two prefixes of one text: one extends the other. *)
Lemma starts_with_chain x y t :
  starts_with x t = true → starts_with y t = true →
  starts_with y x = true ∨ starts_with x y = true.
Proof.
  unfold starts_with. revert y t. induction x as [|a x IH]; intros y t; simpl.
  - intros _ _. right. by destruct y.
  - destruct y as [|b y]; [by left|]. destruct t as [|c t]; [done|]. simpl.
    destruct (ascii_dec a c) as [->|]; [|done]. destruct (ascii_dec b c) as [->|]; [|done].
    destruct (ascii_dec c c) as [_|]; [|done]. apply IH.
Qed.
