(* ===== verification/Utf8.v ===== *)
(** UTF-8 as Rust's standard library reads it: [str::from_utf8],
    [String::from_utf8_lossy] and [str::chars]. *)

From Stdlib Require Import ZArith Lia Ascii.
From S2P Require Import Prelude Text.

(** One step of the decoder: the bytes of a character, or a maximal run of bytes
    no character can start with. *)
Inductive chunk : Set := Valid (bytes : string) | Invalid.

Definition byte_in (low high : N) (a : ascii) : bool :=
  ((low <=? N_of_ascii a) && (N_of_ascii a <=? high))%N.

Definition continuation (a : ascii) : bool := byte_in 128 191 a.

(** The second byte a three-byte lead allows. *)
Definition second3 (a b : ascii) : bool :=
  byte_in 224 224 a && byte_in 160 191 b || byte_in 225 236 a && byte_in 128 191 b ||
  byte_in 237 237 a && byte_in 128 159 b || byte_in 238 239 a && byte_in 128 191 b.

(** The second byte a four-byte lead allows. *)
Definition second4 (a b : ascii) : bool :=
  byte_in 240 240 a && byte_in 144 191 b || byte_in 241 243 a && byte_in 128 191 b ||
  byte_in 244 244 a && byte_in 128 143 b.

Definition bytes1 (a : ascii) : string := String a EmptyString.
Definition bytes2 (a b : ascii) : string := String a (bytes1 b).
Definition bytes3 (a b c : ascii) : string := String a (bytes2 b c).
Definition bytes4 (a b c d : ascii) : string := String a (bytes3 b c d).

Fixpoint chunks (s : string) : list chunk :=
  match s with
  | EmptyString => []
  | String a r1 =>
      if byte_in 0 127 a then Valid (bytes1 a) :: chunks r1
      else if byte_in 194 223 a then
        match r1 with
        | String b r2 =>
            if continuation b then Valid (bytes2 a b) :: chunks r2 else Invalid :: chunks r1
        | EmptyString => [Invalid]
        end
      else if byte_in 224 239 a then
        match r1 with
        | String b r2 =>
            if second3 a b then
              match r2 with
              | String c r3 =>
                  if continuation c then Valid (bytes3 a b c) :: chunks r3
                  else Invalid :: chunks r2
              | EmptyString => [Invalid]
              end
            else Invalid :: chunks r1
        | EmptyString => [Invalid]
        end
      else if byte_in 240 244 a then
        match r1 with
        | String b r2 =>
            if second4 a b then
              match r2 with
              | String c r3 =>
                  if continuation c then
                    match r3 with
                    | String d r4 =>
                        if continuation d then Valid (bytes4 a b c d) :: chunks r4
                        else Invalid :: chunks r3
                    | EmptyString => [Invalid]
                    end
                  else Invalid :: chunks r2
              | EmptyString => [Invalid]
              end
            else Invalid :: chunks r1
        | EmptyString => [Invalid]
        end
      else Invalid :: chunks r1
  end.

Definition is_valid (c : chunk) : bool := match c with Valid _ => true | Invalid => false end.

(** [str::from_utf8(..).is_ok()]. *)
Definition utf8_valid (s : string) : bool := forallb is_valid (chunks s).

(** U+FFFD. *)
Definition REPLACEMENT : string := bytes3 "239" "191" "189".

Definition chunk_text (c : chunk) : string :=
  match c with Valid bytes => bytes | Invalid => REPLACEMENT end.

Fixpoint concat_strings (l : list string) : string :=
  match l with [] => EmptyString | s :: l' => s +:+ concat_strings l' end.

(** [String::from_utf8_lossy]. *)
Definition from_utf8_lossy (s : string) : string := concat_strings (map chunk_text (chunks s)).

(** [str::chars] of valid UTF-8, each character by its bytes. *)
Definition chars (s : string) : list string := map chunk_text (chunks s).

Lemma from_utf8_lossy_ascii s :
  all_chars (byte_in 0 127) s = true → from_utf8_lossy s = s ∧ utf8_valid s = true.
Proof.
  unfold from_utf8_lossy, utf8_valid.
  induction s as [|a s IH]; [done|]. intros [Ha H]%andb_true_iff.
  simpl chunks. rewrite Ha. simpl. destruct (IH H) as [-> ->]. done.
Qed.

Lemma chars_ascii s :
  all_chars (byte_in 0 127) s = true → chars s = map bytes1 (String.list_ascii_of_string s).
Proof.
  unfold chars. induction s as [|a s IH]; [done|]. intros [Ha H]%andb_true_iff.
  simpl chunks. rewrite Ha. simpl. by rewrite IH.
Qed.

(** Every character's bytes are a prefix of the text, so valid text is its own
    lossy decoding. *)
Lemma from_utf8_lossy_valid s : utf8_valid s = true → from_utf8_lossy s = s.
Proof.
  unfold from_utf8_lossy, utf8_valid.
  cut (∀ n s, String.length s ≤ n → forallb is_valid (chunks s) = true →
              concat_strings (map chunk_text (chunks s)) = s).
  { intros H. by apply (H (String.length s)). }
  clear s. induction n as [|n IH]; intros s Hn.
  { destruct s; simpl in Hn; [done|lia]. }
  destruct s as [|a r1]; [done|]. simpl in Hn. cbn [chunks].
  repeat first
    [ discriminate
    | match goal with
      | |- context [if ?b then _ else _] => destruct b
      | |- context [match ?r with EmptyString => _ | String _ _ => _ end] =>
          is_var r; destruct r; simpl in Hn
      end ];
    simpl; try discriminate; intros H; rewrite IH; by (done || lia).
Qed.
