(* ===== verification/Errors.v ===== *)
(** [src/kafka/error.rs]: the errors every component returns, the codes the API shows for
    them and their texts. krafka's own texts are parameters. *)

From S2P Require Import Prelude Text.

(** krafka's error code, by the variants the source tells apart; any other by
    Kafka's number for it. *)
Inductive ErrorCode : Set :=
  | SecurityDisabled
  | ClusterAuthorizationFailed
  | GroupIdNotFound
  | UnknownTopicOrPartition
  | OffsetNotAvailable
  | OtherCode (code : Z).

(** krafka's error: a broker's answer, or any other failure with its text. *)
Inductive KrafkaError : Set :=
  | Broker (code : ErrorCode) (message : string)
  | OtherKrafka (message : string).

Inductive QueryError : Set :=
  | LimitTooSmall
  | InvalidCursor
  | InvertedTimestampRange
  | FilterTooLong.

Definition QueryError_code (e : QueryError) : string :=
  match e with
  | LimitTooSmall => "LIMIT_TOO_SMALL"
  | InvalidCursor => "INVALID_CURSOR"
  | InvertedTimestampRange => "INVERTED_TIMESTAMP_RANGE"
  | FilterTooLong => "FILTER_TOO_LONG"
  end.

Record Refusal : Set := { refusal_code : ErrorCode; refusal_reason : option string }.

Inductive KafkaError : Set :=
  | UnknownCluster (cluster : string)
  | UnknownTopic (cluster topic : string)
  | UnknownGroup (cluster group : string)
  | UnknownBroker (cluster : string) (id : Z)
  | UnknownSubject (cluster subject : string) (version : Z)
  | UnknownSchema (cluster : string) (id : Z)
  | Unencodable (id : Z) (message : string)
  | UnknownPartition (cluster topic : string) (partition : Z)
  | UnknownOffset (cluster topic : string) (partition offset : Z)
  | InvalidQuery (query : QueryError)
  | Timeout_
  | Admin (message : string)
  | Refused (refusal : Refusal)
  | RegistryRefused (message : string)
  | NoSchemaRegistry (cluster : string)
  | InternalTopic (topic : string)
  | ActiveGroup (group : string)
  | ConsumedTopic (group topic : string)
  | NoCommittedOffset (group topic : string) (partition : Z)
  | PrefixedAcl
  | BrokerConfigs (id : Z) (message : string)
  | SchemaRegistry (cluster message : string)
  | Krafka (error : KrafkaError).

Definition KafkaError_code (e : KafkaError) : string :=
  match e with
  | UnknownCluster _ => "UNKNOWN_CLUSTER"
  | UnknownTopic _ _ => "UNKNOWN_TOPIC"
  | UnknownGroup _ _ => "UNKNOWN_GROUP"
  | UnknownBroker _ _ => "UNKNOWN_BROKER"
  | UnknownSubject _ _ _ => "UNKNOWN_SUBJECT"
  | UnknownSchema _ _ => "UNKNOWN_SCHEMA"
  | Unencodable _ _ => "UNENCODABLE"
  | UnknownPartition _ _ _ => "UNKNOWN_PARTITION"
  | UnknownOffset _ _ _ _ => "UNKNOWN_OFFSET"
  | InvalidQuery query => QueryError_code query
  | Timeout_ => "TIMEOUT"
  | Admin _ => "ADMIN"
  | Refused _ => "REFUSED"
  | RegistryRefused _ => "REGISTRY_REFUSED"
  | NoSchemaRegistry _ => "NO_SCHEMA_REGISTRY"
  | InternalTopic _ => "INTERNAL_TOPIC"
  | ActiveGroup _ => "ACTIVE_GROUP"
  | ConsumedTopic _ _ => "CONSUMED_TOPIC"
  | NoCommittedOffset _ _ _ => "NO_COMMITTED_OFFSET"
  | PrefixedAcl => "PREFIXED_ACL"
  | BrokerConfigs _ _ => "BROKER_CONFIGS"
  | SchemaRegistry _ _ => "SCHEMA_REGISTRY"
  | Krafka _ => "CLIENT"
  end.

#[export] Instance ErrorCode_eq_dec : EqDecision ErrorCode.
Proof. solve_decision. Defined.
#[export] Instance KrafkaError_eq_dec : EqDecision KrafkaError.
Proof. solve_decision. Defined.
#[export] Instance QueryError_eq_dec : EqDecision QueryError.
Proof. solve_decision. Defined.
#[export] Instance Refusal_eq_dec : EqDecision Refusal.
Proof. solve_decision. Defined.
#[export] Instance KafkaError_eq_dec : EqDecision KafkaError.
Proof. solve_decision. Defined.

(** ** Texts *)

(** [Debug] of krafka's code and [Display] of its error. *)
Class KrafkaTexts : Type := {
  error_code_debug : ErrorCode → string;
  krafka_text : KrafkaError → string;
}.

Definition QueryError_text (e : QueryError) : string :=
  match e with
  | LimitTooSmall => "limit must be at least 1"
  | InvalidCursor => "cursor is invalid"
  | InvertedTimestampRange => "`from` must not be after `to`"
  | FilterTooLong => "`contains` is too long to search for"
  end.

Section texts.
Context `{!KrafkaTexts}.

Definition Refusal_text (r : Refusal) : string :=
  match refusal_reason r with
  | Some reason => reason
  | None => error_code_debug (refusal_code r)
  end.

Definition KafkaError_text (e : KafkaError) : string :=
  match e with
  | UnknownCluster cluster => "unknown cluster '" +:+ cluster +:+ "'"
  | UnknownTopic cluster topic => "unknown topic '" +:+ topic +:+ "' in cluster '" +:+ cluster +:+ "'"
  | UnknownGroup cluster group => "unknown group '" +:+ group +:+ "' in cluster '" +:+ cluster +:+ "'"
  | UnknownBroker cluster id => "unknown broker " +:+ print_Z id +:+ " in cluster '" +:+ cluster +:+ "'"
  | UnknownSubject cluster subject version =>
      "unknown schema subject '" +:+ subject +:+ "' version " +:+ print_Z version +:+
      " in cluster '" +:+ cluster +:+ "'"
  | UnknownSchema cluster id => "unknown schema " +:+ print_Z id +:+ " in cluster '" +:+ cluster +:+ "'"
  | Unencodable id message =>
      "the payload does not fit schema " +:+ print_Z id +:+ ": " +:+ message
  | UnknownPartition cluster topic partition =>
      "unknown partition " +:+ print_Z partition +:+ " for topic '" +:+ topic +:+
      "' in cluster '" +:+ cluster +:+ "'"
  | UnknownOffset cluster topic partition offset =>
      "no record at offset " +:+ print_Z offset +:+ " of partition " +:+ print_Z partition +:+
      " in topic '" +:+ topic +:+ "' in cluster '" +:+ cluster +:+ "'"
  | InvalidQuery query => "invalid record query: " +:+ QueryError_text query
  | Timeout_ => "kafka request timed out"
  | Admin message => "kafka admin request failed: " +:+ message
  | Refused refusal => "kafka refused the change: " +:+ Refusal_text refusal
  | RegistryRefused message => "the schema registry refused the change: " +:+ message
  | NoSchemaRegistry cluster => "cluster '" +:+ cluster +:+ "' has no schema registry"
  | InternalTopic topic => "klens leaves the internal topic '" +:+ topic +:+ "' alone"
  | ActiveGroup group => "group '" +:+ group +:+ "' has members; stop its consumers first"
  | ConsumedTopic group topic =>
      "group '" +:+ group +:+ "' still consumes '" +:+ topic +:+ "'; stop its consumers first"
  | NoCommittedOffset group topic partition =>
      "group '" +:+ group +:+ "' has no committed offset on partition " +:+ print_Z partition +:+
      " of '" +:+ topic +:+ "' to shift"
  | PrefixedAcl => "klens cannot create or delete a prefixed ACL yet"
  | BrokerConfigs id message =>
      "failed to describe broker " +:+ print_Z id +:+ " configs: " +:+ message
  | SchemaRegistry cluster message =>
      "schema registry request failed for cluster '" +:+ cluster +:+ "': " +:+ message
  | Krafka error => krafka_text error
  end.
End texts.
