(* ===== verification/Metadata.v ===== *)
(** [src/kafka/metadata.rs]: what klens keeps of a cluster's metadata, and
    Kafka's rule for topic names. *)

From Stdlib Require Import ZArith Lia Ascii.
From S2P Require Import Prelude Text Utf8.

Record BrokerMetadata : Set := {
  bm_id : Z;
  bm_host : string;
  bm_port : Z;
  bm_rack : option string;
}.

Record PartitionMetadata : Set := {
  id : Z;
  leader : Z;
  replicas : list Z;
  isr : list Z;
}.

Record TopicMetadata : Set := {
  tm_name : string;
  tm_internal : bool;
  tm_partitions : list PartitionMetadata;
}.

Record MetadataSnapshot : Set := {
  ms_brokers : list BrokerMetadata;
  ms_topics : list TopicMetadata;
}.

#[export] Instance BrokerMetadata_eq_dec : EqDecision BrokerMetadata.
Proof. solve_decision. Defined.
#[export] Instance PartitionMetadata_eq_dec : EqDecision PartitionMetadata.
Proof. solve_decision. Defined.
#[export] Instance TopicMetadata_eq_dec : EqDecision TopicMetadata.
Proof. solve_decision. Defined.

Definition under_replicated (p : PartitionMetadata) : bool :=
  (len (isr p) <? len (replicas p))%Z.

Definition offline (p : PartitionMetadata) : bool := (leader p <? 0)%Z.

(** [partitions] is a [NonZeroU16], [replication_factor] a [NonZeroU8]. *)
Record NewTopic : Set := {
  nt_name : string;
  nt_partitions : option Z;
  nt_replication_factor : option Z;
  nt_configs : gmap string string;
}.

Record RecordDeletion : Set := {
  rd_topic : string;
  rd_before : gmap Z (option Z);
}.

Record Watermarks : Set := { low : Z; high : Z }.

#[export] Instance Watermarks_eq_dec : EqDecision Watermarks.
Proof. solve_decision. Defined.

(** [Watermarks::default]. *)
Definition Watermarks_default : Watermarks := {| low := 0; high := 0 |}.

Definition is_internal_topic (name : string) : bool :=
  starts_with "_" name || starts_with "." name.

Definition MAX_TOPIC_NAME_LEN : Z := 249.

Inductive InvalidTopicName : Set :=
  | EmptyName
  | TooLong (length : Z)
  | IllegalCharacter (c : string).

#[export] Instance InvalidTopicName_eq_dec : EqDecision InvalidTopicName.
Proof. solve_decision. Defined.

Definition legal_byte (a : ascii) : bool :=
  is_alphanumeric a || Ascii.eqb a "." || Ascii.eqb a "_" || Ascii.eqb a "-".

(** A character is legal when it is one byte and that byte is. *)
Definition legal_char (c : string) : bool :=
  match c with String a EmptyString => legal_byte a | _ => false end.

Definition validate_topic_name (name : string) : result InvalidTopicName () :=
  if is_empty name then Err EmptyName
  else if (MAX_TOPIC_NAME_LEN <? Z.of_nat (String.length name))%Z
  then Err (TooLong (Z.of_nat (String.length name)))
  else match List.find (λ c, negb (legal_char c)) (chars name) with
       | Some illegal => Err (IllegalCharacter illegal)
       | None => Ok ()
       end.

(** ** Lemmas *)

Lemma legal_byte_ascii a : legal_byte a = true → byte_in 0 127 a = true.
Proof. destruct a as [[] [] [] [] [] [] [] []]; by vm_compute. Qed.

Lemma find_none_forallb {A} (p : A → bool) l :
  List.find (λ x, negb (p x)) l = None ↔ forallb p l = true.
Proof.
  induction l as [|x l IH]; simpl; [done|]. destruct (p x); simpl; [exact IH|done].
Qed.

Lemma chars_legal s : forallb legal_char (chars s) = true ↔ all_chars legal_byte s = true.
Proof.
  split.
  - unfold chars. induction s as [|a r IH]; [done|]. cbn [chunks].
    destruct (byte_in 0 127 a).
    + simpl. intros [Hl H]%andb_true_iff. rewrite Hl. simpl. by apply IH.
    + repeat case_match; simpl; done.
  - intros H. rewrite chars_ascii.
    + induction s as [|a s IH]; [done|]. apply andb_true_iff in H as [Ha H].
      simpl. by rewrite Ha, IH.
    + eapply all_chars_impl, H. apply legal_byte_ascii.
Qed.

Lemma validate_topic_name_ok name :
  validate_topic_name name = Ok () ↔
  (1 ≤ Z.of_nat (String.length name) ≤ 249)%Z ∧ all_chars legal_byte name = true.
Proof.
  unfold validate_topic_name, MAX_TOPIC_NAME_LEN. destruct name as [|a name].
  - simpl. split; [done|]. lia.
  - simpl is_empty. destruct (Z.ltb_spec 249 (Z.of_nat (String.length (String a name)))).
    + split; [done|]. lia.
    + rewrite <- chars_legal, <- find_none_forallb.
      destruct (List.find _ _); simpl in *; split; try done.
      * by intros [_ ?].
      * intros _. split; [lia|done].
Qed.
