(* ===== verification/Cursor.v ===== *)
(** [src/kafka/scan/cursor.rs], with [RecordOrder] of [src/kafka/scan/query.rs]:
    the page cursor, its text form and the parser that reads it back. *)

From S2P Require Import Prelude Text Errors.

(** ** Data *)

Inductive RecordOrder : Set := Newest | Oldest.

Definition flipped (order : RecordOrder) : RecordOrder :=
  match order with Newest => Oldest | Oldest => Newest end.

Inductive CursorDirection : Set := Forward | Backward.

#[export] Instance RecordOrder_eq_dec : EqDecision RecordOrder.
Proof. solve_decision. Defined.
#[export] Instance CursorDirection_eq_dec : EqDecision CursorDirection.
Proof. solve_decision. Defined.

(** Boundary offsets by partition: where to read on from, or up to where. *)
Inductive Remaining : Set :=
  | From_ (offsets : gmap Z Z)
  | Before (offsets : gmap Z Z).

#[export] Instance Remaining_eq_dec : EqDecision Remaining.
Proof. solve_decision. Defined.

Definition walking (walk : RecordOrder) (offsets : gmap Z Z) : Remaining :=
  match walk with Oldest => From_ offsets | Newest => Before offsets end.

Definition remaining_walk (r : Remaining) : RecordOrder :=
  match r with From_ _ => Oldest | Before _ => Newest end.

Definition remaining_offsets (r : Remaining) : gmap Z Z :=
  match r with From_ offsets | Before offsets => offsets end.

Record RecordCursor : Set := { order : RecordOrder; remaining : Remaining }.

#[export] Instance RecordCursor_eq_dec : EqDecision RecordCursor.
Proof. solve_decision. Defined.

(** ** Operations *)

Definition VERSION : string := "v2".

Definition cursor_at (o : RecordOrder) (partition offset : Z) : RecordCursor :=
  let near_end :=
    match o with Oldest => offset | Newest => i64_saturating_add offset 1 end in
  {| order := o; remaining := walking o {[ partition := near_end ]} |}.

Definition walk (c : RecordCursor) : RecordOrder := remaining_walk (remaining c).

Definition direction (c : RecordCursor) : CursorDirection :=
  if decide (walk c = order c) then Forward else Backward.

(** The loop over the comma-separated boundaries. *)
Fixpoint parse_offsets (parts : list string) (offsets : gmap Z Z)
    : result QueryError (gmap Z Z) :=
  match parts with
  | [] => Ok offsets
  | part :: parts' =>
      if is_empty part then parse_offsets parts' offsets
      else
        '(partition, offset) ← ok_or (split_once colon part) InvalidCursor;
        partition ← ok_or (parse_i32 partition) InvalidCursor;
        offset ← ok_or (parse_i64 offset) InvalidCursor;
        if (offset <? 0)%Z || bool_decide (is_Some (offsets !! partition))
        then Err InvalidCursor
        else parse_offsets parts' (<[partition := offset]> offsets)
  end.

Definition parse_order (text : string) : result QueryError RecordOrder :=
  if String.eqb text "n" then Ok Newest
  else if String.eqb text "o" then Ok Oldest
  else Err InvalidCursor.

Definition parse_walk (o : RecordOrder) (text : string) : result QueryError RecordOrder :=
  if String.eqb text "f" then Ok o
  else if String.eqb text "b" then Ok (flipped o)
  else Err InvalidCursor.

Definition parse (value : string) : result QueryError RecordCursor :=
  match splitn 4 colon (trim value) with
  | version :: order_text :: direction_text :: rest =>
      if String.eqb version VERSION then
        o ← parse_order order_text;
        w ← parse_walk o direction_text;
        offsets ← parse_offsets (split comma (default EmptyString (head rest))) ∅;
        Ok {| order := o; remaining := walking w offsets |}
      else Err InvalidCursor
  | _ => Err InvalidCursor
  end.

Definition validate_for (c : RecordCursor) (o : RecordOrder) : result QueryError () :=
  if decide (order c = o) then Ok () else Err InvalidCursor.

Definition write_order (o : RecordOrder) : string :=
  match o with Newest => "n" | Oldest => "o" end.

Definition write_direction (d : CursorDirection) : string :=
  match d with Forward => "f" | Backward => "b" end.

Definition write_offset (entry : Z * Z) : string :=
  print_Z entry.1 +:+ String colon (print_Z entry.2).

(** [Display]: the boundaries in partition order, comma-separated. *)
Definition to_string (c : RecordCursor) : string :=
  VERSION +:+ String colon (write_order (order c) +:+ String colon
    (write_direction (direction c) +:+ String colon
      (join comma (map write_offset (btree_iter (remaining_offsets (remaining c))))))).

(** ** Well-formed cursors

    The types bound partitions and offsets; a boundary is never negative. *)

Definition wf_offsets (offsets : gmap Z Z) : Prop :=
  map_Forall (λ partition offset, in_i32 partition ∧ (0 ≤ offset ≤ i64_max)%Z) offsets.

Definition wf (c : RecordCursor) : Prop := wf_offsets (remaining_offsets (remaining c)).

(** ** Helper lemmas *)

Lemma flipped_involutive o : flipped (flipped o) = o.
Proof. by destruct o. Qed.

Lemma remaining_walk_walking w offsets : remaining_walk (walking w offsets) = w.
Proof. by destruct w. Qed.

Lemma remaining_offsets_walking w offsets : remaining_offsets (walking w offsets) = offsets.
Proof. by destruct w. Qed.

Lemma walking_eta r : walking (remaining_walk r) (remaining_offsets r) = r.
Proof. by destruct r. Qed.

#[export] Hint Rewrite flipped_involutive remaining_walk_walking
  remaining_offsets_walking walking_eta : klens.

Lemma parse_walk_direction c :
  parse_walk (order c) (write_direction (direction c)) = Ok (walk c).
Proof.
  unfold direction. case_decide as H; unfold parse_walk; simpl; f_equal.
  - done.
  - unfold walk in *. by destruct (remaining_walk (remaining c)), (order c).
Qed.

Lemma parse_order_write o : parse_order (write_order o) = Ok o.
Proof. by destruct o. Qed.

Lemma parse_offset_write entry :
  in_i32 entry.1 → (0 ≤ entry.2 ≤ i64_max)%Z →
  split_once colon (write_offset entry) = Some (print_Z entry.1, print_Z entry.2) ∧
  parse_i32 (print_Z entry.1) = Some entry.1 ∧ parse_i64 (print_Z entry.2) = Some entry.2.
Proof.
  intros H1 H2. repeat split.
  - apply split_once_app. by apply print_Z_no_char.
  - by apply parse_signed_print.
  - apply parse_signed_print. unfold_ints. lia.
Qed.

Lemma is_empty_write_offset entry : is_empty (write_offset entry) = false.
Proof.
  unfold write_offset. destruct (print_Z entry.1) eqn:E; [|done].
  by destruct (print_Z_nonempty entry.1).
Qed.

Lemma parse_offsets_write l m :
  Forall (λ e : Z * Z, in_i32 e.1 ∧ (0 ≤ e.2 ≤ i64_max)%Z) l →
  NoDup l.*1 → Forall (λ k, m !! k = None) l.*1 →
  parse_offsets (map write_offset l) m = Ok (list_to_map l ∪ m).
Proof.
  revert m. induction l as [|[p o] l IH]; intros m Hl Hnd Hm.
  - simpl. by rewrite (left_id_L ∅ (∪)).
  - apply Forall_cons in Hl as [[Hp Ho] Hl]. simpl in Hnd, Hm.
    apply NoDup_cons in Hnd as [Hnotin Hnd]. apply Forall_cons in Hm as [Hpm Hm].
    destruct (parse_offset_write (p, o) Hp Ho) as (E1 & E2 & E3). simpl in E1, E2, E3.
    simpl. rewrite is_empty_write_offset, E1. simpl. rewrite E2. simpl. rewrite E3. simpl.
    rewrite (proj2 (Z.ltb_ge o 0)) by (simpl in *; lia). simpl.
    rewrite bool_decide_eq_false_2 by (rewrite Hpm; by intros []).
    rewrite IH; [|done|done|].
    + f_equal. rewrite <- insert_union_l, insert_union_r; [done|].
      apply not_elem_of_list_to_map_1. done.
    + rewrite Forall_forall in Hm |- *. intros k Hk.
      rewrite lookup_insert_ne; [by apply Hm|]. by intros ->.
Qed.

Lemma write_offset_no_comma entry : contains_char comma (write_offset entry) = false.
Proof.
  unfold write_offset. rewrite contains_char_app. simpl.
  by rewrite !print_Z_no_char.
Qed.

(** Skipping the one empty piece of an empty list leaves the list's own pieces. *)
Lemma parse_offsets_split l m :
  parse_offsets (split comma (join comma (map write_offset l))) m =
  parse_offsets (map write_offset l) m.
Proof.
  destruct l as [|e l]; [done|]. rewrite split_join; [done|done|].
  apply Forall_map, Forall_true. apply write_offset_no_comma.
Qed.

Lemma to_string_graphic c : all_chars is_graphic (to_string c) = true.
Proof.
  unfold to_string. repeat (rewrite all_chars_app || simpl).
  assert (all_chars is_graphic (join comma
    (map write_offset (btree_iter (remaining_offsets (remaining c))))) = true) as ->.
  { apply all_chars_join; [done|]. apply Forall_map, Forall_true. intros e. simpl.
    unfold write_offset. rewrite all_chars_app. simpl. by rewrite !print_Z_graphic. }
  by destruct (order c), (direction c).
Qed.

Lemma splitn_to_string c :
  splitn 4 colon (to_string c) =
  [VERSION; write_order (order c); write_direction (direction c);
   join comma (map write_offset (btree_iter (remaining_offsets (remaining c))))].
Proof.
  unfold to_string.
  assert (∀ a b n, contains_char colon a = false →
    splitn (S (S n)) colon (a +:+ String colon b) = a :: splitn (S n) colon b) as Hs.
  { intros a b n Ha. simpl. by rewrite split_once_app. }
  rewrite !Hs; [done|by destruct (direction c)|by destruct (order c)|done].
Qed.

Lemma wf_btree_iter offsets :
  wf_offsets offsets →
  Forall (λ e : Z * Z, in_i32 e.1 ∧ (0 ≤ e.2 ≤ i64_max)%Z) (btree_iter offsets).
Proof.
  intros H. apply Forall_forall. intros [p o] Hin%elem_of_btree_iter. by apply (H p o).
Qed.

(** ** Parsing and printing *)

Lemma parse_to_string_wf c : wf c → parse (to_string c) = Ok c.
Proof.
  intros Hwf. unfold parse. rewrite trim_all_graphic by apply to_string_graphic.
  rewrite splitn_to_string. simpl. rewrite parse_order_write. simpl.
  rewrite parse_walk_direction. simpl. rewrite parse_offsets_split.
  rewrite parse_offsets_write.
  - simpl. rewrite list_to_map_btree_iter, (right_id_L ∅ (∪)).
    unfold walk. rewrite walking_eta. by destruct c.
  - by apply wf_btree_iter.
  - apply NoDup_btree_keys.
  - apply Forall_forall. intros k _. apply lookup_empty.
Qed.

Lemma parse_offsets_wf parts m m' :
  wf_offsets m → parse_offsets parts m = Ok m' → wf_offsets m'.
Proof.
  revert m. induction parts as [|part parts IH]; intros m Hm; simpl; [by intros [= <-]|].
  destruct (is_empty part); [by apply IH|].
  destruct (split_once colon part) as [[a b]|]; simpl; [|done].
  destruct (parse_i32 a) as [p|] eqn:Ep; simpl; [|done].
  destruct (parse_i64 b) as [o|] eqn:Eo; simpl; [|done].
  destruct (Z.ltb_spec o 0); simpl; [done|]. case_bool_decide; [done|].
  apply IH. apply map_Forall_insert_2; [|done].
  apply parse_signed_range in Ep, Eo. unfold_ints. lia.
Qed.

Lemma parse_wf s c : parse s = Ok c → wf c.
Proof.
  unfold parse.
  destruct (splitn 4 colon (trim s)) as [|v [|ot [|dt rest]]]; try done.
  destruct (String.eqb v VERSION); [|done].
  destruct (parse_order ot) as [o|]; simpl; [|done].
  destruct (parse_walk o dt) as [w|]; simpl; [|done].
  destruct (parse_offsets _ ∅) as [m|] eqn:E; simpl; [|done]. intros [= <-].
  unfold wf; simpl. rewrite remaining_offsets_walking.
  eapply parse_offsets_wf; [|exact E]. apply map_Forall_empty.
Qed.

#[export] Hint Resolve parse_wf : klens.


(** ** Properties *)

(** The page cursor a client is handed reads back as the cursor it was made
    from, in both walks and directions. *)
Theorem parse_to_string c : wf c → parse (to_string c) = Ok c.
Proof. apply parse_to_string_wf. Qed.

Lemma parse_to_string_witness :
  let c := {| order := Newest; remaining := From_ {[ 3%Z := 7%Z; 0%Z := 42%Z ]} |} in
  to_string c = "v2:n:b:0:42,3:7" ∧ parse (to_string c) = Ok c.
Proof.
  split; [reflexivity|]. apply parse_to_string. unfold wf, wf_offsets.
  apply (bool_decide_unpack _). vm_compute. exact I.
Defined.

(** Whatever the text, the parser accepts only well-formed cursors: partitions
    that fit an [i32], boundaries between zero and [i64::MAX], and parsing the
    printed form of the result gives the same cursor again. *)
Theorem parse_normalises s c : parse s = Ok c → wf c ∧ parse (to_string c) = Ok c.
Proof. intros H. pose proof (parse_wf s c H). split; [done|by apply parse_to_string_wf]. Qed.

Lemma parse_normalises_witness :
  ∃ c, parse " v2:o:f:01:+5,,2:9 " = Ok c ∧ wf c ∧ parse (to_string c) = Ok c.
Proof. eexists. split; [reflexivity|]. by apply (parse_normalises " v2:o:f:01:+5,,2:9 "). Defined.
