(* ===== verification/Plan.v ===== *)
(** [src/kafka/scan/plan.rs]: the offset windows of a page and the cursors that
    lead to the next and the previous page. *)

From S2P Require Import Prelude Metadata Cursor.

(** ** Data *)

Record PartitionWindow : Set := { pw_partition : Z; pw_start : Z; pw_end : Z }.

#[export] Instance PartitionWindow_eq_dec : EqDecision PartitionWindow.
Proof. solve_decision. Defined.

Definition window_is_empty (w : PartitionWindow) : bool := (pw_end w <=? pw_start w)%Z.

(** The partitions a read covers and the offsets each one held when the read
    opened. *)
Record LogSpan : Set := { partitions : list Z; watermarks : gmap Z Watermarks }.

(** ** Operations *)

Definition ending_at (marks : Watermarks) (take end_ : Z) : Z * Z :=
  let end_ := Z.max (Z.min end_ (high marks)) (low marks) in
  (i64_sub end_ (Z.min take (i64_sub end_ (low marks))), end_).

Definition starting_at (marks : Watermarks) (take start : Z) : Z * Z :=
  let start := Z.min (Z.max start (low marks)) (high marks) in
  (start, i64_add start (Z.min take (i64_sub (high marks) start))).

Definition window_bounds (marks : Watermarks) (walk : RecordOrder) (take : Z)
    (remaining : option Remaining) (partition : Z) : option (Z * Z) :=
  match remaining, walk with
  | None, Newest => Some (ending_at marks take (high marks))
  | None, Oldest => Some (starting_at marks take (low marks))
  | Some (Before ends), _ => ending_at marks take <$> ends !! partition
  | Some (From_ starts), _ => starting_at marks take <$> starts !! partition
  end.

Definition window_for (span : LogSpan) (walk : RecordOrder) (take : Z)
    (remaining : option Remaining) (partition : Z) : option PartitionWindow :=
  marks ← watermarks span !! partition;
  '(start, end_) ← window_bounds marks walk take remaining partition;
  let window := {| pw_partition := partition; pw_start := start; pw_end := end_ |} in
  if window_is_empty window then None else Some window.

Definition windows (span : LogSpan) (walk : RecordOrder) (take : Z)
    (cursor : option RecordCursor) : list PartitionWindow :=
  omap (window_for span walk take (remaining <$> cursor)) (partitions span).

Definition near_end (walk : RecordOrder) (marks : Watermarks) : Z :=
  match walk with Oldest => low marks | Newest => high marks end.

Definition far_end (walk : RecordOrder) (marks : Watermarks) : Z :=
  match walk with Oldest => high marks | Newest => low marks end.

Definition start (span : LogSpan) (walk : RecordOrder) : Remaining :=
  walking walk (collect (omap (λ partition,
    marks ← watermarks span !! partition; Some (partition, near_end walk marks))
    (partitions span))).

Definition past_step (walk : RecordOrder) (edges : gmap Z Z) (kept : Z * Z) : gmap Z Z :=
  let '(partition, offset) := kept in
  let '(past, further) :=
    match walk with
    | Oldest => (i64_add offset 1, Z.max)
    | Newest => (offset, Z.min)
    end in
  let edge := default past (edges !! partition) in
  <[partition := further edge past]> edges.

Definition past_furthest (walk : RecordOrder) (kept : list (Z * Z)) : gmap Z Z :=
  foldl (past_step walk) ∅ kept.

Definition unread_at (walk : RecordOrder) (marks : Watermarks) (offset : Z) : bool :=
  match walk with
  | Oldest => (Z.max offset (low marks) <? high marks)%Z
  | Newest => (low marks <? Z.min offset (high marks))%Z
  end.

Definition cursor (span : LogSpan) (order walk : RecordOrder) (offsets : list (Z * Z))
    : option RecordCursor :=
  let offsets := collect (filter (λ kv, is_Some (watermarks span !! kv.1)) offsets) in
  let unread := existsb (λ kv : Z * Z,
    match watermarks span !! kv.1 with
    | Some marks => unread_at walk marks kv.2
    | None => false
    end) (btree_iter offsets) in
  if unread then Some {| order := order; remaining := walking walk offsets |} else None.

(** Where a covered window moves its partition's boundary: past the furthest
    record returned of a full page, else across the window. *)
Definition advance_step (walk : RecordOrder) (returned : option (gmap Z Z))
    (next : gmap Z Z) (window : PartitionWindow) : gmap Z Z :=
  let '(near, far) :=
    match walk with
    | Oldest => (pw_start window, pw_end window)
    | Newest => (pw_end window, pw_start window)
    end in
  let offset :=
    match returned with
    | Some returned => default near (returned !! pw_partition window)
    | None => far
    end in
  <[pw_partition window := offset]> next.

Definition advance (span : LogSpan) (from : RecordCursor) (covered : list PartitionWindow)
    (kept : list (Z * Z)) (limit : Z) : option RecordCursor :=
  let walk := walk from in
  let returned := if (limit <=? len kept)%Z then Some (past_furthest walk kept) else None in
  let next := foldl (advance_step walk returned) (remaining_offsets (remaining from)) covered in
  cursor span (order from) walk (btree_iter next).

Definition rewind (span : LogSpan) (opened : RecordCursor) : option RecordCursor :=
  let walk := walk opened in
  let boundaries := remaining_offsets (remaining opened) in
  let back := omap (λ partition,
    marks ← watermarks span !! partition;
    Some (partition, default (far_end walk marks) (boundaries !! partition)))
    (partitions span) in
  cursor span (order opened) (flipped walk) back.

Definition bound_marks (from_offsets to_offsets : option (gmap Z (option Z)))
    (partition : Z) (marks : Watermarks) : Watermarks :=
  let low1 :=
    match from_offsets with
    | None => low marks
    | Some from_offsets =>
        match from_offsets !! partition with
        | Some (Some offset) => Z.max (low marks) offset
        | Some None => high marks
        | None => low marks
        end
    end in
  let high1 :=
    match to_offsets with
    | None => high marks
    | Some to_offsets =>
        match to_offsets !! partition with
        | Some (Some offset) => Z.min (high marks) offset
        | _ => high marks
        end
    end in
  {| low := if (high1 <? low1)%Z then high1 else low1; high := high1 |}.

Definition apply_timestamp_bounds (marks : gmap Z Watermarks)
    (from_offsets to_offsets : option (gmap Z (option Z))) : gmap Z Watermarks :=
  map_imap (λ partition m, Some (bound_marks from_offsets to_offsets partition m)) marks.

(** ** What a cursor still has to read *)

(** Kafka's offsets start at 0, and a low watermark is at most the high one. *)
Definition wf_marks (m : Watermarks) : Prop := (0 ≤ low m ≤ high m ∧ high m ≤ i64_max)%Z.

#[export] Instance wf_marks_dec m : Decision (wf_marks m).
Proof. unfold wf_marks. apply _. Defined.

Definition wf_span (span : LogSpan) : Prop :=
  map_Forall (λ _ m, wf_marks m) (watermarks span).

(** Offset [o] of partition [p] lies in the log the span covers. *)
Definition in_log (span : LogSpan) (p o : Z) : Prop :=
  ∃ m, watermarks span !! p = Some m ∧ (low m ≤ o < high m)%Z.

(** [o] lies on the unread side of boundary [b]. *)
Definition ahead (walk : RecordOrder) (b o : Z) : Prop :=
  match walk with Oldest => (b ≤ o)%Z | Newest => (o < b)%Z end.

Definition pending (span : LogSpan) (r : Remaining) (p o : Z) : Prop :=
  in_log span p o ∧
  ∃ b, remaining_offsets r !! p = Some b ∧ ahead (remaining_walk r) b o.

#[export] Instance ahead_dec walk b o : Decision (ahead walk b o).
Proof. destruct walk; simpl; apply _. Defined.

#[export] Instance in_log_dec span p o : Decision (in_log span p o).
Proof.
  unfold in_log. destruct (watermarks span !! p) as [m|].
  - destruct (decide (low m ≤ o < high m)%Z); [left; by exists m|right; by intros (? & [= <-] & ?)].
  - right. by intros (? & ? & ?).
Defined.

#[export] Instance pending_dec span r p o : Decision (pending span r p o).
Proof.
  unfold pending. apply and_dec; [apply _|]. destruct (remaining_offsets r !! p) as [b|].
  - destruct (decide (ahead (remaining_walk r) b o)); [left; by exists b|right; by intros (? & [= <-] & ?)].
  - right. by intros (? & ? & ?).
Defined.

(** A page without a cursor leaves nothing to read. *)
Definition pending_after (span : LogSpan) (c : option RecordCursor) (p o : Z) : Prop :=
  match c with Some c => pending span (remaining c) p o | None => False end.

#[export] Instance pending_after_dec span c p o : Decision (pending_after span c p o).
Proof. unfold pending_after. destruct c; apply _. Defined.

(** ** Helper lemmas *)

Lemma near_ahead w m b :
  wf_marks m →
  unread_at w m b = true ↔ ∃ o, (low m ≤ o < high m)%Z ∧ ahead w b o.
Proof.
  unfold wf_marks, unread_at, ahead. intros Hm. destruct w; rewrite Z.ltb_lt.
  - split; [|intros (o & ? & ?); lia]. intros H. exists (Z.min b (high m) - 1)%Z. lia.
  - split; [|intros (o & ? & ?); lia]. intros H. exists (Z.max b (low m)). lia.
Qed.

Lemma functional_pairs_filter {V} (P : Z * V → Prop) `{∀ x, Decision (P x)} (l : list (Z * V)) :
  functional_pairs l → functional_pairs (filter P l).
Proof.
  intros Hf k v v' [_ H1]%list_elem_of_filter [_ H2]%list_elem_of_filter. by eapply Hf.
Qed.

(** The cursor the span issues over given boundaries: exactly the offsets ahead
    of them, and no cursor when there are none. *)
Lemma cursor_pending span o w offsets p x :
  wf_span span → functional_pairs offsets →
  pending_after span (cursor span o w offsets) p x ↔
  in_log span p x ∧ ∃ b, (p, b) ∈ offsets ∧ ahead w b x.
Proof.
  intros Hwf Hf. unfold cursor.
  set (kept := filter _ offsets).
  assert (∀ k v, collect kept !! k = Some v ↔ is_Some (watermarks span !! k) ∧ (k, v) ∈ offsets) as Hc.
  { intros k v. rewrite collect_lookup by by apply functional_pairs_filter.
    unfold kept. by rewrite list_elem_of_filter. }
  destruct (existsb _ _) eqn:Hex; simpl.
  - unfold pending; simpl. rewrite remaining_walk_walking, remaining_offsets_walking.
    split; intros [Hin (b & Hb & Ha)]; (split; [done|]); exists b; (split; [|done]).
    + by apply Hc in Hb as [_ Hb].
    + apply Hc. split; [|done]. destruct Hin as (m & -> & _). by exists m.
  - split; [done|]. intros [(m & Hm & Hrange) (b & Hb & Ha)].
    rewrite <- not_true_iff_false in Hex. apply Hex, existsb_exists.
    exists (p, b). split.
    + apply list_elem_of_In, elem_of_btree_iter, Hc. by rewrite Hm.
    + simpl. rewrite Hm. apply near_ahead; [by apply (Hwf p m)|]. by exists x.
Qed.

Lemma cursor_some span o w offsets c :
  wf_span span → functional_pairs offsets →
  cursor span o w offsets = Some c →
  order c = o ∧ walk c = w ∧ ∃ p x, pending span (remaining c) p x.
Proof.
  intros Hwf Hf Hc. pose proof Hc as Hc'. unfold cursor in Hc'.
  destruct (existsb _ _) eqn:Hex; [|done]. injection Hc' as <-. simpl.
  unfold walk; simpl. rewrite remaining_walk_walking. repeat split.
  apply existsb_exists in Hex as ([p b] & Hin & Hu). simpl in Hu.
  destruct (watermarks span !! p) as [m|] eqn:Hm; [|done].
  apply near_ahead in Hu as (x & Hx & Ha); [|by apply (Hwf p m)].
  exists p, x. unfold pending. simpl. rewrite remaining_walk_walking, remaining_offsets_walking.
  split; [by exists m|]. exists b. split; [|done].
  by apply elem_of_btree_iter, list_elem_of_In.
Qed.

Lemma cursor_settings span o w offsets c :
  cursor span o w offsets = Some c → order c = o ∧ walk c = w.
Proof.
  unfold cursor. destruct (existsb _ _); [|done]. intros [= <-]. split; [done|].
  unfold walk; simpl. apply remaining_walk_walking.
Qed.

(** A cursor's boundaries are among those it was made from. *)
Lemma cursor_offsets span o w (m : gmap Z Z) c p b :
  cursor span o w (btree_iter m) = Some c → remaining_offsets (remaining c) !! p = Some b →
  m !! p = Some b ∧ is_Some (watermarks span !! p).
Proof.
  unfold cursor. destruct (existsb _ _); [|done]. intros [= <-]. simpl.
  rewrite remaining_offsets_walking, collect_lookup, list_elem_of_filter, elem_of_btree_iter; [tauto|].
  apply functional_pairs_filter, functional_pairs_NoDup, NoDup_btree_keys.
Qed.

Lemma functional_pairs_omap {V} (f : Z → option V) (l : list Z) :
  functional_pairs (omap (λ p, v ← f p; Some (p, v)) l).
Proof.
  intros k v v' (p & _ & H)%list_elem_of_omap (p' & _ & H')%list_elem_of_omap.
  destruct (f p) eqn:E; [|done]. destruct (f p') eqn:E'; [|done]. simpl in *. naive_solver.
Qed.

Lemma elem_of_omap_pairs {V} (f : Z → option V) (l : list Z) p v :
  (p, v) ∈ omap (λ p, v ← f p; Some (p, v)) l ↔ p ∈ l ∧ f p = Some v.
Proof.
  rewrite list_elem_of_omap. split.
  - intros (p' & Hp & H). destruct (f p') eqn:E; [|done]. simpl in H. by injection H as -> ->.
  - intros [Hp Hf]. exists p. by rewrite Hf.
Qed.

(** A fresh read has everything in the covered partitions ahead of it. *)
Lemma start_pending span w p x :
  pending span (start span w) p x ↔ p ∈ partitions span ∧ in_log span p x.
Proof.
  unfold pending, start. rewrite remaining_walk_walking, remaining_offsets_walking.
  set (f := λ partition, near_end w <$> watermarks span !! partition).
  assert (omap (λ partition, marks ← watermarks span !! partition;
             Some (partition, near_end w marks)) (partitions span) =
          omap (λ p, v ← f p; Some (p, v)) (partitions span)) as ->.
  { apply list_omap_ext, Forall_Forall2_diag, Forall_true. intros q. unfold f.
    by destruct (watermarks span !! q). }
  split.
  - intros [Hin (b & Hb & _)]. split; [|done].
    apply collect_lookup, elem_of_omap_pairs in Hb; [|apply functional_pairs_omap]. by destruct Hb.
  - intros [Hp Hin]. split; [done|]. destruct Hin as (m & Hm & Hr).
    exists (near_end w m). split.
    + apply collect_lookup; [apply functional_pairs_omap|]. apply elem_of_omap_pairs.
      split; [done|]. unfold f. by rewrite Hm.
    + destruct w; simpl; lia.
Qed.

(** ** The windows of a page *)

Definition in_window (w : PartitionWindow) (x : Z) : Prop := (pw_start w ≤ x < pw_end w)%Z.

(** The boundary a window's partition reads on from, clamped into the log. *)
Definition clamped (m : Watermarks) (b : Z) : Z := Z.min (Z.max b (low m)) (high m).

(** At most [take] offsets on from boundary [b]. *)
Definition within_take (walk : RecordOrder) (m : Watermarks) (b take x : Z) : Prop :=
  match walk with
  | Oldest => (x < clamped m b + take)%Z
  | Newest => (clamped m b - take ≤ x)%Z
  end.

Lemma ending_at_eq m take e :
  wf_marks m → (0 ≤ take ≤ i64_max)%Z →
  ending_at m take e = (Z.max (low m) (clamped m e - take), clamped m e)%Z.
Proof.
  unfold wf_marks, ending_at, clamped. unfold_ints. intros Hm Ht.
  rewrite (i64_sub_id _ (low m)) by (unfold_ints; lia).
  rewrite i64_sub_id by (unfold_ints; lia). f_equal; lia.
Qed.

Lemma starting_at_eq m take s :
  wf_marks m → (0 ≤ take ≤ i64_max)%Z →
  starting_at m take s = (clamped m s, Z.min (high m) (clamped m s + take))%Z.
Proof.
  unfold wf_marks, starting_at, clamped. unfold_ints. intros Hm Ht.
  rewrite i64_sub_id by (unfold_ints; lia). rewrite i64_add_id by (unfold_ints; lia). f_equal; lia.
Qed.

(** The boundary a page starts from in partition [p]: the cursor's, or the end of
    the log the walk starts at. *)
Definition boundary (span : LogSpan) (walk : RecordOrder) (c : option RecordCursor) (p : Z)
    : option Z :=
  match c with
  | Some c => remaining_offsets (remaining c) !! p
  | None => near_end walk <$> watermarks span !! p
  end.

(** The window on from boundary [b]: nearest [take] offsets of the log. *)
Definition window_on (walk : RecordOrder) (m : Watermarks) (b take p : Z) : PartitionWindow :=
  match walk with
  | Oldest => {| pw_partition := p; pw_start := clamped m b;
                 pw_end := Z.min (high m) (clamped m b + take) |}
  | Newest => {| pw_partition := p; pw_start := Z.max (low m) (clamped m b - take);
                 pw_end := clamped m b |}
  end.

Lemma window_for_eq span w take c p m :
  wf_marks m → (0 ≤ take ≤ i64_max)%Z → (∀ c', c = Some c' → walk c' = w) →
  watermarks span !! p = Some m →
  window_for span w take (remaining <$> c) p =
  b ← boundary span w c p;
  let win := window_on w m b take p in
  if window_is_empty win then None else Some win.
Proof.
  intros Hm Ht Hw Hp. unfold window_for. rewrite Hp. cbn [mbind option_bind].
  assert (window_bounds m w take (remaining <$> c) p =
    (λ b, (pw_start (window_on w m b take p), pw_end (window_on w m b take p))) <$>
      boundary span w c p) as ->.
  { destruct c as [c|]; simpl.
    - specialize (Hw c eq_refl). unfold walk in Hw.
      destruct (remaining c) as [bs|bs]; simpl in *; subst w;
        (destruct (bs !! p) as [b|]; [|reflexivity]); cbn [fmap option_fmap option_map];
        rewrite ?starting_at_eq, ?ending_at_eq by done; reflexivity.
    - rewrite Hp. destruct w; cbn [fmap option_fmap option_map];
        rewrite ?starting_at_eq, ?ending_at_eq by done; reflexivity. }
  destruct (boundary span w c p) as [b|]; [|reflexivity]. by destruct w.
Qed.

Lemma in_window_on w m b take p x :
  wf_marks m →
  in_window (window_on w m b take p) x ↔
  (low m ≤ x < high m)%Z ∧ ahead w b x ∧ within_take w m b take x.
Proof.
  unfold wf_marks, in_window, window_on, within_take, clamped, ahead. intros Hm.
  destruct w; simpl; lia.
Qed.

Lemma elem_of_windows span w take c win :
  wf_span span → (0 ≤ take ≤ i64_max)%Z → (∀ c', c = Some c' → walk c' = w) →
  win ∈ windows span w take c ↔
  ∃ p m b, p ∈ partitions span ∧ watermarks span !! p = Some m ∧
    boundary span w c p = Some b ∧ win = window_on w m b take p ∧ window_is_empty win = false.
Proof.
  intros Hwf Ht Hw. unfold windows. rewrite list_elem_of_omap. split.
  - intros (p & Hp & Hwin). destruct (watermarks span !! p) as [m|] eqn:Hm.
    2: { unfold window_for in Hwin. by rewrite Hm in Hwin. }
    rewrite (window_for_eq span w take c p m) in Hwin by (done || by apply (Hwf p m)).
    destruct (boundary span w c p) as [b|] eqn:Hb; [|done]. simpl in Hwin.
    destruct (window_is_empty (window_on w m b take p)) eqn:He; [done|].
    injection Hwin as <-. by exists p, m, b.
  - intros (p & m & b & Hp & Hm & Hb & -> & He). exists p. split; [done|].
    rewrite (window_for_eq span w take c p m) by (done || by apply (Hwf p m)).
    rewrite Hb. simpl. by rewrite He.
Qed.

(** Each window is a non-empty piece of its partition's log, at most [take] wide. *)
Lemma windows_bounds span w take c win :
  wf_span span → (0 ≤ take ≤ i64_max)%Z → (∀ c', c = Some c' → walk c' = w) →
  win ∈ windows span w take c →
  pw_partition win ∈ partitions span ∧
  (pw_start win < pw_end win ≤ pw_start win + take)%Z ∧
  ∀ x, in_window win x → in_log span (pw_partition win) x.
Proof.
  intros Hwf Ht Hw Hwin.
  apply elem_of_windows in Hwin as (p & m & b & Hp & Hm & Hb & -> & He); [|done..].
  pose proof (Hwf p m Hm) as Hmw.
  assert (pw_partition (window_on w m b take p) = p) as Hpp by by destruct w.
  rewrite Hpp. split_and!; [done|..].
  - unfold window_is_empty in He. apply Z.leb_gt in He. lia.
  - unfold wf_marks in Hmw. destruct w; simpl; unfold clamped; lia.
  - intros x Hx. apply in_window_on in Hx as [Hx _]; [|done]. by exists m.
Qed.

(** Together they hold exactly the unread offsets within [take] of each boundary. *)
Lemma windows_cover span w take c p x :
  wf_span span → (0 ≤ take ≤ i64_max)%Z → (∀ c', c = Some c' → walk c' = w) →
  (∃ win, win ∈ windows span w take c ∧ pw_partition win = p ∧ in_window win x) ↔
  p ∈ partitions span ∧ ∃ m b, watermarks span !! p = Some m ∧
    boundary span w c p = Some b ∧ (low m ≤ x < high m)%Z ∧
    ahead w b x ∧ within_take w m b take x.
Proof.
  intros Hwf Ht Hw. split.
  - intros (win & Hwin & <- & Hx).
    apply elem_of_windows in Hwin as (p & m & b & Hp & Hm & Hb & -> & He); [|done..].
    pose proof (Hwf p m Hm). assert (pw_partition (window_on w m b take p) = p) as -> by by destruct w.
    split; [done|]. exists m, b. split; [done|]. split; [done|]. by apply in_window_on in Hx.
  - intros (Hp & m & b & Hm & Hb & Hx). exists (window_on w m b take p).
    pose proof (Hwf p m Hm) as Hmw. apply (in_window_on w m b take p) in Hx; [|done].
    split_and!; [|by destruct w|done].
    apply elem_of_windows; [done..|]. exists p, m, b. split_and!; try done.
    unfold window_is_empty. apply Z.leb_gt. unfold in_window in Hx. lia.
Qed.

Lemma windows_nil_pending span w take c p x :
  wf_span span → (0 < take ≤ i64_max)%Z → walk c = w →
  windows span w take (Some c) = [] → p ∈ partitions span → ¬ pending span (remaining c) p x.
Proof.
  intros Hwf Ht Hw Hnil Hp [(m & Hm & Hx) (b & Hb & Ha)].
  pose proof (Hwf p m Hm) as Hmw. unfold wf_marks in Hmw.
  assert (∃ y, (low m ≤ y < high m)%Z ∧ ahead w b y ∧ within_take w m b take y) as (y & Hy1 & Hy2 & Hy3).
  { unfold walk in Hw. rewrite Hw in Ha. unfold within_take, clamped, ahead in *. destruct w.
    - exists (Z.min b (high m) - 1)%Z. lia.
    - exists (Z.max b (low m)). lia. }
  destruct (proj2 (windows_cover span w take (Some c) p y Hwf ltac:(lia) ltac:(by intros ? [= <-])))
    as (win & Hwin & _).
  - split; [done|]. by exists m, b.
  - rewrite Hnil in Hwin. by apply not_elem_of_nil in Hwin.
Qed.

Lemma windows_NoDup span w take c :
  NoDup (partitions span) → NoDup (map pw_partition (windows span w take c)).
Proof.
  unfold windows. induction (partitions span) as [|p ps IH]; [constructor|].
  intros [Hp Hnd]%NoDup_cons. specialize (IH Hnd). cbn [omap list_omap].
  destruct (window_for span w take (remaining <$> c) p) as [win|] eqn:Ew; [|done].
  simpl. constructor; [|done]. intros Hin. apply Hp.
  apply list_elem_of_fmap in Hin as (win' & Heq & Hin). apply list_elem_of_omap in Hin as (q & Hq & Hw).
  assert (∀ q win, window_for span w take (remaining <$> c) q = Some win → pw_partition win = q) as Hpart.
  { intros q' win'' Hwf. unfold window_for in Hwf. destruct (watermarks span !! q') as [m|]; [|done].
    simpl in Hwf. destruct (window_bounds _ _ _ _ _) as [[a b]|]; [|done]. simpl in Hwf.
    destruct (window_is_empty _); [done|]. by injection Hwf as <-. }
  rewrite (Hpart p win Ew), (Hpart q win' Hw) in Heq. congruence.
Qed.

(** ** Moving the cursor past a page *)

(** The edge of a window nearest the walk's start, and the one it ends at. *)
Definition near_edge (walk : RecordOrder) (w : PartitionWindow) : Z :=
  match walk with Oldest => pw_start w | Newest => pw_end w end.

Definition far_edge (walk : RecordOrder) (w : PartitionWindow) : Z :=
  match walk with Oldest => pw_end w | Newest => pw_start w end.

(** The boundary just past offset [k]. *)
Definition past (walk : RecordOrder) (k : Z) : Z :=
  match walk with Oldest => (k + 1)%Z | Newest => k end.

(** A page of [limit] records passes what it returned and everything before that
    in its partition; a shorter page passes the windows it covered. *)
Definition passed (walk : RecordOrder) (covered : list PartitionWindow)
    (kept : list (Z * Z)) (limit p o : Z) : Prop :=
  ∃ w, w ∈ covered ∧ pw_partition w = p ∧
    if (limit <=? len kept)%Z then ∃ k, (p, k) ∈ kept ∧ ¬ ahead walk (past walk k) o
    else ¬ ahead walk (far_edge walk w) o.

#[export] Instance passed_dec walk covered kept limit p o :
  Decision (passed walk covered kept limit p o).
Proof.
  set (Q := λ w : PartitionWindow, pw_partition w = p ∧
    if (limit <=? len kept)%Z
    then Exists (λ e : Z * Z, e.1 = p ∧ ¬ ahead walk (past walk e.2) o) kept
    else ¬ ahead walk (far_edge walk w) o).
  assert (∀ w, Decision (Q w)) as Hdec.
  { intros w. unfold Q. destruct (limit <=? len kept)%Z; apply _. }
  destruct (decide (Exists Q covered)) as [He|He]; [left|right]; rewrite Exists_exists in He; unfold passed, Q in *.
  - destruct He as (w & Hw & Hp & Hpass). exists w. split_and!; [done..|].
    destruct (limit <=? len kept)%Z; [|done].
    apply Exists_exists in Hpass as ([q k] & Hk & Hq & Hna). simpl in Hq. subst q. by exists k.
  - intros (w & Hw & Hp & Hpass). apply He. exists w. split_and!; [done..|].
    destruct (limit <=? len kept)%Z; [|done].
    destruct Hpass as (k & Hk & Hna). apply Exists_exists. by exists (p, k).
Defined.

(** [covered] are windows that start where [from] stops, one per partition. *)
Definition covers (span : LogSpan) (from : RecordCursor) (covered : list PartitionWindow) : Prop :=
  NoDup (map pw_partition covered) ∧
  ∀ w, w ∈ covered → (pw_start w ≤ pw_end w)%Z ∧
    ∃ m b, watermarks span !! pw_partition w = Some m ∧
      remaining_offsets (remaining from) !! pw_partition w = Some b ∧
      near_edge (walk from) w = clamped m b.

Lemma past_furthest_snoc w kept k :
  past_furthest w (kept ++ [k]) = past_step w (past_furthest w kept) k.
Proof. unfold past_furthest. by rewrite foldl_app. Qed.

Lemma past_furthest_lookup w kept p :
  Forall (λ k : Z * Z, (0 ≤ k.2 < i64_max)%Z) kept →
  match past_furthest w kept !! p with
  | None => ∀ k, (p, k) ∉ kept
  | Some e => (∃ k, (p, k) ∈ kept ∧ e = past w k) ∧
      ∀ k o, (p, k) ∈ kept → ahead w e o → ahead w (past w k) o
  end.
Proof.
  induction kept as [|[q x] kept IH] using rev_ind; intros Hk.
  { unfold past_furthest. simpl. rewrite lookup_empty. intros k. apply not_elem_of_nil. }
  apply Forall_app in Hk as [Hk [Hx _]%Forall_cons]. specialize (IH Hk). simpl in Hx.
  rewrite past_furthest_snoc. unfold past_step.
  assert ((match w with Oldest => (i64_add x 1, Z.max) | Newest => (x, Z.min) end) =
    (past w x, match w with Oldest => Z.max | Newest => Z.min end)) as ->.
  { destruct w; [done|]. simpl. rewrite i64_add_id; [done|]. unfold_ints; simpl in Hx; lia. }
  destruct (decide (q = p)) as [->|Hne].
  - rewrite lookup_insert_eq. destruct (past_furthest w kept !! p) as [e|] eqn:E; simpl.
    + destruct IH as [(k & Hin & ->) Hall]. split.
      * destruct w; simpl in *.
        -- destruct (Z.min_spec k x) as [[_ ->]|[_ ->]]; [exists k|exists x]; set_solver.
        -- destruct (Z.max_spec (k + 1) (x + 1)) as [[_ ->]|[_ ->]]; [exists x|exists k]; set_solver.
      * intros k' o Hk' Ha. apply elem_of_app in Hk' as [Hk'|Hk'%list_elem_of_singleton].
        -- apply (Hall k' o Hk'). revert Ha. destruct w; simpl; lia.
        -- injection Hk' as ->. destruct w; simpl in *; lia.
    + split; [exists x; split; [set_solver|destruct w; simpl; lia]|].
      intros k' o Hk' Ha. apply elem_of_app in Hk' as [Hk'|Hk'%list_elem_of_singleton].
      * by destruct (IH k').
      * injection Hk' as ->. destruct w; simpl in *; lia.
  - rewrite lookup_insert_ne by done. destruct (past_furthest w kept !! p) as [e|] eqn:E.
    + destruct IH as [(k & Hin & ->) Hall]. split; [exists k; set_solver|].
      intros k' o Hk'. apply Hall. set_solver.
    + intros k. specialize (IH k). set_solver.
Qed.

Lemma advance_step_eq w returned next win :
  advance_step w returned next win =
  <[pw_partition win :=
    match returned with
    | Some r => default (near_edge w win) (r !! pw_partition win)
    | None => far_edge w win
    end]> next.
Proof. by destruct w. Qed.

Lemma advance_boundaries w returned covered next p :
  NoDup (map pw_partition covered) →
  foldl (advance_step w returned) next covered !! p =
  match list_find (λ win, pw_partition win = p) covered with
  | Some (_, win) => Some (match returned with
      | Some r => default (near_edge w win) (r !! p)
      | None => far_edge w win
      end)
  | None => next !! p
  end.
Proof.
  revert next. induction covered as [|win covered IH]; intros next; [done|].
  intros [Hnin Hnd]%NoDup_cons. cbn [foldl list_find].
  rewrite IH by done. rewrite advance_step_eq.
  destruct (decide (pw_partition win = p)) as [<-|Hne].
  - assert (list_find (λ win0, pw_partition win0 = pw_partition win) covered = None) as ->.
    { apply list_find_None, Forall_forall. intros w' Hw' Heq. apply Hnin.
      apply list_elem_of_fmap. by exists w'. }
    by rewrite lookup_insert_eq.
  - destruct (list_find _ covered) as [[i w']|]; simpl; [done|]. by rewrite lookup_insert_ne.
Qed.

Lemma ahead_clamped w m b o :
  (low m ≤ o < high m)%Z → ahead w (clamped m b) o ↔ ahead w b o.
Proof. unfold clamped. destruct w; simpl; lia. Qed.

Lemma ahead_past_boundary w b k o : ahead w b k → ahead w (past w k) o → ahead w b o.
Proof. destruct w; simpl; lia. Qed.

Lemma functional_btree_iter (m : gmap Z Z) : functional_pairs (btree_iter m).
Proof. apply functional_pairs_NoDup, NoDup_btree_keys. Qed.

(** The boundary a covered window leaves, offset by offset. *)
Lemma ahead_full w win kept m b o :
  near_edge w win = clamped m b → (low m ≤ o < high m)%Z →
  Forall (λ k : Z * Z, (0 ≤ k.2 < i64_max)%Z) kept →
  (∀ k, (pw_partition win, k) ∈ kept → ahead w b k) →
  ahead w (default (near_edge w win) (past_furthest w kept !! pw_partition win)) o ↔
  ahead w b o ∧ ¬ ∃ k, (pw_partition win, k) ∈ kept ∧ ¬ ahead w (past w k) o.
Proof.
  intros Hnear Ho Hk Hb. pose proof (past_furthest_lookup w kept (pw_partition win) Hk) as Hf.
  destruct (past_furthest w kept !! pw_partition win) as [e|]; simpl.
  - destruct Hf as [(k & Hin & ->) Hall]. split.
    + intros Ha. split; [by eapply ahead_past_boundary, Ha; apply Hb|].
      intros (k' & Hk' & Hn). by apply Hn, (Hall k' o).
    + intros [_ Hn]. destruct (decide (ahead w (past w k) o)) as [|Hna]; [done|].
      destruct Hn. by exists k.
  - rewrite Hnear, ahead_clamped by done. split; [|by intros []].
    intros Ha. split; [done|]. intros (k & Hin & _). by apply (Hf k).
Qed.

Lemma ahead_short w win m b o :
  near_edge w win = clamped m b → (pw_start win ≤ pw_end win)%Z → (low m ≤ o < high m)%Z →
  ahead w (far_edge w win) o ↔ ahead w b o ∧ ¬ ¬ ahead w (far_edge w win) o.
Proof.
  intros Hnear Hle Ho. rewrite <- (ahead_clamped w m b o) by done. rewrite <- Hnear.
  destruct w; simpl; lia.
Qed.

Lemma covers_lookup span from covered p :
  covers span from covered →
  match list_find (λ win, pw_partition win = p) covered with
  | Some (_, win) => pw_partition win = p ∧ (pw_start win ≤ pw_end win)%Z ∧
      (∃ m b, watermarks span !! p = Some m ∧ remaining_offsets (remaining from) !! p = Some b ∧
        near_edge (walk from) win = clamped m b) ∧
      ∀ P : PartitionWindow → Prop, (∃ w, w ∈ covered ∧ pw_partition w = p ∧ P w) ↔ P win
  | None => ∀ w, w ∈ covered → pw_partition w ≠ p
  end.
Proof.
  intros [Hnd Hcov]. destruct (list_find _ covered) as [[i win]|] eqn:Hfind.
  - apply list_find_Some in Hfind as (Hi & <- & _).
    pose proof (list_elem_of_lookup_2 _ _ _ Hi) as Hin. destruct (Hcov win Hin) as (Hle & Hmb).
    split_and!; [done..|]. intros P. split; [|by exists win].
    intros (w & Hw & Hwp & HP). apply list_elem_of_lookup in Hw as [j Hj].
    assert (i = j) as <-; [|congruence].
    apply (NoDup_lookup _ i j (pw_partition win) Hnd); rewrite list_lookup_fmap, ?Hi, ?Hj; simpl; congruence.
  - intros w Hw. apply list_find_None in Hfind. rewrite Forall_forall in Hfind. by apply Hfind.
Qed.

(** What is still to read after a page is what was to read before it, less what
    the page passed. *)
Lemma advance_pending span from covered kept limit p o :
  wf_span span → covers span from covered →
  (∀ q k, (q, k) ∈ kept → pending span (remaining from) q k) →
  pending_after span (advance span from covered kept limit) p o ↔
  pending span (remaining from) p o ∧ ¬ passed (walk from) covered kept limit p o.
Proof.
  intros Hwf Hcov Hkept. unfold advance.
  rewrite cursor_pending by (done || apply functional_btree_iter).
  setoid_rewrite elem_of_btree_iter. setoid_rewrite advance_boundaries; [|apply Hcov].
  pose proof (covers_lookup span from covered p Hcov) as Hp. unfold pending, passed. fold (walk from).
  assert (Forall (λ k : Z * Z, (0 ≤ k.2 < i64_max)%Z) kept) as Hk.
  { apply Forall_forall. intros [q k] Hin. destruct (Hkept q k Hin) as [(m & Hm & Hr) _].
    destruct (Hwf q m Hm). simpl. lia. }
  destruct (list_find _ covered) as [[i win]|].
  - destruct Hp as (<- & Hle & (m & b & Hm & Hb & Hnear) & Hex). rewrite Hex, Hb.
    assert (in_log span (pw_partition win) o ↔ (low m ≤ o < high m)%Z) as ->.
    { unfold in_log. rewrite Hm. split; [by intros (? & [= <-] & ?)|]. by exists m. }
    assert (∀ k, (pw_partition win, k) ∈ kept → ahead (walk from) b k) as Hbk.
    { intros k Hin. destruct (Hkept _ _ Hin) as [_ (b' & Hb' & Ha)]. unfold walk. congruence. }
    destruct (limit <=? len kept)%Z.
    + pose proof (ahead_full (walk from) win kept m b o Hnear). naive_solver.
    + pose proof (ahead_short (walk from) win m b o Hnear Hle). naive_solver.
  - split; [|tauto]. intros [Hin Hb]. split; [tauto|]. intros (w & Hw & Hwp & _). by apply (Hp w).
Qed.

(** ** Going back *)

Lemma ahead_flipped w b o : ahead (flipped w) b o ↔ ¬ ahead w b o.
Proof. destruct w; simpl; lia. Qed.

Lemma ahead_far_end w m o : (low m ≤ o < high m)%Z → ¬ ahead w (far_end w m) o.
Proof. destruct w; simpl; lia. Qed.

Lemma rewind_pending span opened p o :
  wf_span span →
  pending_after span (rewind span opened) p o ↔
  p ∈ partitions span ∧ in_log span p o ∧ ¬ pending span (remaining opened) p o.
Proof.
  intros Hwf. unfold rewind.
  set (f := λ partition, (λ marks, default (far_end (walk opened) marks)
    (remaining_offsets (remaining opened) !! partition)) <$> watermarks span !! partition).
  assert (omap (λ partition, marks ← watermarks span !! partition;
             Some (partition, default (far_end (walk opened) marks)
               (remaining_offsets (remaining opened) !! partition))) (partitions span) =
          omap (λ p, v ← f p; Some (p, v)) (partitions span)) as ->.
  { apply list_omap_ext, Forall_Forall2_diag, Forall_true. intros q. unfold f.
    by destruct (watermarks span !! q). }
  rewrite cursor_pending by (done || apply functional_pairs_omap).
  setoid_rewrite elem_of_omap_pairs. setoid_rewrite ahead_flipped. unfold pending, f. fold (walk opened).
  split.
  - intros [Hin (b & [Hp Hb] & Ha)]. split_and!; [done..|]. intros [_ (b' & Hb' & Ha')].
    destruct Hin as (m & Hm & _). rewrite Hm, Hb' in Hb. simpl in Hb. injection Hb as ->. done.
  - intros (Hp & Hin & Hn). split; [done|]. destruct Hin as (m & Hm & Hr). rewrite Hm. simpl.
    eexists. split; [done|]. destruct (remaining_offsets _ !! p) as [b|] eqn:Hb; simpl.
    + intros Ha. apply Hn. split; [by exists m|]. by exists b.
    + by apply ahead_far_end.
Qed.

(** ** Timestamp bounds *)

(** Offset [o] is on the inner side of both seeks: a partition the lower seek
    found nothing in holds nothing, one the upper seek found nothing in keeps its
    end. *)
Definition in_seeks (from_offsets to_offsets : option (gmap Z (option Z))) (p o : Z) : Prop :=
  match from_offsets with
  | Some offsets =>
      match offsets !! p with Some (Some f) => (f ≤ o)%Z | Some None => False | None => True end
  | None => True
  end ∧
  match to_offsets with
  | Some offsets => match offsets !! p with Some (Some t) => (o < t)%Z | _ => True end
  | None => True
  end.

Lemma bound_marks_spec from_offsets to_offsets p m o :
  (low m ≤ high m)%Z →
  let m' := bound_marks from_offsets to_offsets p m in
  (low m' ≤ high m' ≤ high m)%Z ∧
  ((low m' ≤ o < high m')%Z ↔ (low m ≤ o < high m)%Z ∧ in_seeks from_offsets to_offsets p o).
Proof.
  intros Hm. unfold bound_marks, in_seeks. simpl.
  repeat match goal with
  | |- context [match ?x with Some _ => _ | None => _ end] => destruct x; simpl
  end; destruct (Z.ltb_spec0 (high m) (low m)); try lia;
  repeat match goal with
  | |- context [(?a <? ?b)%Z] => destruct (Z.ltb_spec0 a b)
  end; lia.
Qed.

(** ** Properties *)

(** The cursor of the next page leaves to read exactly what the page's cursor
    had left, less what the page passed: the returned records and everything
    before them in their partitions when the page is full, the covered windows
    when it is not. There is no next page exactly when nothing is left. *)
Theorem advance_spec span from covered kept limit :
  wf_span span → covers span from covered →
  (∀ q k, (q, k) ∈ kept → pending span (remaining from) q k) →
  ∀ p o, pending_after span (advance span from covered kept limit) p o ↔
    pending span (remaining from) p o ∧ ¬ passed (walk from) covered kept limit p o.
Proof. intros. by apply advance_pending. Qed.

(** The windows of a page are non-empty, at most [take] wide, inside the log of
    a covered partition, and hold exactly the offsets still to read that lie
    within [take] of their partition's boundary. *)
Theorem windows_spec span w take c :
  wf_span span → (0 ≤ take ≤ i64_max)%Z → (∀ c', c = Some c' → walk c' = w) →
  (∀ win, win ∈ windows span w take c →
    pw_partition win ∈ partitions span ∧
    (pw_start win < pw_end win ≤ pw_start win + take)%Z ∧
    ∀ x, in_window win x → in_log span (pw_partition win) x) ∧
  ∀ p x, (∃ win, win ∈ windows span w take c ∧ pw_partition win = p ∧ in_window win x) ↔
    p ∈ partitions span ∧ ∃ m b, watermarks span !! p = Some m ∧
      boundary span w c p = Some b ∧ (low m ≤ x < high m)%Z ∧
      ahead w b x ∧ within_take w m b take x.
Proof.
  intros Hwf Ht Hw. split; intros.
  - by eapply windows_bounds.
  - by apply windows_cover.
Qed.

(** The cursor back from a page holds exactly the records of the log that the
    page's own cursor had already passed. *)
Theorem rewind_spec span opened :
  wf_span span →
  ∀ p o, pending_after span (rewind span opened) p o ↔
    p ∈ partitions span ∧ in_log span p o ∧ ¬ pending span (remaining opened) p o.
Proof. intros. by apply rewind_pending. Qed.

(** Timestamp bounds cut each partition's log down to the offsets both seeks
    allow, and leave an ordered range whatever the seeks returned. *)
Theorem apply_timestamp_bounds_spec marks from_offsets to_offsets p m :
  marks !! p = Some m → (low m ≤ high m)%Z →
  ∃ m', apply_timestamp_bounds marks from_offsets to_offsets !! p = Some m' ∧
    (low m' ≤ high m' ≤ high m)%Z ∧
    ∀ o, (low m' ≤ o < high m')%Z ↔
      (low m ≤ o < high m)%Z ∧ in_seeks from_offsets to_offsets p o.
Proof.
  intros Hp Hm. exists (bound_marks from_offsets to_offsets p m).
  unfold apply_timestamp_bounds. rewrite map_lookup_imap, Hp. split; [done|].
  split; [by apply (bound_marks_spec from_offsets to_offsets p m 0)|].
  intros o. by apply bound_marks_spec.
Qed.

(** ** Witnesses *)

Definition sample_span : LogSpan :=
  {| partitions := [0; 1]%Z;
     watermarks := {[ 0%Z := {| low := 0; high := 100 |}; 1%Z := {| low := 5; high := 8 |} ]} |}.

Lemma sample_span_wf : wf_span sample_span.
Proof. unfold wf_span. apply (bool_decide_unpack _). vm_compute. exact I. Qed.

Lemma advance_spec_witness :
  let from := {| order := Newest; remaining := Before {[ 0%Z := 100%Z; 1%Z := 8%Z ]} |} in
  let covered := [{| pw_partition := 0; pw_start := 90; pw_end := 100 |};
                  {| pw_partition := 1; pw_start := 5; pw_end := 8 |}]%Z in
  pending_after sample_span (advance sample_span from covered [(0, 99); (1, 7)]%Z 2) 0 98 ↔
    pending sample_span (remaining from) 0 98 ∧
    ¬ passed (walk from) covered [(0, 99); (1, 7)]%Z 2 0 98.
Proof.
  apply advance_spec; [apply sample_span_wf|split|].
  - apply (bool_decide_unpack _). vm_compute. exact I.
  - intros w Hw. repeat (apply elem_of_cons in Hw as [->|Hw]); [| |by apply not_elem_of_nil in Hw].
    + split; [done|]. exists {| low := 0; high := 100 |}, 100%Z. done.
    + split; [done|]. exists {| low := 5; high := 8 |}, 8%Z. done.
  - intros q k Hk. repeat (apply elem_of_cons in Hk as [[= -> ->]|Hk]); [| |by apply not_elem_of_nil in Hk].
    + split; [exists {| low := 0; high := 100 |}; done|]. exists 100%Z. done.
    + split; [exists {| low := 5; high := 8 |}; done|]. exists 8%Z. done.
Defined.

Lemma windows_spec_witness :
  windows sample_span Newest 10 None =
    [{| pw_partition := 0; pw_start := 90; pw_end := 100 |};
     {| pw_partition := 1; pw_start := 5; pw_end := 8 |}]%Z ∧
  ∀ win, win ∈ windows sample_span Newest 10 None → pw_partition win ∈ partitions sample_span.
Proof.
  split; [reflexivity|]. intros win Hwin.
  by apply (windows_spec sample_span Newest 10 None sample_span_wf ltac:(done) ltac:(done)).
Defined.

Lemma rewind_spec_witness :
  let opened := {| order := Oldest; remaining := From_ {[ 0%Z := 40%Z ]} |} in
  rewind sample_span opened =
    Some {| order := Oldest; remaining := Before {[ 0%Z := 40%Z; 1%Z := 8%Z ]} |} ∧
  (pending_after sample_span (rewind sample_span opened) 0 39 ↔
   0%Z ∈ partitions sample_span ∧ in_log sample_span 0 39 ∧
   ¬ pending sample_span (remaining opened) 0 39).
Proof. split; [reflexivity|]. apply rewind_spec, sample_span_wf. Defined.

Lemma apply_timestamp_bounds_spec_witness :
  ∃ m', apply_timestamp_bounds {[ 0%Z := {| low := 0; high := 100 |} ]}
      (Some {[ 0%Z := Some 10%Z ]}) (Some {[ 0%Z := Some 30%Z ]}) !! 0%Z = Some m' ∧
    (low m' ≤ high m' ≤ 100)%Z ∧
    ∀ o, (low m' ≤ o < high m')%Z ↔
      (0 ≤ o < 100)%Z ∧ in_seeks (Some {[ 0%Z := Some 10%Z ]}) (Some {[ 0%Z := Some 30%Z ]}) 0 o.
Proof. apply (apply_timestamp_bounds_spec _ _ _ 0%Z {| low := 0; high := 100 |}); done. Defined.
