(* ===== verification/Batch.v ===== *)
(** [src/kafka/scan/batch.rs]: the bounded heap that keeps a page's best records. *)

From S2P Require Import Prelude Cursor.

(** ** Sort keys *)

Record SortKey : Set := { sk_timestamp : Z; sk_partition : Z; sk_offset : Z }.

#[export] Instance SortKey_eq_dec : EqDecision SortKey.
Proof. solve_decision. Defined.

Definition cmp_for_order (self other : SortKey) (order : RecordOrder) : comparison :=
  match order with
  | Newest =>
      cmp_then (cmp_then (CompOpp (Z.compare (sk_timestamp self) (sk_timestamp other)))
        (Z.compare (sk_partition self) (sk_partition other)))
        (CompOpp (Z.compare (sk_offset self) (sk_offset other)))
  | Oldest =>
      cmp_then (cmp_then (Z.compare (sk_timestamp self) (sk_timestamp other))
        (Z.compare (sk_partition self) (sk_partition other)))
        (Z.compare (sk_offset self) (sk_offset other))
  end.

Definition rank (self other : SortKey) (order : RecordOrder) (direction : CursorDirection)
    : comparison :=
  match direction with
  | Forward => cmp_for_order self other order
  | Backward => cmp_for_order other self order
  end.

(** ** The heap

    [BinaryHeap] is the ascending list of its entries: [peek] is the last one,
    [into_sorted_vec] the list itself, and an entry written through [peek_mut]
    sifts to its place. *)

Section batch.
Context {T : Type}.

Record Entry : Type := {
  e_key : SortKey;
  e_value : T;
  e_order : RecordOrder;
  e_direction : CursorDirection;
  e_sequence : Z;
}.

Definition entry_cmp (self other : Entry) : comparison :=
  cmp_then (rank (e_key self) (e_key other) (e_order self) (e_direction self))
    (Z.compare (e_sequence self) (e_sequence other)).

Record RecordBatch : Type := {
  rb_entries : list Entry;
  rb_limit : Z;
  rb_order : RecordOrder;
  rb_direction : CursorDirection;
  rb_seen : Z;
}.

Definition batch_new (limit : Z) (order : RecordOrder) (direction : CursorDirection)
    : RecordBatch :=
  {| rb_entries := []; rb_limit := limit; rb_order := order;
     rb_direction := direction; rb_seen := 0 |}.

Definition is_full (b : RecordBatch) : bool := (rb_limit b <=? len (rb_entries b))%Z.

Definition batch_is_empty (b : RecordBatch) : bool := bool_decide (len (rb_entries b) = 0%Z).

Definition displaced (b : RecordBatch) : Z := usize_sub (rb_seen b) (len (rb_entries b)).

Definition admits (b : RecordBatch) (key : SortKey) : bool :=
  if (rb_limit b =? 0)%Z then false
  else if negb (is_full b) then true
  else
    match last (rb_entries b) with
    | None => true
    | Some worst =>
        match rank key (e_key worst) (rb_order b) (rb_direction b) with
        | Lt => true
        | _ => false
        end
    end.

Definition with_entries (b : RecordBatch) (entries : list Entry) (seen : Z) : RecordBatch :=
  {| rb_entries := entries; rb_limit := rb_limit b; rb_order := rb_order b;
     rb_direction := rb_direction b; rb_seen := seen |}.

Definition push (b : RecordBatch) (key : SortKey) (value : T) : RecordBatch :=
  if (rb_limit b =? 0)%Z then b
  else
    let entry := {| e_key := key; e_value := value; e_order := rb_order b;
                    e_direction := rb_direction b; e_sequence := rb_seen b |} in
    let seen := usize_add (rb_seen b) 1 in
    if (len (rb_entries b) <? rb_limit b)%Z
    then with_entries b (insert_by entry_cmp entry (rb_entries b)) seen
    else
      match last (rb_entries b) with
      | None => with_entries b (rb_entries b) seen
      | Some worst =>
          match entry_cmp entry worst with
          | Lt => with_entries b
              (insert_by entry_cmp entry (take (length (rb_entries b) - 1) (rb_entries b))) seen
          | _ => with_entries b (rb_entries b) seen
          end
      end.

(** Hands the batch over and leaves an empty one. *)
Definition batch_take (b : RecordBatch) : RecordBatch * RecordBatch :=
  (b, batch_new (rb_limit b) (rb_order b) (rb_direction b)).

Definition into_sorted (b : RecordBatch) : list T := e_value <$> rb_entries b.

Definition push_all (b : RecordBatch) (items : list (SortKey * T)) : RecordBatch :=
  foldl (λ b item, push b item.1 item.2) b items.
End batch.
Arguments Entry T : clear implicits.
Arguments RecordBatch T : clear implicits.

(** ** Helper lemmas *)

#[export] Instance cmp_for_order_order order : OrderCmp (λ x y, cmp_for_order x y order).
Proof.
  pose proof (cmp_on_order sk_timestamp _ Zcompare_order) as Ht.
  pose proof (cmp_on_order sk_partition _ Zcompare_order) as Hp.
  pose proof (cmp_on_order sk_offset _ Zcompare_order) as Ho.
  destruct order; simpl.
  - apply (cmp_then_order (λ x y, cmp_then _ _) (λ x y, CompOpp _)).
    + apply (cmp_then_order (λ x y, CompOpp _)); [by apply cmp_reverse_order|done].
    + by apply cmp_reverse_order.
  - apply (cmp_then_order (λ x y, cmp_then _ _)); [|done]. by apply cmp_then_order.
Qed.

#[export] Instance rank_order order direction : OrderCmp (λ x y, rank x y order direction).
Proof.
  destruct direction; simpl; [apply _|].
  apply (cmp_flip_order (λ x y, cmp_for_order x y order)), _.
Qed.

Lemma cmp_for_order_eq x y order : cmp_for_order x y order = Eq → x = y.
Proof.
  destruct x as [t p o], y as [t' p' o']. unfold cmp_for_order; simpl.
  destruct order; destruct (Z.compare_spec t t'), (Z.compare_spec p p'), (Z.compare_spec o o');
    simpl; intros; congruence.
Qed.

Lemma rank_eq x y order direction : rank x y order direction = Eq → x = y.
Proof.
  destruct direction; simpl; intros H; [|symmetry]; by apply cmp_for_order_eq in H.
Qed.

Section batch_lemmas.
Context {T : Type} (order : RecordOrder) (direction : CursorDirection).
Implicit Types (x y : Entry T) (l : list (Entry T)).

(** The heap's order at the batch's own settings. *)
Definition entry_cmp_at x y : comparison :=
  cmp_then (rank (e_key x) (e_key y) order direction) (Z.compare (e_sequence x) (e_sequence y)).

#[local] Instance entry_cmp_at_order : OrderCmp entry_cmp_at.
Proof.
  apply (cmp_then_order (λ x y, rank (e_key x) (e_key y) order direction)).
  - apply (cmp_on_order e_key (λ a b, rank a b order direction)), _.
  - apply (cmp_on_order e_sequence Z.compare), _.
Qed.

Definition settled x : Prop := e_order x = order ∧ e_direction x = direction.

Lemma insert_by_settled x l :
  settled x → insert_by entry_cmp x l = insert_by entry_cmp_at x l.
Proof.
  intros [Ho Hd]. induction l as [|y l IH]; simpl; [done|].
  unfold entry_cmp at 1, entry_cmp_at at 1. rewrite Ho, Hd, IH. done.
Qed.

(** The [k]-th pushed item as an entry. *)
Definition entry_of (k : Z) (item : SortKey * T) : Entry T :=
  {| e_key := item.1; e_value := item.2; e_order := order; e_direction := direction;
     e_sequence := k |}.

Fixpoint numbered (k : Z) (items : list (SortKey * T)) : list (Entry T) :=
  match items with
  | [] => []
  | item :: items => entry_of k item :: numbered (k + 1) items
  end.

Definition item_of x : SortKey * T := (e_key x, e_value x).

Lemma numbered_app k items1 items2 :
  numbered k (items1 ++ items2) = numbered k items1 ++ numbered (k + len items1) items2.
Proof.
  revert k. induction items1 as [|i items1 IH]; intros k; simpl.
  - by rewrite len_nil, Z.add_0_r.
  - rewrite IH, len_cons. do 3 f_equal. lia.
Qed.

Lemma length_numbered k items : length (numbered k items) = length items.
Proof. revert k. induction items; intros; simpl; auto. Qed.

Lemma numbered_sequence k items x :
  x ∈ numbered k items → (k ≤ e_sequence x < k + len items)%Z.
Proof.
  revert k. induction items as [|i items IH]; intros k; simpl; [by intros ?%not_elem_of_nil|].
  rewrite len_cons. pose proof (len_nonneg items).
  intros [->|Hx]%elem_of_cons; simpl; [lia|]. apply IH in Hx. lia.
Qed.

Lemma numbered_inj k items x y :
  x ∈ numbered k items → y ∈ numbered k items → e_sequence x = e_sequence y → x = y.
Proof.
  revert k. induction items as [|i items IH]; intros k; simpl; [by intros ?%not_elem_of_nil|].
  intros [->|Hx]%elem_of_cons [->|Hy]%elem_of_cons; [done| | |by eapply IH].
  - apply numbered_sequence in Hy. simpl. lia.
  - apply numbered_sequence in Hx. simpl. lia.
Qed.

Lemma entry_cmp_at_eq x y : entry_cmp_at x y = Eq → e_sequence x = e_sequence y.
Proof. unfold entry_cmp_at. destruct (rank _ _ _ _); simpl; try done. apply Z.compare_eq. Qed.

Lemma sort_numbered_snoc items item :
  sort_by entry_cmp_at (numbered 0 (items ++ [item])) =
  insert_by entry_cmp_at (entry_of (len items) item) (sort_by entry_cmp_at (numbered 0 items)).
Proof.
  rewrite numbered_app. simpl.
  change (insert_by entry_cmp_at ?x (sort_by entry_cmp_at ?l)) with (sort_by entry_cmp_at (x :: l)).
  apply sort_by_perm_eq; [apply _| |by rewrite Permutation_app_comm].
  intros x y Hx Hy Hxy%entry_cmp_at_eq.
  apply (numbered_inj 0 (items ++ [item])); [by rewrite numbered_app..|done].
Qed.

(** Inserting numbered entries by heap order is inserting the items stably. *)
Lemma insert_by_items x l :
  (∀ y, y ∈ l → (e_sequence x < e_sequence y)%Z) →
  item_of <$> insert_by entry_cmp_at x l =
  insert_by (λ a b, rank a.1 b.1 order direction) (item_of x) (item_of <$> l).
Proof.
  induction l as [|y l IH]; intros Hl; [done|]. simpl.
  unfold entry_cmp_at at 1. destruct (rank (e_key x) (e_key y) order direction); simpl; [|done|].
  - assert ((e_sequence x ?= e_sequence y)%Z = Lt) as ->; [|done].
    apply Z.compare_lt_iff, Hl. by left.
  - f_equal. apply IH. intros z Hz. apply Hl. by right.
Qed.

Lemma sort_numbered_items k items :
  item_of <$> sort_by entry_cmp_at (numbered k items) =
  sort_by (λ a b, rank a.1 b.1 order direction) items.
Proof.
  revert k. induction items as [|i items IH]; intros k; [done|]. cbn [numbered sort_by foldr].
  fold (sort_by entry_cmp_at (numbered (k + 1) items)).
  fold (sort_by (λ a b : SortKey * T, rank a.1 b.1 order direction) items).
  rewrite insert_by_items.
  - rewrite IH. by destruct i.
  - intros y Hy. apply elem_of_sort_by in Hy. apply numbered_sequence in Hy. simpl. lia.
Qed.
End batch_lemmas.

(** Pushing keeps exactly the best [limit] entries of what was pushed. *)
Section push_lemmas.
Context {T : Type}.
Implicit Types (b : RecordBatch T) (items : list (SortKey * T)).

Definition best (limit : Z) order direction items : list (Entry T) :=
  take (Z.to_nat limit) (sort_by (entry_cmp_at order direction) (numbered order direction 0 items)).

(** [b] holds the best of [items]. *)
Definition holds b items : Prop :=
  rb_entries b = best (rb_limit b) (rb_order b) (rb_direction b) items ∧
  (rb_limit b = 0%Z ∨ rb_seen b = len items).

#[local] Existing Instance entry_cmp_at_order.

Lemma best_sorted limit order direction items :
  StronglySorted (cmp_le (entry_cmp_at order direction)) (best limit order direction items).
Proof.
  unfold best. eapply StronglySorted_app_1_l. rewrite take_drop. apply sort_by_sorted, _.
Qed.

Lemma length_best limit order direction items :
  length (best limit order direction items) = Z.to_nat limit `min` length items.
Proof. unfold best. by rewrite length_take, length_sort_by, length_numbered. Qed.

Lemma best_snoc limit order direction items item :
  best limit order direction (items ++ [item]) =
  take (Z.to_nat limit) (insert_by (entry_cmp_at order direction)
    (entry_of order direction (len items) item) (best limit order direction items)).
Proof. unfold best. by rewrite sort_numbered_snoc, take_insert_by. Qed.

(** A full heap replaces its worst entry by a better one. *)
Lemma take_insert_full {A} (cmp : A → A → comparison) `{!OrderCmp cmp} l x w n :
  StronglySorted (cmp_le cmp) l → length l = n → last l = Some w →
  take n (insert_by cmp x l) =
  match cmp x w with Gt => l | _ => insert_by cmp x (take (n - 1) l) end.
Proof.
  intros Hl Hn Hw. apply last_Some in Hw as [l' ->]. rewrite length_app in Hn. simpl in Hn.
  rewrite take_app_le, (take_ge l') by lia.
  destruct (cmp x w) eqn:E.
  3: { rewrite insert_by_snoc by done. change [w; x] with ([w] ++ [x]). rewrite app_assoc.
       apply take_app_length'. rewrite length_app. simpl. lia. }
  all: rewrite insert_by_last by congruence; rewrite take_app_length'; [done|].
  all: rewrite length_insert_by; lia.
Qed.

Definition same_settings b b' : Prop :=
  rb_limit b' = rb_limit b ∧ rb_order b' = rb_order b ∧ rb_direction b' = rb_direction b.

Lemma push_settings b key value : same_settings b (push b key value).
Proof.
  unfold push. destruct (rb_limit b =? 0)%Z; [done|].
  destruct (_ <? _)%Z; [done|]. destruct (last _) as [worst|]; [|done].
  by destruct (entry_cmp _ worst).
Qed.

(** The entries after a push: the old ones with the new one in place, cut to the limit. *)
Lemma push_entries b items key value :
  (0 ≤ rb_limit b)%Z → holds b items → rb_limit b ≠ 0%Z →
  rb_entries (push b key value) =
  take (Z.to_nat (rb_limit b)) (insert_by (entry_cmp_at (rb_order b) (rb_direction b))
    (entry_of (rb_order b) (rb_direction b) (rb_seen b) (key, value)) (rb_entries b)).
Proof.
  intros Hlim [He Hs] Hz. unfold push. rewrite (proj2 (Z.eqb_neq _ _) Hz).
  change {| e_key := key; e_value := value; e_order := rb_order b;
    e_direction := rb_direction b; e_sequence := rb_seen b |} with
    (entry_of (rb_order b) (rb_direction b) (rb_seen b) (key, value)).
  set (x := entry_of _ _ _ _).
  assert (settled (rb_order b) (rb_direction b) x) as Hset by done.
  pose proof (best_sorted (rb_limit b) (rb_order b) (rb_direction b) items) as Hsort.
  pose proof (length_best (rb_limit b) (rb_order b) (rb_direction b) items) as Hl.
  rewrite <- He in Hsort, Hl. unfold len. destruct (Z.ltb_spec (Z.of_nat (length (rb_entries b))) (rb_limit b)).
  { simpl. rewrite (insert_by_settled _ _ _ _ Hset), take_ge; [done|]. rewrite length_insert_by. lia. }
  destruct (last (rb_entries b)) as [worst|] eqn:Hlast.
  2: { apply last_None in Hlast. rewrite Hlast in H. simpl in H. lia. }
  assert (entry_cmp x worst = entry_cmp_at (rb_order b) (rb_direction b) x worst) as Hcmp by done.
  rewrite (take_insert_full _ _ _ worst) by (done || lia).
  rewrite Hcmp. destruct (entry_cmp_at _ _ x worst) eqn:E; simpl; [| |done].
  - apply entry_cmp_at_eq in E. simpl in E. apply last_Some_elem_of in Hlast.
    rewrite He in Hlast. apply elem_of_take in Hlast as (i & Hi & _).
    apply list_elem_of_lookup_2, elem_of_sort_by, numbered_sequence in Hi.
    destruct Hs; [done|]. lia.
  - rewrite (insert_by_settled _ _ _ _ Hset). by rewrite Hl, Nat.min_l by lia.
Qed.

Lemma push_seen b key value : rb_limit b ≠ 0%Z → rb_seen (push b key value) = usize_add (rb_seen b) 1.
Proof.
  intros Hz. unfold push. rewrite (proj2 (Z.eqb_neq _ _) Hz).
  destruct (_ <? _)%Z; [done|]. destruct (last _) as [worst|]; [|done].
  by destruct (entry_cmp _ worst).
Qed.

Lemma push_holds b items item :
  (0 ≤ rb_limit b)%Z → (len items < usize_max)%Z → holds b items →
  holds (push b item.1 item.2) (items ++ [item]).
Proof.
  intros Hlim Hlen Hb. destruct (push_settings b item.1 item.2) as (El & Eo & Ed).
  unfold holds. rewrite El, Eo, Ed. destruct (decide (rb_limit b = 0%Z)) as [Hz|Hz].
  - split; [|by left]. unfold push, best. destruct Hb as [He _]. unfold best in He.
    rewrite Hz in *. simpl. by rewrite He.
  - pose proof Hb as [He [|Hs]]; [done|]. split.
    + rewrite (push_entries b items) by done. rewrite best_snoc, He, Hs. by destruct item.
    + right. rewrite push_seen, Hs, len_app by done. change (len [item]) with 1%Z. apply usize_add_id.
      pose proof (len_nonneg items). unfold_ints. lia.
Qed.

Lemma holds_new limit order direction : holds (batch_new limit order direction) [].
Proof. split; [|by right]. unfold best. simpl. by rewrite take_nil. Qed.

Lemma push_all_holds b items more :
  (0 ≤ rb_limit b)%Z → (len items + len more ≤ usize_max)%Z → holds b items →
  holds (push_all b more) (items ++ more) ∧ same_settings b (push_all b more).
Proof.
  revert b items. induction more as [|item more IH]; intros b items Hlim Hlen Hb.
  { by rewrite app_nil_r. }
  rewrite len_cons in Hlen. pose proof (len_nonneg more).
  destruct (push_settings b item.1 item.2) as (El & Eo & Ed).
  destruct (IH (push b item.1 item.2) (items ++ [item])) as [Hh (El' & Eo' & Ed')].
  - lia.
  - rewrite len_app, len_cons, len_nil. lia.
  - apply push_holds; [done|lia|done].
  - rewrite <- app_assoc in Hh. split; [done|]. unfold same_settings. simpl. split_and!; congruence.
Qed.

Lemma into_sorted_holds b items :
  holds b items →
  into_sorted b = (take (Z.to_nat (rb_limit b))
    (sort_by (λ x y, rank x.1 y.1 (rb_order b) (rb_direction b)) items)).*2.
Proof.
  intros [He _]. unfold into_sorted. rewrite He.
  rewrite <- (sort_numbered_items (rb_order b) (rb_direction b) 0 items).
  unfold best. by rewrite <- fmap_take, <- list_fmap_compose.
Qed.

(** A key the batch does not admit would change nothing. *)
Lemma push_unadmitted b items key value :
  (0 ≤ rb_limit b)%Z → holds b items → admits b key = false →
  rb_entries (push b key value) = rb_entries b.
Proof.
  intros Hlim [He Hs] Had. unfold admits in Had. unfold push.
  destruct (rb_limit b =? 0)%Z; [done|]. unfold is_full in Had.
  destruct (Z.leb_spec (rb_limit b) (len (rb_entries b))); [|done]. simpl in Had.
  rewrite (proj2 (Z.ltb_ge _ _)) by done.
  destruct (last (rb_entries b)) as [worst|] eqn:Hlast; [|done].
  unfold entry_cmp. simpl.
  destruct (rank key (e_key worst) (rb_order b) (rb_direction b)) eqn:E; simpl; [|done..].
  destruct Hs as [Hz|Hs]; [apply last_Some_elem_of in Hlast; rewrite He, Hz in Hlast|].
  { by apply not_elem_of_nil in Hlast. }
  apply last_Some_elem_of in Hlast. rewrite He in Hlast.
  apply elem_of_take in Hlast as (i & Hi & _).
  apply list_elem_of_lookup_2, elem_of_sort_by, numbered_sequence in Hi.
  destruct (Z.compare_spec (rb_seen b) (e_sequence worst)); [done|lia|done].
Qed.
End push_lemmas.

Lemma elem_of_insert_by {A} (cmp : A → A → comparison) x l : x ∈ insert_by cmp x l.
Proof. rewrite insert_by_perm. by left. Qed.

Lemma push_admitted {T} (b : RecordBatch T) key value :
  admits b key = true →
  entry_of (rb_order b) (rb_direction b) (rb_seen b) (key, value) ∈ rb_entries (push b key value) ∨
  rb_entries b = [] ∧ (rb_limit b < 0)%Z.
Proof.
  unfold admits, push, is_full. destruct (rb_limit b =? 0)%Z eqn:Hz; [done|]. apply Z.eqb_neq in Hz.
  destruct (Z.leb_spec (rb_limit b) (len (rb_entries b))); simpl.
  - rewrite (proj2 (Z.ltb_ge _ _)) by done.
    destruct (last (rb_entries b)) as [worst|] eqn:Hlast.
    + unfold entry_cmp. simpl. destruct (rank key _ _ _); simpl; [done| |done].
      intros _. left. apply elem_of_insert_by.
    + intros _. right. apply last_None in Hlast. rewrite Hlast, len_nil in H. split; [done|lia].
  - intros _. left. rewrite (proj2 (Z.ltb_lt _ _)) by done. simpl. apply elem_of_insert_by.
Qed.

(** *** What became of a key that was offered

    A batch is well formed when its entries are in its own order and within its
    limit. A key it was offered is then in the batch, or the batch is full of
    keys that are no worse. *)
Section offered.
Context {T : Type}.
Implicit Types b : RecordBatch T.
#[local] Existing Instance entry_cmp_at_order.

Definition wf_batch b : Prop :=
  Forall (settled (rb_order b) (rb_direction b)) (rb_entries b) ∧
  StronglySorted (cmp_le (entry_cmp_at (rb_order b) (rb_direction b))) (rb_entries b) ∧
  (len (rb_entries b) ≤ rb_limit b)%Z.

Definition accounted b (key : SortKey) : Prop :=
  (∃ e, e ∈ rb_entries b ∧ e_key e = key) ∨
  is_full b = true ∧
  ∀ e, e ∈ rb_entries b → rank (e_key e) key (rb_order b) (rb_direction b) ≠ Gt.

Lemma wf_batch_new limit order direction : (0 ≤ limit)%Z → wf_batch (batch_new limit order direction).
Proof. intros. split_and!; simpl; [constructor..|by rewrite len_nil]. Qed.

Lemma entry_le_rank order direction (x y : Entry T) :
  cmp_le (entry_cmp_at order direction) x y → rank (e_key x) (e_key y) order direction ≠ Gt.
Proof. unfold cmp_le, entry_cmp_at. by destruct (rank (e_key x) (e_key y) order direction). Qed.

Lemma last_worst b worst e :
  wf_batch b → last (rb_entries b) = Some worst → e ∈ rb_entries b →
  rank (e_key e) (e_key worst) (rb_order b) (rb_direction b) ≠ Gt.
Proof.
  intros (_ & Hs & _) Hw He. apply entry_le_rank. apply last_Some in Hw as [l Hl].
  rewrite Hl in Hs, He. apply elem_of_app in He as [He|He%list_elem_of_singleton].
  - eapply StronglySorted_app_1_elem_of; [exact Hs|done|by left].
  - subst e. apply cmp_le_refl, _.
Qed.

Lemma rank_le_trans order direction x y z :
  rank x y order direction ≠ Gt → rank y z order direction ≠ Gt → rank x z order direction ≠ Gt.
Proof. apply (cmp_le_trans (λ x y, rank x y order direction)). Qed.

(** A push either adds the entry, or replaces the worst of a full batch by it, or
    leaves a full batch of better entries alone. *)
Lemma push_cases b key value (P : RecordBatch T → Prop) :
  let x := entry_of (rb_order b) (rb_direction b) (rb_seen b) (key, value) in
  let cmp := entry_cmp_at (rb_order b) (rb_direction b) in
  wf_batch b →
  (rb_limit b = 0%Z → P b) →
  (∀ seen, (len (rb_entries b) < rb_limit b)%Z →
    P (with_entries b (insert_by cmp x (rb_entries b)) seen)) →
  (∀ seen l worst, rb_entries b = l ++ [worst] → len (rb_entries b) = rb_limit b →
    cmp x worst = Lt → P (with_entries b (insert_by cmp x l) seen)) →
  (∀ seen worst, last (rb_entries b) = Some worst → len (rb_entries b) = rb_limit b →
    cmp x worst ≠ Lt → P (with_entries b (rb_entries b) seen)) →
  P (push b key value).
Proof.
  intros x cmp (Hset & _ & Hlen) H0 H1 H2 H3. unfold push.
  destruct (Z.eqb_spec (rb_limit b) 0) as [Hz|Hz]; [by apply H0|].
  change {| e_key := key; e_value := value; e_order := rb_order b;
    e_direction := rb_direction b; e_sequence := rb_seen b |} with x.
  assert (settled (rb_order b) (rb_direction b) x) as Hx by done.
  destruct (Z.ltb_spec (len (rb_entries b)) (rb_limit b)).
  { rewrite (insert_by_settled _ _ _ _ Hx). by apply H1. }
  destruct (last (rb_entries b)) as [worst|] eqn:Hw.
  2: { apply last_None in Hw. rewrite Hw, len_nil in *. lia. }
  change (entry_cmp x worst) with (cmp x worst). destruct (cmp x worst) eqn:E.
  - apply (H3 _ worst); [done|lia|congruence].
  - apply last_Some in Hw as [l Hl]. rewrite (insert_by_settled _ _ _ _ Hx), Hl.
    rewrite length_app. simpl. rewrite take_app_length' by lia.
    by apply (H2 _ l worst); [|lia|].
  - apply (H3 _ worst); [done|lia|congruence].
Qed.

Lemma push_wf b key value : wf_batch b → wf_batch (push b key value).
Proof.
  intros Hb. apply push_cases; [done|done| | |].
  - intros seen Hlt. destruct Hb as (Hset & Hs & _). split_and!; simpl.
    + rewrite insert_by_perm. by constructor.
    + by apply insert_by_sorted; [apply _|].
    + unfold len in *. rewrite length_insert_by. lia.
  - intros seen l worst Hl Hfull _. destruct Hb as (Hset & Hs & _). rewrite Hl in *.
    apply Forall_app in Hset as [Hset _]. apply StronglySorted_app_1_l in Hs. split_and!; simpl.
    + rewrite insert_by_perm. by constructor.
    + by apply insert_by_sorted; [apply _|].
    + unfold len in *. rewrite length_insert_by. rewrite length_app in Hfull. simpl in Hfull. lia.
  - intros seen worst Hw Hfull _. by destruct Hb.
Qed.

Lemma push_elem b key value e :
  wf_batch b → e ∈ rb_entries (push b key value) →
  e ∈ rb_entries b ∨ e_key e = key ∧ e_value e = value.
Proof.
  intros Hb. apply push_cases; [done|by left| | |by left].
  - intros seen _. simpl. rewrite insert_by_perm. intros [->|]%elem_of_cons; [by right|by left].
  - intros seen l worst -> _ _. simpl. rewrite insert_by_perm.
    intros [->|]%elem_of_cons; [by right|left]. apply elem_of_app. by left.
Qed.

Lemma is_full_true b : wf_batch b → is_full b = true ↔ len (rb_entries b) = rb_limit b.
Proof. intros (_ & _ & Hl). unfold is_full. rewrite Z.leb_le. lia. Qed.

Lemma push_keeps b key value key' :
  wf_batch b → accounted b key' → accounted (push b key value) key'.
Proof.
  intros Hb Hk. pose proof (push_wf b key value Hb) as Hb'. revert Hb'.
  apply push_cases; [done|done| | |done].
  - intros seen Hlt _. destruct Hk as [(e & He & <-)|[Hf _]].
    + left. exists e. simpl. rewrite insert_by_perm. split; [by right|done].
    + apply is_full_true in Hf; [lia|done].
  - intros seen l worst Hl Hfull Hlt Hb'.
    assert (last (rb_entries b) = Some worst) as Hw by by rewrite Hl, last_snoc.
    assert (rank key (e_key worst) (rb_order b) (rb_direction b) ≠ Gt) as Hxw.
    { apply (entry_le_rank _ _ (entry_of (rb_order b) (rb_direction b) (rb_seen b) (key, value)) worst).
      unfold cmp_le. rewrite Hlt. done. }
    assert (is_full (with_entries b (insert_by (entry_cmp_at (rb_order b) (rb_direction b))
      (entry_of (rb_order b) (rb_direction b) (rb_seen b) (key, value)) l) seen) = true) as Hfull'.
    { apply is_full_true; [done|]. simpl. unfold len in *. rewrite length_insert_by, <- Hfull, Hl, length_app.
      simpl. lia. }
    assert (∀ e : Entry T, e ∈ insert_by (entry_cmp_at (rb_order b) (rb_direction b))
        (entry_of (rb_order b) (rb_direction b) (rb_seen b) (key, value)) l →
      rank (e_key e) (e_key worst) (rb_order b) (rb_direction b) ≠ Gt) as Hle.
    { intros e. rewrite insert_by_perm. intros [->|He]%elem_of_cons; [done|].
      apply (last_worst b); [done..|]. rewrite Hl. apply elem_of_app. by left. }
    destruct Hk as [(e & He & <-)|[_ Hk]].
    + rewrite Hl in He. apply elem_of_app in He as [He|He%list_elem_of_singleton].
      * left. exists e. simpl. rewrite insert_by_perm. split; [by right|done].
      * subst e. by right.
    + right. split; [done|]. intros e He. eapply rank_le_trans; [by apply Hle|].
      apply Hk. rewrite Hl. apply elem_of_app. right. by left.
Qed.

Lemma push_accounts b key value : wf_batch b → (0 < rb_limit b)%Z → accounted (push b key value) key.
Proof.
  intros Hb Hpos. apply push_cases; [done|lia| | |].
  - intros seen _. left. eexists. simpl. rewrite insert_by_perm. split; [by left|done].
  - intros seen l worst _ _ _. left. eexists. simpl. rewrite insert_by_perm. split; [by left|done].
  - intros seen worst Hw Hfull Hnlt. right. split; [by apply is_full_true|]. intros e He.
    eapply rank_le_trans; [by eapply last_worst|]. simpl.
    unfold entry_cmp_at in Hnlt. simpl in Hnlt. intros Hgt. apply Hnlt.
    rewrite (cmp_opp (λ x y, rank x y (rb_order b) (rb_direction b)) (e_key worst) key), Hgt. done.
Qed.

Lemma unadmitted_accounted b key :
  wf_batch b → admits b key = false → accounted b key.
Proof.
  unfold admits. intros Hb Ha. right. pose proof Hb as (_ & _ & Hl).
  destruct (Z.eqb_spec (rb_limit b) 0) as [Hz|Hz].
  - pose proof (len_nonneg (rb_entries b)). split; [apply is_full_true; [done|lia]|].
    assert (rb_entries b = []) as ->; [|by intros ? ?%not_elem_of_nil].
    apply nil_length_inv. unfold len in *. lia.
  - destruct (is_full b); [|done]. split; [done|]. simpl in Ha. intros e He.
    destruct (last (rb_entries b)) as [worst|] eqn:Hw; [|done].
    eapply rank_le_trans; [by eapply last_worst|].
    rewrite (cmp_opp (λ x y, rank x y (rb_order b) (rb_direction b)) key (e_key worst)).
    by destruct (rank key (e_key worst) _ _).
Qed.
End offered.

#[export] Hint Resolve wf_batch_new push_wf push_keeps unadmitted_accounted : klens.

(** ** Properties *)

(** A batch ends with exactly the best [limit] of everything pushed into it, in
    page order: the same page a stable sort of all of it, cut to the limit, gives. *)
Theorem batch_refines_sort {T} limit order direction (items : list (SortKey * T)) :
  (0 ≤ limit)%Z → (len items ≤ usize_max)%Z →
  into_sorted (push_all (batch_new limit order direction) items) =
  (take (Z.to_nat limit) (sort_by (λ x y, rank x.1 y.1 order direction) items)).*2.
Proof.
  intros Hl Hlen.
  destruct (push_all_holds (batch_new (T := T) limit order direction) [] items) as [Hh (El & Eo & Ed)];
    [done|by rewrite len_nil|apply holds_new|].
  rewrite (into_sorted_holds _ _ Hh), El, Eo, Ed. done.
Qed.

(** [admits] is exact: a record it turns away would leave the batch unchanged
    if pushed, and one it lets through is in the batch after the push. *)
Theorem admits_exact {T} limit order direction (items : list (SortKey * T)) key value :
  (0 ≤ limit)%Z → (len items ≤ usize_max)%Z →
  let b := push_all (batch_new limit order direction) items in
  if admits b key
  then ∃ e, e ∈ rb_entries (push b key value) ∧ e_key e = key ∧ e_value e = value
  else into_sorted (push b key value) = into_sorted b.
Proof.
  intros Hl Hlen b.
  destruct (push_all_holds (batch_new (T := T) limit order direction) [] items) as [Hh (El & _ & _)];
    [done|by rewrite len_nil|apply holds_new|].
  fold b in Hh, El. simpl in El. destruct (admits b key) eqn:Ha.
  - destruct (push_admitted b key value Ha) as [Hin|[_ Hneg]]; [by eexists|lia].
  - unfold into_sorted. by rewrite (push_unadmitted b items) by (done || lia).
Qed.

(** ** Witnesses *)

Definition sample_items : list (SortKey * string) :=
  [({| sk_timestamp := 5; sk_partition := 0; sk_offset := 1 |}, "a");
   ({| sk_timestamp := 9; sk_partition := 0; sk_offset := 2 |}, "b");
   ({| sk_timestamp := 7; sk_partition := 1; sk_offset := 4 |}, "c")]%Z.

Lemma batch_refines_sort_witness :
  into_sorted (push_all (batch_new 2 Newest Forward) sample_items) = ["b"; "c"].
Proof. by rewrite (batch_refines_sort 2 Newest Forward sample_items). Defined.

Lemma admits_exact_witness :
  into_sorted (push (push_all (batch_new 2 Newest Forward) sample_items)
    {| sk_timestamp := 6; sk_partition := 0; sk_offset := 3 |} "d") = ["b"; "c"].
Proof.
  apply (admits_exact 2 Newest Forward sample_items
    {| sk_timestamp := 6; sk_partition := 0; sk_offset := 3 |} "d"); done.
Defined.
