(* ===== verification/Payload.v ===== *)
(** [src/kafka/scan/payload.rs]: a key or value as it is decoded, edited, masked
    and rendered. The wire prefix ([schemreg]) and the JSON printer ([serde_json])
    are other crates' code: parameters of the model. *)

From S2P Require Import Prelude Text Utf8.

(** ** JSON values *)

(** [serde_json::Value]; an object lists its entries in key order, and a number
    is the text it prints as. *)
Inductive json : Type :=
  | JNull
  | JBool (b : bool)
  | JNumber (text : string)
  | JString (text : string)
  | JArray (items : list json)
  | JObject (fields : list (string * json)).

(** Induction that reaches the values inside arrays and objects. *)
Lemma json_nested_ind (P : json → Prop) :
  P JNull → (∀ b, P (JBool b)) → (∀ t, P (JNumber t)) → (∀ t, P (JString t)) →
  (∀ items, Forall P items → P (JArray items)) →
  (∀ fields, Forall (λ kv, P kv.2) fields → P (JObject fields)) →
  ∀ j, P j.
Proof.
  intros Hn Hb Hnum Hs Ha Ho. fix IH 1. intros [| | | |items|fields].
  - done.
  - apply Hb.
  - apply Hnum.
  - apply Hs.
  - apply Ha. induction items as [|i items IHi]; constructor; [apply IH|apply IHi].
  - apply Ho. induction fields as [|[k v] fields IHf]; constructor; [apply IH|apply IHf].
Qed.

(** [schemreg::SchemaKey]: a schema's numeric id, a [u32], or its GUID. *)
Inductive SchemaKey : Set := KeyId (id : Z) | KeyGuid (guid : string).

#[export] Instance SchemaKey_eq_dec : EqDecision SchemaKey.
Proof. solve_decision. Defined.

#[export] Instance SchemaKey_countable : Countable SchemaKey.
Proof.
  refine (inj_countable' (λ k, match k with KeyId i => inl i | KeyGuid g => inr g end)
    (λ x, match x with inl i => KeyId i | inr g => KeyGuid g end) _). by intros [].
Defined.

(** [SchemaKey::as_id]. *)
Definition as_id (key : SchemaKey) : option Z := match key with KeyId id => Some id | KeyGuid _ => None end.

(** The functions of [schemreg] and [serde_json] the component calls. *)
Class PayloadLib : Type := {
  (** [decode_wire_prefix]: the schema key of a framed payload, and where its body starts. *)
  decode_wire_prefix : string → option (SchemaKey * nat);
  (** [serde_json::to_string]. *)
  json_to_string : json → option string;
  (** [Value]'s [Display]. *)
  json_display : json → string;
}.

Section payload.
Context `{!PayloadLib}.

Record DecodedPayload : Type := {
  dp_raw : string;
  dp_wire_schema_id : option Z;
  dp_json : option json;
  (** The [OnceCell]: the rendered text, once asked for. *)
  dp_text : option string;
}.

(** [i32::try_from(SchemaId::as_u32(key.as_id()?)).ok()]. *)
Definition framed_schema_id (bytes : string) : option Z :=
  '(key, _) ← decode_wire_prefix bytes;
  id ← as_id key;
  if (id <=? i32_max)%Z then Some id else None.

Definition needs_decode (bytes : string) (fallback_schema_id : option Z) : bool :=
  bool_decide (is_Some (decode_wire_prefix bytes)) || bool_decide (is_Some fallback_schema_id).

Definition render_raw (bytes : string) : string := from_utf8_lossy bytes.

Definition payload_raw (raw : string) : DecodedPayload :=
  {| dp_raw := raw; dp_wire_schema_id := framed_schema_id raw; dp_json := None; dp_text := None |}.

Definition payload_decoded (raw : string) (j : json) : DecodedPayload :=
  {| dp_raw := raw; dp_wire_schema_id := framed_schema_id raw; dp_json := Some j; dp_text := None |}.

(** Edits the tree and drops text rendered from the old one; [None] without a tree. *)
Definition edit_json (p : DecodedPayload) (edit : json → json) : option DecodedPayload :=
  j ← dp_json p;
  Some {| dp_raw := dp_raw p; dp_wire_schema_id := dp_wire_schema_id p;
          dp_json := Some (edit j); dp_text := None |}.

Definition redact_with (p : DecodedPayload) (text : string) : DecodedPayload :=
  {| dp_raw := EmptyString; dp_wire_schema_id := dp_wire_schema_id p;
     dp_json := None; dp_text := Some text |}.

Definition render (p : DecodedPayload) : string :=
  match dp_json p with
  | Some j => default (render_raw (dp_raw p)) (json_to_string j)
  | None => render_raw (dp_raw p)
  end.

(** The text, and the payload with its cell filled. *)
Definition text (p : DecodedPayload) : string * DecodedPayload :=
  match dp_text p with
  | Some t => (t, p)
  | None =>
      let t := render p in
      (t, {| dp_raw := dp_raw p; dp_wire_schema_id := dp_wire_schema_id p;
             dp_json := dp_json p; dp_text := Some t |})
  end.

Definition is_verbatim (p : DecodedPayload) : bool :=
  match dp_json p with
  | Some _ => false
  | None =>
      utf8_valid (dp_raw p) &&
      match dp_text p with
      | None => true
      | Some t => String.eqb t (dp_raw p)
      end
  end.

Definition drop_tree_if_rendered (p : DecodedPayload) : DecodedPayload :=
  match dp_text p with
  | Some _ => {| dp_raw := dp_raw p; dp_wire_schema_id := dp_wire_schema_id p;
                 dp_json := None; dp_text := dp_text p |}
  | None => p
  end.

Definition into_text (p : DecodedPayload) : string :=
  match dp_text p with Some t => t | None => render p end.

Record PayloadSlot : Type := {
  slot_raw : string;
  slot_fallback_schema_id : option Z;
  slot_json : option json;
}.

Definition slot_new (raw : string) (fallback_schema_id : option Z) : PayloadSlot :=
  {| slot_raw := raw; slot_fallback_schema_id := fallback_schema_id; slot_json := None |}.

Definition slot_take (s : PayloadSlot) : DecodedPayload :=
  match slot_json s with
  | Some j => payload_decoded (slot_raw s) j
  | None => payload_raw (slot_raw s)
  end.

(** *** Lemmas *)

Lemma text_into_text p : (text p).1 = into_text p.
Proof. unfold text, into_text. by destruct (dp_text p). Qed.

Lemma into_text_text p : into_text (text p).2 = into_text p.
Proof. unfold text, into_text. destruct (dp_text p) eqn:E; simpl; by rewrite ?E. Qed.

Lemma into_text_redact p t : into_text (redact_with p t) = t.
Proof. done. Qed.

Lemma into_text_drop p : into_text (drop_tree_if_rendered p) = into_text p.
Proof. unfold drop_tree_if_rendered, into_text. by destruct (dp_text p) eqn:E; simpl; rewrite ?E. Qed.

Lemma wire_schema_id_text p : dp_wire_schema_id (text p).2 = dp_wire_schema_id p.
Proof. unfold text. by destruct (dp_text p). Qed.

Lemma wire_schema_id_drop p : dp_wire_schema_id (drop_tree_if_rendered p) = dp_wire_schema_id p.
Proof. unfold drop_tree_if_rendered. by destruct (dp_text p). Qed.

Lemma dp_raw_text p : dp_raw (text p).2 = dp_raw p.
Proof. unfold text. by destruct (dp_text p). Qed.

Lemma dp_raw_drop p : dp_raw (drop_tree_if_rendered p) = dp_raw p.
Proof. unfold drop_tree_if_rendered. by destruct (dp_text p). Qed.

Lemma dp_raw_take s : dp_raw (slot_take s) = slot_raw s.
Proof. unfold slot_take. by destruct (slot_json s). Qed.

(** A payload that claims to be verbatim renders to its own bytes. *)
Lemma is_verbatim_text p : is_verbatim p = true → into_text p = dp_raw p.
Proof.
  unfold is_verbatim, into_text, render, render_raw.
  destruct (dp_json p); [done|]. intros [Hv Ht]%andb_true_iff.
  destruct (dp_text p) as [t|]; [by apply String.eqb_eq in Ht|].
  by apply from_utf8_lossy_valid.
Qed.

(** A cell only ever holds the text its payload renders to. *)
Definition text_consistent (p : DecodedPayload) : Prop :=
  match dp_text p with Some t => t = render p | None => True end.

Lemma text_consistent_text p : text_consistent p → text_consistent (text p).2.
Proof. unfold text, text_consistent. by destruct (dp_text p) eqn:E; simpl; rewrite ?E. Qed.
End payload.

#[export] Hint Rewrite @text_into_text @into_text_text @into_text_redact @into_text_drop
  @wire_schema_id_text @wire_schema_id_drop @dp_raw_text @dp_raw_drop @dp_raw_take : klens.

(** A concrete instance for the examples: a zero byte frames a payload whose second
    byte is the schema id, and every tree prints as its first text. *)
Definition sample_payload_lib : PayloadLib :=
  {| decode_wire_prefix s :=
       match s with
       | String a (String b _) =>
           if Ascii.eqb a Ascii.zero then Some (KeyId (Z.of_N (Ascii.N_of_ascii b)), 2) else None
       | _ => None
       end;
     json_to_string j := match j with JString t => Some t | _ => Some "{}" end;
     json_display j := match j with JString t => t | _ => "{}" end |}.
