(* ===== verification/Filter.v ===== *)
(** [src/kafka/scan/filter.rs]: the compiled search filter. The Aho-Corasick
    automaton is another crate's: a parameter that builds a byte matcher. *)

From S2P Require Import Prelude Text Utf8 Errors Payload.

(** [AhoCorasick::builder().ascii_case_insensitive(true).build([needle])], and the
    automaton's [is_match]; [None] when the needle is too long to build. *)
Class FilterLib : Type := { aho_build : string → option (string → bool) }.

(** Some occurrence of [needle] in [s], letter case aside. *)
Fixpoint contains_ignoring_case (needle s : string) : bool :=
  starts_with (map_chars to_lower needle) (map_chars to_lower s) ||
  match s with EmptyString => false | String _ r => contains_ignoring_case needle r end.

Record RawField : Set := { rf_bytes : string; rf_framed : bool }.

Inductive Verdict : Set := Pass | Fail_ | NeedsPayload.

#[export] Instance Verdict_eq_dec : EqDecision Verdict.
Proof. solve_decision. Defined.

Section filter.
Context `{!PayloadLib, !FilterLib}.

Record CompiledFilter : Type := { needle : string; matcher : string → bool }.

(** [PartialEq]: filters are equal when their needles are. *)
Definition filter_eqb (a b : CompiledFilter) : bool := String.eqb (needle a) (needle b).

Definition contains (needle : string) : result QueryError (option CompiledFilter) :=
  let trimmed := trim needle in
  if is_empty trimmed then Ok None
  else
    matcher ← ok_or (aho_build trimmed) FilterTooLong;
    Ok (Some {| needle := trimmed; matcher := matcher |}).

Definition matches_bytes (f : CompiledFilter) (bytes : string) : bool := matcher f bytes.

(** The loop over the present fields, from [pending]. *)
Fixpoint on_fields (f : CompiledFilter) (fields : list RawField) (pending : bool) : Verdict :=
  match fields with
  | [] => if pending then NeedsPayload else Fail_
  | field :: fields =>
      if rf_framed field then on_fields f fields true
      else if matches_bytes f (rf_bytes field) then Pass
      else on_fields f fields pending
  end.

Definition on_raw (f : CompiledFilter) (key value : option RawField) : Verdict :=
  on_fields f (omap id [key; value]) false.

(** Stops at the first match, so a matching key leaves the value unrendered. *)
Definition on_payload (f : CompiledFilter) (key value : option DecodedPayload)
    : bool * option DecodedPayload * option DecodedPayload :=
  let '(matched, key) :=
    match key with
    | Some p => let '(t, p) := text p in (matches_bytes f t, Some p)
    | None => (false, None)
    end in
  if matched then (true, key, value)
  else
    match value with
    | Some p => let '(t, p) := text p in (matches_bytes f t, key, Some p)
    | None => (false, key, None)
    end.

(** *** Lemmas *)

Lemma on_fields_spec f fields pending :
  on_fields f fields pending =
  if existsb (λ field, negb (rf_framed field) && matches_bytes f (rf_bytes field)) fields then Pass
  else if pending || existsb rf_framed fields then NeedsPayload else Fail_.
Proof.
  revert pending. induction fields as [|field fields IH]; intros pending; simpl.
  { by rewrite orb_false_r. }
  destruct (rf_framed field); simpl; [by rewrite IH, orb_true_r|].
  destruct (matches_bytes f (rf_bytes field)); simpl; [done|]. by rewrite IH.
Qed.

(** What the filter says of the text a record will show. *)
Definition matches_text (f : CompiledFilter) (p : option DecodedPayload) : bool :=
  match p with Some p => matches_bytes f (into_text p) | None => false end.

Lemma on_payload_verdict f key value :
  (on_payload f key value).1.1 = matches_text f key || matches_text f value.
Proof.
  unfold on_payload, matches_text. destruct key as [k|].
  - rewrite <- (text_into_text k). destruct (text k) as [t k']; simpl.
    destruct (matches_bytes f t); [done|]. destruct value as [v|]; [|done].
    rewrite <- (text_into_text v). by destruct (text v).
  - destruct value as [v|]; [|done]. rewrite <- (text_into_text v). by destruct (text v).
Qed.

(** Filling the cells changes nothing a reader of the payloads can see. *)
Definition touched (p q : option DecodedPayload) : Prop :=
  match p, q with
  | Some p, Some q => q = p ∨ q = (text p).2
  | None, None => True
  | _, _ => False
  end.

Lemma on_payload_touched f key value :
  touched key (on_payload f key value).1.2 ∧ touched value (on_payload f key value).2.
Proof.
  unfold on_payload, touched. destruct key as [k|]; simpl.
  - rewrite (surjective_pairing (text k)). destruct (matches_bytes f (text k).1); simpl.
    { split; [by right|]. destruct value; [by left|done]. }
    destruct value as [v|]; simpl; [|split; [by right|done]].
    rewrite (surjective_pairing (text v)). simpl. split; by right.
  - destruct value as [v|]; simpl; [|done].
    rewrite (surjective_pairing (text v)). simpl. split; [done|by right].
Qed.
End filter.

#[export] Hint Resolve @on_payload_touched : klens.

(** What the automaton's documentation promises, as an instance. *)
Definition sample_filter_lib : FilterLib :=
  {| aho_build needle := Some (contains_ignoring_case needle) |}.
