(* ===== verification/Query.v ===== *)
(** [src/kafka/scan/query.rs], [src/kafka/limits.rs] and the [RecordLimits] of
    [src/config/tuning.rs]: what a read asks for and the limits it is held to.
    [jiff]'s [Timestamp] is a parameter. *)

From S2P Require Import Prelude Text Errors Metadata Cursor Plan Payload Filter.

Class TimestampLib : Type := {
  Timestamp : Type;
  (** Its [Ord]. *)
  timestamp_cmp : Timestamp → Timestamp → comparison;
  as_millisecond : Timestamp → Z;
}.

(** ** Limits *)

Record RecordLimits : Set := {
  max_limit : Z;
  min_window : Z;
  window_multiplier : Z;
  search_window_multiplier : Z;
}.

(** [RecordLimits::default]. *)
Definition RecordLimits_default : RecordLimits :=
  {| max_limit := 500; min_window := 4; window_multiplier := 2; search_window_multiplier := 8 |}.

Definition clamp_limit (limits : RecordLimits) (limit : Z) : result QueryError Z :=
  if (limit <? 1)%Z then Err LimitTooSmall else Ok (Z.min limit (max_limit limits)).

Definition window_take (limits : RecordLimits) (limit : Z) (searching : bool) : Z :=
  let multiplier :=
    if searching then search_window_multiplier limits else window_multiplier limits in
  usize_as_i64 (Z.max (usize_saturating_mul limit multiplier) (min_window limits)).

Section query.
Context `{!TimestampLib, !FilterLib, !PayloadLib}.

Record TimestampRange : Type := { tr_from : option Timestamp; tr_to : option Timestamp }.

Definition UNBOUNDED : TimestampRange := {| tr_from := None; tr_to := None |}.

Definition timestamp_range (from to : option Timestamp) : result QueryError TimestampRange :=
  match from, to with
  | Some f, Some t =>
      match timestamp_cmp f t with
      | Gt => Err InvertedTimestampRange
      | _ => Ok {| tr_from := from; tr_to := to |}
      end
  | _, _ => Ok {| tr_from := from; tr_to := to |}
  end.

Definition start_seek (r : TimestampRange) : option Z := as_millisecond <$> tr_from r.

Definition end_seek (r : TimestampRange) : option Z :=
  (λ to, i64_saturating_add (as_millisecond to) 1) <$> tr_to r.

Record RecordQuery : Type := {
  rq_topic : string;
  rq_partitions : list Z;
  rq_filter : option CompiledFilter;
  rq_timestamps : TimestampRange;
  rq_limit : Z;
  rq_order : RecordOrder;
  rq_cursor : option RecordCursor;
  rq_schema_id : option Z;
}.

Definition query_walk (q : RecordQuery) : RecordOrder :=
  match rq_cursor q with Some c => walk c | None => rq_order q end.

Definition query_direction (q : RecordQuery) : CursorDirection :=
  match rq_cursor q with Some c => direction c | None => Forward end.

Definition searching (q : RecordQuery) : bool := bool_decide (is_Some (rq_filter q)).

Record RecordAt : Set := {
  ra_topic : string;
  ra_partition : Z;
  ra_offset : Z;
  ra_schema_id : option Z;
}.

Definition record_at_query (at_ : RecordAt) : RecordQuery :=
  {| rq_topic := ra_topic at_; rq_partitions := [ra_partition at_]; rq_filter := None;
     rq_timestamps := UNBOUNDED; rq_limit := 1; rq_order := Oldest;
     rq_cursor := Some (cursor_at Oldest (ra_partition at_) (ra_offset at_));
     rq_schema_id := ra_schema_id at_ |}.

(** A query is consistent when its cursor was made for its order, which
    [validate_for] checks of every cursor a client sends. *)
Definition query_consistent (q : RecordQuery) : Prop :=
  match rq_cursor q with Some c => order c = rq_order q | None => True end.

Lemma query_direction_walk q :
  query_consistent q →
  query_walk q = match query_direction q with
                 | Forward => rq_order q | Backward => flipped (rq_order q) end.
Proof.
  unfold query_consistent, query_walk, query_direction, direction.
  destruct (rq_cursor q) as [c|]; [|done]. intros <-.
  case_decide as Hw; [done|]. by destruct (walk c), (order c).
Qed.

Lemma query_walk_cursor q c : rq_cursor q = Some c → walk c = query_walk q.
Proof. unfold query_walk. by intros ->. Qed.
End query.

(** ** Helper lemmas *)

(** The limits the type and the configuration allow. *)
Definition wf_limits (l : RecordLimits) : Prop :=
  (0 < max_limit l ≤ usize_max ∧ 0 ≤ min_window l ≤ usize_max ∧
   0 ≤ window_multiplier l ≤ usize_max ∧ 0 ≤ search_window_multiplier l ≤ usize_max)%Z.

Definition multiplier (l : RecordLimits) (s : bool) : Z :=
  if s then search_window_multiplier l else window_multiplier l.

Lemma window_take_exact l limit s :
  wf_limits l → (1 ≤ limit)%Z →
  (Z.max (limit * multiplier l s) (min_window l) ≤ i64_max)%Z →
  window_take l limit s = Z.max (limit * multiplier l s) (min_window l).
Proof.
  unfold wf_limits, window_take, multiplier, usize_saturating_mul, usize_as_i64. unfold_ints.
  intros (H1 & H2 & H3 & H4) Hl Hm.
  assert (0 ≤ limit * if s then search_window_multiplier l else window_multiplier l)%Z
    by by destruct s; nia.
  rewrite Z.min_r by lia. apply wrap_i64_id. unfold_ints. lia.
Qed.

Lemma clamp_limit_ok l limit n :
  wf_limits l → clamp_limit l limit = Ok n → (1 ≤ n ≤ max_limit l)%Z ∧ (n ≤ limit)%Z.
Proof.
  unfold clamp_limit, wf_limits. destruct (Z.ltb_spec limit 1); [done|].
  intros Hw [= <-]. lia.
Qed.

(** ** Properties *)

(** A page's limit is the client's, at least one and at most the configured
    maximum, or the request is refused; and its windows are as wide as the
    configured multiple of it, never narrower than the configured minimum, as long
    as that width fits an [i64]. *)
Theorem limits_spec l limit s :
  wf_limits l → in_i32 limit →
  match clamp_limit l limit with
  | Ok n => (1 ≤ n ≤ max_limit l)%Z ∧ (n ≤ limit)%Z ∧
      ((Z.max (n * multiplier l s) (min_window l) ≤ i64_max)%Z →
       window_take l n s = Z.max (n * multiplier l s) (min_window l))
  | Err e => e = LimitTooSmall ∧ (limit < 1)%Z
  end.
Proof.
  intros Hw Hl. destruct (clamp_limit l limit) as [n|e] eqn:E.
  - destruct (clamp_limit_ok l limit n Hw E). split; [done|]. split; [done|].
    intros Hm. apply window_take_exact; [done|lia|done].
  - unfold clamp_limit in E. destruct (Z.ltb_spec limit 1); [|done]. by injection E as <-.
Qed.

Lemma limits_spec_witness :
  clamp_limit RecordLimits_default 1000 = Ok 500%Z ∧
  window_take RecordLimits_default 500 true = 4000%Z.
Proof.
  split; [reflexivity|].
  by apply (limits_spec RecordLimits_default 500 true).
Defined.

(** Timestamps as milliseconds, for the examples. *)
Definition sample_timestamp_lib : TimestampLib :=
  {| Timestamp := Z; timestamp_cmp := Z.compare; as_millisecond t := t |}.
