(* ===== verification/Obfuscate.v ===== *)
(** [src/config/obfuscation.rs] and [src/kafka/scan/obfuscate.rs]: the masking
    rules, the check that no topic has two, the compiled policy and what it does
    to headers, keys and values. [regex] and [hmac] are parameters. *)

From Stdlib Require Import Ascii.
From S2P Require Import Prelude Text Utf8 Payload.

Class RedactLib : Type := {
  Regex : Type;
  (** [Regex::replace_all] with a closure over each match; [None] stands for
      [Cow::Borrowed], which it returns when nothing matched. *)
  replace_all : Regex → string → (string → string) → option string;
  (** The 32-byte [Hmac<Sha256>] tag of a key and a message. *)
  hmac_sha256 : string → string → string;
}.

(** ** Configuration *)

Inductive Strategy : Set := Mask | Hash | Drop_.
Inductive Unparsed : Set := UnparsedMask | Allow.
Inductive TopicPattern : Set := Exact (name : string) | Prefix (prefix : string).

#[export] Instance Unparsed_eq_dec : EqDecision Unparsed.
Proof. solve_decision. Defined.
#[export] Instance TopicPattern_eq_dec : EqDecision TopicPattern.
Proof. solve_decision. Defined.

Definition overlaps (self other : TopicPattern) : bool :=
  match self, other with
  | Exact a, Exact b => String.eqb a b
  | Exact name, Prefix prefix | Prefix prefix, Exact name => starts_with prefix name
  | Prefix a, Prefix b => starts_with b a || starts_with a b
  end.

Definition STAR_MESSAGE : string := "'*' may only end a topic pattern".

(** [str::strip_suffix] of one character. *)
Fixpoint strip_suffix (c : ascii) (s : string) : option string :=
  match s with
  | EmptyString => None
  | String a EmptyString => if Ascii.eqb a c then Some EmptyString else None
  | String a r => String a <$> strip_suffix c r
  end.

Definition topic_pattern (pattern : string) : result string TopicPattern :=
  match strip_suffix "*" pattern with
  | Some prefix => if contains_char "*" prefix then Err STAR_MESSAGE else Ok (Prefix prefix)
  | None => if contains_char "*" pattern then Err STAR_MESSAGE else Ok (Exact pattern)
  end.

Section obfuscate.
Context `{!PayloadLib, !RedactLib}.

Record Rule : Type := {
  r_topics : list TopicPattern;
  r_fields : list (string * Strategy);
  r_patterns : list (Regex * Strategy);
  r_key : option Strategy;
  r_value : option Strategy;
  r_headers : list string;
  r_unparsed : Unparsed;
}.

Record Obfuscation : Type := { ob_secret : string; ob_rules : list Rule }.

(** The loop of [disjoint]: each topic against those before it. *)
Fixpoint find_overlap (covered topics : list TopicPattern) : option (TopicPattern * TopicPattern) :=
  match topics with
  | [] => None
  | topic :: topics =>
      match find (λ other, overlaps other topic) covered with
      | Some other => Some (other, topic)
      | None => find_overlap (covered ++ [topic]) topics
      end
  end.

Definition disjoint_ (rules : list Rule) : result (TopicPattern * TopicPattern) (list Rule) :=
  match find_overlap [] (concat (r_topics <$> rules)) with
  | Some overlap => Err overlap
  | None => Ok rules
  end.

(** ** The compiled policy *)

Definition MASK : string := "***".
Definition TOKEN_PREFIX : string := "kx:".
Definition TOKEN_BYTES : nat := 8.

Definition hex_digit (n : N) : ascii :=
  ascii_of_N (if (n <? 10)%N then 48 + n else 87 + n).

(** [{byte:02x}] of the first [n] bytes. *)
Fixpoint hex_bytes (n : nat) (tag : string) : string :=
  match n, tag with
  | S n, String b tag =>
      String (hex_digit (N_of_ascii b / 16)) (String (hex_digit (N_of_ascii b mod 16))
        (hex_bytes n tag))
  | _, _ => EmptyString
  end.

(** [KeyedHasher]: the key it was made from. *)
Record KeyedHasher : Type := { mac_key : string }.

Definition token (h : KeyedHasher) (value : string) : string :=
  TOKEN_PREFIX +:+ hex_bytes TOKEN_BYTES (hmac_sha256 (mac_key h) value).

Inductive CompiledStrategy : Type :=
  | CMask | CHash (hasher : KeyedHasher) | CDrop.

Definition compile_strategy (h : KeyedHasher) (s : Strategy) : CompiledStrategy :=
  match s with Mask => CMask | Hash => CHash h | Drop_ => CDrop end.

Record TopicObfuscator : Type := {
  to_fields : list (list string * CompiledStrategy);
  to_patterns : list (Regex * CompiledStrategy);
  to_key : option CompiledStrategy;
  to_value : option CompiledStrategy;
  to_headers : list string;
  to_unparsed : Unparsed;
}.

Record ObfuscationPolicy : Type := {
  op_exact : gmap string TopicObfuscator;
  op_prefixes : list (string * TopicObfuscator);
}.

Definition compile_rule (h : KeyedHasher) (rule : Rule) : TopicObfuscator :=
  {| to_fields := (λ field, (split dot field.1, compile_strategy h field.2)) <$> r_fields rule;
     to_patterns := (λ pattern, (pattern.1, compile_strategy h pattern.2)) <$> r_patterns rule;
     to_key := compile_strategy h <$> r_key rule;
     to_value := compile_strategy h <$> r_value rule;
     to_headers := r_headers rule;
     to_unparsed := r_unparsed rule |}.

Definition add_topic (o : TopicObfuscator) (policy : ObfuscationPolicy) (topic : TopicPattern)
    : ObfuscationPolicy :=
  match topic with
  | Exact name =>
      {| op_exact := <[name := o]> (op_exact policy); op_prefixes := op_prefixes policy |}
  | Prefix prefix =>
      {| op_exact := op_exact policy; op_prefixes := op_prefixes policy ++ [(prefix, o)] |}
  end.

Definition compile (config : Obfuscation) : ObfuscationPolicy :=
  let hasher := {| mac_key := ob_secret config |} in
  foldl (λ policy rule, foldl (add_topic (compile_rule hasher rule)) policy (r_topics rule))
    {| op_exact := ∅; op_prefixes := [] |} (ob_rules config).

Definition for_topic (policy : ObfuscationPolicy) (topic : string) : option TopicObfuscator :=
  match op_exact policy !! topic with
  | Some o => Some o
  | None => snd <$> find (λ entry, starts_with entry.1 topic) (op_prefixes policy)
  end.

(** ** Masking *)

Definition hides_payload (o : TopicObfuscator) : bool :=
  bool_decide (to_fields o ≠ []) || bool_decide (to_patterns o ≠ []) ||
  bool_decide (is_Some (to_key o)) || bool_decide (is_Some (to_value o)).

Definition pattern_apply (p : Regex * CompiledStrategy) (text : string) : option string :=
  match p.2 with
  | CMask => replace_all p.1 text (λ _, MASK)
  | CDrop => replace_all p.1 text (λ _, EmptyString)
  | CHash h => replace_all p.1 text (token h)
  end.

(** [None] is [Cow::Borrowed]: no pattern matched. *)
Definition rewrite_text (o : TopicObfuscator) (text : string) : option string :=
  foldl (λ acc p, match pattern_apply p (default text acc) with
                  | Some rewritten => Some rewritten | None => acc end) None (to_patterns o).

Definition masks_header (o : TopicObfuscator) (name : string) : bool :=
  existsb (λ masked, eq_ignore_ascii_case masked name) (to_headers o).

Definition rewrite_header (o : TopicObfuscator) (value : string) : option string :=
  match to_patterns o with
  | [] => None
  | _ => rewrite_text o (from_utf8_lossy value)
  end.

Definition obfuscate_header (o : TopicObfuscator) (header : string * option string)
    : string * option string :=
  let '(name, value) := header in
  if masks_header o name then (name, Some MASK)
  else match value ≫= rewrite_header o with
       | Some rewritten => (name, Some rewritten)
       | None => (name, value)
       end.

Definition obfuscate_headers (o : TopicObfuscator) (headers : list (string * option string))
    : list (string * option string) :=
  match to_headers o, to_patterns o with
  | [], [] => headers
  | _, _ => obfuscate_header o <$> headers
  end.

Definition leaf_text (value : json) : string :=
  match value with JString text => text | other => json_display other end.

Definition hidden (s : CompiledStrategy) (found : json) : json :=
  match s with
  | CHash h => JString (token h (leaf_text found))
  | _ => JString MASK
  end.

Definition remove_key (key : string) (fields : list (string * json)) : list (string * json) :=
  filter (λ kv, kv.1 ≠ key) fields.

(** [get_mut] of one key, and an assignment through it. *)
Fixpoint update_key (key : string) (f : json → json) (fields : list (string * json))
    : list (string * json) :=
  match fields with
  | [] => []
  | (k, v) :: fields =>
      if String.eqb k key then (k, f v) :: fields else (k, v) :: update_key key f fields
  end.

Fixpoint walk (value : json) (path : list string) (s : CompiledStrategy) {struct value} : json :=
  match path with
  | [] => value
  | head :: rest =>
      match value with
      | JArray items => JArray (map (λ item, walk item path s) items)
      | JObject fields =>
          match rest with
          | [] =>
              match s with
              | CDrop => JObject (remove_key head fields)
              | _ => JObject (update_key head (hidden s) fields)
              end
          | _ =>
              JObject ((fix go (fields : list (string * json)) : list (string * json) :=
                match fields with
                | [] => []
                | (k, v) :: fields =>
                    if String.eqb k head then (k, walk v rest s) :: fields
                    else (k, v) :: go fields
                end) fields)
          end
      | _ => value
      end
  end.

Definition apply_fields (o : TopicObfuscator) (j : json) : json :=
  foldl (λ j rule, walk j rule.1 rule.2) j (to_fields o).

Inductive Field : Set := Key | Value_.

Definition masks_undecoded (o : TopicObfuscator) (field : Field) : bool :=
  match field with
  | Key => false
  | Value_ => bool_decide (to_fields o ≠ []) && bool_decide (to_unparsed o = UnparsedMask)
  end.

Definition rewrite_matches (o : TopicObfuscator) (p : DecodedPayload) : DecodedPayload :=
  match to_patterns o with
  | [] => p
  | _ =>
      let '(t, p) := text p in
      match rewrite_text o t with Some t => redact_with p t | None => p end
  end.

Definition whole (o : TopicObfuscator) (field : Field) : option CompiledStrategy :=
  match field with Key => to_key o | Value_ => to_value o end.

Definition apply (o : TopicObfuscator) (field : Field) (slot : option DecodedPayload)
    : option DecodedPayload :=
  match whole o field with
  | Some CDrop => None
  | whole =>
      payload ← slot;
      let payload :=
        match edit_json payload (apply_fields o) with
        | Some edited => edited
        | None => if masks_undecoded o field then redact_with payload MASK else payload
        end in
      match whole with
      | Some CMask => Some (redact_with payload MASK)
      | Some (CHash h) =>
          let '(t, payload) := text payload in Some (redact_with payload (token h t))
      | Some CDrop => Some payload
      | None => Some (rewrite_matches o payload)
      end
  end.
End obfuscate.

(** ** Which rule a topic gets *)

(** What a topic pattern promises: the names it covers. *)
Definition matches (p : TopicPattern) (topic : string) : bool :=
  match p with Exact name => String.eqb name topic | Prefix prefix => starts_with prefix topic end.

Lemma overlaps_spec a b :
  overlaps a b = true ↔ ∃ topic, matches a topic = true ∧ matches b topic = true.
Proof.
  unfold matches, overlaps. destruct a as [x|x], b as [y|y].
  - rewrite String.eqb_eq. split; [intros ->; exists y; by rewrite String.eqb_refl|].
    by intros (t & ->%String.eqb_eq & ->%String.eqb_eq).
  - split; [intros H; exists x; by rewrite String.eqb_refl|]. by intros (t & ->%String.eqb_eq & H).
  - split; [intros H; exists y; by rewrite String.eqb_refl|]. by intros (t & H & ->%String.eqb_eq).
  - rewrite orb_true_iff. split.
    + intros [H|H]; [exists x|exists y]; by rewrite H, starts_with_refl.
    + intros (t & H1 & H2). apply (starts_with_chain x y t) in H1; [|done]. tauto.
Qed.

(** No topic is matched by two of the listed patterns. *)
Definition pairwise_disjoint (topics : list TopicPattern) : Prop :=
  ∀ i j a b topic, topics !! i = Some a → topics !! j = Some b →
    matches a topic = true → matches b topic = true → i = j.

Lemma find_overlap_none covered topics :
  find_overlap covered topics = None ↔
  (∀ i j a b, covered !! i = Some a → topics !! j = Some b → overlaps a b = false) ∧
  (∀ i j a b, topics !! i = Some a → topics !! j = Some b → i < j → overlaps a b = false).
Proof.
  revert covered. induction topics as [|topic topics IH]; intros covered; simpl.
  { split; [|done]. intros _. split; intros i j a b; by rewrite ?lookup_nil. }
  destruct (find _ covered) as [other|] eqn:Hfind.
  - apply find_some in Hfind as [Hin Ho]. split; [done|]. intros [H _].
    apply list_elem_of_In, list_elem_of_lookup in Hin as [i Hi].
    specialize (H i 0 other topic Hi eq_refl). congruence.
  - pose proof (find_none _ _ Hfind) as Hnone. rewrite IH. split.
    + intros [H1 H2]. split.
      * intros i [|j] a b Ha Hb; simpl in Hb.
        -- injection Hb as <-. apply Hnone. apply list_elem_of_In. by eapply list_elem_of_lookup_2.
        -- eapply (H1 i); [|done]. by apply lookup_app_l_Some.
      * intros [|i] [|j] a b Ha Hb Hij; simpl in Ha, Hb; try lia.
        -- injection Ha as <-. apply (H1 (length covered) j topic b); [|done].
           by apply list_lookup_middle.
        -- apply (H2 i j); [done..|lia].
    + intros [H1 H2]. split.
      * intros i j a b Ha Hb. apply lookup_app_Some in Ha as [Ha|[Hge Ha]].
        -- by apply (H1 i (S j)).
        -- apply list_lookup_singleton_Some in Ha as [Hi <-]. apply (H2 0 (S j)); [done..|lia].
      * intros i j a b Ha Hb Hij. apply (H2 (S i) (S j)); [done..|lia].
Qed.

Lemma find_overlap_disjoint topics :
  find_overlap [] topics = None ↔ pairwise_disjoint topics.
Proof.
  rewrite find_overlap_none. split.
  - intros [_ H] i j a b topic Ha Hb Ma Mb.
    assert (∀ i j a b, topics !! i = Some a → topics !! j = Some b → i < j →
      matches a topic = true → matches b topic = true → False) as Hlt.
    { intros i' j' a' b' Ha' Hb' Hij Ma' Mb'. specialize (H i' j' a' b' Ha' Hb' Hij).
      assert (overlaps a' b' = true) by (apply overlaps_spec; by exists topic). congruence. }
    destruct (lt_eq_lt_dec i j) as [[Hij|Hij]|Hij]; [by destruct (Hlt i j a b)|done|by destruct (Hlt j i b a)].
  - intros H. split; [intros i j a b Ha; by rewrite lookup_nil in Ha|].
    intros i j a b Ha Hb Hij. apply not_true_iff_false. intros (t & Ma & Mb)%overlaps_spec.
    specialize (H i j a b t Ha Hb Ma Mb). lia.
Qed.

Section policy.
Context `{!PayloadLib, !RedactLib}.

(** Every pattern of the configuration with the masking of its rule. *)
Definition assignments (h : KeyedHasher) (rules : list Rule)
    : list (TopicPattern * TopicObfuscator) :=
  concat ((λ rule, (λ t, (t, compile_rule h rule)) <$> r_topics rule) <$> rules).

Definition exact_of (a : TopicPattern * TopicObfuscator) : option (string * TopicObfuscator) :=
  match a.1 with Exact name => Some (name, a.2) | Prefix _ => None end.

Definition prefix_of (a : TopicPattern * TopicObfuscator) : option (string * TopicObfuscator) :=
  match a.1 with Exact _ => None | Prefix prefix => Some (prefix, a.2) end.

Lemma add_assignments l policy :
  foldl (λ policy a, add_topic a.2 policy a.1) policy l =
  {| op_exact := collect_into (op_exact policy) (omap exact_of l);
     op_prefixes := op_prefixes policy ++ omap prefix_of l |}.
Proof.
  revert policy. induction l as [|[t o] l IH]; intros policy; simpl.
  - rewrite app_nil_r. by destruct policy.
  - rewrite IH. destruct t; simpl; [done|]. by rewrite <- app_assoc.
Qed.

Lemma compile_assignments config :
  compile config = foldl (λ policy a, add_topic a.2 policy a.1)
    {| op_exact := ∅; op_prefixes := [] |}
    (assignments {| mac_key := ob_secret config |} (ob_rules config)).
Proof.
  unfold compile, assignments. generalize {| op_exact := (∅ : gmap string TopicObfuscator); op_prefixes := [] |}.
  induction (ob_rules config) as [|rule rules IH]; intros policy; [done|]. simpl.
  rewrite IH, foldl_app. f_equal. generalize (compile_rule {| mac_key := ob_secret config |} rule).
  intros o. revert policy. induction (r_topics rule) as [|t ts IHt]; intros policy; [done|].
  simpl. by rewrite IHt.
Qed.

Lemma assignments_patterns h rules :
  (assignments h rules).*1 = concat (r_topics <$> rules).
Proof.
  unfold assignments. induction rules as [|rule rules IH]; [done|]. csimpl.
  rewrite fmap_app, IH, <- list_fmap_compose. f_equal. apply list_fmap_id.
Qed.

Lemma elem_of_assignments h rules p o :
  (p, o) ∈ assignments h rules ↔ ∃ rule, rule ∈ rules ∧ p ∈ r_topics rule ∧ o = compile_rule h rule.
Proof.
  unfold assignments. rewrite elem_of_concat. split.
  - intros (l & Hl & (rule & -> & Hr)%list_elem_of_fmap).
    apply list_elem_of_fmap in Hl as (t & [= -> ->] & Ht). by exists rule.
  - intros (rule & Hr & Hp & ->). eexists. split; [|apply list_elem_of_fmap; by exists rule].
    apply list_elem_of_fmap. by exists p.
Qed.

Lemma for_topic_assigned l topic o :
  pairwise_disjoint l.*1 →
  for_topic (foldl (λ policy a, add_topic a.2 policy a.1) {| op_exact := ∅; op_prefixes := [] |} l)
    topic = Some o ↔
  ∃ p, (p, o) ∈ l ∧ matches p topic = true.
Proof.
  intros Hd. assert (∀ t p p' o o', (p, o) ∈ l → (p', o') ∈ l →
    matches p t = true → matches p' t = true → o = o') as Huniq.
  { intros t p p' o1 o2 [i Hi]%list_elem_of_lookup [j Hj]%list_elem_of_lookup Mp Mp'.
    assert (i = j) as <-; [|congruence].
    apply (Hd i j p p' t); [by rewrite list_lookup_fmap, Hi|by rewrite list_lookup_fmap, Hj|done..]. }
  rewrite add_assignments. unfold for_topic. simpl. fold (collect (omap exact_of l)).
  assert (functional_pairs (omap exact_of l)) as Hf.
  { intros k v v' ([[k1|] o1] & H1 & E1)%list_elem_of_omap ([[k2|] o2] & H2 & E2)%list_elem_of_omap;
      try done. injection E1 as -> ->. injection E2 as -> ->.
    apply (Huniq k (Exact k) (Exact k)); (done || apply String.eqb_refl). }
  assert (∀ v, collect (omap exact_of l) !! topic = Some v ↔ (Exact topic, v) ∈ l) as Hexact.
  { intros v. rewrite collect_lookup by done. rewrite list_elem_of_omap. split.
    - intros ([[k|] o1] & H1 & E1); [|done]. by injection E1 as -> ->.
    - intros Hin. by exists (Exact topic, v). }
  destruct (collect (omap exact_of l) !! topic) as [v|].
  - assert ((Exact topic, v) ∈ l) as Hin by by apply Hexact. split.
    + intros [= <-]. exists (Exact topic). split; [done|apply String.eqb_refl].
    + intros (p & Hp & Mp). f_equal. apply (Huniq topic (Exact topic) p); [done..|apply String.eqb_refl|done].
  - destruct (find _ _) as [[prefix v]|] eqn:Hfind; simpl.
    + apply find_some in Hfind as [Hin%list_elem_of_In Mp]. simpl in Mp.
      apply list_elem_of_omap in Hin as ([[k|k] o1] & H1 & E1); [done|]. injection E1 as -> ->.
      split; [intros [= <-]; by exists (Prefix prefix)|].
      intros (p & Hp & Mp'). f_equal. by apply (Huniq topic (Prefix prefix) p).
    + split; [done|]. intros ([k|k] & Hp & Mp); simpl in Mp.
      * apply String.eqb_eq in Mp as ->. by apply Hexact in Hp.
      * pose proof (find_none _ _ Hfind (k, o)) as Hn. simpl in Hn. rewrite Hn in Mp; [done|].
        apply list_elem_of_In, list_elem_of_omap. by exists (Prefix k, o).
Qed.

Lemma disjoint_ok rules rules' :
  disjoint_ rules = Ok rules' → rules' = rules ∧ pairwise_disjoint (concat (r_topics <$> rules)).
Proof.
  unfold disjoint_. destruct (find_overlap _ _) eqn:E; [done|]. intros [= <-].
  split; [done|]. by apply find_overlap_disjoint.
Qed.
End policy.

(** ** What masking a field does to a tree *)

Section paths.
Context `{!PayloadLib, !RedactLib}.

(** The values a dotted path names, through the arrays on the way. *)
Fixpoint at_path (path : list string) (value : json) {struct value} : list json :=
  match path with
  | [] => [value]
  | head :: rest =>
      match value with
      | JArray items => concat (map (λ item, at_path path item) items)
      | JObject fields =>
          (fix go (fields : list (string * json)) : list json :=
            match fields with
            | [] => []
            | (k, v) :: fields => if String.eqb k head then at_path rest v else go fields
            end) fields
      | _ => []
      end
  end.

(** What is left of a value a strategy hides. *)
Definition redacted (s : CompiledStrategy) (found : json) : option json :=
  match s with CDrop => None | _ => Some (hidden s found) end.

(** Neither path passes through the other. *)
Fixpoint diverge (p q : list string) : bool :=
  match p, q with
  | a :: p, b :: q => negb (String.eqb a b) || diverge p q
  | _, _ => false
  end.

Lemma omap_concat {A B} (f : A → option B) (ls : list (list A)) :
  omap f (concat ls) = concat (map (λ l, omap f l) ls).
Proof. induction ls as [|l ls IH]; [done|]. simpl. by rewrite omap_app, IH. Qed.

Lemma map_ext_Forall {A B} (f g : A → B) l : Forall (λ x, f x = g x) l → map f l = map g l.
Proof. induction 1 as [|x l Hx _ IH]; simpl; congruence. Qed.

(** *** Object entries *)

Fixpoint lookup_key (key : string) (fields : list (string * json)) : option json :=
  match fields with
  | [] => None
  | (k, v) :: fields => if String.eqb k key then Some v else lookup_key key fields
  end.

Lemma at_path_object head rest fields :
  at_path (head :: rest) (JObject fields) =
  match lookup_key head fields with Some v => at_path rest v | None => [] end.
Proof.
  cbn [at_path]. induction fields as [|[k v] fields IH]; [done|].
  cbn [lookup_key]. by destruct (String.eqb k head).
Qed.

Lemma walk_object head rest fields s :
  walk (JObject fields) (head :: rest) s =
  JObject (match rest, s with
           | [], CDrop => remove_key head fields
           | [], _ => update_key head (hidden s) fields
           | _, _ => update_key head (λ v, walk v rest s) fields
           end).
Proof.
  destruct rest as [|next rest]; [by destruct s|]. cbn [walk]. f_equal.
  induction fields as [|[k v] fields IH]; [done|]. cbn [update_key].
  destruct (String.eqb k head); [done|]. by rewrite IH.
Qed.

Lemma lookup_remove key head fields :
  lookup_key key (remove_key head fields) =
  if String.eqb key head then None else lookup_key key fields.
Proof.
  unfold remove_key. induction fields as [|[k v] fields IH]; [by destruct (String.eqb key head)|].
  rewrite filter_cons. case_decide as Hk; simpl in Hk; cbn [lookup_key].
  - rewrite IH. destruct (String.eqb_spec k key) as [->|]; [|done].
    by rewrite (proj2 (String.eqb_neq _ _)).
  - destruct (String.eqb_spec k head) as [->|]; [|done]. rewrite IH, (String.eqb_sym key head).
    by destruct (String.eqb head key).
Qed.

Lemma lookup_update key head f fields :
  lookup_key key (update_key head f fields) =
  if String.eqb key head then f <$> lookup_key key fields else lookup_key key fields.
Proof.
  induction fields as [|[k v] fields IH]; cbn [update_key lookup_key]; [by destruct (String.eqb key head)|].
  destruct (String.eqb_spec k head) as [->|Hk]; cbn [lookup_key].
  - rewrite (String.eqb_sym key head). by destruct (String.eqb head key).
  - rewrite IH. destruct (String.eqb_spec k key) as [->|]; [|done].
    by rewrite (proj2 (String.eqb_neq _ _)).
Qed.

Lemma at_path_nil v : at_path [] v = [v].
Proof. by destruct v. Qed.

Lemma lookup_key_elem key fields v : lookup_key key fields = Some v → ∃ k, (k, v) ∈ fields.
Proof.
  induction fields as [|[k w] fields IH]; cbn [lookup_key]; [done|].
  destruct (String.eqb k key); [intros [= ->]; exists k; by left|].
  intros H'. destruct (IH H') as [k' Hk']. exists k'. by right.
Qed.

Lemma Forall_lookup_key (P : json → Prop) key fields v :
  Forall (λ kv, P kv.2) fields → lookup_key key fields = Some v → P v.
Proof.
  intros HP Hv. apply lookup_key_elem in Hv as [k Hk].
  rewrite Forall_forall in HP. apply (HP _ Hk).
Qed.

(** Every value the path names is hidden, in place. *)
Lemma at_path_walk s path v :
  path ≠ [] → at_path path (walk v path s) = omap (redacted s) (at_path path v).
Proof.
  revert path. induction v as [| | | |items IH|fields IH] using json_nested_ind; intros path Hp;
    destruct path as [|head rest]; try done.
  - cbn [walk at_path]. rewrite omap_concat, !map_map. f_equal. apply map_ext_Forall.
    eapply Forall_impl; [exact IH|]. intros i Hi. by apply Hi.
  - rewrite walk_object, !at_path_object. destruct rest as [|next rest].
    + destruct s; rewrite ?lookup_update, ?lookup_remove, String.eqb_refl;
        destruct (lookup_key head fields); try done; cbn [fmap option_fmap option_map];
        by rewrite !at_path_nil.
    + rewrite lookup_update, String.eqb_refl. destruct (lookup_key head fields) as [v|] eqn:E; [|done].
      by apply (Forall_lookup_key (λ v, ∀ path, path ≠ [] →
        at_path path (walk v path s) = omap (redacted s) (at_path path v)) _ _ _ IH E).
Qed.

(** Values no rule's path leads through stay as they were. *)
Lemma at_path_frame s path q v :
  diverge path q = true → at_path q (walk v path s) = at_path q v.
Proof.
  revert path q. induction v as [| | | |items IH|fields IH] using json_nested_ind; intros path q Hd;
    destruct path as [|head rest]; destruct q as [|other q]; try done.
  - cbn [walk at_path]. rewrite map_map. f_equal. apply map_ext_Forall.
    eapply Forall_impl; [exact IH|]. intros i Hi. by apply Hi.
  - simpl in Hd. rewrite walk_object, !at_path_object.
    destruct (String.eqb_spec head other) as [->|Hne]; simpl in Hd.
    + destruct rest as [|next rest]; [done|]. rewrite lookup_update, String.eqb_refl.
      destruct (lookup_key other fields) as [v|] eqn:E; [|done].
      by apply (Forall_lookup_key (λ v, ∀ path q, diverge path q = true →
        at_path q (walk v path s) = at_path q v) _ _ _ IH E).
    + assert (String.eqb other head = false) as Hb by (by apply String.eqb_neq).
      destruct rest as [|next rest]; [destruct s|]; by rewrite ?lookup_update, ?lookup_remove, Hb.
Qed.

(** All rules at once, when none passes through another. *)
Lemma apply_fields_path o i path s j :
  to_fields o !! i = Some (path, s) → path ≠ [] →
  (∀ k path' s', to_fields o !! k = Some (path', s') → k ≠ i → diverge path' path = true) →
  at_path path (apply_fields o j) = omap (redacted s) (at_path path j).
Proof.
  unfold apply_fields. intros Hi Hp Hd. revert i j Hi Hd.
  induction (to_fields o) as [|[path1 s1] fields IH]; intros i j Hi Hd; [done|]. simpl.
  destruct i as [|i]; simpl in Hi.
  - injection Hi as -> ->. clear IH.
    assert (∀ j, at_path path (foldl (λ j rule, walk j rule.1 rule.2) j fields) = at_path path j) as ->.
    { assert (∀ path' s', (path', s') ∈ fields → diverge path' path = true) as Hall.
      { intros path' s' [k Hk]%list_elem_of_lookup. apply (Hd (S k) path' s'); [done|lia]. }
      clear Hd. induction fields as [|[p' s'] fields IH]; intros j'; [done|]. simpl. rewrite IH.
      - apply at_path_frame. apply (Hall p' s'). by left.
      - intros p2 s2 Hin. apply (Hall p2 s2). by right. }
    by apply at_path_walk.
  - rewrite (IH i _ Hi).
    + f_equal. apply at_path_frame. by apply (Hd 0 path1 s1).
    + intros k path' s' Hk Hne. apply (Hd (S k) path' s'); [done|lia].
Qed.

Lemma at_path_frame_all o q j :
  Forall (λ rule, diverge rule.1 q = true) (to_fields o) →
  at_path q (apply_fields o j) = at_path q j.
Proof.
  unfold apply_fields. intros Hd. revert j. induction Hd as [|[p s] fields Hp _ IH]; intros j; [done|].
  simpl. rewrite IH. by apply at_path_frame.
Qed.

(** *** Trees that differ only in what is hidden *)

(** Values a strategy cannot tell apart: any two, but a token stands for a text. *)
Definition hides_alike (s : CompiledStrategy) (v1 v2 : json) : Prop :=
  match s with CHash _ => leaf_text v1 = leaf_text v2 | CMask | CDrop => True end.

(** Two trees that differ in one value, which the path names. Where it is to be dropped,
    one of them may lack it. *)
Inductive apart (s : CompiledStrategy) : list string → json → json → Prop :=
  | apart_at head before after v1 v2 :
      head ∉ before.*1 → hides_alike s v1 v2 →
      apart s [head] (JObject (before ++ (head, v1) :: after)) (JObject (before ++ (head, v2) :: after))
  | apart_lacks head before after v :
      s = CDrop → head ∉ (before ++ after).*1 →
      apart s [head] (JObject (before ++ (head, v) :: after)) (JObject (before ++ after))
  | apart_in head next rest before after v1 v2 :
      head ∉ before.*1 → apart s (next :: rest) v1 v2 →
      apart s (head :: next :: rest) (JObject (before ++ (head, v1) :: after))
        (JObject (before ++ (head, v2) :: after))
  | apart_item path before after v1 v2 :
      apart s path v1 v2 → apart s path (JArray (before ++ v1 :: after)) (JArray (before ++ v2 :: after)).

Definition hashes (s : CompiledStrategy) : bool := match s with CHash _ => true | _ => false end.

(** A token shows the value it stands for: a rule that hashes has to keep clear of the others. *)
Definition clear_of (rule other : list string * CompiledStrategy) : Prop :=
  diverge rule.1 other.1 = true ∨ hashes rule.2 = false ∧ hashes other.2 = false.

Definition fields_clear (o : TopicObfuscator) : Prop :=
  ∀ k i rule other, to_fields o !! k = Some rule → to_fields o !! i = Some other → k < i →
    clear_of rule other.

(** Trees that differ only in values the rules' paths name, any number of them. *)
Definition alike (o : TopicObfuscator) : json → json → Prop :=
  rtsc (λ j1 j2, ∃ rule, rule ∈ to_fields o ∧ apart rule.2 rule.1 j1 j2).

Lemma update_here head f before v after :
  head ∉ before.*1 →
  update_key head f (before ++ (head, v) :: after) = before ++ (head, f v) :: after.
Proof.
  induction before as [|[k w] before IH]; cbn; [by rewrite String.eqb_refl|].
  intros [Hk Hb]%not_elem_of_cons. destruct (String.eqb_spec k head); [congruence|]. by rewrite IH.
Qed.

Lemma update_absent head f fields : head ∉ fields.*1 → update_key head f fields = fields.
Proof.
  induction fields as [|[k w] fields IH]; [done|]. cbn. intros [Hk Hf]%not_elem_of_cons.
  destruct (String.eqb_spec k head); [congruence|]. by rewrite IH.
Qed.

Lemma update_keys head f fields : (update_key head f fields).*1 = fields.*1.
Proof. induction fields as [|[k w] fields IH]; [done|]. cbn. by destruct (String.eqb k head); cbn; rewrite ?IH. Qed.

(** Elsewhere an update acts on what is before an entry or on what is after it, whatever the
    entry holds and whether it is there. *)
Lemma update_elsewhere head other f before after :
  head ≠ other →
  ∃ before' after', before'.*1 = before.*1 ∧ after'.*1 = after.*1 ∧
    update_key other f (before ++ after) = before' ++ after' ∧
    ∀ v, update_key other f (before ++ (head, v) :: after) = before' ++ (head, v) :: after'.
Proof.
  intros Hne. induction before as [|[k w] before (before' & after' & Eb & Ea & H1 & H2)].
  - exists [], (update_key other f after). rewrite update_keys. split_and!; [done..|].
    intros v. cbn. destruct (String.eqb_spec head other); congruence.
  - cbn. destruct (String.eqb k other).
    + by exists ((k, f w) :: before), after.
    + exists ((k, w) :: before'), after'. cbn. split_and!; [by f_equal|done|by f_equal|].
      intros v. by rewrite H2.
Qed.

Lemma remove_app head before after :
  remove_key head (before ++ after) = remove_key head before ++ remove_key head after.
Proof. apply filter_app. Qed.

Lemma remove_cons head k v fields :
  remove_key head ((k, v) :: fields) =
  if String.eqb k head then remove_key head fields else (k, v) :: remove_key head fields.
Proof.
  unfold remove_key. rewrite filter_cons. simpl. by case_decide; destruct (String.eqb_spec k head).
Qed.

Lemma not_elem_of_remove k head fields : k ∉ fields.*1 → k ∉ (remove_key head fields).*1.
Proof.
  intros Hk Hin. apply Hk. apply list_elem_of_fmap in Hin as (kv & -> & Hin).
  apply list_elem_of_filter in Hin as [_ Hin]. by apply list_elem_of_fmap_2.
Qed.

(** What a rule's walk does to an object's entries: none under other keys. *)
Definition walk_entries (head : string) (rest : list string) (s : CompiledStrategy)
    (fields : list (string * json)) : list (string * json) :=
  match rest, s with
  | [], CDrop => remove_key head fields
  | [], _ => update_key head (hidden s) fields
  | _, _ => update_key head (λ v, walk v rest s) fields
  end.

Lemma walk_elsewhere head other rest s before after :
  head ≠ other →
  ∃ before' after', (∀ k, k ∉ before.*1 → k ∉ before'.*1) ∧
    (∀ k, k ∉ (before ++ after).*1 → k ∉ (before' ++ after').*1) ∧
    walk_entries other rest s (before ++ after) = before' ++ after' ∧
    ∀ v, walk_entries other rest s (before ++ (head, v) :: after) = before' ++ (head, v) :: after'.
Proof.
  intros Hne.
  assert (∀ f, ∃ before' after', (∀ k, k ∉ before.*1 → k ∉ before'.*1) ∧
    (∀ k, k ∉ (before ++ after).*1 → k ∉ (before' ++ after').*1) ∧
    update_key other f (before ++ after) = before' ++ after' ∧
    ∀ v, update_key other f (before ++ (head, v) :: after) = before' ++ (head, v) :: after') as Hup.
  { intros f. destruct (update_elsewhere head other f before after Hne) as (b & a & Eb & Ea & H1 & H2).
    exists b, a. rewrite !fmap_app, Eb, Ea. split_and!; [done..|exact H2]. }
  unfold walk_entries. destruct rest; [destruct s|]; [apply Hup..| |apply Hup].
  exists (remove_key other before), (remove_key other after). split_and!.
  - intros k. apply not_elem_of_remove.
  - intros k. rewrite <- remove_app. apply not_elem_of_remove.
  - apply remove_app.
  - intros v. rewrite remove_app, remove_cons. by destruct (String.eqb_spec head other).
Qed.

Lemma walk_object_entries head rest s fields :
  walk (JObject fields) (head :: rest) s = JObject (walk_entries head rest s fields).
Proof. apply walk_object. Qed.

(** A rule walked first leaves such trees apart at most where they were. *)
Lemma walk_apart s p v1 v2 :
  apart s p v1 v2 → ∀ q s', clear_of (q, s') (p, s) →
  walk v1 q s' = walk v2 q s' ∨ apart s p (walk v1 q s') (walk v2 q s').
Proof.
  unfold clear_of. cbn [fst snd].
  induction 1 as [head before after v1 v2 Hb Hs|head before after v -> Hn|head next rest before after v1 v2 Hb Hv IH
    |path before after v1 v2 Hv IH]; intros q s' Hc; (destruct q as [|other q]; [by right; econstructor|]);
    rewrite ?walk_object_entries.
  - destruct (decide (head = other)) as [<-|Hne].
    + destruct Hc as [Hd|[Hs1 Hs2]]; [simpl in Hd; by rewrite String.eqb_refl in Hd; destruct q|].
      destruct q as [|next q]; [destruct s'; [left|done|left]|right]; cbn [walk_entries].
      * by rewrite !update_here.
      * by rewrite !remove_app, !remove_cons, String.eqb_refl.
      * rewrite !update_here by done. constructor; [done|]. by destruct s.
    + destruct (walk_elsewhere head other q s' before after Hne) as (b & a & Hk & _ & _ & Hw). right.
      rewrite !Hw. constructor; auto.
  - destruct (decide (head = other)) as [<-|Hne].
    + assert (head ∉ before.*1) as Hb by (rewrite fmap_app in Hn; set_solver).
      destruct q as [|next q]; [destruct s'|]; cbn [walk_entries];
        [right; rewrite update_here, update_absent by done; by constructor..| |
         right; rewrite update_here, update_absent by done; by constructor].
      left. by rewrite !remove_app, remove_cons, String.eqb_refl.
    + destruct (walk_elsewhere head other q s' before after Hne) as (b & a & _ & Hk & H1 & Hw). right.
      rewrite H1, Hw. constructor; auto.
  - destruct (decide (head = other)) as [<-|Hne].
    + destruct q as [|next' q].
      * destruct Hc as [Hd|[Hs1 Hs2]]; [simpl in Hd; by rewrite String.eqb_refl in Hd|].
        destruct s'; [left|done|left]; cbn [walk_entries].
        -- by rewrite !update_here.
        -- by rewrite !remove_app, !remove_cons, String.eqb_refl.
      * cbn [walk_entries]. rewrite !update_here by done.
        destruct (IH (next' :: q) s') as [->|Ha].
        -- destruct Hc as [Hd|]; [left|by right]. cbn [diverge] in Hd.
           by rewrite String.eqb_refl in Hd.
        -- by left.
        -- right. by constructor.
    + destruct (walk_elsewhere head other q s' before after Hne) as (b & a & Hk & _ & _ & Hw). right.
      rewrite !Hw. constructor; auto.
  - cbn [walk]. rewrite !map_app. cbn [map].
    destruct (IH (other :: q) s' Hc) as [->|Ha]; [by left|right; by constructor].
Qed.

Lemma apart_named s p v1 v2 : apart s p v1 v2 → p ≠ [].
Proof. by induction 1. Qed.

(** Its own rule leaves them the same. *)
Lemma walk_hides s p v1 v2 : apart s p v1 v2 → walk v1 p s = walk v2 p s.
Proof.
  induction 1 as [head before after v1 v2 Hb Hs|head before after v -> Hn|head next rest before after v1 v2 Hb Hv IH
    |path before after v1 v2 Hv IH]; rewrite ?walk_object_entries; cbn [walk_entries].
  - destruct s as [|h|]; rewrite ?update_here by done; [done| |].
    + cbn [hides_alike hidden] in *. by rewrite Hs.
    + by rewrite !remove_app, !remove_cons, String.eqb_refl.
  - by rewrite !remove_app, remove_cons, String.eqb_refl.
  - by rewrite !update_here, IH.
  - destruct path as [|head rest]; [by apply apart_named in Hv|]. cbn [walk]. rewrite !map_app. cbn [map]. by rewrite IH.
Qed.

Lemma apply_fields_apart o i path s j1 j2 :
  to_fields o !! i = Some (path, s) →
  (∀ k rule, to_fields o !! k = Some rule → k < i → clear_of rule (path, s)) →
  apart s path j1 j2 → apply_fields o j1 = apply_fields o j2.
Proof.
  unfold apply_fields. revert i j1 j2.
  induction (to_fields o) as [|[path1 s1] fields IH]; intros i j1 j2 Hi Hc Ha; [done|]. cbn [foldl fst snd].
  destruct i as [|i]; simpl in Hi.
  - injection Hi as -> ->. by rewrite (walk_hides _ _ _ _ Ha).
  - destruct (walk_apart _ _ _ _ Ha path1 s1) as [->|Ha']; [by apply (Hc 0); [|lia]|done|].
    apply (IH i); [done| |done]. intros k rule Hk Hlt. apply (Hc (S k)); [done|lia].
Qed.

Lemma apply_fields_alike o j1 j2 :
  fields_clear o → alike o j1 j2 → apply_fields o j1 = apply_fields o j2.
Proof.
  intros Hc. induction 1 as [j|j1 j2 j3 [([path s] & Hin & Ha)|([path s] & Hin & Ha)] _ IH]; [done|..]; rewrite <- IH;
    apply list_elem_of_lookup in Hin as [i Hi]; [|symmetry];
    (eapply (apply_fields_apart o i); [done| |exact Ha]); intros k rule Hk Hlt; by eapply (Hc k i).
Qed.
End paths.

(** ** What masking does to a payload's text *)

Section masked_text.
Context `{!PayloadLib, !RedactLib}.
#[local] Arguments text : simpl never.
#[local] Arguments into_text : simpl never.

(** The text once the field rules ran: an undecoded value they cannot reach is
    masked whole unless the rule allows it. *)
Definition edited_text (o : TopicObfuscator) (field : Field) (p : DecodedPayload) : string :=
  match dp_json p with
  | Some j => default (render_raw (dp_raw p)) (json_to_string (apply_fields o j))
  | None => if masks_undecoded o field then MASK else into_text p
  end.

Lemma rewrite_matches_text o p :
  into_text (rewrite_matches o p) = default (into_text p) (rewrite_text o (into_text p)).
Proof.
  unfold rewrite_matches, rewrite_text. destruct (to_patterns o) as [|pattern patterns] eqn:E; [done|].
  rewrite <- E. fold (rewrite_text o (into_text p)). fold (rewrite_text o).
  pose proof (text_into_text p) as Hp. pose proof (into_text_text p) as Hp'.
  destruct (text p) as [t p']. simpl in Hp, Hp'. subst t.
  unfold rewrite_text at 1. fold (rewrite_text o (into_text p)).
  by destruct (rewrite_text o (into_text p)).
Qed.

Definition apply_whole (o : TopicObfuscator) (w : option CompiledStrategy) (t : string) : string :=
  match w with
  | Some CMask | Some CDrop => MASK
  | Some (CHash h) => token h t
  | None => default t (rewrite_text o t)
  end.

Lemma apply_text o field slot :
  into_text <$> apply o field slot =
  match whole o field with
  | Some CDrop => None
  | w => (λ p, apply_whole o w (edited_text o field p)) <$> slot
  end.
Proof.
  destruct slot as [p|]; [|by unfold apply; destruct (whole o field) as [[]|]].
  unfold apply, edited_text, edit_json.
  destruct (whole o field) as [[|h|]|]; simpl; try done.
  - rewrite (surjective_pairing (text _)), text_into_text. simpl.
    destruct (dp_json p); simpl; [done|]. by destruct (masks_undecoded o field).
  - rewrite rewrite_matches_text. destruct (dp_json p); simpl; [done|].
    by destruct (masks_undecoded o field).
Qed.
End masked_text.

(** ** Properties *)

Section properties.
Context `{!PayloadLib, !RedactLib}.

(** A configuration is accepted exactly when no topic name is matched by two of
    its patterns, so each topic has at most one rule. *)
Theorem disjoint_spec rules :
  disjoint_ rules = Ok rules ↔
  ∀ i j a b topic,
    concat (r_topics <$> rules) !! i = Some a → concat (r_topics <$> rules) !! j = Some b →
    matches a topic = true → matches b topic = true → i = j.
Proof.
  fold (pairwise_disjoint (concat (r_topics <$> rules))). split.
  - by intros [_ Hd]%disjoint_ok.
  - intros Hd%find_overlap_disjoint. unfold disjoint_. by rewrite Hd.
Qed.

(** The compiled policy gives a topic the masking of the rule whose patterns
    match it, and none when no rule does, for every configuration the loader
    accepts: hashing exact names and scanning prefixes loses nothing. *)
Theorem for_topic_refines config topic o :
  disjoint_ (ob_rules config) = Ok (ob_rules config) →
  for_topic (compile config) topic = Some o ↔
  ∃ rule pattern, rule ∈ ob_rules config ∧ pattern ∈ r_topics rule ∧
    matches pattern topic = true ∧ o = compile_rule {| mac_key := ob_secret config |} rule.
Proof.
  intros [_ Hd]%disjoint_ok. rewrite compile_assignments, for_topic_assigned.
  - setoid_rewrite elem_of_assignments. split.
    + intros (p & (rule & Hr & Hp & ->) & Hm). by exists rule, p.
    + intros (rule & p & Hr & Hp & Hm & ->). exists p. split; [by exists rule|done].
  - by rewrite assignments_patterns.
Qed.

(** Field rules hide every value their path names, through arrays and nested
    objects: masked and hashed ones are replaced in place, dropped ones are gone;
    values that no rule's path passes through or leads to keep their content. *)
Theorem apply_fields_spec o j :
  (∀ i path s, to_fields o !! i = Some (path, s) → path ≠ [] →
    (∀ k path' s', to_fields o !! k = Some (path', s') → k ≠ i → diverge path' path = true) →
    at_path path (apply_fields o j) = omap (redacted s) (at_path path j)) ∧
  (∀ q, Forall (λ rule, diverge rule.1 q = true) (to_fields o) →
    at_path q (apply_fields o j) = at_path q j).
Proof.
  split; intros.
  - by eapply apply_fields_path.
  - by apply at_path_frame_all.
Qed.

(** The text a masked key or value renders to: nothing when dropped, the mask or
    a token when the whole field is masked or hashed, else the edited tree with
    the patterns' matches rewritten; an undecoded value the field rules cannot
    reach is the mask unless the rule allows it. *)
Theorem apply_text_spec o field slot :
  into_text <$> apply o field slot =
  match whole o field with
  | Some CDrop => None
  | w => (λ p, apply_whole o w (edited_text o field p)) <$> slot
  end.
Proof. apply apply_text. Qed.

(** C6 What is hidden does not show: two payloads that differ only in what the rules hide
    give the same masked text. A whole-field mask or drop hides everything, and so do
    field rules over values that did not decode, unless the rule allows those. Of decoded
    values field rules hide what their paths name, through objects and arrays: all of it
    when masked or dropped (whether it was there at all, when dropped), and when hashed
    everything but the text the token stands for. A rule that hashes has to keep clear of
    the paths of the others for that; serde_json writes the masked tree. *)
Theorem apply_noninterference o field p1 p2 :
  whole o field = Some CMask ∨ whole o field = Some CDrop ∨
  (dp_json p1 = None ∧ dp_json p2 = None ∧ field = Value_ ∧ to_fields o ≠ [] ∧ to_unparsed o = UnparsedMask) ∨
  (∃ j1 j2, dp_json p1 = Some j1 ∧ dp_json p2 = Some j2 ∧ fields_clear o ∧ alike o j1 j2 ∧
    is_Some (json_to_string (apply_fields o j1))) →
  into_text <$> apply o field (Some p1) = into_text <$> apply o field (Some p2).
Proof.
  rewrite !apply_text. unfold edited_text. cbn [fmap option_fmap option_map].
  intros [->|[->|[(-> & -> & -> & Hf & Hu)|(j1 & j2 & -> & -> & Hc & Ha & [t Ht])]]]; try done.
  - assert (masks_undecoded o Value_ = true) as -> by (simpl; by rewrite !bool_decide_eq_true_2).
    by destruct (whole o Value_) as [[]|].
  - rewrite <- (apply_fields_alike o j1 j2), Ht by done. by destruct (whole o field) as [[]|].
Qed.

(** Header masking keeps every header, in order and by name; a header a rule names,
    in any letter case, shows the mask, and the rest change only where a pattern
    matches their text. *)
Theorem obfuscate_headers_spec o headers :
  (obfuscate_headers o headers).*1 = headers.*1 ∧
  ∀ i name value, headers !! i = Some (name, value) →
    obfuscate_headers o headers !! i = Some (name,
      if masks_header o name then Some MASK
      else match value with
           | Some bytes => Some (default bytes (rewrite_text o (from_utf8_lossy bytes)))
           | None => None
           end).
Proof.
  assert (∀ i name value, headers !! i = Some (name, value) →
    obfuscate_headers o headers !! i = Some (obfuscate_header o (name, value))) as Hall.
  { intros i name value Hi. unfold obfuscate_headers.
    destruct (to_headers o) eqn:Eh, (to_patterns o) eqn:Ep;
      try (by rewrite list_lookup_fmap, Hi).
    rewrite Hi. unfold obfuscate_header, masks_header, rewrite_header. rewrite Eh, Ep. simpl.
    by destruct value. }
  split.
  - apply list_eq. intros i. rewrite !list_lookup_fmap.
    destruct (headers !! i) as [[name value]|] eqn:Hi.
    + rewrite (Hall i name value Hi). unfold obfuscate_header.
      destruct (masks_header o name); [done|]. by destruct (value ≫= rewrite_header o).
    + assert (length (obfuscate_headers o headers) = length headers) as Hlen.
      { unfold obfuscate_headers. destruct (to_headers o), (to_patterns o); by rewrite ?length_fmap. }
      apply lookup_ge_None in Hi. by rewrite (lookup_ge_None_2 (obfuscate_headers o headers)) by lia.
  - intros i name value Hi. rewrite (Hall i name value Hi). unfold obfuscate_header.
    destruct (masks_header o name); [done|]. destruct value as [bytes|]; [|done]. simpl.
    unfold rewrite_header, rewrite_text. destruct (to_patterns o) eqn:Ep; [done|].
    by destruct (foldl _ None _).
Qed.
End properties.

(** ** Witnesses *)

(** Whole-text patterns, and a tag that is its message padded to 32 bytes. *)
Definition sample_redact_lib : RedactLib :=
  {| Regex := string;
     replace_all r t f := if String.eqb r t then Some (f t) else None;
     hmac_sha256 k m := String.substring 0 32 (m +:+ "00000000000000000000000000000000") |}.

Definition sample_rule (l : RedactLib) : @Rule l :=
  {| r_topics := [Prefix "payments."; Exact "orders"]; r_fields := [("card.number", Mask)];
     r_patterns := []; r_key := None; r_value := None; r_headers := ["X-User-Id"];
     r_unparsed := UnparsedMask |}.

Definition sample_obfuscation (l : RedactLib) : @Obfuscation l :=
  {| ob_secret := "0123456789abcdef0123456789abcdef"; ob_rules := [sample_rule l] |}.

Lemma for_topic_refines_witness :
  let l := sample_redact_lib in
  @for_topic l (@compile l (sample_obfuscation l)) "payments.eu" =
    Some (compile_rule {| mac_key := ob_secret (sample_obfuscation l) |} (sample_rule l)).
Proof.
  apply (@for_topic_refines sample_redact_lib); [reflexivity|].
  exists (sample_rule sample_redact_lib), (Prefix "payments."). split_and!; [left|left|reflexivity..].
Defined.

Definition sample_card : json :=
  JArray [JObject [("card", JArray [JObject [("cvv", JNull); ("number", JString "4111")]]);
                   ("total", JNumber "3")]].

Lemma apply_fields_spec_witness :
  let l := sample_redact_lib in let lp := sample_payload_lib in
  let o := compile_rule {| mac_key := "k" |} (sample_rule l) in
  at_path ["card"; "number"] (@apply_fields lp l o sample_card) =
    omap (@redacted lp l CMask) (at_path ["card"; "number"] sample_card).
Proof.
  apply (@apply_fields_spec sample_payload_lib sample_redact_lib) with (i := 0); [reflexivity|done|].
  intros [|[|k]] path' s' Hk Hne; done.
Defined.

(** The same order, paid with another card. *)
Definition other_card : json :=
  JArray [JObject [("card", JArray [JObject [("cvv", JNull); ("number", JString "5500")]]);
                   ("total", JNumber "3")]].

Definition decoded_payload (l : PayloadLib) (j : json) : DecodedPayload :=
  {| dp_raw := "a record"; dp_json := Some j; dp_text := None; dp_wire_schema_id := None |}.

Lemma apply_noninterference_witness :
  let l := sample_redact_lib in let lp := sample_payload_lib in
  let o := compile_rule {| mac_key := "k" |} (sample_rule l) in
  into_text <$> @apply lp l o Value_ (Some (payload_raw "one secret")) =
  into_text <$> @apply lp l o Value_ (Some (payload_raw "another")) ∧
  into_text <$> @apply lp l o Value_ (Some (decoded_payload lp sample_card)) =
  into_text <$> @apply lp l o Value_ (Some (decoded_payload lp other_card)).
Proof.
  split; apply (@apply_noninterference sample_payload_lib sample_redact_lib); right; right.
  - left. done.
  - right. exists sample_card, other_card. split_and!; [done..| | |].
    + intros k [|i] rule other _ Hi Hlt; [lia|done].
    + apply rtc_once. left. exists (["card"; "number"], CMask). split; [by left|].
      apply (apart_item _ _ [] []), (apart_in _ "card" "number" [] [] [("total", JNumber "3")]); [set_solver|].
      apply (apart_item _ _ [] []), (apart_at _ "number" [("cvv", JNull)] []); [set_solver|done].
    + eexists. vm_compute. reflexivity.
Defined.
