(* ===== verification/Pipeline.v ===== *)
(** [src/kafka/scan/pipeline.rs], with [RawRecord] of [src/kafka/scan/session.rs]
    and [Record] of [src/kafka/scan.rs]: how polled records are screened, decoded,
    masked, filtered and rendered. The blocking pool runs its work in the caller's
    order, so [off_runtime] is the work itself. *)

From S2P Require Import Prelude Text Utf8 Cursor Batch Payload Filter Obfuscate.

(** ** Records *)

Record RawRecord : Set := {
  rr_partition : Z;
  rr_offset : Z;
  rr_timestamp : Z;
  rr_key : option string;
  rr_value : option string;
  rr_headers : list (string * option string);
}.

(** [Bytes::len]. *)
Definition byte_len (bytes : string) : Z := Z.of_nat (String.length bytes).

Definition raw_size_bytes (raw : RawRecord) : Z :=
  let key := default 0%Z (byte_len <$> rr_key raw) in
  let value := default 0%Z (byte_len <$> rr_value raw) in
  usize_add key value.

Definition raw_sort_key (raw : RawRecord) : SortKey :=
  {| sk_timestamp := rr_timestamp raw; sk_partition := rr_partition raw; sk_offset := rr_offset raw |}.

Definition with_headers (raw : RawRecord) (headers : list (string * option string)) : RawRecord :=
  {| rr_partition := rr_partition raw; rr_offset := rr_offset raw;
     rr_timestamp := rr_timestamp raw; rr_key := rr_key raw; rr_value := rr_value raw;
     rr_headers := headers |}.

Record Record_ : Set := {
  rec_topic : string;
  rec_partition : Z;
  rec_offset : Z;
  rec_timestamp : Z;
  rec_key : option string;
  rec_value : option string;
  rec_schema_id : option Z;
  rec_headers : list (string * string);
  rec_size_bytes : Z;
  rec_verbatim : bool;
}.

(** A missing or non-UTF-8 header value cannot round-trip through the text form. *)
Definition header_text (value : option string) : string * bool :=
  match value with
  | None => (EmptyString, false)
  | Some bytes => if utf8_valid bytes then (bytes, true) else (from_utf8_lossy bytes, false)
  end.

(** ** The codec's interface

    [PayloadCodec::resolve] and [ResolvedCodec::decode]: a slot that is framed or
    has a fallback schema may get a tree; its bytes stay. *)
Class PayloadCodec `{PayloadLib} : Type := {
  decode_slots : list PayloadSlot → list PayloadSlot;
  decode_slots_raw : ∀ slots, slot_raw <$> decode_slots slots = slot_raw <$> slots;
  decode_slots_unframed : ∀ slots i s, slots !! i = Some s →
    needs_decode (slot_raw s) (slot_fallback_schema_id s) = false →
    decode_slots slots !! i = Some s;
}.

Section pipeline.
Context `{!PayloadLib, !RedactLib, !FilterLib}.

Inductive Screen : Set := Deferred | ScreenNeedsPayload.

Record DecodedRecord : Type := {
  dr_raw : RawRecord;
  dr_key : option DecodedPayload;
  dr_value : option DecodedPayload;
  dr_masked : bool;
}.

Inductive Kept : Type := Pending (raw : RawRecord) | Decoded (record : DecodedRecord).

Definition kept_raw (k : Kept) : RawRecord :=
  match k with Pending raw => raw | Decoded record => dr_raw record end.

Definition all_verbatim (payloads : list (option DecodedPayload)) : bool :=
  forallb is_verbatim (omap id payloads).

Definition into_record (r : DecodedRecord) (topic : string) : Record_ :=
  let raw := dr_raw r in
  let headers := (λ header, (header.1, header_text header.2)) <$> rr_headers raw in
  {| rec_topic := topic;
     rec_partition := rr_partition raw;
     rec_offset := rr_offset raw;
     rec_timestamp := Z.max (rr_timestamp raw) 0;
     rec_key := into_text <$> dr_key r;
     rec_value := into_text <$> dr_value r;
     rec_schema_id := dr_value r ≫= dp_wire_schema_id;
     rec_headers := (λ header, (header.1, header.2.1)) <$> headers;
     rec_size_bytes := raw_size_bytes raw;
     rec_verbatim :=
       negb (dr_masked r) && forallb (λ header : string * (string * bool), header.2.2) headers &&
       all_verbatim [dr_key r; dr_value r] |}.

(** [RecordPipeline] with its [Stages]. *)
Record RecordPipeline : Type := {
  pl_codec : option PayloadCodec;
  pl_filter : option CompiledFilter;
  pl_obfuscator : option TopicObfuscator;
  pl_fallback_schema_id : option Z;
}.

Definition obfuscated (pl : RecordPipeline) : bool := bool_decide (is_Some (pl_obfuscator pl)).

(** [Stages::decodes]. *)
Definition decodes (pl : RecordPipeline) : bool := bool_decide (is_Some (pl_codec pl)).

Definition raw_field (pl : RecordPipeline) (bytes : option string) (fallback : option Z)
    : option RawField :=
  (λ bytes, {| rf_bytes := bytes; rf_framed := decodes pl && needs_decode bytes fallback |})
    <$> bytes.

(** Masks the headers of [raw] and says whether it stays. *)
Definition screen_record (pl : RecordPipeline) (raw : RawRecord) : RawRecord * option Screen :=
  let raw :=
    match pl_obfuscator pl with
    | Some o => with_headers raw (obfuscate_headers o (rr_headers raw))
    | None => raw
    end in
  match pl_filter pl with
  | None => (raw, Some Deferred)
  | Some filter =>
      if match pl_obfuscator pl with Some o => hides_payload o | None => false end
      then (raw, Some ScreenNeedsPayload)
      else
        match on_raw filter (raw_field pl (rr_key raw) None)
                (raw_field pl (rr_value raw) (pl_fallback_schema_id pl)) with
        | Fail_ => (raw, None)
        | Pass => (raw, Some Deferred)
        | NeedsPayload => (raw, Some ScreenNeedsPayload)
        end
  end.

(** The loop of [screen], with its batch, candidates and count of the rejected. *)
Fixpoint screen (pl : RecordPipeline) (batch : RecordBatch Kept)
    (records : list (SortKey * RawRecord)) : RecordBatch Kept * list (SortKey * RawRecord) * Z :=
  match records with
  | [] => (batch, [], 0%Z)
  | (sort, raw) :: records =>
      if negb (admits batch sort) then
        let '(batch, candidates, rejected) := screen pl batch records in
        (batch, candidates, usize_add rejected 1)
      else
        match screen_record pl raw with
        | (_, None) => screen pl batch records
        | (raw, Some Deferred) => screen pl (push batch sort (Pending raw)) records
        | (raw, Some ScreenNeedsPayload) =>
            let '(batch, candidates, rejected) := screen pl batch records in
            (batch, (sort, raw) :: candidates, rejected)
        end
  end.

(** Appends a slot for the bytes and returns its index. *)
Definition push_slot (slots : list PayloadSlot) (bytes : option string) (fallback : option Z)
    : list PayloadSlot * option nat :=
  match bytes with
  | Some bytes => (slots ++ [slot_new bytes fallback], Some (length slots))
  | None => (slots, None)
  end.

(** A candidate's record with its slots' indices. *)
Definition stage (pl : RecordPipeline) (slots : list PayloadSlot) (raw : RawRecord)
    : list PayloadSlot * (option nat * option nat) :=
  let '(slots, key) := push_slot slots (rr_key raw) None in
  let '(slots, value) := push_slot slots (rr_value raw) (pl_fallback_schema_id pl) in
  (slots, (key, value)).

(** [decode]: the resolved codec over the slots, then each slot's payload. *)
Definition decode (pl : RecordPipeline) (slots : list PayloadSlot) : list (option DecodedPayload) :=
  let slots := match pl_codec pl with Some codec => decode_slots slots | None => slots end in
  (λ slot, Some (slot_take slot)) <$> slots.

(** [decoded[index].take()]. *)
Definition take_payload (decoded : list (option DecodedPayload)) (index : option nat)
    : list (option DecodedPayload) * option DecodedPayload :=
  match index with
  | Some i => (<[i := None]> decoded, mjoin (decoded !! i))
  | None => (decoded, None)
  end.

Definition obfuscate (pl : RecordPipeline) (key value : option DecodedPayload)
    : option DecodedPayload * option DecodedPayload :=
  match pl_obfuscator pl with
  | None => (key, value)
  | Some o => (apply o Key key, apply o Value_ value)
  end.

Definition decoded_record (pl : RecordPipeline) (raw : RawRecord)
    (key value : option DecodedPayload) : DecodedRecord :=
  {| dr_raw := raw; dr_key := key; dr_value := value; dr_masked := obfuscated pl |}.

(** The filter's say on a candidate's masked payloads, cells filled. *)
Definition passes_filter (pl : RecordPipeline) (key value : option DecodedPayload)
    : bool * option DecodedPayload * option DecodedPayload :=
  match pl_filter pl with
  | Some filter => on_payload filter key value
  | None => (true, key, value)
  end.

(** The loop of [filter_decoded] over the candidates, taking from [decoded]. *)
Fixpoint filter_decoded (pl : RecordPipeline)
    (candidates : list (SortKey * RawRecord * (option nat * option nat)))
    (decoded : list (option DecodedPayload)) : list (SortKey * Kept) :=
  match candidates with
  | [] => []
  | (sort, raw, (key, value)) :: candidates =>
      let '(decoded, key) := take_payload decoded key in
      let '(decoded, value) := take_payload decoded value in
      let '(key, value) := obfuscate pl key value in
      let '(passes, key, value) := passes_filter pl key value in
      let rest := filter_decoded pl candidates decoded in
      if passes
      then (sort, Decoded (decoded_record pl raw (drop_tree_if_rendered <$> key)
                             (drop_tree_if_rendered <$> value))) :: rest
      else rest
  end.

(** The slots of several records, in order. *)
Fixpoint stage_all (pl : RecordPipeline) {A} (raw_of : A → RawRecord)
    (slots : list PayloadSlot) (items : list A)
    : list PayloadSlot * list (A * (option nat * option nat)) :=
  match items with
  | [] => (slots, [])
  | item :: items =>
      let '(slots, indices) := stage pl slots (raw_of item) in
      let '(slots, staged) := stage_all pl raw_of slots items in
      (slots, (item, indices) :: staged)
  end.

Definition decode_and_filter (pl : RecordPipeline) (records : list (SortKey * RawRecord))
    : list (SortKey * Kept) :=
  match records with
  | [] => []
  | _ =>
      let '(slots, candidates) := stage_all pl snd [] records in
      filter_decoded pl candidates (decode pl slots)
  end.

(** Screens one poll into [batch] and counts the records it turned away. *)
Definition admit_records (pl : RecordPipeline) (batch : RecordBatch Kept)
    (records : list (SortKey * RawRecord)) : RecordBatch Kept * Z :=
  match records with
  | [] => (batch, 0%Z)
  | _ =>
      let '(held, _) := batch_take batch in
      let '(batch, candidates, rejected) := screen pl held records in
      (push_all batch (decode_and_filter pl candidates), rejected)
  end.

(** A page entry's slots: none when it is already decoded. *)
Fixpoint stage_page (pl : RecordPipeline) (slots : list PayloadSlot) (page : list Kept)
    : list PayloadSlot * list (Kept * (option nat * option nat)) :=
  match page with
  | [] => (slots, [])
  | Decoded record :: page =>
      let '(slots, staged) := stage_page pl slots page in
      (slots, (Decoded record, (None, None)) :: staged)
  | Pending raw :: page =>
      let '(slots, indices) := stage pl slots raw in
      let '(slots, staged) := stage_page pl slots page in
      (slots, (Pending raw, indices) :: staged)
  end.

Fixpoint render_staged (pl : RecordPipeline) (topic : string)
    (staged : list (Kept * (option nat * option nat)))
    (decoded : list (option DecodedPayload)) : list Record_ :=
  match staged with
  | [] => []
  | (Decoded record, _) :: staged => into_record record topic :: render_staged pl topic staged decoded
  | (Pending raw, (key, value)) :: staged =>
      let '(decoded, key) := take_payload decoded key in
      let '(decoded, value) := take_payload decoded value in
      let '(key, value) := obfuscate pl key value in
      into_record (decoded_record pl raw key value) topic :: render_staged pl topic staged decoded
  end.

Definition render_page (pl : RecordPipeline) (page : list Kept) (topic : string) : list Record_ :=
  match page with
  | [] => []
  | _ =>
      let '(slots, staged) := stage_page pl [] page in
      render_staged pl topic staged (decode pl slots)
  end.

(** A batch fed several polls in turn. *)
Definition admit_all (pl : RecordPipeline) (batch : RecordBatch Kept)
    (polls : list (list (SortKey * RawRecord))) : RecordBatch Kept :=
  foldl (λ batch records, (admit_records pl batch records).1) batch polls.
End pipeline.

(** ** Staging: which slot is whose *)

Section staging.
Context `{!PayloadLib, !RedactLib, !FilterLib} (pl : RecordPipeline).

(** What the pipeline's codec answers for slots it is asked about in one call: without
    a codec they stay as they are. *)
Definition answered (slots : list PayloadSlot) : list PayloadSlot :=
  match pl_codec pl with Some codec => decode_slots slots | None => slots end.

(** The slots of the fields, in order. *)
Definition record_slots (raw : RawRecord) : list PayloadSlot :=
  match rr_key raw with Some b => [slot_new b None] | None => [] end ++
  match rr_value raw with Some b => [slot_new b (pl_fallback_schema_id pl)] | None => [] end.

(** [p] is what the codec answered for a field's slot, when asked about [slots]: none
    for a field that is not there. *)
Definition payload_of (slots : list PayloadSlot) (fallback : option Z) (bytes : option string)
    (p : option DecodedPayload) : Prop :=
  match bytes with
  | None => p = None
  | Some b => ∃ i s, slots !! i = Some (slot_new b fallback) ∧ answered slots !! i = Some s ∧
      p = Some (slot_take s)
  end.

(** The payloads a record's key and value decode to in one call of the codec, which is
    asked about the slots of some records, this one among them. *)
Definition decoded_as (raw : RawRecord) (key value : option DecodedPayload) : Prop :=
  ∃ records, raw ∈ records ∧
    let slots := concat (record_slots <$> records) in
    payload_of slots None (rr_key raw) key ∧
    payload_of slots (pl_fallback_schema_id pl) (rr_value raw) value.

(** What that says of the payload alone: its bytes, its schema id, and no tree unless the
    codec had to decode it. *)
Definition fresh_payload (fallback : option Z) (bytes : option string)
    (p : option DecodedPayload) : Prop :=
  dp_raw <$> p = bytes ∧
  ∀ q, p = Some q → dp_text q = None ∧
    dp_wire_schema_id q = framed_schema_id (dp_raw q) ∧
    (decodes pl && needs_decode (dp_raw q) fallback = false → dp_json q = None).

(** The index of a field's slot points at its payload. *)
Definition points_at (slots : list PayloadSlot) (decoded : list (option DecodedPayload))
    (fallback : option Z) (bytes : option string) (index : option nat) : Prop :=
  match index with
  | Some i => ∃ p, decoded !! i = Some (Some p) ∧ is_Some bytes ∧ payload_of slots fallback bytes (Some p)
  | None => bytes = None
  end.

Definition index_from (n : nat) (index : option nat) : Prop :=
  match index with Some i => n ≤ i | None => True end.

Definition next_index (n : nat) (index : option nat) : nat :=
  match index with Some i => S i | None => n end.

(** Staged records point at their payloads, each with indices after the last. *)
Fixpoint aligned {A} (raw_of : A → RawRecord) (records : list RawRecord) (n : nat)
    (decoded : list (option DecodedPayload)) (staged : list (A * (option nat * option nat))) : Prop :=
  let slots := concat (record_slots <$> records) in
  match staged with
  | [] => True
  | (item, (key, value)) :: staged =>
      points_at slots decoded None (rr_key (raw_of item)) key ∧ index_from n key ∧
      points_at slots decoded (pl_fallback_schema_id pl) (rr_value (raw_of item)) value ∧
      index_from (next_index n key) value ∧ raw_of item ∈ records ∧
      aligned raw_of records (next_index (next_index n key) value) decoded staged
  end.

Lemma points_at_insert slots decoded i fallback bytes index :
  index_from (S i) index → points_at slots decoded fallback bytes index →
  points_at slots (<[i := None]> decoded) fallback bytes index.
Proof.
  destruct index as [j|]; simpl; [|done]. intros Hj (p & Hp & Hf).
  exists p. split; [|done]. by rewrite list_lookup_insert_ne by lia.
Qed.

Lemma aligned_weaken {A} (raw_of : A → RawRecord) records n m decoded staged :
  m ≤ n → aligned raw_of records n decoded staged → aligned raw_of records m decoded staged.
Proof.
  revert n m. induction staged as [|[item [key value]] staged IH]; intros n m Hle; simpl; [done|].
  intros (A1 & A2 & A3 & A4 & A5 & A6). split_and!; [done| |done| |done|].
  - destruct key; simpl in *; lia.
  - destruct key, value; simpl in *; lia.
  - eapply IH; [|exact A6]. destruct key, value; simpl in *; lia.
Qed.

Lemma aligned_insert {A} (raw_of : A → RawRecord) records i n decoded staged :
  i < n → aligned raw_of records n decoded staged →
  aligned raw_of records n (<[i := None]> decoded) staged.
Proof.
  revert n. induction staged as [|[item [key value]] staged IH]; intros n Hi; simpl; [done|].
  intros (A1 & A2 & A3 & A4 & A5 & A6). split_and!; [|done| |done|done|].
  - apply points_at_insert; [|done]. destruct key; simpl in *; lia.
  - apply points_at_insert; [|done]. destruct key, value; simpl in *; lia.
  - apply IH; [|done]. destruct key, value; simpl in *; lia.
Qed.

Lemma take_payload_of slots decoded fallback bytes index :
  points_at slots decoded fallback bytes index →
  payload_of slots fallback bytes (take_payload decoded index).2.
Proof.
  destruct index as [i|]; simpl; [|by intros ->].
  intros (p & Hp & _ & Hf). by rewrite Hp.
Qed.

Lemma take_payload_aligned {A} (raw_of : A → RawRecord) records decoded index n staged :
  aligned raw_of records (next_index n index) decoded staged →
  aligned raw_of records (next_index n index) (take_payload decoded index).1 staged.
Proof. destruct index as [i|]; simpl; [|done]. apply aligned_insert. lia. Qed.

Lemma take_payload_points slots decoded index n fallback bytes later :
  index_from (next_index n index) later → points_at slots decoded fallback bytes later →
  points_at slots (take_payload decoded index).1 fallback bytes later.
Proof. destruct index as [i|]; simpl; [|done]. apply points_at_insert. Qed.

(** One staged record: its two payloads, and what stays aligned. *)
Lemma take_both {A} (raw_of : A → RawRecord) records n decoded item key value staged :
  aligned raw_of records n decoded ((item, (key, value)) :: staged) →
  let '(decoded1, k) := take_payload decoded key in
  let '(decoded2, v) := take_payload decoded1 value in
  decoded_as (raw_of item) k v ∧
  aligned raw_of records (next_index (next_index n key) value) decoded2 staged.
Proof.
  intros (A1 & A2 & A3 & A4 & A5 & A6).
  pose proof (take_payload_of _ _ _ _ _ A1) as Hk.
  pose proof (take_payload_points _ _ key n _ _ value A4 A3) as A3'.
  destruct (take_payload decoded key) as [decoded1 k] eqn:E1. simpl in Hk, A3'.
  pose proof (take_payload_of _ _ _ _ _ A3') as Hv.
  destruct (take_payload decoded1 value) as [decoded2 v] eqn:E2. simpl in Hv.
  split; [by exists records|]. assert (decoded2 = (take_payload decoded1 value).1) as -> by by rewrite E2.
  apply take_payload_aligned. assert (decoded1 = (take_payload decoded key).1) as -> by by rewrite E1.
  destruct key as [i|]; simpl; [|done]. apply aligned_insert; [|done].
  destruct value; simpl in *; lia.
Qed.

Lemma stage_eq slots raw :
  stage pl slots raw =
  (slots ++ record_slots raw,
   ((λ _, length slots) <$> rr_key raw,
    (λ _, length slots + length (match rr_key raw with Some _ => [()] | None => [] end))
      <$> rr_value raw)).
Proof.
  unfold stage, push_slot, record_slots.
  destruct (rr_key raw), (rr_value raw); simpl;
    rewrite ?app_nil_r, <- ?app_assoc, ?length_app; simpl; rewrite ?Nat.add_0_r; reflexivity.
Qed.

(** The payload a slot decodes to is fresh. *)
Lemma payload_fresh slots fallback bytes p :
  payload_of slots fallback bytes p → fresh_payload fallback bytes p.
Proof.
  destruct bytes as [b|]; [|by intros ->]. intros (i & s & Hi & Hs & ->).
  assert (slot_raw s = b ∧ (decodes pl && needs_decode b fallback = false → slot_json s = None)) as [Hraw Hjson].
  { unfold answered, decodes in *. destruct (pl_codec pl) as [codec|].
    - pose proof (f_equal (lookup i) (decode_slots_raw slots)) as Hr.
      rewrite !list_lookup_fmap, Hi, Hs in Hr. injection Hr as Hr. split; [done|]. simpl. intros Hn.
      rewrite (decode_slots_unframed slots i _ Hi) in Hs by done. by injection Hs as <-.
    - rewrite Hi in Hs. by injection Hs as <-. }
  split; [simpl; by rewrite dp_raw_take, Hraw|].
  intros q [= <-]. unfold slot_take. destruct (slot_json s) eqn:Ej; simpl; split_and!; try done.
  rewrite Hraw. intros Hn. by specialize (Hjson Hn).
Qed.

Lemma decoded_fresh raw key value :
  decoded_as raw key value →
  fresh_payload None (rr_key raw) key ∧ fresh_payload (pl_fallback_schema_id pl) (rr_value raw) value.
Proof. intros (records & _ & Hk & Hv). split; by eapply payload_fresh. Qed.

(** The slot of a field points at its payload. *)
Lemma decode_points slots i b fallback :
  slots !! i = Some (slot_new b fallback) →
  points_at slots (decode pl slots) fallback (Some b) (Some i).
Proof.
  intros Hi. unfold decode. fold (answered slots).
  assert (is_Some (answered slots !! i)) as [s Hs].
  { unfold answered. destruct (pl_codec pl) as [codec|]; [|by eexists].
    pose proof (f_equal (lookup i) (decode_slots_raw slots)) as Hr.
    rewrite !list_lookup_fmap, Hi in Hr. destruct (decode_slots slots !! i); [by eexists|done]. }
  exists (slot_take s). rewrite list_lookup_fmap, Hs. split; [done|]. split; [by eexists|].
  by exists i, s.
Qed.

Lemma record_slots_points slots1 raw slots2 :
  let slots := slots1 ++ record_slots raw ++ slots2 in
  let '(key, value) := (stage pl slots1 raw).2 in
  points_at slots (decode pl slots) None (rr_key raw) key ∧ index_from (length slots1) key ∧
  points_at slots (decode pl slots) (pl_fallback_schema_id pl) (rr_value raw) value ∧
  index_from (next_index (length slots1) key) value ∧
  next_index (next_index (length slots1) key) value ≤ length (slots1 ++ record_slots raw).
Proof.
  rewrite stage_eq. unfold record_slots.
  destruct (rr_key raw) as [k|], (rr_value raw) as [v|]; cbn [fst snd fmap option_fmap option_map];
    split_and!; try done; rewrite ?length_app; cbn [length app index_from next_index]; try lia;
    apply decode_points; rewrite lookup_app_r by lia.
  - by rewrite Nat.sub_diag.
  - by replace (length slots1 + 1 - length slots1) with 1 by lia.
  - by rewrite Nat.sub_diag.
  - by replace (length slots1 + 0 - length slots1) with 0 by lia.
Qed.

Lemma stage_all_slots {A} (raw_of : A → RawRecord) slots items :
  (stage_all pl raw_of slots items).1 = slots ++ concat (record_slots <$> (raw_of <$> items)) ∧
  (stage_all pl raw_of slots items).2.*1 = items.
Proof.
  revert slots. induction items as [|item items IH]; intros slots; [by rewrite app_nil_r|].
  cbn [stage_all]. rewrite stage_eq. specialize (IH (slots ++ record_slots (raw_of item))).
  destruct (stage_all _ _ _ _) as [final staged]. cbn in *. destruct IH as [-> ->].
  by rewrite <- app_assoc.
Qed.

Lemma stage_all_points {A} (raw_of : A → RawRecord) records slots items later :
  slots ++ concat (record_slots <$> (raw_of <$> items)) ++ later = concat (record_slots <$> records) →
  (∀ item, item ∈ items → raw_of item ∈ records) →
  aligned raw_of records (length slots) (decode pl (concat (record_slots <$> records)))
    (stage_all pl raw_of slots items).2.
Proof.
  revert slots. induction items as [|item items IH]; intros slots Hs Hin; [done|].
  cbn [stage_all]. pose proof (λ s2, record_slots_points slots (raw_of item) s2) as Hpts.
  rewrite !fmap_cons in Hs. cbn [concat] in Hs. rewrite <- app_assoc in Hs.
  specialize (Hpts (concat (record_slots <$> (raw_of <$> items)) ++ later)).
  rewrite stage_eq in *. cbn [snd] in Hpts. rewrite Hs in Hpts.
  specialize (IH (slots ++ record_slots (raw_of item))). rewrite <- app_assoc in IH.
  specialize (IH Hs (λ i Hi, Hin i (list_elem_of_further _ _ _ Hi))).
  destruct (stage_all _ _ _ items) as [final staged]. destruct Hpts as (P1 & P2 & P3 & P4 & P5).
  split_and!; [done..|apply Hin; by left|]. eapply aligned_weaken; [exact P5|exact IH].
Qed.

(** Some records staged together point at what the codec answers for all of them. *)
Lemma stage_all_aligned {A} (raw_of : A → RawRecord) items slots staged :
  stage_all pl raw_of [] items = (slots, staged) →
  staged.*1 = items ∧ aligned raw_of (raw_of <$> items) 0 (decode pl slots) staged.
Proof.
  intros E. destruct (stage_all_slots raw_of [] items) as [Hs Hi].
  pose proof (stage_all_points raw_of (raw_of <$> items) [] items []) as Hp.
  rewrite app_nil_r, E in Hp. rewrite E in Hs, Hi. cbn in Hs, Hi, Hp. rewrite Hs. split; [done|].
  apply Hp; [done|]. intros item. apply list_elem_of_fmap_2.
Qed.
End staging.

(** ** What a poll's records become *)

Section outcomes.
Context `{!PayloadLib, !RedactLib, !FilterLib} (pl : RecordPipeline).

(** The payloads a record shows: decoded, then masked. *)
Definition shown (raw : RawRecord) (key value : option DecodedPayload) : Prop :=
  ∃ key0 value0, decoded_as pl raw key0 value0 ∧ obfuscate pl key0 value0 = (key, value).

Definition shown_match (f : CompiledFilter) (key value : option DecodedPayload) : bool :=
  matches_text f key || matches_text f value.

(** Same bytes, same text and same schema id: a cell may have been filled and a
    rendered tree dropped. *)
Definition same_payload (p q : option DecodedPayload) : Prop :=
  dp_raw <$> q = dp_raw <$> p ∧ into_text <$> q = into_text <$> p ∧
  dp_wire_schema_id <$> q = dp_wire_schema_id <$> p.

(** A decoded record of the batch, made from [raw]. *)
Definition decoded_from (raw : RawRecord) (k : Kept) : Prop :=
  match k with
  | Pending _ => False
  | Decoded r => dr_raw r = raw ∧ dr_masked r = obfuscated pl ∧
      ∃ key value, shown raw key value ∧
        same_payload key (dr_key r) ∧ same_payload value (dr_value r) ∧
        ∀ f, pl_filter pl = Some f → shown_match f key value = true
  end.

(** What a candidate becomes: a decoded record, or nothing when the filter says no. *)
Definition candidate_result (c : SortKey * RawRecord) (o : option (SortKey * Kept)) : Prop :=
  match o with
  | Some (sort, k) => sort = c.1 ∧ decoded_from c.2 k
  | None => ∃ f key value, pl_filter pl = Some f ∧ shown c.2 key value ∧
      shown_match f key value = false
  end.

Lemma same_payload_touched p q :
  touched p q → same_payload p (drop_tree_if_rendered <$> q).
Proof.
  unfold touched, same_payload. destruct p as [p|], q as [q|]; try done. simpl.
  intros [->| ->]; by autorewrite with klens.
Qed.

Lemma passes_filter_spec key value passes key' value' :
  passes_filter pl key value = (passes, key', value') →
  same_payload key (drop_tree_if_rendered <$> key') ∧
  same_payload value (drop_tree_if_rendered <$> value') ∧
  passes = match pl_filter pl with Some f => shown_match f key value | None => true end.
Proof.
  unfold passes_filter. destruct (pl_filter pl) as [f|].
  - intros Hp. pose proof (on_payload_verdict f key value) as Hv.
    destruct (on_payload_touched f key value) as [Tk Tv]. rewrite Hp in Hv, Tk, Tv. simpl in *.
    split_and!; [by apply same_payload_touched..|done].
  - intros [= <- <- <-]. split_and!; [| |done]; apply same_payload_touched; [destruct key|destruct value]; simpl; auto.
Qed.

Lemma filter_decoded_spec records n candidates decoded :
  aligned pl (A := SortKey * RawRecord) snd records n decoded candidates →
  ∃ results, filter_decoded pl candidates decoded = omap id results ∧
    Forall2 candidate_result candidates.*1 results.
Proof.
  revert n decoded. induction candidates as [|[[sort raw] [ki vi]] candidates IH]; intros n decoded Hal.
  { exists []. split; [done|constructor]. }
  apply take_both in Hal. cbn [filter_decoded].
  destruct (take_payload decoded ki) as [decoded1 k0], (take_payload decoded1 vi) as [decoded2 v0].
  destruct Hal as [Hdec Hal]. destruct (obfuscate pl k0 v0) as [k v] eqn:Eo.
  assert (shown raw k v) as Hshown by by exists k0, v0.
  destruct (passes_filter pl k v) as [[passes k'] v'] eqn:Ep.
  apply passes_filter_spec in Ep as (Sk & Sv & Hpass).
  destruct (IH _ _ Hal) as (results & Hres & Hall). destruct passes.
  - eexists (Some _ :: results). cbn [omap list_omap id]. split; [by rewrite Hres|].
    constructor; [|done]. split; [done|]. simpl. split_and!; [done..|].
    exists k, v. split_and!; [done..|]. intros f Hf. by rewrite Hf in Hpass.
  - exists (None :: results). split; [done|]. constructor; [|done].
    simpl. destruct (pl_filter pl) as [f|]; [|done]. by exists f, k, v.
Qed.

Lemma decode_and_filter_spec records :
  ∃ results, decode_and_filter pl records = omap id results ∧
    Forall2 candidate_result records results.
Proof.
  unfold decode_and_filter. destruct records as [|r records]; [exists []; by split|].
  destruct (stage_all pl snd [] (r :: records)) as [slots candidates] eqn:E.
  apply (stage_all_aligned pl) in E as (<- & Hal). by apply filter_decoded_spec in Hal.
Qed.

(** How a record left the page's running: the raw filter or the one on its shown text. *)
Definition filtered_out (raw : RawRecord) : Prop :=
  let '(masked, screened) := screen_record pl raw in
  screened = None ∨
  screened = Some ScreenNeedsPayload ∧
    ∃ f key value, pl_filter pl = Some f ∧ shown masked key value ∧ shown_match f key value = false.

(** A batch's value, made from a polled record. *)
Definition kept_from (raw : RawRecord) (k : Kept) : Prop :=
  let '(masked, screened) := screen_record pl raw in
  screened = Some Deferred ∧ k = Pending masked ∨
  screened = Some ScreenNeedsPayload ∧ decoded_from masked k.

Definition came_from (records : list (SortKey * RawRecord)) (sort : SortKey) (k : Kept) : Prop :=
  ∃ raw, (sort, raw) ∈ records ∧ kept_from raw k.

(** What handling [records] does to a batch: it stays well formed, holds on to what
    it had, accounts for every record not filtered out, and only gains these. *)
Definition extends (b b' : RecordBatch Kept) (records : list (SortKey * RawRecord)) : Prop :=
  wf_batch b' ∧ same_settings b b' ∧
  (∀ key, accounted b key → accounted b' key) ∧
  (∀ e, e ∈ rb_entries b' → e ∈ rb_entries b ∨ came_from records (e_key e) (e_value e)).

Lemma push_all_extends b items (records : list (SortKey * RawRecord)) :
  wf_batch b → (0 < rb_limit b)%Z →
  (∀ sort k, (sort, k) ∈ items → came_from records sort k) →
  extends b (push_all b items) records ∧
  ∀ sort k, (sort, k) ∈ items → accounted (push_all b items) sort.
Proof.
  revert b. induction items as [|[sort k] items IH]; intros b Hb Hpos Hfrom.
  { split; [|by intros ? ? ?%not_elem_of_nil]. split_and!; [done..| |]; by eauto. }
  destruct (push_settings b sort k) as (El & Eo & Ed).
  destruct (IH (push b sort k)) as [(Hwf & (El' & Eo' & Ed') & Hacc & Hent) Hall].
  - by apply push_wf.
  - by rewrite El.
  - intros sort' k' Hin. apply Hfrom. by right.
  - split.
    + split; [done|]. split; [by split_and!; simpl; congruence|]. split.
      * intros key Hkey. apply Hacc. by apply push_keeps.
      * intros e He. apply Hent in He as [He|He]; [|by right].
        apply push_elem in He as [He|[<- <-]]; [by left| |done]. right. apply Hfrom. by left.
    + intros sort' k' [[= -> ->]|Hin]%elem_of_cons; [|by eapply Hall].
      apply Hacc. by apply push_accounts.
Qed.

(** What screening adds to that: the candidates still to decode. *)
Definition screens (records : list (SortKey * RawRecord)) (b b' : RecordBatch Kept)
    (candidates : list (SortKey * RawRecord)) : Prop :=
  extends b b' records ∧
  (∀ sort masked, (sort, masked) ∈ candidates → ∃ raw, (sort, raw) ∈ records ∧
    screen_record pl raw = (masked, Some ScreenNeedsPayload)) ∧
  ∀ sort raw, (sort, raw) ∈ records → accounted b' sort ∨ (screen_record pl raw).2 = None ∨
    ∃ masked, (sort, masked) ∈ candidates ∧ screen_record pl raw = (masked, Some ScreenNeedsPayload).

Lemma came_from_cons r records sort k :
  came_from records sort k → came_from (r :: records) sort k.
Proof. intros (raw & Hin & Hk). exists raw. split; [by right|done]. Qed.

Lemma came_from_head sort raw records k : kept_from raw k → came_from ((sort, raw) :: records) sort k.
Proof. intros Hk. exists raw. split; [by left|done]. Qed.

(** The first record's own effect, then the rest of the poll's. *)
Lemma screens_cons sort raw records b0 b b' candidates candidates' :
  screens records b b' candidates →
  same_settings b0 b → (∀ key, accounted b0 key → accounted b key) →
  (∀ e, e ∈ rb_entries b → e ∈ rb_entries b0 ∨ e_key e = sort ∧ kept_from raw (e_value e)) →
  (candidates' = candidates ∨ ∃ masked, candidates' = (sort, masked) :: candidates ∧
    screen_record pl raw = (masked, Some ScreenNeedsPayload)) →
  accounted b sort ∨ (screen_record pl raw).2 = None ∨
    (∃ masked, (sort, masked) ∈ candidates' ∧ screen_record pl raw = (masked, Some ScreenNeedsPayload)) →
  screens ((sort, raw) :: records) b0 b' candidates'.
Proof.
  intros ((Hwf & (El' & Eo' & Ed') & Hacc & Hent) & Hcand & Hall) (El & Eo & Ed) Hacc0 Hent0 Hc Hown.
  assert (∀ x, x ∈ candidates → x ∈ candidates') as Hsub.
  { intros x Hx. destruct Hc as [->|(m & -> & _)]; [done|by right]. }
  split; [|split].
  - split; [done|]. split; [by split_and!; congruence|]. split; [by auto|].
    intros e He. apply Hent in He as [He|He]; [|right; by apply came_from_cons].
    apply Hent0 in He as [He|[<- Hk]]; [by left|right; by apply came_from_head].
  - intros s m Hin. destruct Hc as [->|(m' & -> & Hs)].
    + destruct (Hcand s m Hin) as (r & Hr & Hm). exists r. split; [by right|done].
    + apply elem_of_cons in Hin as [[= -> ->]|Hin]; [exists raw; split; [by left|done]|].
      destruct (Hcand s m Hin) as (r & Hr & Hm). exists r. split; [by right|done].
  - intros s r [[= -> ->]|Hin]%elem_of_cons.
    + destruct Hown as [Hown|Hown]; [left; by apply Hacc|by right].
    + destruct (Hall s r Hin) as [|[|(m & Hm & Hs)]]; [by left|by right; left|].
      right; right. exists m. split; [by apply Hsub|done].
Qed.

Lemma screen_spec b records b' candidates rejected :
  wf_batch b → (0 < rb_limit b)%Z →
  screen pl b records = (b', candidates, rejected) → screens records b b' candidates.
Proof.
  revert b b' candidates rejected.
  induction records as [|[sort raw] records IH]; intros b b' candidates rejected Hb Hpos.
  { intros [= <- <- <-]. split; [split_and!; [done..| |]; by eauto|].
    split; by intros ? ? ?%not_elem_of_nil. }
  simpl. destruct (admits b sort) eqn:Hadm; simpl.
  - destruct (screen_record pl raw) as [masked [[|]|]] eqn:Escr.
    + intros E. pose proof (push_settings b sort (Pending masked)) as Hset.
      apply IH in E; [|by apply push_wf|by rewrite (proj1 Hset)].
      apply (screens_cons _ _ _ _ _ _ _ _ E); [done| | |by left|].
      * intros key. by apply push_keeps.
      * intros e [He|[<- ->]]%push_elem; [by left| |done]. right. split; [done|].
        unfold kept_from. rewrite Escr. by left.
      * left. by apply push_accounts.
    + destruct (screen pl b records) as [[b1 c1] r1] eqn:E. intros [= <- <- <-].
      apply IH in E; [|done..].
      apply (screens_cons _ _ _ _ _ _ _ _ E); [done|done|by left| |].
      * right. by exists masked.
      * right; right. exists masked. split; [by left|done].
    + intros E. apply IH in E; [|done..].
      apply (screens_cons _ _ _ _ _ _ _ _ E); [done|done|by left|by left|].
      right; left. by rewrite Escr.
  - destruct (screen pl b records) as [[b1 c1] r1] eqn:E. intros [= <- <- <-].
    apply IH in E; [|done..].
    apply (screens_cons _ _ _ _ _ _ _ _ E); [done|done|by left|by left|].
    left. by apply unadmitted_accounted.
Qed.

Lemma elem_of_omap_id {A} (x : A) (l : list (option A)) : x ∈ omap id l ↔ Some x ∈ l.
Proof.
  rewrite list_elem_of_omap. unfold id. split; [by intros (o & Ho & ->)|]. intros Hx. by exists (Some x).
Qed.

Lemma Forall2_elem {A B} (P : A → B → Prop) l k x :
  Forall2 P l k → x ∈ l → ∃ y, y ∈ k ∧ P x y.
Proof.
  induction 1 as [|x' y l k Hxy _ IH]; [by intros ?%not_elem_of_nil|].
  intros [->|Hx]%elem_of_cons; [exists y; split; [by left|done]|].
  destruct (IH Hx) as (z & Hz & HP). exists z. split; [by right|done].
Qed.

Lemma Forall2_elem_r {A B} (P : A → B → Prop) l k y :
  Forall2 P l k → y ∈ k → ∃ x, x ∈ l ∧ P x y.
Proof. intros Hf%Forall2_flip. by apply (Forall2_elem (flip P)). Qed.

(** A poll's records extend the batch; those not filtered out are accounted for. *)
Lemma admit_spec b records :
  wf_batch b → (0 < rb_limit b)%Z →
  extends b (admit_records pl b records).1 records ∧
  ∀ sort raw, (sort, raw) ∈ records → accounted (admit_records pl b records).1 sort ∨ filtered_out raw.
Proof.
  intros Hb Hpos. unfold admit_records. destruct records as [|r records].
  { simpl. split; [|by intros ? ? ?%not_elem_of_nil]. split_and!; [done..| |]; by eauto. }
  unfold batch_take. destruct (screen pl b (r :: records)) as [[b1 candidates] rejected] eqn:E.
  apply screen_spec in E as ((Hwf & (El & Eo & Ed) & Hacc & Hent) & Hcand & Hall); [|done..].
  destruct (decode_and_filter_spec candidates) as (results & -> & Hres).
  destruct (push_all_extends b1 (omap id results) (r :: records)) as [(Hwf' & (El' & Eo' & Ed') & Hacc' & Hent') Hpushed].
  - done.
  - by rewrite El.
  - intros sort k Hin%elem_of_omap_id.
    destruct (Forall2_elem_r _ _ _ _ Hres Hin) as ([sort' masked] & Hc & Hcr).
    simpl in Hcr. destruct Hcr as [-> Hdec].
    destruct (Hcand sort' masked Hc) as (raw & Hraw & Hs). exists raw. split; [done|].
    unfold kept_from. rewrite Hs. by right.
  - split.
    + split; [done|]. split; [by split_and!; simpl; congruence|]. split; [by auto|].
      intros e He. apply Hent' in He as [He|He]; [by apply Hent|by right].
    + intros sort raw Hin. destruct (Hall sort raw Hin) as [Ha|[Hn|(masked & Hm & Hs)]].
      * left. by apply Hacc'.
      * right. unfold filtered_out. destruct (screen_record pl raw) as [m v]. by left.
      * destruct (Forall2_elem _ _ _ _ Hres Hm) as ([[sort' k]|] & Ho & Hcr).
        -- left. destruct Hcr as [-> _]. apply (Hpushed sort k). by apply elem_of_omap_id.
        -- right. unfold filtered_out. rewrite Hs. right. split; [done|].
           destruct Hcr as (f & key & value & Hf & Hshown & Hmatch). by exists f, key, value.
Qed.
End outcomes.

(** ** Rendering *)

Section rendering.
Context `{!PayloadLib, !RedactLib, !FilterLib} (pl : RecordPipeline) (topic : string).

Definition rendered_from (k : Kept) (rec : Record_) : Prop :=
  match k with
  | Decoded r => rec = into_record r topic
  | Pending raw => ∃ key value, shown pl raw key value ∧
      rec = into_record (decoded_record pl raw key value) topic
  end.

(** The fields a page entry stages: none once it is decoded. *)
Definition stage_raw (k : Kept) : RawRecord :=
  match k with
  | Pending raw => raw
  | Decoded r =>
      let raw := dr_raw r in
      {| rr_partition := rr_partition raw; rr_offset := rr_offset raw;
         rr_timestamp := rr_timestamp raw; rr_key := None; rr_value := None;
         rr_headers := rr_headers raw |}
  end.

Lemma stage_page_eq slots page : stage_page pl slots page = stage_all pl stage_raw slots page.
Proof.
  revert slots. induction page as [|[raw|r] page IH]; intros slots; simpl; [done| |by rewrite IH].
  destruct (stage pl slots raw) as [slots' indices]. by rewrite IH.
Qed.

Lemma render_staged_spec records n staged decoded :
  aligned pl stage_raw records n decoded staged →
  Forall2 rendered_from staged.*1 (render_staged pl topic staged decoded).
Proof.
  revert n decoded. induction staged as [|[[raw|r] [ki vi]] staged IH]; intros n decoded Hal.
  - constructor.
  - apply take_both in Hal. cbn [render_staged].
    destruct (take_payload decoded ki) as [decoded1 k0], (take_payload decoded1 vi) as [decoded2 v0].
    destruct Hal as [Hdec Hal]. destruct (obfuscate pl k0 v0) as [k v] eqn:Eo.
    csimpl. constructor; [|by eapply IH]. exists k, v. split; [by exists k0, v0|done].
  - destruct Hal as (_ & _ & _ & _ & _ & Hal). simpl. constructor; [done|]. by eapply IH.
Qed.

(** One rendered record per page entry, in the page's order. *)
Lemma render_page_spec page : Forall2 rendered_from page (render_page pl page topic).
Proof.
  unfold render_page. destruct page as [|k page]; [constructor|].
  destruct (stage_page pl [] (k :: page)) as [slots staged] eqn:E. rewrite stage_page_eq in E.
  apply (stage_all_aligned pl) in E as (<- & Hal). by eapply render_staged_spec.
Qed.

(** *** What a shown record says of the one that was polled *)

Lemma header_text_verbatim (headers : list (string * option string)) :
  forallb (λ header : string * (string * bool), header.2.2)
    ((λ header, (header.1, header_text header.2)) <$> headers) = true →
  headers = (λ header : string * string, (header.1, Some header.2)) <$>
    ((λ header : string * (string * bool), (header.1, header.2.1)) <$>
      ((λ header, (header.1, header_text header.2)) <$> headers)).
Proof.
  induction headers as [|[name value] headers IH]; [done|]. csimpl.
  intros [Hv Hall]%andb_true_iff. rewrite <- IH by done. f_equal. f_equal.
  unfold header_text in *. destruct value as [bytes|]; [|done].
  by destruct (utf8_valid bytes).
Qed.

Lemma fresh_verbatim fallback bytes p q :
  fresh_payload pl fallback bytes p → dp_raw <$> q = dp_raw <$> p →
  (∀ q', q = Some q' → is_verbatim q' = true) → into_text <$> q = bytes.
Proof.
  intros [<- _] Hraw Hv. rewrite <- Hraw. destruct q as [q|]; [|done]. simpl. f_equal.
  apply is_verbatim_text. by apply Hv.
Qed.

Lemma all_verbatim_spec key value :
  all_verbatim [key; value] = true →
  (∀ p, key = Some p → is_verbatim p = true) ∧ (∀ p, value = Some p → is_verbatim p = true).
Proof.
  unfold all_verbatim. destruct key as [k|], value as [v|]; simpl;
    rewrite ?andb_true_r; intros Hv; split; intros ? Heq; simplify_eq; try done;
    by apply andb_true_iff in Hv as [? ?].
Qed.

(** Without anything to hide in payloads, masking leaves an unframed field's text. *)
Lemma unframed_text fallback bytes p field :
  fresh_payload pl fallback (Some bytes) (Some p) →
  decodes pl && needs_decode bytes fallback = false →
  utf8_valid bytes = true →
  (∀ o, pl_obfuscator pl = Some o → hides_payload o = false) →
  into_text <$> match pl_obfuscator pl with Some o => apply o field (Some p) | None => Some p end
    = Some bytes.
Proof.
  intros [[= Hraw] Hfresh] Hframed Hutf Hhides. destruct (Hfresh p eq_refl) as (Htext & _ & Hjson).
  rewrite Hraw in Hjson. specialize (Hjson Hframed).
  assert (into_text p = bytes) as Ht.
  { unfold into_text, render, render_raw. rewrite Htext, Hjson, Hraw. by apply from_utf8_lossy_valid. }
  destruct (pl_obfuscator pl) as [o|] eqn:Eo; [|simpl; by rewrite Ht].
  specialize (Hhides o eq_refl). unfold hides_payload in Hhides.
  rewrite !orb_false_iff, !bool_decide_eq_false in Hhides.
  destruct Hhides as [[[Hf Hp] Hk] Hv]. rewrite apply_text.
  assert (whole o field = None) as ->.
  { destruct field; simpl; by apply eq_None_not_Some. }
  simpl. unfold edited_text, rewrite_text, masks_undecoded. rewrite Hjson.
  destruct (to_patterns o); [|by destruct Hp].
  assert (bool_decide (to_fields o ≠ []) = false) as -> by by apply bool_decide_eq_false.
  simpl. f_equal. by destruct field.
Qed.

Definition all_utf8 (raw : RawRecord) : Prop :=
  (∀ b, rr_key raw = Some b → utf8_valid b = true) ∧
  (∀ b, rr_value raw = Some b → utf8_valid b = true).

Lemma on_raw_pass f key value :
  on_raw f key value = Pass ↔
  ∃ field, (key = Some field ∨ value = Some field) ∧ rf_framed field = false ∧
    matches_bytes f (rf_bytes field) = true.
Proof.
  unfold on_raw. rewrite on_fields_spec.
  destruct (existsb _ (omap id [key; value])) eqn:E.
  - apply existsb_exists in E as (field & Hin & Hm). apply andb_true_iff in Hm as [Hfr Hm].
    apply negb_true_iff in Hfr. split; [|done]. intros _. exists field. split; [|done].
    destruct key as [k|], value as [v|]; simpl in Hin; naive_solver.
  - split; [by destruct (false || _)|]. intros (field & Hin & Hfr & Hm).
    rewrite <- not_true_iff_false in E. destruct E. apply existsb_exists. exists field.
    rewrite Hfr, Hm. split; [|done]. destruct key as [k|], value as [v|]; simpl; naive_solver.
Qed.

(** A record kept on its raw bytes still matches by what it shows. *)
Lemma deferred_match raw masked f key value :
  screen_record pl raw = (masked, Some Deferred) → pl_filter pl = Some f → all_utf8 raw →
  shown pl masked key value → shown_match f key value = true.
Proof.
  unfold screen_record. intros Hscr Hf [Huk Huv] (k0 & v0 & [Hk Hv]%decoded_fresh & Ho). rewrite Hf in Hscr.
  assert (∀ r, rr_key (match pl_obfuscator pl with
    | Some o => with_headers r (obfuscate_headers o (rr_headers r)) | None => r end) = rr_key r ∧
    rr_value (match pl_obfuscator pl with
    | Some o => with_headers r (obfuscate_headers o (rr_headers r)) | None => r end) = rr_value r) as Hkv.
  { intros r. by destruct (pl_obfuscator pl). }
  destruct (match pl_obfuscator pl with Some o => hides_payload o | None => false end) eqn:Eh; [done|].
  set (r := match pl_obfuscator pl with
    | Some o => with_headers raw (obfuscate_headers o (rr_headers raw)) | None => raw end) in *.
  destruct (Hkv raw) as [Ek Ev]. fold r in Ek, Ev.
  destruct (on_raw f _ _) eqn:Eraw; [|done|done]. injection Hscr as <-.
  apply on_raw_pass in Eraw as (field & Hin & Hfr & Hm).
  assert (∀ o, pl_obfuscator pl = Some o → hides_payload o = false) as Hhides.
  { intros o Eo. by rewrite Eo in Eh. }
  unfold shown_match, obfuscate in *. apply orb_true_iff. destruct Hin as [Hin|Hin].
  - left. unfold raw_field in Hin. destruct (rr_key r) as [b|] eqn:Eb; [|done]. injection Hin as <-.
    simpl in Hfr, Hm. destruct k0 as [p|]; [|by destruct Hk].
    pose proof (unframed_text None b p Key Hk Hfr (Huk b ltac:(congruence)) Hhides) as Ht.
    destruct (pl_obfuscator pl) as [o|]; injection Ho as <- <-.
    + unfold matches_text. destruct (apply o Key (Some p)); [|done]. simpl in Ht. by injection Ht as ->.
    + simpl in Ht |- *. by injection Ht as ->.
  - right. unfold raw_field in Hin. destruct (rr_value r) as [b|] eqn:Eb; [|done]. injection Hin as <-.
    simpl in Hfr, Hm. destruct v0 as [p|]; [|by destruct Hv].
    pose proof (unframed_text _ b p Value_ Hv Hfr (Huv b ltac:(congruence)) Hhides) as Ht.
    destruct (pl_obfuscator pl) as [o|]; injection Ho as <- <-.
    + unfold matches_text. destruct (apply o Value_ (Some p)); [|done]. simpl in Ht. by injection Ht as ->.
    + simpl in Ht |- *. by injection Ht as ->.
Qed.
End rendering.

(** ** From polls to a page *)

Section page.
Context `{!PayloadLib, !RedactLib, !FilterLib} (pl : RecordPipeline) (topic : string).

(** A page record [rec] shows the polled record [raw]. *)
Definition shows (raw : RawRecord) (rec : Record_) : Prop :=
  let masked := (screen_record pl raw).1 in
  ∃ key value, shown pl masked key value ∧
    rec_partition rec = rr_partition raw ∧ rec_offset rec = rr_offset raw ∧
    rec_key rec = into_text <$> key ∧ rec_value rec = into_text <$> value ∧
    rec_headers rec = (λ header, (header.1, (header_text header.2).1)) <$> rr_headers masked ∧
    (rec_verbatim rec = true → pl_obfuscator pl = None ∧
      rec_key rec = rr_key raw ∧ rec_value rec = rr_value raw ∧
      rr_headers raw = (λ header, (header.1, Some header.2)) <$> rec_headers rec) ∧
    ∀ f, pl_filter pl = Some f → (screen_record pl raw).2 = Some ScreenNeedsPayload ∨ all_utf8 raw →
      shown_match f key value = true.

Lemma screen_record_raw raw :
  rr_partition (screen_record pl raw).1 = rr_partition raw ∧
  rr_offset (screen_record pl raw).1 = rr_offset raw ∧
  rr_key (screen_record pl raw).1 = rr_key raw ∧
  rr_value (screen_record pl raw).1 = rr_value raw ∧
  (pl_obfuscator pl = None → (screen_record pl raw).1 = raw).
Proof.
  unfold screen_record.
  repeat match goal with
  | |- context [match ?x with _ => _ end] => destruct x eqn:?; simpl
  end; done.
Qed.

Lemma into_record_verbatim raw k v q key value :
  decoded_as pl raw k v → obfuscate pl k v = (key, value) →
  dr_raw q = raw → dr_masked q = obfuscated pl →
  same_payload key (dr_key q) → same_payload value (dr_value q) →
  rec_verbatim (into_record q topic) = true →
  pl_obfuscator pl = None ∧ into_text <$> dr_key q = rr_key raw ∧
  into_text <$> dr_value q = rr_value raw ∧
  rr_headers raw = (λ header, (header.1, Some header.2)) <$> rec_headers (into_record q topic).
Proof.
  intros [Hk Hv]%decoded_fresh Hobf Hraw Hmask (Sk & _) (Sv & _). simpl.
  rewrite !andb_true_iff, negb_true_iff, Hmask. intros [[Hm Hh] Hall].
  unfold obfuscated in Hm. apply bool_decide_eq_false in Hm.
  assert (pl_obfuscator pl = None) as Hnone by by apply eq_None_not_Some.
  unfold obfuscate in Hobf. rewrite Hnone in Hobf. injection Hobf as <- <-.
  apply all_verbatim_spec in Hall as [Vk Vv]. split; [done|].
  split; [by eapply fresh_verbatim|]. split; [by eapply fresh_verbatim|].
  rewrite Hraw in *. by apply header_text_verbatim.
Qed.

Lemma into_record_headers r :
  rec_headers (into_record r topic) =
  (λ header, (header.1, (header_text header.2).1)) <$> rr_headers (dr_raw r).
Proof. cbn [rec_headers into_record]. by rewrite <- list_fmap_compose. Qed.

Lemma rendered_shows raw k rec :
  kept_from pl raw k → rendered_from pl topic k rec → shows raw rec.
Proof.
  unfold kept_from, shows. pose proof (screen_record_raw raw) as (Ep & Eo & Ek & Ev & Enone).
  pose proof (λ f key value, deferred_match pl raw (screen_record pl raw).1 f key value) as Hdef.
  destruct (screen_record pl raw) as [masked verdict]. simpl in *.
  intros [[-> ->]|[-> Hdec]].
  - intros (key & value & Hshown & ->). exists key, value. pose proof Hshown as (k0 & v0 & Hd & Hob).
    split_and!; try done.
    + apply into_record_headers.
    + intros Hv. destruct (into_record_verbatim masked k0 v0 (decoded_record pl masked key value) key value)
        as (Hn & Hk' & Hv' & Hh'); try done. rewrite <- Ek, <- Ev, <- (Enone Hn). done.
    + intros f Hf [|Hutf]; [done|]. by apply (Hdef f).
  - destruct k as [|q]; [done|]. intros ->.
    destruct Hdec as (Hraw & Hmask & key & value & Hshown & Sk & Sv & Hm).
    exists key, value. pose proof Hshown as (k0 & v0 & Hd & Hob).
    split_and!; try done; simpl.
    + by rewrite Hraw.
    + by rewrite Hraw.
    + by destruct Sk as (_ & -> & _).
    + by destruct Sv as (_ & -> & _).
    + rewrite <- Hraw. apply into_record_headers.
    + intros Hv. destruct (into_record_verbatim masked k0 v0 q key value)
        as (Hn & Hk' & Hv' & Hh'); try done. rewrite <- Ek, <- Ev, <- (Enone Hn). done.
    + intros f Hf _. by apply Hm.
Qed.

(** Every value of a batch fed by polls is a polled record that was not filtered out. *)
Lemma admit_all_extends b polls :
  wf_batch b → (0 < rb_limit b)%Z →
  extends pl b (admit_all pl b polls) (concat polls) ∧
  ∀ sort raw, (sort, raw) ∈ concat polls →
    accounted (admit_all pl b polls) sort ∨ filtered_out pl raw.
Proof.
  revert b. induction polls as [|records polls IH]; intros b Hb Hpos.
  { split; [split_and!; [done..| |]; by eauto|by intros ? ? ?%not_elem_of_nil]. }
  destruct (admit_spec pl b records Hb Hpos) as [(Hwf & (El & Eo & Ed) & Hacc & Hent) Hall].
  destruct (IH (admit_records pl b records).1) as [(Hwf' & (El' & Eo' & Ed') & Hacc' & Hent') Hall'].
  - done.
  - by rewrite El.
  - assert (∀ r sort k, came_from pl r sort k → (∀ x, x ∈ r → x ∈ records ++ concat polls) →
      came_from pl (records ++ concat polls) sort k) as Hmono.
    { intros r sort k (raw & Hin & Hk) Hsub. exists raw. split; [by apply Hsub|done]. }
    split; [split; [done|split; [by split_and!; simpl; congruence|split; [by simpl; auto|]]]|].
    + intros e He. apply Hent' in He as [He|He].
      * apply Hent in He as [He|He]; [by left|right].
        eapply Hmono; [exact He|]. intros x Hx. apply elem_of_app. by left.
      * right. eapply Hmono; [exact He|]. intros x Hx. apply elem_of_app. by right.
    + intros sort raw [Hin|Hin]%elem_of_app; [|by apply Hall'].
      destruct (Hall sort raw Hin) as [Ha|]; [left; by apply Hacc'|by right].
Qed.
End page.

(** ** Properties *)

Section properties.
Context `{!PayloadLib, !RedactLib, !FilterLib}.


(** Nothing is lost on the way: a polled record that is neither filtered out nor
    in the batch at the end was beaten, the batch being full of records ranked no
    worse. *)
Theorem admit_loses_nothing (pl : RecordPipeline) limit order direction polls sort raw :
  (0 < limit)%Z → (sort, raw) ∈ concat polls →
  accounted (admit_all pl (batch_new limit order direction) polls) sort ∨ filtered_out pl raw.
Proof. intros Hpos Hin. by eapply admit_all_extends; [apply wf_batch_new; lia| |]. Qed.

(** A filter is no oracle for what the policy hides: once a rule masks payloads,
    screening never looks at a record's key or value, so two records that differ only
    there are screened alike. *)
Theorem hidden_payload_not_screened (pl : RecordPipeline) o raw key value :
  pl_obfuscator pl = Some o → hides_payload o = true →
  (screen_record pl {| rr_partition := rr_partition raw; rr_offset := rr_offset raw;
     rr_timestamp := rr_timestamp raw; rr_key := key; rr_value := value;
     rr_headers := rr_headers raw |}).2 = (screen_record pl raw).2.
Proof. intros Ho Hh. unfold screen_record. rewrite Ho, Hh. by destruct (pl_filter pl). Qed.

(** A page has one record per entry of the batch, in the batch's order. *)
Theorem render_page_order (pl : RecordPipeline) topic page :
  length (render_page pl page topic) = length page ∧
  (λ rec, (rec_partition rec, rec_offset rec)) <$> render_page pl page topic =
  (λ k, (rr_partition (kept_raw k), rr_offset (kept_raw k))) <$> page.
Proof.
  pose proof (render_page_spec pl topic page) as Hf. split; [by symmetry; eapply Forall2_length|].
  induction Hf as [|k rec page recs Hk _ IH]; [done|]. csimpl. rewrite IH. f_equal.
  destruct k as [raw|r]; simpl in Hk; [|by subst]. by destruct Hk as (key & value & _ & ->).
Qed.
End properties.

(** ** Witnesses *)

Section witnesses.
#[local] Existing Instances sample_payload_lib sample_redact_lib sample_filter_lib.

Definition sample_filter : CompiledFilter :=
  {| needle := "card"; matcher := contains_ignoring_case "card" |}.

Definition sample_pipeline : RecordPipeline :=
  {| pl_codec := None; pl_filter := Some sample_filter; pl_obfuscator := None;
     pl_fallback_schema_id := None |}.

Definition sample_polls : list (list (SortKey * RawRecord)) :=
  [[({| sk_timestamp := 5; sk_partition := 0; sk_offset := 1 |},
     {| rr_partition := 0; rr_offset := 1; rr_timestamp := 5; rr_key := Some "k";
        rr_value := Some "a CARD"; rr_headers := [("h", Some "v")] |});
    ({| sk_timestamp := 6; sk_partition := 0; sk_offset := 2 |},
     {| rr_partition := 0; rr_offset := 2; rr_timestamp := 6; rr_key := None;
        rr_value := Some "cash"; rr_headers := [] |})]]%Z.


Lemma admit_loses_nothing_witness :
  ∃ sort raw, (sort, raw) ∈ concat sample_polls ∧
  (accounted (admit_all sample_pipeline (batch_new 1 Newest Forward) sample_polls) sort ∨
   filtered_out sample_pipeline raw).
Proof.
  eexists _, _. split; [vm_compute; by left|].
  apply (admit_loses_nothing sample_pipeline 1 Newest Forward sample_polls); [done|]. vm_compute. by left.
Defined.

Lemma hidden_payload_not_screened_witness :
  let o := compile_rule {| mac_key := "k" |} (sample_rule _) in
  let pl := {| pl_codec := None; pl_filter := Some sample_filter; pl_obfuscator := Some o;
               pl_fallback_schema_id := None |} in
  let raw := {| rr_partition := 0; rr_offset := 1; rr_timestamp := 5; rr_key := Some "k";
                rr_value := Some "a CARD"; rr_headers := [] |}%Z in
  (screen_record pl {| rr_partition := rr_partition raw; rr_offset := rr_offset raw;
     rr_timestamp := rr_timestamp raw; rr_key := None; rr_value := Some "cash";
     rr_headers := rr_headers raw |}).2 = (screen_record pl raw).2.
Proof. intros o pl raw. by apply (hidden_payload_not_screened pl o raw). Defined.
End witnesses.
