(* ===== verification/Session.v ===== *)
(** [src/kafka/scan/session.rs], with [RecordPage] of [src/kafka/scan.rs]: one scan
    over a consumer, and the passes that fill a page. What the consumer and the
    clock do is an environment the operations run against: the records each poll
    returns, the positions and lags it reports, and when the deadline passes. *)

From S2P Require Import Prelude Text Utf8 Errors Metadata Cursor Plan Batch Payload Filter Query.
From S2P Require Import Obfuscate Pipeline.

(** ** The environment *)

(** What [position] and [lags] answer after an empty poll; a timeout is no answer. *)
Record IdleReport : Type := { ir_position : Z → option Z; ir_lags : gmap Z Z }.

(** One turn of the loop: the deadline before the poll, the deadline during it, a
    failed poll, or the polled records with the report that follows when there are
    none. *)
Inductive PollEvent : Type :=
  | DeadlinePassed
  | PollTimedOut
  | PollFailed (error : KafkaError)
  | Polled (records : list RawRecord) (report : IdleReport).

(** One pass: the answer to [reassign] ([None] when it timed out), the polls, and
    whether the deadline has passed when the pass is over. *)
Record PassEnv : Type := {
  pe_reassign : option (result KafkaError ());
  pe_polls : list PollEvent;
  pe_expired : bool;
}.

(** The calls a scan makes on its consumer, in order. *)
Inductive ConsumerCall : Type :=
  | CReassign (windows : list PartitionWindow)
  | CPoll
  | CPause (partitions : list Z)
  | CSeekToEnd (windows : list PartitionWindow).

(** ** The scan of one set of windows *)

Record ScanOutcome : Type := {
  so_covered : list PartitionWindow;
  so_complete : bool;
  so_scanned : bool;
}.

Record WindowScan : Type := {
  ws_remaining : gmap Z (Z * Z);
  ws_completed : gset Z;
  ws_newest : gmap Z Z;
  ws_planned : nat;
}.

Definition scan_new (windows : list PartitionWindow) : WindowScan :=
  let remaining := collect ((λ w, (pw_partition w, (pw_start w, pw_end w))) <$>
    filter (λ w, window_is_empty w = false) windows) in
  {| ws_remaining := remaining; ws_completed := ∅; ws_newest := ∅; ws_planned := size remaining |}.

Definition scan_finish (scan : WindowScan) (partition : Z) : WindowScan :=
  match ws_remaining scan !! partition with
  | Some _ =>
      {| ws_remaining := delete partition (ws_remaining scan);
         ws_completed := {[ partition ]} ∪ ws_completed scan;
         ws_newest := ws_newest scan; ws_planned := ws_planned scan |}
  | None => scan
  end.

Definition scan_accept (scan : WindowScan) (partition offset : Z) : WindowScan * bool :=
  match ws_remaining scan !! partition with
  | None => (scan, false)
  | Some (start, end_) =>
      let accepted := (start <=? offset)%Z && (offset <? end_)%Z in
      ((if (i64_sub end_ 1 <=? offset)%Z then scan_finish scan partition else scan), accepted)
  end.

(** CreateTime need not rise with offset: a record ranks as no older than the ones
    before it in its window. *)
Definition scan_rank (scan : WindowScan) (raw : RawRecord) : WindowScan * SortKey :=
  let newest := default (rr_timestamp raw) (ws_newest scan !! rr_partition raw) in
  let newest := Z.max newest (rr_timestamp raw) in
  ({| ws_remaining := ws_remaining scan; ws_completed := ws_completed scan;
      ws_newest := <[rr_partition raw := newest]> (ws_newest scan);
      ws_planned := ws_planned scan |},
   {| sk_timestamp := newest; sk_partition := rr_partition raw; sk_offset := rr_offset raw |}).

Definition scan_finished (scan : WindowScan) (windows : list PartitionWindow) : list PartitionWindow :=
  filter (λ w, pw_partition w ∈ ws_completed scan) windows.

Definition abandoned (w : PartitionWindow) (walk : RecordOrder) : PartitionWindow :=
  let boundary := match walk with Newest => pw_end w | Oldest => pw_start w end in
  {| pw_partition := pw_partition w; pw_start := boundary; pw_end := boundary |}.

Definition scan_outcome (scan : WindowScan) (windows : list PartitionWindow) (walk : RecordOrder)
    : ScanOutcome :=
  {| so_covered := (λ w, if decide (pw_partition w ∈ ws_completed scan) then w else abandoned w walk)
       <$> windows;
     so_complete := bool_decide (size (ws_completed scan) = ws_planned scan);
     so_scanned := bool_decide (ws_completed scan ≠ ∅) |}.

(** The loop of [ingest]: the records inside unfinished windows with their ranks,
    and the partitions to pause. *)
Fixpoint ingest_polled (scan : WindowScan) (polled : list RawRecord)
    : WindowScan * list (SortKey * RawRecord) * list ConsumerCall :=
  match polled with
  | [] => (scan, [], [])
  | raw :: polled =>
      let partition := rr_partition raw in
      match ws_remaining scan !! partition with
      | None => ingest_polled scan polled
      | Some _ =>
          let '(scan, accepted) := scan_accept scan partition (rr_offset raw) in
          let paused :=
            match ws_remaining scan !! partition with
            | None => [CPause [partition]] | Some _ => [] end in
          if negb accepted then
            let '(scan, ranked, calls) := ingest_polled scan polled in
            (scan, ranked, paused ++ calls)
          else
            let '(scan, key) := scan_rank scan raw in
            let '(scan, ranked, calls) := ingest_polled scan polled in
            (scan, (key, raw) :: ranked, paused ++ calls)
      end
  end.

(** A partition the consumer reports as read to its window's end, or with no lag. *)
Definition idle_done (report : IdleReport) (partition end_ : Z) : bool :=
  match ir_position report partition with
  | None => false
  | Some position =>
      (end_ <=? position)%Z || bool_decide (ir_lags report !! partition = Some 0%Z)
  end.

(** An empty poll alone is not EOF: a partition is only finished once its position
    or lag says so. *)
Definition settle_idle (scan : WindowScan) (report : IdleReport) : WindowScan * list ConsumerCall :=
  let done := omap (λ entry : Z * (Z * Z),
    if idle_done report entry.1 entry.2.2 then Some entry.1 else None)
    (map_to_list (ws_remaining scan)) in
  (foldl scan_finish scan done, [CPause done]).

Section session.
Context `{!PayloadLib, !RedactLib, !FilterLib, !TimestampLib}.

Record ScanSession : Type := {
  ss_pipeline : RecordPipeline;
  ss_walk : RecordOrder;
  ss_assigned : list PartitionWindow;
}.

(** The polling loop. The environment's last turn is the deadline's. *)
Fixpoint run_polls (s : ScanSession) (windows : list PartitionWindow) (scan : WindowScan)
    (batch : RecordBatch Kept) (polls : list PollEvent)
    : RecordBatch Kept * result KafkaError WindowScan * list ConsumerCall :=
  if decide (ws_remaining scan = ∅) then (batch, Ok scan, [])
  else
    match polls with
    | [] | DeadlinePassed :: _ => (batch, Ok scan, [])
    | PollTimedOut :: _ => (batch, Ok scan, [CPoll])
    | PollFailed error :: _ => (batch, Err error, [CPoll])
    | Polled [] report :: polls =>
        let '(scan, calls) := settle_idle scan report in
        let seek := CSeekToEnd (scan_finished scan windows) in
        let '(batch, r, more) := run_polls s windows scan batch polls in
        (batch, r, CPoll :: calls ++ seek :: more)
    | Polled records _ :: polls =>
        let '(scan, ranked, calls) := ingest_polled scan records in
        let '(batch, _) := admit_records (ss_pipeline s) batch ranked in
        let '(batch, r, more) := run_polls s windows scan batch polls in
        (batch, r, CPoll :: calls ++ more)
    end.

Definition run (s : ScanSession) (windows : list PartitionWindow) (batch : RecordBatch Kept)
    (env : PassEnv)
    : ScanSession * RecordBatch Kept * result KafkaError ScanOutcome * list ConsumerCall :=
  let scan := scan_new windows in
  if decide (ws_planned scan = 0) then (s, batch, Ok (scan_outcome scan windows (ss_walk s)), [])
  else
    let s' := {| ss_pipeline := ss_pipeline s; ss_walk := ss_walk s; ss_assigned := windows |} in
    let polled :=
      let '(batch, r, calls) := run_polls s windows scan batch (pe_polls env) in
      (s', batch, (λ scan, scan_outcome scan windows (ss_walk s)) <$> r, calls) in
    if decide (ss_assigned s = windows) then polled
    else
      match pe_reassign env with
      | None => (s, batch, Ok (scan_outcome scan windows (ss_walk s)), [CReassign windows])
      | Some (Err error) => (s, batch, Err error, [CReassign windows])
      | Some (Ok _) => let '(s, b, r, calls) := polled in (s, b, r, CReassign windows :: calls)
      end.

(** ** A page *)

Record RecordPage : Type := {
  rp_records : list Record_;
  rp_complete : bool;
  rp_obfuscated : bool;
  rp_next_cursor : option string;
  rp_prev_cursor : option string;
}.

Definition empty_page : RecordPage :=
  {| rp_records := []; rp_complete := true; rp_obfuscated := false;
     rp_next_cursor := None; rp_prev_cursor := None |}.

Record PageRequest : Type := { pr_query : RecordQuery; pr_limit : Z; pr_take : Z }.

Definition page_request (query : RecordQuery) (limits : RecordLimits)
    : result QueryError PageRequest :=
  limit ← clamp_limit limits (rq_limit query);
  Ok {| pr_query := query; pr_limit := limit;
        pr_take := window_take limits limit (searching query) |}.

Definition with_cursor (q : RecordQuery) (c : option RecordCursor) : RecordQuery :=
  {| rq_topic := rq_topic q; rq_partitions := rq_partitions q; rq_filter := rq_filter q;
     rq_timestamps := rq_timestamps q; rq_limit := rq_limit q; rq_order := rq_order q;
     rq_cursor := c; rq_schema_id := rq_schema_id q |}.

Definition set_cursor (r : PageRequest) (c : option RecordCursor) : PageRequest :=
  {| pr_query := with_cursor (pr_query r) c; pr_limit := pr_limit r; pr_take := pr_take r |}.

(** The cluster session's side: its codec and masking policy, whether the consumer
    opens ([None] when it timed out), and each pass, given the windows it reads. *)
Record FetchEnv : Type := {
  fe_codec : option PayloadCodec;
  fe_policy : option ObfuscationPolicy;
  fe_open : option (result KafkaError ());
  fe_pass : nat → list PartitionWindow → PassEnv;
}.

Definition topic_obfuscator (env : FetchEnv) (topic : string) : option TopicObfuscator :=
  policy ← fe_policy env; for_topic policy topic.

Definition scan_open (env : FetchEnv) (query : RecordQuery) (walk : RecordOrder)
    (windows : list PartitionWindow) : result KafkaError ScanSession :=
  match fe_open env with
  | None => Err Timeout_
  | Some (Err error) => Err error
  | Some (Ok _) =>
      Ok {| ss_pipeline :=
              {| pl_codec := fe_codec env; pl_filter := rq_filter query;
                 pl_obfuscator := topic_obfuscator env (rq_topic query);
                 pl_fallback_schema_id := rq_schema_id query |};
            ss_walk := walk; ss_assigned := windows |}
  end.

Definition MAX_FILTER_PASSES : nat := 64.

Definition edges (found : list Kept) : list (Z * Z) :=
  (λ k, (rr_partition (kept_raw k), rr_offset (kept_raw k))) <$> found.

Record FetchState : Type := {
  fs_scan : ScanSession;
  fs_cursor : option RecordCursor;
  fs_windows : list PartitionWindow;
  fs_kept : list Kept;
  fs_complete : bool;
  fs_scanned : bool;
}.

(** The passes from number [pass] on, [n] at most. *)
Fixpoint passes (r : PageRequest) (span : LogSpan) (env : FetchEnv) (n pass : nat)
    (st : FetchState) : result KafkaError FetchState :=
  match n with
  | O => Ok st
  | S n =>
      let query := pr_query r in
      let walk := query_walk query in
      let fresh := {| order := rq_order query; remaining := start span walk |} in
      let from := default fresh (fs_cursor st) in
      let windows :=
        if decide (pass = 0) then fs_windows st else windows span walk (pr_take r) (fs_cursor st) in
      if bool_decide (pass ≠ 0) && bool_decide (windows = []) then
        Ok {| fs_scan := fs_scan st; fs_cursor := None; fs_windows := windows;
              fs_kept := fs_kept st; fs_complete := fs_complete st; fs_scanned := fs_scanned st |}
      else
        let remaining := usize_sub (pr_limit r) (len (fs_kept st)) in
        let batch := batch_new remaining (rq_order query) (query_direction query) in
        let pass_env := fe_pass env pass windows in
        let '(scan, batch, outcome, _) := run (fs_scan st) windows batch pass_env in
        outcome ← outcome;
        let found := into_sorted batch in
        let filled := (remaining <=? len found)%Z in
        let next := advance span from (so_covered outcome) (edges found) remaining in
        let st := {| fs_scan := scan; fs_cursor := next; fs_windows := windows;
                     fs_kept := fs_kept st ++ found;
                     fs_complete := fs_complete st && so_complete outcome;
                     fs_scanned := fs_scanned st || so_scanned outcome |} in
        if filled || bool_decide (next = None) || pe_expired pass_env then Ok st
        else passes r span env n (S pass) st
  end.

Definition max_passes (query : RecordQuery) : nat :=
  if searching query then MAX_FILTER_PASSES else 1.

Definition finish_page (r : PageRequest) (span : LogSpan) (st : FetchState)
    : result KafkaError RecordPage :=
  let query := pr_query r in
  if negb (fs_scanned st) && bool_decide (fs_kept st = []) then Err Timeout_
  else
    let kept := sort_by (λ a b, cmp_for_order (raw_sort_key (kept_raw a))
      (raw_sort_key (kept_raw b)) (rq_order query)) (fs_kept st) in
    let pl := ss_pipeline (fs_scan st) in
    let near := opened ← rq_cursor query; rewind span opened in
    let '(next_cursor, prev_cursor) :=
      match query_direction query with
      | Forward => (fs_cursor st, near)
      | Backward => (near, fs_cursor st)
      end in
    Ok {| rp_records := render_page pl kept (rq_topic query);
          rp_complete := fs_complete st;
          rp_obfuscated := obfuscated pl;
          rp_next_cursor := to_string <$> next_cursor;
          rp_prev_cursor := to_string <$> prev_cursor |}.

Definition fetch (r : PageRequest) (span : LogSpan) (env : FetchEnv)
    : result KafkaError RecordPage :=
  let query := pr_query r in
  let walk := query_walk query in
  match windows span walk (pr_take r) (rq_cursor query) with
  | [] =>
      Ok {| rp_records := rp_records empty_page; rp_complete := rp_complete empty_page;
            rp_obfuscated := bool_decide (is_Some (topic_obfuscator env (rq_topic query)));
            rp_next_cursor := rp_next_cursor empty_page;
            rp_prev_cursor := rp_prev_cursor empty_page |}
  | opened =>
      scan ← scan_open env query walk opened;
      st ← passes r span env (max_passes query) 0
             {| fs_scan := scan; fs_cursor := rq_cursor query; fs_windows := opened;
                fs_kept := []; fs_complete := true; fs_scanned := false |};
      finish_page r span st
  end.
End session.

(** ** What a scan reads

    The log holds at most one record at an offset of a partition. A consumer is
    faithful to it when it returns each partition's records of a window in offset
    order, skipping none. *)

Section scan_spec.
Context (log : RawRecord → Prop).

Definition same_partition (r raw : RawRecord) : Prop := rr_partition r = rr_partition raw.

Definition log_functional : Prop :=
  ∀ r1 r2, log r1 → log r2 → same_partition r1 r2 → rr_offset r1 = rr_offset r2 → r1 = r2.

Definition in_range (se : Z * Z) (raw : RawRecord) : Prop := (se.1 ≤ rr_offset raw < se.2)%Z.

(** [raw] may follow the records [before] it. *)
Definition follows (W : gmap Z (Z * Z)) (before : list RawRecord) (raw : RawRecord) : Prop :=
  log raw ∧
  (∀ r, r ∈ before → same_partition r raw → (rr_offset r < rr_offset raw)%Z) ∧
  ∀ se r, W !! rr_partition raw = Some se → log r → same_partition r raw →
    in_range se r → (rr_offset r < rr_offset raw)%Z → r ∈ before.

Fixpoint faithful (W : gmap Z (Z * Z)) (before records : list RawRecord) : Prop :=
  match records with
  | [] => True
  | raw :: records => follows W before raw ∧ faithful W (before ++ [raw]) records
  end.

(** What the consumer's position and lag mean: its polls gave out every record of the window
    below the position, and the whole window when nothing lags. *)
Definition report_sound (W : gmap Z (Z * Z)) (before : list RawRecord) (report : IdleReport) : Prop :=
  ∀ p se r position, W !! p = Some se → ir_position report p = Some position →
    log r → rr_partition r = p → in_range se r →
    (rr_offset r < position)%Z ∨ ir_lags report !! p = Some 0%Z → r ∈ before.

(** A report finishes a partition once all its window's records came. *)
Lemma report_sound_done W before report p se r : report_sound W before report →
  W !! p = Some se → idle_done report p se.2 = true →
  log r → rr_partition r = p → in_range se r → r ∈ before.
Proof.
  intros Hs HW Hdone Hr Hp Hse. unfold idle_done in Hdone.
  destruct (ir_position report p) as [position|] eqn:Epos; [|done].
  apply (Hs p se r position HW Epos Hr Hp Hse). apply orb_true_iff in Hdone as [Hle|Hlag].
  - left. apply Z.leb_le in Hle. unfold in_range in Hse. lia.
  - right. by apply bool_decide_eq_true in Hlag.
Qed.

Fixpoint faithful_polls (W : gmap Z (Z * Z)) (before : list RawRecord) (polls : list PollEvent)
    : Prop :=
  match polls with
  | Polled [] report :: polls => report_sound W before report ∧ faithful_polls W before polls
  | Polled records _ :: polls =>
      faithful W before records ∧ faithful_polls W (before ++ records) polls
  | _ => True
  end.

Lemma faithful_app W before l k :
  faithful W before (l ++ k) ↔ faithful W before l ∧ faithful W (before ++ l) k.
Proof.
  revert before. induction l as [|x l IH]; intros before; simpl; [by rewrite app_nil_r; tauto|].
  rewrite IH, <- app_assoc. simpl. tauto.
Qed.

(** What the scan knows after reading [d], with the records [R] it ranked. *)
Record scan_inv (W : gmap Z (Z * Z)) (scan : WindowScan) (d : list RawRecord)
    (R : list (SortKey * RawRecord)) : Prop := {
  si_remaining : ∀ p se, ws_remaining scan !! p = Some se →
    W !! p = Some se ∧ p ∉ ws_completed scan;
  si_split : ∀ p se, W !! p = Some se → ws_remaining scan !! p = Some se ∨ p ∈ ws_completed scan;
  si_completed : ws_completed scan ⊆ dom W;
  si_planned : ws_planned scan = size W;
  si_ranked : ∀ se raw, W !! rr_partition raw = Some se → raw ∈ d → in_range se raw →
    ∃ key, (key, raw) ∈ R;
  si_keys : ∀ key raw, (key, raw) ∈ R → raw ∈ d ∧
    sk_partition key = rr_partition raw ∧ sk_offset key = rr_offset raw ∧
    (∃ se, W !! rr_partition raw = Some se ∧ in_range se raw) ∧
    ∃ n, ws_newest scan !! rr_partition raw = Some n ∧ (sk_timestamp key ≤ n)%Z;
  si_monotone : ∀ k1 r1 k2 r2, (k1, r1) ∈ R → (k2, r2) ∈ R → same_partition r1 r2 →
    (rr_offset r1 < rr_offset r2)%Z → (sk_timestamp k1 ≤ sk_timestamp k2)%Z;
  si_read : ∀ p se r, p ∈ ws_completed scan → W !! p = Some se →
    log r → rr_partition r = p → in_range se r → r ∈ d;
  si_log : ∀ r, r ∈ d → log r;
  si_prefix : ∀ raw se r, raw ∈ d → W !! rr_partition raw = Some se →
    log r → same_partition r raw → in_range se r → (rr_offset r < rr_offset raw)%Z → r ∈ d;
}.

Definition wf_windows (W : gmap Z (Z * Z)) : Prop :=
  map_Forall (λ _ se, (0 ≤ se.1 < se.2 ∧ se.2 ≤ i64_max)%Z) W.

Lemma scan_inv_new windows :
  scan_inv (ws_remaining (scan_new windows)) (scan_new windows) [] [].
Proof.
  split; simpl.
  - intros p se Hp. split; [done|apply not_elem_of_empty].
  - intros p se Hp. by left.
  - set_solver.
  - done.
  - by intros se raw _ ?%not_elem_of_nil.
  - by intros key raw ?%not_elem_of_nil.
  - by intros k1 r1 k2 r2 ?%not_elem_of_nil.
  - by intros p se r ?%not_elem_of_empty.
  - by intros r ?%not_elem_of_nil.
  - by intros raw se r ?%not_elem_of_nil.
Qed.

(** Finishing a partition whose window has been read. *)
Lemma scan_finish_inv W scan d R p :
  scan_inv W scan d R →
  (∀ se r, W !! p = Some se → log r → rr_partition r = p → in_range se r → r ∈ d) →
  scan_inv W (scan_finish scan p) d R.
Proof.
  intros Hi Hread. unfold scan_finish. destruct (ws_remaining scan !! p) as [se0|] eqn:Hp; [|done].
  destruct Hi as [I1 I2 I3 I4 I5 I6 I7 I8 I9 I10]. destruct (I1 p se0 Hp) as [HW Hnc].
  split; simpl; try done.
  - intros q se [Hne Hq]%lookup_delete_Some. destruct (I1 q se Hq). split; [done|]. set_solver.
  - intros q se Hq. destruct (decide (p = q)) as [<-|Hne]; [right; set_solver|].
    destruct (I2 q se Hq) as [Hr|Hc]; [left; by rewrite lookup_delete_ne|right; set_solver].
  - apply union_least; [|done]. apply singleton_subseteq_l, elem_of_dom. by exists se0.
  - intros q se r [->%elem_of_singleton|Hq]%elem_of_union HWq Hr Hrp Hin.
    + by apply (Hread se r).
    + by apply (I8 q se r).
Qed.

Lemma scan_finish_newest scan p : ws_newest (scan_finish scan p) = ws_newest scan.
Proof. unfold scan_finish. by destruct (ws_remaining scan !! p). Qed.

(** Reading one more record that the scan does not rank. *)
Lemma scan_inv_read W scan d R raw :
  scan_inv W scan d R → follows W d raw →
  (∀ se, W !! rr_partition raw = Some se → ¬ in_range se raw) →
  scan_inv W scan (d ++ [raw]) R.
Proof.
  intros [I1 I2 I3 I4 I5 I6 I7 I8 I9 I10] (Hlog & Hlt & Hgap) Hout. split; try done.
  - intros se r Hse [Hr|Hr%list_elem_of_singleton]%elem_of_app Hin; [by apply (I5 se r)|].
    subst r. by destruct (Hout se Hse).
  - intros key r Hkr. destruct (I6 key r Hkr) as (Hd & Hrest). split; [|done].
    apply elem_of_app. by left.
  - intros p se r Hp HW Hr Hrp Hin. apply elem_of_app. left. by apply (I8 p se r).
  - intros r [Hr|Hr%list_elem_of_singleton]%elem_of_app; [by apply I9|by subst].
  - intros raw' se' r [Hr|Hr%list_elem_of_singleton]%elem_of_app HW' Hr' Hp Hin' Ho;
      apply elem_of_app; left; [by eapply I10|subst; by eapply Hgap].
Qed.

(** Reading and ranking one more record. *)
Lemma scan_inv_rank W scan d R raw se :
  scan_inv W scan d R → follows W d raw →
  W !! rr_partition raw = Some se → in_range se raw →
  scan_inv W (scan_rank scan raw).1 (d ++ [raw]) (R ++ [((scan_rank scan raw).2, raw)]).
Proof.
  intros [I1 I2 I3 I4 I5 I6 I7 I8 I9 I10] (Hlog & Hlt & Hgap) HW Hin. split; simpl; try done.
  - intros se' r Hse [Hr|Hr%list_elem_of_singleton]%elem_of_app Hr'.
    + destruct (I5 se' r Hse Hr Hr') as [key Hk]. exists key. apply elem_of_app. by left.
    + subst r. eexists. apply elem_of_app. right. by left.
  - intros key r [Hk|Hk%list_elem_of_singleton]%elem_of_app.
    + destruct (I6 key r Hk) as (Hd & Hp & Ho & Hse & n & Hn & Hle).
      split_and!; [apply elem_of_app; by left|done..|].
      destruct (decide (rr_partition raw = rr_partition r)) as [Heq|Hne].
      * rewrite Heq, lookup_insert_eq. eexists. split; [done|]. rewrite <- Heq in Hn |- *. rewrite Hn. simpl. lia.
      * rewrite lookup_insert_ne by done. by exists n.
    + injection Hk as -> ->. split_and!; [apply elem_of_app; right; by left|done..|by exists se|].
      rewrite lookup_insert_eq. eexists. split; [done|]. simpl. lia.
  - intros k1 r1 k2 r2 [H1|H1%list_elem_of_singleton]%elem_of_app
      [H2|H2%list_elem_of_singleton]%elem_of_app Hp Ho.
    + by eapply I7.
    + injection H2 as -> ->. simpl. destruct (I6 k1 r1 H1) as (_ & _ & _ & _ & n & Hn & Hle).
      unfold same_partition in Hp. rewrite Hp in Hn. rewrite Hn. simpl. lia.
    + injection H1 as -> ->. destruct (I6 k2 r2 H2) as (Hd & _).
      specialize (Hlt r2 Hd (eq_sym Hp)). lia.
    + injection H1 as -> ->. injection H2 as -> ->. lia.
  - intros p se' r Hp HW' Hr Hrp Hr'. apply elem_of_app. left. by apply (I8 p se' r).
  - intros r [Hr|Hr%list_elem_of_singleton]%elem_of_app; [by apply I9|by subst].
  - intros raw' se' r [Hr|Hr%list_elem_of_singleton]%elem_of_app HW' Hr' Hp Hin' Ho;
      apply elem_of_app; left; [by eapply I10|subst; by eapply Hgap].
Qed.

Lemma scan_rank_finish scan p raw :
  scan_rank (scan_finish scan p) raw =
  (scan_finish (scan_rank scan raw).1 p, (scan_rank scan raw).2).
Proof. unfold scan_rank, scan_finish. simpl. by destruct (ws_remaining scan !! p). Qed.

(** A window whose last offset was reached has been read. *)
Lemma last_offset_read W d raw se :
  log_functional → follows W d raw → W !! rr_partition raw = Some se →
  (se.2 - 1 ≤ rr_offset raw)%Z →
  ∀ r, log r → rr_partition r = rr_partition raw → in_range se r → r ∈ d ++ [raw].
Proof.
  intros Hfun (Hlog & _ & Hgap) HW Hend r Hr Hp Hin. apply elem_of_app.
  destruct (decide (rr_offset r < rr_offset raw)%Z) as [Hlt|Hge]; [left; by apply (Hgap se)|right].
  apply list_elem_of_singleton. apply Hfun; [done..|]. unfold in_range in Hin. lia.
Qed.

Lemma ingest_step W scan d R raw :
  log_functional → wf_windows W → scan_inv W scan d R → follows W d raw →
  match ws_remaining scan !! rr_partition raw with
  | None => scan_inv W scan (d ++ [raw]) R
  | Some _ =>
      let '(scan, accepted) := scan_accept scan (rr_partition raw) (rr_offset raw) in
      if accepted
      then scan_inv W (scan_rank scan raw).1 (d ++ [raw]) (R ++ [((scan_rank scan raw).2, raw)])
      else scan_inv W scan (d ++ [raw]) R
  end.
Proof.
  intros Hfun Hwf Hi Hf. pose proof Hf as (Hlog & Hlt & Hgap).
  destruct (ws_remaining scan !! rr_partition raw) as [se|] eqn:Hrem.
  - destruct (si_remaining _ _ _ _ Hi _ _ Hrem) as [HW _]. destruct se as [s e].
    unfold scan_accept. rewrite Hrem. destruct (Hwf _ _ HW) as [Hse He]. simpl in Hse, He.
    rewrite i64_sub_id by (unfold_ints; lia).
    assert ((s <=? rr_offset raw)%Z && (rr_offset raw <? e)%Z = true ↔ in_range (s, e) raw) as Hacc.
    { unfold in_range. simpl. rewrite andb_true_iff, Z.leb_le, Z.ltb_lt. done. }
    assert (∀ r, (e - 1 <=? rr_offset raw)%Z = true → log r → rr_partition r = rr_partition raw →
      in_range (s, e) r → r ∈ d ++ [raw]) as Hread.
    { intros r Hend%Z.leb_le. by apply (last_offset_read W). }
    destruct (_ && _) eqn:Ha.
    + assert (in_range (s, e) raw) as Hin by by apply Hacc.
      pose proof (scan_inv_rank W scan d R raw (s, e) Hi Hf HW Hin) as Hi'.
      destruct (e - 1 <=? rr_offset raw)%Z; [|done]. rewrite scan_rank_finish. simpl.
      apply scan_finish_inv; [done|]. intros se r HW'. rewrite HW in HW'. injection HW' as <-. by apply Hread.
    + assert (scan_inv W scan (d ++ [raw]) R) as Hi'.
      { apply scan_inv_read; [done..|]. intros se HW' Hin. rewrite HW in HW'. injection HW' as <-.
        apply Hacc in Hin. done. }
      destruct (e - 1 <=? rr_offset raw)%Z; [|done].
      apply scan_finish_inv; [done|]. intros se r HW'. rewrite HW in HW'. injection HW' as <-. by apply Hread.
  - apply scan_inv_read; [done..|]. intros se HW Hin.
    destruct (si_split _ _ _ _ Hi _ _ HW) as [Hr|Hc]; [congruence|].
    assert (raw ∈ d) as Hd by by apply (si_read _ _ _ _ Hi (rr_partition raw) se).
    specialize (Hlt raw Hd eq_refl). lia.
Qed.

Lemma ingest_polled_spec W scan d R polled scan' ranked calls :
  log_functional → wf_windows W → scan_inv W scan d R → faithful W d polled →
  ingest_polled scan polled = (scan', ranked, calls) →
  scan_inv W scan' (d ++ polled) (R ++ ranked).
Proof.
  intros Hfun Hwf. revert scan d R scan' ranked calls.
  induction polled as [|raw polled IH]; intros scan d R scan' ranked calls Hi Hf; simpl.
  { intros [= <- <- <-]. by rewrite !app_nil_r. }
  destruct Hf as [Hraw Hf]. pose proof (ingest_step W scan d R raw Hfun Hwf Hi Hraw) as Hstep.
  replace (d ++ raw :: polled) with ((d ++ [raw]) ++ polled) by by rewrite <- app_assoc.
  destruct (ws_remaining scan !! rr_partition raw); [|intros E; by eapply IH].
  destruct (scan_accept scan (rr_partition raw) (rr_offset raw)) as [scan1 accepted].
  destruct accepted; simpl.
  - destruct (ingest_polled _ polled) as [[scan2 ranked2] calls2] eqn:E. intros [= <- <- <-].
    replace (R ++ (_, raw) :: ranked2) with ((R ++ [((scan_rank scan1 raw).2, raw)]) ++ ranked2)
      by by rewrite <- app_assoc.
    by eapply IH.
  - destruct (ingest_polled _ polled) as [[scan2 ranked2] calls2] eqn:E. intros [= <- <- <-]. by eapply IH.
Qed.

Lemma settle_idle_spec W scan d R report :
  scan_inv W scan d R → report_sound W d report → scan_inv W (settle_idle scan report).1 d R.
Proof.
  intros Hi Hs. unfold settle_idle. simpl. set (done := omap _ _).
  assert (∀ p, p ∈ done → ∀ se r, W !! p = Some se → log r → rr_partition r = p →
    in_range se r → r ∈ d) as Hdone.
  { intros p Hp se r HW. unfold done in Hp.
    apply list_elem_of_omap in Hp as ([q [s e]] & Hq & Hp).
    apply elem_of_map_to_list, (si_remaining _ _ _ _ Hi) in Hq as [HWq _]. simpl in Hp.
    destruct (idle_done report q e) eqn:Hid; [|done]. injection Hp as ->.
    rewrite HW in HWq. injection HWq as ->. by apply (report_sound_done W d report p (s, e)). }
  clearbody done. revert scan Hi. induction done as [|p done IH]; intros scan Hi; [done|].
  simpl. apply IH; [intros q Hq; apply Hdone; by right|].
  apply scan_finish_inv; [done|]. apply Hdone. by left.
Qed.

Section runs.
Context `{!PayloadLib, !RedactLib, !FilterLib, !TimestampLib}.

(** The loop feeds the batch the records it ranked, and ends knowing what it read. *)
Lemma run_polls_spec W s windows scan batch polls d R batch' scan' calls :
  log_functional → wf_windows W → scan_inv W scan d R → faithful_polls W d polls →
  run_polls s windows scan batch polls = (batch', Ok scan', calls) →
  ∃ d' ranked, batch' = admit_all (ss_pipeline s) batch ranked ∧
    scan_inv W scan' d' (R ++ concat ranked).
Proof.
  intros Hfun Hwf. revert scan batch d R batch' scan' calls.
  induction polls as [|ev polls IH]; intros scan batch d R batch' scan' calls Hi Hf; cbn [run_polls].
  { case_decide; intros [= <- <- <-]; exists d, []; by rewrite app_nil_r. }
  case_decide as Hrem; [intros [= <- <- <-]; exists d, []; by rewrite app_nil_r|].
  destruct ev as [| |error|[|raw records] report]; simpl in Hf.
  - intros [= <- <- <-]. exists d, []. by rewrite app_nil_r.
  - intros [= <- <- <-]. exists d, []. by rewrite app_nil_r.
  - done.
  - destruct Hf as [Hs Hf]. pose proof (settle_idle_spec W scan d R report Hi Hs) as Hi'.
    destruct (settle_idle scan report) as [scan1 calls1].
    destruct (run_polls s windows scan1 batch polls) as [[batch2 r2] more] eqn:E.
    intros [= <- -> <-]. by eapply IH.
  - destruct Hf as [Hr Hf]. destruct (ingest_polled scan (raw :: records)) as [[scan1 ranked1] calls1] eqn:E1.
    change (faithful W d (raw :: records)) in Hr.
    pose proof (ingest_polled_spec W _ _ _ _ _ _ _ Hfun Hwf Hi Hr E1) as Hi'.
    destruct (admit_records (ss_pipeline s) batch ranked1) as [batch1 rejected] eqn:Ea.
    destruct (run_polls s windows scan1 batch1 polls) as [[batch2 r2] more] eqn:E.
    intros [= <- -> <-].
    destruct (IH _ _ _ _ _ _ _ Hi' Hf E) as (d' & ranked & -> & Hi'').
    exists d', (ranked1 :: ranked). simpl. rewrite app_assoc. split; [|done].
    unfold admit_all. simpl. by rewrite Ea.
Qed.
End runs.
End scan_spec.

(** ** Properties *)

Section properties.
Context `{!PayloadLib, !RedactLib, !FilterLib, !TimestampLib}.

(** A fetch fails for a reason of the consumer's, or times out, and it times out
    on the pages only when no window was read and nothing was found. *)
Theorem finish_page_total r span st :
  match finish_page r span st with
  | Ok page => rp_complete page = fs_complete st ∧ (fs_scanned st = true ∨ fs_kept st ≠ [])
  | Err e => e = Timeout_ ∧ fs_scanned st = false ∧ fs_kept st = []
  end.
Proof.
  unfold finish_page. destruct (negb (fs_scanned st) && _) eqn:E.
  - apply andb_true_iff in E as [?%negb_true_iff ?%bool_decide_eq_true]. done.
  - apply andb_false_iff in E as [?%negb_false_iff|?%bool_decide_eq_false];
      destruct (query_direction (pr_query r)); simpl; auto.
Qed.

End properties.
