(* ===== verification/Paging.v ===== *)
(** What a page of [Session.v] promises: with a consumer faithful to the log, paging
    reads on from where it stopped, losing and repeating nothing. *)

From S2P Require Import Prelude Text Utf8 Errors Metadata Cursor Plan Batch Payload Filter Query.
From S2P Require Import Obfuscate Pipeline Session.

(** ** The windows of a pass as a map *)

Definition window_map (windows : list PartitionWindow) : gmap Z (Z * Z) :=
  ws_remaining (scan_new windows).

Lemma window_map_lookup ws p se :
  NoDup (map pw_partition ws) → (∀ w, w ∈ ws → window_is_empty w = false) →
  window_map ws !! p = Some se ↔
  ∃ w, w ∈ ws ∧ pw_partition w = p ∧ se = (pw_start w, pw_end w).
Proof.
  intros Hnd Hne. unfold window_map, scan_new. simpl.
  assert (filter (λ w, window_is_empty w = false) ws = ws) as ->.
  { clear Hnd. induction ws as [|w ws IH]; [done|]. rewrite filter_cons, decide_True by (apply Hne; by left).
    f_equal. apply IH. intros w' Hw'. apply Hne. by right. }
  rewrite collect_lookup.
  - rewrite list_elem_of_fmap. split.
    + intros (w & [= -> ->] & Hw). by exists w.
    + intros (w & Hw & <- & ->). by exists w.
  - apply functional_pairs_NoDup. rewrite <- list_fmap_compose.
    replace (fst ∘ _ <$> ws) with (map pw_partition ws); [done|]. by apply map_ext.
Qed.

(** ** Rank and walk *)

(** The way a page of [order] walks when it reads in [direction]. *)
Definition walk_of (order : RecordOrder) (direction : CursorDirection) : RecordOrder :=
  match direction with Forward => order | Backward => flipped order end.

(** Of two records of a partition whose ranks rise with their offsets, the better
    ranked one comes first in the walk. *)
Lemma rank_walk k1 k2 order direction :
  sk_partition k1 = sk_partition k2 →
  ((sk_offset k1 < sk_offset k2)%Z → (sk_timestamp k1 ≤ sk_timestamp k2)%Z) →
  ((sk_offset k2 < sk_offset k1)%Z → (sk_timestamp k2 ≤ sk_timestamp k1)%Z) →
  rank k1 k2 order direction ≠ Gt →
  match walk_of order direction with
  | Oldest => (sk_offset k1 ≤ sk_offset k2)%Z
  | Newest => (sk_offset k2 ≤ sk_offset k1)%Z
  end.
Proof.
  destruct k1 as [t1 p1 o1], k2 as [t2 p2 o2]; simpl. intros <- H12 H21.
  unfold rank, cmp_for_order, walk_of, flipped, cmp_then, CompOpp; simpl.
  destruct direction, order; rewrite Z.compare_refl;
    destruct (Z.compare_spec t1 t2), (Z.compare_spec t2 t1);
    destruct (Z.compare_spec o1 o2), (Z.compare_spec o2 o1); simpl; try congruence; lia.
Qed.

(** ** One pass *)

Section pass.
Context {PL : PayloadLib} {RL : RedactLib} {FL : FilterLib} {TL : TimestampLib}.
Context (log : RawRecord → Prop).

(** [s] reads [windows] with a consumer faithful to the log. *)
Definition faithful_env (windows : list PartitionWindow) (env : PassEnv) : Prop :=
  faithful_polls log (window_map windows) [] (pe_polls env).

Lemma run_spec s windows batch env s' batch' outcome calls :
  log_functional log → wf_windows (window_map windows) → faithful_env windows env →
  run s windows batch env = (s', batch', Ok outcome, calls) →
  ss_pipeline s' = ss_pipeline s ∧ ss_walk s' = ss_walk s ∧
  ∃ scan d ranked, batch' = admit_all (ss_pipeline s) batch ranked ∧
    scan_inv log (window_map windows) scan d (concat ranked) ∧
    outcome = scan_outcome scan windows (ss_walk s).
Proof.
  intros Hfun Hwf Hf. unfold run.
  pose proof (scan_inv_new log windows) as Hnew. fold (window_map windows) in Hnew.
  assert (∃ scan d ranked, batch = admit_all (ss_pipeline s) batch ranked ∧
    scan_inv log (window_map windows) scan d (concat ranked) ∧
    scan_outcome (scan_new windows) windows (ss_walk s) = scan_outcome scan windows (ss_walk s)) as Hempty
    by by exists (scan_new windows), [], [].
  case_decide; [by intros [= <- <- <- <-]|].
  destruct (run_polls _ windows (scan_new windows) batch (pe_polls env)) as [[b r] c] eqn:E.
  assert (∀ calls', (({| ss_pipeline := ss_pipeline s; ss_walk := ss_walk s; ss_assigned := windows |},
      b, (λ scan, scan_outcome scan windows (ss_walk s)) <$> r, calls') = (s', batch', Ok outcome, calls)) →
    ss_pipeline s' = ss_pipeline s ∧ ss_walk s' = ss_walk s ∧
    ∃ scan d ranked, batch' = admit_all (ss_pipeline s) batch ranked ∧
      scan_inv log (window_map windows) scan d (concat ranked) ∧
      outcome = scan_outcome scan windows (ss_walk s)) as Hpolled.
  { intros calls' Heq. destruct r as [scan|error]; [|done]. injection Heq as <- <- <- <-.
    split_and!; [done..|].
    destruct (run_polls_spec log _ _ _ _ _ _ _ _ _ _ _ Hfun Hwf Hnew Hf E) as (d & ranked & -> & Hi).
    by exists scan, d, ranked. }
  case_decide; [by apply Hpolled|].
  destruct (pe_reassign env) as [[u|error]|]; [by apply Hpolled|done|by intros [= <- <- <- <-]].
Qed.

Context (span : LogSpan) (take : Z) (c : option RecordCursor) (order : RecordOrder)
  (direction : CursorDirection).

Definition pass_walk : RecordOrder := walk_of order direction.
Definition pass_windows : list PartitionWindow := windows span pass_walk take c.

(** The boundaries a page reads on from: its cursor's, or the log's own ends. *)
Definition opening : RecordCursor :=
  default {| Cursor.order := order; remaining := start span pass_walk |} c.

(** What the pass needs of its span and cursor. *)
Record pass_ok : Prop := {
  po_span : wf_span span;
  po_partitions : NoDup (partitions span);
  po_take : (0 ≤ take ≤ i64_max)%Z;
  po_cursor : ∀ c', c = Some c' → Cursor.walk c' = pass_walk;
}.

Context (Hok : pass_ok).

Lemma opening_walk : Cursor.walk opening = pass_walk.
Proof.
  unfold opening. destruct c as [c'|] eqn:E; simpl; [by apply (po_cursor Hok)|].
  unfold Cursor.walk; simpl. unfold start. by rewrite remaining_walk_walking.
Qed.

Lemma opening_boundary p b :
  p ∈ partitions span → boundary span pass_walk c p = Some b →
  remaining_offsets (remaining opening) !! p = Some b.
Proof.
  unfold opening, boundary. destruct c as [c'|]; [done|]. intros Hp Hb. simpl. unfold start.
  rewrite remaining_offsets_walking. apply collect_lookup.
  - intros k v v' H1 H2. apply list_elem_of_omap in H1 as (q & _ & H1), H2 as (q' & _ & H2).
    destruct (watermarks span !! q) eqn:E1; [|done]. destruct (watermarks span !! q') eqn:E2; [|done].
    simpl in H1, H2. congruence.
  - apply list_elem_of_omap. exists p. split; [done|].
    destruct (watermarks span !! p); [|done]. simpl in *. by injection Hb as <-.
Qed.

(** A window of the pass starts at its partition's boundary. *)
Lemma pass_window w :
  w ∈ pass_windows →
  window_is_empty w = false ∧ ∃ m b, wf_marks m ∧ watermarks span !! pw_partition w = Some m ∧
    remaining_offsets (remaining opening) !! pw_partition w = Some b ∧
    w = window_on pass_walk m b take (pw_partition w).
Proof.
  intros Hw. unfold pass_windows in Hw.
  apply elem_of_windows in Hw as (p & m & b & Hp & Hm & Hb & Heq & He);
    [|apply Hok|apply Hok|apply (po_cursor Hok)].
  assert (pw_partition w = p) as Hwp by (rewrite Heq; by destruct pass_walk).
  split; [done|]. rewrite Hwp. exists m, b. split_and!; [by apply (po_span Hok p)|done| |done].
  by apply opening_boundary.
Qed.

Lemma pass_near w m b : w = window_on pass_walk m b take (pw_partition w) →
  near_edge pass_walk w = clamped m b.
Proof. intros ->. unfold near_edge, window_on. by destruct pass_walk. Qed.

Lemma pass_map p se :
  window_map pass_windows !! p = Some se ↔
  ∃ w, w ∈ pass_windows ∧ pw_partition w = p ∧ se = (pw_start w, pw_end w).
Proof.
  apply window_map_lookup.
  - apply windows_NoDup, Hok.
  - intros w Hw. by apply pass_window in Hw as [? _].
Qed.

Lemma pass_map_wf : wf_windows (window_map pass_windows).
Proof.
  intros p [s e] (w & Hw & _ & [= -> ->])%pass_map. simpl.
  destruct (pass_window w Hw) as (He & m & b & Hm & _ & _ & Heq).
  unfold window_is_empty in He. apply Z.leb_gt in He.
  unfold wf_marks in Hm. pose proof (po_take Hok).
  rewrite Heq in He |- *. unfold window_on, clamped in *. destruct pass_walk; simpl in *; lia.
Qed.

(** A record inside a window is pending for the page that opened it. *)
Lemma in_window_pending w o :
  w ∈ pass_windows → (pw_start w ≤ o < pw_end w)%Z →
  pending span (remaining opening) (pw_partition w) o.
Proof.
  intros Hw Ho. destruct (pass_window w Hw) as (_ & m & b & Hm & Hmark & Hb & Heq).
  rewrite Heq in Ho. apply (in_window_on _ _ _ _ (pw_partition w) o) in Ho as (Hin & Ha & _); [|done].
  split; [by exists m|]. exists b. split; [done|]. fold (Cursor.walk opening). by rewrite opening_walk.
Qed.

Lemma covered_elem scan w :
  w ∈ so_covered (scan_outcome scan pass_windows pass_walk) ↔
  ∃ w0, w0 ∈ pass_windows ∧
    w = if decide (pw_partition w0 ∈ ws_completed scan) then w0 else abandoned w0 pass_walk.
Proof.
  simpl. rewrite list_elem_of_fmap. split; intros (w0 & H1 & H2); exists w0; done.
Qed.

Lemma abandoned_near w : near_edge pass_walk (abandoned w pass_walk) = near_edge pass_walk w ∧
  far_edge pass_walk (abandoned w pass_walk) = near_edge pass_walk w.
Proof. unfold abandoned, near_edge, far_edge. by destruct pass_walk. Qed.

Lemma pass_covers scan :
  covers span opening (so_covered (scan_outcome scan pass_windows pass_walk)).
Proof.
  split.
  - assert (map pw_partition (so_covered (scan_outcome scan pass_windows pass_walk)) =
      map pw_partition pass_windows) as ->.
    { simpl. change (?f <$> ?l) with (map f l). rewrite map_map. apply map_ext. intros w.
      by case_decide. }
    apply windows_NoDup, Hok.
  - intros w (w0 & Hw0 & ->)%covered_elem. rewrite opening_walk.
    destruct (pass_window w0 Hw0) as (He & m & b & Hm & Hmark & Hb & Heq).
    unfold window_is_empty in He. apply Z.leb_gt in He.
    case_decide.
    + split; [lia|]. exists m, b. split_and!; [done..|]. by apply pass_near.
    + split; [simpl; destruct pass_walk; lia|]. exists m, b. split_and!; [done..|].
      rewrite (proj1 (abandoned_near w0)). by apply pass_near.
Qed.

(** *** What a pass keeps *)

Lemma kept_from_raw pl raw k :
  kept_from pl raw k →
  rr_partition (kept_raw k) = rr_partition raw ∧ rr_offset (kept_raw k) = rr_offset raw.
Proof.
  unfold kept_from. pose proof (screen_record_raw pl raw) as (Hp & Ho & _).
  destruct (screen_record pl raw) as [masked verdict]. simpl in *.
  intros [[_ ->]|[_ Hd]]; [done|]. destruct k as [|r]; [done|]. destruct Hd as (Hr & _). simpl. by rewrite Hr.
Qed.

Section kept.
Context (pl : RecordPipeline) (limit : Z) (scan : WindowScan) (d : list RawRecord)
  (ranked : list (list (SortKey * RawRecord))).
Context (Hlimit : (0 < limit)%Z) (Hfun : log_functional log).
Context (Hinv : scan_inv log (window_map pass_windows) scan d (concat ranked)).

Definition pass_batch : RecordBatch Kept := admit_all pl (batch_new limit order direction) ranked.
Definition pass_found : list Kept := into_sorted pass_batch.

Lemma pass_extends :
  extends pl (batch_new limit order direction) pass_batch (concat ranked) ∧
  ∀ key raw, (key, raw) ∈ concat ranked → accounted pass_batch key ∨ filtered_out pl raw.
Proof. apply admit_all_extends; [apply wf_batch_new; lia|done]. Qed.

Lemma pass_entry e :
  e ∈ rb_entries pass_batch →
  ∃ raw, (e_key e, raw) ∈ concat ranked ∧ kept_from pl raw (e_value e).
Proof.
  intros He. destruct pass_extends as [(_ & _ & _ & Hent) _].
  apply Hent in He as [He|He]; [by apply not_elem_of_nil in He|done].
Qed.

Lemma pass_length : (len pass_found ≤ limit)%Z.
Proof.
  destruct pass_extends as [((_ & _ & Hl) & (El & _) & _) _].
  unfold pass_found, into_sorted, len in *. rewrite length_fmap. simpl in El. lia.
Qed.

Lemma ranked_key key raw :
  (key, raw) ∈ concat ranked → raw ∈ d ∧ log raw ∧
  sk_partition key = rr_partition raw ∧ sk_offset key = rr_offset raw ∧
  ∃ w, w ∈ pass_windows ∧ pw_partition w = rr_partition raw ∧
    (pw_start w ≤ rr_offset raw < pw_end w)%Z.
Proof.
  intros Hin. destruct (si_keys _ _ _ _ _ Hinv key raw Hin) as (Hd & Hp & Ho & (se & HW & Hr) & _).
  split_and!; [done|by apply (si_log _ _ _ _ _ Hinv)|done..|].
  apply pass_map in HW as (w & Hw & Hwp & ->). by exists w.
Qed.

(** What a page holds was pending when it opened. *)
Lemma found_pending p o : (p, o) ∈ edges pass_found → pending span (remaining opening) p o.
Proof.
  intros Hin. apply list_elem_of_fmap in Hin as (k & [= -> ->] & Hk).
  apply list_elem_of_fmap in Hk as (e & -> & He). apply pass_entry in He as (raw & Hraw & Hfrom).
  destruct (kept_from_raw pl raw _ Hfrom) as [-> ->].
  destruct (ranked_key _ _ Hraw) as (_ & _ & _ & _ & w & Hw & <- & Ho). by apply in_window_pending.
Qed.

(** A record read into a full page that is not on it comes after all of its
    partition's records that are. *)
Lemma accounted_kept raw :
  raw ∈ d → (∃ se, window_map pass_windows !! rr_partition raw = Some se ∧ in_range se raw) →
  (∃ k, k ∈ pass_found ∧ kept_from pl raw k) ∨ filtered_out pl raw ∨
  (limit ≤ len pass_found)%Z ∧
  ∀ o, (rr_partition raw, o) ∈ edges pass_found →
    match pass_walk with Oldest => o < rr_offset raw | Newest => rr_offset raw < o end%Z.
Proof.
  intros Hd (se & HW & Hr). destruct (si_ranked _ _ _ _ _ Hinv se raw HW Hd Hr) as [key Hkey].
  destruct (proj2 pass_extends key raw Hkey) as [Hacc|]; [|by right; left].
  destruct (ranked_key key raw Hkey) as (_ & Hlog & Hkp & Hko & _).
  assert (∀ e, e ∈ rb_entries pass_batch → sk_partition (e_key e) = rr_partition raw →
    sk_offset (e_key e) = rr_offset raw → ∃ k, k ∈ pass_found ∧ kept_from pl raw k) as Hsame.
  { intros e He Hp Ho. destruct (pass_entry e He) as (raw' & Hraw' & Hfrom).
    destruct (ranked_key _ _ Hraw') as (_ & Hlog' & Hp' & Ho' & _).
    assert (raw' = raw) as -> by (apply Hfun; unfold same_partition; congruence).
    exists (e_value e). split; [|done]. apply list_elem_of_fmap. by exists e. }
  destruct Hacc as [(e & He & Hek)|[Hfull Hbest]].
  { left. apply (Hsame e He); by rewrite Hek. }
  destruct (decide (Exists (λ e, sk_partition (e_key e) = rr_partition raw ∧
    sk_offset (e_key e) = rr_offset raw) (rb_entries pass_batch)))
    as [(e & He & Hp & Ho)%Exists_exists|Hnot]; [left; by apply (Hsame e)|].
  rewrite Exists_exists in Hnot.
  right; right. split.
  - destruct pass_extends as [(_ & (El & _) & _) _]. unfold is_full in Hfull. apply Z.leb_le in Hfull.
    rewrite El in Hfull. simpl in Hfull. unfold pass_found, into_sorted, len in *. by rewrite length_fmap.
  - intros o Ho. apply list_elem_of_fmap in Ho as (k & [= Hkp' ->] & Hk).
    apply list_elem_of_fmap in Hk as (e & -> & He).
    destruct (pass_entry e He) as (raw' & Hraw' & Hfrom).
    destruct (kept_from_raw pl raw' _ Hfrom) as [Ep Eo]. rewrite Eo. rewrite Ep in Hkp'.
    destruct (ranked_key _ _ Hraw') as (_ & Hlog' & Hp' & Ho' & _).
    pose proof (Hbest e He) as Hrank.
    destruct pass_extends as [(_ & (_ & Eord & Edir) & _) _]. rewrite Eord, Edir in Hrank. simpl in Hrank.
    apply rank_walk in Hrank.
    + rewrite Ho', Hko in Hrank. unfold pass_walk.
      assert (rr_offset raw' ≠ rr_offset raw) as Hne.
      { intros Heq. apply Hnot. exists e. split_and!; [done|congruence..]. }
      destruct (walk_of order direction); lia.
    + congruence.
    + rewrite Ho', Hko. intros Hlt.
      apply (si_monotone _ _ _ _ _ Hinv _ raw' _ raw); [done..|by unfold same_partition|done].
    + rewrite Ho', Hko. intros Hlt.
      apply (si_monotone _ _ _ _ _ Hinv _ raw _ raw'); [done..|by unfold same_partition|done].
Qed.

Definition pass_outcome : ScanOutcome := scan_outcome scan pass_windows pass_walk.
Definition pass_next : option RecordCursor :=
  advance span opening (so_covered pass_outcome) (edges pass_found) limit.

Lemma pass_next_pending p o :
  pending_after span pass_next p o ↔
  pending span (remaining opening) p o ∧
  ¬ passed pass_walk (so_covered pass_outcome) (edges pass_found) limit p o.
Proof.
  unfold pass_next. rewrite <- opening_walk. apply advance_pending.
  - apply (po_span Hok).
  - apply pass_covers.
  - intros q k. apply found_pending.
Qed.

Lemma complete_all w :
  so_complete pass_outcome = true → w ∈ pass_windows → pw_partition w ∈ ws_completed scan.
Proof.
  intros Hc%bool_decide_eq_true Hw.
  assert (ws_completed scan ≡ dom (window_map pass_windows)) as ->.
  { apply set_subseteq_size_equiv; [by apply (si_completed _ _ _ _ _ Hinv)|].
    rewrite Hc, (si_planned _ _ _ _ _ Hinv), size_dom. done. }
  apply elem_of_dom. eexists. apply pass_map. by exists w.
Qed.

(** The records of the log before a full page's last one of their partition, or
    inside a completed window, have been read. *)
Lemma passed_read raw :
  pass_walk = Oldest ∨ so_complete pass_outcome = true ∨ (len pass_found < limit)%Z →
  log raw → pending span (remaining opening) (rr_partition raw) (rr_offset raw) →
  passed pass_walk (so_covered pass_outcome) (edges pass_found) limit
    (rr_partition raw) (rr_offset raw) →
  raw ∈ d ∧ ∃ se, window_map pass_windows !! rr_partition raw = Some se ∧ in_range se raw.
Proof.
  intros Hcond Hlog Hpend (w' & Hw' & Hwp & Hpass).
  apply covered_elem in Hw' as (w & Hw & ->).
  assert (pw_partition w = rr_partition raw) as Hp by by case_decide.
  pose proof (pass_window w Hw) as (He & m & b & Hm & Hmark & Hb & Heq).
  pose proof (pass_near w m b Heq) as Hnear.
  assert (ahead pass_walk (near_edge pass_walk w) (rr_offset raw)) as Hahead.
  { destruct Hpend as [(m' & Hm' & Hr) (b' & Hb' & Ha)]. rewrite <- Hp in Hm', Hb'.
    rewrite Hmark in Hm'. rewrite Hb in Hb'. injection Hm' as <-. injection Hb' as <-.
    fold (Cursor.walk opening) in Ha. rewrite opening_walk in Ha. rewrite Hnear. by apply ahead_clamped. }
  assert (∀ in_w : (pw_start w ≤ rr_offset raw < pw_end w)%Z,
    ∃ se, window_map pass_windows !! rr_partition raw = Some se ∧ in_range se raw) as Hmap.
  { intros Hin. exists (pw_start w, pw_end w). split; [apply pass_map; by exists w|done]. }
  unfold window_is_empty in He. apply Z.leb_gt in He.
  destruct (Z.leb_spec limit (len (edges pass_found))) as [Hfull|Hshort].
  - destruct Hpass as (k & Hk & Hna).
    assert (∃ raw', (rr_partition raw' = rr_partition raw ∧ rr_offset raw' = k) ∧ raw' ∈ d ∧
      (pw_start w ≤ k < pw_end w)%Z) as (raw' & [Hp' Ho'] & Hd' & Hkr).
    { apply list_elem_of_fmap in Hk as (q & [= Hqp ->] & Hq).
      apply list_elem_of_fmap in Hq as (e & -> & He'). apply pass_entry in He' as (raw' & Hraw' & Hfrom).
      destruct (kept_from_raw pl raw' _ Hfrom) as [Ep Eo]. rewrite Eo. rewrite Ep in Hqp.
      destruct (ranked_key _ _ Hraw') as (Hd' & _ & _ & _ & w1 & Hw1 & Hw1p & Hr1).
      exists raw'. split; [done|]. split; [done|]. assert (w1 = w) as ->; [|done].
      pose proof (windows_NoDup span pass_walk take c (po_partitions Hok)) as Hnd.
      apply list_elem_of_lookup in Hw as [i Hi], Hw1 as [j Hj].
      assert (i = j) as <-; [|unfold pass_windows in *; congruence].
      apply (NoDup_lookup _ i j (pw_partition w) Hnd); rewrite list_lookup_fmap;
        unfold pass_windows in *; rewrite ?Hi, ?Hj; simpl; congruence. }
    assert (pw_start w ≤ rr_offset raw < pw_end w)%Z as Hin.
    { destruct pass_walk; simpl in *; lia. }
    split; [|by apply Hmap]. destruct Hcond as [Hold|[Hcomplete|Hlt]].
    + rewrite Hold in *. simpl in Hna. destruct (decide (rr_offset raw = k)) as [Hok'|Hne].
      * assert (raw = raw') as ->; [|done].
        apply Hfun; [done|by apply (si_log _ _ _ _ _ Hinv)|by unfold same_partition|congruence].
      * destruct (Hmap Hin) as (se & Hse & Hir).
        apply (si_prefix _ _ _ _ _ Hinv raw' se raw); [done|by rewrite Hp'|done|by unfold same_partition|done|lia].
    + destruct (Hmap Hin) as (se & Hse & Hir).
      apply (si_read _ _ _ _ _ Hinv (rr_partition raw) se raw); [|done..].
      rewrite <- Hp. by apply complete_all.
    + unfold edges, len in *. rewrite length_fmap in Hfull. lia.
  - case_decide as Hcomp.
    + assert (pw_start w ≤ rr_offset raw < pw_end w)%Z as Hin.
      { unfold near_edge, far_edge, ahead in *. destruct pass_walk; lia. }
      split; [|by apply Hmap]. destruct (Hmap Hin) as (se & Hse & Hir).
      apply (si_read _ _ _ _ _ Hinv (rr_partition raw) se raw); [|done..]. by rewrite <- Hp.
    + rewrite (proj2 (abandoned_near w)) in Hpass. done.
Qed.

Lemma pass_loses_nothing raw :
  pass_walk = Oldest ∨ so_complete pass_outcome = true ∨ (len pass_found < limit)%Z →
  log raw → pending span (remaining opening) (rr_partition raw) (rr_offset raw) →
  ¬ pending_after span pass_next (rr_partition raw) (rr_offset raw) →
  (∃ k, k ∈ pass_found ∧ kept_from pl raw k) ∨ filtered_out pl raw.
Proof.
  intros Hcond Hlog Hpend Hnext.
  destruct (decide (passed pass_walk (so_covered pass_outcome) (edges pass_found) limit
    (rr_partition raw) (rr_offset raw))) as [Hpass|Hnp].
  2: { destruct Hnext. by apply pass_next_pending. }
  destruct (passed_read raw Hcond Hlog Hpend Hpass) as [Hd Hw].
  destruct (accounted_kept raw Hd Hw) as [|[|[Hfull Hafter]]]; [by left|by right|].
  destruct Hpass as (w & _ & _ & Hpass). rewrite (proj2 (Z.leb_le _ _)) in Hpass.
  - destruct Hpass as (k & Hk & Hna). specialize (Hafter k Hk).
    destruct pass_walk; simpl in *; lia.
  - unfold edges, len in *. by rewrite length_fmap.
Qed.

(** Nothing on a page of completed windows, or on a full one, is read again. *)
Lemma pass_repeats_nothing p o :
  so_complete pass_outcome = true ∨ (limit ≤ len pass_found)%Z →
  (p, o) ∈ edges pass_found → ¬ pending_after span pass_next p o.
Proof.
  intros Hcond Hin. rewrite pass_next_pending. intros [_ Hnp]. apply Hnp. clear Hnp.
  pose proof Hin as Hin'. apply list_elem_of_fmap in Hin' as (k & [= -> ->] & Hk).
  apply list_elem_of_fmap in Hk as (e & -> & He). apply pass_entry in He as (raw & Hraw & Hfrom).
  destruct (kept_from_raw pl raw _ Hfrom) as [Ep Eo]. rewrite Ep, Eo in *.
  destruct (ranked_key _ _ Hraw) as (_ & _ & _ & _ & w & Hw & Hwp & Hr).
  exists (if decide (pw_partition w ∈ ws_completed scan) then w else abandoned w pass_walk).
  split_and!; [apply covered_elem; by exists w|by case_decide|].
  destruct (Z.leb_spec limit (len (edges pass_found))) as [Hfull|Hshort].
  - exists (rr_offset raw). split; [done|]. destruct pass_walk; simpl; lia.
  - destruct Hcond as [Hc|Hc]; [|unfold edges, len in *; rewrite length_fmap in Hshort; lia].
    rewrite decide_True by by apply complete_all. unfold far_edge, ahead. destruct pass_walk; lia.
Qed.

(** *** The next cursor *)

Lemma pass_next_walk c' : pass_next = Some c' → Cursor.order c' = Cursor.order opening ∧ Cursor.walk c' = pass_walk.
Proof.
  unfold pass_next, advance. intros Hc. apply cursor_settings in Hc as [-> ->]. by rewrite opening_walk.
Qed.

Definition in_span_range (b : Z) : Prop := (0 ≤ b ≤ i64_max)%Z.

Lemma clamped_range m b : wf_marks m → in_span_range (clamped m b).
Proof. unfold wf_marks, in_span_range, clamped. lia. Qed.

Lemma covered_range w :
  w ∈ so_covered pass_outcome →
  in_span_range (near_edge pass_walk w) ∧ in_span_range (far_edge pass_walk w).
Proof.
  intros (w0 & Hw0 & ->)%covered_elem. destruct (pass_window w0 Hw0) as (He & m & b & Hm & _ & _ & Heq).
  pose proof (pass_near w0 m b Heq) as Hnear. pose proof (clamped_range m b Hm) as Hr.
  case_decide; [|by rewrite (proj1 (abandoned_near w0)), (proj2 (abandoned_near w0)), Hnear].
  split; [by rewrite Hnear|]. unfold window_is_empty in He. apply Z.leb_gt in He.
  pose proof (po_take Hok). unfold wf_marks in Hm. unfold in_span_range, clamped in *.
  rewrite Heq in He |- *. unfold far_edge, window_on, clamped in *. destruct pass_walk; simpl in *; lia.
Qed.

Lemma kept_range :
  Forall (λ k : Z * Z, (0 ≤ k.2 < i64_max)%Z) (edges pass_found).
Proof.
  apply Forall_forall. intros [q k] Hin. destruct (found_pending q k Hin) as [(m & Hm & Hr) _].
  destruct (po_span Hok q m Hm). simpl. lia.
Qed.

Lemma pass_next_wf c' :
  wf opening → (∀ p, is_Some (watermarks span !! p) → in_i32 p) → pass_next = Some c' → wf c'.
Proof.
  intros Hopen Hi32 Hc p b Hb. unfold pass_next, advance in Hc.
  apply (cursor_offsets _ _ _ _ _ _ _ Hc) in Hb as [Hb Hmark]. clear Hc.
  split; [by apply Hi32|]. rewrite opening_walk in Hb.
  rewrite advance_boundaries in Hb by apply pass_covers.
  destruct (list_find _ _) as [[i w]|] eqn:Hfind; [|by apply (Hopen p)].
  apply list_find_Some in Hfind as (Hi & Hp & _). apply list_elem_of_lookup_2, covered_range in Hi as [Hn Hf].
  injection Hb as <-. destruct (limit <=? _)%Z; [|done].
  pose proof (past_furthest_lookup pass_walk (edges pass_found) p kept_range) as Hpast.
  destruct (past_furthest pass_walk (edges pass_found) !! p) as [e|]; [|done]. simpl.
  destruct Hpast as [(k & Hk & ->) _]. pose proof kept_range as Hkr. rewrite Forall_forall in Hkr.
  specialize (Hkr (p, k) Hk). simpl in Hkr. destruct pass_walk; simpl; lia.
Qed.
End kept.

(** *** Pages with nothing to read *)

Lemma opening_boundary_inv p b m :
  watermarks span !! p = Some m → remaining_offsets (remaining opening) !! p = Some b →
  boundary span pass_walk c p = Some b.
Proof.
  unfold opening, boundary. intros Hm. destruct c as [c'|]; [done|]. simpl. unfold start.
  rewrite remaining_offsets_walking. intros Hb. apply collect_lookup in Hb.
  - apply list_elem_of_omap in Hb as (q & _ & Hq). rewrite Hm.
    destruct (watermarks span !! q) as [m'|] eqn:E; [|done]. simpl in *. injection Hq as -> <-.
    rewrite Hm in E. by injection E as ->.
  - intros k v v' A1 A2. apply list_elem_of_omap in A1 as (q & _ & A1), A2 as (q' & _ & A2).
    destruct (watermarks span !! q) eqn:E1; [|done]. destruct (watermarks span !! q') eqn:E2; [|done].
    simpl in A1, A2. congruence.
Qed.

Lemma no_windows_pending p o :
  (0 < take)%Z → (∀ q, is_Some (watermarks span !! q) → q ∈ partitions span) →
  pass_windows = [] → ¬ pending span (remaining opening) p o.
Proof.
  intros Htake Hparts Hnil [(m & Hm & Hr) (b & Hb & Ha)].
  pose proof (po_span Hok p m Hm) as Hwf. unfold wf_marks in Hwf.
  fold (Cursor.walk opening) in Ha. rewrite opening_walk in Ha.
  assert (∃ y, (low m ≤ y < high m)%Z ∧ ahead pass_walk b y ∧ within_take pass_walk m b take y)
    as (y & Hy1 & Hy2 & Hy3).
  { unfold within_take, clamped, ahead in *. destruct pass_walk.
    - exists (Z.min b (high m) - 1)%Z. lia.
    - exists (Z.max b (low m)). lia. }
  destruct (proj2 (windows_cover span pass_walk take c p y (po_span Hok) (po_take Hok) (po_cursor Hok)))
    as (win & Hwin & _).
  - split; [apply Hparts; by exists m|]. exists m, b.
    split; [done|]. split; [by eapply opening_boundary_inv|done].
  - unfold pass_windows in Hnil. rewrite Hnil in Hwin. by apply not_elem_of_nil in Hwin.
Qed.

Lemma opening_wf :
  (∀ c', c = Some c' → wf c') → (∀ p, p ∈ partitions span → in_i32 p) → wf opening.
Proof.
  unfold opening. destruct c as [c'|]; [intros Hc _; by apply Hc|]. intros _ Hi32 p b. simpl.
  unfold start. rewrite remaining_offsets_walking. intros Hb. apply collect_lookup in Hb.
  - apply list_elem_of_omap in Hb as (q & Hq & Hb). destruct (watermarks span !! q) as [m|] eqn:E; [|done].
    injection Hb as -> <-. split; [by apply Hi32|]. destruct (po_span Hok p m E).
    unfold near_end. destruct pass_walk; lia.
  - intros k v v' A1 A2. apply list_elem_of_omap in A1 as (q & _ & A1), A2 as (q' & _ & A2).
    destruct (watermarks span !! q) eqn:E1; [|done]. destruct (watermarks span !! q') eqn:E2; [|done].
    simpl in A1, A2. congruence.
Qed.
End pass.

(** ** The passes of a page *)

Section fetching.
Context {PL : PayloadLib} {RL : RedactLib} {FL : FilterLib} {TL : TimestampLib}.
Context (log : RawRecord → Prop) (r : PageRequest) (span : LogSpan) (env : FetchEnv).

Abbreviation query := (pr_query r).
Abbreviation way := (query_walk query).
Abbreviation openings c := (opening span c (rq_order query) (query_direction query)).

(** A page request over a span as [page_request] and [resolve_span] make them. *)
Record request_ok : Prop := {
  ro_span : wf_span span;
  ro_partitions : NoDup (partitions span);
  ro_i32 : ∀ p, p ∈ partitions span → in_i32 p;
  ro_marks : ∀ p, is_Some (watermarks span !! p) → p ∈ partitions span;
  ro_take : (0 < pr_take r ≤ i64_max)%Z;
  ro_limit : (0 < pr_limit r ≤ usize_max)%Z;
  ro_query : query_consistent query;
  ro_cursor : ∀ c, rq_cursor query = Some c → wf c;
}.

Context (Hok : request_ok) (Hfun : log_functional log).
Context (Henv : ∀ pass ws, faithful_env log ws (fe_pass env pass ws)).

Lemma way_walk : way = walk_of (rq_order query) (query_direction query).
Proof. by rewrite query_direction_walk by apply Hok. Qed.

(** A cursor that goes the page's way. *)
Definition good_cursor (c : option RecordCursor) : Prop :=
  ∀ c', c = Some c' → Cursor.walk c' = way ∧ wf c'.

Lemma good_pass c :
  good_cursor c →
  pass_ok span (pr_take r) c (rq_order query) (query_direction query).
Proof.
  intros Hc. split; try apply Hok.
  - pose proof (ro_take Hok). lia.
  - intros c' Hc'. unfold pass_walk. rewrite <- way_walk. by apply Hc.
Qed.

Lemma openings_wf c : good_cursor c → wf (openings c).
Proof.
  intros Hc. apply (opening_wf span (pr_take r)).
  - by apply good_pass.
  - intros c' Hc'. by apply Hc.
  - apply Hok.
Qed.

(** What the passes from [st] on leave in [st']. *)
Record passes_ok (st st' : FetchState) : Prop := {
  ps_pipeline : ss_pipeline (fs_scan st') = ss_pipeline (fs_scan st);
  ps_complete : fs_complete st' = true → fs_complete st = true;
  ps_cursor : good_cursor (fs_cursor st');
  ps_length : (len (fs_kept st') ≤ pr_limit r)%Z;
  ps_kept : ∃ more, fs_kept st' = fs_kept st ++ more ∧
    (∀ k, k ∈ more → ∃ raw, log raw ∧ kept_from (ss_pipeline (fs_scan st)) raw k ∧
      pending span (remaining (openings (fs_cursor st))) (rr_partition raw) (rr_offset raw)) ∧
    (way = Oldest ∨ fs_complete st' = true ∨ (len (fs_kept st') < pr_limit r)%Z →
      ∀ raw, log raw →
        pending span (remaining (openings (fs_cursor st))) (rr_partition raw) (rr_offset raw) →
        ¬ pending_after span (fs_cursor st') (rr_partition raw) (rr_offset raw) →
        (∃ k, k ∈ more ∧ kept_from (ss_pipeline (fs_scan st)) raw k) ∨
        filtered_out (ss_pipeline (fs_scan st)) raw) ∧
    (fs_complete st' = true → ∀ p o, (p, o) ∈ edges more → ¬ pending_after span (fs_cursor st') p o);
  ps_shrinks : ∀ p o, pending_after span (fs_cursor st') p o →
    pending span (remaining (openings (fs_cursor st))) p o;
}.

(** One pass, as [passes] runs it. *)
Definition pass_step (pass : nat) (st : FetchState) (ws : list PartitionWindow)
    : result KafkaError (FetchState * bool) :=
  let from := openings (fs_cursor st) in
  let remaining := usize_sub (pr_limit r) (len (fs_kept st)) in
  let batch := batch_new remaining (rq_order query) (query_direction query) in
  let pass_env := fe_pass env pass ws in
  let '(scan, batch, outcome, _) := run (fs_scan st) ws batch pass_env in
  outcome ← outcome;
  let found := into_sorted batch in
  let next := advance span from (so_covered outcome) (edges found) remaining in
  Ok ({| fs_scan := scan; fs_cursor := next; fs_windows := ws;
         fs_kept := fs_kept st ++ found;
         fs_complete := fs_complete st && so_complete outcome;
         fs_scanned := fs_scanned st || so_scanned outcome |},
      (remaining <=? len found)%Z || bool_decide (next = None) || pe_expired pass_env).

Lemma pass_step_ok pass st ws st' stop :
  good_cursor (fs_cursor st) → (len (fs_kept st) < pr_limit r)%Z →
  ss_walk (fs_scan st) = way → ws = windows span way (pr_take r) (fs_cursor st) →
  pass_step pass st ws = Ok (st', stop) →
  passes_ok st st' ∧ ss_walk (fs_scan st') = way ∧
  (stop = false → is_Some (fs_cursor st') ∧ (len (fs_kept st') < pr_limit r)%Z).
Proof.
  intros Hc Hlen Hwalk Hws. unfold pass_step.
  pose proof (good_pass _ Hc) as Hpass. pose proof (ro_limit Hok) as Hlimit.
  pose proof (len_nonneg (fs_kept st)) as Hnn.
  rewrite usize_sub_id by (unfold_ints; lia).
  set (remaining := (pr_limit r - len (fs_kept st))%Z).
  destruct (run _ _ _ _) as [[[scan' batch'] outcome] calls] eqn:Erun.
  destruct outcome as [outcome|]; [|done]. cbn [mbind result_bind]. intros [= <- <-].
  assert (ws = pass_windows span (pr_take r) (fs_cursor st) (rq_order query) (query_direction query)) as ->.
  { unfold pass_windows, pass_walk. by rewrite <- way_walk. }
  apply (run_spec log) in Erun as (Hpl & Hw & scan & d & ranked & -> & Hinv & ->);
    [|done|by apply pass_map_wf|apply Henv].
  rewrite Hwalk in *. rewrite way_walk. fold (pass_walk (rq_order query) (query_direction query)).
  fold (pass_outcome span (pr_take r) (fs_cursor st) (rq_order query) (query_direction query) scan).
  fold (pass_batch (rq_order query) (query_direction query) (ss_pipeline (fs_scan st)) remaining ranked).
  fold (pass_found (rq_order query) (query_direction query) (ss_pipeline (fs_scan st)) remaining ranked).
  fold (pass_next span (pr_take r) (fs_cursor st) (rq_order query) (query_direction query)
    (ss_pipeline (fs_scan st)) remaining scan ranked).
  set (found := pass_found _ _ _ _ _). set (next := pass_next _ _ _ _ _ _ _ _ _).
  assert (0 < remaining)%Z as Hpos by (unfold remaining; lia).
  pose proof (pass_length (rq_order query) (query_direction query) (ss_pipeline (fs_scan st)) remaining ranked Hpos)
    as Hfound. fold found in Hfound.
  split; [|split; [simpl; by rewrite Hw, way_walk|]].
  2: { simpl. rewrite !orb_false_iff, Z.leb_gt. intros [[Hlt Hnext] _].
       apply bool_decide_eq_false in Hnext. rewrite len_app. split; [by destruct next|unfold remaining in *; lia]. }
  split; simpl.
  - done.
  - by intros [? _]%andb_true_iff.
  - intros c' Hc'. rewrite way_walk. split.
    + by apply (pass_next_walk _ _ _ _ _ Hpass) in Hc' as [_ ?].
    + apply (pass_next_wf log _ _ _ _ _ Hpass _ _ _ _ _ Hpos Hinv) in Hc'; [done|by apply openings_wf|].
      intros p Hp. by apply (ro_i32 Hok), (ro_marks Hok).
  - rewrite len_app. unfold remaining in Hfound. lia.
  - exists found. split; [done|]. split; [|split].
    + intros k Hk. apply list_elem_of_fmap in Hk as (e & -> & He).
      apply pass_entry in He as (raw & Hraw & Hfrom); [|done]. exists raw.
      destruct (ranked_key log _ _ _ _ _ Hpass _ _ _ Hinv _ _ Hraw) as (_ & Hlog & _ & _ & w & Hw' & Hwp & Ho).
      split_and!; [done..|]. rewrite <- Hwp. by apply (in_window_pending _ _ _ _ _ Hpass).
    + rewrite len_app. intros Hcond raw Hlog Hpend Hnext.
      apply (pass_loses_nothing log _ _ _ _ _ Hpass _ remaining scan d ranked Hpos Hfun Hinv); [|done..].
      destruct Hcond as [Hold|[[_ Hcomp]%andb_true_iff|Hlt]].
      * left. unfold pass_walk. by rewrite <- way_walk.
      * by right; left.
      * right; right. fold found. unfold remaining. lia.
    + intros [_ Hcomp]%andb_true_iff p o Hin.
      apply (pass_repeats_nothing log _ _ _ _ _ Hpass _ remaining scan d ranked Hpos Hinv); [by left|done].
  - intros p o Hp.
    by apply (pass_next_pending log _ _ _ _ _ Hpass _ remaining scan d ranked Hpos Hinv) in Hp as [? _].
Qed.

Lemma passes_unfold n pass st :
  passes r span env (S n) pass st =
  let ws := if decide (pass = 0) then fs_windows st
            else windows span way (pr_take r) (fs_cursor st) in
  if bool_decide (pass ≠ 0) && bool_decide (ws = []) then
    Ok {| fs_scan := fs_scan st; fs_cursor := None; fs_windows := ws;
          fs_kept := fs_kept st; fs_complete := fs_complete st; fs_scanned := fs_scanned st |}
  else
    '(st', stop) ← pass_step pass st ws;
    if (stop : bool) then Ok st' else passes r span env n (S pass) st'.
Proof.
  cbn [passes]. unfold pass_step, opening, pass_walk. rewrite <- way_walk.
  set (ws := if decide (pass = 0) then _ else _). destruct (_ && bool_decide (ws = [])); [done|].
  destruct (run _ _ _ _) as [[[scan' batch'] outcome] calls]. by destruct outcome.
Qed.

Lemma passes_trans st1 st2 st3 :
  good_cursor (fs_cursor st1) → is_Some (fs_cursor st2) →
  passes_ok st1 st2 → passes_ok st2 st3 → passes_ok st1 st3.
Proof.
  intros Hc1 [c2 Hc2] [P1 C1 G1 L1 (more1 & K1 & F1 & N1 & R1) S1] [P2 C2 G2 L2 (more2 & K2 & F2 & N2 & R2) S2].
  assert (openings (fs_cursor st2) = c2) as Ho by by rewrite Hc2.
  assert (∀ p o, pending_after span (fs_cursor st2) p o ↔ pending span (remaining (openings (fs_cursor st2))) p o)
    as Hafter by by (intros p o; rewrite Ho, Hc2).
  split.
  - congruence.
  - auto.
  - done.
  - done.
  - exists (more1 ++ more2). split; [by rewrite K2, K1, app_assoc|]. split; [|split].
    + intros k [Hk|Hk]%elem_of_app; [by apply F1|]. destruct (F2 k Hk) as (raw & Hlog & Hfrom & Hpend).
      exists raw. rewrite P1 in Hfrom. split_and!; [done..|]. by apply S1, Hafter.
    + intros Hcond raw Hlog Hpend Hnot.
      destruct (decide (pending_after span (fs_cursor st2) (rr_partition raw) (rr_offset raw))) as [Hp2|Hp2].
      * destruct (N2 Hcond raw Hlog) as [(k & Hk & Hfrom)|Hf]; [by apply Hafter|done| |].
        -- left. exists k. rewrite P1 in Hfrom. split; [apply elem_of_app; by right|done].
        -- right. by rewrite P1 in Hf.
      * destruct (N1) with (raw := raw) as [(k & Hk & Hfrom)|Hf]; [|done..| |by right].
        -- destruct Hcond as [|[Hcomp|Hlt]]; [by left|right; left; by auto|right; right].
           rewrite K2, len_app in Hlt. pose proof (len_nonneg more2). lia.
        -- left. exists k. split; [apply elem_of_app; by left|done].
    + intros Hcomp p o Hin Hpend. unfold edges in Hin. rewrite fmap_app in Hin.
      apply elem_of_app in Hin as [Hin|Hin].
      * apply (R1 (C2 Hcomp) p o Hin). by apply Hafter, S2.
      * by apply (R2 Hcomp p o Hin).
  - intros p o Hp. by apply S1, Hafter, S2.
Qed.

Lemma passes_spec n pass st st' :
  good_cursor (fs_cursor st) → (len (fs_kept st) < pr_limit r)%Z →
  ss_walk (fs_scan st) = way →
  fs_windows st = windows span way (pr_take r) (fs_cursor st) ∨ pass ≠ 0 →
  is_Some (fs_cursor st) ∨ pass = 0 ∧ n ≠ 0 →
  passes r span env n pass st = Ok st' → passes_ok st st'.
Proof.
  revert pass st. induction n as [|n IH]; intros pass st Hc Hlen Hwalk Hws Hcur.
  { intros [= <-]. destruct Hcur as [[c Hcur]|[_ []]]; [|done]. split; try done; [lia| |by rewrite Hcur].
    exists []. rewrite app_nil_r. split_and!; [done|by intros k ?%not_elem_of_nil| |by intros _ p o ?%not_elem_of_nil].
    rewrite Hcur. intros _ raw _ Hp Hn. by destruct Hn. }
  rewrite passes_unfold. cbv zeta. set (ws := if decide (pass = 0) then _ else _).
  assert (ws = windows span way (pr_take r) (fs_cursor st)) as Hws'.
  { unfold ws. case_decide; [|done]. by destruct Hws. }
  destruct (bool_decide (pass ≠ 0) && bool_decide (ws = [])) eqn:Estop.
  - apply andb_true_iff in Estop as [_ Hnil%bool_decide_eq_true]. intros [= <-].
    assert (∀ p o, ¬ pending span (remaining (openings (fs_cursor st))) p o) as Hnone.
    { intros p o. apply (no_windows_pending span (pr_take r)).
      - by apply good_pass.
      - apply Hok.
      - apply Hok.
      - unfold pass_windows, pass_walk. rewrite <- way_walk. congruence. }
    split; simpl; try done; [lia|]. exists []. rewrite app_nil_r.
    split_and!; [done|by intros k ?%not_elem_of_nil| |by intros _ p o ?%not_elem_of_nil].
    intros _ raw _ Hp _. by destruct (Hnone _ _ Hp).
  - destruct (pass_step pass st ws) as [[st1 stop]|] eqn:Estep; [|done].
    destruct (pass_step_ok _ _ _ _ _ Hc Hlen Hwalk Hws' Estep) as (Hst1 & Hwalk1 & Hgo).
    cbn [mbind result_bind]. destruct stop; [by intros [= <-]|].
    destruct (Hgo eq_refl) as [Hcur1 Hlen1]. intros Hpasses.
    apply (passes_trans st st1); [done..|].
    by apply (IH (S pass) st1); [apply Hst1|done|done|right|left|].
Qed.
End fetching.

(** ** Pages *)

Section page.
Context {PL : PayloadLib} {RL : RedactLib} {FL : FilterLib} {TL : TimestampLib}.

(** The pipeline a page's records go through. *)
Definition page_pipeline (r : PageRequest) (env : FetchEnv) : RecordPipeline :=
  {| pl_codec := fe_codec env; pl_filter := rq_filter (pr_query r);
     pl_obfuscator := topic_obfuscator env (rq_topic (pr_query r));
     pl_fallback_schema_id := rq_schema_id (pr_query r) |}.

(** What the page's own cursor had to read. *)
Definition page_opening (r : PageRequest) (span : LogSpan) : RecordCursor :=
  opening span (rq_cursor (pr_query r)) (rq_order (pr_query r)) (query_direction (pr_query r)).

(** The cursor on from a page, the way it was walking. *)
Definition onward (r : PageRequest) (page : RecordPage) : option string :=
  match query_direction (pr_query r) with
  | Forward => rp_next_cursor page
  | Backward => rp_prev_cursor page
  end.

(** [raw] is what the client still gets by following the page's cursor. *)
Definition reached_later (r : PageRequest) (span : LogSpan) (page : RecordPage) (raw : RawRecord)
    : Prop :=
  ∃ text c, onward r page = Some text ∧ parse text = Ok c ∧
    Cursor.walk c = query_walk (pr_query r) ∧
    pending span (remaining c) (rr_partition raw) (rr_offset raw).

Definition sorted_page (order : RecordOrder) (raws : list RawRecord) : Prop :=
  StronglySorted (cmp_le (λ a b, cmp_for_order (raw_sort_key a) (raw_sort_key b) order)) raws.

Context (log : RawRecord → Prop) (r : PageRequest) (span : LogSpan) (env : FetchEnv).
Context (Hok : request_ok r span) (Hfun : log_functional log).
Context (Henv : ∀ pass ws, faithful_env log ws (fe_pass env pass ws)).

Definition initial_state (ws : list PartitionWindow) : FetchState :=
  {| fs_scan := {| ss_pipeline := page_pipeline r env; ss_walk := query_walk (pr_query r);
                   ss_assigned := ws |};
     fs_cursor := rq_cursor (pr_query r); fs_windows := ws;
     fs_kept := []; fs_complete := true; fs_scanned := false |}.

(** A page is an empty span's, or what its passes left. *)
Lemma fetch_inv page :
  fetch r span env = Ok page →
  (windows span (query_walk (pr_query r)) (pr_take r) (rq_cursor (pr_query r)) = [] ∧
   rp_records page = [] ∧ onward r page = None) ∨
  ∃ ws st, passes_ok log r span (initial_state ws) st ∧ finish_page r span st = Ok page.
Proof.
  unfold fetch. destruct (windows _ _ _ _) as [|w ws] eqn:Ews.
  { intros [= <-]. left. unfold onward. by destruct (query_direction (pr_query r)). }
  unfold scan_open. destruct (fe_open env) as [[u|error]|]; [|done|done]. cbn [mbind result_bind].
  change {| fs_scan := _ |} with (initial_state (w :: ws)).
  destruct (passes r span env _ 0 _) as [st|] eqn:E; [|done]. cbn [mbind result_bind].
  intros Hpage. right. exists (w :: ws), st. split; [|done].
  apply (passes_spec log r span env Hok Hfun Henv) in E; try done; simpl.
  - intros c Hc. split; [by apply query_walk_cursor|by apply (ro_cursor _ _ Hok)].
  - rewrite len_nil. apply (ro_limit _ _ Hok).
  - by left.
  - right. unfold max_passes, MAX_FILTER_PASSES. split; [done|]. by destruct (searching (pr_query r)).
Qed.

Lemma finish_inv st page :
  finish_page r span st = Ok page →
  rp_complete page = fs_complete st ∧ onward r page = to_string <$> fs_cursor st ∧
  rp_records page = render_page (ss_pipeline (fs_scan st))
    (sort_by (λ a b, cmp_for_order (raw_sort_key (kept_raw a)) (raw_sort_key (kept_raw b))
      (rq_order (pr_query r))) (fs_kept st)) (rq_topic (pr_query r)).
Proof.
  unfold finish_page, onward. destruct (negb _ && _); [done|].
  destruct (query_direction (pr_query r)); by intros [= <-].
Qed.

Lemma rendered_elem pl kept order topic k :
  k ∈ kept → ∃ rec, rec ∈ render_page pl (sort_by (λ a b, cmp_for_order (raw_sort_key (kept_raw a))
      (raw_sort_key (kept_raw b)) order) kept) topic ∧ rendered_from pl topic k rec.
Proof.
  intros Hk. apply (Forall2_elem _ _ _ _ (render_page_spec pl topic _)). by rewrite elem_of_sort_by.
Qed.

Lemma rendered_sorted pl order topic page recs :
  Forall2 (rendered_from pl topic) page recs →
  (∀ k, k ∈ page → ∃ raw, log raw ∧ kept_from pl raw k) →
  StronglySorted (cmp_le (λ a b, cmp_for_order (raw_sort_key (kept_raw a))
    (raw_sort_key (kept_raw b)) order)) page →
  ∃ raws, Forall2 (shows pl) raws recs ∧ Forall log raws ∧
    (λ k, raw_sort_key (kept_raw k)) <$> page = raw_sort_key <$> raws ∧ sorted_page order raws.
Proof.
  intros Hf Hfrom Hs.
  assert (∃ raws, Forall2 (shows pl) raws recs ∧ Forall log raws ∧
    (λ k, raw_sort_key (kept_raw k)) <$> page = raw_sort_key <$> raws) as (raws & H1 & H2 & H3).
  { clear Hs. induction Hf as [|k rec page recs Hk _ IH]; [by exists []|].
    destruct IH as (raws & H1 & H2 & H3); [intros k' Hk'; apply Hfrom; by right|].
    destruct (Hfrom k) as (raw & Hlog & Hkf); [by left|]. exists (raw :: raws).
    split_and!; [|by constructor|].
    - constructor; [|done]. by eapply rendered_shows.
    - csimpl. rewrite H3. f_equal. unfold raw_sort_key.
      destruct (kept_from_raw pl raw k Hkf) as [-> ->]. f_equal.
      unfold kept_from in Hkf. pose proof (screen_record_raw pl raw) as Hraw.
      assert (rr_timestamp (screen_record pl raw).1 = rr_timestamp raw) as Hts.
      { clear. unfold screen_record. repeat case_match; done. }
      destruct (screen_record pl raw) as [masked v]. simpl in *.
      destruct Hkf as [[_ ->]|[_ Hd]]; [done|]. destruct k as [|q]; [done|].
      destruct Hd as (Hq & _). simpl. by rewrite Hq. }
  exists raws. split_and!; [done..|]. unfold sorted_page.
  assert (StronglySorted (cmp_le (λ a b, cmp_for_order a b order)) (raw_sort_key <$> raws)) as Hk.
  { rewrite <- H3. clear -Hs. induction Hs as [|k page Hs IH Hk]; [constructor|]. csimpl. constructor; [done|].
    apply Forall_fmap. eapply Forall_impl; [exact Hk|]. done. }
  clear -Hk. induction raws as [|raw raws IH]; [constructor|]. csimpl in Hk.
  apply StronglySorted_inv in Hk as [Hk Hall]. constructor; [by apply IH|].
  rewrite Forall_fmap in Hall. eapply Forall_impl; [exact Hall|]. done.
Qed.

Lemma page_loses_nothing page raw :
  fetch r span env = Ok page →
  query_walk (pr_query r) = Oldest ∨ rp_complete page = true ∨ (len (rp_records page) < pr_limit r)%Z →
  log raw → pending span (remaining (page_opening r span)) (rr_partition raw) (rr_offset raw) →
  reached_later r span page raw ∨
  (∃ rec, rec ∈ rp_records page ∧ shows (page_pipeline r env) raw rec) ∨
  filtered_out (page_pipeline r env) raw.
Proof.
  intros Hfetch Hcond Hlog Hpend. apply fetch_inv in Hfetch as [(Hnil & _)|(ws & st & Hps & Hfin)].
  { destruct (no_windows_pending span (pr_take r) (rq_cursor (pr_query r)) (rq_order (pr_query r))
      (query_direction (pr_query r))) with (p := rr_partition raw) (o := rr_offset raw); try done.
    - apply (good_pass r span Hok). intros c Hc.
      split; [by apply query_walk_cursor|by apply (ro_cursor _ _ Hok)].
    - apply (ro_take _ _ Hok).
    - apply (ro_marks _ _ Hok).
    - unfold pass_windows, pass_walk. by rewrite <- (way_walk r span Hok). }
  apply finish_inv in Hfin as (Hcomp & Hon & Hrecs).
  destruct Hps as [P C G L (more & K & F & N & R) S]. simpl in *. subst more.
  destruct (decide (pending_after span (fs_cursor st) (rr_partition raw) (rr_offset raw))) as [Hp|Hp].
  - left. destruct (fs_cursor st) as [c|] eqn:Ec; [|done]. destruct (G c eq_refl) as [Hw Hwf].
    exists (to_string c), c. rewrite Hon. split_and!; [done|by apply parse_to_string_wf|done|done].
  - right. destruct (N) with (raw := raw) as [(k & Hk & Hfrom)|]; [|done..| |by right].
    + destruct Hcond as [|[|Hlt]]; [by left|right; left; congruence|right; right].
      rewrite Hrecs in Hlt. unfold len in *.
      rewrite <- (Forall2_length _ _ _ (render_page_spec _ _ _)), length_sort_by in Hlt. done.
    + left. rewrite Hrecs.
      destruct (rendered_elem (ss_pipeline (fs_scan st)) (fs_kept st) (rq_order (pr_query r))
        (rq_topic (pr_query r)) k Hk) as (rec & Hrec & Hrend).
      exists rec. split; [done|]. rewrite P in Hrend. by eapply rendered_shows.
Qed.

Lemma page_sorted page :
  fetch r span env = Ok page →
  (len (rp_records page) ≤ pr_limit r)%Z ∧
  ∃ raws, Forall2 (shows (page_pipeline r env)) raws (rp_records page) ∧ Forall log raws ∧
    sorted_page (rq_order (pr_query r)) raws ∧
    ∀ raw, raw ∈ raws →
      pending span (remaining (page_opening r span)) (rr_partition raw) (rr_offset raw) ∧
      (rp_complete page = true → ¬ reached_later r span page raw).
Proof.
  intros [(_ & Hrecs & _)|(ws & st & Hps & Hfin)]%fetch_inv.
  { rewrite Hrecs. split; [rewrite len_nil; pose proof (ro_limit _ _ Hok); lia|].
    exists []. split; [by apply Forall2_nil|]. split; [by apply Forall_nil|].
    split; [constructor|by intros raw ?%not_elem_of_nil]. }
  apply finish_inv in Hfin as (Hcomp & Hon & Hrecs).
  destruct Hps as [P C G L (more & K & F & N & R) S]. simpl in *. subst more. rewrite Hrecs.
  pose proof (render_page_spec (ss_pipeline (fs_scan st)) (rq_topic (pr_query r))
    (sort_by (λ a b, cmp_for_order (raw_sort_key (kept_raw a)) (raw_sort_key (kept_raw b))
      (rq_order (pr_query r))) (fs_kept st))) as Hf.
  split.
  { unfold len in *. by rewrite <- (Forall2_length _ _ _ Hf), length_sort_by. }
  rewrite P in Hf |- *.
  destruct (rendered_sorted _ (rq_order (pr_query r)) _ _ _ Hf) as (raws & H1 & H2 & H3 & H4).
  - intros k Hk. rewrite elem_of_sort_by in Hk. destruct (F k Hk) as (raw & Hlog & Hfrom & _). by exists raw.
  - apply sort_by_sorted, (cmp_on_order (λ k, raw_sort_key (kept_raw k)) (λ a b, cmp_for_order a b _)), _.
  - exists raws. split_and!; [done..|]. intros raw Hraw.
    assert (raw_sort_key raw ∈ (λ k, raw_sort_key (kept_raw k)) <$> sort_by (λ a b, cmp_for_order
      (raw_sort_key (kept_raw a)) (raw_sort_key (kept_raw b)) (rq_order (pr_query r))) (fs_kept st)) as Hin.
    { rewrite H3. apply list_elem_of_fmap. by exists raw. }
    apply list_elem_of_fmap in Hin as (k & Hkey & Hk). rewrite elem_of_sort_by in Hk.
    unfold raw_sort_key in Hkey. injection Hkey as _ Hkp Hko.
    destruct (F k Hk) as (raw' & Hlog' & Hfrom' & Hpend').
    destruct (kept_from_raw _ raw' k Hfrom') as [Ep Eo].
    split; [unfold page_opening; congruence|]. intros Hc (text & c & Htext & Hparse & _ & Hlater).
    assert ((rr_partition raw, rr_offset raw) ∈ edges (fs_kept st)) as Hedge.
    { apply list_elem_of_fmap. exists k. split; [by rewrite Hkp, Hko|done]. }
    apply (R ltac:(congruence) _ _ Hedge). rewrite Hon in Htext.
    destruct (fs_cursor st) as [c'|] eqn:Ec; [|done]. injection Htext as <-.
    destruct (G c' eq_refl) as [_ Hwf]. rewrite parse_to_string_wf in Hparse by done.
    by injection Hparse as ->.
Qed.
End page.

(** ** Properties *)

Section properties.
Context {PL : PayloadLib} {RL : RedactLib} {FL : FilterLib} {TL : TimestampLib}.

(** C1 Paging loses no record. With a consumer faithful to the log, every record the
    page's cursor had to read is on the page, or was left out by the filter, or is
    still ahead of the cursor the page hands on, which parses back as issued. It
    holds for pages that read every window they opened, for short pages, and for
    pages that walk from the oldest record. *)
Theorem fetch_loses_nothing (log : RawRecord → Prop) r span env page raw :
  request_ok r span → log_functional log →
  (∀ pass ws, faithful_env log ws (fe_pass env pass ws)) →
  fetch r span env = Ok page →
  query_walk (pr_query r) = Oldest ∨ rp_complete page = true ∨
    (len (rp_records page) < pr_limit r)%Z →
  log raw → pending span (remaining (page_opening r span)) (rr_partition raw) (rr_offset raw) →
  reached_later r span page raw ∨
  (∃ rec, rec ∈ rp_records page ∧ shows (page_pipeline r env) raw rec) ∨
  filtered_out (page_pipeline r env) raw.
Proof. intros. by eapply page_loses_nothing. Qed.

(** C2 A page holds at most its limit of records, each showing a record of the log
    its cursor had still to read, sorted in the order the client asked for whichever
    way the page walked; and a complete page repeats nothing on the pages after it. *)
Theorem fetch_page_spec (log : RawRecord → Prop) r span env page :
  request_ok r span → log_functional log →
  (∀ pass ws, faithful_env log ws (fe_pass env pass ws)) →
  fetch r span env = Ok page →
  (len (rp_records page) ≤ pr_limit r)%Z ∧
  ∃ raws, Forall2 (shows (page_pipeline r env)) raws (rp_records page) ∧ Forall log raws ∧
    sorted_page (rq_order (pr_query r)) raws ∧
    ∀ raw, raw ∈ raws →
      pending span (remaining (page_opening r span)) (rr_partition raw) (rr_offset raw) ∧
      (rp_complete page = true → ¬ reached_later r span page raw).
Proof. intros. by eapply page_sorted. Qed.
End properties.

(** ** Witnesses and a page that skips records *)

Section witnesses.
#[local] Existing Instances sample_payload_lib sample_redact_lib sample_filter_lib
  sample_timestamp_lib.

Definition sample_raw (offset : Z) : RawRecord :=
  {| rr_partition := 0; rr_offset := offset; rr_timestamp := 5; rr_key := None;
     rr_value := Some "v"; rr_headers := [] |}.

Definition sample_request (o : RecordOrder) (limit : Z) : PageRequest :=
  {| pr_query := {| rq_topic := "t"; rq_partitions := []; rq_filter := None;
                    rq_timestamps := UNBOUNDED; rq_limit := limit; rq_order := o;
                    rq_cursor := None; rq_schema_id := None |};
     pr_limit := limit; pr_take := window_take RecordLimits_default limit false |}.

Definition short_span : LogSpan :=
  {| partitions := [0%Z]; watermarks := {[ 0%Z := {| low := 0; high := 4 |} ]} |}.

Definition silent : IdleReport := {| ir_position _ := None; ir_lags := ∅ |}.
Definition finished : IdleReport := {| ir_position _ := Some 4%Z; ir_lags := ∅ |}.

Definition sample_env (polls : list PollEvent) : FetchEnv :=
  {| fe_codec := None; fe_policy := None; fe_open := Some (Ok ());
     fe_pass _ _ := {| pe_reassign := Some (Ok ()); pe_polls := polls; pe_expired := true |} |}.

(** The log of offsets 0 to 3, and a consumer that only returned the first. *)
Definition four_records (raw : RawRecord) : Prop := ∃ o, (0 ≤ o < 4)%Z ∧ raw = sample_raw o.
Definition cut_short : FetchEnv := sample_env [Polled [sample_raw 0] silent; DeadlinePassed].

(** A log of one record, and a consumer that read all of it. *)
Definition one_record (raw : RawRecord) : Prop := raw = sample_raw 1.
Definition read_all : FetchEnv := sample_env [Polled [sample_raw 1] silent; Polled [] finished].

Lemma sample_request_ok o : request_ok (sample_request o 1) short_span.
Proof.
  split; simpl; try done.
  - unfold wf_span. apply (bool_decide_unpack _). vm_compute. exact I.
  - apply NoDup_singleton.
  - by intros p ->%list_elem_of_singleton.
  - intros p [m Hm]. apply lookup_singleton_Some in Hm as [<- _]. by left.
Qed.

Lemma four_records_functional : log_functional four_records.
Proof. intros r1 r2 (o1 & _ & ->) (o2 & _ & ->) _. simpl. by intros ->. Qed.

Lemma one_record_functional : log_functional one_record.
Proof. intros r1 r2 -> ->. done. Qed.

Lemma cut_short_faithful pass ws : faithful_env four_records ws (fe_pass cut_short pass ws).
Proof.
  split; [|done]. split; [|done]. split; [exists 0%Z; split; [lia|done]|].
  split; [by intros r ?%not_elem_of_nil|]. intros se r _ (o & Ho & ->) _ _ Hlt. simpl in Hlt. lia.
Qed.

Lemma read_all_faithful pass ws : faithful_env one_record ws (fe_pass read_all pass ws).
Proof.
  split; [split; [split; [done|split; [by intros r ?%not_elem_of_nil|]]|done]|].
  - intros se r _ -> _ _ Hlt. simpl in Hlt. lia.
  - split; [|done]. intros p se r position _ _ -> _ _ _. by left.
Qed.

Lemma fetch_loses_nothing_witness :
  ∃ page, fetch (sample_request Newest 1) short_span read_all = Ok page ∧
  (reached_later (sample_request Newest 1) short_span page (sample_raw 1) ∨
   (∃ rec, rec ∈ rp_records page ∧
      shows (page_pipeline (sample_request Newest 1) read_all) (sample_raw 1) rec) ∨
   filtered_out (page_pipeline (sample_request Newest 1) read_all) (sample_raw 1)).
Proof.
  eexists. split; [vm_compute; reflexivity|].
  apply (fetch_loses_nothing one_record _ _ _ _ _ (sample_request_ok Newest) one_record_functional
    read_all_faithful); [vm_compute; reflexivity|by right; left|done|].
  split; [exists {| low := 0; high := 4 |}; done|]. exists 4%Z. done.
Defined.

Lemma fetch_page_spec_witness :
  ∃ page, fetch (sample_request Newest 1) short_span read_all = Ok page ∧
    (len (rp_records page) ≤ 1)%Z.
Proof.
  eexists. split; [vm_compute; reflexivity|].
  apply (fetch_page_spec one_record _ _ _ _ (sample_request_ok Newest) one_record_functional
    read_all_faithful). vm_compute. reflexivity.
Defined.

(** A full page that walks from the newest record does step over records when its
    deadline cuts a window short: the consumer returned offset 0 of a window of four,
    the page is full with it, and its cursor leaves nothing to read, so offset 3 is
    on no page. *)
Theorem cut_short_newest_page_skips :
  let r := sample_request Newest 1 in
  ∃ page, request_ok r short_span ∧ log_functional four_records ∧
    (∀ pass ws, faithful_env four_records ws (fe_pass cut_short pass ws)) ∧
    fetch r short_span cut_short = Ok page ∧ rp_complete page = false ∧
    four_records (sample_raw 3) ∧
    pending short_span (remaining (page_opening r short_span)) 0 3 ∧
    onward r page = None ∧
    ¬ (∃ rec, rec ∈ rp_records page ∧ rec_offset rec = 3%Z) ∧
    ¬ filtered_out (page_pipeline r cut_short) (sample_raw 3).
Proof.
  eexists. split; [apply sample_request_ok|]. split; [apply four_records_functional|].
  split; [apply cut_short_faithful|]. split; [vm_compute; reflexivity|]. split; [done|].
  split; [exists 3%Z; split; [lia|done]|].
  split; [split; [exists {| low := 0; high := 4 |}; done|exists 4%Z; done]|].
  split; [done|]. split.
  - intros (rec & Hrec & Ho). apply list_elem_of_singleton in Hrec as ->. done.
  - intros [Hf|[Hf _]]; done.
Qed.
End witnesses.
