(* ===== verification/TopicConfig.v ===== *)
(** [src/kafka/topic_config.rs] and [src/kafka/storage.rs]: config entries, an edit of
    them and when a read shows it, and what a broker's log directories hold. *)

From S2P Require Import Prelude Text.

(** In declaration order, which is the order Kafka lets one source override another:
    an earlier source wins. *)
Inductive ConfigSource : Set :=
  | DynamicTopic | DynamicBroker | DynamicDefaultBroker | StaticBroker | DefaultSource.

#[export] Instance ConfigSource_eq_dec : EqDecision ConfigSource.
Proof. solve_decision. Defined.

Definition source_rank (s : ConfigSource) : Z :=
  match s with
  | DynamicTopic => 0 | DynamicBroker => 1 | DynamicDefaultBroker => 2
  | StaticBroker => 3 | DefaultSource => 4
  end%Z.

Record ConfigEntry : Set := {
  ce_name : string;
  ce_value : option string;
  ce_source : ConfigSource;
  ce_read_only : bool;
  ce_sensitive : bool;
}.

#[export] Instance ConfigEntry_eq_dec : EqDecision ConfigEntry.
Proof. solve_decision. Defined.

Record ConfigEdit : Set := { edit_set : gmap string string; edit_reset : gset string }.

Definition config_entry (entries : list ConfigEntry) (name : string) : option ConfigEntry :=
  List.find (λ entry, String.eqb (ce_name entry) name) entries.

(** A set value shows once its source reads it back, or a stronger source hides it; a
    reset one once its source no longer has it. *)
Definition set_shows (entries : list ConfigEntry) (source : ConfigSource) (name value : string) : bool :=
  match config_entry entries name with
  | None => false
  | Some entry =>
      (source_rank (ce_source entry) <? source_rank source)%Z ||
      bool_decide (ce_source entry = source) &&
        (ce_sensitive entry || bool_decide (ce_value entry = Some value))
  end.

Definition reset_shows (entries : list ConfigEntry) (source : ConfigSource) (name : string) : bool :=
  match config_entry entries name with
  | None => true
  | Some entry => bool_decide (ce_source entry ≠ source)
  end.

Definition shows_in (edit : ConfigEdit) (entries : list ConfigEntry) (source : ConfigSource) : bool :=
  forallb (λ kv, set_shows entries source kv.1 kv.2) (btree_iter (edit_set edit)) &&
  forallb (reset_shows entries source) (elements (edit_reset edit)).

Inductive BrokerScope : Set := OneBroker (id : Z) | EveryBroker.

Definition scope_source (scope : BrokerScope) : ConfigSource :=
  match scope with OneBroker _ => DynamicBroker | EveryBroker => DynamicDefaultBroker end.

Definition config_lookup (entries : list ConfigEntry) (name : string) : option string :=
  entry ← config_entry entries name; ce_value entry.

Inductive CleanupPolicy : Set := DeletePolicy | Compact | CompactDelete.

#[export] Instance CleanupPolicy_eq_dec : EqDecision CleanupPolicy.
Proof. solve_decision. Defined.

Definition parse_policy (value : string) : CleanupPolicy :=
  let '(compact, delete) := foldl (λ '(compact, delete) part,
    if String.eqb (trim part) "compact" then (true, delete)
    else if String.eqb (trim part) "delete" then (compact, true)
    else (compact, delete)) (false, false) (split comma value) in
  match compact, delete with
  | true, true => CompactDelete
  | true, false => Compact
  | _, _ => DeletePolicy
  end.

Definition topic_config_values (entries : option (list ConfigEntry))
    : option CleanupPolicy * option Z :=
  let entries := default [] entries in
  (parse_policy <$> config_lookup entries "cleanup.policy",
   value ← config_lookup entries "retention.ms"; parse_i64 value).

(** ** Log directories *)

Record ReplicaLog : Set := {
  rl_topic : string;
  rl_partition : Z;
  rl_size_bytes : Z;
  rl_future : bool;
}.

Record LogDir : Set := {
  ld_broker : Z;
  ld_path : string;
  ld_error : option string;
  ld_total_bytes : option Z;
  ld_usable_bytes : option Z;
  ld_cordoned : bool;
  ld_replicas : list ReplicaLog;
}.

(** ** Lemmas *)

Lemma parse_policy_fold parts compact delete :
  foldl (λ '(compact, delete) part,
    if String.eqb (trim part) "compact" then (true, delete)
    else if String.eqb (trim part) "delete" then (compact, true)
    else (compact, delete)) (compact, delete) parts =
  (compact || existsb (λ part, String.eqb (trim part) "compact") parts,
   delete || existsb (λ part, String.eqb (trim part) "delete") parts).
Proof.
  revert compact delete. induction parts as [|part parts IH]; intros compact delete; cbn [foldl existsb].
  - by rewrite !orb_false_r.
  - destruct (String.eqb_spec (trim part) "compact") as [Hc|Hc]; [rewrite Hc; simpl|].
    + rewrite IH. simpl. by rewrite orb_true_r.
    + destruct (String.eqb_spec (trim part) "delete") as [Hd|Hd]; rewrite IH; simpl; [|done].
      by rewrite orb_true_r.
Qed.

(** A later entry of the same source shows an edit exactly when it reads back. *)
Lemma shows_in_spec edit entries source :
  shows_in edit entries source = true ↔
  (∀ name value, edit_set edit !! name = Some value → set_shows entries source name value = true) ∧
  (∀ name, name ∈ edit_reset edit → reset_shows entries source name = true).
Proof.
  unfold shows_in. rewrite andb_true_iff, !forallb_forall. f_equiv.
  - split.
    + intros Hs name value Hn. apply (Hs (name, value)), list_elem_of_In. by apply elem_of_btree_iter.
    + intros Hs [name value] Hin%list_elem_of_In. apply elem_of_btree_iter in Hin. by apply Hs.
  - split.
    + intros Hr name Hn. apply Hr, list_elem_of_In. by apply elem_of_elements.
    + intros Hr name Hin%list_elem_of_In. apply Hr. by apply elem_of_elements.
Qed.
