(* ===== verification/Group.v ===== *)
(** [src/kafka/group.rs]: consumer groups as klens reads them. *)

From Stdlib Require Import Ascii.
From S2P Require Import Prelude Text Utf8.

Record CommittedOffset : Set := { co_topic : string; co_partition : Z; co_offset : Z }.

#[export] Instance CommittedOffset_eq_dec : EqDecision CommittedOffset.
Proof. solve_decision. Defined.

Inductive GroupState : Set :=
  | Stable | EmptyGroup | PreparingRebalance | CompletingRebalance
  | Assigning | Reconciling | Dead | UnknownState.

#[export] Instance GroupState_eq_dec : EqDecision GroupState.
Proof. solve_decision. Defined.

Definition has_members (s : GroupState) : bool :=
  match s with EmptyGroup | Dead => false | _ => true end.

(** [ch.to_ascii_lowercase()] of the ASCII letters and digits of [raw]. *)
Definition normalized (raw : string) : string :=
  map_chars to_lower (filter_chars is_alphanumeric raw).

Definition parse_state (raw : string) : GroupState :=
  let n := normalized raw in
  if String.eqb n "stable" then Stable
  else if String.eqb n "empty" then EmptyGroup
  else if String.eqb n "preparingrebalance" then PreparingRebalance
  else if String.eqb n "completingrebalance" then CompletingRebalance
  else if String.eqb n "assigning" then Assigning
  else if String.eqb n "reconciling" then Reconciling
  else if String.eqb n "dead" then Dead
  else UnknownState.

Record MemberAssignment : Set := { ma_topic : string; ma_partitions : list Z }.

Record GroupMember : Set := {
  gm_id : string;
  gm_client_id : string;
  gm_host : string;
  gm_assignments : list MemberAssignment;
}.

#[export] Instance MemberAssignment_eq_dec : EqDecision MemberAssignment.
Proof. solve_decision. Defined.
#[export] Instance GroupMember_eq_dec : EqDecision GroupMember.
Proof. solve_decision. Defined.

Record GroupSnapshot : Set := {
  gs_id : string;
  gs_state : GroupState;
  gs_protocol : string;
  gs_members : list GroupMember;
  gs_committed : list CommittedOffset;
}.

Definition consumed_topics (g : GroupSnapshot) : list string :=
  concat (map (λ member, map ma_topic (gm_assignments member)) (gs_members g)) ++
  map co_topic (gs_committed g).

Record GroupOffset : Set := {
  go_topic : string;
  go_partition : Z;
  go_current_offset : option Z;
  go_end_offset : option Z;
  go_lag : option Z;
  go_member_id : option string;
}.

#[export] Instance GroupOffset_eq_dec : EqDecision GroupOffset.
Proof. solve_decision. Defined.

Definition INTERNAL_GROUP_PREFIX : string := "klens.internal.".

Definition is_internal_group (id : string) : bool := starts_with INTERNAL_GROUP_PREFIX id.

Example parse_state_kafka : parse_state "PreparingRebalance" = PreparingRebalance.
Proof. reflexivity. Qed.
Example parse_state_java : parse_state "PREPARING_REBALANCE" = PreparingRebalance.
Proof. reflexivity. Qed.
