(* ===== verification/Reset.v ===== *)
(** [OffsetLookup], [watermarks] and [merge_watermarks] of [src/kafka/session.rs],
    and [src/kafka/reset.rs]: merging the two watermark lookups, and planning where
    a group's offsets move. *)

From S2P Require Import Prelude Errors Metadata Group.

(** ** Offset lookups *)

(** The offsets one lookup found, and the first failure it met. *)
Record OffsetLookup : Type := {
  ol_found : gmap string (gmap Z Z);
  ol_failure : option KafkaError;
}.

Definition lookup_default : OffsetLookup := {| ol_found := ∅; ol_failure := None |}.

Definition lookup_insert_ (l : OffsetLookup) (topic : string) (partition offset : Z) : OffsetLookup :=
  let partitions := default ∅ (ol_found l !! topic) in
  {| ol_found := <[topic := <[partition := offset]> partitions]> (ol_found l);
     ol_failure := ol_failure l |}.

Definition lookup_fail (l : OffsetLookup) (error : KafkaError) : OffsetLookup :=
  {| ol_found := ol_found l; ol_failure := Some (default error (ol_failure l)) |}.

Definition found (l : OffsetLookup) : gmap string (gmap Z Z) := ol_found l.

Definition complete (l : OffsetLookup) : result KafkaError (gmap string (gmap Z Z)) :=
  match ol_failure l with Some error => Err error | None => Ok (ol_found l) end.

Definition merge_partitions (lows : option (gmap Z Z)) (highs : gmap Z Z) : gmap Z Watermarks :=
  map_imap (λ partition high,
    let low := default high (lows ≫= λ lows, lows !! partition) in
    if (low <=? high)%Z then Some {| low := low; high := high |} else None) highs.

Definition merge_watermarks (lows highs : gmap string (gmap Z Z)) : gmap string (gmap Z Watermarks) :=
  map_imap (λ topic partitions,
    let marks := merge_partitions (lows !! topic) partitions in
    if decide (marks = ∅) then None else Some marks) highs.

(** ** The session's side *)

(** What one call of each method answers. *)
Record OffsetSession : Type := {
  os_cluster : string;
  os_committed_offsets : string → result KafkaError (list CommittedOffset);
  os_low_watermarks : gmap string (list Z) → result KafkaError OffsetLookup;
  os_high_watermarks : gmap string (list Z) → result KafkaError OffsetLookup;
  os_offsets_for_times : string → list Z → Z → result KafkaError (gmap Z (option Z));
}.

(** Leaves out a partition Kafka failed to answer for. *)
Definition watermarks_of (s : OffsetSession) (topics : gmap string (list Z))
    : result KafkaError (gmap string (gmap Z Watermarks)) :=
  lows ← os_low_watermarks s topics;
  highs ← os_high_watermarks s topics;
  Ok (merge_watermarks (found lows) (found highs)).

(** Fails when Kafka fails to answer for any partition. *)
Definition complete_watermarks (s : OffsetSession) (topics : gmap string (list Z))
    : result KafkaError (gmap string (gmap Z Watermarks)) :=
  lows ← os_low_watermarks s topics;
  highs ← os_high_watermarks s topics;
  lows ← complete lows;
  highs ← complete highs;
  Ok (merge_watermarks lows highs).

(** ** Resets *)

Inductive ResetTarget : Set :=
  | Earliest | Latest | Offset (offset : Z) | Shift (by_ : Z) | AtTimestamp (timestamp : Z).

Definition place (target : ResetTarget) (from : option Z) (marks : Watermarks)
    (at_time : option Z) : option Z :=
  offset ← match target with
           | Earliest => Some (low marks)
           | Latest => Some (high marks)
           | Offset offset => Some offset
           | Shift by_ => from ← from; Some (i64_saturating_add from by_)
           | AtTimestamp _ => Some (default (high marks) at_time)
           end;
  Some (i64_clamp offset (low marks) (high marks)).

Record OffsetReset : Set := {
  or_group : string;
  or_topic : option string;
  or_partitions : list Z;
  or_to : ResetTarget;
}.

Record OffsetMove : Set := {
  om_topic : string;
  om_partition : Z;
  om_from : option Z;
  om_to : Z;
  om_end : Z;
}.

Definition move_committed (m : OffsetMove) : CommittedOffset :=
  {| co_topic := om_topic m; co_partition := om_partition m; co_offset := om_to m |}.

(** The partitions to move: the ones named, or all the group has committed. *)
Definition wanted_partitions (committed : list CommittedOffset)
    (partitions : option (string * list Z)) : gmap string (list Z) :=
  match partitions with
  | Some (topic, partitions) => {[ topic := partitions ]}
  | None =>
      foldl (λ wanted offset,
        <[co_topic offset := default [] (wanted !! co_topic offset) ++ [co_partition offset]]> wanted)
        ∅ committed
  end.

(** Runs [f] on each entry and keeps the results, or the first error. *)
Fixpoint try_all {A B E} (f : A → result E B) (l : list A) : result E (list B) :=
  match l with
  | [] => Ok []
  | x :: l => y ← f x; ys ← try_all f l; Ok (y :: ys)
  end.

Definition offsets_at (s : OffsetSession) (wanted : gmap string (list Z)) (timestamp : Z)
    : result KafkaError (gmap string (gmap Z (option Z))) :=
  found ← try_all (λ entry : string * list Z,
    offsets ← os_offsets_for_times s entry.1 entry.2 timestamp; Ok (entry.1, offsets))
    (map_to_list wanted);
  Ok (collect found).

Definition plan_move (s : OffsetSession) (group : string) (to : ResetTarget)
    (marks : gmap string (gmap Z Watermarks)) (at_times : gmap string (gmap Z (option Z)))
    (current : gmap (string * Z) Z) (entry : string * Z) : result KafkaError OffsetMove :=
  let '(topic, partition) := entry in
  mark ← ok_or (marks ← marks !! topic; marks !! partition)
    (UnknownPartition (os_cluster s) topic partition);
  let from := current !! (topic, partition) in
  let at_time := offsets ← at_times !! topic; mjoin (offsets !! partition) in
  to ← ok_or (place to from mark at_time) (NoCommittedOffset group topic partition);
  Ok {| om_topic := topic; om_partition := partition; om_from := from; om_to := to;
        om_end := high mark |}.

(** Every wanted partition with its topic. *)
Definition wanted_entries (wanted : gmap string (list Z)) : list (string * Z) :=
  concat (map (λ entry : string * list Z, map (pair entry.1) entry.2) (map_to_list wanted)).

Definition move_cmp (a b : OffsetMove) : comparison :=
  key_cmp (om_topic a, om_partition a) (om_topic b, om_partition b).

Definition plan_reset (s : OffsetSession) (group : string)
    (partitions : option (string * list Z)) (to : ResetTarget)
    : result KafkaError (list OffsetMove) :=
  committed ← os_committed_offsets s group;
  let wanted := wanted_partitions committed partitions in
  marks ← complete_watermarks s wanted;
  at_times ← match to with
             | AtTimestamp timestamp => offsets_at s wanted timestamp
             | _ => Ok ∅
             end;
  let current := collect (map (λ offset, ((co_topic offset, co_partition offset), co_offset offset))
    committed) in
  moves ← try_all (plan_move s group to marks at_times current) (wanted_entries wanted);
  Ok (sort_by move_cmp moves).

(** ** Helper lemmas *)

Lemma merge_watermarks_lookup lows highs topic partition m :
  (marks ← merge_watermarks lows highs !! topic; marks !! partition) = Some m ↔
  (partitions ← highs !! topic; partitions !! partition) = Some (high m) ∧
  low m = default (high m) (lows ← lows !! topic; lows !! partition) ∧
  (low m ≤ high m)%Z.
Proof.
  unfold merge_watermarks. rewrite map_lookup_imap.
  destruct (highs !! topic) as [partitions|]; simpl; [|by split; [|intros [? _]]].
  set (marks := merge_partitions (lows !! topic) partitions).
  assert (marks !! partition = Some m ↔ partitions !! partition = Some (high m) ∧
    low m = default (high m) (lows ← lows !! topic; lows !! partition) ∧ (low m ≤ high m)%Z) as Hm.
  { unfold marks, merge_partitions. rewrite map_lookup_imap.
    destruct (partitions !! partition) as [h|]; simpl; [|by split; [|intros [? _]]].
    destruct (Z.leb_spec (default h (lows ← lows !! topic; lows !! partition)) h) as [Hle|Hgt].
    - split; [intros [= <-]; done|]. intros ([= ->] & Hl & Hh). f_equal. destruct m; simpl in *; congruence.
    - split; [done|]. intros ([= ->] & Hl & Hh). rewrite Hl in Hh. lia. }
  case_decide as Hempty; simpl; [|done]. rewrite <- Hm, Hempty, lookup_empty. done.
Qed.

Lemma i64_clamp_spec z l h : (l ≤ h)%Z →
  (l ≤ i64_clamp z l h ≤ h)%Z ∧ ((l ≤ z ≤ h)%Z → i64_clamp z l h = z).
Proof. unfold i64_clamp. intros. destruct (Z.ltb_spec z l), (Z.ltb_spec h z); lia. Qed.

Lemma try_all_forall {A B E} (f : A → result E B) l ys :
  try_all f l = Ok ys ↔ Forall2 (λ x y, f x = Ok y) l ys.
Proof.
  revert ys. induction l as [|x l IH]; intros ys; simpl.
  - split; [intros [= <-]; constructor|by intros ->%Forall2_nil_inv_l].
  - split.
    + destruct (f x) as [y|] eqn:Ey; [|done]. simpl. destruct (try_all f l) as [ys'|] eqn:El; [|done].
      simpl. intros [= <-]. constructor; [done|]. by apply IH.
    + intros (y & ys' & Hy & Hys & ->)%Forall2_cons_inv_l. rewrite Hy. simpl.
      by apply IH in Hys as ->.
Qed.

Lemma try_all_err {A B E} (f : A → result E B) l e :
  try_all f l = Err e → ∃ x, x ∈ l ∧ f x = Err e.
Proof.
  induction l as [|x l IH]; simpl; [done|].
  destruct (f x) as [y|e'] eqn:Ey; simpl.
  - destruct (try_all f l) as [ys|e'] eqn:El; simpl; [done|]. intros [= ->].
    destruct (IH eq_refl) as (x' & Hx & He). exists x'. split; [by right|done].
  - intros [= ->]. exists x. split; [by left|done].
Qed.

Lemma elem_of_wanted wanted topic partition :
  (topic, partition) ∈ wanted_entries wanted ↔
  ∃ ps, wanted !! topic = Some ps ∧ partition ∈ ps.
Proof.
  unfold wanted_entries. rewrite elem_of_concat. split.
  - intros (l & Hin & ([t ps] & -> & Ht)%list_elem_of_fmap). apply elem_of_map_to_list in Ht.
    apply list_elem_of_fmap in Hin as (p & [= -> ->] & Hp). by exists ps.
  - intros (ps & Ht & Hp). exists (map (pair topic) ps). split.
    + apply list_elem_of_fmap. by exists partition.
    + apply list_elem_of_fmap. exists (topic, ps). by rewrite elem_of_map_to_list.
Qed.

#[export] Instance move_cmp_order : OrderCmp move_cmp.
Proof. apply (cmp_on_order (λ m, (om_topic m, om_partition m)) key_cmp), _. Qed.

(** What the watermarks say of a target. *)
Definition target_offset (to : ResetTarget) (from : option Z) (m : Watermarks)
    (at_time : option Z) : option Z :=
  match to with
  | Earliest => Some (low m)
  | Latest => Some (high m)
  | Offset offset => Some offset
  | Shift by_ => (λ from, i64_saturating_add from by_) <$> from
  | AtTimestamp _ => Some (default (high m) at_time)
  end.

Lemma place_spec to from m at_time :
  (low m ≤ high m)%Z →
  match place to from m at_time with
  | Some o => ∃ t, target_offset to from m at_time = Some t ∧ (low m ≤ o ≤ high m)%Z ∧
      ((low m ≤ t ≤ high m)%Z → o = t) ∧ ((t < low m)%Z → o = low m) ∧ ((high m < t)%Z → o = high m)
  | None => target_offset to from m at_time = None ∧ ∃ by_, to = Shift by_ ∧ from = None
  end.
Proof.
  intros Hm. unfold place, target_offset.
  assert (∀ t, (low m ≤ i64_clamp t (low m) (high m) ≤ high m)%Z ∧
    ((low m ≤ t ≤ high m)%Z → i64_clamp t (low m) (high m) = t) ∧
    ((t < low m)%Z → i64_clamp t (low m) (high m) = low m) ∧
    ((high m < t)%Z → i64_clamp t (low m) (high m) = high m)) as Hc.
  { intros t. unfold i64_clamp. destruct (Z.ltb_spec t (low m)), (Z.ltb_spec (high m) t); lia. }
  destruct to as [| |o|b|t]; simpl; try (eexists; split; [done|apply Hc]).
  destruct from as [f|]; simpl; [eexists; split; [done|apply Hc]|]. split; [done|by exists b].
Qed.

(** What a planned move is made of. *)
Lemma plan_move_ok {s group to marks at_times current topic p m} :
  plan_move s group to marks at_times current (topic, p) = Ok m →
  ∃ mark o, (marks ← marks !! topic; marks !! p) = Some mark ∧
    place to (current !! (topic, p)) mark (offsets ← at_times !! topic; mjoin (offsets !! p)) = Some o ∧
    m = {| om_topic := topic; om_partition := p; om_from := current !! (topic, p); om_to := o;
           om_end := high mark |}.
Proof.
  unfold plan_move. destruct (marks ← marks !! topic; marks !! p) as [mark|]; [|done].
  cbn [ok_or mbind result_bind]. destruct (place _ _ _ _) as [o|] eqn:Ho; [|done].
  intros [= <-]. by exists mark, o.
Qed.

Lemma planned_entries {s group to marks at_times current entries moves} :
  Forall2 (λ entry m, plan_move s group to marks at_times current entry = Ok m) entries moves →
  map (λ m, (om_topic m, om_partition m)) (sort_by move_cmp moves) ≡ₚ entries.
Proof.
  intros Hall. etrans; [apply (fmap_Permutation (λ m, (om_topic m, om_partition m))), sort_by_perm|].
  induction Hall as [|[topic p] m entries ms Hm _ IH]; [done|]. csimpl. rewrite IH. f_equiv.
  by apply plan_move_ok in Hm as (? & ? & _ & _ & ->).
Qed.

(** Complete watermarks are in order. *)
Lemma complete_watermarks_ordered s topics marks topic p mark :
  complete_watermarks s topics = Ok marks →
  (marks ← marks !! topic; marks !! p) = Some mark → (low mark ≤ high mark)%Z.
Proof.
  unfold complete_watermarks.
  destruct (os_low_watermarks s topics) as [lows|]; [|done]. simpl.
  destruct (os_high_watermarks s topics) as [highs|]; [|done]. simpl.
  destruct (complete lows) as [lows'|]; [|done]. simpl.
  destruct (complete highs) as [highs'|]; [|done]. intros [= <-] Hm.
  by apply merge_watermarks_lookup in Hm as (_ & _ & ?).
Qed.

(** A partition's current offset is one the group committed for it. *)
Lemma current_lookup committed topic p :
  match collect (map (λ o, ((co_topic o, co_partition o), co_offset o)) committed) !! (topic, p) with
  | Some o => {| co_topic := topic; co_partition := p; co_offset := o |} ∈ committed
  | None => ∀ c, c ∈ committed → (co_topic c, co_partition c) ≠ (topic, p)
  end.
Proof.
  pose proof (collect_cases (map (λ o, ((co_topic o, co_partition o), co_offset o)) committed) (topic, p))
    as Hc.
  destruct (collect _ !! _) as [o|].
  - apply list_elem_of_fmap in Hc as ([] & [= -> -> ->] & Hin). done.
  - intros c Hin Heq. apply Hc. rewrite <- Heq. apply list_elem_of_fmap.
    eexists (_, co_offset c). split; [|apply list_elem_of_fmap; by exists c]. done.
Qed.

(** ** Properties *)

(** A partition's merged watermarks are the high one Kafka answered and the low one,
    or the high one twice when the low is missing; a pair out of order is dropped, so
    every range is ordered. *)
Theorem merge_watermarks_spec lows highs topic partition m :
  (marks ← merge_watermarks lows highs !! topic; marks !! partition) = Some m ↔
  (partitions ← highs !! topic; partitions !! partition) = Some (high m) ∧
  low m = default (high m) (lows ← lows !! topic; lows !! partition) ∧
  (low m ≤ high m)%Z.
Proof. apply merge_watermarks_lookup. Qed.

(** C14 A planned reset moves every wanted partition once, in topic and partition order,
    from an offset the group committed (none when it committed none) to the target's
    offset, or the nearest one its watermarks hold; a time Kafka answered nothing for
    goes to the end. *)
Theorem plan_reset_spec s group partitions to moves :
  plan_reset s group partitions to = Ok moves →
  ∃ committed marks at_times, os_committed_offsets s group = Ok committed ∧
    let wanted := wanted_partitions committed partitions in
    complete_watermarks s wanted = Ok marks ∧
    match to with AtTimestamp t => offsets_at s wanted t = Ok at_times | _ => at_times = ∅ end ∧
    StronglySorted (cmp_le move_cmp) moves ∧
    map (λ m, (om_topic m, om_partition m)) moves ≡ₚ wanted_entries wanted ∧
    ∀ m, m ∈ moves → ∃ mark t,
      (marks ← marks !! om_topic m; marks !! om_partition m) = Some mark ∧
      om_end m = high mark ∧ (low mark ≤ om_to m ≤ high mark)%Z ∧
      match om_from m with
      | Some o => {| co_topic := om_topic m; co_partition := om_partition m; co_offset := o |} ∈ committed
      | None => ∀ c, c ∈ committed → (co_topic c, co_partition c) ≠ (om_topic m, om_partition m)
      end ∧
      target_offset to (om_from m) mark
        (offsets ← at_times !! om_topic m; mjoin (offsets !! om_partition m)) = Some t ∧
      ((low mark ≤ t ≤ high mark)%Z → om_to m = t) ∧
      ((t < low mark)%Z → om_to m = low mark) ∧ ((high mark < t)%Z → om_to m = high mark).
Proof.
  unfold plan_reset. destruct (os_committed_offsets s group) as [committed|]; [|done]. simpl.
  destruct (complete_watermarks s _) as [marks|] eqn:Em; [|done]. simpl.
  destruct (match to with AtTimestamp t => _ | _ => _ end) as [at_times|] eqn:Ea; [|done]. simpl.
  set (current := collect _).
  destruct (try_all _ _) as [moves'|] eqn:Et; [|done]. intros [= <-].
  apply try_all_forall in Et. exists committed, marks, at_times.
  split_and!; [done|done| |apply sort_by_sorted, _|by apply (planned_entries Et)|].
  { destruct to; congruence. }
  intros m Hm%elem_of_sort_by.
  apply list_elem_of_lookup in Hm as [i Hi].
  destruct (Forall2_lookup_r _ _ _ _ _ Et Hi) as ([topic p] & _ & Hplan).
  apply plan_move_ok in Hplan as (mark & o & Emark & Ho & ->). simpl.
  assert (low mark ≤ high mark)%Z as Hle by by eapply complete_watermarks_ordered.
  pose proof (place_spec to (current !! (topic, p)) mark
    (offsets ← at_times !! topic; mjoin (offsets !! p)) Hle) as Hp.
  rewrite Ho in Hp. destruct Hp as (t & Ht & Hr & H1 & H2 & H3).
  exists mark, t. destruct Hr. split_and!; try done. apply (current_lookup committed topic p).
Qed.

(** Planning a reset fails with the session's own error, for a partition Kafka does
    not have, or for a shift of a partition the group never committed. *)
Theorem plan_reset_error s group partitions to e :
  plan_reset s group partitions to = Err e →
  os_committed_offsets s group = Err e ∨
  ∃ committed, os_committed_offsets s group = Ok committed ∧
    let wanted := wanted_partitions committed partitions in
    complete_watermarks s wanted = Err e ∨
    (∃ timestamp, to = AtTimestamp timestamp ∧ offsets_at s wanted timestamp = Err e) ∨
    ∃ marks topic partition, complete_watermarks s wanted = Ok marks ∧
      (topic, partition) ∈ wanted_entries wanted ∧
      (e = UnknownPartition (os_cluster s) topic partition ∧
         (marks ← marks !! topic; marks !! partition) = None ∨
       e = NoCommittedOffset group topic partition ∧ ∃ by_, to = Shift by_).
Proof.
  unfold plan_reset. destruct (os_committed_offsets s group) as [committed|e']; simpl; [|intros [= ->]; by left].
  intros Hplan. right. exists committed. split; [done|].
  destruct (complete_watermarks s _) as [marks|e'] eqn:Em; simpl in Hplan; [|injection Hplan as ->; by left].
  right. destruct (match to with AtTimestamp t => _ | _ => _ end) as [at_times|e'] eqn:Ea; simpl in Hplan.
  2: { left. destruct to as [| | | |t]; try done. exists t. split; [done|]. congruence. }
  right. destruct (try_all _ _) as [moves|e'] eqn:Et; [done|]. injection Hplan as ->.
  apply try_all_err in Et as ([topic p] & Hin & He). exists marks, topic, p. split_and!; [done..|].
  unfold plan_move in He. destruct (marks ← marks !! topic; marks !! p) as [mark|]; simpl in He.
  - right. destruct (place _ _ _ _) as [o|] eqn:Ep; [done|]. simpl in He. injection He as <-. split; [done|].
    unfold place in Ep. destruct to as [| | |b|]; try done. by exists b.
  - left. by injection He as <-.
Qed.

(** ** Witnesses *)

(** A group that committed offset 3 of partition 0, which holds offsets 1 to 9. *)
Definition sample_offset_session : OffsetSession := {|
  os_cluster := "local";
  os_committed_offsets _ := Ok [{| co_topic := "t"; co_partition := 0; co_offset := 3 |}];
  os_low_watermarks _ := Ok {| ol_found := {[ "t" := {[ 0%Z := 1%Z ]} ]}; ol_failure := None |};
  os_high_watermarks _ := Ok {| ol_found := {[ "t" := {[ 0%Z := 9%Z ]} ]}; ol_failure := None |};
  os_offsets_for_times _ _ _ := Ok {[ 0%Z := Some 5%Z ]};
|}.

(** A shift past the end stops at the end. *)
Example plan_reset_shift :
  plan_reset sample_offset_session "g" None (Shift 20) =
  Ok [{| om_topic := "t"; om_partition := 0; om_from := Some 3%Z; om_to := 9; om_end := 9 |}].
Proof. vm_compute. reflexivity. Qed.

Lemma plan_reset_spec_witness :
  ∃ moves, plan_reset sample_offset_session "g" None (AtTimestamp 100) = Ok moves ∧
    StronglySorted (cmp_le move_cmp) moves.
Proof.
  eexists. split; [vm_compute; reflexivity|].
  assert (plan_reset sample_offset_session "g" None (AtTimestamp 100) =
    Ok [{| om_topic := "t"; om_partition := 0; om_from := Some 3%Z; om_to := 5; om_end := 9 |}]) as H
    by (vm_compute; reflexivity).
  by destruct (plan_reset_spec _ _ _ _ _ H) as (c & m & a & _ & _ & _ & Hs & _).
Defined.

Lemma plan_reset_error_witness :
  plan_reset sample_offset_session "g" (Some ("t", [1%Z])) Earliest = Err (UnknownPartition "local" "t" 1) ∧
  ∃ committed, os_committed_offsets sample_offset_session "g" = Ok committed.
Proof.
  assert (plan_reset sample_offset_session "g" (Some ("t", [1%Z])) Earliest =
    Err (UnknownPartition "local" "t" 1)) as H by (vm_compute; reflexivity).
  split; [exact H|].
  destruct (plan_reset_error _ _ _ _ _ H) as [Hf|(c & Hc & _)]; [done|by exists c].
Defined.
