(* ===== verification/Read.v ===== *)
(** [src/kafka/scan/read.rs]: how a read resolves the partitions and offsets it
    covers, and a lookup of one record. *)

From S2P Require Import Prelude Text Errors Metadata Cursor Plan Payload Filter Query.
From S2P Require Import Obfuscate Pipeline Session Paging Reset.

(** ** The store's and the session's side *)

(** [cluster] is the store's name, [topology] the partitions of the topics the store
    last loaded, [None] before the first load; the rest is what the session answers. *)
Record ReadEnv : Type := {
  re_cluster : string;
  re_topology : option (gmap string (list PartitionMetadata));
  re_topic_metadata : string → result KafkaError TopicMetadata;
  re_offsets : OffsetSession;
}.

Definition select_partitions (cluster topic : string) (wanted : list Z)
    (partitions : list PartitionMetadata) : result KafkaError (list Z) :=
  if bool_decide (wanted = []) then Ok (id <$> partitions)
  else
    match List.find (λ w, negb (existsb (λ partition, (id partition =? w)%Z) partitions)) wanted with
    | Some missing => Err (UnknownPartition cluster topic missing)
    | None => Ok (dedup (sort_by Z.compare wanted))
    end.

(** The answer, and whether the store was told to load its topology again. *)
Definition resolve_partitions (env : ReadEnv) (topic : string) (partitions : list Z)
    : result KafkaError (list Z) * bool :=
  match (topology ← re_topology env; topology !! topic) with
  | Some known => (select_partitions (re_cluster env) topic partitions known, false)
  | None =>
      (metadata ← re_topic_metadata env topic;
       select_partitions (re_cluster env) topic partitions (tm_partitions metadata), true)
  end.

Section read.
Context `{!PayloadLib, !RedactLib, !FilterLib, !TimestampLib}.

Definition seek (env : ReadEnv) (topic : string) (partitions : list Z) (timestamp : option Z)
    : result KafkaError (option (gmap Z (option Z))) :=
  match timestamp with
  | Some timestamp => Some <$> os_offsets_for_times (re_offsets env) topic partitions timestamp
  | None => Ok None
  end.

Definition window_watermarks (env : ReadEnv) (query : RecordQuery) (partitions : list Z)
    : result KafkaError (gmap Z Watermarks) :=
  let wanted := {[ rq_topic query := partitions ]} in
  let start := start_seek (rq_timestamps query) in
  let end_ := end_seek (rq_timestamps query) in
  by_topic ← watermarks_of (re_offsets env) wanted;
  from_offsets ← seek env (rq_topic query) partitions start;
  to_offsets ← seek env (rq_topic query) partitions end_;
  let watermarks := default ∅ (by_topic !! rq_topic query) in
  if bool_decide (start = None) && bool_decide (end_ = None) then Ok watermarks
  else Ok (apply_timestamp_bounds watermarks from_offsets to_offsets).

Definition resolve_span (env : ReadEnv) (query : RecordQuery) : result KafkaError LogSpan :=
  partitions ← (resolve_partitions env (rq_topic query) (rq_partitions query)).1;
  watermarks ← window_watermarks env query partitions;
  Ok {| partitions := partitions; watermarks := watermarks |}.

Definition read_page (env : ReadEnv) (fetch_env : FetchEnv) (query : RecordQuery)
    (limits : RecordLimits) : result KafkaError RecordPage :=
  request ← map_err InvalidQuery (page_request query limits);
  span ← resolve_span env (pr_query request);
  fetch request span fetch_env.

Record FoundRecord : Type := { fr_record : Record_; fr_obfuscated : bool }.

Definition read_record (env : ReadEnv) (fetch_env : FetchEnv) (at_ : RecordAt)
    (limits : RecordLimits) : result KafkaError FoundRecord :=
  page ← read_page env fetch_env (record_at_query at_) limits;
  match List.find (λ record, (rec_offset record =? ra_offset at_)%Z) (rp_records page) with
  | Some record => Ok {| fr_record := record; fr_obfuscated := rp_obfuscated page |}
  | None => Err (UnknownOffset (re_cluster env) (ra_topic at_) (ra_partition at_) (ra_offset at_))
  end.
End read.

(** ** Helper lemmas *)

Lemma find_missing (wanted : list Z) partitions :
  match List.find (λ w, negb (existsb (λ partition, (id partition =? w)%Z) partitions)) wanted with
  | Some missing => missing ∈ wanted ∧ missing ∉ id <$> partitions
  | None => ∀ w, w ∈ wanted → w ∈ id <$> partitions
  end.
Proof.
  assert (∀ w, existsb (λ partition, (id partition =? w)%Z) partitions = true ↔ w ∈ id <$> partitions) as Hex.
  { intros w. rewrite existsb_exists, list_elem_of_fmap. split.
    - intros (p & Hp & Heq%Z.eqb_eq). apply list_elem_of_In in Hp. exists p. by split.
    - intros (p & -> & Hp). apply list_elem_of_In in Hp. exists p. by rewrite Z.eqb_refl. }
  destruct (List.find _ wanted) as [w|] eqn:E.
  - apply find_some in E as [Hin%list_elem_of_In Hno]. split; [done|]. rewrite <- Hex.
    by destruct (existsb _ _).
  - intros w Hw%list_elem_of_In. pose proof (find_none _ _ E w Hw) as Hno. apply Hex. simpl in Hno.
    by destruct (existsb _ _).
Qed.

Lemma select_partitions_cases cluster topic wanted partitions :
  match select_partitions cluster topic wanted partitions with
  | Ok selected =>
      (wanted = [] ∧ selected = id <$> partitions) ∨
      (StronglySorted Z.lt selected ∧
       (∀ p, p ∈ selected ↔ p ∈ wanted) ∧ ∀ p, p ∈ selected → p ∈ id <$> partitions)
  | Err e => ∃ missing, missing ∈ wanted ∧ missing ∉ id <$> partitions ∧
      e = UnknownPartition cluster topic missing
  end.
Proof.
  unfold select_partitions. case_bool_decide as Hw; [by left|].
  pose proof (find_missing wanted partitions) as Hf. destruct (List.find _ wanted) as [missing|].
  - destruct Hf. by exists missing.
  - right. assert (∀ p, p ∈ dedup (sort_by Z.compare wanted) ↔ p ∈ wanted) as Hel.
    { intros p. by rewrite elem_of_dedup, elem_of_sort_by. }
    split; [|split; [done|intros p Hp; by apply Hf, Hel]].
    apply (dedup_sorted Z.compare); [apply Z.compare_eq|]. apply sort_by_sorted, _.
Qed.

Section resolve.
Context {PL : PayloadLib} {RL : RedactLib} {FL : FilterLib} {TL : TimestampLib}.

(** What Kafka's answers to a read of [topic] hold: partition numbers are distinct
    and fit an [i32], offsets are not negative and fit an [i64], and a lookup answers
    only for the partitions it was asked about. *)
Record sane_answers (env : ReadEnv) (topic : string) : Prop := {
  sa_known : ∀ topology known, re_topology env = Some topology → topology !! topic = Some known →
    NoDup (id <$> known) ∧ ∀ p, p ∈ id <$> known → in_i32 p;
  sa_metadata : ∀ metadata, re_topic_metadata env topic = Ok metadata →
    NoDup (id <$> tm_partitions metadata) ∧ ∀ p, p ∈ id <$> tm_partitions metadata → in_i32 p;
  sa_lows : ∀ wanted lows t p o, os_low_watermarks (re_offsets env) wanted = Ok lows →
    (lows ← found lows !! t; lows !! p) = Some o → (0 ≤ o)%Z;
  sa_highs : ∀ wanted highs t p o, os_high_watermarks (re_offsets env) wanted = Ok highs →
    (highs ← found highs !! t; highs !! p) = Some o →
    (0 ≤ o ≤ i64_max)%Z ∧ ∃ ps, wanted !! t = Some ps ∧ p ∈ ps;
  sa_times : ∀ ps time offsets p o, os_offsets_for_times (re_offsets env) topic ps time = Ok offsets →
    offsets !! p = Some (Some o) → (0 ≤ o)%Z;
}.

Lemma select_partitions_sane cluster topic wanted partitions selected :
  select_partitions cluster topic wanted partitions = Ok selected →
  NoDup (id <$> partitions) → (∀ p, p ∈ id <$> partitions → in_i32 p) →
  NoDup selected ∧ ∀ p, p ∈ selected → in_i32 p.
Proof.
  intros Hs. pose proof (select_partitions_cases cluster topic wanted partitions) as Hc. rewrite Hs in Hc.
  intros Hnd Hi. destruct Hc as [[_ ->]|(Hsorted & _ & Hin)]; [done|].
  split; [by apply (strictly_sorted_NoDup Z.compare)|]. intros p Hp. by apply Hi, Hin.
Qed.

Lemma resolve_partitions_sane env topic wanted selected :
  sane_answers env topic → (resolve_partitions env topic wanted).1 = Ok selected →
  NoDup selected ∧ ∀ p, p ∈ selected → in_i32 p.
Proof.
  intros Hs. unfold resolve_partitions.
  destruct (re_topology env) as [topology|] eqn:Et; [destruct (topology !! topic) as [known|] eqn:Ek|];
    cbn [mbind option_bind].
  - rewrite Ek. simpl. intros Hsel. destruct (sa_known _ _ Hs topology known); [done..|].
    by eapply select_partitions_sane.
  - rewrite Ek. simpl. destruct (re_topic_metadata env topic) as [metadata|] eqn:Em; [|done].
    intros Hsel. destruct (sa_metadata _ _ Hs metadata); [done..|]. by eapply select_partitions_sane.
  - simpl. destruct (re_topic_metadata env topic) as [metadata|] eqn:Em; [|done].
    intros Hsel. destruct (sa_metadata _ _ Hs metadata); [done..|]. by eapply select_partitions_sane.
Qed.

(** A bound of sane seeks keeps sane marks sane. *)
Lemma bound_marks_wf from_offsets to_offsets p m :
  wf_marks m →
  (∀ offsets o, to_offsets = Some offsets → offsets !! p = Some (Some o) → (0 ≤ o)%Z) →
  wf_marks (bound_marks from_offsets to_offsets p m).
Proof.
  unfold wf_marks, bound_marks. intros Hm Hto. simpl.
  set (low1 := match from_offsets with Some _ => _ | None => _ end).
  assert (0 ≤ low1)%Z as H1.
  { unfold low1. repeat case_match; lia. }
  set (high1 := match to_offsets with Some _ => _ | None => _ end).
  assert (0 ≤ high1 ≤ high m)%Z as H2.
  { unfold high1. destruct to_offsets as [offsets|]; [|lia].
    destruct (offsets !! p) as [[o|]|] eqn:E; try lia. specialize (Hto offsets o eq_refl E). lia. }
  clearbody low1 high1. destruct (Z.ltb_spec high1 low1); lia.
Qed.

Lemma watermarks_of_sane env topic ps by_topic marks p m :
  sane_answers env topic → watermarks_of (re_offsets env) {[ topic := ps ]} = Ok by_topic →
  by_topic !! topic = Some marks → marks !! p = Some m → wf_marks m ∧ p ∈ ps.
Proof.
  intros Hs. unfold watermarks_of.
  destruct (os_low_watermarks _ _) as [lows|] eqn:El; [|done].
  destruct (os_high_watermarks _ _) as [highs|] eqn:Eh; [|done]. cbn [mbind result_bind].
  intros [= <-] Ht Hp.
  assert ((marks ← merge_watermarks (found lows) (found highs) !! topic; marks !! p) = Some m) as Hm
    by by rewrite Ht.
  apply merge_watermarks_lookup in Hm as (Hhigh & Hlow & Hle).
  destruct (sa_highs _ _ Hs _ _ _ _ _ Eh Hhigh) as [Hr (ps' & Hps & Hin)].
  apply lookup_singleton_Some in Hps as [_ <-].
  split; [|done]. unfold wf_marks. split; [|lia]. split; [|done].
  destruct (lows ← found lows !! topic; lows !! p) as [o|] eqn:E; simpl in Hlow; [|lia].
  rewrite Hlow. by apply (sa_lows _ _ Hs _ _ _ _ _ El E).
Qed.

Lemma window_watermarks_sane env query ps marks :
  sane_answers env (rq_topic query) → window_watermarks env query ps = Ok marks →
  map_Forall (λ p m, wf_marks m ∧ p ∈ ps) marks.
Proof.
  intros Hs. unfold window_watermarks.
  destruct (watermarks_of _ _) as [by_topic|] eqn:Ew; [|done]. cbn [mbind result_bind].
  destruct (seek _ _ _ (start_seek _)) as [from_offsets|] eqn:Ef; [|done]. cbn [mbind result_bind].
  destruct (seek _ _ _ (end_seek _)) as [to_offsets|] eqn:Et; [|done]. cbn [mbind result_bind].
  assert (map_Forall (λ p m, wf_marks m ∧ p ∈ ps) (default ∅ (by_topic !! rq_topic query))) as Hall.
  { destruct (by_topic !! rq_topic query) as [marks'|] eqn:E; [|by apply map_Forall_empty].
    intros p m Hp. by eapply watermarks_of_sane. }
  destruct (_ && _); intros [= <-]; [done|].
  intros p m Hp. unfold apply_timestamp_bounds in Hp. rewrite map_lookup_imap in Hp.
  destruct (default ∅ _ !! p) as [m0|] eqn:E; [|done]. injection Hp as <-.
  destruct (Hall p m0 E) as [Hwf Hin]. split; [|done]. apply bound_marks_wf; [done|].
  intros offsets o -> Ho. unfold seek in Et. destruct (end_seek _) as [time|]; [|done].
  destruct (os_offsets_for_times _ _ _ _) as [offsets'|] eqn:Eo; [|done]. injection Et as ->.
  by eapply (sa_times _ _ Hs).
Qed.

Lemma resolve_span_sane env query limits r span :
  sane_answers env (rq_topic query) → page_request query limits = Ok r → wf_limits limits →
  (0 < pr_take r ≤ i64_max)%Z → query_consistent query →
  (∀ c, rq_cursor query = Some c → wf c) →
  resolve_span env query = Ok span → request_ok r span.
Proof.
  intros Hs Hr Hlim Htake Hq Hc. unfold resolve_span.
  destruct (resolve_partitions env _ _).1 as [ps|] eqn:Ep; [|done]. cbn [mbind result_bind].
  destruct (window_watermarks env query ps) as [marks|] eqn:Ew; [|done]. intros [= <-].
  apply resolve_partitions_sane in Ep as [Hnd Hi]; [|done].
  apply window_watermarks_sane in Ew; [|done].
  unfold page_request in Hr. destruct (clamp_limit limits _) as [n|] eqn:El; [|done].
  apply clamp_limit_ok in El; [|done]. cbn [mbind result_bind] in Hr. injection Hr as <-. simpl in *.
  split; simpl; try done.
  - intros p m Hp. by apply Ew in Hp as [? _].
  - intros p [m Hp]. by apply Ew in Hp as [_ ?].
  - unfold wf_limits in Hlim. lia.
Qed.
End resolve.

(** ** Reading one record *)

Section found.
Context {PL : PayloadLib} {RL : RedactLib} {FL : FilterLib} {TL : TimestampLib}.
Context (log : RawRecord → Prop) (r : PageRequest) (span : LogSpan) (env : FetchEnv).
Context (Hok : request_ok r span) (Hfun : log_functional log).
Context (Henv : ∀ pass ws, faithful_env log ws (fe_pass env pass ws)).
Context (at_ : RecordAt) (Hquery : pr_query r = record_at_query at_) (Hlimit : pr_limit r = 1%Z).
Context (raw : RawRecord) (Hlog : log raw) (Hpart : rr_partition raw = ra_partition at_).
Context (Hoff : rr_offset raw = ra_offset at_).
Context (Hin : in_log span (rr_partition raw) (rr_offset raw)).

Abbreviation from := (cursor_at Oldest (ra_partition at_) (ra_offset at_)).
Abbreviation ws := (pass_windows span (pr_take r) (Some from) Oldest Forward).

Lemma at_pass_ok : pass_ok span (pr_take r) (Some from) Oldest Forward.
Proof.
  split; try apply Hok.
  - pose proof (ro_take _ _ Hok). lia.
  - by intros c' [= <-].
Qed.

Lemma at_pending : pending span (remaining from) (rr_partition raw) (rr_offset raw).
Proof.
  split; [done|]. exists (ra_offset at_). simpl. rewrite <- Hpart, lookup_singleton_eq.
  split; [done|]. rewrite Hoff. simpl. lia.
Qed.

(** The page opens one window, and the record is its first. *)
Lemma at_window w :
  w ∈ ws → pw_partition w = rr_partition raw ∧ pw_start w = rr_offset raw.
Proof.
  intros Hw. apply (pass_window _ _ _ _ _ at_pass_ok) in Hw as (_ & m & b & _ & Hm & Hb & ->).
  simpl in Hb. apply lookup_singleton_Some in Hb as [Hp <-]. simpl.
  split; [congruence|]. destruct Hin as (m' & Hm' & Hr). rewrite Hpart, Hp in Hm'. simpl in *.
  rewrite Hm in Hm'. injection Hm' as <-. unfold clamped. rewrite <- Hoff. lia.
Qed.

Lemma at_windows_nonempty : ∃ w, w ∈ ws.
Proof.
  destruct (windows span Oldest (pr_take r) (Some from)) as [|w l] eqn:E; [|exists w; unfold pass_windows, pass_walk; simpl; rewrite E; by left].
  exfalso. apply (no_windows_pending _ _ _ _ _ at_pass_ok (rr_partition raw) (rr_offset raw)); try done.
  - apply (ro_take _ _ Hok).
  - apply (ro_marks _ _ Hok).
  - apply at_pending.
Qed.

(** A single pass that scanned its window or kept a record has passed the one asked for. *)
Lemma at_passed pl limit scan d ranked :
  (0 < limit)%Z → (limit ≤ 1)%Z →
  scan_inv log (window_map ws) scan d (concat ranked) →
  so_scanned (scan_outcome scan ws Oldest) = true ∨
    pass_found Oldest Forward pl limit ranked ≠ [] →
  ¬ pending_after span (pass_next span (pr_take r) (Some from) Oldest Forward pl limit scan ranked)
    (rr_partition raw) (rr_offset raw).
Proof.
  intros Hpos Hone Hinv Hsome Hpend.
  apply (pass_next_pending log _ _ _ _ _ at_pass_ok _ _ scan d ranked Hpos Hinv) in Hpend as [_ Hnp].
  apply Hnp. clear Hnp. destruct at_windows_nonempty as [w Hw].
  destruct (at_window w Hw) as [Hwp Hws].
  pose proof (pass_window _ _ _ _ _ at_pass_ok w Hw) as (He & _).
  unfold window_is_empty in He. apply Z.leb_gt in He.
  exists (if decide (pw_partition w ∈ ws_completed scan) then w else abandoned w Oldest).
  split_and!; [apply covered_elem; by exists w|by case_decide|].
  destruct (Z.leb_spec limit (len (edges (pass_found Oldest Forward pl limit ranked)))) as [Hfull|Hshort].
  - destruct (pass_found Oldest Forward pl limit ranked) as [|k found] eqn:Ef.
    { unfold edges in Hfull. simpl in Hfull. rewrite len_nil in Hfull. lia. }
    exists (rr_offset (kept_raw k)).
    assert ((rr_partition (kept_raw k), rr_offset (kept_raw k)) ∈
      edges (pass_found Oldest Forward pl limit ranked)) as Hedge by (rewrite Ef; by left).
    pose proof (found_pending log _ _ _ _ _ at_pass_ok pl limit scan d ranked Hpos Hinv _ _ Hedge)
      as [_ (b & Hb & Ha)]. simpl in Hb, Ha. apply lookup_singleton_Some in Hb as [Hp <-].
    rewrite Hpart, Hp. split; [by left|]. simpl. lia.
  - destruct Hsome as [Hscanned|Hkept].
    + apply bool_decide_eq_true in Hscanned. rewrite decide_True; [simpl; unfold far_edge; lia|].
      apply set_choose_L in Hscanned as [p Hp].
      pose proof (si_completed _ _ _ _ _ Hinv p Hp) as Hdom.
      apply elem_of_dom in Hdom as [se Hse].
      apply (pass_map _ _ _ _ _ at_pass_ok) in Hse as (w' & Hw' & <- & _).
      destruct (at_window w' Hw') as [Hwp' _]. by rewrite Hwp, <- Hwp'.
    + exfalso. destruct (pass_found _ _ _ _ _) as [|k found]; [done|].
      unfold edges in Hshort. rewrite fmap_cons, len_cons in Hshort.
      pose proof (len_nonneg ((λ k, (rr_partition (kept_raw k), rr_offset (kept_raw k))) <$> found)). lia.
Qed.

Lemma at_query : query_walk (pr_query r) = Oldest ∧ query_direction (pr_query r) = Forward ∧
  rq_order (pr_query r) = Oldest ∧ rq_cursor (pr_query r) = Some from ∧ max_passes (pr_query r) = 1.
Proof. by rewrite Hquery. Qed.

Lemma at_step_passed st stop :
  pass_step r span env 0 (initial_state r env ws) ws = Ok (st, stop) →
  fs_scanned st = true ∨ fs_kept st ≠ [] →
  ¬ pending_after span (fs_cursor st) (rr_partition raw) (rr_offset raw).
Proof.
  destruct at_query as (Hw & Hd & Ho & Hc & _). unfold pass_step.
  cbn [fs_cursor fs_scan fs_kept fs_complete fs_scanned initial_state]. rewrite Ho, Hd, Hc, Hlimit.
  change (usize_sub 1 (len [])) with 1%Z.
  destruct (run _ _ _ _) as [[[scan' batch'] outcome] calls] eqn:Erun.
  destruct outcome as [outcome|]; [|done]. cbn [mbind result_bind]. intros [= <- <-].
  apply (run_spec log) in Erun as (Hpl & Hwalk & scan & d & ranked & -> & Hinv & ->);
    [|done|by apply (pass_map_wf _ _ _ _ _ at_pass_ok)|apply Henv].
  cbn [fs_cursor fs_scanned fs_kept]. cbn [ss_walk ss_pipeline] in *. rewrite Hw.
  intros Hsome.
  apply (at_passed (page_pipeline r env) 1 scan d ranked ltac:(lia) ltac:(lia) Hinv Hsome).
Qed.

(** The record asked for is not left for a later page. *)
Lemma at_not_later page : fetch r span env = Ok page → ¬ reached_later r span page raw.
Proof.
  destruct at_query as (Hw & Hd & Ho & Hc & Hn). unfold fetch. rewrite Hw, Hc, Hn.
  destruct at_windows_nonempty as [w0 Hw0]. change (windows _ _ _ _) with ws.
  destruct ws as [|w l] eqn:Ews; [by apply not_elem_of_nil in Hw0|].
  unfold scan_open. destruct (fe_open env) as [[u|error]|]; [|done|done]. cbn [mbind result_bind].
  rewrite <- Ews. replace {| fs_scan := _ |} with (initial_state r env ws)
    by (unfold initial_state; by rewrite Hw, Hc).
  rewrite (passes_unfold r span env Hok). cbn zeta. rewrite decide_True by done.
  change (fs_windows (initial_state r env ws)) with ws. simpl andb. cbv iota.
  destruct (pass_step r span env 0 (initial_state r env ws) ws) as [[st stop]|] eqn:Estep; [|done].
  cbn [mbind result_bind].
  replace (if stop then Ok st else passes r span env 0 1 st) with (@Ok KafkaError _ st) by by destruct stop.
  cbn [mbind result_bind]. intros Hfin (text & c & Htext & Hparse & _ & Hlater).
  assert (fs_scanned st = true ∨ fs_kept st ≠ []) as Hsome.
  { unfold finish_page in Hfin. destruct (fs_scanned st); [by left|].
    destruct (fs_kept st); [done|by right]. }
  apply finish_inv in Hfin as (_ & Hon & _). rewrite Hon in Htext.
  pose proof (at_step_passed st stop Estep Hsome) as Hnot.
  destruct (fs_cursor st) as [c'|] eqn:Ec; [|done]. injection Htext as <-.
  assert (wf c') as Hwf.
  { apply (pass_step_ok log r span env Hok Hfun Henv) in Estep as (Hps & _ & _).
    - by apply (ps_cursor _ _ _ _ _ Hps).
    - intros c0 Hc0. split; [by apply query_walk_cursor|by apply (ro_cursor _ _ Hok)].
    - rewrite Hlimit. done.
    - done.
    - simpl. by rewrite Hw, Hc. }
  rewrite parse_to_string_wf in Hparse by done. injection Hparse as <-. by apply Hnot.
Qed.

Lemma at_shown page :
  fetch r span env = Ok page →
  ∃ rec, rp_records page = [rec] ∧ shows (page_pipeline r env) raw rec.
Proof.
  intros Hfetch. destruct at_query as (Hw & Hd & Ho & Hc & _).
  pose proof (page_sorted log r span env Hok Hfun Henv page Hfetch) as [Hlen _].
  destruct (page_loses_nothing log r span env Hok Hfun Henv page raw Hfetch) as [Hl|[(rec & Hrec & Hs)|Hf]].
  - by left.
  - done.
  - unfold page_opening. rewrite Hc. apply at_pending.
  - by apply at_not_later in Hl.
  - exists rec. split; [|done]. rewrite Hlimit in Hlen. unfold len in Hlen.
    destruct (rp_records page) as [|r1 [|r2 l]]; [by apply not_elem_of_nil in Hrec| |simpl in Hlen; lia].
    by apply list_elem_of_singleton in Hrec as ->.
  - exfalso. unfold filtered_out, page_pipeline in Hf. rewrite Hquery in Hf.
    destruct (screen_record _ raw) as [masked v] eqn:E. unfold screen_record in E. simpl in *.
    destruct Hf as [->|(_ & f & key & value & Hff & _)]; [|done]. by repeat case_match.
Qed.
End found.

(** ** Properties *)

(** A read covers the partitions it names, once each and in order, or all of the
    topic's when it names none; a partition the topic does not have is refused. *)
Theorem select_partitions_spec cluster topic wanted partitions :
  match select_partitions cluster topic wanted partitions with
  | Ok selected =>
      (wanted = [] ∧ selected = id <$> partitions) ∨
      (StronglySorted Z.lt selected ∧ (∀ p, p ∈ selected ↔ p ∈ wanted) ∧
       ∀ p, p ∈ selected → p ∈ (id <$> partitions))
  | Err e => ∃ missing, missing ∈ wanted ∧ missing ∉ (id <$> partitions) ∧
      e = UnknownPartition cluster topic missing
  end.
Proof. apply select_partitions_cases. Qed.

Section properties.
Context {PL : PayloadLib} {RL : RedactLib} {FL : FilterLib} {TL : TimestampLib}.

(** Whatever timestamps a query seeks to, the span resolved from sane answers is one
    paging can rely on: ordered, non-negative offsets, distinct [i32] partitions, and
    watermarks only for those. *)
Theorem resolve_span_request_ok env query limits r span :
  sane_answers env (rq_topic query) → page_request query limits = Ok r → wf_limits limits →
  (0 < pr_take r ≤ i64_max)%Z → query_consistent query →
  (∀ c, rq_cursor query = Some c → wf c) →
  resolve_span env query = Ok span → request_ok r span.
Proof. apply resolve_span_sane. Qed.

(** Looking a record up by its offset finds it: when the log holds a record there and
    the page could be read, the answer is that record, decoded and masked. *)
Theorem read_record_finds (log : RawRecord → Prop) env fetch_env at_ limits span raw page :
  sane_answers env (ra_topic at_) → wf_limits limits →
  (0 < window_take limits 1 false ≤ i64_max)%Z →
  in_i32 (ra_partition at_) → (0 ≤ ra_offset at_ ≤ i64_max)%Z →
  log_functional log → (∀ pass ws, faithful_env log ws (fe_pass fetch_env pass ws)) →
  resolve_span env (record_at_query at_) = Ok span →
  log raw → rr_partition raw = ra_partition at_ → rr_offset raw = ra_offset at_ →
  in_log span (rr_partition raw) (rr_offset raw) →
  read_page env fetch_env (record_at_query at_) limits = Ok page →
  ∃ found, read_record env fetch_env at_ limits = Ok found ∧
    fr_obfuscated found = rp_obfuscated page ∧
    shows {| pl_codec := fe_codec fetch_env; pl_filter := None;
             pl_obfuscator := topic_obfuscator fetch_env (ra_topic at_);
             pl_fallback_schema_id := ra_schema_id at_ |} raw (fr_record found).
Proof.
  intros Hsane Hlim Htake Hp Ho Hfun Henv Hspan Hlog Hpart Hoff Hin Hpage.
  set (r := {| pr_query := record_at_query at_; pr_limit := 1;
               pr_take := window_take limits 1 false |}).
  assert (page_request (record_at_query at_) limits = Ok r) as Hr.
  { unfold page_request, clamp_limit. simpl. rewrite Z.min_l; [done|]. unfold wf_limits in Hlim. lia. }
  assert (request_ok r span) as Hok.
  { apply (resolve_span_sane env (record_at_query at_) limits); try done.
    intros c [= <-]. intros p o Hpo. simpl in Hpo. by apply lookup_singleton_Some in Hpo as [<- <-]. }
  pose proof Hpage as Hfetch. unfold read_page in Hfetch. rewrite Hr in Hfetch.
  cbn [map_err mbind result_bind pr_query r] in Hfetch. rewrite Hspan in Hfetch.
  destruct (at_shown log r span fetch_env Hok Hfun Henv at_ eq_refl eq_refl raw Hlog Hpart Hoff Hin page
    Hfetch) as (rec & Hrecs & Hshows).
  exists {| fr_record := rec; fr_obfuscated := rp_obfuscated page |}. split; [|done].
  unfold read_record. rewrite Hpage. cbn [mbind result_bind]. rewrite Hrecs. simpl.
  pose proof Hshows as (? & ? & _ & _ & Hrec & _). by rewrite Hrec, Hoff, Z.eqb_refl.
Qed.
End properties.

(** ** Witnesses *)

Section witnesses.
#[local] Existing Instances sample_payload_lib sample_redact_lib sample_filter_lib
  sample_timestamp_lib.

(** A topic [t] of one partition that holds offsets 0 to 3. *)
Definition sample_read_env : ReadEnv := {|
  re_cluster := "local";
  re_topology := None;
  re_topic_metadata _ := Ok {| tm_name := "t"; tm_internal := false;
    tm_partitions := [{| id := 0; leader := 1; replicas := [1]; isr := [1] |}]%Z |};
  re_offsets := {|
    os_cluster := "local";
    os_committed_offsets _ := Ok [];
    os_low_watermarks _ := Ok {| ol_found := {[ "t" := {[ 0%Z := 0%Z ]} ]}; ol_failure := None |};
    os_high_watermarks wanted :=
      Ok {| ol_found :=
              if decide (0%Z ∈ default [] (wanted !! "t")) then {[ "t" := {[ 0%Z := 4%Z ]} ]} else ∅;
            ol_failure := None |};
    os_offsets_for_times _ _ _ := Ok ∅;
  |};
|}.

Lemma sample_read_env_sane : sane_answers sample_read_env "t".
Proof.
  assert (∀ t p o h, (m ← ({[ "t" := {[ 0%Z := h ]} ]} : gmap string (gmap Z Z)) !! t; m !! p) = Some o →
    t = "t" ∧ p = 0%Z ∧ o = h) as Hone.
  { intros t p o h Ho. destruct (({[ "t" := {[ 0%Z := h ]} ]} : gmap string (gmap Z Z)) !! t) as [m|] eqn:E; [|done].
    apply lookup_singleton_Some in E as [<- <-]. simpl in Ho. by apply lookup_singleton_Some in Ho as [<- <-]. }
  split; simpl.
  - done.
  - intros metadata [= <-]. simpl. split; [apply NoDup_singleton|].
    by intros p ->%list_elem_of_singleton.
  - intros wanted lows t p o [= <-] (_ & _ & ->)%Hone. done.
  - intros wanted highs t p o [= <-]. unfold found. simpl. case_decide as Hw; [|by rewrite lookup_empty].
    intros (-> & -> & ->)%Hone. split; [done|]. destruct (wanted !! "t") as [ps|]; [by exists ps|].
    by apply not_elem_of_nil in Hw.
  - intros ps time offsets p o [= <-]. by rewrite lookup_empty.
Qed.

Definition sample_at : RecordAt :=
  {| ra_topic := "t"; ra_partition := 0; ra_offset := 1; ra_schema_id := None |}.

Lemma resolve_span_request_ok_witness :
  ∃ r span, page_request (record_at_query sample_at) RecordLimits_default = Ok r ∧
    resolve_span sample_read_env (record_at_query sample_at) = Ok span ∧ request_ok r span.
Proof.
  eexists _, _. split; [vm_compute; reflexivity|]. split; [vm_compute; reflexivity|].
  apply (resolve_span_request_ok sample_read_env (record_at_query sample_at) RecordLimits_default);
    [apply sample_read_env_sane|reflexivity|done|done|done| |vm_compute; reflexivity].
  intros c [= <-]. intros p o Hpo. simpl in Hpo. by apply lookup_singleton_Some in Hpo as [<- <-].
Defined.

Lemma read_record_finds_witness :
  ∃ found, read_record sample_read_env read_all sample_at RecordLimits_default = Ok found ∧
    rec_offset (fr_record found) = 1%Z.
Proof.
  assert (∃ page, read_page sample_read_env read_all (record_at_query sample_at) RecordLimits_default = Ok page)
    as [page Hpage] by (eexists; vm_compute; reflexivity).
  destruct (read_record_finds one_record sample_read_env read_all sample_at RecordLimits_default
    short_span (sample_raw 1) page sample_read_env_sane) as (found & Hfound & _ & Hs).
  - clear. done.
  - clear. vm_compute. done.
  - clear. done.
  - clear. done.
  - apply one_record_functional.
  - apply read_all_faithful.
  - vm_compute. reflexivity.
  - reflexivity.
  - reflexivity.
  - reflexivity.
  - clear. exists {| low := 0; high := 4 |}. done.
  - exact Hpage.
  - exists found. split; [exact Hfound|]. destruct Hs as (? & ? & _ & _ & Ho & _). exact Ho.
Defined.
End witnesses.
