(* ===== verification/Export.v ===== *)
(** [src/kafka/scan/export.rs]: an export reads a span page by page, each from the
    cursor of the page before. *)

From S2P Require Import Prelude Text Errors Metadata Cursor Plan Payload Filter Query.
From S2P Require Import Obfuscate Pipeline Session Paging Reset Read.

Section export.
Context `{!PayloadLib, !RedactLib, !FilterLib, !TimestampLib}.

Record Export : Type := { ex_request : PageRequest; ex_span : LogSpan; ex_done : bool }.

Definition export_open (env : ReadEnv) (query : RecordQuery) (limits : RecordLimits)
    : result KafkaError Export :=
  request ← map_err InvalidQuery (page_request query limits);
  span ← resolve_span env (pr_query request);
  Ok {| ex_request := request; ex_span := span; ex_done := false |}.

(** The export after the call, and its answer. *)
Definition export_next (x : Export) (env : FetchEnv)
    : Export * result KafkaError (option (list Record_)) :=
  if ex_done x then (x, Ok None)
  else
    match fetch (ex_request x) (ex_span x) env with
    | Err error => (x, Err error)
    | Ok page =>
        match match rp_next_cursor page with
              | None => Ok None
              | Some text => Some <$> map_err InvalidQuery (parse text)
              end with
        | Err error => (x, Err error)
        | Ok next =>
            if bool_decide (is_Some next) && bool_decide (next = rq_cursor (pr_query (ex_request x)))
            then (x, Err Timeout_)
            else
              ({| ex_request := set_cursor (ex_request x) next; ex_span := ex_span x;
                  ex_done := bool_decide (next = None) |},
               Ok (Some (rp_records page)))
        end
    end.

(** An export from [x] to [x'] that answered [pages], in the order of its calls. *)
Inductive export_run : Export → list (FetchEnv * RecordPage) → Export → Prop :=
  | export_run_nil x : export_run x [] x
  | export_run_step x env page x' pages x'' :
      fetch (ex_request x) (ex_span x) env = Ok page →
      export_next x env = (x', Ok (Some (rp_records page))) →
      export_run x' pages x'' →
      export_run x ((env, page) :: pages) x''.
End export.

(** ** Helper lemmas *)

Lemma to_string_order c c' : to_string c = to_string c' → Cursor.order c = Cursor.order c'.
Proof.
  intros Heq. apply (f_equal (splitn 4 colon)) in Heq. rewrite !splitn_to_string in Heq.
  injection Heq as Ho _ _. by destruct (Cursor.order c), (Cursor.order c').
Qed.

Section lemmas.
Context {PL : PayloadLib} {RL : RedactLib} {FL : FilterLib} {TL : TimestampLib}.
Context (log : RawRecord → Prop) (Hfun : log_functional log).

Section step.
Context (r : PageRequest) (span : LogSpan) (env : FetchEnv) (Hok : request_ok r span).

Lemma pass_step_order pass st ws st' stop c :
  pass_step r span env pass st ws = Ok (st', stop) → fs_cursor st' = Some c →
  Cursor.order c = Cursor.order (opening span (fs_cursor st) (rq_order (pr_query r)) (query_direction (pr_query r))).
Proof.
  unfold pass_step. destruct (run _ _ _ _) as [[[scan batch] outcome] calls].
  destruct outcome as [outcome|]; [|done]. cbn [mbind result_bind]. intros [= <- <-].
  cbn [fs_cursor]. unfold advance. by intros [? _]%cursor_settings.
Qed.

Lemma passes_order n pass st st' :
  (∀ c, fs_cursor st = Some c → Cursor.order c = rq_order (pr_query r)) →
  passes r span env n pass st = Ok st' →
  ∀ c, fs_cursor st' = Some c → Cursor.order c = rq_order (pr_query r).
Proof.
  revert pass st. induction n as [|n IH]; intros pass st Hst; [by intros [= <-]|].
  rewrite (passes_unfold r span env Hok). cbv zeta.
  destruct (_ && bool_decide _); [by intros [= <-]|].
  destruct (pass_step r span env pass st _) as [[st1 stop]|] eqn:Estep; [|done]. cbn [mbind result_bind].
  assert (∀ c, fs_cursor st1 = Some c → Cursor.order c = rq_order (pr_query r)) as H1.
  { intros c Hc. rewrite (pass_step_order _ _ _ _ _ _ Estep Hc).
    unfold opening. destruct (fs_cursor st) as [c'|]; [by apply Hst|done]. }
  destruct stop; [by intros [= <-]|]. by apply IH.
Qed.

Lemma fetch_order page :
  fetch r span env = Ok page →
  onward r page = None ∨ ∃ c, onward r page = Some (to_string c) ∧ Cursor.order c = rq_order (pr_query r).
Proof.
  intros Hfetch. unfold fetch in Hfetch.
  destruct (windows _ _ _ _) as [|w ws].
  { injection Hfetch as <-. left. unfold onward. by destruct (query_direction (pr_query r)). }
  destruct (scan_open _ _ _ _) as [scan|]; [|done]. cbn [mbind result_bind] in Hfetch.
  destruct (passes r span env _ 0 _) as [st|] eqn:E; [|done]. cbn [mbind result_bind] in Hfetch.
  apply finish_inv in Hfetch as (_ & -> & _). destruct (fs_cursor st) as [c|] eqn:Ec; [right|by left].
  exists c. split; [done|]. eapply passes_order; [|exact E|exact Ec]. simpl. intros c' Hc.
  pose proof (ro_query _ _ Hok) as Hq. unfold query_consistent in Hq. by rewrite Hc in Hq.
Qed.

Context (Henv : ∀ pass ws, faithful_env log ws (fe_pass env pass ws)).

(** The cursor a page hands on parses, and a request may go on from it. *)
Lemma onward_next page text :
  fetch r span env = Ok page → onward r page = Some text →
  ∃ c, parse text = Ok c ∧ to_string c = text ∧ Cursor.walk c = query_walk (pr_query r) ∧
    Cursor.order c = rq_order (pr_query r) ∧ wf c ∧ request_ok (set_cursor r (Some c)) span.
Proof.
  intros Hfetch Hon. pose proof Hfetch as Hinv.
  apply (fetch_inv log r span env Hok Hfun Henv) in Hinv as [(_ & _ & Hnone)|(ws & st & Hps & Hfin)]; [congruence|].
  apply finish_inv in Hfin as (_ & Hcur & _). rewrite Hon in Hcur.
  destruct (fs_cursor st) as [c|] eqn:Ec; [|done]. injection Hcur as ->.
  destruct (ps_cursor _ _ _ _ _ Hps c Ec) as [Hwalk Hwf].
  assert (parse (to_string c) = Ok c) as Hparse by by apply parse_to_string_wf.
  destruct (fetch_order page Hfetch) as [Hnone|(c' & Hc' & Horder')]; [congruence|].
  assert (to_string c = to_string c') as Heq by congruence.
  assert (Cursor.order c = rq_order (pr_query r)) as Horder.
  { rewrite <- Horder'. by apply to_string_order. }
  exists c. split_and!; [done..|].
  split; try apply Hok; simpl; [done|]. by intros c0 [= <-].
Qed.
End step.

(** What a page leaves for later was ahead of its own cursor. *)
Section shrinks.
Context (r : PageRequest) (span : LogSpan) (env : FetchEnv) (Hok : request_ok r span).
Context (Henv : ∀ pass ws, faithful_env log ws (fe_pass env pass ws)).

Lemma later_pending page raw :
  fetch r span env = Ok page → reached_later r span page raw →
  pending span (remaining (page_opening r span)) (rr_partition raw) (rr_offset raw).
Proof.
  intros Hfetch (text & c & Hon & Hparse & _ & Hlater).
  apply (fetch_inv log r span env Hok Hfun Henv) in Hfetch as [(_ & _ & Hnone)|(ws & st & Hps & Hfin)]; [congruence|].
  apply finish_inv in Hfin as (_ & Hcur & _). rewrite Hon in Hcur.
  destruct (fs_cursor st) as [c'|] eqn:Ec; [|done]. injection Hcur as ->.
  destruct (ps_cursor _ _ _ _ _ Hps c' Ec) as [_ Hwf].
  rewrite parse_to_string_wf in Hparse by done. injection Hparse as <-.
  apply (ps_shrinks _ _ _ _ _ Hps). by rewrite Ec.
Qed.
End shrinks.

(** *** One call *)

Lemma export_next_step x env x' page :
  query_direction (pr_query (ex_request x)) = Forward → request_ok (ex_request x) (ex_span x) →
  (∀ pass ws, faithful_env log ws (fe_pass env pass ws)) →
  fetch (ex_request x) (ex_span x) env = Ok page →
  export_next x env = (x', Ok (Some (rp_records page))) →
  ex_span x' = ex_span x ∧ ex_done x = false ∧
  if ex_done x' then ∀ raw, ¬ reached_later (ex_request x) (ex_span x) page raw
  else ∃ c, ex_request x' = set_cursor (ex_request x) (Some c) ∧
    query_direction (pr_query (ex_request x')) = Forward ∧ request_ok (ex_request x') (ex_span x') ∧
    query_walk (pr_query (ex_request x')) = query_walk (pr_query (ex_request x)) ∧
    ∀ raw, pending (ex_span x) (remaining (page_opening (ex_request x') (ex_span x')))
        (rr_partition raw) (rr_offset raw) ↔ reached_later (ex_request x) (ex_span x) page raw.
Proof.
  intros Hdir Hok Henv Hfetch. unfold export_next. destruct (ex_done x); [done|]. rewrite Hfetch.
  assert (onward (ex_request x) page = rp_next_cursor page) as Hon by by unfold onward; rewrite Hdir.
  destruct (rp_next_cursor page) as [text|] eqn:Etext.
  - destruct (onward_next _ _ _ Hok Henv page text Hfetch Hon) as (c & Hparse & _ & Hwalk & Horder & Hwf & Hok').
    rewrite Hparse. cbn [map_err fmap result_fmap]. destruct (_ && _); [done|]. intros [= <-]. simpl.
    split_and!; [done..|]. exists c.
    assert (query_direction (pr_query (set_cursor (ex_request x) (Some c))) = Forward) as Hdir'.
    { pose proof (query_direction_walk _ (ro_query _ _ Hok)) as Hw. rewrite Hdir in Hw.
      unfold query_direction. simpl. unfold direction. rewrite decide_True; [done|]. congruence. }
    split_and!; [done|done|done|by unfold query_walk at 1|].
    intros raw. unfold page_opening, opening. simpl. split.
    + intros Hp. by exists text, c.
    + intros (text' & c' & Hon' & Hparse' & _ & Hp). rewrite Hon in Hon'. injection Hon' as <-.
      rewrite Hparse in Hparse'. by injection Hparse' as <-.
  - cbn [bool_decide]. rewrite bool_decide_eq_false_2 by by intros [].
    intros [= <-]. simpl. split_and!; [done..|]. intros raw (text & c & Hon' & _). congruence.
Qed.
End lemmas.

(** ** Properties *)

Section properties.
Context {PL : PayloadLib} {RL : RedactLib} {FL : FilterLib} {TL : TimestampLib}.

(** A session that answers an export: its consumers are faithful to [log], and it keeps
    the codec and the masking policy of [env0]. *)
Definition export_session (log : RawRecord → Prop) (env0 : FetchEnv) (call : FetchEnv * RecordPage)
    : Prop :=
  (∀ pass ws, faithful_env log ws (fe_pass call.1 pass ws)) ∧
  fe_codec call.1 = fe_codec env0 ∧ fe_policy call.1 = fe_policy env0.

Lemma page_pipeline_cursor r c env env0 :
  fe_codec env = fe_codec env0 → fe_policy env = fe_policy env0 →
  page_pipeline (set_cursor r c) env = page_pipeline r env0.
Proof. unfold page_pipeline, topic_obfuscator. simpl. by intros -> ->. Qed.

Lemma set_cursor_cursor r : set_cursor r (rq_cursor (pr_query r)) = r.
Proof. by destruct r as [[]]. Qed.

(** An export that has answered [pages] still has ahead of it the rest of what it
    opened with. *)
Lemma export_run_covers log env0 x pages x' raw :
  export_run x pages x' → log_functional log →
  query_direction (pr_query (ex_request x)) = Forward → request_ok (ex_request x) (ex_span x) →
  Forall (export_session log env0) pages →
  query_walk (pr_query (ex_request x)) = Oldest ∨ Forall (λ call, rp_complete call.2 = true) pages →
  log raw →
  pending (ex_span x) (remaining (page_opening (ex_request x) (ex_span x))) (rr_partition raw) (rr_offset raw) →
  ex_done x = false →
  (ex_done x' = false ∧ pending (ex_span x') (remaining (page_opening (ex_request x') (ex_span x')))
     (rr_partition raw) (rr_offset raw)) ∨
  (∃ call rec, call ∈ pages ∧ rec ∈ rp_records call.2 ∧ shows (page_pipeline (ex_request x) env0) raw rec) ∨
  filtered_out (page_pipeline (ex_request x) env0) raw.
Proof.
  intros Hrun Hfun. induction Hrun as [x|x env page x1 pages x2 Hfetch Hnext Hrun IH];
    intros Hdir Hok Hsess Hcond Hlog Hpend Hdone; [by left|].
  apply Forall_cons in Hsess as [(Henv & Hcodec & Hpolicy) Hsess]. simpl in Henv, Hcodec, Hpolicy.
  assert (query_walk (pr_query (ex_request x)) = Oldest ∨ rp_complete page = true) as Hcond1.
  { destruct Hcond as [|[? _]%Forall_cons]; [by left|by right]. }
  assert (page_pipeline (ex_request x) env = page_pipeline (ex_request x) env0) as Hpl.
  { rewrite <- (set_cursor_cursor (ex_request x)) at 1. by apply page_pipeline_cursor. }
  destruct (export_next_step log Hfun x env x1 page Hdir Hok Henv Hfetch Hnext) as (Hspan & _ & Hstep).
  destruct (page_loses_nothing log _ _ env Hok Hfun Henv page raw Hfetch) as [Hlater|[(rec & Hrec & Hs)|Hf]];
    [naive_solver|done|done| | |by right; right; rewrite <- Hpl].
  2: { right; left. exists (env, page), rec. rewrite <- Hpl. split_and!; [by left|done|done]. }
  destruct (ex_done x1) eqn:Edone1; [by destruct (Hstep raw)|].
  destruct Hstep as (c & Hreq & Hdir1 & Hok1 & Hwalk1 & Hpend1).
  destruct IH as [Hl|[(call & rec & Hcall & Hrec & Hs)|Hf]]; [done|done|done| |done| |done|by left| |].
  - rewrite Hwalk1. destruct Hcond as [|[_ ?]%Forall_cons]; [by left|by right].
  - rewrite Hspan at 1. by apply Hpend1.
  - right; left. exists call, rec. split_and!; [by right|done|].
    rewrite Hreq in Hs. by rewrite (page_pipeline_cursor _ _ env0 env0) in Hs.
  - right; right. rewrite Hreq in Hf. by rewrite (page_pipeline_cursor _ _ env0 env0) in Hf.
Qed.

(** C13 An export that ran to its end covers the log it opened: every record is on one of
    its pages or was left out by the filter, when it walks from the oldest record or read
    each of its pages' windows. *)
Theorem export_covers (log : RawRecord → Prop) env0 x pages x' raw :
  export_run x pages x' → ex_done x = false → ex_done x' = true →
  log_functional log → Forall (export_session log env0) pages →
  query_direction (pr_query (ex_request x)) = Forward → request_ok (ex_request x) (ex_span x) →
  query_walk (pr_query (ex_request x)) = Oldest ∨ Forall (λ call, rp_complete call.2 = true) pages →
  log raw →
  pending (ex_span x) (remaining (page_opening (ex_request x) (ex_span x))) (rr_partition raw) (rr_offset raw) →
  (∃ call rec, call ∈ pages ∧ rec ∈ rp_records call.2 ∧ shows (page_pipeline (ex_request x) env0) raw rec) ∨
  filtered_out (page_pipeline (ex_request x) env0) raw.
Proof.
  intros Hrun Hx Hx' Hfun Hsess Hdir Hok Hcond Hlog Hpend.
  destruct (export_run_covers log env0 x pages x' raw) as [[? _]|[|]];
    [done..|congruence|by left|by right].
Qed.

(** The records of an export's pages were all ahead of it. *)
Lemma export_run_pending log env0 x pages x' :
  export_run x pages x' → log_functional log → Forall (export_session log env0) pages →
  query_direction (pr_query (ex_request x)) = Forward → request_ok (ex_request x) (ex_span x) →
  ∀ call rec, call ∈ pages → rec ∈ rp_records call.2 →
    pending (ex_span x) (remaining (page_opening (ex_request x) (ex_span x))) (rec_partition rec) (rec_offset rec).
Proof.
  intros Hrun Hfun. induction Hrun as [x|x env page x1 pages x2 Hfetch Hnext Hrun IH];
    intros Hsess Hdir Hok call rec Hcall Hrec; [by apply not_elem_of_nil in Hcall|].
  apply Forall_cons in Hsess as [(Henv & _) Hsess]. simpl in Henv.
  destruct (export_next_step log Hfun x env x1 page Hdir Hok Henv Hfetch Hnext) as (Hspan & _ & Hstep).
  apply elem_of_cons in Hcall as [->|Hcall].
  - destruct (page_sorted log _ _ env Hok Hfun Henv page Hfetch) as (_ & raws & Hshows & _ & _ & Hraws).
    destruct (Forall2_elem_r _ _ _ _ Hshows Hrec) as (raw & Hraw & Hs).
    destruct Hs as (? & ? & _ & -> & -> & _). by apply Hraws.
  - destruct (ex_done x1) eqn:Edone.
    { inversion Hrun as [|? env1 page1 ? ? ? _ Hn1]; subst; [by apply not_elem_of_nil in Hcall|].
      unfold export_next in Hn1. by rewrite Edone in Hn1. }
    destruct Hstep as (c & _ & Hdir1 & Hok1 & _ & Hpend1).
    pose proof (IH Hsess Hdir1 Hok1 call rec Hcall Hrec) as Hp. rewrite Hspan in Hp at 1.
    set (raw := {| rr_partition := rec_partition rec; rr_offset := rec_offset rec; rr_timestamp := 0;
      rr_key := None; rr_value := None; rr_headers := [] |}).
    apply (Hpend1 raw) in Hp. by apply (later_pending log Hfun _ _ env Hok Henv page raw).
Qed.

(** An export repeats no record: no record of a page whose windows were all read is on
    a page after it. *)
Theorem export_repeats_nothing (log : RawRecord → Prop) env0 x pages x' :
  export_run x pages x' → log_functional log → Forall (export_session log env0) pages →
  query_direction (pr_query (ex_request x)) = Forward → request_ok (ex_request x) (ex_span x) →
  Forall (λ call, rp_complete call.2 = true) pages →
  StronglySorted (λ call1 call2, ∀ rec1 rec2, rec1 ∈ rp_records call1.2 → rec2 ∈ rp_records call2.2 →
    (rec_partition rec1, rec_offset rec1) ≠ (rec_partition rec2, rec_offset rec2)) pages.
Proof.
  intros Hrun Hfun. induction Hrun as [x|x env page x1 pages x2 Hfetch Hnext Hrun IH];
    intros Hsess Hdir Hok Hcomp; [constructor|].
  apply Forall_cons in Hsess as [(Henv & Hcodec & Hpolicy) Hsess]. simpl in Henv.
  apply Forall_cons in Hcomp as [Hc Hcomp].
  destruct (export_next_step log Hfun x env x1 page Hdir Hok Henv Hfetch Hnext) as (Hspan & _ & Hstep).
  destruct (ex_done x1) eqn:Edone.
  { inversion Hrun as [|? env1 page1 ? ? ? _ Hn1]; subst; [repeat constructor|].
    unfold export_next in Hn1. by rewrite Edone in Hn1. }
  destruct Hstep as (c & _ & Hdir1 & Hok1 & _ & Hpend1).
  constructor; [by apply IH|]. rewrite Forall_forall. intros call Hcall rec1 rec2 H1 H2 Heq. simpl in H1.
  pose proof (export_run_pending log env0 _ _ _ Hrun Hfun Hsess Hdir1 Hok1 call rec2 Hcall H2) as Hp.
  destruct (page_sorted log _ _ env Hok Hfun Henv page Hfetch) as (_ & raws & Hshows & _ & _ & Hraws).
  destruct (Forall2_elem_r _ _ _ _ Hshows H1) as (raw & Hraw & Hs).
  destruct Hs as (? & ? & _ & Ep & Eo & _). destruct (Hraws raw Hraw) as [_ Hno].
  apply (Hno Hc), Hpend1. rewrite Hspan in Hp at 1. congruence.
Qed.

(** A failed call leaves the export as it was, and only a fetch fails it, or a cursor
    that does not move: the cursor a page hands on always parses. *)
Theorem export_next_error (log : RawRecord → Prop) x env x' e :
  log_functional log → (∀ pass ws, faithful_env log ws (fe_pass env pass ws)) →
  query_direction (pr_query (ex_request x)) = Forward → request_ok (ex_request x) (ex_span x) →
  export_next x env = (x', Err e) →
  x' = x ∧
  (fetch (ex_request x) (ex_span x) env = Err e ∨
   e = Timeout_ ∧ ∃ page c, fetch (ex_request x) (ex_span x) env = Ok page ∧
     rq_cursor (pr_query (ex_request x)) = Some c ∧ rp_next_cursor page = Some (to_string c)).
Proof.
  intros Hfun Henv Hdir Hok. unfold export_next. destruct (ex_done x); [done|].
  destruct (fetch _ _ env) as [page|error] eqn:Hfetch; [|intros [= <- <-]; by split; [|left]].
  assert (onward (ex_request x) page = rp_next_cursor page) as Hon by by unfold onward; rewrite Hdir.
  destruct (rp_next_cursor page) as [text|] eqn:Etext.
  - destruct (onward_next log Hfun _ _ _ Hok Henv page text Hfetch Hon) as (c & Hparse & <- & _).
    rewrite Hparse. cbn [map_err fmap result_fmap].
    destruct (bool_decide (Some c = _)) eqn:Ec; [|by destruct (bool_decide _)].
    apply bool_decide_eq_true in Ec. rewrite bool_decide_eq_true_2 by done. intros [= <- <-].
    split; [done|]. right. split; [done|]. by exists page, c.
  - rewrite bool_decide_eq_false_2 by by intros []. done.
Qed.
End properties.

(** ** Witnesses *)

Section witnesses.
#[local] Existing Instances sample_payload_lib sample_redact_lib sample_filter_lib
  sample_timestamp_lib.

Definition sample_export : Export :=
  {| ex_request := sample_request Oldest 1; ex_span := short_span; ex_done := false |}.

Definition stuck : FetchEnv := sample_env [Polled [] silent; DeadlinePassed].

(** Two pages: the log's record, then the rest of the span. *)
Lemma sample_export_run :
  ∃ p1 p2 x', export_run sample_export [(read_all, p1); (read_all, p2)] x' ∧ ex_done x' = true ∧
    rp_complete p1 = true ∧ rp_complete p2 = true ∧ rp_records p1 ≠ [].
Proof.
  eexists _, _, _. split.
  - eapply export_run_step; [vm_compute; reflexivity|vm_compute; reflexivity|].
    eapply export_run_step; [vm_compute; reflexivity|vm_compute; reflexivity|]. apply export_run_nil.
  - by repeat split.
Qed.

Lemma sample_export_sessions p1 p2 :
  Forall (export_session one_record read_all) [(read_all, p1); (read_all, p2)].
Proof.
  assert (∀ p, export_session one_record read_all (read_all, p)) by by (split; [apply read_all_faithful|]).
  by repeat (apply Forall_cons_2; [done|]).
Qed.

Lemma export_covers_witness :
  ∃ pages x', export_run sample_export pages x' ∧ ex_done x' = true ∧
    ((∃ call rec, call ∈ pages ∧ rec ∈ rp_records call.2 ∧
        shows (page_pipeline (sample_request Oldest 1) read_all) (sample_raw 1) rec) ∨
     filtered_out (page_pipeline (sample_request Oldest 1) read_all) (sample_raw 1)).
Proof.
  destruct sample_export_run as (p1 & p2 & x' & Hrun & Hdone & _).
  exists [(read_all, p1); (read_all, p2)], x'. split; [exact Hrun|]. split; [exact Hdone|].
  apply (export_covers one_record read_all sample_export _ _ (sample_raw 1) Hrun eq_refl Hdone
    one_record_functional).
  - apply sample_export_sessions.
  - reflexivity.
  - apply sample_request_ok.
  - left. reflexivity.
  - reflexivity.
  - split; [exists {| low := 0; high := 4 |}; done|]. exists 0%Z. done.
Defined.

Lemma export_repeats_nothing_witness :
  ∃ p1 p2 x', export_run sample_export [(read_all, p1); (read_all, p2)] x' ∧
    ∀ rec, rec ∈ rp_records p1 → rec ∉ rp_records p2.
Proof.
  destruct sample_export_run as (p1 & p2 & x' & Hrun & Hdone & H1 & H2 & _).
  exists p1, p2, x'. split; [exact Hrun|].
  pose proof (export_repeats_nothing one_record read_all sample_export _ _ Hrun one_record_functional) as Hs.
  assert (StronglySorted (λ call1 call2 : FetchEnv * RecordPage,
    ∀ rec1 rec2, rec1 ∈ rp_records call1.2 → rec2 ∈ rp_records call2.2 →
    (rec_partition rec1, rec_offset rec1) ≠ (rec_partition rec2, rec_offset rec2))
    [(read_all, p1); (read_all, p2)]) as Hsorted.
  { apply Hs; [apply sample_export_sessions|reflexivity|apply sample_request_ok|].
    constructor; [exact H1|]. constructor; [exact H2|constructor]. }
  apply StronglySorted_inv in Hsorted as [_ Hall]. apply Forall_cons in Hall as [Hall _].
  intros rec Hr1 Hr2. exact (Hall rec rec Hr1 Hr2 eq_refl).
Defined.

(** A consumer that never answers: the second call finds its cursor unmoved. *)
Lemma stuck_faithful pass ws : faithful_env one_record ws (fe_pass stuck pass ws).
Proof. split; [|done]. intros p se r position _ Hd. done. Qed.

Lemma export_next_error_witness :
  ∃ x', export_next sample_export stuck = (x', Err Timeout_) ∧ x' = sample_export.
Proof.
  eexists. assert (export_next sample_export stuck = (sample_export, Err Timeout_)) as H
    by (vm_compute; reflexivity).
  split; [exact H|].
  apply (export_next_error one_record sample_export stuck sample_export Timeout_ one_record_functional
    stuck_faithful eq_refl (sample_request_ok Oldest) H).
Defined.
End witnesses.
