(* ===== verification/Tables.v ===== *)
(** [src/kafka/store/tables.rs], with the subject types of [src/kafka/registry.rs]: the
    tables the store serves reads from, and how each is assembled from a sweep.

    An [Arc<str>] is the string it shares; the interner only saves copies, so it is
    left out. *)

From S2P Require Import Prelude Text Metadata Group TopicConfig.

(** ** Registry types *)

Inductive SchemaType : Set := Avro | Json | Protobuf.

Inductive SchemaCompatibility : Set :=
  | Backward_ | BackwardTransitive | ForwardCompat | ForwardTransitive
  | Full | FullTransitive | NoCompat.

Record SchemaSubject : Set := {
  ss_subject : string;
  ss_id : Z;
  ss_schema_type : SchemaType;
  ss_latest_version : Z;
  ss_versions : list Z;
  ss_compatibility : SchemaCompatibility;
}.

Record LatestSchema : Set := { ls_version : Z; ls_id : Z; ls_schema_type : SchemaType }.

(** What registering a schema answers. *)
Record RegisteredVersion : Set := { rv_id : Z; rv_version : Z }.

#[export] Instance SchemaType_eq_dec : EqDecision SchemaType.
Proof. solve_decision. Defined.
#[export] Instance SchemaCompatibility_eq_dec : EqDecision SchemaCompatibility.
Proof. solve_decision. Defined.

(** ** Topology *)

Record BrokerInfo : Set := { bi_host : string; bi_port : Z; bi_rack : option string }.

Record TopicInfo : Set := { ti_internal : bool; ti_partitions : list PartitionMetadata }.

Record GroupInfo : Set := {
  gi_state : GroupState;
  gi_protocol : string;
  gi_members : list GroupMember;
}.

#[export] Instance BrokerInfo_eq_dec : EqDecision BrokerInfo.
Proof. solve_decision. Defined.
#[export] Instance TopicInfo_eq_dec : EqDecision TopicInfo.
Proof. solve_decision. Defined.
#[export] Instance GroupInfo_eq_dec : EqDecision GroupInfo.
Proof. solve_decision. Defined.

Definition partition_ids (t : TopicInfo) : list Z := id <$> ti_partitions t.

Definition replication_factor (t : TopicInfo) : Z :=
  match head (ti_partitions t) with
  | Some partition => usize_as_i32 (len (replicas partition))
  | None => 0
  end.

Definition topic_under_replicated (t : TopicInfo) : bool :=
  existsb under_replicated (ti_partitions t).

Definition assigned_partition_refs (g : GroupInfo) : list (string * Z) :=
  concat (map (λ member,
    concat (map (λ assignment, map (pair (ma_topic assignment)) (ma_partitions assignment))
      (gm_assignments member))) (gi_members g)).

Definition consumes (g : GroupInfo) (topic : string) : bool :=
  existsb (λ entry, String.eqb entry.1 topic) (assigned_partition_refs g).

(** [Entry::or_insert]. *)
Definition or_insert {K V} `{Countable K} (m : gmap K V) (k : K) (v : V) : gmap K V :=
  match m !! k with Some _ => m | None => <[k := v]> m end.

(** The first member assigned a partition owns it. *)
Definition owners (g : GroupInfo) : gmap (string * Z) string :=
  foldl (λ owners member,
    foldl (λ owners assignment,
      foldl (λ owners partition, or_insert owners (ma_topic assignment, partition) (gm_id member))
        owners (ma_partitions assignment))
      owners (gm_assignments member))
    ∅ (gi_members g).

Record Topology : Set := {
  tp_controller : option Z;
  tp_brokers : gmap Z BrokerInfo;
  tp_topics : gmap string TopicInfo;
  tp_groups : gmap string GroupInfo;
  tp_topic_groups : gmap string (list string);
}.

Definition Topology_default : Topology :=
  {| tp_controller := None; tp_brokers := ∅; tp_topics := ∅; tp_groups := ∅; tp_topic_groups := ∅ |}.

(** [Entry::or_default] then [push]. *)
Definition push_at {K V} `{Countable K} (m : gmap K (list V)) (k : K) (v : V) : gmap K (list V) :=
  <[k := default [] (m !! k) ++ [v]]> m.

(** The topics a group consumes, each once. *)
Definition consumed_once (g : GroupSnapshot) : list string :=
  dedup (sort_by String.compare (consumed_topics g)).

Definition add_group (state : gmap string GroupInfo * gmap string (list string)) (g : GroupSnapshot)
    : gmap string GroupInfo * gmap string (list string) :=
  let '(assembled, topic_groups) := state in
  (<[gs_id g := {| gi_state := gs_state g; gi_protocol := gs_protocol g; gi_members := gs_members g |}]>
     assembled,
   foldl (λ topic_groups topic, push_at topic_groups topic (gs_id g)) topic_groups (consumed_once g)).

Definition assemble (meta : MetadataSnapshot) (groups : list GroupSnapshot) : Topology :=
  let '(assembled, topic_groups) := foldl add_group (∅, ∅) groups in
  {| tp_controller := None;
     tp_brokers := collect (map (λ broker, (bm_id broker,
       {| bi_host := bm_host broker; bi_port := bm_port broker; bi_rack := bm_rack broker |}))
       (ms_brokers meta));
     tp_topics := collect (map (λ topic, (tm_name topic,
       {| ti_internal := tm_internal topic; ti_partitions := tm_partitions topic |}))
       (ms_topics meta));
     tp_groups := assembled;
     tp_topic_groups := sort_by String.compare <$> topic_groups |}.

Definition group (t : Topology) (id : string) : option GroupInfo := tp_groups t !! id.

Definition groups_for_topic (t : Topology) (topic : string) : list string :=
  default [] (tp_topic_groups t !! topic).

Definition gained_topics_since (t earlier : Topology) : bool :=
  existsb (λ entry : string * TopicInfo, bool_decide (tp_topics earlier !! entry.1 = None))
    (btree_iter (tp_topics t)).

Definition partition_count (t : Topology) : Z :=
  sum_i32 (map (λ entry : string * TopicInfo, usize_as_i32 (len (ti_partitions entry.2)))
    (btree_iter (tp_topics t))).

(** ** Watermarks *)

Record WatermarkTable : Set := { wt_marks : gmap string (gmap Z Watermarks) }.

Definition marks_get (w : WatermarkTable) (topic : string) (partition : Z) : option Watermarks :=
  marks ← wt_marks w !! topic; marks !! partition.

Definition produced (w : WatermarkTable) (topic : string) : Z :=
  match wt_marks w !! topic with
  | Some marks => sum_i64 (map (λ entry : Z * Watermarks, Z.max (high entry.2) 0) (map_to_list marks))
  | None => 0
  end.

Definition retained (w : WatermarkTable) (topic : string) : Z :=
  match wt_marks w !! topic with
  | Some marks =>
      sum_i64 (map (λ entry : Z * Watermarks, Z.max (i64_sub (high entry.2) (low entry.2)) 0)
        (map_to_list marks))
  | None => 0
  end.

(** ** Offsets and configs *)

Record GroupOffsets : Set := { gos_committed : list CommittedOffset }.

Definition offsets_show (g : GroupOffsets) (offsets : list CommittedOffset) : bool :=
  forallb (λ offset, bool_decide (offset ∈ gos_committed g)) offsets.

Definition offset_partitions (g : GroupOffsets) : list (string * Z) :=
  map (λ offset, (co_topic offset, co_partition offset)) (gos_committed g).

Record OffsetTable : Set := { ot_groups : gmap string GroupOffsets }.
Definition offsets_get (t : OffsetTable) (group : string) : option GroupOffsets := ot_groups t !! group.

Record ConfigTable : Set := { ct_topics : gmap string (list ConfigEntry) }.
Definition configs_get (t : ConfigTable) (topic : string) : option (list ConfigEntry) :=
  ct_topics t !! topic.

(** ** Log directories *)

Record LogDirInfo : Set := {
  ldi_path : string;
  ldi_error : option string;
  ldi_total_bytes : option Z;
  ldi_usable_bytes : option Z;
  ldi_cordoned : bool;
  ldi_size_bytes : Z;
  ldi_replica_count : Z;
}.

Record PartitionStorage : Set := { ps_size_bytes : Z; ps_disk_bytes : Z }.

#[export] Instance LogDirInfo_eq_dec : EqDecision LogDirInfo.
Proof. solve_decision. Defined.
#[export] Instance PartitionStorage_eq_dec : EqDecision PartitionStorage.
Proof. solve_decision. Defined.

Definition PartitionStorage_default : PartitionStorage := {| ps_size_bytes := 0; ps_disk_bytes := 0 |}.

Definition storage_add (a b : PartitionStorage) : PartitionStorage :=
  {| ps_size_bytes := i64_add (ps_size_bytes a) (ps_size_bytes b);
     ps_disk_bytes := i64_add (ps_disk_bytes a) (ps_disk_bytes b) |}.

Record LogDirTable : Set := {
  ldt_brokers : gmap Z (list LogDirInfo);
  ldt_partitions : gmap string (gmap Z PartitionStorage);
}.

Definition LogDirTable_default : LogDirTable := {| ldt_brokers := ∅; ldt_partitions := ∅ |}.

(** What one replica adds to its partition. *)
Definition add_replica (partitions : gmap string (gmap Z PartitionStorage)) (replica : ReplicaLog)
    : gmap string (gmap Z PartitionStorage) :=
  let topic := default ∅ (partitions !! rl_topic replica) in
  let storage := default PartitionStorage_default (topic !! rl_partition replica) in
  let storage :=
    {| ps_size_bytes := Z.max (ps_size_bytes storage) (rl_size_bytes replica);
       ps_disk_bytes := i64_add (ps_disk_bytes storage) (rl_size_bytes replica) |} in
  <[rl_topic replica := <[rl_partition replica := storage]> topic]> partitions.

Definition add_dir (state : gmap Z (list LogDirInfo) * gmap string (gmap Z PartitionStorage))
    (dir : LogDir) : gmap Z (list LogDirInfo) * gmap string (gmap Z PartitionStorage) :=
  let '(brokers, partitions) := state in
  let '(replica_count, partitions) :=
    foldl (λ '(count, partitions) replica, (i32_add count 1, add_replica partitions replica))
      (0%Z, partitions) (List.filter (λ replica, negb (rl_future replica)) (ld_replicas dir)) in
  (push_at brokers (ld_broker dir)
     {| ldi_path := ld_path dir; ldi_error := ld_error dir; ldi_total_bytes := ld_total_bytes dir;
        ldi_usable_bytes := ld_usable_bytes dir; ldi_cordoned := ld_cordoned dir;
        ldi_size_bytes := sum_i64 (map rl_size_bytes (ld_replicas dir));
        ldi_replica_count := replica_count |},
   partitions).

Definition log_dirs_assemble (dirs : list LogDir) : LogDirTable :=
  let '(brokers, partitions) := foldl add_dir (∅, ∅) dirs in
  {| ldt_brokers := sort_by (λ a b, String.compare (ldi_path a) (ldi_path b)) <$> brokers;
     ldt_partitions := partitions |}.

Definition log_dirs_broker (t : LogDirTable) (id : Z) : option (list LogDirInfo) := ldt_brokers t !! id.

Definition log_dirs_partition (t : LogDirTable) (topic : string) (partition : Z)
    : option PartitionStorage :=
  partitions ← ldt_partitions t !! topic; partitions !! partition.

Definition log_dirs_topic (t : LogDirTable) (topic : string) : option PartitionStorage :=
  (λ partitions, foldl storage_add PartitionStorage_default (btree_iter partitions).*2) <$>
    ldt_partitions t !! topic.

(** ** Subjects *)

Record SubjectInfo : Set := {
  si_id : Z;
  si_schema_type : SchemaType;
  si_latest_version : Z;
  si_versions : list Z;
  si_compatibility : SchemaCompatibility;
}.

#[export] Instance SubjectInfo_eq_dec : EqDecision SubjectInfo.
Proof. solve_decision. Defined.

Record SubjectTable : Set := { st_subjects : gmap string SubjectInfo }.

Definition subjects_assemble (subjects : list SchemaSubject) : SubjectTable :=
  {| st_subjects := collect (map (λ subject, (ss_subject subject,
       {| si_id := ss_id subject; si_schema_type := ss_schema_type subject;
          si_latest_version := ss_latest_version subject; si_versions := ss_versions subject;
          si_compatibility := ss_compatibility subject |})) subjects) |}.

Definition subjects_get (t : SubjectTable) (subject : string) : option SubjectInfo :=
  st_subjects t !! subject.

Definition latest (t : SubjectTable) (subject : string) : option LatestSchema :=
  info ← subjects_get t subject;
  Some {| ls_version := si_latest_version info; ls_id := si_id info;
          ls_schema_type := si_schema_type info |}.

Record SchemaIdTable : Set := { sit_subjects : gmap string (gmap Z Z) }.

Definition schema_ids_get (t : SchemaIdTable) (subject : string) (version : Z) : option Z :=
  versions ← sit_subjects t !! subject; versions !! version.

(** ** Helper lemmas *)

Lemma push_at_lookup {K V} `{Countable K} (m : gmap K (list V)) k v j :
  default [] (push_at m k v !! j) = default [] (m !! j) ++ (if decide (k = j) then [v] else []).
Proof.
  unfold push_at. case_decide as E.
  - subst. by rewrite lookup_insert_eq.
  - by rewrite lookup_insert_ne, app_nil_r.
Qed.

(** Pushing the same value at each of a list's keys, no key twice. *)
Lemma push_all_lookup {K V} `{Countable K} (ks : list K) (m : gmap K (list V)) v j :
  NoDup ks →
  default [] (foldl (λ m k, push_at m k v) m ks !! j) =
  default [] (m !! j) ++ (if decide (j ∈ ks) then [v] else []).
Proof.
  revert m. induction ks as [|k ks IH]; intros m Hnd.
  - cbn [foldl]. rewrite decide_False by apply not_elem_of_nil. by rewrite app_nil_r.
  - apply NoDup_cons in Hnd as [Hk Hnd]. cbn [foldl]. rewrite IH, push_at_lookup by done.
    rewrite <- app_assoc. f_equal. destruct (decide (k = j)) as [->|E].
    + rewrite decide_False by done. rewrite decide_True by by left. done.
    + simpl. destruct (decide (j ∈ ks)) as [Hj|Hj].
      * rewrite decide_True by by right. done.
      * rewrite decide_False; [done|]. rewrite elem_of_cons. by intros [->|?].
Qed.

Lemma elem_of_consumed_once g topic : topic ∈ consumed_once g ↔ topic ∈ consumed_topics g.
Proof. unfold consumed_once. by rewrite elem_of_dedup, elem_of_sort_by. Qed.

Lemma consumed_once_NoDup g : NoDup (consumed_once g).
Proof.
  apply (strictly_sorted_NoDup String.compare), (dedup_sorted String.compare).
  - intros x y. apply String.compare_eq_iff.
  - apply sort_by_sorted, _.
Qed.

Definition group_info (g : GroupSnapshot) : GroupInfo :=
  {| gi_state := gs_state g; gi_protocol := gs_protocol g; gi_members := gs_members g |}.

(** Every group is indexed under the topics it consumes, in the order of the sweep. *)
Lemma add_groups_topics groups state topic :
  default [] ((foldl add_group state groups).2 !! topic) =
  default [] (state.2 !! topic) ++
  (gs_id <$> List.filter (λ g, bool_decide (topic ∈ consumed_topics g)) groups).
Proof.
  revert state. induction groups as [|g groups IH]; intros [assembled topic_groups].
  - simpl. by rewrite app_nil_r.
  - cbn [foldl]. rewrite IH. unfold add_group. cbn [snd].
    rewrite push_all_lookup by apply consumed_once_NoDup. rewrite <- app_assoc. f_equal. simpl.
    destruct (decide (topic ∈ consumed_once g)) as [Ht|Ht]; rewrite elem_of_consumed_once in Ht.
    + by rewrite bool_decide_eq_true_2.
    + by rewrite bool_decide_eq_false_2.
Qed.

Lemma add_groups_assembled groups state :
  (foldl add_group state groups).1 = collect_into state.1 (map (λ g, (gs_id g, group_info g)) groups).
Proof.
  revert state. induction groups as [|g groups IH]; intros [assembled topic_groups]; [done|].
  cbn [foldl]. by rewrite IH.
Qed.

Lemma functional_groups groups :
  NoDup (gs_id <$> groups) → functional_pairs (map (λ g, (gs_id g, group_info g)) groups).
Proof.
  intros Hnd. apply functional_pairs_NoDup. rewrite <- list_fmap_compose.
  replace (fst ∘ _ <$> groups) with (gs_id <$> groups); [done|]. by apply list_fmap_ext.
Qed.

Lemma groups_for_topic_eq meta groups topic :
  groups_for_topic (assemble meta groups) topic =
  sort_by String.compare (gs_id <$> List.filter (λ g, bool_decide (topic ∈ consumed_topics g)) groups).
Proof.
  unfold groups_for_topic, assemble.
  pose proof (add_groups_topics groups (∅, ∅) topic) as Hadd.
  destruct (foldl add_group (∅, ∅) groups) as [assembled topic_groups]. simpl in *.
  rewrite lookup_empty in Hadd. simpl in Hadd. rewrite lookup_fmap, <- Hadd.
  by destruct (topic_groups !! topic).
Qed.

Lemma assembled_group meta groups id info :
  NoDup (gs_id <$> groups) →
  group (assemble meta groups) id = Some info ↔
  ∃ g, g ∈ groups ∧ gs_id g = id ∧ info = group_info g.
Proof.
  intros Hnd. unfold group, assemble.
  pose proof (add_groups_assembled groups (∅, ∅)) as Hadd.
  destruct (foldl add_group (∅, ∅) groups) as [assembled topic_groups]. simpl in *. subst assembled.
  change (collect_into ∅ ?l) with (collect l). rewrite collect_lookup by by apply functional_groups.
  rewrite list_elem_of_fmap. split.
  - intros (g & [= -> ->] & Hg). by exists g.
  - intros (g & Hg & <- & ->). by exists g.
Qed.

(** *** Storage *)

(** The replicas a partition is served from. *)
Definition live_replicas (dirs : list LogDir) (topic : string) (partition : Z) : list ReplicaLog :=
  List.filter (λ r, negb (rl_future r) && String.eqb (rl_topic r) topic && (rl_partition r =? partition)%Z)
    (concat (map ld_replicas dirs)).

Lemma max_fold_nonneg l : (0 ≤ foldr Z.max 0 l)%Z.
Proof. induction l; simpl; lia. Qed.

Lemma foldr_max_app l k : foldr Z.max 0%Z (l ++ k) = Z.max (foldr Z.max 0%Z l) (foldr Z.max 0%Z k).
Proof.
  induction l as [|x l IH]; cbn [foldr app]; [|rewrite IH; lia].
  pose proof (max_fold_nonneg k). lia.
Qed.

(** The largest replica and all of them together. *)
Definition storage_of (replicas : list ReplicaLog) : option PartitionStorage :=
  match replicas with
  | [] => None
  | _ => Some {| ps_size_bytes := foldr Z.max 0%Z (rl_size_bytes <$> replicas);
                 ps_disk_bytes := wrap_i64 (sum_Z (rl_size_bytes <$> replicas)) |}
  end.

Abbreviation stored partitions t p := (storage ← partitions !! t; storage !! p).

Lemma add_replica_stored (partitions : gmap string (gmap Z PartitionStorage)) done t p r :
  stored partitions t p = storage_of done →
  stored (add_replica partitions r) t p =
  if String.eqb (rl_topic r) t && (rl_partition r =? p)%Z then storage_of (done ++ [r])
  else stored partitions t p.
Proof.
  intros Hdone. unfold add_replica. destruct (String.eqb_spec (rl_topic r) t) as [<-|Ht]; simpl.
  2: { by rewrite lookup_insert_ne. }
  rewrite lookup_insert_eq. simpl. destruct (Z.eqb_spec (rl_partition r) p) as [<-|Hp].
  - rewrite lookup_insert_eq.
    assert (default PartitionStorage_default
      (default ∅ (partitions !! rl_topic r) !! rl_partition r) =
      {| ps_size_bytes := foldr Z.max 0%Z (rl_size_bytes <$> done);
         ps_disk_bytes := wrap_i64 (sum_Z (rl_size_bytes <$> done)) |}) as ->.
    { destruct (partitions !! rl_topic r) as [topic|]; simpl in *.
      - rewrite Hdone. unfold storage_of. by destruct done.
      - rewrite lookup_empty. by destruct done. }
    simpl. unfold storage_of. destruct (done ++ [r]) as [|x l] eqn:E; [by destruct done|].
    rewrite <- E, fmap_app, sum_Z_app, foldr_max_app. simpl. do 2 f_equal.
    + pose proof (max_fold_nonneg (rl_size_bytes <$> done)). lia.
    + unfold i64_add. rewrite wrap_i64_add. f_equal. unfold sum_Z. simpl. lia.
  - rewrite lookup_insert_ne by done. destruct (partitions !! rl_topic r); [done|].
    apply lookup_empty.
Qed.

Lemma add_replicas_stored replicas (partitions : gmap string (gmap Z PartitionStorage)) count done t p :
  stored partitions t p = storage_of done →
  stored (foldl (λ '(count, partitions) replica, (i32_add count 1, add_replica partitions replica))
    (count, partitions) replicas).2 t p =
  storage_of (done ++ List.filter (λ r, String.eqb (rl_topic r) t && (rl_partition r =? p)%Z) replicas).
Proof.
  revert count partitions done. induction replicas as [|r replicas IH]; intros count partitions done Hdone.
  - cbn [foldl snd List.filter]. by rewrite app_nil_r.
  - cbn [foldl List.filter]. pose proof (add_replica_stored partitions done t p r Hdone) as Hr.
    destruct (_ && _).
    + rewrite (IH _ _ _ Hr), <- app_assoc. done.
    + apply IH. by rewrite Hr.
Qed.

Lemma filter_filter {A} (f g : A → bool) l :
  List.filter g (List.filter f l) = List.filter (λ x, f x && g x) l.
Proof.
  induction l as [|x l IH]; simpl; [done|]. destruct (f x); simpl; [destruct (g x)|]; by rewrite IH.
Qed.

Lemma filter_bool_app {A} (f : A → bool) l k : List.filter f (l ++ k) = List.filter f l ++ List.filter f k.
Proof. induction l as [|x l IH]; simpl; [done|]. destruct (f x); simpl; by rewrite IH. Qed.

Lemma add_dirs_stored dirs brokers (partitions : gmap string (gmap Z PartitionStorage)) done t p :
  stored partitions t p = storage_of done →
  stored (foldl add_dir (brokers, partitions) dirs).2 t p = storage_of (done ++ live_replicas dirs t p).
Proof.
  revert brokers partitions done. induction dirs as [|dir dirs IH]; intros brokers partitions done Hdone.
  - cbn [foldl snd]. unfold live_replicas. simpl. by rewrite app_nil_r.
  - cbn [foldl]. unfold add_dir at 2.
    pose proof (add_replicas_stored (List.filter (λ r, negb (rl_future r)) (ld_replicas dir))
      partitions 0 done t p Hdone) as Hr.
    destruct (foldl _ (0%Z, partitions) _) as [count partitions']. cbn [snd] in Hr.
    rewrite (IH _ _ _ Hr), <- app_assoc. do 2 f_equal. unfold live_replicas. simpl.
    rewrite filter_bool_app, filter_filter. f_equal. apply filter_ext. intros r. by rewrite andb_assoc.
Qed.

(** ** Properties *)

(** A sweep's groups are indexed by the topics they consume: a topic lists, in order
    and once each, exactly the groups with a member assigned to it or an offset committed
    there, and each group of the sweep is kept whole. *)
Theorem assemble_groups_spec meta groups :
  NoDup (gs_id <$> groups) →
  (∀ topic, StronglySorted (λ x y, String.compare x y = Lt) (groups_for_topic (assemble meta groups) topic)) ∧
  (∀ topic id, id ∈ groups_for_topic (assemble meta groups) topic ↔
    ∃ g, g ∈ groups ∧ gs_id g = id ∧ topic ∈ consumed_topics g) ∧
  (∀ id info, group (assemble meta groups) id = Some info ↔
    ∃ g, g ∈ groups ∧ gs_id g = id ∧ info = group_info g).
Proof.
  intros Hnd. split; [|split].
  - intros topic. rewrite groups_for_topic_eq. apply sorted_strict; [intros x y; apply String.compare_eq_iff| |].
    + apply sort_by_sorted, _.
    + rewrite sort_by_perm. by apply NoDup_filtered.
  - intros topic id. rewrite groups_for_topic_eq, elem_of_sort_by, list_elem_of_fmap. split.
    + intros (g & -> & Hg). apply list_elem_of_In, filter_In in Hg as [Hg Ht].
      apply list_elem_of_In in Hg. apply bool_decide_eq_true in Ht. by exists g.
    + intros (g & Hg & <- & Ht). exists g. split; [done|]. apply list_elem_of_In, filter_In.
      split; [by apply list_elem_of_In|]. by apply bool_decide_eq_true.
  - intros id info. by apply assembled_group.
Qed.

(** A partition's storage is its largest served replica and the sum of them all, over
    every directory of every broker; the copy of a move still in progress counts for
    neither, and a partition with no served replica has none. *)
Theorem log_dirs_assemble_spec dirs topic partition :
  log_dirs_partition (log_dirs_assemble dirs) topic partition =
  storage_of (live_replicas dirs topic partition).
Proof.
  unfold log_dirs_partition, log_dirs_assemble.
  pose proof (add_dirs_stored dirs ∅ ∅ [] topic partition) as Hd.
  destruct (foldl add_dir (∅, ∅) dirs) as [brokers partitions]. apply Hd. by rewrite lookup_empty.
Qed.

(** ** Witnesses *)

Definition sample_group : GroupSnapshot := {|
  gs_id := "billing"; gs_state := Stable; gs_protocol := "range";
  gs_members := [{| gm_id := "m1"; gm_client_id := "c"; gm_host := "h";
    gm_assignments := [{| ma_topic := "orders"; ma_partitions := [0; 1]%Z |}] |}];
  gs_committed := [{| co_topic := "orders"; co_partition := 0; co_offset := 3 |}];
|}.

Definition sample_meta : MetadataSnapshot := {| ms_brokers := []; ms_topics := [] |}.

Lemma assemble_groups_spec_witness :
  groups_for_topic (assemble sample_meta [sample_group]) "orders" = ["billing"] ∧
  group (assemble sample_meta [sample_group]) "billing" = Some (group_info sample_group).
Proof.
  split; [vm_compute; reflexivity|].
  assert (NoDup (gs_id <$> [sample_group])) as Hnd by apply NoDup_singleton.
  apply (assemble_groups_spec sample_meta [sample_group] Hnd).
  exists sample_group. split; [by left|done].
Defined.
