(* ===== verification/Registry.v ===== *)
(** [src/kafka/registry/client.rs], with the types of [src/kafka/registry.rs] it takes: how
    klens reads and changes a schema registry. [schemreg], the client crate, is a parameter:
    its errors' classes and texts, and what each call answers. *)

From S2P Require Import Prelude Text Errors Payload Tables.

(** ** Data *)

Record SchemaReference : Set := { sr_name : string; sr_subject : string; sr_version : Z }.

Record NewSchema : Set := {
  ns_subject : string;
  ns_schema_type : SchemaType;
  ns_schema : string;
  ns_references : list SchemaReference;
}.

Record SchemaDeletion : Set := { sd_subject : string; sd_version : option Z; sd_permanent : bool }.

Record RegisteredSchema : Set := {
  rs_id : Z;
  rs_schema_type : SchemaType;
  rs_schema : string;
  rs_references : list SchemaReference;
}.

#[export] Instance SchemaReference_eq_dec : EqDecision SchemaReference.
Proof. solve_decision. Defined.

(** ** schemreg *)

(** Its open enums: a variant the source does not name is carried by its [Display]. *)
Inductive WireSchemaType : Set := WireAvro | WireJson | WireProtobuf | OtherSchemaType (display : string).

Inductive WireCompatibility : Set :=
  | WireBackward | WireBackwardTransitive | WireForward | WireForwardTransitive
  | WireFull | WireFullTransitive | WireNone | OtherCompatibility (display : string).

Inductive SchemaRegError : Set := Api (error_code : Z) (message : string) | OtherReg (failure : Z).

Class SchemregLib : Type := {
  is_not_found : SchemaRegError → bool;
  error_code : SchemaRegError → option Z;
  reg_text : SchemaRegError → string;
  SUBJECT_SOFT_DELETED : Z;
  VERSION_SOFT_DELETED : Z;
  SUBJECT_COMPATIBILITY_NOT_CONFIGURED : Z;
}.

(** [schemreg::Schema]; its references are read with their versions as [i32]. *)
Record WireSchema : Set := {
  sc_id : option Z;
  sc_version : option Z;
  sc_schema_type : WireSchemaType;
  sc_schema : string;
  sc_references : list SchemaReference;
}.

(** What each call answers. [rg_arrive n] is the order in which the [n]th wave of concurrent
    calls completes. *)
Record RegistryEnv : Type := {
  rg_subjects : result SchemaRegError (list string);
  rg_versions : string → result SchemaRegError (list Z);
  rg_compatibility : string → result SchemaRegError WireCompatibility;
  rg_by_version : string → Z → result SchemaRegError WireSchema;
  rg_by_version_uncached : string → Z → result SchemaRegError WireSchema;
  rg_by_id : Z → result SchemaRegError WireSchema;
  rg_by_key : SchemaKey → result SchemaRegError WireSchema;
  rg_register : NewSchema → result SchemaRegError ();
  rg_lookup : NewSchema → result SchemaRegError (option WireSchema);
  rg_delete : string → option Z → bool → result SchemaRegError ();
  rg_set_compatibility : string → WireCompatibility → result SchemaRegError ();
  rg_arrive : nat → list SchemaReference → list SchemaReference;
}.

(** ** Conversions *)

Definition schema_type_from (value : WireSchemaType) : result string SchemaType :=
  match value with
  | WireAvro => Ok Avro
  | WireJson => Ok Json
  | WireProtobuf => Ok Protobuf
  | OtherSchemaType display => Err ("klens does not know the schema type " +:+ display)
  end.

Definition schema_type_into (value : SchemaType) : WireSchemaType :=
  match value with Avro => WireAvro | Json => WireJson | Protobuf => WireProtobuf end.

Definition compatibility_from (value : WireCompatibility) : result string SchemaCompatibility :=
  match value with
  | WireBackward => Ok Backward_
  | WireBackwardTransitive => Ok BackwardTransitive
  | WireForward => Ok ForwardCompat
  | WireForwardTransitive => Ok ForwardTransitive
  | WireFull => Ok Full
  | WireFullTransitive => Ok FullTransitive
  | WireNone => Ok NoCompat
  | OtherCompatibility display => Err ("klens does not know the compatibility level " +:+ display)
  end.

Definition compatibility_into (value : SchemaCompatibility) : WireCompatibility :=
  match value with
  | Backward_ => WireBackward
  | BackwardTransitive => WireBackwardTransitive
  | ForwardCompat => WireForward
  | ForwardTransitive => WireForwardTransitive
  | Full => WireFull
  | FullTransitive => WireFullTransitive
  | NoCompat => WireNone
  end.

(** [i32::try_from(SchemaId::as_u32(schema.id?)).ok()]. *)
Definition schema_id (schema : WireSchema) : option Z :=
  id ← sc_id schema; if (id <=? i32_max)%Z then Some id else None.

(** [i32::cast_unsigned]. *)
Definition cast_unsigned (id : Z) : Z := (id mod 4294967296)%Z.

(** ** Dependencies *)

Definition reference_key (r : SchemaReference) : string * Z := (sr_subject r, sr_version r).

Inductive Visit : Set := Enter (reference : SchemaReference) | Leave (name : string) (schema : WireSchema).

(** One turn of the loop of [in_dependency_order]; the stack's head is the vector's end. *)
Definition visit_step (fetched : gmap (string * Z) WireSchema)
    (state : list Visit * gset (string * Z) * list (string * string))
    : list Visit * gset (string * Z) * list (string * string) :=
  let '(visits, entered, ordered) := state in
  match visits with
  | [] => state
  | Enter reference :: visits =>
      let key := reference_key reference in
      match fetched !! key with
      | Some schema =>
          if bool_decide (key ∈ entered) then (visits, entered, ordered)
          else (reverse (Enter <$> sc_references schema) ++ Leave (sr_name reference) schema :: visits,
                {[ key ]} ∪ entered, ordered)
      | None => (visits, entered, ordered)
      end
  | Leave name schema :: visits => (visits, entered, ordered ++ [(name, sc_schema schema)])
  end.

(** The turns a stack takes at most: one for each visit on it, and for each schema it may
    still enter, one to leave it and one for each reference. *)
Definition visit_cost (fetched : gmap (string * Z) WireSchema) (entered : gset (string * Z)) : nat :=
  map_fold (λ key schema cost, if decide (key ∈ entered) then cost else S (length (sc_references schema)) + cost)
    0 fetched.

Definition in_dependency_order (roots : list SchemaReference) (fetched : gmap (string * Z) WireSchema)
    : list (string * string) :=
  let visits := reverse (Enter <$> roots) in
  (Nat.iter (length visits + visit_cost fetched ∅) (visit_step fetched) (visits, ∅, [])).2.

(** The references of [pending] not seen, each once, and what is seen after. *)
Fixpoint unseen (pending : list SchemaReference) (seen : gset (string * Z))
    : list SchemaReference * gset (string * Z) :=
  match pending with
  | [] => ([], seen)
  | reference :: pending =>
      if bool_decide (reference_key reference ∈ seen) then unseen pending seen
      else
        let '(wave, seen) := unseen pending ({[ reference_key reference ]} ∪ seen) in
        (reference :: wave, seen)
  end.

(** Reads one wave in the order it completes: the next wave's references, and the schemas. *)
Fixpoint read_wave (env : RegistryEnv) (wave pending : list SchemaReference)
    (fetched : gmap (string * Z) WireSchema)
    : result SchemaRegError (list SchemaReference * gmap (string * Z) WireSchema) :=
  match wave with
  | [] => Ok (pending, fetched)
  | reference :: wave =>
      schema ← rg_by_version env (sr_subject reference) (sr_version reference);
      read_wave env wave (pending ++ sc_references schema) (<[reference_key reference := schema]> fetched)
  end.

(** The loop of [dependencies], [None] when [fuel] waves are not enough. *)
Fixpoint fetch_waves (env : RegistryEnv) (fuel n : nat) (pending : list SchemaReference)
    (seen : gset (string * Z)) (fetched : gmap (string * Z) WireSchema)
    : option (result SchemaRegError (gmap (string * Z) WireSchema)) :=
  match fuel with
  | O => None
  | S fuel =>
      let '(wave, seen) := unseen pending seen in
      if bool_decide (wave = []) then Some (Ok fetched)
      else
        match read_wave env (rg_arrive env n wave) [] fetched with
        | Err error => Some (Err error)
        | Ok (pending, fetched) => fetch_waves env fuel (S n) pending seen fetched
        end
  end.

Definition dependencies (env : RegistryEnv) (fuel : nat) (references : list SchemaReference)
    : option (result SchemaRegError (list (string * string))) :=
  match fetch_waves env fuel 0 references ∅ ∅ with
  | Some (Ok fetched) => Some (Ok (in_dependency_order references fetched))
  | Some (Err error) => Some (Err error)
  | None => None
  end.

(** ** Reads *)

Section client.
Context `{!SchemregLib} (cluster : string).

Definition fail (message : string) : KafkaError := SchemaRegistry cluster message.

Definition is_soft_deleted (error : SchemaRegError) : bool :=
  match error_code error with
  | Some code => (code =? SUBJECT_SOFT_DELETED)%Z || (code =? VERSION_SOFT_DELETED)%Z
  | None => false
  end.

Definition is_unconfigured (error : SchemaRegError) : bool :=
  is_not_found error || bool_decide (error_code error = Some SUBJECT_COMPATIBILITY_NOT_CONFIGURED).

Definition refusal (error : SchemaRegError) : KafkaError :=
  match error with
  | Api code message =>
      if ((400 <=? code) && (code <? 500) || (40000 <=? code) && (code <? 50000))%Z
      then RegistryRefused message else fail (reg_text error)
  | OtherReg _ => fail (reg_text error)
  end.

Definition known_schema_type (schema : WireSchema) : result KafkaError SchemaType :=
  map_err fail (schema_type_from (sc_schema_type schema)).

Definition with_id (schema : WireSchema) : result KafkaError Z :=
  ok_or (schema_id schema) (fail "schema is missing id").

Definition registered (schema : WireSchema) : result KafkaError RegisteredSchema :=
  id ← with_id schema;
  schema_type ← known_schema_type schema;
  Ok {| rs_id := id; rs_schema_type := schema_type; rs_schema := sc_schema schema;
        rs_references := sc_references schema |}.

Definition schema_by_subject_version (env : RegistryEnv) (subject : string) (version : Z)
    : result KafkaError RegisteredSchema :=
  match rg_by_version env subject version with
  | Ok latest => registered latest
  | Err error => Err (if is_not_found error then UnknownSubject cluster subject version else fail (reg_text error))
  end.

Definition registry_version_ids (env : RegistryEnv) (versions : list (string * Z)) : list (string * RegisteredVersion) :=
  omap (λ entry : string * Z,
    match rg_by_version_uncached env entry.1 entry.2 with
    | Ok schema => id ← schema_id schema; Some (entry.1, {| rv_id := id; rv_version := entry.2 |})
    | Err _ => None
    end) versions.

Definition readable (level : result SchemaRegError WireCompatibility) : result string SchemaCompatibility :=
  match level with Ok level => compatibility_from level | Err error => Err (reg_text error) end.

(** [unwrap_or_else] with NONE. *)
Definition or_none (level : result string SchemaCompatibility) : SchemaCompatibility :=
  match level with Ok level => level | Err _ => NoCompat end.

Definition global_compatibility (env : RegistryEnv) : SchemaCompatibility :=
  match rg_compatibility env "" with
  | Err error => if is_unconfigured error then NoCompat else or_none (readable (Err error))
  | Ok level => or_none (readable (Ok level))
  end.

(** A subject's level; the global one is read once for all of them. *)
Definition compatibility (env : RegistryEnv) (name : string) : SchemaCompatibility :=
  match rg_compatibility env name with
  | Err error => if is_unconfigured error then global_compatibility env else or_none (readable (Err error))
  | Ok level => or_none (readable (Ok level))
  end.

Definition read_versions (env : RegistryEnv) (name : string) : result KafkaError (list Z) :=
  match rg_versions env name with Ok versions => Ok versions | Err error => Err (fail (reg_text error)) end.

Definition latest_schema (env : RegistryEnv) (name : string) (version : Z) : result KafkaError LatestSchema :=
  match rg_by_version env name version with
  | Err error => Err (fail (reg_text error))
  | Ok schema =>
      id ← with_id schema;
      schema_type ← known_schema_type schema;
      Ok {| ls_version := version; ls_id := id; ls_schema_type := schema_type |}
  end.

(** [Iterator::max]. *)
Definition max_version (versions : list Z) : option Z :=
  match versions with [] => None | version :: versions => Some (foldl Z.max version versions) end.

Definition load_subject (env : RegistryEnv) (name : string) (known : option LatestSchema)
    : result KafkaError SchemaSubject :=
  versions ← read_versions env name;
  latest_version ← ok_or (max_version versions) (fail "subject has no versions");
  latest ← match (known ← known; if (ls_version known =? latest_version)%Z then Some known else None) with
           | Some known => Ok known
           | None => latest_schema env name latest_version
           end;
  Ok {| ss_subject := name; ss_id := ls_id latest; ss_schema_type := ls_schema_type latest;
        ss_latest_version := latest_version; ss_versions := versions;
        ss_compatibility := compatibility env name |}.

(** Leaves out a subject that does not load. *)
Definition subjects (env : RegistryEnv) (known : string → option LatestSchema)
    : result KafkaError (list SchemaSubject) :=
  match rg_subjects env with
  | Err error => Err (fail (reg_text error))
  | Ok names =>
      Ok (sort_by (λ left right, String.compare (ss_subject left) (ss_subject right))
        (omap (λ name, result_ok (load_subject env name (known name))) names))
  end.

(** ** Changes *)

Definition register (env : RegistryEnv) (schema : NewSchema) : result KafkaError RegisteredVersion :=
  match rg_register env schema with
  | Err error => Err (refusal error)
  | Ok _ =>
      match rg_lookup env schema with
      | Err error => Err (fail (reg_text error))
      | Ok None => Err (fail "the registry does not hold the schema it registered")
      | Ok (Some registered) =>
          id ← with_id registered;
          version ← ok_or (sc_version registered) (fail "schema is missing version");
          Ok {| rv_id := id; rv_version := version |}
      end
  end.

Definition delete_once (env : RegistryEnv) (deletion : SchemaDeletion) (permanent : bool) : result SchemaRegError () :=
  rg_delete env (sd_subject deletion) (sd_version deletion) permanent.

Definition deletion_error (deletion : SchemaDeletion) (error : SchemaRegError) : KafkaError :=
  if is_not_found error
  then UnknownSubject cluster (sd_subject deletion) (default 0%Z (sd_version deletion))
  else refusal error.

(** The answer, and the calls made, each by whether it deletes for good. *)
Definition registry_delete (env : RegistryEnv) (deletion : SchemaDeletion) : result KafkaError () * list bool :=
  let soft :=
    match delete_once env deletion false with
    | Err error => if sd_permanent deletion && is_soft_deleted error then Ok () else Err (deletion_error deletion error)
    | Ok _ => Ok ()
    end in
  match soft with
  | Err error => (Err error, [false])
  | Ok _ =>
      if sd_permanent deletion
      then (map_err (deletion_error deletion) (delete_once env deletion true), [false; true])
      else (Ok (), [false])
  end.

Definition registry_set_compatibility (env : RegistryEnv) (subject : string) (level : SchemaCompatibility)
    : result KafkaError () :=
  map_err refusal (rg_set_compatibility env subject (compatibility_into level)).

(** [codec] is [RegisteredSchema::encode], which calls the Avro, JSON and Protobuf crates. *)
Definition registry_encode (codec : RegisteredSchema → list (string * string) → string → result KafkaError string)
    (env : RegistryEnv) (fuel : nat) (id : Z) (json : string) : option (result KafkaError string) :=
  match rg_by_id env (cast_unsigned id) with
  | Err error => Some (Err (if is_not_found error then UnknownSchema cluster id else fail (reg_text error)))
  | Ok schema =>
      match dependencies env fuel (sc_references schema) with
      | None => None
      | Some (Err error) => Some (Err (fail (reg_text error)))
      | Some (Ok dependencies) =>
          Some (schema_type ← known_schema_type schema;
                codec {| rs_id := id; rs_schema_type := schema_type; rs_schema := sc_schema schema;
                         rs_references := sc_references schema |} dependencies json)
      end
  end.
End client.

(** ** Orders of dependencies *)

(** [k'] is one of the schemas [k]'s schema references, both fetched. *)
Definition references_to (fetched : gmap (string * Z) WireSchema) (k k' : string * Z) : Prop :=
  ∃ schema r, fetched !! k = Some schema ∧ r ∈ sc_references schema ∧ reference_key r = k' ∧ is_Some (fetched !! k').

(** A dependency as the loop leaves it: its key, the name it was entered under, its schema. *)
Record Dependency : Set := { dep_key : string * Z; dep_name : string; dep_schema : WireSchema }.

Definition dep_text (d : Dependency) : string * string := (dep_name d, sc_schema (dep_schema d)).

(** What visiting [rs] after [entered] appends. *)
Record visited (fetched : gmap (string * Z) WireSchema) (entered : gset (string * Z))
    (rs : list SchemaReference) (out : list Dependency) : Prop := {
  vi_nodup : NoDup (dep_key <$> out);
  vi_fresh : ∀ d, d ∈ out → dep_key d ∉ entered;
  vi_schema : ∀ d, d ∈ out → fetched !! dep_key d = Some (dep_schema d);
  vi_reached : ∀ d, d ∈ out → ∃ r, r ∈ rs ∧ rtc (references_to fetched) (reference_key r) (dep_key d);
  vi_name : ∀ d, d ∈ out → ∃ r, reference_key r = dep_key d ∧ sr_name r = dep_name d ∧
    (r ∈ rs ∨ ∃ k schema, fetched !! k = Some schema ∧ r ∈ sc_references schema);
  vi_roots : ∀ r, r ∈ rs → is_Some (fetched !! reference_key r) →
    reference_key r ∈ entered ∨ reference_key r ∈ (dep_key <$> out);
  vi_closed : ∀ k k', k ∈ (dep_key <$> out) → references_to fetched k k' →
    k' ∈ entered ∨ k' ∈ (dep_key <$> out);
  vi_order : ∀ before d rest k', out = before ++ d :: rest → references_to fetched (dep_key d) k' →
    k' ∈ entered ∨ k' ∈ (dep_key <$> before) ∨ rtc (references_to fetched) k' (dep_key d);
}.

Lemma visit_cost_enter fetched entered k schema :
  fetched !! k = Some schema → k ∉ entered →
  visit_cost fetched entered = S (length (sc_references schema)) + visit_cost fetched ({[ k ]} ∪ entered).
Proof.
  intros Hk Hn. unfold visit_cost.
  rewrite <- (insert_delete_id fetched k schema Hk).
  rewrite !map_fold_insert_L by
    (try apply lookup_delete_eq; intros; repeat case_decide; lia).
  rewrite decide_False by done. rewrite (decide_True (P := k ∈ _)) by set_solver.
  f_equal. assert (Hd : delete k fetched !! k = None) by apply lookup_delete_eq.
  revert Hd. generalize (delete k fetched). intros m.
  induction m as [|i x m Hi IH] using map_ind; [done|]. intros Hm.
  apply lookup_insert_None in Hm as [Hm Hik].
  rewrite !map_fold_insert_L by (try done; intros; repeat case_decide; lia).
  rewrite IH by done. repeat case_decide; set_solver.
Qed.

Lemma list_split_cases {A} (xs ys l1 l2 : list A) y x :
  xs ++ y :: ys = l1 ++ x :: l2 →
  (∃ l, l2 = l ++ y :: ys ∧ xs = l1 ++ x :: l) ∨ (l1 = xs ∧ x = y ∧ l2 = ys) ∨
  (∃ l, l1 = xs ++ y :: l ∧ ys = l ++ x :: l2).
Proof.
  intros [l [[-> E]|[-> E]]]%app_eq_app.
  - destruct l as [|z l]; cbn in E; injection E as -> ->; [|eauto].
    right; left. by rewrite app_nil_r.
  - destruct l as [|z l]; cbn in E; injection E as -> ->; [|eauto].
    right; left. by rewrite app_nil_r.
Qed.

Lemma reaches_fetched fetched k k' :
  rtc (references_to fetched) k k' → is_Some (fetched !! k') → is_Some (fetched !! k).
Proof. destruct 1 as [|? ? ? (s & r & E & _) _]; eauto. Qed.

Lemma visited_nil fetched entered : visited fetched entered [] [].
Proof.
  split; try (intros ? H; by apply elem_of_nil in H); [constructor| |].
  - intros k k' H. by apply elem_of_nil in H.
  - intros [|x l] d rest k' H; discriminate H.
Qed.

Lemma visited_skip fetched entered r rs out :
  fetched !! reference_key r = None ∨ reference_key r ∈ entered →
  visited fetched entered rs out → visited fetched entered (r :: rs) out.
Proof.
  intros Hr [H1 H2 H3 H4 H5 H6 H7 H8]. split; try done.
  - intros d Hd. destruct (H4 d Hd) as (r' & ? & ?). exists r'. set_solver.
  - intros d Hd. destruct (H5 d Hd) as (r' & ? & ? & Hin). exists r'. set_solver.
  - intros r' [->|Hr']%elem_of_cons [s Hs]; [destruct Hr; [congruence|by left]|eauto].
Qed.

(** Entering [r]: its references' dependencies, itself, then the rest of the stack's. *)
Lemma visited_enter fetched entered r schema rs out1 out2 :
  fetched !! reference_key r = Some schema → reference_key r ∉ entered →
  let dep := {| dep_key := reference_key r; dep_name := sr_name r; dep_schema := schema |} in
  visited fetched ({[ reference_key r ]} ∪ entered) (reverse (sc_references schema)) out1 →
  visited fetched ({[ reference_key r ]} ∪ entered ∪ list_to_set (dep_key <$> out1)) rs out2 →
  visited fetched entered (r :: rs) (out1 ++ dep :: out2).
Proof.
  intros Hf Hn dep [A1 A2 A3 A4 A5 A6 A7 A8] [B1 B2 B3 B4 B5 B6 B7 B8].
  set (k := reference_key r) in *.
  assert (Ak : k ∉ dep_key <$> out1).
  { intros (d' & E & Hd')%list_elem_of_fmap. apply (A2 d' Hd'). set_solver. }
  assert (Bk : ∀ k', k' ∈ dep_key <$> out2 → k' ∉ {[k]} ∪ entered ∪ list_to_set (dep_key <$> out1)).
  { intros k' (d' & -> & Hd')%list_elem_of_fmap. auto. }
  assert (Hin : ∀ d', d' ∈ out1 ++ dep :: out2 ↔ d' ∈ out1 ∨ d' = dep ∨ d' ∈ out2) by set_solver.
  assert (Hkey : ∀ k', k' ∈ dep_key <$> (out1 ++ dep :: out2) ↔
                 k' ∈ dep_key <$> out1 ∨ k' = k ∨ k' ∈ dep_key <$> out2).
  { intros k'. rewrite fmap_app, fmap_cons. set_solver. }
  assert (HU : ∀ k', k' ∈ {[k]} ∪ entered ∪ list_to_set (dep_key <$> out1) ↔
               (k' = k ∨ k' ∈ entered) ∨ k' ∈ dep_key <$> out1).
  { intros k'. by rewrite !elem_of_union, elem_of_singleton, elem_of_list_to_set. }
  assert (HV : ∀ k', k' ∈ {[k]} ∪ entered ↔ k' = k ∨ k' ∈ entered).
  { intros k'. by rewrite !elem_of_union, elem_of_singleton. }
  assert (Hchild : ∀ r', r' ∈ reverse (sc_references schema) → is_Some (fetched !! reference_key r') →
                   references_to fetched k (reference_key r')).
  { intros r' Hr' Hs. exists schema, r'. rewrite <- (elem_of_reverse r'). auto. }
  assert (Hreach : ∀ d', d' ∈ out1 → rtc (references_to fetched) k (dep_key d')).
  { intros d' Hd'. destruct (A4 d' Hd') as (r' & Hr' & Hrt). eapply rtc_l; [|exact Hrt].
    apply Hchild; [done|]. eapply reaches_fetched; eauto. }
  split.
  - rewrite fmap_app, fmap_cons. apply NoDup_app. split; [done|]. split.
    + intros k' Hk'. apply not_elem_of_cons. split; [cbn; congruence|]. intros Hk2%Bk. set_solver.
    + constructor; [|done]. intros Hk%Bk. set_solver.
  - intros d [Hd|[->|Hd]]%Hin; [apply A2 in Hd; set_solver|done|apply B2 in Hd; set_solver].
  - intros d [Hd|[->|Hd]]%Hin; auto.
  - intros d [Hd|[->|Hd]]%Hin; [exists r|exists r|].
    + split; [left|by apply Hreach].
    + split; [left|constructor].
    + destruct (B4 d Hd) as (r' & ? & ?). exists r'. set_solver.
  - intros d [Hd|[->|Hd]]%Hin; [| |].
    + destruct (A5 d Hd) as (r' & ? & ? & [Hr'|?]); exists r'; [|auto].
      rewrite elem_of_reverse in Hr'. eauto 10.
    + exists r. set_solver.
    + destruct (B5 d Hd) as (r' & ? & ? & ?). exists r'. set_solver.
  - intros r' [->|Hr']%elem_of_cons Hs; [right; apply Hkey; auto|].
    rewrite Hkey. destruct (B6 r' Hr' Hs) as [Hu%HU|]; tauto.
  - intros k' k'' Hk' Hr. rewrite Hkey. apply Hkey in Hk' as [Hk'|[->|Hk']].
    + destruct (A7 k' k'' Hk' Hr) as [Hu%HV|]; tauto.
    + destruct Hr as (s & r' & E & Hr' & <- & Hs). rewrite Hf in E. injection E as <-.
      destruct (A6 r') as [Hu%HV|]; [by apply elem_of_reverse|done|tauto|tauto].
    + destruct (B7 k' k'' Hk' Hr) as [Hu%HU|]; tauto.
  - intros before d rest k' [(l & -> & E)|[(-> & -> & ->)|(l & -> & ->)]]%list_split_cases Hr.
    + destruct (A8 before d l k' E Hr) as [[->|?]%HV|[?|?]]; [|auto|auto|auto].
      right; right. apply Hreach. rewrite E. apply elem_of_app. right. left.
    + destruct Hr as (s & r' & E & Hr' & <- & Hs). change (fetched !! k = Some s) in E. rewrite Hf in E. injection E as <-.
      destruct (A6 r') as [[->|?]%HV|Hin']; [by apply elem_of_reverse|done| |auto|auto].
      right; right; constructor.
    + rewrite fmap_app, fmap_cons, elem_of_app, elem_of_cons.
      destruct (B8 l d rest k' eq_refl Hr) as [Hu%HU|[?|?]]; tauto.
Qed.

(** Running the loop on a stack that starts with [rs], until the rest is its head again. *)
Lemma visit_run fetched m : ∀ entered rs, visit_cost fetched entered + length rs ≤ m →
  ∃ n out, visited fetched entered rs out ∧
    n + visit_cost fetched (entered ∪ list_to_set (dep_key <$> out)) = visit_cost fetched entered + length rs ∧
    ∀ rest ordered,
      Nat.iter n (visit_step fetched) ((Enter <$> rs) ++ rest, entered, ordered) =
        (rest, entered ∪ list_to_set (dep_key <$> out), ordered ++ (dep_text <$> out)).
Proof.
  induction m as [m IH] using lt_wf_ind. intros entered [|r rs] Hm.
  { exists 0, []. split; [apply visited_nil|]. cbn [length fmap list_fmap list_to_set]. rewrite union_empty_r_L.
    split; [lia|]. intros. cbn. by rewrite app_nil_r, union_empty_r_L. }
  cbn [length] in Hm. set (k := reference_key r).
  destruct (decide (fetched !! k = None ∨ k ∈ entered)) as [Hskip|Henter].
  - destruct (IH (visit_cost fetched entered + length rs) ltac:(lia) entered rs ltac:(lia)) as (n & out & Hv & Hn & Hrun).
    exists (S n), out. split; [exact (visited_skip _ _ _ _ _ Hskip Hv)|]. split; [cbn [length]; lia|]. intros rest ordered.
    rewrite Nat.iter_succ_r, <- Hrun. f_equal. cbn. fold k. destruct (fetched !! k); [|done].
    rewrite bool_decide_true; [done|]. naive_solver.
  - apply Decidable.not_or in Henter as [Hf Hent]. destruct (fetched !! k) as [schema|] eqn:Hk; [|done].
    pose proof (visit_cost_enter fetched entered k schema Hk Hent) as Hcost.
    set (e1 := {[ k ]} ∪ entered) in *.
    destruct (IH (visit_cost fetched e1 + length (sc_references schema)) ltac:(lia) e1
      (reverse (sc_references schema))) as (n1 & out1 & Hv1 & Hn1 & Hrun1); [rewrite length_reverse; lia|].
    rewrite length_reverse in Hn1. set (e2 := e1 ∪ list_to_set (dep_key <$> out1)) in *.
    destruct (IH (visit_cost fetched e2 + length rs) ltac:(lia) e2 rs ltac:(lia)) as (n2 & out2 & Hv2 & Hn2 & Hrun2).
    set (dep := {| dep_key := k; dep_name := sr_name r; dep_schema := schema |}).
    assert (He : entered ∪ list_to_set (dep_key <$> (out1 ++ dep :: out2)) = e2 ∪ list_to_set (dep_key <$> out2)).
    { rewrite fmap_app, fmap_cons, list_to_set_app_L. cbn [list_to_set dep_key]. unfold e2, e1. set_solver. }
    exists (n2 + S (n1 + 1)), (out1 ++ dep :: out2). split; [exact (visited_enter _ _ _ _ _ _ _ Hk Hent Hv1 Hv2)|]. rewrite He.
    split; [cbn [length]; lia|]. intros rest ordered.
    assert (Hstep : visit_step fetched (Enter r :: (Enter <$> rs) ++ rest, entered, ordered) =
      ((Enter <$> reverse (sc_references schema)) ++ Leave (sr_name r) schema :: (Enter <$> rs) ++ rest, e1, ordered)).
    { cbn [visit_step]. fold k. by rewrite Hk, bool_decide_false, fmap_reverse. }
    rewrite !Nat.iter_add, Nat.iter_succ, Nat.iter_add.
    change (Nat.iter 1 ?f ?x) with (f x). cbn [fmap list_fmap app]. rewrite Hstep, Hrun1.
    cbn [visit_step]. rewrite Hrun2. f_equal. rewrite fmap_app, fmap_cons, <- !app_assoc. done.
Qed.

Lemma visit_step_done fetched entered ordered n :
  Nat.iter n (visit_step fetched) ([], entered, ordered) = ([], entered, ordered).
Proof. induction n as [|n IH]; [done|]. by rewrite Nat.iter_succ, IH. Qed.

Lemma in_dependency_order_spec roots fetched :
  ∃ out, in_dependency_order roots fetched = dep_text <$> out ∧ visited fetched ∅ (reverse roots) out.
Proof.
  destruct (visit_run fetched _ ∅ (reverse roots) (Nat.le_refl _)) as (n & out & Hv & Hn & Hrun).
  exists out. split; [|done]. unfold in_dependency_order.
  rewrite length_reverse in Hn. rewrite length_reverse, length_fmap.
  replace (length roots + visit_cost fetched ∅)
    with ((length roots + visit_cost fetched ∅ - n) + n) by lia.
  specialize (Hrun [] []). rewrite app_nil_r in Hrun. rewrite <- fmap_reverse, Nat.iter_add, Hrun, visit_step_done.
  done.
Qed.

(** ** Waves of reads *)

(** [k]'s schema, as the registry answers it, references [k']. *)
Definition requires (env : RegistryEnv) (k k' : string * Z) : Prop :=
  ∃ schema r, rg_by_version env k.1 k.2 = Ok schema ∧ r ∈ sc_references schema ∧ reference_key r = k'.

Definition required (env : RegistryEnv) (references : list SchemaReference) (k : string * Z) : Prop :=
  ∃ r, r ∈ references ∧ rtc (requires env) (reference_key r) k.

Lemma unseen_spec pending : ∀ seen wave seen', unseen pending seen = (wave, seen') →
  (∀ r, r ∈ wave → r ∈ pending ∧ reference_key r ∉ seen) ∧
  (∀ k, k ∈ seen' ↔ k ∈ seen ∨ ∃ r, r ∈ wave ∧ reference_key r = k) ∧
  (∀ r, r ∈ pending → reference_key r ∈ seen').
Proof.
  induction pending as [|r pending IH]; intros seen wave seen' E; cbn in E.
  { injection E as <- <-. set_solver. }
  case_bool_decide as Hin.
  - destruct (IH _ _ _ E) as (H1 & H2 & H3). split; [set_solver|]. split; [done|].
    intros r' [->|Hr']%elem_of_cons; [apply H2; auto|auto].
  - destruct (unseen pending _) as [wave1 seen1] eqn:E1. injection E as <- <-.
    destruct (IH _ _ _ E1) as (H1 & H2 & H3). split; [set_solver|]. split.
    + intros k. rewrite H2. set_solver.
    + intros r' [->|Hr']%elem_of_cons; [apply H2; set_solver|auto].
Qed.

Lemma read_wave_ok env wave : ∀ pending fetched pending' fetched',
  read_wave env wave pending fetched = Ok (pending', fetched') →
  (∀ r, r ∈ wave → ∃ schema, rg_by_version env (sr_subject r) (sr_version r) = Ok schema ∧
    fetched' !! reference_key r = Some schema ∧ ∀ r', r' ∈ sc_references schema → r' ∈ pending') ∧
  (∀ k, fetched' !! k = fetched !! k ∨ ∃ r, r ∈ wave ∧ reference_key r = k) ∧
  (∀ r, r ∈ pending → r ∈ pending') ∧
  (∀ r', r' ∈ pending' → r' ∈ pending ∨ ∃ r schema, r ∈ wave ∧
    rg_by_version env (sr_subject r) (sr_version r) = Ok schema ∧ r' ∈ sc_references schema).
Proof.
  induction wave as [|r wave IH]; intros pending fetched pending' fetched' E; cbn in E.
  { injection E as <- <-. set_solver. }
  destruct (rg_by_version env (sr_subject r) (sr_version r)) as [schema|error] eqn:Hr; cbn in E; [|done].
  destruct (IH _ _ _ _ E) as (H1 & H2 & H3 & H4). split_and!.
  - intros r' [->|Hr']%elem_of_cons; [|auto]. exists schema. split; [done|]. split.
    + destruct (H2 (reference_key r)) as [->|(r' & Hr' & Hk)]; [by rewrite lookup_insert_eq|].
      destruct (H1 r' Hr') as (schema' & Hs & Hf & _). rewrite <- Hk, Hf. f_equal.
      unfold reference_key in Hk. injection Hk as E1 E2. rewrite E1, E2 in Hs. congruence.
    + intros r' Hr'. apply H3. set_solver.
  - intros k. destruct (H2 k) as [->|(r' & ? & ?)]; [|right; exists r'; set_solver].
    destruct (decide (reference_key r = k)) as [<-|Hk]; [right; exists r; set_solver|].
    left. by apply lookup_insert_ne.
  - set_solver.
  - intros r' [[Hp|Hs]%elem_of_app|(r1 & s1 & ? & ? & ?)]%H4; [by left| |].
    + right. exists r, schema. set_solver.
    + right. exists r1, s1. set_solver.
Qed.

Lemma read_wave_err env wave : ∀ pending fetched error,
  read_wave env wave pending fetched = Err error →
  ∃ r, r ∈ wave ∧ rg_by_version env (sr_subject r) (sr_version r) = Err error.
Proof.
  induction wave as [|r wave IH]; intros pending fetched error E; cbn in E; [done|].
  destruct (rg_by_version env _ _) eqn:Hr; cbn in E.
  - destruct (IH _ _ _ E) as (r' & ? & ?). exists r'. set_solver.
  - injection E as ->. exists r. set_solver.
Qed.

(** The loop of [dependencies] between two waves. *)
Record fetching (env : RegistryEnv) (roots pending : list SchemaReference) (seen : gset (string * Z))
    (fetched : gmap (string * Z) WireSchema) : Prop := {
  fe_seen : ∀ k, is_Some (fetched !! k) ↔ k ∈ seen;
  fe_read : ∀ k schema, fetched !! k = Some schema → rg_by_version env k.1 k.2 = Ok schema;
  fe_closed : ∀ k schema r, fetched !! k = Some schema → r ∈ sc_references schema →
    reference_key r ∈ seen ∨ r ∈ pending;
  fe_roots : ∀ r, r ∈ roots → reference_key r ∈ seen ∨ r ∈ pending;
  fe_pending : ∀ r, r ∈ pending → required env roots (reference_key r);
  fe_required : ∀ k, k ∈ seen → required env roots k;
}.

Lemma required_step env roots k k' : required env roots k → requires env k k' → required env roots k'.
Proof. intros (r & Hr & Hk) Hstep. exists r. split; [done|]. by eapply rtc_r. Qed.

Lemma fetching_start env roots : fetching env roots roots ∅ ∅.
Proof.
  split; try set_solver. intros k. rewrite lookup_empty. split; [by intros []|set_solver].
Qed.

Lemma fetching_wave env roots pending seen fetched wave wave' seen' pending' fetched' :
  fetching env roots pending seen fetched → unseen pending seen = (wave, seen') → wave' ≡ₚ wave →
  read_wave env wave' [] fetched = Ok (pending', fetched') → fetching env roots pending' seen' fetched'.
Proof.
  intros [F1 F2 F3 F4 F5 F6] Hu Hp Hr.
  destruct (unseen_spec _ _ _ _ Hu) as (U1 & U2 & U3).
  destruct (read_wave_ok _ _ _ _ _ _ Hr) as (R1 & R2 & _ & R4).
  assert (Hw : ∀ r, r ∈ wave' ↔ r ∈ wave) by (intros r; by rewrite Hp).
  assert (Hnew : ∀ k schema, fetched' !! k = Some schema →
    fetched !! k = Some schema ∨ rg_by_version env k.1 k.2 = Ok schema ∧ ∀ r, r ∈ sc_references schema → r ∈ pending').
  { intros k schema Hk. destruct (R2 k) as [E|(r & Hin & <-)]; [left; by rewrite <- E|right].
    destruct (R1 r Hin) as (s & Hs & Hf & Hp'). rewrite Hk in Hf. injection Hf as <-. done. }
  split.
  - intros k. rewrite U2. destruct (R2 k) as [E|(r & Hin & <-)].
    + rewrite E, F1. split; [auto|]. intros [?|(r & Hin & <-)]; [done|].
      apply Hw in Hin. destruct (R1 r Hin) as (s & _ & Hs & _). apply F1. rewrite <- E. eauto.
    + split; [intros _; right; exists r; by rewrite <- Hw|].
      intros _. destruct (R1 r Hin) as (s & _ & Hs & _). eauto.
  - intros k schema [Hk|[? _]]%Hnew; auto.
  - intros k schema r [Hk|[_ Hk]]%Hnew Hin; [|auto].
    destruct (F3 k schema r Hk Hin) as [?|?]; [left; apply U2; auto|auto].
  - intros r Hin. left. destruct (F4 r Hin); [apply U2; auto|auto].
  - intros r' Hin. destruct (R4 r' Hin) as [?%elem_of_nil|(r & s & Hr1 & Hs & Hr2)]; [done|].
    apply (required_step _ _ (reference_key r)); [|by exists s, r'].
    apply F5, U1, Hw, Hr1.
  - intros k [?|(r & Hin & <-)]%U2; [auto|]. apply F5, U1, Hin.
Qed.

Section waves.
Context (env : RegistryEnv) (roots : list SchemaReference).
Hypothesis arrives : ∀ n wave, rg_arrive env n wave ≡ₚ wave.

Lemma fetch_waves_ok fuel : ∀ n pending seen fetched fetched',
  fetching env roots pending seen fetched →
  fetch_waves env fuel n pending seen fetched = Some (Ok fetched') →
  (∀ k, is_Some (fetched' !! k) ↔ required env roots k) ∧
  (∀ k schema, fetched' !! k = Some schema → rg_by_version env k.1 k.2 = Ok schema).
Proof.
  induction fuel as [|fuel IH]; intros n pending seen fetched fetched' F E; cbn in E; [done|].
  destruct (unseen pending seen) as [wave seen'] eqn:Hu. case_bool_decide as Hw.
  - injection E as <-. subst wave. destruct (unseen_spec _ _ _ _ Hu) as (_ & U2 & U3).
    destruct F as [F1 F2 F3 F4 F5 F6].
    assert (Hsame : ∀ k, k ∈ seen' → k ∈ seen) by (intros k [?|(r & Hr%elem_of_nil & _)]%U2; done).
    split; [|done]. intros k. rewrite F1. split; [auto|]. intros (r & Hr & Hk).
    assert (Hroot : reference_key r ∈ seen) by (destruct (F4 r Hr); auto).
    clear Hr. revert Hroot. generalize dependent (reference_key r). intros k0 Hk Hroot.
    induction Hk as [|k0 k1 k2 (s & r' & Hs & Hr' & <-) _ IHk]; [done|]. apply IHk.
    apply F1 in Hroot as [s' Hs']. pose proof (F2 _ _ Hs') as Hs2. rewrite Hs in Hs2. injection Hs2 as <-.
    destruct (F3 _ _ _ Hs' Hr'); auto.
  - destruct (read_wave env _ [] fetched) as [[pending' fetched1]|] eqn:Hr; [|done].
    eapply IH; [|exact E]. eauto using fetching_wave.
Qed.

Lemma fetch_waves_err fuel : ∀ n pending seen fetched error,
  fetching env roots pending seen fetched →
  fetch_waves env fuel n pending seen fetched = Some (Err error) →
  ∃ k, required env roots k ∧ rg_by_version env k.1 k.2 = Err error.
Proof.
  induction fuel as [|fuel IH]; intros n pending seen fetched error F E; cbn in E; [done|].
  destruct (unseen pending seen) as [wave seen'] eqn:Hu. case_bool_decide as Hw; [done|].
  destruct (read_wave env _ [] fetched) as [[pending' fetched1]|e] eqn:Hr.
  - eapply IH; [|exact E]. eauto using fetching_wave.
  - injection E as ->. apply read_wave_err in Hr as (r & Hin & Hr). rewrite arrives in Hin.
    exists (reference_key r). split; [|exact Hr].
    destruct F as [_ _ _ _ F5 _]. apply F5. by apply (unseen_spec _ _ _ _ Hu).
Qed.

Lemma fetch_waves_answers (U : gset (string * Z)) fuel : ∀ n pending seen fetched,
  (∀ k, required env roots k → k ∈ U) →
  fetching env roots pending seen fetched → size (U ∖ seen) < fuel →
  is_Some (fetch_waves env fuel n pending seen fetched).
Proof.
  induction fuel as [|fuel IH]; intros n pending seen fetched HU F Hfuel; [lia|].
  cbn. destruct (unseen pending seen) as [wave seen'] eqn:Hu. case_bool_decide as Hw; [eauto|].
  destruct (read_wave env _ [] fetched) as [[pending' fetched1]|e] eqn:Hr; [|eauto].
  apply IH; [done|eauto using fetching_wave|].
  destruct wave as [|r wave]; [done|].
  destruct (unseen_spec _ _ _ _ Hu) as (U1 & U2 & U3). destruct (U1 r ltac:(left)) as [Hin Hnot].
  enough (size (U ∖ seen') < size (U ∖ seen)) by lia. apply subset_size. split.
  - intros k. rewrite !elem_of_difference, U2. naive_solver.
  - intros Hsub. assert (Hk : reference_key r ∈ U ∖ seen').
    { apply Hsub, elem_of_difference. split; [apply HU; destruct F as [_ _ _ _ F5 _]; auto|done]. }
    apply elem_of_difference in Hk as [_ Hk]. apply Hk, U2. right. exists r. split; [left|done].
Qed.
End waves.

(** ** What [dependencies] promises *)

(** On what is needed, the edges among the fetched schemas are the registry's. *)
Lemma fetched_requires env references fetched :
  (∀ k, is_Some (fetched !! k) ↔ required env references k) →
  (∀ k schema, fetched !! k = Some schema → rg_by_version env k.1 k.2 = Ok schema) →
  (∀ k k', required env references k → references_to fetched k k' ↔ requires env k k') ∧
  (∀ k k', rtc (references_to fetched) k k' → rtc (requires env) k k') ∧
  (∀ k k', required env references k → rtc (requires env) k k' → rtc (references_to fetched) k k').
Proof.
  intros Hdom Hread.
  assert (Hsub : ∀ k k', references_to fetched k k' → requires env k k').
  { intros ?? (s & r & Hs & Hr & <- & _). exists s, r. auto. }
  assert (Hstep : ∀ k k', required env references k → references_to fetched k k' ↔ requires env k k').
  { intros k k' Hk. split; [apply Hsub|].
    intros Hkk. pose proof Hkk as (s & r & Hs & Hr & <-). apply Hdom in Hk as Hk'. destruct Hk' as [s' Hs'].
    pose proof (Hread _ _ Hs') as E. rewrite Hs in E. injection E as <-.
    exists s, r. split_and!; [done|done|done|]. apply Hdom. by eapply required_step. }
  split; [done|]. split; [intros k k'; by apply rtc_subrel|].
  intros k k' Hk Hkk. induction Hkk as [|k k1 k2 H1 _ IH]; [constructor|].
  eapply rtc_l; [by apply Hstep|]. apply IH. by eapply required_step.
Qed.

(** When [dependencies] answers, its texts are those of exactly the schemas the
    references need, directly or through other schemas, each once, under a name that some
    reference gives it; and a schema comes after every schema it references, unless that one
    needs it in turn. *)
Theorem dependencies_spec (env : RegistryEnv) (fuel : nat) (references : list SchemaReference)
    (ordered : list (string * string)) :
  (∀ n wave, rg_arrive env n wave ≡ₚ wave) →
  dependencies env fuel references = Some (Ok ordered) →
  ∃ out : list Dependency,
    ordered = dep_text <$> out ∧
    NoDup (dep_key <$> out) ∧
    (∀ k, k ∈ dep_key <$> out ↔ required env references k) ∧
    (∀ d, d ∈ out → rg_by_version env (dep_key d).1 (dep_key d).2 = Ok (dep_schema d) ∧
      ∃ r, reference_key r = dep_key d ∧ sr_name r = dep_name d ∧
        (r ∈ references ∨ ∃ d', d' ∈ out ∧ r ∈ sc_references (dep_schema d'))) ∧
    (∀ before d rest k', out = before ++ d :: rest → requires env (dep_key d) k' →
      k' ∈ dep_key <$> before ∨ rtc (requires env) k' (dep_key d)).
Proof.
  intros arrives E. unfold dependencies in E.
  destruct (fetch_waves env fuel 0 references ∅ ∅) as [[fetched|]|] eqn:Hf; [|done|done].
  injection E as <-. destruct (fetch_waves_ok _ _ arrives _ _ _ _ _ _ (fetching_start env references) Hf) as [Hdom Hread].
  destruct (fetched_requires env references fetched Hdom Hread) as (Hstep & Hrtc & Hrtc2).
  destruct (in_dependency_order_spec references fetched) as (out & -> & [V1 V2 V3 V4 V5 V6 V7 V8]).
  assert (Hout : ∀ k, k ∈ dep_key <$> out ↔ required env references k).
  { intros k. split.
    - intros (d & -> & Hd)%list_elem_of_fmap. apply Hdom. eauto.
    - intros (r & Hr & Hk). assert (Hreq : required env references (reference_key r)) by (exists r; by split; [|constructor]).
      assert (Hroot : reference_key r ∈ dep_key <$> out).
      { destruct (V6 r); [by apply elem_of_reverse|by apply Hdom|set_solver|done]. }
      apply Hrtc2 in Hk; [|done]. clear Hreq Hr. revert Hroot. generalize dependent (reference_key r).
      intros k0 Hk Hroot. induction Hk as [|k0 k1 k2 H1 _ IH]; [done|]. apply IH.
      destruct (V7 _ _ Hroot H1); [set_solver|done]. }
  assert (Hreq : ∀ d, d ∈ out → required env references (dep_key d)).
  { intros d Hd. apply Hout, list_elem_of_fmap. eauto. }
  exists out. split; [done|]. split; [done|]. split; [done|]. split.
  - intros d Hd. split; [eauto|]. destruct (V5 d Hd) as (r & ? & ? & [Hr|(k & s & Hs & Hr)]); exists r.
    + rewrite elem_of_reverse in Hr. auto.
    + split_and!; [done|done|]. right. assert (Hk : k ∈ dep_key <$> out) by (apply Hout, Hdom; eauto).
      apply list_elem_of_fmap in Hk as (d' & -> & Hd'). exists d'. split; [done|].
      rewrite (V3 d' Hd') in Hs. by injection Hs as ->.
  - intros before d rest k' E Hr. assert (Hd : d ∈ out) by (rewrite E; set_solver).
    destruct (V8 before d rest k' E) as [?|[?|?]]; [by apply Hstep; auto|set_solver|by left|right; auto].
Qed.

Definition an_env (by_version : string → Z → result SchemaRegError WireSchema) : RegistryEnv := {|
  rg_subjects := Ok ["a"; "b"];
  rg_versions := λ _, Ok [1%Z; 3%Z; 2%Z];
  rg_compatibility := λ _, Ok WireFull;
  rg_by_version := by_version;
  rg_by_version_uncached := by_version;
  rg_by_id := λ _, Err (OtherReg 0);
  rg_by_key := λ _, Err (OtherReg 0);
  rg_register := λ _, Ok ();
  rg_lookup := λ _, Ok None;
  rg_delete := λ _ _ _, Ok ();
  rg_set_compatibility := λ _ _, Ok ();
  rg_arrive := λ _ wave, reverse wave;
|}.

(** [a] references [b] and [c], [b] and [c] reference each other. *)
Definition a_wire_schema (subject : string) (_ : Z) : result SchemaRegError WireSchema :=
  let to subject := {| sr_name := subject; sr_subject := subject; sr_version := 1 |} in
  Ok {| sc_id := Some 7%Z; sc_version := Some 1%Z; sc_schema_type := WireAvro; sc_schema := "s" +:+ subject;
        sc_references := if String.eqb subject "a" then [to "b"; to "c"]
                         else if String.eqb subject "b" then [to "c"]
                         else if String.eqb subject "c" then [to "b"] else [] |}.

Definition a_root : SchemaReference := {| sr_name := "A"; sr_subject := "a"; sr_version := 1 |}.

Lemma dependencies_spec_witness :
  ∃ out : list Dependency,
    [("b", "sb"); ("c", "sc"); ("A", "sa")] = dep_text <$> out ∧ NoDup (dep_key <$> out).
Proof.
  destruct (dependencies_spec (an_env a_wire_schema) 4 [a_root] [("b", "sb"); ("c", "sc"); ("A", "sa")])
    as (out & ? & ? & _).
  - intros n wave. apply reverse_Permutation.
  - vm_compute. reflexivity.
  - by exists out.
Defined.

(** C20 (termination). [dependencies] answers when the references need finitely many schemas: it
    reads at most one wave per schema. The answer is texts when the registry answers every schema
    needed, and otherwise one of the errors it answered. *)
Theorem dependencies_answers (env : RegistryEnv) (references : list SchemaReference) (U : gset (string * Z)) (fuel : nat) :
  (∀ n wave, rg_arrive env n wave ≡ₚ wave) →
  (∀ k, required env references k → k ∈ U) →
  size U < fuel →
  (∃ ordered, dependencies env fuel references = Some (Ok ordered) ∧
    ∀ k, required env references k → ∃ schema, rg_by_version env k.1 k.2 = Ok schema) ∨
  (∃ error k, dependencies env fuel references = Some (Err error) ∧
    required env references k ∧ rg_by_version env k.1 k.2 = Err error).
Proof.
  intros arrives HU Hfuel. unfold dependencies.
  destruct (fetch_waves_answers env references arrives U fuel 0 references ∅ ∅ HU (fetching_start _ _)) as [[fetched|error] Hf].
  - by rewrite difference_empty_L.
  - rewrite Hf. left. eexists. split; [done|]. intros k Hk.
    destruct (fetch_waves_ok _ _ arrives _ _ _ _ _ _ (fetching_start _ _) Hf) as [Hdom Hread].
    apply Hdom in Hk as [schema Hs]. eauto.
  - rewrite Hf. right. destruct (fetch_waves_err _ _ arrives _ _ _ _ _ _ (fetching_start _ _) Hf) as (k & ? & ?). eauto.
Qed.

Lemma dependencies_answers_witness :
  let U : gset (string * Z) := {[ ("a", 1%Z); ("b", 1%Z); ("c", 1%Z) ]} in
  size U < 4 ∧
  ((∃ ordered, dependencies (an_env a_wire_schema) 4 [a_root] = Some (Ok ordered) ∧
    ∀ k, required (an_env a_wire_schema) [a_root] k → ∃ schema, a_wire_schema k.1 k.2 = Ok schema) ∨
  (∃ error k, dependencies (an_env a_wire_schema) 4 [a_root] = Some (Err error) ∧
    required (an_env a_wire_schema) [a_root] k ∧ a_wire_schema k.1 k.2 = Err error)).
Proof.
  intros U. assert (Hsize : size U < 4) by (vm_compute; lia). split; [exact Hsize|].
  apply (dependencies_answers (an_env a_wire_schema) [a_root] U 4);
    [intros n wave; apply reverse_Permutation| |exact Hsize].
  intros k (r & Hr%list_elem_of_singleton & Hk). subst r.
  assert (Ha : reference_key a_root ∈ U) by (subst U; cbn; set_solver).
  revert Ha. generalize dependent (reference_key a_root).
  intros k0 Hk Ha. induction Hk as [|k0 k1 k2 (s & r & Hs & Hr & <-) _ IH]; [done|].
  apply IH. injection Hs as <-. cbn [sc_references] in Hr. subst U.
  destruct (String.eqb k0.1 "a"), (String.eqb k0.1 "b"), (String.eqb k0.1 "c"); set_solver.
Defined.

(** ** Sweeps that know some subjects already *)

Lemma load_subject_known `{!SchemregLib} cluster env name known :
  (∀ latest, known = Some latest →
    ∀ versions, rg_versions env name = Ok versions → max_version versions = Some (ls_version latest) →
    latest_schema cluster env name (ls_version latest) = Ok latest) →
  load_subject cluster env name known = load_subject cluster env name None.
Proof.
  intros Hk. unfold load_subject, read_versions.
  destruct (rg_versions env name) as [versions|] eqn:Hv; [|done]. cbn [mbind result_bind].
  destruct (max_version versions) as [version|] eqn:Hm; [|done]. cbn [mbind result_bind ok_or].
  destruct known as [latest|]; [|done]. cbn [mbind option_bind].
  destruct (Z.eqb_spec (ls_version latest) version) as [<-|]; [|done]. by rewrite (Hk latest eq_refl versions).
Qed.

Lemma max_version_spec versions version :
  max_version versions = Some version → version ∈ versions ∧ ∀ v, v ∈ versions → (v ≤ version)%Z.
Proof.
  destruct versions as [|v versions]; [done|]. cbn. intros [= <-].
  revert v. induction versions as [|w versions IH]; intros v; cbn [foldl]; [set_solver by lia|].
  destruct (IH (Z.max v w)) as [H1 H2]. split.
  - apply elem_of_cons in H1 as [H1|H1]; [|set_solver]. rewrite H1.
    destruct (Z.max_spec v w) as [[_ ->]|[_ ->]]; set_solver.
  - intros x Hx. rewrite !elem_of_cons in Hx. destruct Hx as [->|[->|Hx]].
    + specialize (H2 (Z.max v w)). pose proof (H2 ltac:(left)). lia.
    + specialize (H2 (Z.max v w)). pose proof (H2 ltac:(left)). lia.
    + apply H2. by right.
Qed.

Lemma load_subject_ok `{!SchemregLib} cluster env name s :
  load_subject cluster env name None = Ok s →
  ss_subject s = name ∧ rg_versions env name = Ok (ss_versions s) ∧
  ss_latest_version s ∈ ss_versions s ∧ (∀ v, v ∈ ss_versions s → (v ≤ ss_latest_version s)%Z) ∧
  latest_schema cluster env name (ss_latest_version s) =
    Ok {| ls_version := ss_latest_version s; ls_id := ss_id s; ls_schema_type := ss_schema_type s |}.
Proof.
  unfold load_subject, read_versions.
  destruct (rg_versions env name) as [versions|] eqn:Hv; [|done]. cbn [mbind result_bind].
  destruct (max_version versions) as [version|] eqn:Hm; [|done]. cbn [mbind result_bind option_bind ok_or].
  destruct (latest_schema cluster env name version) as [latest|] eqn:Hl; [|done].
  intros [= <-]. apply max_version_spec in Hm as [Hm1 Hm2]. cbn [ss_subject ss_versions ss_latest_version ss_id ss_schema_type].
  split_and!; [done|done|done|done|].
  rewrite Hl. f_equal. destruct latest as [v i t]. cbn. f_equal.
  unfold latest_schema in Hl. destruct (rg_by_version env name version) as [schema|]; [|done].
  destruct (with_id cluster schema); [|done]. cbn in Hl. destruct (known_schema_type cluster schema); [|done].
  by injection Hl.
Qed.

(** C26 (equivalence). A sweep that is told what the last one read lists what a sweep that reads
    everything does, provided that what it is told of a version is still what the registry holds
    for it: the subjects that load, in the order of their names, each with its greatest version. *)
Theorem subjects_spec `{!SchemregLib} (cluster : string) (env : RegistryEnv) (known : string → option LatestSchema)
    (names : list string) :
  rg_subjects env = Ok names →
  (∀ name latest, known name = Some latest → latest_schema cluster env name (ls_version latest) = Ok latest) →
  subjects cluster env known = subjects cluster env (λ _, None) ∧
  ∃ listed, subjects cluster env known = Ok listed ∧
    StronglySorted (cmp_le (λ left right, String.compare (ss_subject left) (ss_subject right))) listed ∧
    (∀ s, s ∈ listed ↔ ∃ name, name ∈ names ∧ load_subject cluster env name None = Ok s) ∧
    (∀ s, s ∈ listed → ss_subject s ∈ names ∧ rg_versions env (ss_subject s) = Ok (ss_versions s) ∧
      ss_latest_version s ∈ ss_versions s ∧ (∀ v, v ∈ ss_versions s → (v ≤ ss_latest_version s)%Z) ∧
      latest_schema cluster env (ss_subject s) (ss_latest_version s) =
        Ok {| ls_version := ss_latest_version s; ls_id := ss_id s; ls_schema_type := ss_schema_type s |}).
Proof.
  intros Hnames Hknown.
  assert (Hload : ∀ name, load_subject cluster env name (known name) = load_subject cluster env name None).
  { intros name. apply load_subject_known. intros latest Hk versions _ _. by apply (Hknown name). }
  split. { unfold subjects. rewrite Hnames. do 2 f_equal. apply list_omap_ext, Forall_Forall2_diag, Forall_forall.
    intros name _. by rewrite Hload. }
  unfold subjects. rewrite Hnames. eexists. split; [done|].
  assert (Hin : ∀ s, s ∈ omap (λ name, result_ok (load_subject cluster env name (known name))) names ↔
    ∃ name, name ∈ names ∧ load_subject cluster env name None = Ok s).
  { intros s. rewrite list_elem_of_omap. split; intros (name & Hn & Hl); exists name; split; try done.
    - rewrite Hload in Hl. by destruct (load_subject _ _ _ None); [injection Hl as ->|].
    - by rewrite Hload, Hl. }
  split_and!.
  - apply sort_by_sorted, (cmp_on_order ss_subject), _.
  - intros s. by rewrite elem_of_sort_by.
  - intros s. rewrite elem_of_sort_by, Hin. intros (name & Hn & Hl). by destruct (load_subject_ok _ _ _ _ Hl) as (-> & ?).
Qed.

#[local] Instance plain_schemreg : SchemregLib := {|
  is_not_found error := match error with Api code _ => (code =? 40401)%Z | OtherReg _ => false end;
  error_code error := match error with Api code _ => Some code | OtherReg _ => None end;
  reg_text error := match error with Api _ message => message | OtherReg _ => "failed" end;
  SUBJECT_SOFT_DELETED := 40404;
  VERSION_SOFT_DELETED := 40406;
  SUBJECT_COMPATIBILITY_NOT_CONFIGURED := 40408;
|}.

Lemma subjects_spec_witness :
  let known (name : string) := if String.eqb name "a" then Some {| ls_version := 3; ls_id := 7; ls_schema_type := Avro |} else None in
  subjects "k" (an_env a_wire_schema) known = subjects "k" (an_env a_wire_schema) (λ _, None) ∧
  is_Some (result_ok (subjects "k" (an_env a_wire_schema) known)).
Proof.
  intros known.
  destruct (subjects_spec "k" (an_env a_wire_schema) known ["a"; "b"]) as [H (l & E & _)]; [reflexivity| |].
  - intros name latest. unfold known. destruct (String.eqb_spec name "a") as [->|]; [|discriminate].
    intros [= <-]. reflexivity.
  - split; [exact H|]. rewrite E. by exists l.
Defined.
