(* ===== verification/Codec.v ===== *)
(** [src/kafka/registry/encode.rs], [src/kafka/registry/avro.rs] and
    [src/kafka/registry/protobuf.rs]: turning JSON into a framed payload of a registered
    schema, and a payload's body back into JSON. The Avro, JSON and Protobuf crates are
    parameters of the model; an error of theirs is the text it displays. *)

From Stdlib Require Import Ascii String.
From S2P Require Import Prelude Text Errors Payload Tables Registry.

Class CodecLib : Type := {
  (** [serde_json]: [from_str] into [IgnoredAny], [from_str] and [from_slice] into [Value]. *)
  json_accepts : string → result string ();
  json_from_str : string → result string json;
  json_from_slice : string → result string json;
  (** [schemreg]'s frames. *)
  encode_wire_format : Z → string → string;
  encode_protobuf_wire_format : Z → list Z → string → string;
  decode_protobuf_message_indexes : string → result string (list Z * nat);
  (** [apache_avro]. *)
  AvroSchema : Type;
  AvroValue : Type;
  AvroReader : Type;
  AvroResolved : Type;
  AvroWriter : Type;
  avro_parse_str_with_list : string → list string → result string (AvroSchema * list AvroSchema);
  avro_reader : AvroSchema → list AvroSchema → result string AvroReader;
  avro_read_value : AvroReader → string → result string AvroValue;
  avro_to_json : AvroValue → result string json;
  avro_of_json : json → result string AvroValue;
  avro_resolved : list AvroSchema → result string AvroResolved;
  avro_resolve_with_names : AvroValue → AvroSchema → AvroResolved → result string AvroValue;
  avro_writer : AvroSchema → AvroResolved → result string AvroWriter;
  avro_write : AvroWriter → AvroValue → result string string;
  (** [protox] and [prost_reflect]. [protox_compile open name] compiles the file [name] with
      all it imports, each Google's own or the text [open] gives it, and answers the messages
      of that file, when the pool has it. *)
  MessageDescriptor : Type;
  DynamicMessage : Type;
  JsonRest : Type;
  protox_compile : (string → option string) → string → result string (option (list MessageDescriptor));
  child_messages : MessageDescriptor → list MessageDescriptor;
  message_decode : MessageDescriptor → string → result string DynamicMessage;
  message_to_json : DynamicMessage → result string json;
  message_deserialize : MessageDescriptor → string → result string (DynamicMessage * JsonRest);
  deserializer_end : JsonRest → result string ();
  encode_to_vec : DynamicMessage → string;
}.

(** ** Escapes *)

Definition double_quote : ascii := "034".
Definition backslash : ascii := "\".

Definition known_escapes : list ascii :=
  list_ascii_of_string "abfnrtv?\'" ++ double_quote :: list_ascii_of_string "01234567xXuU".

(** Over bytes, as the characters it tells apart are ASCII. *)
Fixpoint drop_unknown_escapes (source : string) : string :=
  match source with
  | EmptyString => EmptyString
  | String c rest =>
      if Ascii.eqb c backslash
      then
        match rest with
        | EmptyString => EmptyString
        | String escaped rest =>
            if bool_decide (escaped ∈ known_escapes)
            then String backslash (String escaped (drop_unknown_escapes rest))
            else String escaped (drop_unknown_escapes rest)
        end
      else String c (drop_unknown_escapes rest)
  end.

Section codec.
Context `{!CodecLib}.

(** ** Avro *)

Record AvroCodec : Type := { ac_root : AvroSchema; ac_named : list AvroSchema; ac_reader : AvroReader }.

Definition avro_compile (schema : string) (dependencies : list (string * string)) : result string AvroCodec :=
  '(root, named) ← avro_parse_str_with_list schema dependencies.*2;
  reader ← avro_reader root (named ++ [root]);
  Ok {| ac_root := root; ac_named := named; ac_reader := reader |}.

Definition avro_decode (codec : AvroCodec) (body : string) : result string json :=
  value ← avro_read_value (ac_reader codec) body;
  avro_to_json value.

Definition avro (schema : string) (dependencies : list (string * string)) (text : string) : result string string :=
  tree ← json_from_str text;
  value ← avro_of_json tree;
  '(root, named) ← avro_parse_str_with_list schema dependencies.*2;
  resolved ← avro_resolved (named ++ [root]);
  datum ← avro_resolve_with_names value root resolved;
  writer ← avro_writer root resolved;
  avro_write writer datum.

(** ** Protobuf *)

Inductive ProtobufError : Set :=
  | Compile (message : string)
  | MissingRoot
  | EmptyIndexPath
  | IndexOutOfRange (index : Z) (scope : string)
  | Index_ (message : string)
  | Decode_ (message : string)
  | JsonError (message : string).

Definition ROOT_FILE : string := "schema.proto".

Definition ProtobufError_text (e : ProtobufError) : string :=
  match e with
  | Compile message | Index_ message | Decode_ message | JsonError message => message
  | MissingRoot => "compiled protobuf is missing " +:+ ROOT_FILE
  | EmptyIndexPath => "protobuf message index path is empty"
  | IndexOutOfRange index scope => "protobuf message index " +:+ print_Z index +:+ " is out of range in " +:+ scope
  end.

Record ProtobufCodec : Type := { pc_messages : option (list MessageDescriptor) }.

(** [MemoryResolver::open_file]: the text of a file it has. *)
Definition open_file (files : gmap string string) (name : string) : option string :=
  source ← files !! name; Some (drop_unknown_escapes source).

Definition resolver_files (schema : string) (references : list (string * string)) : gmap string string :=
  foldl (λ files reference, <[reference.1 := reference.2]> files) {[ ROOT_FILE := schema ]} references.

Definition protobuf_compile (schema : string) (references : list (string * string)) : result ProtobufError ProtobufCodec :=
  messages ← map_err Compile (protox_compile (open_file (resolver_files schema references)) ROOT_FILE);
  Ok {| pc_messages := messages |}.

Definition nth_message (messages : list MessageDescriptor) (index : Z) (scope : string)
    : result ProtobufError MessageDescriptor :=
  ok_or (messages !! Z.to_nat index) (IndexOutOfRange index scope).

Fixpoint nested_message (current : MessageDescriptor) (indexes : list Z) : result ProtobufError MessageDescriptor :=
  match indexes with
  | [] => Ok current
  | index :: indexes => current ← nth_message (child_messages current) index "nested message"; nested_message current indexes
  end.

Definition message_at (codec : ProtobufCodec) (indexes : list Z) : result ProtobufError MessageDescriptor :=
  match indexes with
  | [] => Err EmptyIndexPath
  | first :: indexes =>
      roots ← ok_or (pc_messages codec) MissingRoot;
      current ← nth_message roots first "file";
      nested_message current indexes
  end.

Definition decode_message (codec : ProtobufCodec) (indexes : list Z) (payload : string) : result ProtobufError json :=
  descriptor ← message_at codec indexes;
  message ← map_err Decode_ (message_decode descriptor payload);
  map_err JsonError (message_to_json message).

(** [&bytes[start..]] within bounds. *)
Definition bytes_from (start : nat) (bytes : string) : string :=
  substring start (String.length bytes - start) bytes.

Definition decode_framed (codec : ProtobufCodec) (payload : string) : result ProtobufError json :=
  '(indexes, consumed) ← map_err Index_ (decode_protobuf_message_indexes payload);
  decode_message codec indexes (bytes_from consumed payload).

Definition decode_raw (codec : ProtobufCodec) (payload : string) : result ProtobufError json :=
  decode_message codec [0%Z] payload.

Definition encode_first (codec : ProtobufCodec) (text : string) : result ProtobufError string :=
  descriptor ← message_at codec [0%Z];
  message ← map_err JsonError ('(message, rest) ← message_deserialize descriptor text;
                               _ ← deserializer_end rest; Ok message);
  Ok (encode_to_vec message).

Definition protobuf (schema : string) (dependencies : list (string * string)) (text : string) : result ProtobufError string :=
  codec ← protobuf_compile schema dependencies;
  encode_first codec text.

(** ** Encoding *)

Definition encode (registered : RegisteredSchema) (dependencies : list (string * string)) (text : string)
    : result KafkaError string :=
  let id := cast_unsigned (rs_id registered) in
  let framed :=
    match rs_schema_type registered with
    | Json => _ ← json_accepts text; Ok (encode_wire_format id text)
    | Avro => datum ← avro (rs_schema registered) dependencies text; Ok (encode_wire_format id datum)
    | Protobuf =>
        message ← map_err ProtobufError_text (protobuf (rs_schema registered) dependencies text);
        Ok (encode_protobuf_wire_format id [0%Z] message)
    end in
  map_err (Unencodable (rs_id registered)) framed.
End codec.

(** ** Lemmas *)

(** Every backslash starts an escape protox knows. *)
Fixpoint escapes_known (source : string) : bool :=
  match source with
  | EmptyString => true
  | String c rest =>
      if Ascii.eqb c backslash
      then
        match rest with
        | EmptyString => false
        | String escaped rest => bool_decide (escaped ∈ known_escapes) && escapes_known rest
        end
      else escapes_known rest
  end.

Lemma string_pair_ind (P : string → Prop) :
  P EmptyString → (∀ c, P (String c EmptyString)) →
  (∀ c d rest, P rest → P (String d rest) → P (String c (String d rest))) → ∀ s, P s.
Proof.
  intros H0 H1 H2 s. enough (P s ∧ ∀ c, P (String c s)) by naive_solver.
  induction s as [|c s [IH1 IH2]]; [by split|]. split; [apply IH2|]. intros c'. auto.
Qed.

(** What protox is given has only escapes it knows, is the source with nothing
    but backslashes dropped, and is the source itself when all of its escapes are known. *)
Theorem drop_unknown_escapes_spec (source : string) :
  escapes_known (drop_unknown_escapes source) = true ∧
  filter_chars (λ c, negb (Ascii.eqb c backslash)) (drop_unknown_escapes source) =
    filter_chars (λ c, negb (Ascii.eqb c backslash)) source ∧
  (drop_unknown_escapes source = source ↔ escapes_known source = true).
Proof.
  enough (escapes_known (drop_unknown_escapes source) = true ∧
    filter_chars (λ c, negb (Ascii.eqb c backslash)) (drop_unknown_escapes source) =
      filter_chars (λ c, negb (Ascii.eqb c backslash)) source ∧
    (escapes_known source = true → drop_unknown_escapes source = source)) as (H1 & H2 & H3).
  { split_and!; [done|done|]. split; [intros E; by rewrite <- E|done]. }
  induction source as [|c|c d rest IH1 IH2] using string_pair_ind; [done| |].
  - cbn. destruct (Ascii.eqb c backslash) eqn:E; cbn; rewrite ?E; done.
  - destruct (Ascii.eqb c backslash) eqn:Ec.
    + destruct IH1 as (A1 & A2 & A3).
      cbn [drop_unknown_escapes escapes_known filter_chars]. rewrite Ec. cbn [negb].
      case_bool_decide as Hd; cbn [andb].
      * cbn [escapes_known filter_chars]. rewrite bool_decide_true by done.
        change (Ascii.eqb backslash backslash) with true. cbn [negb andb]. rewrite A2.
        apply Ascii.eqb_eq in Ec as ->. split_and!; [done|done|]. intros H. by rewrite A3.
      * assert (Ed : Ascii.eqb d backslash = false).
        { apply Ascii.eqb_neq. intros ->. apply Hd. unfold known_escapes. set_solver. }
        cbn [escapes_known filter_chars]. rewrite Ed. cbn [negb]. rewrite A2. split_and!; done.
    + destruct IH2 as (A1 & A2 & A3).
      assert (E : drop_unknown_escapes (String c (String d rest)) = String c (drop_unknown_escapes (String d rest))).
      { cbn [drop_unknown_escapes]. by rewrite Ec. }
      assert (E2 : ∀ s, escapes_known (String c s) = escapes_known s) by (intros s; cbn; by rewrite Ec).
      rewrite E, !E2. split_and!; [done| |intros H; by rewrite A3].
      cbn [filter_chars]. rewrite Ec. cbn [negb]. by rewrite A2.
Qed.

(** A reference named like the root file takes its place: nothing of [schema] is compiled. *)
Lemma reference_shadows_root `{!CodecLib} (references : list (string * string)) (schema schema' : string) :
  ROOT_FILE ∈ references.*1 →
  protobuf_compile schema references = protobuf_compile schema' references.
Proof.
  intros Hin. unfold protobuf_compile. do 4 f_equal. unfold resolver_files.
  assert (Hgen : ∀ files files' : gmap string string, (∀ name, name ≠ ROOT_FILE → files !! name = files' !! name) →
    foldl (λ files (reference : string * string), <[reference.1 := reference.2]> files) files references =
    foldl (λ files (reference : string * string), <[reference.1 := reference.2]> files) files' references).
  { induction references as [|[name text] references IH]; [by apply elem_of_nil in Hin|].
    intros files files' Heq. cbn [foldl fst snd]. destruct (decide (name = ROOT_FILE)) as [->|Hne].
    - f_equal. apply map_eq. intros i. destruct (decide (i = ROOT_FILE)) as [->|Hi]; [by rewrite !lookup_insert_eq|].
      rewrite !lookup_insert_ne by congruence. by apply Heq.
    - apply IH; [apply elem_of_cons in Hin as [E|]; [by rewrite E in Hne|done]|]. intros i Hi.
      destruct (decide (i = name)) as [->|]; [by rewrite !lookup_insert_eq|].
      rewrite !lookup_insert_ne by congruence. by apply Heq. }
  apply Hgen. intros name Hn. by rewrite !lookup_singleton_ne by congruence.
Qed.
