(* ===== verification/Decode.v ===== *)
(** [src/kafka/registry/decode.rs]: which schema a payload is framed with, what is known of that
    schema, and the payload's tree. [schemreg], the codecs' crates and [moka]'s caches are
    parameters of the model. *)

From Stdlib Require Import String.
From S2P Require Import Prelude Text Errors Payload Pipeline Tables Registry Codec.

(** ** Caches *)

(** [moka]'s cache of schemas: a time to live in milliseconds, and the moment of each call. *)
Class CacheLib : Type := {
  Cache : Type → Type;
  cache_new : ∀ {V}, Z → option Z → Cache V;
  cache_get : ∀ {V}, Cache V → Z → SchemaKey → option V;
  cache_insert : ∀ {V}, Cache V → Z → SchemaKey → V → Cache V;
}.

(** What its documentation promises: an entry read was inserted, less than its time to live ago.
    An entry may be evicted whenever there is one. *)
Class CacheLaws `{!CacheLib} : Type := {
  cache_entry : ∀ {V}, Cache V → SchemaKey → V → Z → Prop;
  cache_ttl : ∀ {V}, Cache V → option Z;
  cache_entry_new : ∀ V capacity ttl key (value : V) moment, ¬ cache_entry (cache_new capacity ttl) key value moment;
  cache_ttl_new : ∀ V capacity ttl, cache_ttl (V := V) (cache_new capacity ttl) = ttl;
  cache_entry_insert : ∀ V (cache : Cache V) now key value key' value' moment,
    cache_entry (cache_insert cache now key value) key' value' moment →
    key' = key ∧ value' = value ∧ moment = now ∨ cache_entry cache key' value' moment;
  cache_ttl_insert : ∀ V (cache : Cache V) now key value, cache_ttl (cache_insert cache now key value) = cache_ttl cache;
  cache_get_entry : ∀ V (cache : Cache V) now key value, cache_get cache now key = Some value →
    ∃ moment, cache_entry cache key value moment ∧ ∀ ttl, cache_ttl cache = Some ttl → (now < moment + ttl)%Z;
}.

Definition MAX_CACHED_SCHEMAS : Z := 10000.
Definition FAILED_LOOKUP_TTL : Z := 5000.

(** ** Framing *)

Record Framing : Set := { fr_key : SchemaKey; fr_payload_start : nat; fr_has_wire_prefix : bool }.

Inductive DecodeError : Set := Missing (message : string) | Failed (message : string).

Section decode.
Context `{!PayloadLib, !SchemregLib, !CodecLib, !CacheLib}.

Definition framing_of (slot : PayloadSlot) : option Framing :=
  match decode_wire_prefix (slot_raw slot) with
  | Some (key, payload_start) =>
      Some {| fr_key := key; fr_payload_start := payload_start; fr_has_wire_prefix := true |}
  | None =>
      id ← slot_fallback_schema_id slot;
      if (0 <=? id)%Z
      then Some {| fr_key := KeyId id; fr_payload_start := 0; fr_has_wire_prefix := false |}
      else None
  end.

(** ** Resolved schemas *)

Inductive Resolved : Type :=
  | RAvro (codec : AvroCodec)
  | RJson
  | RProtobuf (codec : ProtobufCodec)
  | RMissing.

Definition resolved_compile (schema_type : SchemaType) (source : string) (dependencies : list (string * string))
    : result DecodeError Resolved :=
  match schema_type with
  | Avro => map_err Failed (codec ← avro_compile source dependencies; Ok (RAvro codec))
  | Json => Ok RJson
  | Protobuf =>
      map_err (λ error, Failed (ProtobufError_text error)) (codec ← protobuf_compile source dependencies; Ok (RProtobuf codec))
  end.

Definition resolved_decode (resolved : Resolved) (framing : Framing) (raw : string) : result DecodeError json :=
  let body := bytes_from (Nat.min (fr_payload_start framing) (String.length raw)) raw in
  match resolved with
  | RMissing => Err (Missing "schema id not found in registry")
  | RJson => map_err Failed (json_from_slice body)
  | RAvro codec => map_err Failed (avro_decode codec body)
  | RProtobuf codec =>
      map_err (λ error, Failed (ProtobufError_text error))
        (if fr_has_wire_prefix framing then decode_framed codec body else decode_raw codec body)
  end.

(** ** Lookups *)

Record PayloadDecoder : Type := {
  pd_codecs : Cache Resolved;
  pd_missing : Cache ();
  pd_failed : Cache DecodeError;
}.

Definition with_ttls (missing_ttl failed_ttl : Z) : PayloadDecoder := {|
  pd_codecs := cache_new MAX_CACHED_SCHEMAS None;
  pd_missing := cache_new MAX_CACHED_SCHEMAS (Some missing_ttl);
  pd_failed := cache_new MAX_CACHED_SCHEMAS (Some failed_ttl);
|}.

Definition decoder_new (missing_ttl : Z) : PayloadDecoder := with_ttls missing_ttl FAILED_LOOKUP_TTL.

(** One key's lookup: the moments it starts and ends, what the registry answers in between, and
    the waves its [dependencies] may take. *)
Record Lookup : Type := { lk_asked : Z; lk_answered : Z; lk_env : RegistryEnv; lk_fuel : nat }.

(** What the closure of [compiled] computes. *)
Definition compiled_from (at_ : Lookup) (schema_type : SchemaType) (schema : WireSchema)
    : option (result DecodeError Resolved) :=
  match dependencies (lk_env at_) (lk_fuel at_) (sc_references schema) with
  | None => None
  | Some (Err error) => Some (Err (Failed (reg_text error)))
  | Some (Ok dependencies) => Some (resolved_compile schema_type (sc_schema schema) dependencies)
  end.

(** [try_get_with]: the cached codec, or the computed one, cached unless it is an error. *)
Definition compiled_codec (at_ : Lookup) (decoder : PayloadDecoder) (key : SchemaKey) (schema_type : SchemaType)
    (schema : WireSchema) : option (result DecodeError Resolved * PayloadDecoder) :=
  match cache_get (pd_codecs decoder) (lk_asked at_) key with
  | Some codec => Some (Ok codec, decoder)
  | None =>
      match compiled_from at_ schema_type schema with
      | None => None
      | Some (Err error) => Some (Err error, decoder)
      | Some (Ok codec) =>
          Some (Ok codec, {| pd_codecs := cache_insert (pd_codecs decoder) (lk_answered at_) key codec;
                             pd_missing := pd_missing decoder; pd_failed := pd_failed decoder |})
      end
  end.

Definition lookup_schema (at_ : Lookup) (decoder : PayloadDecoder) (key : SchemaKey)
    : option (result DecodeError Resolved * PayloadDecoder) :=
  match rg_by_key (lk_env at_) key with
  | Err error =>
      if is_not_found error
      then Some (Ok RMissing, {| pd_codecs := pd_codecs decoder;
                                 pd_missing := cache_insert (pd_missing decoder) (lk_answered at_) key ();
                                 pd_failed := pd_failed decoder |})
      else Some (Err (Failed (reg_text error)), decoder)
  | Ok schema =>
      match schema_type_from (sc_schema_type schema) with
      | Err message => Some (Err (Failed message), decoder)
      | Ok Json => Some (Ok RJson, decoder)
      | Ok schema_type => compiled_codec at_ decoder key schema_type schema
      end
  end.

Definition resolved (at_ : Lookup) (decoder : PayloadDecoder) (key : SchemaKey)
    : option (result DecodeError Resolved * PayloadDecoder) :=
  match cache_get (pd_missing decoder) (lk_asked at_) key with
  | Some _ => Some (Ok RMissing, decoder)
  | None =>
      match cache_get (pd_failed decoder) (lk_asked at_) key with
      | Some error => Some (Err error, decoder)
      | None =>
          match lookup_schema at_ decoder key with
          | None => None
          | Some (Ok resolved, decoder) => Some (Ok resolved, decoder)
          | Some (Err error, decoder) =>
              Some (Err error, {| pd_codecs := pd_codecs decoder; pd_missing := pd_missing decoder;
                                  pd_failed := cache_insert (pd_failed decoder) (lk_answered at_) key error |})
          end
      end
  end.

(** Loads one after the other: those of a call in the order they end, and calls in turn. *)
Fixpoint run_loads (decoder : PayloadDecoder) (loads : list (SchemaKey * Lookup))
    : option (list (SchemaKey * result DecodeError Resolved) * PayloadDecoder) :=
  match loads with
  | [] => Some ([], decoder)
  | (key, at_) :: loads =>
      '(answer, decoder) ← resolved at_ decoder key;
      '(answers, decoder) ← run_loads decoder loads;
      Some ((key, answer) :: answers, decoder)
  end.

Definition slot_keys (slots : list PayloadSlot) : gset SchemaKey :=
  list_to_set (omap (λ slot, fr_key <$> framing_of slot) slots).

Definition loaded_schemas (answers : list (SchemaKey * result DecodeError Resolved)) : gmap SchemaKey Resolved :=
  list_to_map (omap (λ answer, (λ resolved, (answer.1, resolved)) <$> result_ok answer.2) answers).

Definition load_failures (answers : list (SchemaKey * result DecodeError Resolved)) : list (SchemaKey * DecodeError) :=
  omap (λ answer, match answer.2 with Ok _ => None | Err error => Some (answer.1, error) end) answers.

(** [arrive] is the order in which the loads end. *)
Definition resolve_slots (arrive : list SchemaKey → list SchemaKey) (at_ : SchemaKey → Lookup)
    (decoder : PayloadDecoder) (slots : list PayloadSlot)
    : option (gmap SchemaKey Resolved * list (SchemaKey * DecodeError) * PayloadDecoder) :=
  '(answers, decoder) ← run_loads decoder ((λ key, (key, at_ key)) <$> arrive (elements (slot_keys slots)));
  Some (loaded_schemas answers, load_failures answers, decoder).

(** ** Slots *)

Definition decode_slot (schemas : gmap SchemaKey Resolved) (slot : PayloadSlot)
    : PayloadSlot * option (SchemaKey * DecodeError) :=
  match framing_of slot with
  | None => (slot, None)
  | Some framing =>
      match schemas !! fr_key framing with
      | None => (slot, None)
      | Some resolved =>
          match resolved_decode resolved framing (slot_raw slot) with
          | Ok tree => ({| slot_raw := slot_raw slot; slot_fallback_schema_id := slot_fallback_schema_id slot;
                           slot_json := Some tree |}, None)
          | Err error => (slot, Some (fr_key framing, error))
          end
      end
  end.

Definition schemas_decode_slots (schemas : gmap SchemaKey Resolved) (slots : list PayloadSlot)
    : list PayloadSlot * list (SchemaKey * DecodeError) :=
  ((λ slot, (decode_slot schemas slot).1) <$> slots, omap (λ slot, (decode_slot schemas slot).2) slots).

(** ** Lemmas *)

Lemma decode_slot_kept schemas slot :
  slot_raw (decode_slot schemas slot).1 = slot_raw slot ∧
  slot_fallback_schema_id (decode_slot schemas slot).1 = slot_fallback_schema_id slot.
Proof. unfold decode_slot. repeat case_match; done. Qed.

Lemma framing_of_unframed slot :
  needs_decode (slot_raw slot) (slot_fallback_schema_id slot) = false → framing_of slot = None.
Proof.
  unfold needs_decode, framing_of. intros [Hw Hf]%orb_false_iff.
  apply bool_decide_eq_false in Hw, Hf.
  destruct (decode_wire_prefix (slot_raw slot)) as [[]|]; [by destruct Hw|].
  destruct (slot_fallback_schema_id slot); [by destruct Hf|done].
Qed.

(** The decoder is what the record pipeline takes it for. *)
Definition registry_codec (arrive : list SchemaKey → list SchemaKey) (at_ : SchemaKey → Lookup)
    (decoder : PayloadDecoder) : PayloadCodec.
Proof.
  refine {| decode_slots slots :=
    match resolve_slots arrive at_ decoder slots with
    | Some (schemas, _, _) => (schemas_decode_slots schemas slots).1
    | None => slots
    end |}.
  - intros slots. destruct (resolve_slots _ _ _ slots) as [[[schemas ?] ?]|]; [|done].
    cbn. rewrite <- list_fmap_compose. apply list_fmap_ext. intros i slot _. apply decode_slot_kept.
  - intros slots i slot Hi Hn. destruct (resolve_slots _ _ _ slots) as [[[schemas ?] ?]|]; [|done].
    cbn. rewrite list_lookup_fmap, Hi. cbn. unfold decode_slot. by rewrite framing_of_unframed.
Defined.

(** A lookup that nothing is remembered for. *)
Definition fresh_outcome (at_ : Lookup) (key : SchemaKey) : option (result DecodeError Resolved) :=
  match rg_by_key (lk_env at_) key with
  | Err error => Some (if is_not_found error then Ok RMissing else Err (Failed (reg_text error)))
  | Ok schema =>
      match schema_type_from (sc_schema_type schema) with
      | Err message => Some (Err (Failed message))
      | Ok Json => Some (Ok RJson)
      | Ok schema_type => compiled_from at_ schema_type schema
      end
  end.

Definition young_enough (missing_ttl : Z) (answer : result DecodeError Resolved) (at_ past : Lookup) : Prop :=
  match answer with
  | Ok RMissing => (lk_asked at_ < lk_answered past + missing_ttl)%Z
  | Err _ => (lk_asked at_ < lk_answered past + FAILED_LOOKUP_TTL)%Z
  | Ok _ => True
  end.

Context `{!CacheLaws}.

Record remembers (missing_ttl : Z) (past : list (SchemaKey * Lookup)) (decoder : PayloadDecoder) : Prop := {
  re_missing_ttl : cache_ttl (pd_missing decoder) = Some missing_ttl;
  re_failed_ttl : cache_ttl (pd_failed decoder) = Some FAILED_LOOKUP_TTL;
  re_missing : ∀ key value moment, cache_entry (pd_missing decoder) key value moment →
    ∃ at_, (key, at_) ∈ past ∧ moment = lk_answered at_ ∧ fresh_outcome at_ key = Some (Ok RMissing);
  re_failed : ∀ key error moment, cache_entry (pd_failed decoder) key error moment →
    ∃ at_, (key, at_) ∈ past ∧ moment = lk_answered at_ ∧ fresh_outcome at_ key = Some (Err error);
  re_codecs : ∀ key codec moment, cache_entry (pd_codecs decoder) key codec moment →
    codec ≠ RMissing ∧ ∃ at_, (key, at_) ∈ past ∧ fresh_outcome at_ key = Some (Ok codec);
}.

Lemma remembers_new missing_ttl : remembers missing_ttl [] (decoder_new missing_ttl).
Proof.
  split; cbn; try apply cache_ttl_new; intros ??? Hentry; by apply cache_entry_new in Hentry.
Qed.

Lemma remembers_more missing_ttl past key at_ decoder :
  remembers missing_ttl past decoder → remembers missing_ttl ((key, at_) :: past) decoder.
Proof.
  intros [A1 A2 A3 A4 A5]. split; [done|done| | |]; intros k v m He.
  - destruct (A3 _ _ _ He) as (l & ? & ?). exists l. split; [by right|done].
  - destruct (A4 _ _ _ He) as (l & ? & ?). exists l. split; [by right|done].
  - destruct (A5 _ _ _ He) as (Hne & l & ? & ?). split; [done|]. exists l. split; [by right|done].
Qed.

Section remember.
Context (missing_ttl : Z) (past : list (SchemaKey * Lookup)) (decoder : PayloadDecoder) (key : SchemaKey) (at_ : Lookup).
Context (Hpast : (key, at_) ∈ past) (Hr : remembers missing_ttl past decoder).

Lemma remembers_missing : fresh_outcome at_ key = Some (Ok RMissing) →
  remembers missing_ttl past {| pd_codecs := pd_codecs decoder;
    pd_missing := cache_insert (pd_missing decoder) (lk_answered at_) key (); pd_failed := pd_failed decoder |}.
Proof.
  intros Ho. destruct Hr as [A1 A2 A3 A4 A5]. split; cbn; [by rewrite cache_ttl_insert|done| |done|done].
  intros k v m [(-> & -> & ->)|He]%cache_entry_insert; eauto.
Qed.

Lemma remembers_failed error : fresh_outcome at_ key = Some (Err error) →
  remembers missing_ttl past {| pd_codecs := pd_codecs decoder; pd_missing := pd_missing decoder;
    pd_failed := cache_insert (pd_failed decoder) (lk_answered at_) key error |}.
Proof.
  intros Ho. destruct Hr as [A1 A2 A3 A4 A5]. split; cbn; [done|by rewrite cache_ttl_insert|done| |done].
  intros k v m [(-> & -> & ->)|He]%cache_entry_insert; eauto.
Qed.

Lemma remembers_codec codec : fresh_outcome at_ key = Some (Ok codec) → codec ≠ RMissing →
  remembers missing_ttl past {| pd_codecs := cache_insert (pd_codecs decoder) (lk_answered at_) key codec;
    pd_missing := pd_missing decoder; pd_failed := pd_failed decoder |}.
Proof.
  intros Ho Hne. destruct Hr as [A1 A2 A3 A4 A5]. split; cbn; [done|done|done|done|].
  intros k v m [(-> & -> & ->)|He]%cache_entry_insert; eauto.
Qed.
End remember.

Lemma compiled_from_not_missing at_ schema_type schema : compiled_from at_ schema_type schema ≠ Some (Ok RMissing).
Proof.
  unfold compiled_from, resolved_compile. destruct (dependencies _ _ _) as [[deps|]|]; [|done|done].
  destruct schema_type; [destruct (avro_compile _ _)| |destruct (protobuf_compile _ _)]; done.
Qed.

(** The answer is fresh, or was, not too long ago. *)
Definition answer_trusted (missing_ttl : Z) (past : list (SchemaKey * Lookup)) (key : SchemaKey) (at_ : Lookup)
    (answer : result DecodeError Resolved) : Prop :=
  fresh_outcome at_ key = Some answer ∨
  ∃ at', (key, at') ∈ past ∧ fresh_outcome at' key = Some answer ∧ young_enough missing_ttl answer at_ at'.

(** A lookup with what is remembered: its answer, before errors are remembered. *)
Lemma lookup_trusted missing_ttl past key at_ decoder :
  remembers missing_ttl past decoder → is_Some (fresh_outcome at_ key) →
  ∃ answer decoder', lookup_schema at_ decoder key = Some (answer, decoder') ∧
    remembers missing_ttl ((key, at_) :: past) decoder' ∧ answer_trusted missing_ttl past key at_ answer ∧
    (∀ error, answer = Err error → fresh_outcome at_ key = Some answer).
Proof.
  intros Hr Hfresh. pose proof (remembers_more missing_ttl past key at_ decoder Hr) as Hmore.
  assert (Hin : (key, at_) ∈ (key, at_) :: past) by left.
  unfold lookup_schema, answer_trusted.
  destruct (rg_by_key (lk_env at_) key) as [schema|error] eqn:Ek.
  2: { assert (Ho : fresh_outcome at_ key = Some (if is_not_found error then Ok RMissing else Err (Failed (reg_text error)))).
       { unfold fresh_outcome. by rewrite Ek. }
       destruct (is_not_found error); eexists _, _; (split; [done|]); [|by auto].
       split; [by apply remembers_missing|auto]. }
  destruct (schema_type_from (sc_schema_type schema)) as [schema_type|message] eqn:Et.
  2: { assert (Ho : fresh_outcome at_ key = Some (Err (Failed message))) by (unfold fresh_outcome; by rewrite Ek, Et).
       eexists _, _. split; [done|]. auto. }
  destruct (decide (schema_type = Json)) as [->|Hj].
  { assert (Ho : fresh_outcome at_ key = Some (Ok RJson)) by (unfold fresh_outcome; by rewrite Ek, Et).
    eexists _, _. split; [done|]. auto. }
  assert (Ho : fresh_outcome at_ key = compiled_from at_ schema_type schema).
  { unfold fresh_outcome. rewrite Ek, Et. by destruct schema_type. }
  assert (Hl : match schema_type with Json => Some (Ok RJson, decoder) | _ => compiled_codec at_ decoder key schema_type schema end
    = compiled_codec at_ decoder key schema_type schema) by (by destruct schema_type).
  rewrite Hl. unfold compiled_codec. destruct (cache_get (pd_codecs decoder) _ key) as [codec|] eqn:Ec.
  - apply cache_get_entry in Ec as (m & He & _). destruct (re_codecs _ _ _ Hr _ _ _ He) as (Hne & at' & Hp & Ho').
    eexists _, _. split; [done|]. split; [done|]. split; [|done]. right. exists at'. split_and!; [done|done|].
    unfold young_enough. by destruct codec.
  - rewrite Ho in *. destruct (compiled_from at_ schema_type schema) as [[codec|error]|] eqn:Ef.
    + eexists _, _. split; [done|]. split; [|split; [by left|done]].
      apply remembers_codec; [done|done|done|]. intros ->. by apply compiled_from_not_missing in Ef.
    + eexists _, _. split; [done|]. split; [done|]. split; [by left|congruence].
    + by destruct Hfresh.
Qed.

Lemma resolved_trusted missing_ttl past key at_ decoder :
  remembers missing_ttl past decoder → is_Some (fresh_outcome at_ key) →
  ∃ answer decoder', resolved at_ decoder key = Some (answer, decoder') ∧
    remembers missing_ttl ((key, at_) :: past) decoder' ∧ answer_trusted missing_ttl past key at_ answer.
Proof.
  intros Hr Hfresh. unfold resolved. pose proof (remembers_more missing_ttl past key at_ decoder Hr) as Hmore.
  destruct (cache_get (pd_missing decoder) _ key) as [v|] eqn:Em.
  { apply cache_get_entry in Em as (m & He & Hm). destruct (re_missing _ _ _ Hr _ _ _ He) as (l & ? & -> & ?).
    eexists _, _. split; [done|]. split; [done|]. right. exists l. split_and!; [done|done|].
    by apply Hm, (re_missing_ttl _ _ _ Hr). }
  destruct (cache_get (pd_failed decoder) _ key) as [e|] eqn:Ef.
  { apply cache_get_entry in Ef as (m & He & Hm). destruct (re_failed _ _ _ Hr _ _ _ He) as (l & ? & -> & ?).
    eexists _, _. split; [done|]. split; [done|]. right. exists l. split_and!; [done|done|].
    by apply Hm, (re_failed_ttl _ _ _ Hr). }
  destruct (lookup_trusted _ _ _ _ _ Hr Hfresh) as (answer & d & -> & Hd & Ht & Herr).
  destruct answer as [r|error]; [eauto 10|]. eexists _, _. split; [done|]. split; [|done].
  apply remembers_failed; [left|done|]. by apply (Herr error).
Qed.

Lemma trusted_mono missing_ttl past past' key at_ answer :
  past ⊆ past' → answer_trusted missing_ttl past key at_ answer → answer_trusted missing_ttl past' key at_ answer.
Proof. intros Hsub [?|(l & ? & ?)]; [by left|]. right. exists l. split; [by apply Hsub|done]. Qed.

Lemma load_trusted missing_ttl loads : ∀ past decoder,
  remembers missing_ttl past decoder →
  (∀ key at_, (key, at_) ∈ loads → is_Some (fresh_outcome at_ key)) →
  ∃ answers decoder', run_loads decoder loads = Some (answers, decoder') ∧
    answers.*1 = loads.*1 ∧
    ∀ i key at_, loads !! i = Some (key, at_) →
      ∃ answer, answers !! i = Some (key, answer) ∧ answer_trusted missing_ttl (past ++ take i loads) key at_ answer.
Proof.
  induction loads as [|[key at_] loads IH]; intros past decoder Hr Hfresh.
  { exists [], decoder. by split_and!. }
  destruct (resolved_trusted _ past key at_ decoder Hr) as (answer & d1 & E1 & Hr1 & Ht); [apply Hfresh; left|].
  destruct (IH _ _ Hr1) as (answers & d2 & E2 & Hkeys & Hall); [intros k l ?; apply Hfresh; by right|].
  exists ((key, answer) :: answers), d2. cbn [run_loads]. rewrite E1. cbn [mbind option_bind]. rewrite E2.
  split; [done|]. split; [cbn; by rewrite Hkeys|].
  intros [|i] k l Hi; cbn in Hi.
  - injection Hi as <- <-. exists answer. split; [done|]. by rewrite app_nil_r.
  - destruct (Hall i k l Hi) as (a & Ha & Ht'). exists a. split; [done|].
    eapply trusted_mono; [|exact Ht']. intros x. cbn [take]. rewrite !elem_of_app, !elem_of_cons. tauto.
Qed.
End decode.

Lemma load_keys `{!PayloadLib, !SchemregLib, !CodecLib, !CacheLib} loads : ∀ decoder answers decoder',
  run_loads decoder loads = Some (answers, decoder') → answers.*1 = loads.*1.
Proof.
  induction loads as [|[key at_] loads IH]; intros decoder answers decoder' E; cbn in E; [by injection E as <- _|].
  destruct (resolved at_ decoder key) as [[answer d1]|]; [|done]. cbn in E.
  destruct (run_loads d1 loads) as [[answers1 d2]|] eqn:El; [|done]. cbn in E. injection E as <- _.
  cbn. by rewrite (IH _ _ _ El).
Qed.

(** ** What the decoder promises *)

(** C19 (safety). Whatever was looked up before, and whatever its caches have evicted, a decoder
    answers every key, and with what a lookup of that key would find now, or did find at some time
    before: a compiled schema at any time (a codec is kept without a time to live), a schema
    that is missing less than the missing time to live ago, and a failure less than five seconds
    ago. *)
Theorem decoder_trusted `{!PayloadLib, !SchemregLib, !CodecLib, !CacheLib, !CacheLaws} (missing_ttl : Z)
    (loads : list (SchemaKey * Lookup)) :
  (∀ key at_, (key, at_) ∈ loads → is_Some (fresh_outcome at_ key)) →
  ∃ answers decoder, run_loads (decoder_new missing_ttl) loads = Some (answers, decoder) ∧
    answers.*1 = loads.*1 ∧
    ∀ i key at_, loads !! i = Some (key, at_) →
      ∃ answer, answers !! i = Some (key, answer) ∧
        (fresh_outcome at_ key = Some answer ∨
         ∃ j past, j < i ∧ loads !! j = Some (key, past) ∧ fresh_outcome past key = Some answer ∧
           match answer with
           | Ok RMissing => (lk_asked at_ < lk_answered past + missing_ttl)%Z
           | Err _ => (lk_asked at_ < lk_answered past + 5000)%Z
           | Ok _ => True
           end).
Proof.
  intros Hfresh. destruct (load_trusted missing_ttl loads _ _ (remembers_new missing_ttl) Hfresh) as (answers & d & E & Hk & Hall).
  exists answers, d. split; [done|]. split; [done|]. intros i key at_ Hi.
  destruct (Hall i key at_ Hi) as (answer & Ha & Ht). exists answer. split; [done|].
  destruct Ht as [Ht|(past & Hp & Ho & Hy)]; [by left|right].
  apply list_elem_of_lookup in Hp as [j Hj]. cbn [app] in Hj. apply lookup_take_Some in Hj as [Hj Hlt].
  exists j, past. by split_and!.
Qed.

Lemma loaded_schemas_lookup `{!CodecLib} (answers : list (SchemaKey * result DecodeError Resolved)) key answer :
  NoDup answers.*1 → (key, answer) ∈ answers →
  match answer with
  | Ok resolved => loaded_schemas answers !! key = Some resolved
  | Err error => loaded_schemas answers !! key = None ∧ (key, error) ∈ load_failures answers
  end.
Proof.
  intros Hnd Hin. unfold loaded_schemas, load_failures.
  set (f := λ answer : SchemaKey * result DecodeError Resolved, (λ resolved, (answer.1, resolved)) <$> result_ok answer.2).
  assert (Hf : ∀ k r, (k, r) ∈ omap f answers ↔ (k, Ok r) ∈ answers).
  { intros k r. rewrite list_elem_of_omap. unfold f. split.
    - intros ([k' [r'|e]] & Hin' & E); cbn in E; [|done]. by injection E as -> ->.
    - intros Hin'. by exists (k, Ok r). }
  assert (Hnd' : NoDup (omap f answers).*1).
  { clear Hin Hf. induction answers as [|[k [r|e]] answers IH]; cbn; [constructor| |].
    - apply NoDup_cons in Hnd as [Hk Hnd]. cbn. constructor; [|auto]. intros Hk'. apply Hk.
      apply list_elem_of_fmap in Hk' as ([k' r'] & -> & Hk'). apply list_elem_of_omap in Hk' as ([k2 [r2|]] & Hin & E); [|done].
      injection E as -> ->. apply list_elem_of_fmap. by exists (k', Ok r').
    - apply NoDup_cons in Hnd as [_ Hnd]. auto. }
  destruct answer as [r|e].
  - apply elem_of_list_to_map_1; [done|]. by apply Hf.
  - split; [|apply list_elem_of_omap; by exists (key, Err e)].
    apply not_elem_of_list_to_map_1. intros Hk. apply list_elem_of_fmap in Hk as ([k' r'] & -> & Hk). apply Hf in Hk.
    enough (Ok r' = Err e) by done.
    apply list_elem_of_lookup in Hin as [i Hi], Hk as [j Hj]. cbn in *.
    assert (i = j) as ->.
    { eapply NoDup_lookup; [exact Hnd| |]; rewrite list_lookup_fmap; [by rewrite Hi|by rewrite Hj]. }
    congruence.
Qed.

(** Of the slots of a call, each keeps its bytes; one that is not framed, and has
    no usable schema of its topic, is left alone; any other gets the tree its body decodes to under
    the schema that its key resolved to, or is left alone with the failure to resolve or to decode
    reported under its key. *)
Theorem decode_spec `{!PayloadLib, !SchemregLib, !CodecLib, !CacheLib} (arrive : list SchemaKey → list SchemaKey)
    (at_ : SchemaKey → Lookup) (decoder : PayloadDecoder) (slots : list PayloadSlot)
    (schemas : gmap SchemaKey Resolved) (failures : list (SchemaKey * DecodeError)) (decoder' : PayloadDecoder) :
  (∀ keys, arrive keys ≡ₚ keys) →
  resolve_slots arrive at_ decoder slots = Some (schemas, failures, decoder') →
  let '(slots', failures') := schemas_decode_slots schemas slots in
  slot_raw <$> slots' = slot_raw <$> slots ∧
  ∀ i slot, slots !! i = Some slot → ∃ slot', slots' !! i = Some slot' ∧
    match framing_of slot with
    | None => slot' = slot
    | Some framing =>
        (∃ resolved, schemas !! fr_key framing = Some resolved ∧
          match resolved_decode resolved framing (slot_raw slot) with
          | Ok tree => slot_json slot' = Some tree
          | Err error => slot' = slot ∧ (fr_key framing, error) ∈ failures'
          end) ∨
        (∃ error, slot' = slot ∧ (fr_key framing, error) ∈ failures)
    end.
Proof.
  intros Harrive E. unfold schemas_decode_slots. split.
  { rewrite <- list_fmap_compose. apply list_fmap_ext. intros i slot _. apply decode_slot_kept. }
  intros i slot Hi. exists (decode_slot schemas slot).1. split; [by rewrite list_lookup_fmap, Hi|].
  destruct (framing_of slot) as [framing|] eqn:Ef; [|unfold decode_slot; by rewrite Ef].
  assert (Hslot : slot ∈ slots) by (by eapply list_elem_of_lookup_2).
  unfold resolve_slots in E. destruct (run_loads decoder _) as [[answers d]|] eqn:El; [|done].
  injection E as <- <- <-. apply load_keys in El.
  rewrite <- list_fmap_compose in El. cbn [compose fst] in El. rewrite list_fmap_id in El.
  assert (Hnd : NoDup answers.*1) by (rewrite El, Harrive; apply NoDup_elements).
  assert (Hkey : fr_key framing ∈ answers.*1).
  { rewrite El, Harrive, elem_of_elements. unfold slot_keys. rewrite elem_of_list_to_set, list_elem_of_omap.
    exists slot. by rewrite Ef. }
  apply list_elem_of_fmap in Hkey as ([key answer] & Hk & Hin). cbn in Hk. subst key.
  pose proof (loaded_schemas_lookup _ _ _ Hnd Hin) as Hl.
  destruct answer as [resolved|error].
  - left. exists resolved. split; [done|].
    assert (Hfail : ∀ error, resolved_decode resolved framing (slot_raw slot) = Err error →
      decode_slot (loaded_schemas answers) slot = (slot, Some (fr_key framing, error))).
    { intros error Hd. unfold decode_slot. by rewrite Ef, Hl, Hd. }
    destruct (resolved_decode resolved framing (slot_raw slot)) as [tree|error] eqn:Hd.
    + unfold decode_slot. by rewrite Ef, Hl, Hd.
    + rewrite (Hfail error eq_refl). split; [done|]. apply list_elem_of_omap. exists slot. split; [done|].
      by rewrite (Hfail error eq_refl).
  - destruct Hl as [Hl Hf]. right. exists error. split; [|done]. unfold decode_slot. by rewrite Ef, Hl.
Qed.

(** ** Round trip *)

Lemma substring_0 n s : substring n 0 s = "".
Proof. revert n. induction s as [|c s IH]; intros [|n]; cbn; auto. Qed.

Lemma bytes_from_min n s : bytes_from (Nat.min n (String.length s)) s = bytes_from n s.
Proof.
  unfold bytes_from. destruct (Nat.le_ge_cases n (String.length s)).
  - by rewrite Nat.min_l.
  - rewrite Nat.min_r by done. rewrite Nat.sub_diag.
    replace (String.length s - n) with 0 by lia. by rewrite !substring_0.
Qed.

(** The tree a value typed as [text] is shown as: what its format reads it as, back in JSON. *)
Definition shown `{!CodecLib} (registered : RegisteredSchema) (dependencies : list (string * string)) (text : string)
    : result string json :=
  match rs_schema_type registered with
  | Json => json_from_slice text
  | Avro =>
      tree ← json_from_str text;
      value ← avro_of_json tree;
      '(root, named) ← avro_parse_str_with_list (rs_schema registered) dependencies.*2;
      resolved ← avro_resolved (named ++ [root]);
      datum ← avro_resolve_with_names value root resolved;
      avro_to_json datum
  | Protobuf =>
      map_err ProtobufError_text (
        codec ← protobuf_compile (rs_schema registered) dependencies;
        descriptor ← message_at codec [0%Z];
        '(message, _) ← map_err JsonError (message_deserialize descriptor text);
        map_err JsonError (message_to_json message))
  end.

(** What the crates promise of the frames of one schema id, and of the bytes of one value. *)
Record crates_agree `{!PayloadLib, !CodecLib} (id : Z) : Prop := {
  ca_frame : ∀ body, ∃ start,
    decode_wire_prefix (encode_wire_format id body) = Some (KeyId id, start) ∧
    bytes_from start (encode_wire_format id body) = body;
  ca_protobuf_frame : ∀ message, ∃ start consumed,
    decode_wire_prefix (encode_protobuf_wire_format id [0%Z] message) = Some (KeyId id, start) ∧
    decode_protobuf_message_indexes (bytes_from start (encode_protobuf_wire_format id [0%Z] message)) = Ok ([0%Z], consumed) ∧
    bytes_from consumed (bytes_from start (encode_protobuf_wire_format id [0%Z] message)) = message;
  ca_avro : ∀ root named resolved writer reader datum bytes,
    avro_resolved (named ++ [root]) = Ok resolved → avro_writer root resolved = Ok writer →
    avro_reader root (named ++ [root]) = Ok reader → avro_write writer datum = Ok bytes →
    avro_read_value reader bytes = Ok datum;
  ca_protobuf : ∀ descriptor text message rest,
    message_deserialize descriptor text = Ok (message, rest) → message_decode descriptor (encode_to_vec message) = Ok message;
}.

Section roundtrip.
Context `{!PayloadLib, !CodecLib} (registered : RegisteredSchema) (dependencies : list (string * string)) (text : string).
Let id := cast_unsigned (rs_id registered).
Context (agree : crates_agree id).

Lemma avro_roundtrip datum codec :
  avro (rs_schema registered) dependencies text = Ok datum →
  avro_compile (rs_schema registered) dependencies = Ok codec →
  rs_schema_type registered = Avro → avro_decode codec datum = shown registered dependencies text.
Proof.
  unfold avro, avro_compile, shown, avro_decode. intros Hw Hc ->.
  destruct (json_from_str text) as [tree|]; [|done]. cbn in *.
  destruct (avro_of_json tree) as [value|]; [|done]. cbn in *.
  destruct (avro_parse_str_with_list _ _) as [[root named]|]; [|done]. cbn in *.
  destruct (avro_resolved _) as [resolved|] eqn:Er; [|done]. cbn in *.
  destruct (avro_resolve_with_names _ _ _) as [value'|]; [|done]. cbn in *.
  destruct (avro_writer root resolved) as [writer|] eqn:Ew; [|done]. cbn in *.
  destruct (avro_reader _ _) as [reader|] eqn:Erd; [|done]. cbn in *. injection Hc as <-. cbn.
  by rewrite (ca_avro _ agree _ _ _ _ _ _ _ Er Ew Erd Hw).
Qed.

Lemma protobuf_roundtrip message codec :
  protobuf (rs_schema registered) dependencies text = Ok message →
  protobuf_compile (rs_schema registered) dependencies = Ok codec →
  rs_schema_type registered = Protobuf →
  map_err ProtobufError_text (decode_message codec [0%Z] message) = shown registered dependencies text.
Proof.
  unfold protobuf, shown. intros Hw Hc ->. rewrite Hc in *. cbn [mbind result_bind map_err] in *. unfold encode_first in Hw. unfold decode_message.
  destruct (message_at codec [0%Z]) as [descriptor|]; [|done]; cbn [mbind result_bind map_err] in *.
  destruct (message_deserialize descriptor text) as [[m rest]|] eqn:Ed; [|done]; cbn [mbind result_bind map_err] in *.
  destruct (deserializer_end rest); [|done]; cbn [mbind result_bind map_err] in *. injection Hw as <-.
  by rewrite (ca_protobuf _ agree _ _ _ _ Ed).
Qed.
End roundtrip.

Lemma map_err_ok {E F A} (f : E → F) (r : result E A) x : map_err f r = Ok x → r = Ok x.
Proof. destruct r; cbn; congruence. Qed.

(** C21 (roundtrip). A record value encoded under a registered schema, read back, is framed with
    that schema's id, and decodes under it to the tree its own format shows for the value. *)
Theorem encode_decode `{!PayloadLib, !CodecLib} (registered : RegisteredSchema) (dependencies : list (string * string))
    (text framed : string) (fallback : option Z) (resolved : Resolved) :
  crates_agree (cast_unsigned (rs_id registered)) →
  encode registered dependencies text = Ok framed →
  resolved_compile (rs_schema_type registered) (rs_schema registered) dependencies = Ok resolved →
  ∃ framing, framing_of (slot_new framed fallback) = Some framing ∧
    fr_key framing = KeyId (cast_unsigned (rs_id registered)) ∧ fr_has_wire_prefix framing = true ∧
    resolved_decode resolved framing framed = map_err Failed (shown registered dependencies text).
Proof.
  intros agree Henc Hcomp. apply map_err_ok in Henc. unfold framing_of, resolved_decode. cbn [slot_new slot_raw].
  destruct (rs_schema_type registered) eqn:Et; unfold resolved_compile in Hcomp.
  - destruct (avro _ dependencies text) as [datum|] eqn:Ew; [|done]. cbn in Henc. injection Henc as <-.
    apply map_err_ok in Hcomp. destruct (avro_compile _ _) as [codec|] eqn:Ec; [|done]. cbn in Hcomp. injection Hcomp as <-.
    destruct (ca_frame _ agree datum) as (start & Ep & Eb). rewrite Ep. eexists. split_and!; [done..|].
    cbn [fr_payload_start]. rewrite bytes_from_min, Eb. f_equal. by apply avro_roundtrip.
  - injection Hcomp as <-. destruct (json_accepts text); [|done]. cbn in Henc. injection Henc as <-.
    destruct (ca_frame _ agree text) as (start & Ep & Eb). rewrite Ep. eexists. split_and!; [done..|].
    cbn [fr_payload_start]. rewrite bytes_from_min, Eb. unfold shown. by rewrite Et.
  - destruct (protobuf _ dependencies text) as [message|] eqn:Ew; [|done]. cbn in Henc. injection Henc as <-.
    apply map_err_ok in Hcomp. destruct (protobuf_compile _ _) as [codec|] eqn:Ec; [|done]. cbn in Hcomp. injection Hcomp as <-.
    destruct (ca_protobuf_frame _ agree message) as (start & consumed & Ep & Ei & Eb). rewrite Ep. eexists. split_and!; [done..|].
    cbn [fr_payload_start fr_has_wire_prefix]. rewrite bytes_from_min. unfold decode_framed. rewrite Ei. cbn [mbind result_bind map_err].
    rewrite Eb, <- (protobuf_roundtrip registered dependencies text agree message codec) by done.
    by destruct (decode_message codec [0%Z] message).
Qed.

(** ** Examples *)

(** A cache that evicts nothing. *)
Definition plain_cache_lib : CacheLib := {|
  Cache V := (option Z * gmap SchemaKey (V * Z))%type;
  cache_new V _ ttl := (ttl, ∅);
  cache_get V cache now key :=
    '(value, moment) ← cache.2 !! key;
    if match cache.1 with Some ttl => (now <? moment + ttl)%Z | None => true end then Some value else None;
  cache_insert V cache now key value := (cache.1, <[key := (value, now)]> cache.2);
|}.

Definition plain_cache_laws : @CacheLaws plain_cache_lib.
Proof.
  refine {|
    cache_entry V (cache : @Cache plain_cache_lib V) key value moment := cache.2 !! key = Some (value, moment);
    cache_ttl V (cache : @Cache plain_cache_lib V) := cache.1;
  |}.
  - intros V capacity ttl key value moment. cbn. by rewrite lookup_empty.
  - done.
  - intros V cache now key value key' value' moment. cbn. destruct (decide (key = key')) as [<-|Hne].
    + rewrite lookup_insert_eq. intros [= <- <-]. by left.
    + rewrite lookup_insert_ne by done. by right.
  - done.
  - intros V [ttl entries] now key value. cbn. destruct (entries !! key) as [[v m]|]; [|done]. cbn.
    destruct ttl as [ttl|]; [|intros [= ->]; exists m; by split].
    destruct (Z.ltb_spec now (m + ttl)) as [Hlt|]; [|done]. intros [= ->]. exists m. split; [done|].
    by intros ? [= ->].
Defined.

(** Every type is text; frames are those of [sample_payload_lib]. *)
Definition plain_codec_lib : CodecLib := {|
  json_accepts _ := Ok ();
  json_from_str text := Ok (JString text);
  json_from_slice text := Ok (JString text);
  encode_wire_format id body := String Ascii.zero (String (Ascii.ascii_of_N (Z.to_N id)) body);
  encode_protobuf_wire_format id _ message := String Ascii.zero (String (Ascii.ascii_of_N (Z.to_N id)) message);
  decode_protobuf_message_indexes _ := Ok ([0%Z], 0);
  AvroSchema := string;
  AvroValue := json;
  AvroReader := unit;
  AvroResolved := unit;
  AvroWriter := unit;
  avro_parse_str_with_list schema named := Ok (schema, named);
  avro_reader _ _ := Ok ();
  avro_read_value _ body := Ok (JString body);
  avro_to_json value := Ok value;
  avro_of_json tree := Ok tree;
  avro_resolved _ := Ok ();
  avro_resolve_with_names value _ _ := Ok value;
  avro_writer _ _ := Ok ();
  avro_write _ value := match value with JString text => Ok text | _ => Err "no text" end;
  MessageDescriptor := string;
  DynamicMessage := string;
  JsonRest := unit;
  protox_compile open name := Ok ((λ source, [source]) <$> open name);
  child_messages _ := [];
  message_decode _ message := Ok message;
  message_to_json message := Ok (JString message);
  message_deserialize _ text := Ok (text, ());
  deserializer_end _ := Ok ();
  encode_to_vec message := message;
|}.

#[local] Existing Instances sample_payload_lib plain_schemreg plain_cache_lib plain_cache_laws plain_codec_lib.

(** Not found at first, then a Protobuf schema. *)
Definition a_lookup (asked : Z) (answer : result SchemaRegError WireSchema) : Lookup := {|
  lk_asked := asked;
  lk_answered := asked + 10;
  lk_env := {|
    rg_subjects := Ok [];
    rg_versions := λ _, Ok [];
    rg_compatibility := λ _, Ok WireFull;
    rg_by_version := a_wire_schema;
    rg_by_version_uncached := a_wire_schema;
    rg_by_id := λ _, answer;
    rg_by_key := λ _, answer;
    rg_register := λ _, Ok ();
    rg_lookup := λ _, Ok None;
    rg_delete := λ _ _ _, Ok ();
    rg_set_compatibility := λ _ _, Ok ();
    rg_arrive := λ _ wave, wave;
  |};
  lk_fuel := 4;
|}.

Definition a_protobuf_schema : WireSchema := {|
  sc_id := Some 7%Z; sc_version := Some 1%Z; sc_schema_type := WireProtobuf; sc_schema := "message M {}"; sc_references := [];
|}.

Definition some_loads : list (SchemaKey * Lookup) := [
  (KeyId 7, a_lookup 0 (Err (Api 40401 "")));
  (KeyId 7, a_lookup 100 (Ok a_protobuf_schema));
  (KeyId 7, a_lookup 2000 (Ok a_protobuf_schema));
  (KeyId 7, a_lookup 3000 (Err (OtherReg 0)))
].

Definition a_codec : ProtobufCodec := {| pc_messages := Some ["message M {}"] |}.

(** The second load is answered by what is remembered of the first, the third is not. *)
Definition some_answers : list (SchemaKey * result DecodeError Resolved) := [
  (KeyId 7, Ok RMissing); (KeyId 7, Ok RMissing);
  (KeyId 7, Ok (RProtobuf a_codec)); (KeyId 7, Err (Failed "failed"))
].

Lemma decoder_trusted_witness :
  (∀ key at_, (key, at_) ∈ some_loads → is_Some (fresh_outcome at_ key)) ∧
  fst <$> run_loads (decoder_new 1000) some_loads = Some some_answers ∧ some_answers.*1 = some_loads.*1.
Proof.
  assert (Hf : ∀ key at_, (key, at_) ∈ some_loads → is_Some (fresh_outcome at_ key)).
  { intros key at_ Hin. unfold some_loads in Hin. rewrite !elem_of_cons, elem_of_nil in Hin.
    destruct Hin as [[= -> ->]|[[= -> ->]|[[= -> ->]|[[= -> ->]|[]]]]]; eexists; vm_compute; reflexivity. }
  assert (E' : fst <$> run_loads (decoder_new 1000) some_loads = Some some_answers) by (vm_compute; reflexivity).
  split; [exact Hf|]. split; [exact E'|].
  destruct (decoder_trusted 1000 some_loads Hf) as (answers & d & E & Hk & _).
  rewrite E in E'. cbn [fmap option_fmap option_map fst] in E'. assert (answers = some_answers) as <- by congruence. exact Hk.
Defined.

Definition some_slots : list PayloadSlot := [slot_new "plain" None; slot_new "body" (Some 7%Z)].

Lemma decode_spec_witness :
  ∃ schemas failures decoder',
    resolve_slots id (λ _, a_lookup 0 (Ok a_protobuf_schema)) (decoder_new 1000) some_slots = Some (schemas, failures, decoder') ∧
    slot_raw <$> (schemas_decode_slots schemas some_slots).1 = slot_raw <$> some_slots ∧
    slot_json <$> (schemas_decode_slots schemas some_slots).1 = [None; Some (JString "body")].
Proof.
  assert (E' : (λ r, slot_json <$> (schemas_decode_slots r.1.1 some_slots).1) <$>
    resolve_slots id (λ _, a_lookup 0 (Ok a_protobuf_schema)) (decoder_new 1000) some_slots =
    Some [None; Some (JString "body")]) by (vm_compute; reflexivity).
  destruct (resolve_slots _ _ _ _) as [[[schemas failures] d]|] eqn:E; [|discriminate E'].
  exists schemas, failures, d. split; [reflexivity|].
  cbn [fmap option_fmap option_map fst] in E'. split; [|congruence].
  refine (proj1 (decode_spec id _ _ some_slots _ _ _ _ E)). reflexivity.
Defined.

Definition a_registered : RegisteredSchema :=
  {| rs_id := 7; rs_schema_type := Protobuf; rs_schema := "message M {}"; rs_references := [] |}.

Lemma bytes_from_0 s : bytes_from 0 s = s.
Proof. unfold bytes_from. rewrite Nat.sub_0_r. induction s as [|c s IH]; cbn; congruence. Qed.

Lemma encode_decode_witness :
  crates_agree (cast_unsigned 7) ∧
  ∃ framed framing, encode a_registered [] "value" = Ok framed ∧
    framing_of (slot_new framed None) = Some framing ∧ fr_key framing = KeyId 7 ∧
    resolved_decode (RProtobuf a_codec) framing framed = Ok (JString "value").
Proof.
  assert (agree : crates_agree (cast_unsigned 7)).
  { split.
    - intros body. exists 2. split; [reflexivity|apply bytes_from_0].
    - intros message. exists 2, 0. split; [reflexivity|]. split; [reflexivity|].
      rewrite bytes_from_0. apply bytes_from_0.
    - intros root named resolved writer reader datum bytes _ _ _ Hw.
      cbn in Hw. destruct datum; try discriminate. by injection Hw as ->.
    - intros descriptor text message rest [= <- <-]. reflexivity. }
  split; [exact agree|].
  destruct (encode_decode a_registered [] "value" (encode_protobuf_wire_format 7 [0%Z] "value") None
    (RProtobuf a_codec) agree) as (framing & H1 & H2 & _ & H4); [vm_compute; reflexivity..|].
  exists (encode_protobuf_wire_format 7 [0%Z] "value"), framing.
  split; [vm_compute; reflexivity|]. split; [exact H1|]. split; [exact H2|]. rewrite H4. vm_compute. reflexivity.
Defined.
