(* ===== verification/Pool.v ===== *)
(** [src/kafka/client/pool.rs], and the lease of [src/kafka/client/scan.rs]: the consumers that
    read a topic, parked between pages so that the next page finds one at its place. krafka's
    consumer is a parameter: its identity, and what its calls answer. *)

From S2P Require Import Prelude Text Errors Plan.

(** ** The parked consumers *)

Section pool.
Context {Consumer : Type} `{!EqDecision Consumer}.

Record Parked : Type := { pk_topic : string; pk_consumer : Consumer; pk_since : Z }.

Record ScanPoolInner : Type := {
  pi_parked : list Parked;
  pi_max_per_topic : Z;
  pi_max_total : Z;
  pi_ttl : Z;
}.

Definition inner_new (pool_per_topic pool_total pool_idle_ttl : Z) : ScanPoolInner :=
  {| pi_parked := []; pi_max_per_topic := pool_per_topic; pi_max_total := pool_total; pi_ttl := pool_idle_ttl |}.

Definition with_parked (inner : ScanPoolInner) (parked : list Parked) : ScanPoolInner :=
  {| pi_parked := parked; pi_max_per_topic := pi_max_per_topic inner;
     pi_max_total := pi_max_total inner; pi_ttl := pi_ttl inner |}.

(** [now.saturating_duration_since(parked.since) > self.ttl]. *)
Definition expired (ttl now : Z) (parked : Parked) : bool := (ttl <? Z.max 0 (now - pk_since parked))%Z.

Fixpoint pop_expired (ttl now : Z) (parked : list Parked) : list Parked * list Consumer :=
  match parked with
  | [] => ([], [])
  | first :: rest =>
      if expired ttl now first
      then let '(kept, evicted) := pop_expired ttl now rest in (kept, pk_consumer first :: evicted)
      else (parked, [])
  end.

Definition expire (now : Z) (inner : ScanPoolInner) : ScanPoolInner * list Consumer :=
  let '(kept, evicted) := pop_expired (pi_ttl inner) now (pi_parked inner) in
  (with_parked inner kept, evicted).

Fixpoint rposition (topic : string) (parked : list Parked) : option nat :=
  match parked with
  | [] => None
  | first :: rest =>
      match rposition topic rest with
      | Some index => Some (S index)
      | None => if String.eqb (pk_topic first) topic then Some 0 else None
      end
  end.

Definition remove_newest (topic : string) (inner : ScanPoolInner) : option (Parked * ScanPoolInner) :=
  index ← rposition topic (pi_parked inner);
  parked ← pi_parked inner !! index;
  Some (parked, with_parked inner (delete index (pi_parked inner))).

(** The loop of [take]: a turn removes a parked consumer, so there are at most as many. *)
Fixpoint take_open (closed : Consumer → bool) (turns : nat) (topic : string) (inner : ScanPoolInner)
    (evicted : list Consumer) : option Consumer * ScanPoolInner * list Consumer :=
  match turns with
  | O => (None, inner, evicted)
  | S turns =>
      match remove_newest topic inner with
      | None => (None, inner, evicted)
      | Some (candidate, inner) =>
          if closed (pk_consumer candidate)
          then take_open closed turns topic inner (evicted ++ [pk_consumer candidate])
          else (Some (pk_consumer candidate), inner, evicted)
      end
  end.

Definition take (closed : Consumer → bool) (now : Z) (topic : string) (inner : ScanPoolInner)
    : option Consumer * ScanPoolInner * list Consumer :=
  let '(inner, evicted) := expire now inner in
  take_open closed (S (length (pi_parked inner))) topic inner evicted.

Definition of_topic (topic : string) (parked : list Parked) : list Parked :=
  List.filter (λ p, String.eqb (pk_topic p) topic) parked.

(** [now] and [since] are the two readings of the clock. *)
Definition park (now since : Z) (topic : string) (consumer : Consumer) (inner : ScanPoolInner)
    : ScanPoolInner * list Consumer :=
  let '(inner, evicted) := expire now inner in
  let same_topic := len (of_topic topic (pi_parked inner)) in
  if (pi_max_total inner <=? len (pi_parked inner))%Z || (pi_max_per_topic inner <=? same_topic)%Z
  then (inner, evicted ++ [consumer])
  else (with_parked inner (pi_parked inner ++ [{| pk_topic := topic; pk_consumer := consumer; pk_since := since |}]), evicted).

(** ** Leases *)

Record ScanLease : Type := { sl_topic : string; sl_consumer : Consumer; sl_reusable : bool; sl_released : bool }.

Definition lease_new (topic : string) (consumer : Consumer) : ScanLease :=
  {| sl_topic := topic; sl_consumer := consumer; sl_reusable := true; sl_released := false |}.

(** What became of a call on the consumer; an error poisons its lease. *)
Definition poison {E A} (result : result E A) (lease : ScanLease) : ScanLease :=
  match result with
  | Ok _ => lease
  | Err _ => {| sl_topic := sl_topic lease; sl_consumer := sl_consumer lease;
                sl_reusable := false; sl_released := sl_released lease |}
  end.

(** ** The pool *)

(** Besides the queue: the leases so far, the consumers that acquisitions hold between taking or
    building and leasing them, and the consumers told to close. *)
Record ScanPool : Type := {
  po_inner : ScanPoolInner;
  po_leases : list ScanLease;
  po_acquiring : list (string * Consumer);
  po_retired : list Consumer;
}.

Definition pool_new (pool_per_topic pool_total pool_idle_ttl : Z) : ScanPool :=
  {| po_inner := inner_new pool_per_topic pool_total pool_idle_ttl; po_leases := []; po_acquiring := []; po_retired := [] |}.

(** [with_idle]: what [op] evicts is retired. *)
Definition with_idle (pool : ScanPool) (result : ScanPoolInner * list Consumer) : ScanPool :=
  {| po_inner := result.1; po_leases := po_leases pool; po_acquiring := po_acquiring pool;
     po_retired := po_retired pool ++ result.2 |}.

Definition retire (pool : ScanPool) (consumer : Consumer) : ScanPool :=
  {| po_inner := po_inner pool; po_leases := po_leases pool; po_acquiring := po_acquiring pool;
     po_retired := po_retired pool ++ [consumer] |}.

(** The first half of [acquire]: a parked consumer, or [None] when one is to be built. *)
Definition acquire_taken (closed : Consumer → bool) (now : Z) (topic : string) (pool : ScanPool)
    : option Consumer * ScanPool :=
  let '(taken, inner, evicted) := take closed now topic (po_inner pool) in
  let pool := with_idle pool (inner, evicted) in
  (taken, {| po_inner := po_inner pool; po_leases := po_leases pool;
             po_acquiring := po_acquiring pool ++ ((λ consumer, (topic, consumer)) <$> option_list taken);
             po_retired := po_retired pool |}).

(** A consumer was built for an acquisition. *)
Definition acquire_built (topic : string) (consumer : Consumer) (pool : ScanPool) : ScanPool :=
  {| po_inner := po_inner pool; po_leases := po_leases pool;
     po_acquiring := po_acquiring pool ++ [(topic, consumer)]; po_retired := po_retired pool |}.

Definition acquire_dropped (index : nat) (pool : ScanPool) : ScanPool :=
  {| po_inner := po_inner pool; po_leases := po_leases pool;
     po_acquiring := delete index (po_acquiring pool); po_retired := po_retired pool |}.

(** The last half: the consumer is leased, or retired when it could not be assigned. *)
Definition acquire_assigned {E} (index : nat) (assigned : result E ()) (pool : ScanPool) : ScanPool :=
  match po_acquiring pool !! index with
  | None => pool
  | Some (topic, consumer) =>
      let pool := acquire_dropped index pool in
      match assigned with
      | Err _ => retire pool consumer
      | Ok _ => {| po_inner := po_inner pool; po_leases := po_leases pool ++ [lease_new topic consumer];
                   po_acquiring := po_acquiring pool; po_retired := po_retired pool |}
      end
  end.

(** A call of a lease's on its consumer ended. *)
Definition lease_called {E A} (id : nat) (result : result E A) (pool : ScanPool) : ScanPool :=
  {| po_inner := po_inner pool; po_leases := alter (poison result) id (po_leases pool);
     po_acquiring := po_acquiring pool; po_retired := po_retired pool |}.

(** [ScanPool::release]. *)
Definition pool_release (now since : Z) (topic : string) (consumer : Consumer) (reusable : bool) (pool : ScanPool) : ScanPool :=
  if reusable then with_idle pool (park now since topic consumer (po_inner pool)) else retire pool consumer.

(** [ScanLease::release], which [close] and [drop] call: only the first call does anything. *)
Definition lease_release (now since : Z) (id : nat) (pool : ScanPool) : ScanPool :=
  match po_leases pool !! id with
  | None => pool
  | Some lease =>
      if sl_released lease then pool
      else
        let released := {| sl_topic := sl_topic lease; sl_consumer := sl_consumer lease;
                           sl_reusable := sl_reusable lease; sl_released := true |} in
        pool_release now since (sl_topic lease) (sl_consumer lease) (sl_reusable lease)
          {| po_inner := po_inner pool; po_leases := <[id := released]> (po_leases pool);
             po_acquiring := po_acquiring pool; po_retired := po_retired pool |}
  end.

(** The pool's task, once per time to live. *)
Definition pool_tick (now : Z) (pool : ScanPool) : ScanPool := with_idle pool (expire now (po_inner pool)).

(** ** Assigning *)

(** What a consumer answers, and the calls it is asked. *)
Record ConsumerAnswers : Type := {
  ka_assign : list Z → result KrafkaError ();
  ka_position : Z → option Z;
  ka_seek : Z → Z → result KrafkaError ();
}.

Inductive ConsumerCall : Set :=
  | CallAssign (partitions : list Z) | CallResume (partitions : list Z) | CallSeek (partition offset : Z).

Fixpoint seek_starts (answers : ConsumerAnswers) (windows : list PartitionWindow) : result KafkaError () * list ConsumerCall :=
  match windows with
  | [] => (Ok (), [])
  | window :: windows =>
      if bool_decide (ka_position answers (pw_partition window) = Some (pw_start window)) then seek_starts answers windows
      else
        let call := CallSeek (pw_partition window) (pw_start window) in
        match ka_seek answers (pw_partition window) (pw_start window) with
        | Err error => (Err (Krafka error), [call])
        | Ok _ => let '(result, calls) := seek_starts answers windows in (result, call :: calls)
        end
  end.

Definition assign (answers : ConsumerAnswers) (windows : list PartitionWindow) : result KafkaError () * list ConsumerCall :=
  let partitions := pw_partition <$> windows in
  match ka_assign answers partitions with
  | Err error => (Err (Krafka error), [CallAssign partitions])
  | Ok _ =>
      let '(result, calls) := seek_starts answers windows in
      (result, CallAssign partitions :: CallResume partitions :: calls)
  end.
End pool.
Arguments Parked : clear implicits.
Arguments ScanPoolInner : clear implicits.
Arguments ScanLease : clear implicits.
Arguments ScanPool : clear implicits.

(** ** Lemmas *)

Section lemmas.
Context {Consumer : Type} `{!EqDecision Consumer}.
Implicit Types (parked : list (Parked Consumer)) (inner : ScanPoolInner Consumer) (pool : ScanPool Consumer).

(** A queue in the order its consumers were parked. *)
Definition in_order parked : Prop := StronglySorted (λ a b, (pk_since a ≤ pk_since b)%Z) parked.

Definition fresh_only (ttl now : Z) parked : list (Parked Consumer) := List.filter (λ p, negb (expired ttl now p)) parked.

Definition expired_only (ttl now : Z) parked : list (Parked Consumer) := List.filter (expired ttl now) parked.

Lemma expired_mono ttl now (a b : Parked Consumer) :
  (pk_since a ≤ pk_since b)%Z → expired ttl now a = false → expired ttl now b = false.
Proof. unfold expired. rewrite !Z.ltb_ge. lia. Qed.

(** In such a queue, popping from the front finds every consumer that expired. *)
Lemma pop_expired_filter ttl now parked : in_order parked →
  pop_expired ttl now parked = (fresh_only ttl now parked, pk_consumer <$> expired_only ttl now parked).
Proof.
  induction 1 as [|p parked Hs IH Hp]; [done|]. unfold fresh_only, expired_only in *. cbn. destruct (expired ttl now p) eqn:E; cbn.
  - by rewrite IH.
  - assert (Hall : ∀ q, q ∈ parked → expired ttl now q = false).
    { intros q Hq. rewrite Forall_forall in Hp. eapply expired_mono; eauto. }
    clear IH Hs Hp. assert (H1 : List.filter (λ p, negb (expired ttl now p)) parked = parked ∧ List.filter (expired ttl now) parked = []).
    { induction parked as [|q parked IH]; [done|]. cbn. rewrite (Hall q) by left. cbn.
      destruct IH as [-> ->]; [intros; apply Hall; by right|done]. }
    by destruct H1 as [-> ->].
Qed.

Lemma filter_perm {A} (f : A → bool) (l : list A) : List.filter (λ x, negb (f x)) l ++ List.filter f l ≡ₚ l.
Proof.
  induction l as [|x l IH]; [done|]. cbn. destruct (f x); cbn; [|by rewrite IH].
  by rewrite <- Permutation_middle, IH.
Qed.

Lemma in_order_app parked since : in_order parked → (∀ p, p ∈ parked → (pk_since p ≤ since)%Z) →
  ∀ p, pk_since p = since → in_order (parked ++ [p]).
Proof.
  intros Hs Hle p <-. induction Hs as [|q parked Hs IH Hq]; [by repeat constructor|].
  cbn. constructor; [apply IH; intros; apply Hle; by right|]. apply Forall_app. split; [done|].
  constructor; [|done]. apply Hle. left.
Qed.

Lemma in_order_sublist parked parked' : sublist parked parked' → in_order parked' → in_order parked.
Proof.
  intros Hsub Hs. revert parked Hsub. induction Hs as [|q parked' Hs IH Hq]; intros parked Hsub.
  - apply sublist_nil_r in Hsub as ->. constructor.
  - apply sublist_cons_r in Hsub as [Hsub|(l & -> & Hsub)]; [by apply IH|]. constructor; [by apply IH|].
    rewrite Forall_forall in Hq. apply Forall_forall. intros x Hx. apply Hq. eapply elem_of_sublist; eauto.
Qed.

Lemma list_filter_sublist {A} (f : A → bool) (l : list A) : sublist (List.filter f l) l.
Proof. induction l as [|x l IH]; cbn; [done|]. destruct (f x); by constructor. Qed.

Lemma rposition_spec topic parked :
  match rposition topic parked with
  | Some index => ∃ before p rest, parked = before ++ p :: rest ∧ length before = index ∧
      pk_topic p = topic ∧ of_topic topic rest = []
  | None => of_topic topic parked = []
  end.
Proof.
  induction parked as [|p parked IH]; [done|]. cbn. destruct (rposition topic parked) as [index|].
  - destruct IH as (before & q & rest & -> & <- & ? & ?). exists (p :: before), q, rest. done.
  - destruct (String.eqb_spec (pk_topic p) topic); [by exists [], p, parked|done].
Qed.

Lemma remove_newest_spec topic inner :
  match remove_newest topic inner with
  | Some (p, inner') => ∃ before rest, pi_parked inner = before ++ p :: rest ∧ pk_topic p = topic ∧
      of_topic topic rest = [] ∧ inner' = with_parked inner (before ++ rest)
  | None => of_topic topic (pi_parked inner) = []
  end.
Proof.
  unfold remove_newest. pose proof (rposition_spec topic (pi_parked inner)) as H.
  destruct (rposition topic (pi_parked inner)) as [index|]; [|done].
  destruct H as (before & p & rest & E & <- & Hp & Hr). cbn. rewrite E, list_lookup_middle by done. cbn.
  exists before, rest. by rewrite delete_middle.
Qed.

Lemma of_topic_app topic (a b : list (Parked Consumer)) : of_topic topic (a ++ b) = of_topic topic a ++ of_topic topic b.
Proof. apply List.filter_app. Qed.

Definition other_topics (topic : string) parked : list (Parked Consumer) :=
  List.filter (λ p, negb (String.eqb (pk_topic p) topic)) parked.

Lemma other_topics_app topic a b : other_topics topic (a ++ b) = other_topics topic a ++ other_topics topic b.
Proof. apply List.filter_app. Qed.

Lemma other_topics_id topic parked : of_topic topic parked = [] → other_topics topic parked = parked.
Proof.
  induction parked as [|p parked IH]; [done|]. unfold of_topic, other_topics in *. cbn.
  destruct (String.eqb _ _); [done|]. cbn. intros H. by rewrite IH.
Qed.

(** What [take] leaves of the consumers that are not expired: [None] when none of the topic's is
    open, and else the newest of the open ones, with the topic's later ones given up. *)
Definition taken_from (closed : Consumer → bool) (topic : string) (live : list (Parked Consumer))
    (taken : option Consumer) (left : list (Parked Consumer)) (given_up : list Consumer) : Prop :=
  match taken with
  | Some consumer => ∃ before p rest,
      live = before ++ p :: rest ∧ consumer = pk_consumer p ∧ pk_topic p = topic ∧ closed consumer = false ∧
      (∀ q, q ∈ of_topic topic rest → closed (pk_consumer q) = true) ∧
      left = before ++ other_topics topic rest ∧ given_up ≡ₚ pk_consumer <$> of_topic topic rest
  | None =>
      (∀ q, q ∈ of_topic topic live → closed (pk_consumer q) = true) ∧
      left = other_topics topic live ∧ given_up ≡ₚ pk_consumer <$> of_topic topic live
  end.

Lemma of_topic_middle topic (before : list (Parked Consumer)) p rest :
  pk_topic p = topic → of_topic topic rest = [] → of_topic topic (before ++ p :: rest) = of_topic topic before ++ [p].
Proof.
  intros Hp Hnone. rewrite of_topic_app. unfold of_topic at 2. cbn. rewrite Hp, String.eqb_refl.
  unfold of_topic in Hnone. by rewrite Hnone.
Qed.

Lemma other_topics_middle topic (before : list (Parked Consumer)) p rest :
  pk_topic p = topic → other_topics topic (before ++ p :: rest) = other_topics topic (before ++ rest).
Proof. intros Hp. rewrite !other_topics_app. unfold other_topics at 2. cbn. by rewrite Hp, String.eqb_refl. Qed.

(** A consumer taken from before the newest of its topic. *)
Lemma taken_before topic (before rest b r : list (Parked Consumer)) q :
  of_topic topic rest = [] → before ++ rest = b ++ q :: r → pk_topic q = topic →
  ∃ m, before = b ++ q :: m ∧ r = m ++ rest.
Proof.
  intros Hnone E Hq. apply app_eq_inv in E as [(k & Hk1 & Hk2)|(k & -> & Hk2)].
  - destruct k as [|x k].
    + cbn in Hk2. subst rest. unfold of_topic in Hnone. cbn in Hnone. by rewrite Hq, String.eqb_refl in Hnone.
    + injection Hk2 as -> ->. by exists k.
  - exfalso. rewrite Hk2, of_topic_app in Hnone. unfold of_topic in Hnone. cbn in Hnone.
    rewrite Hq, String.eqb_refl in Hnone. by apply app_eq_nil in Hnone as [_ ?].
Qed.

Lemma taken_from_more closed topic before p rest taken left given_up :
  pk_topic p = topic → of_topic topic rest = [] → closed (pk_consumer p) = true →
  taken_from closed topic (before ++ rest) taken left given_up →
  taken_from closed topic (before ++ p :: rest) taken left (pk_consumer p :: given_up).
Proof.
  intros Hp Hnone Hc Ht.
  assert (Hmore : ∀ m, (∀ x, x ∈ of_topic topic (m ++ rest) → closed (pk_consumer x) = true) →
    ∀ x, x ∈ of_topic topic (m ++ p :: rest) → closed (pk_consumer x) = true).
  { intros m Hall x. rewrite of_topic_middle by done. intros [Hx|Hx]%elem_of_app.
    - apply Hall. rewrite of_topic_app. set_solver.
    - by apply list_elem_of_singleton in Hx as ->. }
  assert (Hg : ∀ m g, g ≡ₚ pk_consumer <$> of_topic topic (m ++ rest) →
    pk_consumer p :: g ≡ₚ pk_consumer <$> of_topic topic (m ++ p :: rest)).
  { intros m g ->. rewrite of_topic_middle, of_topic_app, Hnone, app_nil_r, fmap_app by done. apply Permutation_cons_append. }
  destruct taken as [consumer|]; cbn in Ht |- *.
  - destruct Ht as (b & q & r & E & -> & Hq & Hcl & Hall & -> & Hgu).
    destruct (taken_before _ _ _ _ _ _ Hnone E Hq) as (m & -> & ->).
    exists b, q, (m ++ p :: rest). rewrite <- app_assoc. split_and!; try done; [by apply Hmore| |by apply Hg].
    by rewrite other_topics_middle.
  - destruct Ht as (Hall & -> & Hgu). split_and!; [by apply Hmore| |by apply Hg]. by rewrite other_topics_middle.
Qed.

Lemma take_open_spec closed turns : ∀ topic inner evicted taken inner' evicted',
  length (of_topic topic (pi_parked inner)) < turns →
  take_open closed turns topic inner evicted = (taken, inner', evicted') →
  ∃ given_up, evicted' = evicted ++ given_up ∧ inner' = with_parked inner (pi_parked inner') ∧
    taken_from closed topic (pi_parked inner) taken (pi_parked inner') given_up.
Proof.
  induction turns as [|turns IH]; intros topic inner evicted taken inner' evicted' Hlen E; [lia|]. cbn in E.
  pose proof (remove_newest_spec topic inner) as Hr. destruct (remove_newest topic inner) as [[p inner1]|].
  2: { injection E as <- <- <-. exists []. rewrite app_nil_r. split; [done|]. split; [by destruct inner|]. cbn.
       rewrite Hr. split; [set_solver|]. by rewrite other_topics_id. }
  destruct Hr as (before & rest & Hin & Hp & Hnone & ->). rewrite Hin in *.
  rewrite of_topic_middle, length_app in Hlen by done. cbn in Hlen.
  destruct (closed (pk_consumer p)) eqn:Ec.
  - apply IH in E as (given_up & -> & -> & Ht).
    2: { cbn [pi_parked with_parked]. rewrite of_topic_app, Hnone, app_nil_r. lia. }
    exists (pk_consumer p :: given_up). rewrite <- app_assoc. split; [done|]. split; [done|].
    by apply taken_from_more.
  - injection E as <- <- <-. exists []. rewrite app_nil_r. split; [done|]. split; [done|]. cbn.
    exists before, p, rest. rewrite Hnone. split_and!; try done; [set_solver|]. by rewrite other_topics_id.
Qed.
End lemmas.

(** ** What the pool keeps *)

Section invariant.
Context {Consumer : Type} `{!EqDecision Consumer} (per_topic total ttl : Z).
Implicit Types (parked : list (Parked Consumer)) (inner : ScanPoolInner Consumer) (pool : ScanPool Consumer).

Record queue_ok (clock : Z) parked : Prop := {
  qo_order : in_order parked;
  qo_clock : ∀ p, p ∈ parked → (pk_since p ≤ clock)%Z;
  qo_total : (len parked ≤ total)%Z;
  qo_topic : ∀ topic, (len (of_topic topic parked) ≤ per_topic)%Z;
}.

Lemma of_topic_sublist topic parked parked' :
  sublist parked parked' → (len (of_topic topic parked) ≤ len (of_topic topic parked'))%Z.
Proof.
  induction 1; unfold of_topic, len in *; cbn; [lia| |]; destruct (String.eqb _ _); cbn [length]; lia.
Qed.

Lemma queue_ok_sublist clock clock' parked parked' :
  sublist parked parked' → (clock ≤ clock')%Z → queue_ok clock parked' → queue_ok clock' parked.
Proof.
  intros Hsub Hclock [H1 H2 H3 H4]. split.
  - by eapply in_order_sublist.
  - intros p Hp. assert (Hp' : p ∈ parked') by (eapply elem_of_sublist; eauto). specialize (H2 p Hp'). lia.
  - apply sublist_length in Hsub. unfold len in *. lia.
  - intros topic. specialize (H4 topic). pose proof (of_topic_sublist topic _ _ Hsub). lia.
Qed.

Lemma pop_expired_kept ttl' now parked kept evicted :
  pop_expired ttl' now parked = (kept, evicted) →
  sublist kept parked ∧ (pk_consumer <$> kept) ++ evicted ≡ₚ pk_consumer <$> parked.
Proof.
  revert kept evicted. induction parked as [|p parked IH]; intros kept evicted E; cbn in E; [by injection E as <- <-|].
  destruct (expired ttl' now p); [|injection E as <- <-; by rewrite app_nil_r].
  destruct (pop_expired ttl' now parked) as [kept1 evicted1]. injection E as <- <-.
  destruct (IH _ _ eq_refl) as [H1 H2]. split; [by constructor|]. cbn. by rewrite <- Permutation_middle, H2.
Qed.

Lemma expire_kept now inner inner' evicted :
  expire now inner = (inner', evicted) →
  inner' = with_parked inner (pi_parked inner') ∧ sublist (pi_parked inner') (pi_parked inner) ∧
  (pk_consumer <$> pi_parked inner') ++ evicted ≡ₚ pk_consumer <$> pi_parked inner.
Proof.
  unfold expire. destruct (pop_expired _ now _) as [kept ev] eqn:E. intros [= <- <-].
  split; [done|]. by apply (pop_expired_kept _ _ _ _ _ E).
Qed.

Lemma take_open_kept closed turns : ∀ topic inner evicted taken inner' evicted',
  take_open closed turns topic inner evicted = (taken, inner', evicted') →
  inner' = with_parked inner (pi_parked inner') ∧ sublist (pi_parked inner') (pi_parked inner) ∧
  option_list taken ++ (pk_consumer <$> pi_parked inner') ++ evicted' ≡ₚ (pk_consumer <$> pi_parked inner) ++ evicted.
Proof.
  induction turns as [|turns IH]; intros topic inner evicted taken inner' evicted' E; cbn in E.
  { injection E as <- <- <-. by destruct inner. }
  pose proof (remove_newest_spec topic inner) as Hr. destruct (remove_newest topic inner) as [[p inner1]|].
  2: { injection E as <- <- <-. by destruct inner. }
  destruct Hr as (before & rest & Hin & _ & _ & ->). rewrite Hin.
  assert (Hsub : sublist (before ++ rest) (before ++ p :: rest)).
  { apply sublist_app; [done|]. by constructor. }
  destruct (closed (pk_consumer p)).
  - apply IH in E as (E & H1 & H2). cbn [pi_parked with_parked] in *. split; [done|]. split; [by etrans|].
    rewrite H2, !fmap_app. cbn. solve_Permutation.
  - injection E as <- <- <-. cbn [pi_parked with_parked]. split; [done|]. split; [done|].
    rewrite !fmap_app. cbn. solve_Permutation.
Qed.

Lemma take_kept closed now topic inner taken inner' evicted :
  take closed now topic inner = (taken, inner', evicted) →
  inner' = with_parked inner (pi_parked inner') ∧ sublist (pi_parked inner') (pi_parked inner) ∧
  option_list taken ++ (pk_consumer <$> pi_parked inner') ++ evicted ≡ₚ pk_consumer <$> pi_parked inner.
Proof.
  unfold take. destruct (expire now inner) as [inner1 ev] eqn:E1. intros E.
  apply expire_kept in E1 as (E1 & S1 & P1). apply take_open_kept in E as (E2 & S2 & P2).
  split; [rewrite E2, E1; done|]. split; [by etrans|]. by rewrite P2.
Qed.

Lemma park_kept now since clock topic consumer inner inner' evicted :
  pi_max_total inner = total → pi_max_per_topic inner = per_topic → queue_ok clock (pi_parked inner) →
  (clock ≤ since)%Z → park now since topic consumer inner = (inner', evicted) →
  inner' = with_parked inner (pi_parked inner') ∧ queue_ok since (pi_parked inner') ∧
  (pk_consumer <$> pi_parked inner') ++ evicted ≡ₚ consumer :: (pk_consumer <$> pi_parked inner).
Proof.
  intros Ht Hp Hq Hc. unfold park. destruct (expire now inner) as [inner1 ev] eqn:E1.
  apply expire_kept in E1 as (E1 & S1 & P1).
  pose proof (queue_ok_sublist _ _ _ _ S1 Hc Hq) as Hq1. rewrite E1. cbn [pi_max_total pi_max_per_topic with_parked pi_parked].
  rewrite Ht, Hp. destruct (Z.leb_spec total (len (pi_parked inner1))); [|destruct (Z.leb_spec per_topic (len (of_topic topic (pi_parked inner1))))];
    cbn [orb]; intros [= <- <-]; cbn [pi_parked with_parked].
  1,2: split; [done|]; split; [done|]; rewrite app_assoc, P1; by rewrite <- Permutation_cons_append.
  split; [done|]. destruct Hq1 as [Q1 Q2 Q3 Q4]. split.
  - split.
    + by apply (in_order_app _ since).
    + intros p [?|Hl]%elem_of_app; [auto|]. apply list_elem_of_singleton in Hl as ->. done.
    + unfold len in *. rewrite length_app. cbn. lia.
    + intros topic'. rewrite of_topic_app. unfold of_topic at 2. cbn. specialize (Q4 topic').
      destruct (String.eqb_spec topic topic') as [->|]; unfold len in *; rewrite length_app; cbn; lia.
  - rewrite fmap_app. cbn. rewrite <- P1. solve_Permutation.
Qed.
End invariant.

(** ** Reachable pools *)

Section reach.
Context {Consumer : Type} `{!EqDecision Consumer} (per_topic total ttl : Z).
Implicit Types (pool : ScanPool Consumer).

Definition active (leases : list (ScanLease Consumer)) : list (ScanLease Consumer) :=
  List.filter (λ lease, negb (sl_released lease)) leases.

(** Every consumer the pool has handed out or holds, once per place it is in. *)
Definition consumers pool : list Consumer :=
  (pk_consumer <$> pi_parked (po_inner pool)) ++ (po_acquiring pool).*2 ++ (sl_consumer <$> active (po_leases pool)) ++
  po_retired pool.

(** The consumer whose call a step ended with an error. *)
Definition failing {E A} (result : result E A) (consumer : option Consumer) : list Consumer :=
  match result with Ok _ => [] | Err _ => option_list consumer end.

(** The pools that requests in any interleaving lead to, with the clock and the consumers that
    have failed. Between taking and leasing, other requests run, and the acquisition may be
    dropped; a lease is called only until it is released. *)
Inductive reach : ScanPool Consumer → Z → list Consumer → Prop :=
  | reach_new clock : reach (pool_new per_topic total ttl) clock []
  | reach_taken pool clock failed closed now topic :
      reach pool clock failed → (clock ≤ now)%Z → reach (acquire_taken closed now topic pool).2 now failed
  | reach_built pool clock failed topic consumer :
      reach pool clock failed → consumer ∉ consumers pool → reach (acquire_built topic consumer pool) clock failed
  | reach_dropped pool clock failed index :
      reach pool clock failed → reach (acquire_dropped index pool) clock failed
  | reach_assigned pool clock failed index (assigned : result KafkaError ()) :
      reach pool clock failed →
      reach (acquire_assigned index assigned pool) clock (failing assigned (snd <$> po_acquiring pool !! index) ++ failed)
  | reach_called pool clock failed id lease {A} (result : result KafkaError A) :
      reach pool clock failed → po_leases pool !! id = Some lease → sl_released lease = false →
      reach (lease_called id result pool) clock (failing result (Some (sl_consumer lease)) ++ failed)
  | reach_released pool clock failed now since id :
      reach pool clock failed → (clock ≤ now)%Z → (now ≤ since)%Z → reach (lease_release now since id pool) since failed
  | reach_tick pool clock failed now :
      reach pool clock failed → (clock ≤ now)%Z → reach (pool_tick now pool) now failed.

Record pool_ok pool (clock : Z) (failed : list Consumer) : Prop := {
  ok_nodup : NoDup (consumers pool);
  ok_queue : queue_ok per_topic total clock (pi_parked (po_inner pool));
  ok_config : pi_max_per_topic (po_inner pool) = per_topic ∧ pi_max_total (po_inner pool) = total ∧ pi_ttl (po_inner pool) = ttl;
  ok_failed : ∀ consumer, consumer ∈ failed → consumer ∈ po_retired pool ∨
    ∃ lease, lease ∈ active (po_leases pool) ∧ sl_consumer lease = consumer ∧ sl_reusable lease = false;
}.

Lemma ok_new clock : (0 ≤ per_topic)%Z → (0 ≤ total)%Z → pool_ok (pool_new per_topic total ttl) clock [].
Proof.
  intros Hp Ht. split; cbn; [constructor| |done|set_solver].
  split; [constructor|set_solver|done|done].
Qed.

(** A step that moves consumers between the queue, the acquisitions and the retired. *)
Lemma ok_moved pool pool' clock clock' failed :
  pool_ok pool clock failed → consumers pool' ≡ₚ consumers pool →
  queue_ok per_topic total clock' (pi_parked (po_inner pool')) →
  po_inner pool' = with_parked (po_inner pool) (pi_parked (po_inner pool')) →
  po_leases pool' = po_leases pool → po_retired pool ⊆ po_retired pool' → pool_ok pool' clock' failed.
Proof.
  intros [H1 H2 H3 H4] Hc Hq Hi Hl Hr. split; [by rewrite Hc|done|by rewrite Hi|].
  intros c Hin. rewrite Hl. destruct (H4 c Hin); auto.
Qed.

Lemma ok_taken pool clock failed closed now topic :
  pool_ok pool clock failed → (clock ≤ now)%Z → pool_ok (acquire_taken closed now topic pool).2 now failed.
Proof.
  intros Hok Hc. unfold acquire_taken. destruct (take closed now topic (po_inner pool)) as [[taken inner] evicted] eqn:E.
  apply take_kept in E as (E & S & P). apply (ok_moved pool _ clock now); [done| | |done|done|].
  - unfold consumers. cbn. rewrite <- P, fmap_app. destruct taken; cbn; solve_Permutation.
  - eapply queue_ok_sublist; [exact S|done|apply Hok].
  - cbn. set_solver.
Qed.

Lemma ok_tick pool clock failed now :
  pool_ok pool clock failed → (clock ≤ now)%Z → pool_ok (pool_tick now pool) now failed.
Proof.
  intros Hok Hc. unfold pool_tick. destruct (expire now (po_inner pool)) as [inner evicted] eqn:E.
  apply expire_kept in E as (E & S & P). apply (ok_moved pool _ clock now); [done| | |done|done|].
  - unfold consumers. cbn. rewrite <- P. solve_Permutation.
  - eapply queue_ok_sublist; [exact S|done|apply Hok].
  - cbn. set_solver.
Qed.

Lemma ok_built pool clock failed topic consumer :
  pool_ok pool clock failed → consumer ∉ consumers pool → pool_ok (acquire_built topic consumer pool) clock failed.
Proof.
  intros [H1 H2 H3 H4] Hn. split; [|done|done|done].
  assert (P : consumers (acquire_built topic consumer pool) ≡ₚ consumer :: consumers pool).
  { unfold consumers. cbn. rewrite fmap_app. cbn. solve_Permutation. }
  rewrite P. by constructor.
Qed.

Lemma acquiring_delete pool index topic consumer :
  po_acquiring pool !! index = Some (topic, consumer) →
  consumers pool ≡ₚ consumer :: consumers (acquire_dropped index pool).
Proof.
  intros Hi. unfold consumers. cbn. pose proof (delete_Permutation _ _ _ Hi) as P.
  rewrite P at 1. cbn. solve_Permutation.
Qed.

Lemma ok_dropped pool clock failed index : pool_ok pool clock failed → pool_ok (acquire_dropped index pool) clock failed.
Proof.
  intros [H1 H2 H3 H4]. split; [|done|done|done].
  destruct (po_acquiring pool !! index) as [[topic consumer]|] eqn:Hi.
  - rewrite (acquiring_delete _ _ _ _ Hi) in H1. by apply NoDup_cons in H1 as [_ H1].
  - apply lookup_ge_None in Hi. unfold consumers in *. cbn.
    rewrite delete_take_drop, take_ge, drop_ge, app_nil_r by lia. exact H1.
Qed.

Lemma ok_assigned pool clock failed index (assigned : result KafkaError ()) :
  pool_ok pool clock failed →
  pool_ok (acquire_assigned index assigned pool) clock (failing assigned (snd <$> po_acquiring pool !! index) ++ failed).
Proof.
  intros Hok. unfold acquire_assigned. destruct (po_acquiring pool !! index) as [[topic consumer]|] eqn:Hi.
  2: { destruct assigned; exact Hok. }
  pose proof (acquiring_delete _ _ _ _ Hi) as P. pose proof (ok_nodup _ _ _ Hok) as Hnd. rewrite P in Hnd.
  destruct (ok_dropped _ _ _ index Hok) as [H1 H2 H3 H4]. destruct assigned as [[]|error]; cbn [failing].
  - split; [|done|done|].
    + assert (P' : consumers {| po_inner := po_inner (acquire_dropped index pool);
          po_leases := po_leases (acquire_dropped index pool) ++ [lease_new topic consumer];
          po_acquiring := po_acquiring (acquire_dropped index pool); po_retired := po_retired (acquire_dropped index pool) |}
        ≡ₚ consumer :: consumers (acquire_dropped index pool)).
      { unfold consumers, active. cbn. rewrite List.filter_app, fmap_app. cbn. solve_Permutation. }
      by rewrite P'.
    + intros c Hc. destruct (H4 c Hc) as [?|(l & ? & ?)]; [auto|]. right. exists l. split; [|done].
      unfold active. cbn. rewrite List.filter_app. set_solver.
  - split; [|done|done|].
    + assert (P' : consumers (retire (acquire_dropped index pool) consumer) ≡ₚ consumer :: consumers (acquire_dropped index pool)).
      { unfold consumers. cbn. solve_Permutation. }
      by rewrite P'.
    + cbn. intros c [->|Hc]%elem_of_cons; [left; set_solver|]. destruct (H4 c Hc) as [?|?]; [left; set_solver|auto].
Qed.

Lemma active_alter id f (leases : list (ScanLease Consumer)) lease :
  leases !! id = Some lease → sl_released lease = false → sl_released (f lease) = false →
  ∃ before rest, active leases = before ++ lease :: rest ∧ active (alter f id leases) = before ++ f lease :: rest.
Proof.
  intros Hi Hr Hf. pose proof (take_drop_middle _ _ _ Hi) as E. unfold active.
  assert (Hlen : length (list.take id leases) = id) by (apply length_take_le; apply lookup_lt_Some in Hi; lia).
  exists (active (list.take id leases)), (active (drop (S id) leases)).
  assert (Ea : alter f id leases = list.take id leases ++ f lease :: drop (S id) leases).
  { rewrite <- E at 1. rewrite alter_app_r_alt by lia. by replace (id - length (list.take id leases)) with 0 by lia. }
  rewrite Ea. rewrite <- E at 1. rewrite !List.filter_app. cbn. by rewrite Hr, Hf.
Qed.

Lemma active_release id (leases : list (ScanLease Consumer)) lease lease' :
  leases !! id = Some lease → sl_released lease = false → sl_released lease' = true →
  active leases ≡ₚ lease :: active (<[id := lease']> leases).
Proof.
  intros Hi Hr Hf. pose proof (take_drop_middle _ _ _ Hi) as E. unfold active.
  assert (Hlt : id < length leases) by (by apply lookup_lt_Some in Hi).
  rewrite insert_take_drop by done. rewrite <- E at 1. rewrite !List.filter_app. cbn. rewrite Hr, Hf. cbn. solve_Permutation.
Qed.

Lemma ok_called pool clock failed id lease {A} (result : result KafkaError A) :
  pool_ok pool clock failed → po_leases pool !! id = Some lease → sl_released lease = false →
  pool_ok (lease_called id result pool) clock (failing result (Some (sl_consumer lease)) ++ failed).
Proof.
  intros [H1 H2 H3 H4] Hi Hr.
  destruct (active_alter id (poison result) _ _ Hi Hr) as (before & rest & Ea & Ea'); [by destruct result|].
  split; [|done|done|].
  - unfold consumers in *. cbn [lease_called po_inner po_acquiring po_leases po_retired]. rewrite Ea'. rewrite Ea in H1. rewrite fmap_app, fmap_cons in *. by destruct result.
  - cbn [po_leases lease_called]. rewrite Ea'. intros c Hc. destruct result as [x|error]; cbn in Hc |- *.
    + rewrite <- Ea. auto.
    + apply elem_of_cons in Hc as [->|Hc].
      * right. exists (poison (A := A) (Err error) lease). split; [set_solver|done].
      * destruct (H4 c Hc) as [?|(l & Hl & Hlc & Hlr)]; [auto|]. right. rewrite Ea in Hl.
        apply elem_of_app in Hl as [Hl|[->|Hl]%elem_of_cons]; [exists l; set_solver| |exists l; set_solver].
        exists (poison (A := A) (Err error) lease). split; [set_solver|done].
Qed.

Lemma ok_released pool clock failed now since id :
  pool_ok pool clock failed → (clock ≤ now)%Z → (now ≤ since)%Z → pool_ok (lease_release now since id pool) since failed.
Proof.
  intros Hok Hc Hs. pose proof Hok as [H1 H2 H3 H4]. unfold lease_release.
  assert (Hsame : pool_ok pool since failed).
  { split; [done| |done|done]. eapply (queue_ok_sublist _ _ clock since); [reflexivity|lia|exact H2]. }
  destruct (po_leases pool !! id) as [lease|] eqn:Hi; [|done].
  destruct (sl_released lease) eqn:Hr; [done|].
  set (released := {| sl_topic := sl_topic lease; sl_consumer := sl_consumer lease; sl_reusable := sl_reusable lease; sl_released := true |}).
  pose proof (active_release id _ _ released Hi Hr eq_refl) as P.
  assert (Hfailed : ∀ retired', po_retired pool ⊆ retired' → (sl_reusable lease = false → sl_consumer lease ∈ retired') →
    ∀ c, c ∈ failed → c ∈ retired' ∨
      ∃ l, l ∈ active (<[id := released]> (po_leases pool)) ∧ sl_consumer l = c ∧ sl_reusable l = false).
  { intros retired' Hsub Hthis c Hin. destruct (H4 c Hin) as [?|(l & Hl & <- & Hlr)]; [left; set_solver|].
    rewrite P in Hl. apply elem_of_cons in Hl as [->|Hl]; [left; auto|right; eauto]. }
  unfold pool_release. destruct (sl_reusable lease) eqn:Hreuse.
  - cbn [po_inner]. destruct (park now since (sl_topic lease) (sl_consumer lease) (po_inner pool)) as [inner' evicted] eqn:E.
    destruct H3 as (C1 & C2 & C3).
    destruct (park_kept per_topic total now since clock _ _ _ _ _ C2 C1 H2 ltac:(lia) E) as (Ei & Hq & Pq).
    split; [|exact Hq|cbn; rewrite Ei; done|].
    + assert (Pc : consumers (with_idle {| po_inner := po_inner pool; po_leases := <[id := released]> (po_leases pool);
          po_acquiring := po_acquiring pool; po_retired := po_retired pool |} (inner', evicted)) ≡ₚ consumers pool).
      { unfold consumers. cbn. rewrite P. cbn.
        transitivity (((pk_consumer <$> pi_parked inner') ++ evicted) ++ (po_acquiring pool).*2 ++
          (sl_consumer <$> active (<[id := released]> (po_leases pool))) ++ po_retired pool); [solve_Permutation|].
        rewrite Pq. cbn. solve_Permutation. }
      by rewrite Pc.
    + cbn. apply Hfailed; [set_solver|done].
  - split; [|cbn; by destruct Hsame|done|].
    + assert (Pc : consumers (retire {| po_inner := po_inner pool; po_leases := <[id := released]> (po_leases pool);
          po_acquiring := po_acquiring pool; po_retired := po_retired pool |} (sl_consumer lease)) ≡ₚ consumers pool).
      { unfold consumers. cbn. rewrite P. cbn. solve_Permutation. }
      by rewrite Pc.
    + cbn. apply Hfailed; [set_solver|set_solver].
Qed.

Lemma reach_ok pool clock failed : (0 ≤ per_topic)%Z → (0 ≤ total)%Z → reach pool clock failed → pool_ok pool clock failed.
Proof.
  intros Hp Ht. induction 1; eauto using ok_new, ok_taken, ok_built, ok_dropped, ok_assigned, ok_called, ok_released, ok_tick.
Qed.
End reach.

(** ** What the pool promises *)

(** C39 (safety). However requests interleave, a consumer is in one place at a time: parked, held by
    an acquisition, leased, or told to close, so no two pages read through the same one; the
    parked ones are never more than the limits; and a consumer one of whose calls failed is never
    parked or handed out again. *)
Theorem pool_safe {Consumer : Type} `{!EqDecision Consumer} (per_topic total ttl : Z) (pool : ScanPool Consumer)
    (clock : Z) (failed : list Consumer) :
  (0 ≤ per_topic)%Z → (0 ≤ total)%Z → reach per_topic total ttl pool clock failed →
  NoDup ((pk_consumer <$> pi_parked (po_inner pool)) ++ (po_acquiring pool).*2 ++
    (sl_consumer <$> active (po_leases pool)) ++ po_retired pool) ∧
  (len (pi_parked (po_inner pool)) ≤ total)%Z ∧
  (∀ topic, (len (of_topic topic (pi_parked (po_inner pool))) ≤ per_topic)%Z) ∧
  (∀ consumer, consumer ∈ failed →
    consumer ∉ (pk_consumer <$> pi_parked (po_inner pool)) ++ (po_acquiring pool).*2 ∧
    ∀ lease, lease ∈ active (po_leases pool) → sl_consumer lease = consumer → sl_reusable lease = false).
Proof.
  intros Hp Ht [H1 H2 H3 H4]%reach_ok; [|done..]. unfold consumers in H1.
  split; [done|]. split; [apply H2|]. split; [apply H2|]. intros c Hc.
  rewrite app_assoc in H1. apply NoDup_app in H1 as (_ & Hd & H1). apply NoDup_app in H1 as (Hla & Hlr & _).
  split.
  - intros Hin. apply (Hd c Hin). apply elem_of_app.
    destruct (H4 c Hc) as [?|(l & Hl & <- & _)]; [auto|]. left. by apply list_elem_of_fmap_2.
  - intros lease Hl <-. destruct (H4 _ Hc) as [Hr|(l & Hl' & El & Hlr')].
    + exfalso. eapply Hlr; [|exact Hr]. by apply list_elem_of_fmap_2.
    + enough (l = lease) as <- by done. apply list_elem_of_lookup in Hl as [i Hi], Hl' as [j Hj].
      assert (i = j) as ->.
      { eapply NoDup_lookup; [exact Hla| |]; rewrite list_lookup_fmap; [by rewrite Hi|by rewrite Hj, <- El]. }
      congruence.
Qed.

(** An acquisition takes the newest of the topic's parked consumers that is open
    and has not been idle for longer than the time to live; it gives up every consumer idle for
    longer, and those of the topic it finds closed, and leaves the others in their order. What it
    takes never had a call fail. *)
Theorem acquire_taken_spec {Consumer : Type} `{!EqDecision Consumer} (per_topic total ttl : Z) (pool : ScanPool Consumer)
    (clock : Z) (failed : list Consumer) (closed : Consumer → bool) (now : Z) (topic : string)
    (taken : option Consumer) (pool' : ScanPool Consumer) :
  (0 ≤ per_topic)%Z → (0 ≤ total)%Z → reach per_topic total ttl pool clock failed → (clock ≤ now)%Z →
  acquire_taken closed now topic pool = (taken, pool') →
  let parked := pi_parked (po_inner pool) in
  ∃ given_up,
    taken_from closed topic (fresh_only ttl now parked) taken (pi_parked (po_inner pool')) given_up ∧
    po_retired pool' = po_retired pool ++ (pk_consumer <$> expired_only ttl now parked) ++ given_up ∧
    po_leases pool' = po_leases pool ∧
    (∀ consumer, taken = Some consumer → consumer ∉ failed).
Proof.
  intros Hp Ht Hreach Hc E parked. pose proof (reach_ok _ _ _ _ _ _ Hp Ht Hreach) as Hok. subst parked.
  assert (Hin : ∀ consumer, taken = Some consumer → consumer ∉ failed).
  { intros consumer -> Hf. pose proof (ok_taken _ _ _ _ _ _ closed now topic Hok Hc) as [H1 _ _ H4].
    rewrite E in H1, H4. cbn [snd] in H1, H4.
    assert (Ha : consumer ∈ (po_acquiring pool').*2).
    { unfold acquire_taken in E. destruct (take closed now topic (po_inner pool)) as [[tk inner] ev].
      injection E as -> <-. cbn. rewrite fmap_app. set_solver. }
    unfold consumers in H1. apply NoDup_app in H1 as (_ & _ & H1). apply NoDup_app in H1 as (_ & Hd & _).
    apply (Hd consumer Ha), elem_of_app. destruct (H4 consumer Hf) as [?|(l & Hl & <- & _)]; [auto|].
    left. by apply list_elem_of_fmap_2. }
  destruct Hok as [_ [Ho _ _ _] (_ & _ & Httl) _].
  unfold acquire_taken, take, expire in E. rewrite (pop_expired_filter _ _ _ Ho), Httl in E.
  destruct (take_open _ _ _ _ _) as [[tk inner] ev] eqn:Et. injection E as -> <-.
  apply take_open_spec in Et as (given_up & -> & Ei & Hfrom).
  - exists given_up. split; [exact Hfrom|]. by split_and!.
  - cbn [pi_parked with_parked]. pose proof (list_filter_sublist (λ p, String.eqb (pk_topic p) topic) (fresh_only ttl now (pi_parked (po_inner pool)))) as Hs.
    apply sublist_length in Hs. unfold of_topic. lia.
Qed.

(** A page read, its consumer parked, and taken again for the next one. *)
Definition a_pool : ScanPool nat :=
  lease_release 5 6 0 (acquire_assigned 0 (Ok () : result KafkaError ()) (acquire_built "t" 1 (pool_new 2 4 10))).

Lemma a_pool_reach : reach 2 4 10 a_pool 6 [].
Proof.
  apply (reach_released 2 4 10 _ 0 [] 5 6 0); [|lia|lia].
  change (@nil nat) with (failing (Ok () : result KafkaError ()) (snd <$> [("t", 1)] !! 0) ++ []).
  apply (reach_assigned 2 4 10 (acquire_built "t" 1 (pool_new 2 4 10))).
  apply reach_built; [apply reach_new|]. vm_compute. intros H. inversion H.
Defined.

Lemma pool_safe_witness :
  pi_parked (po_inner a_pool) = [{| pk_topic := "t"; pk_consumer := 1; pk_since := 6 |}] ∧
  (len (pi_parked (po_inner a_pool)) ≤ 4)%Z.
Proof.
  split; [reflexivity|].
  destruct (pool_safe 2 4 10 a_pool 6 []) as (_ & H & _); [lia|lia|exact a_pool_reach|exact H].
Defined.

Lemma acquire_taken_spec_witness :
  ∃ given_up,
    taken_from (λ _, false) "t" (fresh_only 10 16 (pi_parked (po_inner a_pool))) (Some 1) [] given_up ∧
    (acquire_taken (λ _, false) 16 "t" a_pool).1 = Some 1.
Proof.
  destruct (acquire_taken_spec 2 4 10 a_pool 6 [] (λ _, false) 16 "t" (Some 1) (acquire_taken (λ _, false) 16 "t" a_pool).2)
    as (given_up & H & _); [lia|lia|exact a_pool_reach|lia|reflexivity|].
  exists given_up. split; [exact H|reflexivity].
Defined.
