(* ===== verification/Projections.v ===== *)
(** [src/kafka/store/projections.rs]: the rows the API shows, computed from the tables.

    A topic's rate is an [f64] the projections only copy; it is Stdlib's IEEE number. *)

From Stdlib Require Import SpecFloat.
From S2P Require Import Prelude Text Metadata Group TopicConfig Tables.

Record TopicRow : Set := {
  tr_name : string;
  tr_internal : bool;
  tr_partition_count : Z;
  tr_replication_factor : Z;
  tr_retained_messages : Z;
  tr_produced_total : Z;
  tr_size_bytes : option Z;
  tr_rate : spec_float;
  tr_retention_ms : option Z;
  tr_cleanup_policy : option CleanupPolicy;
  tr_group_count : Z;
  tr_under_replicated : bool;
}.

Record PartitionRow : Set := {
  pr_id : Z;
  pr_leader : Z;
  pr_replicas : list Z;
  pr_isr : list Z;
  pr_low_watermark : Z;
  pr_high_watermark : Z;
  pr_size_bytes : option Z;
}.

Definition row_under_replicated (p : PartitionRow) : bool := (len (pr_isr p) <? len (pr_replicas p))%Z.
Definition row_offline (p : PartitionRow) : bool := (pr_leader p <? 0)%Z.
Definition row_retained (p : PartitionRow) : Z :=
  Z.max (i64_sub (pr_high_watermark p) (pr_low_watermark p)) 0.

Record TopicDetail : Set := {
  td_name : string;
  td_internal : bool;
  td_partitions : list PartitionRow;
  td_replication_factor : Z;
  td_retained_messages : Z;
  td_produced_total : Z;
  td_size_bytes : option Z;
  td_disk_bytes : option Z;
  td_rate : spec_float;
  td_retention_ms : option Z;
  td_cleanup_policy : option CleanupPolicy;
  td_group_count : Z;
  td_under_replicated : bool;
}.

Record GroupRow : Set := {
  gr_id : string;
  gr_state : GroupState;
  gr_member_count : Z;
  gr_topic_names : list string;
  gr_total_lag : option Z;
  gr_lag_complete : bool;
}.

Record GroupDetail : Set := {
  gd_id : string;
  gd_state : GroupState;
  gd_protocol : string;
  gd_members : list GroupMember;
  gd_offsets : list GroupOffset;
  gd_total_lag : option Z;
  gd_lag_complete : bool;
}.

Record TopicGroupRow : Set := {
  tgr_id : string;
  tgr_state : GroupState;
  tgr_member_count : Z;
  tgr_lag_on_topic : option Z;
}.

Record BrokerRow : Set := {
  br_id : Z;
  br_host : string;
  br_port : Z;
  br_rack : option string;
  br_controller : bool;
  br_partition_count : Z;
  br_leader_count : Z;
  br_size_bytes : option Z;
  br_log_dirs : list LogDirInfo;
}.

Record SubjectVersion : Set := { sv_version : Z; sv_id : option Z }.

Record SubjectRow : Set := {
  sr_subject : string;
  sr_info : SubjectInfo;
  sr_versions : list SubjectVersion;
}.

(** ** Topics *)

Record TopicLanes : Set := {
  tl_topology : Topology;
  tl_watermarks : option WatermarkTable;
  tl_configs : option ConfigTable;
  tl_log_dirs : option LogDirTable;
}.

Definition topic_row (name : string) (topic : TopicInfo) (lanes : TopicLanes) (rate : spec_float)
    : TopicRow :=
  let '(cleanup_policy, retention_ms) :=
    topic_config_values (configs ← tl_configs lanes; configs_get configs name) in
  {| tr_name := name;
     tr_internal := ti_internal topic;
     tr_partition_count := usize_as_i32 (len (ti_partitions topic));
     tr_replication_factor := replication_factor topic;
     tr_retained_messages :=
       match tl_watermarks lanes with Some marks => retained marks name | None => 0 end;
     tr_produced_total :=
       match tl_watermarks lanes with Some marks => produced marks name | None => 0 end;
     tr_size_bytes := ps_size_bytes <$> (table ← tl_log_dirs lanes; log_dirs_topic table name);
     tr_rate := rate;
     tr_retention_ms := retention_ms;
     tr_cleanup_policy := cleanup_policy;
     tr_group_count := usize_as_i32 (len (groups_for_topic (tl_topology lanes) name));
     tr_under_replicated := topic_under_replicated topic |}.

Definition partition_row (name : string) (lanes : TopicLanes) (partition : PartitionMetadata)
    : PartitionRow :=
  let marks := default Watermarks_default
    (table ← tl_watermarks lanes; marks_get table name (id partition)) in
  {| pr_id := id partition;
     pr_leader := leader partition;
     pr_replicas := replicas partition;
     pr_isr := isr partition;
     pr_low_watermark := low marks;
     pr_high_watermark := high marks;
     pr_size_bytes := ps_size_bytes <$>
       (table ← tl_log_dirs lanes; log_dirs_partition table name (id partition)) |}.

Definition topic_detail (name : string) (topic : TopicInfo) (lanes : TopicLanes) (rate : spec_float)
    : TopicDetail :=
  let partitions := partition_row name lanes <$> ti_partitions topic in
  let storage := table ← tl_log_dirs lanes; log_dirs_topic table name in
  let '(cleanup_policy, retention_ms) :=
    topic_config_values (configs ← tl_configs lanes; configs_get configs name) in
  {| td_name := name;
     td_internal := ti_internal topic;
     td_partitions := partitions;
     td_replication_factor := replication_factor topic;
     td_retained_messages := sum_i64 (row_retained <$> partitions);
     td_produced_total := sum_i64 ((λ partition, Z.max (pr_high_watermark partition) 0) <$> partitions);
     td_size_bytes := ps_size_bytes <$> storage;
     td_disk_bytes := ps_disk_bytes <$> storage;
     td_rate := rate;
     td_retention_ms := retention_ms;
     td_cleanup_policy := cleanup_policy;
     td_group_count := usize_as_i32 (len (groups_for_topic (tl_topology lanes) name));
     td_under_replicated := existsb row_under_replicated partitions |}.

(** ** Groups *)

Definition lag_of (committed end_ : option Z) : option Z :=
  end_ ← end_; committed ← committed; Some (Z.max (i64_sub end_ committed) 0).

Definition high_watermark (watermarks : option WatermarkTable) (topic : string) (partition : Z)
    : option Z :=
  high <$> (table ← watermarks; marks_get table topic partition).

(** The positions of a group on [topic], or on every topic: where it committed, and [0]
    where it is assigned and has not, or nothing before the offsets were read. *)
Definition positions (group : GroupInfo) (offsets : option GroupOffsets) (topic : option string)
    : gmap (string * Z) (option Z) :=
  let wanted name := match topic with None => true | Some topic => String.eqb topic name end in
  let committed := match offsets with Some offsets => gos_committed offsets | None => [] end in
  let positions := foldl (λ positions committed,
      <[(co_topic committed, co_partition committed) := Some (co_offset committed)]> positions)
    ∅ (List.filter (λ offset, wanted (co_topic offset)) committed) in
  let uncommitted := if bool_decide (is_Some offsets) then Some 0%Z else None in
  foldl (λ positions key, or_insert positions key uncommitted) positions
    (List.filter (λ key, wanted key.1) (assigned_partition_refs group)).

Definition lag_totals (fetched : bool) (lags : list (option Z)) : option Z * bool :=
  let '(total, complete) := foldl (λ '(total, complete) lag,
    match lag with
    | Some lag => (i64_add total lag, complete)
    | None => (total, false)
    end) (0%Z, true) lags in
  (if fetched then Some total else None, complete).

(** The lag at one position. *)
Definition position_lag (watermarks : option WatermarkTable) (entry : (string * Z) * option Z)
    : option Z :=
  lag_of entry.2 (high_watermark watermarks entry.1.1 entry.1.2).

Definition positions_lag (positions : gmap (string * Z) (option Z)) (fetched : bool)
    (watermarks : option WatermarkTable) : option Z * bool :=
  lag_totals fetched (map (position_lag watermarks) (map_to_list positions)).

Record GroupLag : Set := {
  gl_offsets : list GroupOffset;
  gl_total : option Z;
  gl_complete : bool;
}.

Definition lag_row (group : GroupInfo) (watermarks : option WatermarkTable)
    (entry : (string * Z) * option Z) : GroupOffset :=
  let '((topic, partition), current) := entry in
  let end_ := high_watermark watermarks topic partition in
  {| go_topic := topic; go_partition := partition; go_current_offset := current;
     go_end_offset := end_; go_lag := lag_of current end_;
     go_member_id := owners group !! (topic, partition) |}.

Definition group_lag (group : GroupInfo) (offsets : option GroupOffsets)
    (watermarks : option WatermarkTable) : GroupLag :=
  let rows := lag_row group watermarks <$> btree_iter (positions group offsets None) in
  let '(total, complete) := lag_totals (bool_decide (is_Some offsets)) (go_lag <$> rows) in
  {| gl_offsets := rows; gl_total := total; gl_complete := complete |}.

Definition unique_topics (names : list string) : list string := dedup (sort_by String.compare names).

Definition group_row (id : string) (group : GroupInfo) (offsets : option GroupOffsets)
    (watermarks : option WatermarkTable) : GroupRow :=
  let positions := positions group offsets None in
  let '(total_lag, lag_complete) := positions_lag positions (bool_decide (is_Some offsets)) watermarks in
  {| gr_id := id;
     gr_state := gi_state group;
     gr_member_count := usize_as_i32 (len (gi_members group));
     gr_topic_names := unique_topics (map (λ entry : (string * Z) * option Z, entry.1.1) (map_to_list positions));
     gr_total_lag := total_lag;
     gr_lag_complete := lag_complete |}.

Definition group_detail (id : string) (group : GroupInfo) (offsets : option GroupOffsets)
    (watermarks : option WatermarkTable) : GroupDetail :=
  let lag := group_lag group offsets watermarks in
  {| gd_id := id; gd_state := gi_state group; gd_protocol := gi_protocol group;
     gd_members := gi_members group; gd_offsets := gl_offsets lag;
     gd_total_lag := gl_total lag; gd_lag_complete := gl_complete lag |}.

Definition topic_group_row (id topic : string) (group : GroupInfo) (offsets : option GroupOffsets)
    (watermarks : option WatermarkTable) : TopicGroupRow :=
  let positions := positions group offsets (Some topic) in
  let '(lag_on_topic, _) := positions_lag positions (bool_decide (is_Some offsets)) watermarks in
  {| tgr_id := id; tgr_state := gi_state group;
     tgr_member_count := usize_as_i32 (len (gi_members group));
     tgr_lag_on_topic := lag_on_topic |}.

(** ** Brokers and subjects *)

(** [*counts.entry(key).or_default() += 1]. *)
Definition count_at (counts : gmap Z Z) (key : Z) : gmap Z Z :=
  <[key := i32_add (default 0%Z (counts !! key)) 1]> counts.

Definition count_partition (counts : gmap Z Z * gmap Z Z) (partition : PartitionMetadata)
    : gmap Z Z * gmap Z Z :=
  let '(partition_counts, leader_counts) := counts in
  (foldl count_at partition_counts (replicas partition),
   if negb (offline partition) then count_at leader_counts (leader partition) else leader_counts).

(** Every partition of the topology, in topic order. *)
Definition all_partitions (topology : Topology) : list PartitionMetadata :=
  concat (map (λ entry : string * TopicInfo, ti_partitions entry.2) (btree_iter (tp_topics topology))).

Definition broker_rows (topology : Topology) (log_dirs : option LogDirTable) : list BrokerRow :=
  let '(partition_counts, leader_counts) :=
    foldl count_partition (∅, ∅) (all_partitions topology) in
  (λ entry : Z * BrokerInfo,
    let '(id, broker) := entry in
    let dirs := table ← log_dirs; log_dirs_broker table id in
    {| br_id := id; br_host := bi_host broker; br_port := bi_port broker; br_rack := bi_rack broker;
       br_controller := bool_decide (tp_controller topology = Some id);
       br_partition_count := default 0%Z (partition_counts !! id);
       br_leader_count := default 0%Z (leader_counts !! id);
       br_size_bytes := (λ dirs, sum_i64 (map ldi_size_bytes dirs)) <$> dirs;
       br_log_dirs := default [] dirs |}) <$> btree_iter (tp_brokers topology).

Definition subject_rows (subjects : SubjectTable) (ids : option SchemaIdTable) : list SubjectRow :=
  (λ entry : string * SubjectInfo,
    let '(subject, info) := entry in
    {| sr_subject := subject; sr_info := info;
       sr_versions := (λ version,
         {| sv_version := version;
            sv_id := if (version =? si_latest_version info)%Z then Some (si_id info)
                     else ids ← ids; schema_ids_get ids subject version |}) <$> si_versions info |})
    <$> btree_iter (st_subjects subjects).

Definition offsets_for (offsets : option OffsetTable) (group : string) : option GroupOffsets :=
  offsets ← offsets; offsets_get offsets group.

(** ** Helper lemmas *)

(** The known lags. *)
Definition known (lags : list (option Z)) : list Z := omap (λ lag, lag) lags.

Lemma lag_totals_eq fetched lags :
  lag_totals fetched lags =
  (if fetched then Some (sum_i64 (known lags)) else None, forallb (λ lag, bool_decide (is_Some lag)) lags).
Proof.
  unfold lag_totals, sum_i64.
  assert (∀ total complete, foldl (λ '(total, complete) lag,
    match lag with Some lag => (i64_add total lag, complete) | None => (total, false) end)
    (total, complete) lags =
    (foldl i64_add total (known lags), complete && forallb (λ lag, bool_decide (is_Some lag)) lags)) as ->.
  { induction lags as [|[lag|] lags IH]; intros total complete; cbn [foldl forallb].
    - simpl. by rewrite andb_true_r.
    - rewrite IH. unfold known. by csimpl.
    - rewrite IH. unfold known. csimpl. by rewrite andb_false_r. }
  done.
Qed.

Lemma lag_totals_perm fetched l k : l ≡ₚ k → lag_totals fetched l = lag_totals fetched k.
Proof.
  intros Hp. rewrite !lag_totals_eq, !sum_i64_wrap. f_equal.
  - destruct fetched; [|done]. do 2 f_equal. apply sum_Z_perm. unfold known. by rewrite Hp.
  - apply eq_iff_eq_true. rewrite !forallb_forall. setoid_rewrite <- list_elem_of_In. by setoid_rewrite Hp.
Qed.

Lemma or_inserts_lookup {K V} `{Countable K} (keys : list K) (m : gmap K V) v k :
  foldl (λ m key, or_insert m key v) m keys !! k =
  match m !! k with Some x => Some x | None => if decide (k ∈ keys) then Some v else None end.
Proof.
  revert m. induction keys as [|key keys IH]; intros m; cbn [foldl].
  - rewrite decide_False by apply not_elem_of_nil. by destruct (m !! k).
  - rewrite IH. unfold or_insert. destruct (m !! key) as [x|] eqn:E.
    + destruct (m !! k) as [y|] eqn:Ek; [done|].
      assert (k ≠ key) by congruence. destruct (decide (k ∈ keys)) as [Hk|Hk].
      * rewrite decide_True; [done|by right].
      * rewrite decide_False; [done|]. rewrite elem_of_cons. naive_solver.
    + destruct (decide (key = k)) as [->|Hne].
      * rewrite lookup_insert_eq, E. rewrite decide_True; [done|by left].
      * rewrite lookup_insert_ne by done. destruct (m !! k); [done|].
        destruct (decide (k ∈ keys)) as [Hk|Hk].
        -- rewrite decide_True; [done|by right].
        -- rewrite decide_False; [done|]. rewrite elem_of_cons. naive_solver.
Qed.

Lemma collect_into_keys {K V} `{Countable K} (P : K → bool) (l : list (K * V)) (m : gmap K V) k :
  collect_into m (List.filter (λ kv, P kv.1) l) !! k =
  if P k then collect_into m l !! k else m !! k.
Proof.
  revert m. induction l as [|[k' v] l IH]; intros m; cbn [List.filter].
  - by destruct (P k).
  - change (collect_into m ((k', v) :: l)) with (collect_into (<[k' := v]> m) l). cbn [fst].
    destruct (P k') eqn:Ek'.
    + change (collect_into m ((k', v) :: ?l)) with (collect_into (<[k' := v]> m) l). rewrite IH.
      destruct (P k) eqn:Ek; [done|]. apply lookup_insert_ne. congruence.
    + rewrite IH. destruct (P k) eqn:Ek; [|done].
      assert (k' ≠ k) as Hne by congruence. clear IH Ek Ek'.
      assert (∀ m1 m2 : gmap K V, m1 !! k = m2 !! k → collect_into m1 l !! k = collect_into m2 l !! k) as Hm.
      { clear. induction l as [|[k1 v1] l IH]; intros m1 m2 Hm; [done|].
        apply (IH (<[k1 := v1]> m1) (<[k1 := v1]> m2)).
        destruct (decide (k1 = k)) as [->|]; [by rewrite !lookup_insert_eq|by rewrite !lookup_insert_ne]. }
      apply Hm. by rewrite lookup_insert_ne.
Qed.

Definition committed_pairs (offsets : option GroupOffsets) : list ((string * Z) * option Z) :=
  map (λ c, ((co_topic c, co_partition c), Some (co_offset c)))
    (match offsets with Some offsets => gos_committed offsets | None => [] end).

Lemma committed_fold (l : list CommittedOffset) m :
  foldl (λ positions committed,
    <[(co_topic committed, co_partition committed) := Some (co_offset committed)]> positions) m l =
  collect_into m (map (λ c, ((co_topic c, co_partition c), Some (co_offset c))) l).
Proof. revert m. induction l as [|c l IH]; intros m; [done|]. apply IH. Qed.

Lemma filter_map_swap {A B} (f : A → B) (p : B → bool) l :
  List.filter p (map f l) = map f (List.filter (λ x, p (f x)) l).
Proof. induction l as [|x l IH]; simpl; [done|]. destruct (p (f x)); simpl; by rewrite IH. Qed.

(** A group's position: its last commit there, or its default where it is assigned. *)
Lemma positions_lookup group offsets topic key :
  positions group offsets topic !! key =
  if match topic with None => true | Some topic => String.eqb topic key.1 end then
    match collect (committed_pairs offsets) !! key with
    | Some o => Some o
    | None => if decide (key ∈ assigned_partition_refs group)
              then Some (if bool_decide (is_Some offsets) then Some 0%Z else None) else None
    end
  else None.
Proof.
  unfold positions. set (wanted := λ name, match topic with None => true | Some topic => String.eqb topic name end).
  change (match topic with None => true | Some topic => String.eqb topic key.1 end) with (wanted key.1).
  rewrite or_inserts_lookup, committed_fold.
  rewrite <- (filter_map_swap (λ c, ((co_topic c, co_partition c), Some (co_offset c)))
    (λ kv : (string * Z) * option Z, wanted kv.1.1)).
  rewrite (collect_into_keys (λ k : string * Z, wanted k.1)). fold (committed_pairs offsets).
  assert (key ∈ List.filter (λ key, wanted key.1) (assigned_partition_refs group) ↔
    wanted key.1 = true ∧ key ∈ assigned_partition_refs group) as Hin.
  { rewrite !list_elem_of_In, filter_In. tauto. }
  change (collect_into ∅ ?l) with (collect l).
  destruct (wanted key.1) eqn:Ew.
  - destruct (collect (committed_pairs offsets) !! key); [done|].
    destruct (decide (key ∈ assigned_partition_refs group)) as [Hk|Hk].
    + rewrite decide_True; [done|]. by apply Hin.
    + rewrite decide_False; [done|]. intros [_ ?]%Hin. done.
  - rewrite lookup_empty, decide_False; [done|]. by intros [? _]%Hin.
Qed.

Lemma positions_on_topic group offsets topic :
  positions group offsets (Some topic) =
  filter (λ entry : (string * Z) * option Z, entry.1.1 = topic) (positions group offsets None).
Proof.
  apply map_eq. intros key. rewrite map_lookup_filter, !positions_lookup.
  destruct (String.eqb_spec topic key.1) as [->|Hne].
  - destruct (match collect _ !! key with Some _ => _ | None => _ end); simpl; [|done].
    by rewrite option_guard_True.
  - destruct (match collect _ !! key with Some _ => _ | None => _ end); simpl; [|done].
    rewrite option_guard_False; [done|]. simpl. congruence.
Qed.

Lemma map_to_list_filtered {K V} `{Countable K} (P : K * V → Prop) `{∀ x, Decision (P x)} (m : gmap K V) :
  map_to_list (filter P m) ≡ₚ filter P (map_to_list m).
Proof.
  rewrite map_filter_alt at 1. apply map_to_list_to_map.
  apply (sublist_NoDup _ ((map_to_list m).*1)); [apply NoDup_fst_map_to_list|].
  apply fmap_sublist, sublist_filter.
Qed.

(** The rows of a group, by its positions. *)
Lemma group_lag_lags group offsets watermarks :
  go_lag <$> gl_offsets (group_lag group offsets watermarks) =
  position_lag watermarks <$> btree_iter (positions group offsets None).
Proof.
  unfold group_lag. destruct (lag_totals _ _) as [total complete]. simpl.
  rewrite <- list_fmap_compose. apply list_fmap_ext. by intros i [[topic partition] current] _.
Qed.

Lemma group_lag_totals group offsets watermarks :
  (gl_total (group_lag group offsets watermarks), gl_complete (group_lag group offsets watermarks)) =
  lag_totals (bool_decide (is_Some offsets)) (go_lag <$> gl_offsets (group_lag group offsets watermarks)).
Proof. unfold group_lag. by destruct (lag_totals _ _) as [total complete] eqn:E. Qed.

Lemma group_lag_row group offsets watermarks row :
  row ∈ gl_offsets (group_lag group offsets watermarks) ↔
  ∃ current, positions group offsets None !! (go_topic row, go_partition row) = Some current ∧
    row = lag_row group watermarks ((go_topic row, go_partition row), current).
Proof.
  unfold group_lag. destruct (lag_totals _ _) as [total complete]. simpl. rewrite list_elem_of_fmap. split.
  - intros ([[topic partition] current] & -> & Hin%elem_of_btree_iter). simpl. by exists current.
  - intros (current & Hp & Hrow). exists ((go_topic row, go_partition row), current).
    split; [done|]. by apply elem_of_btree_iter.
Qed.

(** A topic's lag is the sum over the page's rows there. *)
Lemma topic_lag id topic group offsets watermarks :
  tgr_lag_on_topic (topic_group_row id topic group offsets watermarks) =
  if bool_decide (is_Some offsets) then
    Some (sum_i64 (known (go_lag <$> filter (λ o, go_topic o = topic)
      (gl_offsets (group_lag group offsets watermarks)))))
  else None.
Proof.
  unfold topic_group_row, positions_lag.
  assert (map (position_lag watermarks) (map_to_list (positions group offsets (Some topic))) ≡ₚ
    go_lag <$> filter (λ o, go_topic o = topic) (gl_offsets (group_lag group offsets watermarks))) as Hp.
  { rewrite positions_on_topic.
    etrans; [apply (fmap_Permutation (position_lag watermarks)), map_to_list_filtered|].
    rewrite <- (btree_iter_perm (positions group offsets None)).
    apply Permutation_refl'. unfold group_lag. destruct (lag_totals _ _) as [total complete]. simpl.
    induction (btree_iter (positions group offsets None)) as [|[[t p] current] l IH]; [done|].
    csimpl. rewrite !filter_cons. cbn [fst snd lag_row go_topic]. case_decide; csimpl; [|done].
    f_equal. done. }
  rewrite (lag_totals_perm _ _ _ Hp), lag_totals_eq. by destruct (bool_decide _).
Qed.

(** *** Rows *)

Lemma group_lag_pairs group offsets watermarks :
  (λ row, (go_topic row, go_partition row)) <$> gl_offsets (group_lag group offsets watermarks) =
  btree_keys (positions group offsets None).
Proof.
  unfold group_lag. destruct (lag_totals _ _) as [total complete]. simpl. unfold btree_keys.
  rewrite <- list_fmap_compose. apply list_fmap_ext. by intros i [[topic partition] current] _.
Qed.

Lemma group_lag_sorted group offsets watermarks :
  StronglySorted (λ x y, key_cmp x y = Lt)
    ((λ row, (go_topic row, go_partition row)) <$> gl_offsets (group_lag group offsets watermarks)).
Proof.
  rewrite group_lag_pairs. apply sorted_strict; [apply key_cmp_eq|apply btree_keys_sorted|].
  apply NoDup_btree_keys.
Qed.

Lemma group_lag_keys group offsets watermarks topic partition :
  (topic, partition) ∈ ((λ row, (go_topic row, go_partition row)) <$>
    gl_offsets (group_lag group offsets watermarks)) ↔
  is_Some (positions group offsets None !! (topic, partition)).
Proof. rewrite group_lag_pairs. apply elem_of_btree_keys. Qed.

Lemma group_lag_row_exact group offsets watermarks row :
  (∀ topic partition h, high_watermark watermarks topic partition = Some h → (0 ≤ h ≤ i64_max)%Z) →
  (∀ g c, offsets = Some g → c ∈ gos_committed g → (0 ≤ co_offset c ≤ i64_max)%Z) →
  row ∈ gl_offsets (group_lag group offsets watermarks) →
  go_current_offset row =
    match collect (committed_pairs offsets) !! (go_topic row, go_partition row) with
    | Some o => o
    | None => if bool_decide (is_Some offsets) then Some 0%Z else None
    end ∧
  go_end_offset row = high_watermark watermarks (go_topic row) (go_partition row) ∧
  go_lag row = (end_ ← go_end_offset row; current ← go_current_offset row; Some (Z.max 0 (end_ - current))).
Proof.
  intros Hhigh Hcommitted (current & Hp & Hrow)%group_lag_row.
  rewrite Hrow. cbn [lag_row go_current_offset go_end_offset go_topic go_partition go_lag].
  rewrite positions_lookup in Hp.
  assert (∀ c, current = Some c → (0 ≤ c ≤ i64_max)%Z) as Hrange.
  { intros c ->. pose proof (collect_cases (committed_pairs offsets) (go_topic row, go_partition row)) as Hc.
    destruct (collect _ !! _) as [o|].
    - injection Hp as ->. apply list_elem_of_fmap in Hc as (co & [= _ _ ->] & Hin).
      destruct offsets as [g|]; [by eapply Hcommitted|by apply not_elem_of_nil in Hin].
    - case_decide; [|done]. destruct (bool_decide _); [|done]. injection Hp as <-. unfold_ints. lia. }
  split; [|split; [done|]].
  - destruct (collect _ !! _) as [o|]; [by injection Hp|]. case_decide; [|done]. by injection Hp.
  - unfold lag_of. destruct (high_watermark _ _ _) as [h|] eqn:Eh; [|done]. simpl.
    destruct current as [c|]; [|done]. simpl. specialize (Hhigh _ _ _ Eh). specialize (Hrange c eq_refl).
    f_equal. rewrite i64_sub_id by (unfold_ints; lia). lia.
Qed.

(** *** Brokers *)

Lemma counts_lookup l counts key :
  default 0%Z (foldl count_at counts l !! key) =
  wrap_i32 (default 0%Z (counts !! key) + len (List.filter (Z.eqb key) l)) ∨
  List.filter (Z.eqb key) l = [] ∧ foldl count_at counts l !! key = counts !! key.
Proof.
  revert counts. induction l as [|k l IH]; intros counts; cbn [foldl List.filter]; [by right|].
  destruct (Z.eqb_spec key k) as [<-|Hne].
  - left. rewrite len_cons. destruct (IH (count_at counts key)) as [->|[Hnil ->]];
      unfold count_at; rewrite lookup_insert_eq; simpl; unfold i32_add.
    + rewrite wrap_i32_add. f_equal. lia.
    + by rewrite Hnil.
  - destruct (IH (count_at counts k)) as [->|[Hnil ->]]; unfold count_at;
      rewrite lookup_insert_ne by done; [by left|by right].
Qed.

Lemma counts_fold l key :
  default 0%Z (foldl count_at ∅ l !! key) = wrap_i32 (len (List.filter (Z.eqb key) l)).
Proof.
  destruct (counts_lookup l ∅ key) as [->|[-> ->]]; by rewrite lookup_empty.
Qed.

Lemma count_partitions ps counts :
  foldl count_partition counts ps =
  (foldl count_at counts.1 (concat (map replicas ps)),
   foldl count_at counts.2 (map leader (List.filter (λ p, negb (offline p)) ps))).
Proof.
  revert counts. induction ps as [|p ps IH]; intros [pc lc]; [done|].
  cbn [foldl map concat List.filter]. rewrite IH. cbn [fst snd count_partition].
  rewrite foldl_app. f_equal. by destruct (negb (offline p)).
Qed.

(** ** Properties *)

(** The list of groups, the page of a group and the groups of a topic tell the same lag:
    the row and the page show one total, complete in both or neither; the row names the
    topics of the page's positions; and a topic's row is the sum of the page's lags there. *)
Theorem group_views_agree id group offsets watermarks :
  let row := group_row id group offsets watermarks in
  let detail := group_detail id group offsets watermarks in
  gr_total_lag row = gd_total_lag detail ∧ gr_lag_complete row = gd_lag_complete detail ∧
  StronglySorted (λ x y, String.compare x y = Lt) (gr_topic_names row) ∧
  (∀ topic, topic ∈ gr_topic_names row ↔ topic ∈ (go_topic <$> gd_offsets detail)) ∧
  ∀ topic, tgr_lag_on_topic (topic_group_row id topic group offsets watermarks) =
    if bool_decide (is_Some offsets) then
      Some (sum_i64 (known (go_lag <$> filter (λ o, go_topic o = topic) (gd_offsets detail))))
    else None.
Proof.
  pose proof (group_lag_totals group offsets watermarks) as Htot.
  rewrite (group_lag_lags group offsets watermarks) in Htot.
  assert ((gr_total_lag (group_row id group offsets watermarks), gr_lag_complete (group_row id group offsets watermarks)) =
    lag_totals (bool_decide (is_Some offsets))
      (position_lag watermarks <$> btree_iter (positions group offsets None))) as Hrow.
  { unfold group_row, positions_lag. cbv zeta.
    rewrite (lag_totals_perm _ (position_lag watermarks <$> btree_iter _)
      (map (position_lag watermarks) (map_to_list (positions group offsets None))));
      [|by apply Permutation_map, btree_iter_perm].
    by destruct (lag_totals _ (map _ _)) as [total complete]. }
  rewrite <- Htot in Hrow. injection Hrow as H1 H2. split; [done|]. split; [done|].
  assert (gr_topic_names (group_row id group offsets watermarks) =
    unique_topics (map (λ entry : (string * Z) * option Z, entry.1.1)
      (map_to_list (positions group offsets None)))) as Hnames.
  { unfold group_row. by destruct (positions_lag _ _ _). }
  split; [|split].
  - rewrite Hnames. apply (dedup_sorted String.compare); [intros x y; apply String.compare_eq_iff|].
    apply sort_by_sorted, _.
  - intros topic. rewrite Hnames. unfold unique_topics. rewrite elem_of_dedup, elem_of_sort_by. simpl.
    rewrite !list_elem_of_fmap. split.
    + intros ([[t p] current] & -> & Hin). apply elem_of_map_to_list in Hin.
      exists (lag_row group watermarks ((t, p), current)). split; [done|]. apply group_lag_row. by exists current.
    + intros (row & -> & Hin). apply group_lag_row in Hin as (current & Hp & _).
      exists ((go_topic row, go_partition row), current). split; [done|]. by apply elem_of_map_to_list.
  - intros topic. apply topic_lag.
Qed.


(** A broker's counts are the replicas it holds and the partitions it leads, an offline
    partition leading nowhere, and there is one row per broker, in order. *)
Theorem broker_rows_spec topology log_dirs :
  (br_id <$> broker_rows topology log_dirs) = btree_keys (tp_brokers topology) ∧
  ∀ row, row ∈ broker_rows topology log_dirs →
    br_partition_count row =
      wrap_i32 (len (List.filter (Z.eqb (br_id row)) (concat (map replicas (all_partitions topology))))) ∧
    br_leader_count row = wrap_i32 (len (List.filter (Z.eqb (br_id row))
      (map leader (List.filter (λ p, negb (offline p)) (all_partitions topology))))) ∧
    (br_controller row = true ↔ tp_controller topology = Some (br_id row)) ∧
    br_log_dirs row = default [] (table ← log_dirs; log_dirs_broker table (br_id row)).
Proof.
  unfold broker_rows. rewrite count_partitions. split.
  - rewrite <- list_fmap_compose. apply list_fmap_ext. by intros i [] _.
  - intros row ([b info] & -> & _)%list_elem_of_fmap. cbn [br_id br_partition_count br_leader_count
      br_controller br_log_dirs fst snd]. rewrite !counts_fold, bool_decide_eq_true. done.
Qed.

(** ** Witnesses *)

Definition sample_offsets : GroupOffsets := {| gos_committed := gs_committed sample_group |}.
Definition sample_marks : WatermarkTable :=
  {| wt_marks := {[ "orders" := {[ 0%Z := {| low := 0; high := 10 |} ]} ]} |}.

Lemma sample_marks_high topic partition h :
  high_watermark (Some sample_marks) topic partition = Some h → h = 10%Z.
Proof.
  unfold high_watermark, marks_get, sample_marks. cbn [wt_marks mbind option_bind].
  destruct (({[ "orders" := _ ]} : gmap string (gmap Z Watermarks)) !! topic) as [m|] eqn:E; [|done].
  apply lookup_singleton_Some in E as [_ <-]. cbn [mbind option_bind].
  destruct (({[ 0%Z := _ ]} : gmap Z Watermarks) !! partition) as [w|] eqn:E; [|done].
  apply lookup_singleton_Some in E as [_ <-]. by intros [= <-].
Qed.

