(* ===== verification/Bus.v ===== *)
(** [src/kafka/store/bus.rs]: what changed between two tables, as the change bus tells
    its subscribers. The broadcast channel itself is tokio's. *)

From S2P Require Import Prelude Text Metadata Group TopicConfig Tables.

(** ** Merging two sorted maps *)

(** itertools' [EitherOrBoth]. *)
Inductive EitherOrBoth (A B : Type) : Type :=
  | LeftOnly (a : A)
  | RightOnly (b : B)
  | BothSides (a : A) (b : B).
Arguments LeftOnly {A B} a.
Arguments RightOnly {A B} b.
Arguments BothSides {A B} a b.

Section merge_join.
Context {A B : Type} (cmp : A → B → comparison).

(** [Itertools::merge_join_by]. *)
Fixpoint merge_join_by (l : list A) : list B → list (EitherOrBoth A B) :=
  match l with
  | [] => map RightOnly
  | a :: l' =>
      fix inner (k : list B) : list (EitherOrBoth A B) :=
        match k with
        | [] => map LeftOnly (a :: l')
        | b :: k' =>
            match cmp a b with
            | Lt => LeftOnly a :: merge_join_by l' (b :: k')
            | Gt => RightOnly b :: inner k'
            | Eq => BothSides a b :: merge_join_by l' k'
            end
        end
  end.
End merge_join.

(** The keys added, removed and changed. *)
Definition KeyDiff : Type := list string * list string * list string.

Definition diff_pair {V} `{EqDecision V} (diff : KeyDiff)
    (pair : EitherOrBoth (string * V) (string * V)) : KeyDiff :=
  let '(added, removed, changed) := diff in
  match pair with
  | LeftOnly (key, _) => (added, removed ++ [key], changed)
  | RightOnly (key, _) => (added ++ [key], removed, changed)
  | BothSides (key, old) (_, new) =>
      if decide (old ≠ new) then (added, removed, changed ++ [key]) else diff
  end.

Definition diff_maps {V} `{EqDecision V} (previous next : gmap string V) : KeyDiff :=
  foldl diff_pair ([], [], [])
    (merge_join_by (λ old new : string * V, String.compare old.1 new.1) (btree_iter previous) (btree_iter next)).

(** ** Deltas *)

Record TopologyDelta : Set := {
  added_topics : list string;
  removed_topics : list string;
  changed_topics : list string;
  added_groups : list string;
  removed_groups : list string;
  changed_groups : list string;
  brokers_changed : bool;
}.

Definition delta_is_empty (d : TopologyDelta) : bool :=
  negb (brokers_changed d) && bool_decide (added_topics d = []) &&
  bool_decide (removed_topics d = []) && bool_decide (changed_topics d = []) &&
  bool_decide (added_groups d = []) && bool_decide (removed_groups d = []) &&
  bool_decide (changed_groups d = []).

Definition topology_between (previous : option Topology) (next : Topology) : option TopologyDelta :=
  let previous := default Topology_default previous in
  let '(added_topics, removed_topics, changed_topics) := diff_maps (tp_topics previous) (tp_topics next) in
  let '(added_groups, removed_groups, changed_groups) := diff_maps (tp_groups previous) (tp_groups next) in
  let delta :=
    {| added_topics := added_topics; removed_topics := removed_topics; changed_topics := changed_topics;
       added_groups := added_groups; removed_groups := removed_groups; changed_groups := changed_groups;
       brokers_changed := bool_decide (tp_brokers previous ≠ tp_brokers next) ||
         bool_decide (tp_controller previous ≠ tp_controller next) |} in
  if negb (delta_is_empty delta) then Some delta else None.

Definition touches_topic (d : TopologyDelta) (topic : string) : bool :=
  existsb (String.eqb topic) (added_topics d) || existsb (String.eqb topic) (removed_topics d) ||
  existsb (String.eqb topic) (changed_topics d).

Definition touches_group (d : TopologyDelta) (group : string) : bool :=
  existsb (String.eqb group) (added_groups d) || existsb (String.eqb group) (removed_groups d) ||
  existsb (String.eqb group) (changed_groups d).

Record ConfigsDelta : Set := { cd_topics : list string }.

Definition configs_between (previous : option ConfigTable) (next : ConfigTable) : option ConfigsDelta :=
  let topics :=
    match previous with
    | Some previous =>
        omap (λ entry : string * list ConfigEntry,
          if decide (ct_topics previous !! entry.1 ≠ Some entry.2) then Some entry.1 else None)
          (map_to_list (ct_topics next)) ++
        omap (λ entry : string * list ConfigEntry,
          if decide (ct_topics next !! entry.1 = None) then Some entry.1 else None)
          (map_to_list (ct_topics previous))
    | None => (map_to_list (ct_topics next)).*1
    end in
  let topics := dedup (sort_by String.compare topics) in
  if negb (bool_decide (topics = [])) then Some {| cd_topics := topics |} else None.

Record LogDirsDelta : Set := { lgd_topics : list string; lgd_brokers_changed : bool }.

Definition log_dirs_between (previous : option LogDirTable) (next : LogDirTable) : option LogDirsDelta :=
  let previous := default LogDirTable_default previous in
  let topics := sort_by String.compare
    (omap (λ entry : string * gmap Z PartitionStorage,
       if decide (ldt_partitions previous !! entry.1 ≠ Some entry.2) then Some entry.1 else None)
       (map_to_list (ldt_partitions next)) ++
     omap (λ entry : string * gmap Z PartitionStorage,
       if decide (ldt_partitions next !! entry.1 = None) then Some entry.1 else None)
       (map_to_list (ldt_partitions previous))) in
  let brokers_changed := bool_decide (ldt_brokers previous ≠ ldt_brokers next) in
  if brokers_changed || negb (bool_decide (topics = []))
  then Some {| lgd_topics := topics; lgd_brokers_changed := brokers_changed |} else None.

Definition log_dirs_touches_topic (d : LogDirsDelta) (topic : string) : bool :=
  existsb (String.eqb topic) (lgd_topics d).

Record SubjectsDelta : Set := { sd_added : list string; sd_removed : list string; sd_changed : list string }.

Definition subjects_of {V} `{EqDecision V} (previous : option (gmap string V)) (next : gmap string V)
    : option SubjectsDelta :=
  let '(added, removed, changed) := diff_maps (default ∅ previous) next in
  if negb (bool_decide (added = [])) || negb (bool_decide (removed = [])) ||
     negb (bool_decide (changed = []))
  then Some {| sd_added := added; sd_removed := removed; sd_changed := changed |} else None.

Definition subjects_between (previous : option SubjectTable) (next : SubjectTable)
    : option SubjectsDelta := subjects_of (st_subjects <$> previous) (st_subjects next).

Definition subjects_of_ids (previous : option SchemaIdTable) (next : SchemaIdTable)
    : option SubjectsDelta := subjects_of (sit_subjects <$> previous) (sit_subjects next).

(** ** Helper lemmas *)

Section diff.
Context {V : Type} `{!EqDecision V}.

Abbreviation entry := (string * V)%type.
Abbreviation join := (merge_join_by (λ old new : entry, String.compare old.1 new.1)).
Abbreviation before := (λ x y : entry, String.compare x.1 y.1 = Lt).

Definition pair_key (pair : EitherOrBoth entry entry) : string :=
  match pair with LeftOnly a => a.1 | RightOnly b => b.1 | BothSides a _ => a.1 end.

Lemma join_nil_l k : join [] k = map RightOnly k.
Proof. done. Qed.

Lemma join_nil_r l : join l [] = map LeftOnly l.
Proof. by destruct l. Qed.

Lemma join_cons a l b k :
  join (a :: l) (b :: k) =
  match String.compare a.1 b.1 with
  | Lt => LeftOnly a :: join l (b :: k)
  | Gt => RightOnly b :: join (a :: l) k
  | Eq => BothSides a b :: join l k
  end.
Proof. done. Qed.

(** Induction on a merge. *)
Lemma join_ind (P : list entry → list entry → Prop) :
  (∀ k, P [] k) → (∀ l, P l []) →
  (∀ a l b k, P l (b :: k) → P (a :: l) k → P l k → P (a :: l) (b :: k)) →
  ∀ l k, P l k.
Proof.
  intros H1 H2 H3. induction l as [|a l IH]; [done|].
  induction k as [|b k IHk]; [done|]. by apply H3.
Qed.

Lemma join_keys l k pair :
  pair ∈ join l k → pair_key pair ∈ l.*1 ∨ pair_key pair ∈ k.*1.
Proof.
  revert l k. apply (join_ind (λ l k, pair ∈ join l k → pair_key pair ∈ l.*1 ∨ pair_key pair ∈ k.*1)).
  - intros k Hin. rewrite join_nil_l in Hin. apply list_elem_of_fmap in Hin as (b & -> & Hb). right.
    by apply (list_elem_of_fmap_2 fst).
  - intros l Hin. rewrite join_nil_r in Hin. apply list_elem_of_fmap in Hin as (a & -> & Ha). left.
    by apply (list_elem_of_fmap_2 fst).
  - intros a l b k H1 H2 H3 Hin. rewrite join_cons in Hin. csimpl. rewrite !elem_of_cons.
    destruct (String.compare a.1 b.1); apply elem_of_cons in Hin as [->|Hin]; csimpl.
    + left. by left.
    + destruct (H3 Hin); tauto.
    + left. by left.
    + destruct (H1 Hin) as [?|Hk]; [tauto|]. csimpl in Hk. apply elem_of_cons in Hk. tauto.
    + right. by left.
    + destruct (H2 Hin) as [Hl|?]; [|tauto]. csimpl in Hl. apply elem_of_cons in Hl. tauto.
Qed.

Lemma before_head a l key : Forall (before a) l → key ∈ l.*1 → String.compare a.1 key = Lt.
Proof. intros Hall (x & -> & Hx)%list_elem_of_fmap. rewrite Forall_forall in Hall. by apply Hall. Qed.

Lemma join_sorted l k :
  StronglySorted before l → StronglySorted before k →
  StronglySorted (λ x y, String.compare x y = Lt) (pair_key <$> join l k).
Proof.
  revert l k. apply (join_ind (λ l k, StronglySorted before l → StronglySorted before k →
    StronglySorted (λ x y, String.compare x y = Lt) (pair_key <$> join l k))).
  - intros k _ Hk. rewrite join_nil_l. induction Hk as [|b k Hk IH Hb]; csimpl; constructor; [done|].
    rewrite Forall_forall. intros key Hin. apply list_elem_of_fmap in Hin as (p & -> & Hp).
    apply list_elem_of_fmap in Hp as (x & -> & Hx). rewrite Forall_forall in Hb. by apply Hb.
  - intros l Hl _. rewrite join_nil_r. induction Hl as [|a l Hl IH Ha]; csimpl; constructor; [done|].
    rewrite Forall_forall. intros key Hin. apply list_elem_of_fmap in Hin as (p & -> & Hp).
    apply list_elem_of_fmap in Hp as (x & -> & Hx). rewrite Forall_forall in Ha. by apply Ha.
  - intros a l b k H1 H2 H3 Hl Hk.
    apply StronglySorted_inv in Hl as Hl'. destruct Hl' as [Hl' Ha].
    apply StronglySorted_inv in Hk as Hk'. destruct Hk' as [Hk' Hb]. rewrite join_cons.
    destruct (String.compare a.1 b.1) eqn:E; rewrite fmap_cons; constructor; try (by auto);
      rewrite Forall_forall; intros key Hin; apply list_elem_of_fmap in Hin as (p & -> & [Hp|Hp]%join_keys).
    + by apply (before_head a l).
    + apply String.compare_eq_iff in E. change (String.compare a.1 (pair_key p) = Lt).
      rewrite E. by apply (before_head b k).
    + by apply (before_head a l).
    + csimpl in Hp. apply elem_of_cons in Hp as [->|Hp]; [done|].
      apply (string_compare_lt_trans _ b.1); [done|]. by apply (before_head b k).
    + assert (String.compare b.1 a.1 = Lt) as E' by by apply (cmp_gt_lt String.compare).
      csimpl in Hp. apply elem_of_cons in Hp as [->|Hp]; [done|].
      apply (string_compare_lt_trans _ a.1); [done|]. by apply (before_head a l).
    + by apply (before_head b k).
Qed.

Lemma before_notin a l : Forall (before a) l → ∀ x, x ∈ l → x.1 ≠ a.1.
Proof.
  intros Hall x Hx Heq. rewrite Forall_forall in Hall. specialize (Hall x Hx). rewrite Heq in Hall.
  by rewrite (cmp_refl String.compare) in Hall.
Qed.

(** What each pair of a merge says of the two lists. *)
Definition pair_meaning (l k : list entry) (pair : EitherOrBoth entry entry) : Prop :=
  match pair with
  | LeftOnly a => a ∈ l ∧ ∀ y, y ∈ k → y.1 ≠ a.1
  | RightOnly b => b ∈ k ∧ ∀ x, x ∈ l → x.1 ≠ b.1
  | BothSides a b => a ∈ l ∧ b ∈ k ∧ a.1 = b.1
  end.

Lemma elem_of_join l k pair :
  StronglySorted before l → StronglySorted before k →
  pair ∈ join l k ↔ pair_meaning l k pair.
Proof.
  revert l k. apply (join_ind (λ l k, StronglySorted before l → StronglySorted before k →
    pair ∈ join l k ↔ pair_meaning l k pair)).
  - intros k _ _. rewrite join_nil_l, list_elem_of_fmap. destruct pair as [a|b|a b]; simpl.
    + split; [by intros (? & ? & _)|by intros [?%not_elem_of_nil _]].
    + split; [intros (? & [= ->] & ?); split; [done|by intros ? ?%not_elem_of_nil]|intros [? _]; by exists b].
    + split; [by intros (? & ? & _)|by intros [?%not_elem_of_nil _]].
  - intros l _ _. rewrite join_nil_r, list_elem_of_fmap. destruct pair as [a|b|a b]; simpl.
    + split; [intros (? & [= ->] & ?); split; [done|by intros ? ?%not_elem_of_nil]|intros [? _]; by exists a].
    + split; [by intros (? & ? & _)|by intros [?%not_elem_of_nil _]].
    + split; [by intros (? & ? & _)|by intros (_ & ?%not_elem_of_nil & _)].
  - intros a l b k H1 H2 H3 Hl Hk.
    apply StronglySorted_inv in Hl as Hl'. destruct Hl' as [Hl' Ha].
    apply StronglySorted_inv in Hk as Hk'. destruct Hk' as [Hk' Hb].
    pose proof (before_notin a l Ha) as Hna. pose proof (before_notin b k Hb) as Hnb.
    assert (String.compare a.1 b.1 = Lt → ∀ y, y ∈ b :: k → y.1 ≠ a.1) as Hlt.
    { intros E y [->|Hy]%elem_of_cons Heq; [rewrite Heq in E; by rewrite (cmp_refl String.compare) in E|].
      rewrite Forall_forall in Hb. pose proof (string_compare_lt_trans _ _ _ E (Hb y Hy)) as E'.
      rewrite Heq in E'. by rewrite (cmp_refl String.compare) in E'. }
    assert (String.compare a.1 b.1 = Gt → ∀ x, x ∈ a :: l → x.1 ≠ b.1) as Hgt.
    { intros E%(cmp_gt_lt String.compare) x [->|Hx]%elem_of_cons Heq;
        [rewrite Heq in E; by rewrite (cmp_refl String.compare) in E|].
      rewrite Forall_forall in Ha. pose proof (string_compare_lt_trans _ _ _ E (Ha x Hx)) as E'.
      rewrite Heq in E'. by rewrite (cmp_refl String.compare) in E'. }
    rewrite join_cons. destruct (String.compare a.1 b.1) eqn:E; rewrite elem_of_cons.
    + apply String.compare_eq_iff in E. rewrite H3 by done. clear H1 H2 H3 Hlt Hgt Ha Hb Hl Hk Hl' Hk'.
      destruct pair as [x|y|x y]; simpl; repeat setoid_rewrite elem_of_cons; split.
      * intros [?|[Hx Hy]]; [done|]. split; [by right|]. intros y [->|?]; [|by apply Hy].
        rewrite <- E. intros Heq. by apply (Hna x).
      * intros [[->|Hx] Hy]; [destruct (Hy b); [by left|congruence]|]. right. split; [done|].
        intros y ?. apply Hy. by right.
      * intros [?|[Hy Hx]]; [done|]. split; [by right|]. intros x [->|?]; [|by apply Hx].
        rewrite E. intros Heq. by apply (Hnb y).
      * intros [[->|Hy] Hx]; [destruct (Hx a); [by left|congruence]|]. right. split; [done|].
        intros x ?. apply Hx. by right.
      * intros [[= -> ->]|(Hx & Hy & Heq)]; [split_and!; [by left|by left|done]|].
        split_and!; [by right|by right|done].
      * intros ([->|Hx] & [->|Hy] & Heq); [by left|destruct (Hnb y Hy); congruence|destruct (Hna x Hx); congruence|].
        by right.
    + rewrite H1 by done. specialize (Hlt eq_refl). clear H1 H2 H3 Hgt Ha Hb Hl Hk Hl' Hk' E.
      destruct pair as [x|y|x y]; simpl; repeat setoid_rewrite elem_of_cons;
        repeat setoid_rewrite elem_of_cons in Hlt; naive_solver.
    + rewrite H2 by done. specialize (Hgt eq_refl). clear H1 H2 H3 Hlt Ha Hb Hl Hk Hl' Hk' E.
      destruct pair as [x|y|x y]; simpl; repeat setoid_rewrite elem_of_cons;
        repeat setoid_rewrite elem_of_cons in Hgt; naive_solver.
Qed.
End diff.

Section diff_maps.
Context {V : Type} `{!EqDecision V}.

Abbreviation pairs := (list (EitherOrBoth (string * V) (string * V))).

Definition added_key (pair : EitherOrBoth (string * V) (string * V)) : option string :=
  match pair with RightOnly b => Some b.1 | _ => None end.
Definition removed_key (pair : EitherOrBoth (string * V) (string * V)) : option string :=
  match pair with LeftOnly a => Some a.1 | _ => None end.
Definition changed_key (pair : EitherOrBoth (string * V) (string * V)) : option string :=
  match pair with BothSides a b => if decide (a.2 ≠ b.2) then Some a.1 else None | _ => None end.

Lemma diff_pairs (ps : pairs) diff :
  foldl diff_pair diff ps =
  (diff.1.1 ++ omap added_key ps, diff.1.2 ++ omap removed_key ps, diff.2 ++ omap changed_key ps).
Proof.
  revert diff. induction ps as [|p ps IH]; intros [[added removed] changed].
  - simpl. by rewrite !app_nil_r.
  - cbn [foldl]. rewrite IH. destruct p as [[]|[]|[k old] [k' new]]; csimpl; rewrite <- ?app_assoc; try done.
    simpl. case_decide; simpl; [|done]. by rewrite <- app_assoc.
Qed.

(** Picking keys from a sorted merge keeps them sorted. *)
Lemma omap_keys_sorted (f : EitherOrBoth (string * V) (string * V) → option string) (ps : pairs) :
  (∀ p key, f p = Some key → key = pair_key p) →
  StronglySorted (λ x y, String.compare x y = Lt) (pair_key <$> ps) →
  StronglySorted (λ x y, String.compare x y = Lt) (omap f ps).
Proof.
  intros Hf. induction ps as [|p ps IH]; csimpl; [constructor|]. intros [Hs Hall]%StronglySorted_inv.
  destruct (f p) as [key|] eqn:E; [|by apply IH]. apply Hf in E as ->. constructor; [by apply IH|].
  rewrite Forall_forall in Hall |- *. intros key (q & Hq & Hk%Hf)%list_elem_of_omap. subst key.
  by apply Hall, list_elem_of_fmap_2.
Qed.

Lemma btree_iter_before (m : gmap string V) :
  StronglySorted (λ x y : string * V, String.compare x.1 y.1 = Lt) (btree_iter m).
Proof.
  pose proof (NoDup_btree_keys m) as Hnd. pose proof (btree_iter_sorted m) as Hs.
  unfold btree_keys in Hnd. induction Hs as [|x l Hl IH Hx]; [constructor|].
  csimpl in Hnd. apply NoDup_cons in Hnd as [Hnotin Hnd]. constructor; [by apply IH|].
  rewrite Forall_forall in Hx |- *. intros y Hy. specialize (Hx y Hy). unfold cmp_le in Hx. simpl in Hx.
  destruct (String.compare x.1 y.1) eqn:E; [|done|done]. apply String.compare_eq_iff in E.
  destruct Hnotin. rewrite E. by apply (list_elem_of_fmap_2 fst).
Qed.

Lemma lookup_none_iter (m : gmap string V) k :
  m !! k = None ↔ ∀ y, y ∈ btree_iter m → y.1 ≠ k.
Proof.
  rewrite eq_None_not_Some, <- elem_of_btree_keys. unfold btree_keys. rewrite list_elem_of_fmap.
  split; [intros Hn y Hy <-; apply Hn; by exists y|intros Hn (y & -> & Hy); by apply (Hn y)].
Qed.

(** The three lists, by lookups. *)
Record diff_spec (previous next : gmap string V) (diff : KeyDiff) : Prop := {
  ds_added : ∀ k, k ∈ diff.1.1 ↔ previous !! k = None ∧ is_Some (next !! k);
  ds_removed : ∀ k, k ∈ diff.1.2 ↔ is_Some (previous !! k) ∧ next !! k = None;
  ds_changed : ∀ k, k ∈ diff.2 ↔
    ∃ old new, previous !! k = Some old ∧ next !! k = Some new ∧ old ≠ new;
  ds_added_sorted : StronglySorted (λ x y, String.compare x y = Lt) diff.1.1;
  ds_removed_sorted : StronglySorted (λ x y, String.compare x y = Lt) diff.1.2;
  ds_changed_sorted : StronglySorted (λ x y, String.compare x y = Lt) diff.2;
}.

Lemma diff_maps_lookup (previous next : gmap string V) : diff_spec previous next (diff_maps previous next).
Proof.
  unfold diff_maps. rewrite diff_pairs. cbn [fst snd app].
  pose proof (λ pair, elem_of_join (btree_iter previous) (btree_iter next) pair
    (btree_iter_before previous) (btree_iter_before next)) as Hin.
  pose proof (join_sorted (btree_iter previous) (btree_iter next)
    (btree_iter_before previous) (btree_iter_before next)) as Hs.
  set (ps := merge_join_by _ _ _) in *. split; cbn [fst snd app].
  - intros k. rewrite list_elem_of_omap. split.
    + intros ([|b|] & Hp & [= <-]). apply Hin in Hp as [Hb Hno]. destruct b as [k v].
      apply elem_of_btree_iter in Hb. split; [by apply lookup_none_iter|by exists v].
    + intros [Hno [v Hv]]. exists (RightOnly (k, v)). split; [|done]. apply Hin. simpl.
      split; [by apply elem_of_btree_iter|by apply lookup_none_iter].
  - intros k. rewrite list_elem_of_omap. split.
    + intros ([a| |] & Hp & [= <-]). apply Hin in Hp as [Ha Hno]. destruct a as [k v].
      apply elem_of_btree_iter in Ha. split; [by exists v|by apply lookup_none_iter].
    + intros [[v Hv] Hno]. exists (LeftOnly (k, v)). split; [|done]. apply Hin. simpl.
      split; [by apply elem_of_btree_iter|by apply lookup_none_iter].
  - intros k. rewrite list_elem_of_omap. split.
    + intros ([| |[k1 old] [k2 new]] & Hp & Hk); [done|done|]. apply Hin in Hp as (Ha & Hb & Heq). simpl in *.
      case_decide; [|done]. injection Hk as <-. subst k2. apply elem_of_btree_iter in Ha, Hb. by exists old, new.
    + intros (old & new & Ho & Hn & Hne). exists (BothSides (k, old) (k, new)). split.
      * apply Hin. simpl. by rewrite !elem_of_btree_iter.
      * simpl. by rewrite decide_True.
  - apply omap_keys_sorted; [|done]. by intros [] key [= <-].
  - apply omap_keys_sorted; [|done]. by intros [] key [= <-].
  - apply omap_keys_sorted; [|done]. intros [| |a b] key; [done..|]. simpl. by case_decide; intros [= <-].
Qed.

Lemma diff_maps_nil (previous next : gmap string V) :
  diff_maps previous next = ([], [], []) ↔ previous = next.
Proof.
  pose proof (diff_maps_lookup previous next) as [Ha Hr Hc _ _ _].
  destruct (diff_maps previous next) as [[added removed] changed]. cbn [fst snd] in *. split.
  - intros [= -> -> ->]. apply map_eq. intros k.
    destruct (previous !! k) as [old|] eqn:Eo, (next !! k) as [new|] eqn:En; [|exfalso..|done].
    + destruct (decide (old = new)) as [->|Hne]; [done|]. exfalso.
      apply (not_elem_of_nil k), Hc. by exists old, new.
    + apply (not_elem_of_nil k), Hr. by rewrite Eo, En.
    + apply (not_elem_of_nil k), Ha. by rewrite Eo, En.
  - intros ->. f_equal; [f_equal|].
    + apply elem_of_nil_inv. intros k [Hno Hs]%Ha. rewrite Hno in Hs. by destruct Hs.
    + apply elem_of_nil_inv. intros k [Hs Hno]%Hr. rewrite Hno in Hs. by destruct Hs.
    + apply elem_of_nil_inv. intros k (old & new & Ho & Hn & Hne)%Hc. congruence.
Qed.
End diff_maps.

Lemma existsb_eqb x l : existsb (String.eqb x) l = true ↔ x ∈ l.
Proof.
  rewrite existsb_exists. split.
  - intros (y & Hy & Heq%String.eqb_eq). apply list_elem_of_In in Hy. by subst.
  - intros Hx. exists x. split; [by apply list_elem_of_In|apply String.eqb_refl].
Qed.

Lemma diff_touches {V} `{!EqDecision V} (previous next : gmap string V) k added removed changed :
  diff_maps previous next = (added, removed, changed) →
  k ∈ added ∨ k ∈ removed ∨ k ∈ changed ↔ previous !! k ≠ next !! k.
Proof.
  intros Heq. pose proof (diff_maps_lookup previous next) as [Ha Hr Hc _ _ _].
  rewrite Heq in Ha, Hr, Hc. cbn [fst snd] in *. rewrite Ha, Hr, Hc. unfold is_Some.
  destruct (previous !! k) as [old|], (next !! k) as [new|]; naive_solver.
Qed.

Lemma topology_between_cases previous next :
  let before := default Topology_default previous in
  match topology_between previous next with
  | None => tp_topics before = tp_topics next ∧ tp_groups before = tp_groups next ∧
      tp_brokers before = tp_brokers next ∧ tp_controller before = tp_controller next
  | Some delta =>
      (∀ topic, touches_topic delta topic = true ↔ tp_topics before !! topic ≠ tp_topics next !! topic) ∧
      (∀ group, touches_group delta group = true ↔ tp_groups before !! group ≠ tp_groups next !! group) ∧
      (brokers_changed delta = true ↔
        tp_brokers before ≠ tp_brokers next ∨ tp_controller before ≠ tp_controller next) ∧
      ¬ (tp_topics before = tp_topics next ∧ tp_groups before = tp_groups next ∧
         tp_brokers before = tp_brokers next ∧ tp_controller before = tp_controller next)
  end.
Proof.
  cbv zeta. unfold topology_between. set (before := default Topology_default previous).
  pose proof (diff_maps_nil (tp_topics before) (tp_topics next)) as Ht.
  pose proof (diff_maps_nil (tp_groups before) (tp_groups next)) as Hg.
  pose proof (λ k a r c, diff_touches (tp_topics before) (tp_topics next) k a r c) as Htt.
  pose proof (λ k a r c, diff_touches (tp_groups before) (tp_groups next) k a r c) as Hgt.
  destruct (diff_maps (tp_topics before) (tp_topics next)) as [[at_ rt] ct].
  destruct (diff_maps (tp_groups before) (tp_groups next)) as [[ag rg] cg].
  set (delta := {| added_topics := at_; removed_topics := rt; changed_topics := ct;
    added_groups := ag; removed_groups := rg; changed_groups := cg;
    brokers_changed := bool_decide (tp_brokers before ≠ tp_brokers next) ||
      bool_decide (tp_controller before ≠ tp_controller next) |}).
  assert (delta_is_empty delta = true ↔ (at_, rt, ct) = ([], [], []) ∧ (ag, rg, cg) = ([], [], []) ∧
    tp_brokers before = tp_brokers next ∧ tp_controller before = tp_controller next) as Hempty.
  { unfold delta_is_empty. simpl. rewrite !andb_true_iff, !bool_decide_eq_true, negb_true_iff, orb_false_iff,
      !bool_decide_eq_false. split; [|naive_solver].
    intros [[[[[[[Hb Hc] ->] ->] ->] ->] ->] ->]. split_and!; [done|done|by apply dec_stable..]. }
  rewrite Ht, Hg in Hempty. destruct (delta_is_empty delta); simpl; [by apply Hempty|].
  split_and!.
  - intros topic. unfold touches_topic. simpl. rewrite !orb_true_iff, !existsb_eqb, <- (Htt topic _ _ _ eq_refl). tauto.
  - intros group. unfold touches_group. simpl. rewrite !orb_true_iff, !existsb_eqb, <- (Hgt group _ _ _ eq_refl). tauto.
  - by rewrite orb_true_iff, !bool_decide_eq_true.
  - intros He. by apply Hempty in He.
Qed.

(** The keys a table gained or changed, then the ones it lost: the keys that differ. *)
Lemma elem_of_moved {A} `{!EqDecision A} (previous next : gmap string A) k :
  k ∈ omap (λ entry : string * A, if decide (previous !! entry.1 ≠ Some entry.2) then Some entry.1 else None)
        (map_to_list next) ++
      omap (λ entry : string * A, if decide (next !! entry.1 = None) then Some entry.1 else None)
        (map_to_list previous) ↔ previous !! k ≠ next !! k.
Proof.
  rewrite elem_of_app, !list_elem_of_omap. split.
  - intros [([k' v] & Hkv%elem_of_map_to_list & Hk)|([k' v] & Hkv%elem_of_map_to_list & Hk)]; simpl in Hk;
      case_decide; simplify_eq; congruence.
  - intros Hne. destruct (next !! k) as [v|] eqn:En.
    + left. exists (k, v). split; [by apply elem_of_map_to_list|]. simpl. by rewrite decide_True.
    + right. destruct (previous !! k) as [v|] eqn:Ep; [|done]. exists (k, v).
      split; [by apply elem_of_map_to_list|]. simpl. by rewrite decide_True.
Qed.

Lemma configs_between_cases previous next topic :
  match configs_between previous next with
  | None => (t ← previous; ct_topics t !! topic) = ct_topics next !! topic
  | Some delta => topic ∈ cd_topics delta ↔ (t ← previous; ct_topics t !! topic) ≠ ct_topics next !! topic
  end.
Proof.
  unfold configs_between. set (topics := match previous with Some _ => _ | None => _ end).
  assert (topic ∈ topics ↔ (t ← previous; ct_topics t !! topic) ≠ ct_topics next !! topic) as Hin.
  { unfold topics. destruct previous as [previous|]; simpl; [apply elem_of_moved|].
    rewrite list_elem_of_fmap. split.
    - intros ([k v] & -> & Hkv%elem_of_map_to_list). simpl. by rewrite Hkv.
    - intros Hne. destruct (ct_topics next !! topic) as [v|] eqn:En; [|done]. exists (topic, v).
      split; [done|]. by apply elem_of_map_to_list. }
  clearbody topics. destruct (negb _) eqn:E; simpl.
  - by rewrite elem_of_dedup, elem_of_sort_by.
  - apply negb_false_iff, bool_decide_eq_true in E. apply dec_stable. intros Hne. apply Hin in Hne.
    rewrite <- (elem_of_sort_by String.compare), <- elem_of_dedup, E in Hne. by apply not_elem_of_nil in Hne.
Qed.

Lemma log_dirs_between_cases previous next topic :
  let before := default LogDirTable_default previous in
  match log_dirs_between previous next with
  | None => ldt_partitions before !! topic = ldt_partitions next !! topic ∧ ldt_brokers before = ldt_brokers next
  | Some delta =>
      (log_dirs_touches_topic delta topic = true ↔ ldt_partitions before !! topic ≠ ldt_partitions next !! topic) ∧
      (lgd_brokers_changed delta = true ↔ ldt_brokers before ≠ ldt_brokers next)
  end.
Proof.
  cbv zeta. unfold log_dirs_between, log_dirs_touches_topic. set (before := default _ previous).
  pose proof (elem_of_moved (ldt_partitions before) (ldt_partitions next) topic) as Hin.
  set (moved := _ ++ _) in *. clearbody moved. rewrite <- (elem_of_sort_by String.compare) in Hin.
  destruct (_ || _) eqn:E; simpl; [by rewrite existsb_eqb, bool_decide_eq_true|].
  apply orb_false_iff in E as [Hb%bool_decide_eq_false Ht%negb_false_iff].
  apply bool_decide_eq_true in Ht. rewrite Ht in Hin. split; apply dec_stable; [|done].
  intros Hne. by apply Hin, not_elem_of_nil in Hne.
Qed.

Lemma subjects_of_cases {V} `{!EqDecision V} (previous : option (gmap string V)) (next : gmap string V) k :
  match subjects_of previous next with
  | None => (t ← previous; t !! k) = next !! k
  | Some delta => k ∈ sd_added delta ∨ k ∈ sd_removed delta ∨ k ∈ sd_changed delta ↔
      (t ← previous; t !! k) ≠ next !! k
  end.
Proof.
  unfold subjects_of.
  assert ((t ← previous; t !! k) = default ∅ previous !! k) as -> by (by destruct previous).
  pose proof (diff_maps_nil (default ∅ previous) next) as Hnil.
  pose proof (λ a r c, diff_touches (default ∅ previous) next k a r c) as Ht.
  destruct (diff_maps _ next) as [[a r] c]. destruct (_ || _) eqn:E; [by apply Ht|].
  apply orb_false_iff in E as [[Ha Hr]%orb_false_iff Hc].
  apply negb_false_iff, bool_decide_eq_true in Ha, Hr, Hc. subst. by rewrite (proj1 Hnil eq_refl).
Qed.

(** ** Properties *)

(** A merge of two maps tells, in key order and once each, exactly the keys that only
    the new one has, that only the old one had, and whose value changed. *)
Theorem diff_maps_spec {V} `{!EqDecision V} (previous next : gmap string V) :
  diff_spec previous next (diff_maps previous next).
Proof. apply diff_maps_lookup. Qed.

(** The bus tells of a new topology exactly when its topics, groups, brokers or
    controller differ from the last one, and the change touches exactly the topics and
    groups that differ. *)
Theorem topology_between_spec previous next :
  let before := default Topology_default previous in
  match topology_between previous next with
  | None => tp_topics before = tp_topics next ∧ tp_groups before = tp_groups next ∧
      tp_brokers before = tp_brokers next ∧ tp_controller before = tp_controller next
  | Some delta =>
      (∀ topic, touches_topic delta topic = true ↔ tp_topics before !! topic ≠ tp_topics next !! topic) ∧
      (∀ group, touches_group delta group = true ↔ tp_groups before !! group ≠ tp_groups next !! group) ∧
      (brokers_changed delta = true ↔
        tp_brokers before ≠ tp_brokers next ∨ tp_controller before ≠ tp_controller next) ∧
      ¬ (tp_topics before = tp_topics next ∧ tp_groups before = tp_groups next ∧
         tp_brokers before = tp_brokers next ∧ tp_controller before = tp_controller next)
  end.
Proof. apply topology_between_cases. Qed.
