(* ===== verification/Acl.v ===== *)
(** [src/kafka/acl.rs]: ACLs as klens shows and writes them, and krafka's forms of them.

    krafka's enums are open; a value the source does not name is the [Other] one. *)

From S2P Require Import Prelude Text Errors.

Inductive AclResourceType : Set := TopicResource | GroupResource | ClusterResource | TransactionalId | DelegationToken.
Inductive AclPatternType : Set := Literal | Prefixed.
Inductive AclOperation : Set :=
  | AllOps | ReadOp | WriteOp | CreateOp | DeleteOp | AlterOp | DescribeOp
  | ClusterAction | DescribeConfigs | AlterConfigs | IdempotentWrite.
Inductive AclPermission : Set := Allow | Deny.

Record Acl : Set := {
  acl_resource_type : AclResourceType;
  acl_resource_name : string;
  acl_pattern_type : AclPatternType;
  acl_principal : string;
  acl_host : string;
  acl_operation : AclOperation;
  acl_permission : AclPermission;
}.

#[export] Instance AclResourceType_eq_dec : EqDecision AclResourceType.
Proof. solve_decision. Defined.
#[export] Instance AclPatternType_eq_dec : EqDecision AclPatternType.
Proof. solve_decision. Defined.
#[export] Instance AclOperation_eq_dec : EqDecision AclOperation.
Proof. solve_decision. Defined.
#[export] Instance AclPermission_eq_dec : EqDecision AclPermission.
Proof. solve_decision. Defined.
#[export] Instance Acl_eq_dec : EqDecision Acl.
Proof. solve_decision. Defined.

Inductive AclListing : Set := AclsEnabled (acls : list Acl) | AclsDisabled | AclsDenied.

#[export] Instance AclListing_eq_dec : EqDecision AclListing.
Proof. solve_decision. Defined.

(** ** krafka's forms *)

Inductive WireResource : Set :=
  | WTopic | WGroup | WCluster | WTransactionalId | WDelegationToken | WOtherResource (code : Z).
Inductive WirePattern : Set := WPrefixed | WUnknownPattern | WOtherPattern (code : Z).
Inductive WireOperation : Set :=
  | WAll | WRead | WWrite | WCreate | WDelete | WAlter | WDescribe
  | WClusterAction | WDescribeConfigs | WAlterConfigs | WIdempotentWrite | WOtherOperation (code : Z).
Inductive WirePermission : Set := WAllow | WDeny | WOtherPermission (code : Z).

Record AclBinding : Set := {
  ab_resource_type : WireResource;
  ab_resource_name : string;
  ab_pattern_type : WirePattern;
  ab_principal : string;
  ab_host : string;
  ab_operation : WireOperation;
  ab_permission_type : WirePermission;
}.

(** The filter [to_krafka_filter] builds: every field given. *)
Record AclFilter : Set := {
  af_resource_type : WireResource;
  af_resource_name : string;
  af_pattern_type : WirePattern;
  af_principal : string;
  af_host : string;
  af_operation : WireOperation;
  af_permission_type : WirePermission;
}.

Record SentinelAcl : Set := { sentinel_field : string }.

Definition resource_of_wire (value : WireResource) : result SentinelAcl AclResourceType :=
  match value with
  | WTopic => Ok TopicResource
  | WGroup => Ok GroupResource
  | WCluster => Ok ClusterResource
  | WTransactionalId => Ok TransactionalId
  | WDelegationToken => Ok DelegationToken
  | WOtherResource _ => Err {| sentinel_field := "resource_type" |}
  end.

(** krafka numbers pattern types one below Kafka. *)
Definition pattern_of_wire (value : WirePattern) : result SentinelAcl AclPatternType :=
  match value with
  | WPrefixed => Ok Literal
  | WUnknownPattern => Ok Prefixed
  | WOtherPattern _ => Err {| sentinel_field := "pattern_type" |}
  end.

Definition operation_of_wire (value : WireOperation) : result SentinelAcl AclOperation :=
  match value with
  | WAll => Ok AllOps
  | WRead => Ok ReadOp
  | WWrite => Ok WriteOp
  | WCreate => Ok CreateOp
  | WDelete => Ok DeleteOp
  | WAlter => Ok AlterOp
  | WDescribe => Ok DescribeOp
  | WClusterAction => Ok ClusterAction
  | WDescribeConfigs => Ok DescribeConfigs
  | WAlterConfigs => Ok AlterConfigs
  | WIdempotentWrite => Ok IdempotentWrite
  | WOtherOperation _ => Err {| sentinel_field := "operation" |}
  end.

Definition permission_of_wire (value : WirePermission) : result SentinelAcl AclPermission :=
  match value with
  | WAllow => Ok Allow
  | WDeny => Ok Deny
  | WOtherPermission _ => Err {| sentinel_field := "permission" |}
  end.

Definition acl_of_binding (binding : AclBinding) : result SentinelAcl Acl :=
  resource_type ← resource_of_wire (ab_resource_type binding);
  pattern_type ← pattern_of_wire (ab_pattern_type binding);
  operation ← operation_of_wire (ab_operation binding);
  permission ← permission_of_wire (ab_permission_type binding);
  Ok {| acl_resource_type := resource_type;
        acl_resource_name := ab_resource_name binding;
        acl_pattern_type := pattern_type;
        acl_principal := ab_principal binding;
        acl_host := ab_host binding;
        acl_operation := operation;
        acl_permission := permission |}.

Definition wire_resource (value : AclResourceType) : WireResource :=
  match value with
  | TopicResource => WTopic
  | GroupResource => WGroup
  | ClusterResource => WCluster
  | TransactionalId => WTransactionalId
  | DelegationToken => WDelegationToken
  end.

Definition pattern_to_krafka (value : AclPatternType) : result KafkaError WirePattern :=
  match value with Literal => Ok WPrefixed | Prefixed => Err PrefixedAcl end.

Definition wire_operation (value : AclOperation) : WireOperation :=
  match value with
  | AllOps => WAll
  | ReadOp => WRead
  | WriteOp => WWrite
  | CreateOp => WCreate
  | DeleteOp => WDelete
  | AlterOp => WAlter
  | DescribeOp => WDescribe
  | ClusterAction => WClusterAction
  | DescribeConfigs => WDescribeConfigs
  | AlterConfigs => WAlterConfigs
  | IdempotentWrite => WIdempotentWrite
  end.

Definition wire_permission (value : AclPermission) : WirePermission :=
  match value with Allow => WAllow | Deny => WDeny end.

Definition acl_to_krafka (acl : Acl) : result KafkaError AclBinding :=
  pattern_type ← pattern_to_krafka (acl_pattern_type acl);
  Ok {| ab_resource_type := wire_resource (acl_resource_type acl);
        ab_resource_name := acl_resource_name acl;
        ab_pattern_type := pattern_type;
        ab_principal := acl_principal acl;
        ab_host := acl_host acl;
        ab_operation := wire_operation (acl_operation acl);
        ab_permission_type := wire_permission (acl_permission acl) |}.

Definition acl_to_krafka_filter (acl : Acl) : result KafkaError AclFilter :=
  pattern_type ← pattern_to_krafka (acl_pattern_type acl);
  Ok {| af_resource_type := wire_resource (acl_resource_type acl);
        af_resource_name := acl_resource_name acl;
        af_pattern_type := pattern_type;
        af_principal := acl_principal acl;
        af_host := acl_host acl;
        af_operation := wire_operation (acl_operation acl);
        af_permission_type := wire_permission (acl_permission acl) |}.

(** ** Listings *)

Definition listing_contains (listing : AclListing) (acl : Acl) : bool :=
  match listing with AclsEnabled rows => bool_decide (acl ∈ rows) | _ => false end.

Definition acls_from_krafka_error (error : KrafkaError) : result KafkaError AclListing :=
  match error with
  | Broker SecurityDisabled _ => Ok AclsDisabled
  | Broker ClusterAuthorizationFailed _ => Ok AclsDenied
  | other => Err (Krafka other)
  end.

Definition acls_from_describe (bindings : list AclBinding) : AclListing :=
  AclsEnabled (omap (λ binding, result_ok (acl_of_binding binding)) bindings).

Definition acls_from_admin_result (r : result KrafkaError (list AclBinding))
    : result KafkaError AclListing :=
  match r with
  | Err error => acls_from_krafka_error error
  | Ok bindings => Ok (acls_from_describe bindings)
  end.

(** ** Properties *)

(** What a filter matches: the binding of the same fields. *)
Definition filter_matches (f : AclFilter) (b : AclBinding) : Prop :=
  af_resource_type f = ab_resource_type b ∧ af_resource_name f = ab_resource_name b ∧
  af_pattern_type f = ab_pattern_type b ∧ af_principal f = ab_principal b ∧ af_host f = ab_host b ∧
  af_operation f = ab_operation b ∧ af_permission_type f = ab_permission_type b.

(** A literal ACL survives the trip to krafka and back, and the filter that deletes it
    matches its binding and no other ACL klens would list; a prefixed one is refused, never
    written as something else. *)
Theorem acl_roundtrip acl :
  match acl_to_krafka acl with
  | Ok binding => acl_pattern_type acl = Literal ∧ acl_of_binding binding = Ok acl ∧
      ∃ f, acl_to_krafka_filter acl = Ok f ∧ filter_matches f binding ∧
        ∀ other, filter_matches f other → acl_of_binding other = Ok acl
  | Err error => acl_pattern_type acl = Prefixed ∧ error = PrefixedAcl ∧
      acl_to_krafka_filter acl = Err PrefixedAcl
  end.
Proof.
  destruct acl as [rt name pt principal host op perm]. unfold acl_to_krafka, acl_to_krafka_filter. simpl.
  destruct pt; simpl; [|done].
  assert (∀ other : AclBinding,
    filter_matches {| af_resource_type := wire_resource rt; af_resource_name := name; af_pattern_type := WPrefixed;
      af_principal := principal; af_host := host; af_operation := wire_operation op;
      af_permission_type := wire_permission perm |} other →
    acl_of_binding other = Ok {| acl_resource_type := rt; acl_resource_name := name; acl_pattern_type := Literal;
      acl_principal := principal; acl_host := host; acl_operation := op; acl_permission := perm |}) as Hall.
  { intros [rt' name' pt' principal' host' op' perm'] (Hr & Hn & Hp & Hpr & Hh & Ho & Hpe). simpl in *.
    unfold acl_of_binding. simpl. rewrite <- Hr, <- Hn, <- Hp, <- Hpr, <- Hh, <- Ho, <- Hpe.
    by destruct rt, op, perm. }
  split; [done|]. split; [by apply Hall|]. eexists. split; [done|]. by split.
Qed.

(** A described listing has the rows klens can show, in the order Kafka gave them, and
    drops only those with a field it does not know; ACLs switched off and ACLs klens may
    not read are states of the listing, and any other failure is an error. *)
Theorem acls_from_admin_result_spec r :
  match acls_from_admin_result r with
  | Ok (AclsEnabled rows) => ∃ bindings, r = Ok bindings ∧
      rows = omap (λ b, result_ok (acl_of_binding b)) bindings ∧
      ∀ acl, listing_contains (AclsEnabled rows) acl = true ↔
        ∃ b, b ∈ bindings ∧ acl_of_binding b = Ok acl
  | Ok AclsDisabled => ∃ message, r = Err (Broker SecurityDisabled message)
  | Ok AclsDenied => ∃ message, r = Err (Broker ClusterAuthorizationFailed message)
  | Err e => ∃ error, r = Err error ∧ e = Krafka error ∧
      (∀ message, error ≠ Broker SecurityDisabled message) ∧
      ∀ message, error ≠ Broker ClusterAuthorizationFailed message
  end.
Proof.
  destruct r as [bindings|error]; simpl.
  - exists bindings. split; [done|]. split; [done|]. intros acl. rewrite bool_decide_eq_true, list_elem_of_omap.
    split.
    + intros (b & Hb & Hok). exists b. split; [done|]. destruct (acl_of_binding b); [|done]. by injection Hok as ->.
    + intros (b & Hb & Hok). exists b. by rewrite Hok.
  - destruct error as [[] message|message]; simpl; eauto; eexists; split_and!; done.
Qed.
