(* ===== verification/Quota.v ===== *)
(** [src/kafka/quota.rs] and [src/kafka/scram.rs]: client quotas and SCRAM credentials as
    klens lists them. Salting a new password is cryptography klens calls. *)

From Stdlib Require Import SpecFloat.
From S2P Require Import Prelude Text.

(** ** Quotas *)

Inductive QuotaEntityType : Set := UserEntity | ClientIdEntity | IpEntity.

#[export] Instance QuotaEntityType_eq_dec : EqDecision QuotaEntityType.
Proof. solve_decision. Defined.

Definition quota_wire (t : QuotaEntityType) : string :=
  match t with UserEntity => "user" | ClientIdEntity => "client-id" | IpEntity => "ip" end.

Definition parse_entity_type (text : string) : option QuotaEntityType :=
  if String.eqb text "user" then Some UserEntity
  else if String.eqb text "client-id" then Some ClientIdEntity
  else if String.eqb text "ip" then Some IpEntity
  else None.

(** The derived order is the order of declaration. *)
Definition entity_rank (t : QuotaEntityType) : Z :=
  match t with UserEntity => 0 | ClientIdEntity => 1 | IpEntity => 2 end%Z.

Record QuotaEntity : Set := { qe_entity_type : QuotaEntityType; qe_name : option string }.

#[export] Instance QuotaEntity_eq_dec : EqDecision QuotaEntity.
Proof. solve_decision. Defined.

Record QuotaValues : Set := {
  producer_byte_rate : option spec_float;
  consumer_byte_rate : option spec_float;
  request_percentage : option spec_float;
  controller_mutation_rate : option spec_float;
  connection_creation_rate : option spec_float;
}.

Definition QuotaValues_default : QuotaValues :=
  {| producer_byte_rate := None; consumer_byte_rate := None; request_percentage := None;
     controller_mutation_rate := None; connection_creation_rate := None |}.

Definition quota_set (q : QuotaValues) (key : string) (value : spec_float) : QuotaValues :=
  if String.eqb key "producer_byte_rate" then
    {| producer_byte_rate := Some value; consumer_byte_rate := consumer_byte_rate q;
       request_percentage := request_percentage q; controller_mutation_rate := controller_mutation_rate q;
       connection_creation_rate := connection_creation_rate q |}
  else if String.eqb key "consumer_byte_rate" then
    {| producer_byte_rate := producer_byte_rate q; consumer_byte_rate := Some value;
       request_percentage := request_percentage q; controller_mutation_rate := controller_mutation_rate q;
       connection_creation_rate := connection_creation_rate q |}
  else if String.eqb key "request_percentage" then
    {| producer_byte_rate := producer_byte_rate q; consumer_byte_rate := consumer_byte_rate q;
       request_percentage := Some value; controller_mutation_rate := controller_mutation_rate q;
       connection_creation_rate := connection_creation_rate q |}
  else if String.eqb key "controller_mutation_rate" then
    {| producer_byte_rate := producer_byte_rate q; consumer_byte_rate := consumer_byte_rate q;
       request_percentage := request_percentage q; controller_mutation_rate := Some value;
       connection_creation_rate := connection_creation_rate q |}
  else if String.eqb key "connection_creation_rate" then
    {| producer_byte_rate := producer_byte_rate q; consumer_byte_rate := consumer_byte_rate q;
       request_percentage := request_percentage q; controller_mutation_rate := controller_mutation_rate q;
       connection_creation_rate := Some value |}
  else q.

Definition quota_entries (q : QuotaValues) : list (string * option spec_float) :=
  [("producer_byte_rate", producer_byte_rate q);
   ("consumer_byte_rate", consumer_byte_rate q);
   ("request_percentage", request_percentage q);
   ("controller_mutation_rate", controller_mutation_rate q);
   ("connection_creation_rate", connection_creation_rate q)].

(** [PartialEq] of quota values: equal numbers, and a NaN equals nothing. *)
Definition quota_eqb (a b : option spec_float) : bool :=
  match a, b with Some a, Some b => SFeqb a b | None, None => true | _, _ => false end.

Definition quota_values_eqb (a b : QuotaValues) : bool :=
  forallb (λ pair, quota_eqb pair.1.2 pair.2.2) (zip (quota_entries a) (quota_entries b)).

Record ClientQuota : Set := { cq_entity : list QuotaEntity; cq_values : QuotaValues }.

Inductive QuotaListing : Set := QuotasDescribed (quotas : list ClientQuota) | QuotasDenied.

Definition client_quota_eqb (a b : ClientQuota) : bool :=
  bool_decide (cq_entity a = cq_entity b) && quota_values_eqb (cq_values a) (cq_values b).

(** [PartialEq] of listings: as many quotas, equal in order. *)
Definition quota_listing_eqb (a b : QuotaListing) : bool :=
  match a, b with
  | QuotasDescribed a, QuotasDescribed b =>
      bool_decide (length a = length b) && forallb (λ pair, client_quota_eqb pair.1 pair.2) (zip a b)
  | QuotasDenied, QuotasDenied => true
  | _, _ => false
  end.

Record DescribedQuota : Set := {
  dq_entity : list (string * option string);
  dq_values : list (string * spec_float);
}.

Definition quota_values (listing : QuotaListing) (entity : list QuotaEntity) : option QuotaValues :=
  match listing with
  | QuotasDescribed quotas =>
      cq_values <$> List.find (λ quota, bool_decide (cq_entity quota = entity)) quotas
  | QuotasDenied => None
  end.

Definition entity_cmp (a b : QuotaEntity) : comparison :=
  Z.compare (entity_rank (qe_entity_type a)) (entity_rank (qe_entity_type b)).

Definition quota_from_described (described : DescribedQuota) : option ClientQuota :=
  entity ← mapM (λ part : string * option string,
    entity_type ← parse_entity_type part.1;
    Some {| qe_entity_type := entity_type; qe_name := part.2 |}) (dq_entity described);
  Some {| cq_entity := sort_by entity_cmp entity;
          cq_values := foldl (λ values kv, quota_set values kv.1 kv.2) QuotaValues_default
            (dq_values described) |}.

Definition quotas_from_describe (entries : list DescribedQuota) : QuotaListing :=
  QuotasDescribed (omap quota_from_described entries).

(** ** SCRAM credentials *)

(** The iteration counts Kafka accepts for a credential. *)
Definition ITERATIONS : Z * Z := (4096%Z, 16384%Z).

Inductive ScramMechanism : Set := Sha256 | Sha512.

#[export] Instance ScramMechanism_eq_dec : EqDecision ScramMechanism.
Proof. solve_decision. Defined.

(** krafka's mechanisms; its enum is open. *)
Inductive WireMechanism : Set := WSha256 | WSha512 | WOtherMechanism (code : Z).

Definition mechanism_wire (m : ScramMechanism) : WireMechanism :=
  match m with Sha256 => WSha256 | Sha512 => WSha512 end.

Definition mechanism_from_wire (m : WireMechanism) : option ScramMechanism :=
  match m with WSha256 => Some Sha256 | WSha512 => Some Sha512 | WOtherMechanism _ => None end.

Definition mechanism_rank (m : ScramMechanism) : Z := match m with Sha256 => 0 | Sha512 => 1 end%Z.

Record ScramCredential : Set := { sc_mechanism : ScramMechanism; sc_iterations : Z }.

Record ScramUser : Set := { su_name : string; su_credentials : list ScramCredential }.

Inductive ScramListing : Set := ScramDescribed (users : list ScramUser) | ScramDenied.

#[export] Instance ScramCredential_eq_dec : EqDecision ScramCredential.
Proof. solve_decision. Defined.
#[export] Instance ScramUser_eq_dec : EqDecision ScramUser.
Proof. solve_decision. Defined.
#[export] Instance ScramListing_eq_dec : EqDecision ScramListing.
Proof. solve_decision. Defined.

Record DescribedUser : Set := { du_name : string; du_credentials : list (WireMechanism * Z) }.

Definition credential_cmp (a b : ScramCredential) : comparison :=
  Z.compare (mechanism_rank (sc_mechanism a)) (mechanism_rank (sc_mechanism b)).

Definition scram_user (described : DescribedUser) : ScramUser :=
  {| su_name := du_name described;
     su_credentials := sort_by credential_cmp
       (omap (λ credential : WireMechanism * Z,
          mechanism ← mechanism_from_wire credential.1;
          Some {| sc_mechanism := mechanism; sc_iterations := credential.2 |})
        (du_credentials described)) |}.

Definition user_cmp (a b : ScramUser) : comparison := String.compare (su_name a) (su_name b).

Definition scram_from_describe (users : list DescribedUser) : ScramListing :=
  ScramDescribed (sort_by user_cmp (scram_user <$> users)).

Definition iterations (listing : ScramListing) (user : string) (mechanism : ScramMechanism) : option Z :=
  match listing with
  | ScramDenied => None
  | ScramDescribed users =>
      described ← List.find (λ described, String.eqb (su_name described) user) users;
      sc_iterations <$> List.find (λ credential, bool_decide (sc_mechanism credential = mechanism))
        (su_credentials described)
  end.

(** ** Properties *)

#[export] Instance user_cmp_order : OrderCmp user_cmp.
Proof. apply (cmp_on_order su_name String.compare), _. Qed.

Lemma find_unique {A} (p : A → bool) l x :
  (∀ y, y ∈ l → p y = true → y = x) → x ∈ l → p x = true → List.find p l = Some x.
Proof.
  intros Hun Hx Hp. destruct (List.find p l) as [y|] eqn:E.
  - apply find_some in E as [Hy Hpy]. f_equal. apply Hun; [by apply list_elem_of_In|done].
  - apply list_elem_of_In in Hx. by rewrite (find_none _ _ E x Hx) in Hp.
Qed.

Lemma distinct_keys {A B} (f : A → B) l x y :
  NoDup (f <$> l) → x ∈ l → y ∈ l → f x = f y → x = y.
Proof.
  intros Hnd (i & Hi)%list_elem_of_lookup (j & Hj)%list_elem_of_lookup Heq.
  assert (i = j) as ->; [|congruence].
  apply (NoDup_lookup _ i j (f x) Hnd); rewrite list_lookup_fmap, ?Hi, ?Hj; simpl; congruence.
Qed.

(** The listing answers for a user's credential what Kafka described: with each user
    described once, and each mechanism once per user, a described count is the one found,
    and nothing else is. *)
Theorem iterations_spec users user mechanism n :
  NoDup (du_name <$> users) →
  (∀ u, u ∈ users → NoDup (du_credentials u).*1) →
  iterations (scram_from_describe users) user mechanism = Some n ↔
  ∃ u, u ∈ users ∧ du_name u = user ∧ (mechanism_wire mechanism, n) ∈ du_credentials u.
Proof.
  intros Hnd Hcred. unfold iterations, scram_from_describe.
  assert (∀ u, u ∈ users → List.find (λ d, String.eqb (su_name d) (du_name u))
    (sort_by user_cmp (scram_user <$> users)) = Some (scram_user u)) as Hfind.
  { intros u Hu. apply find_unique.
    - intros d Hd Heq%String.eqb_eq. rewrite elem_of_sort_by in Hd.
      apply list_elem_of_fmap in Hd as (u' & -> & Hu'). simpl in Heq. f_equal.
      by apply (distinct_keys du_name users).
    - rewrite elem_of_sort_by. by apply list_elem_of_fmap_2.
    - apply String.eqb_refl. }
  assert (∀ u, u ∈ users → (sc_iterations <$> List.find (λ c, bool_decide (sc_mechanism c = mechanism))
    (su_credentials (scram_user u))) = Some n ↔ (mechanism_wire mechanism, n) ∈ du_credentials u) as Hcreds.
  { intros u Hu. simpl. specialize (Hcred u Hu). split.
    - destruct (List.find _ _) as [c|] eqn:E; [|done]. intros [= <-].
      apply find_some in E as [Hc%list_elem_of_In Hm%bool_decide_eq_true].
      rewrite elem_of_sort_by in Hc. apply list_elem_of_omap in Hc as ([w i] & Hin & Hw).
      destruct w; simpl in Hw; [..|done]; injection Hw as <-; simpl in *; by subst mechanism.
    - intros Hin. rewrite (find_unique _ _ {| sc_mechanism := mechanism; sc_iterations := n |}); [done| | |].
      + intros c Hc Hm%bool_decide_eq_true. rewrite elem_of_sort_by in Hc.
        apply list_elem_of_omap in Hc as ([w i] & Hin' & Hw).
        assert (w = mechanism_wire mechanism ∧ c = {| sc_mechanism := mechanism; sc_iterations := i |}) as [-> ->].
        { destruct w; simpl in Hw; [..|done]; injection Hw as <-; simpl in *; by subst mechanism. }
        f_equal. by apply (functional_pairs_NoDup _ Hcred (mechanism_wire mechanism)).
      + rewrite elem_of_sort_by. apply list_elem_of_omap. exists (mechanism_wire mechanism, n).
        split; [done|]. by destruct mechanism.
      + by apply bool_decide_eq_true. }
  split.
  - destruct (List.find _ _) as [d|] eqn:E; [|done]. cbn [mbind option_bind]. intros Hn.
    apply find_some in E as [Hd%list_elem_of_In Heq%String.eqb_eq].
    rewrite elem_of_sort_by in Hd. apply list_elem_of_fmap in Hd as (u & -> & Hu).
    exists u. split; [done|]. split; [done|]. by apply Hcreds.
  - intros (u & Hu & <- & Hin). rewrite (Hfind u Hu). cbn [mbind option_bind]. by apply Hcreds.
Qed.

(** ** Witnesses *)

Definition sample_user : DescribedUser :=
  {| du_name := "alice"; du_credentials := [(WSha512, 8192%Z); (WSha256, 4096%Z)] |}.

Lemma iterations_spec_witness :
  iterations (scram_from_describe [sample_user]) "alice" Sha256 = Some 4096%Z.
Proof.
  apply (iterations_spec [sample_user]).
  - apply NoDup_singleton.
  - intros u ->%list_elem_of_singleton. apply NoDup_cons_2; [by intros ?%list_elem_of_singleton|].
    apply NoDup_singleton.
  - exists sample_user. split; [by left|]. split; [reflexivity|]. right. by left.
Defined.
