(* ===== verification/Access.v ===== *)
(** [src/app/auth/access.rs], with the roles of [src/config/auth.rs], the privileges of
    [src/config/mcp.rs] and the gates of [src/app/mcp/gate.rs]: who may do what where. *)

From S2P Require Import Prelude Text Payload.

(** ** Privileges *)

Inductive Privilege : Set :=
  | PRecords | PTopicConfigs | PBrokerConfigs | PSchemaText | PAcls
  | PCreateTopics | PDeleteTopics | PAlterTopicConfigs | PAddPartitions | PDeleteRecords
  | PProduce | PResetOffsets | PDeleteOffsets | PDeleteGroups | PRegisterSchemas
  | PSetCompatibility | PDeleteSchemas | PCreateAcls | PDeleteAcls | PAlterQuotas
  | PSetScramCredentials | PDeleteScramCredentials | PAlterBrokerConfigs.

#[export] Instance Privilege_eq_dec : EqDecision Privilege.
Proof. solve_decision. Defined.

(** Every privilege, in order of declaration. *)
Definition all_privileges : list Privilege :=
  [PRecords; PTopicConfigs; PBrokerConfigs; PSchemaText; PAcls;
   PCreateTopics; PDeleteTopics; PAlterTopicConfigs; PAddPartitions; PDeleteRecords;
   PProduce; PResetOffsets; PDeleteOffsets; PDeleteGroups; PRegisterSchemas;
   PSetCompatibility; PDeleteSchemas; PCreateAcls; PDeleteAcls; PAlterQuotas;
   PSetScramCredentials; PDeleteScramCredentials; PAlterBrokerConfigs].

Lemma all_privileges_all p : p ∈ all_privileges.
Proof. apply (bool_decide_unpack _). by destruct p. Qed.

Lemma all_privileges_NoDup : NoDup all_privileges.
Proof. apply (bool_decide_unpack _). vm_compute. exact I. Qed.

#[export] Instance Privilege_finite_countable : Countable Privilege.
Proof.
  refine {| encode p := Pos.of_succ_nat (default 0 (fst <$> list_find (p =.) all_privileges));
            decode n := all_privileges !! Nat.pred (Pos.to_nat n) |}.
  by intros [].
Defined.

(** An [EnumSet]. *)
Definition PrivilegeSet : Type := gset Privilege.

(** The five reads MCP holds when the config names none. *)
Definition READS : list Privilege := [PRecords; PTopicConfigs; PBrokerConfigs; PSchemaText; PAcls].
Definition WRITES : list Privilege := [PCreateTopics; PProduce; PRegisterSchemas].

(** ** Roles *)

Record Binding : Set := { bd_groups : list string; bd_clusters : option (list string) }.
Record Role : Set := { role_privileges : list Privilege; role_bindings : list Binding }.

Inductive ClusterScope : Type := AllClusters | Only (names : gset string).

#[export] Instance ClusterScope_eq_dec : EqDecision ClusterScope.
Proof. solve_decision. Defined.

Definition scope_contains (scope : ClusterScope) (cluster : string) : bool :=
  match scope with AllClusters => true | Only names => bool_decide (cluster ∈ names) end.

Definition scope_from_list (clusters : option (list string)) : ClusterScope :=
  match clusters with None => AllClusters | Some names => Only (list_to_set names) end.

Record Grant : Type := {
  gt_role_name : string;
  gt_privileges : PrivilegeSet;
  gt_scope : ClusterScope;
}.

#[export] Instance Grant_eq_dec : EqDecision Grant.
Proof. solve_decision. Defined.

Definition grant_new (role_name : string) (privileges : list Privilege) (clusters : option (list string))
    : Grant :=
  {| gt_role_name := role_name; gt_privileges := list_to_set privileges;
     gt_scope := scope_from_list clusters |}.

(** ** Access *)

Inductive EffectiveAccess : Type := Unrestricted | Granted_ (grants : list Grant).

(** [Iterator::reduce]. *)
Definition reduce {A} (f : A → A → A) (l : list A) : option A :=
  match l with [] => None | x :: l => Some (foldl f x l) end.

Definition privileges_for (access : EffectiveAccess) (cluster : string) : option PrivilegeSet :=
  match access with
  | Unrestricted => Some (list_to_set all_privileges)
  | Granted_ grants =>
      reduce (∪) (gt_privileges <$> List.filter (λ grant, scope_contains (gt_scope grant) cluster) grants)
  end.

Inductive AccessError : Set :=
  | UnknownAccessCluster (cluster : string)
  | Forbidden (cluster : string) (privilege : Privilege)
  | ReadOnlyCluster (cluster : string).

#[export] Instance AccessError_eq_dec : EqDecision AccessError.
Proof. solve_decision. Defined.

Definition AccessError_code (e : AccessError) : string :=
  match e with
  | UnknownAccessCluster _ => "UNKNOWN_CLUSTER"
  | Forbidden _ _ => "FORBIDDEN"
  | ReadOnlyCluster _ => "READ_ONLY_CLUSTER"
  end.

Record ClusterAccess : Type := {
  ca_cluster : string;
  ca_privileges : PrivilegeSet;
  ca_grants : list Grant;
}.

Definition access_cluster (access : EffectiveAccess) (name : string) : result AccessError ClusterAccess :=
  match privileges_for access name with
  | Some privileges =>
      Ok {| ca_cluster := name; ca_privileges := privileges;
            ca_grants := match access with Unrestricted => [] | Granted_ grants => grants end |}
  | None => Err (UnknownAccessCluster name)
  end.

Definition role_names (a : ClusterAccess) : list string :=
  dedup (sort_by String.compare
    (gt_role_name <$> List.filter (λ grant, scope_contains (gt_scope grant) (ca_cluster a)) (ca_grants a))).

Definition allows (a : ClusterAccess) (privilege : Privilege) : bool :=
  bool_decide (privilege ∈ ca_privileges a).

Definition privileges_list (a : ClusterAccess) : list Privilege :=
  List.filter (allows a) all_privileges.

Definition check (a : ClusterAccess) (privilege : Privilege) : result AccessError () :=
  if allows a privilege then Ok () else Err (Forbidden (ca_cluster a) privilege).

(** A capability: the macro makes one token per privilege, which only its check makes. *)
Inductive Cap : Privilege → Type := cap (p : Privilege) : Cap p.

Definition capability (p : Privilege) (a : ClusterAccess) : result AccessError (Cap p) :=
  (λ _, cap p) <$> check a p.

(** ** Policies *)

Record Identity : Set := { id_groups : list string }.

Record RoleTable : Type := { rt_grants : list Grant; rt_by_group : gmap string (list nat) }.

Inductive AccessPolicy : Type := Open | Bound (table : RoleTable).

(** [by_group.entry(group).or_default().push(index)]. *)
Definition index_group (index : nat) (by_group : gmap string (list nat)) (group : string)
    : gmap string (list nat) :=
  <[group := default [] (by_group !! group) ++ [index]]> by_group.

Definition compile_binding (name : string) (privileges : PrivilegeSet) (table : RoleTable)
    (binding : Binding) : RoleTable :=
  {| rt_grants := rt_grants table ++ [{| gt_role_name := name; gt_privileges := privileges;
       gt_scope := scope_from_list (bd_clusters binding) |}];
     rt_by_group := foldl (index_group (length (rt_grants table))) (rt_by_group table) (bd_groups binding) |}.

(** The roles in config order. *)
Definition compile_roles (roles : list (string * Role)) : RoleTable :=
  foldl (λ table entry,
    foldl (compile_binding entry.1 (list_to_set (role_privileges entry.2))) table (role_bindings entry.2))
    {| rt_grants := []; rt_by_group := ∅ |} roles.

(** A [BTreeSet] of indices, as the sorted list it iterates. Indexing panics out of range,
    which [compiled_in_range] rules out. *)
Definition resolve (table : RoleTable) (groups : list string) : option (list Grant) :=
  let matched := dedup (sort_by Nat.compare
    (concat (omap (λ group, rt_by_group table !! group) groups))) in
  let grants := omap (λ index, rt_grants table !! index) matched in
  if negb (bool_decide (grants = [])) then Some grants else None.

Definition from_roles (roles : option (list (string * Role))) : AccessPolicy :=
  match roles with None => Open | Some roles => Bound (compile_roles roles) end.

Definition policy_admit (policy : AccessPolicy) (identity : Identity) : option EffectiveAccess :=
  match policy with
  | Open => Some Unrestricted
  | Bound table => Granted_ <$> resolve table (id_groups identity)
  end.

(** [serde_json::Value::get] of an object's key. *)
Definition json_get (value : json) (key : string) : option json :=
  match value with
  | JObject fields => snd <$> List.find (λ field, String.eqb field.1 key) fields
  | _ => None
  end.

Definition groups_from_json (value : json) (claim : string) : list string :=
  match json_get value claim with
  | Some (JString name) => if is_empty name then [] else [name]
  | Some (JArray items) =>
      List.filter (λ name, negb (is_empty name))
        (omap (λ item, match item with JString name => Some name | _ => None end) items)
  | _ => []
  end.

(** ** MCP *)

(** What MCP callers hold, whoever they are. *)
Record McpConfig : Set := { mcp_privileges : list Privilege; mcp_clusters : option (list string) }.

Definition mcp_access (mcp : McpConfig) : EffectiveAccess :=
  Granted_ [grant_new "mcp" (mcp_privileges mcp) (mcp_clusters mcp)].

Definition mcp_writes (mcp : McpConfig) : bool :=
  existsb (λ privilege, bool_decide (privilege ∈ WRITES)) (mcp_privileges mcp).

Definition reads_private_text (mcp : McpConfig) : bool :=
  existsb (λ privilege, match privilege with PRecords | PSchemaText => true | _ => false end)
    (mcp_privileges mcp).

(** The check the config's [privileges] go through when they are read. *)
Definition tool_privileges (privileges : list Privilege) : option (list Privilege) :=
  if existsb (λ privilege, negb (bool_decide (privilege ∈ READS)) && negb (bool_decide (privilege ∈ WRITES)))
       privileges
  then None else Some privileges.

Inductive Section_ : Set := ConfigsSection.

Record ToolGate : Set := {
  tg_name : string;
  tg_needs : option Privilege;
  tg_sections : list (Section_ * Privilege);
  tg_idempotent : bool;
}.

Definition gate_open (name : string) : ToolGate :=
  {| tg_name := name; tg_needs := None; tg_sections := []; tg_idempotent := true |}.

Definition gate_needing (name : string) (privilege : Privilege) : ToolGate :=
  {| tg_name := name; tg_needs := Some privilege; tg_sections := tg_sections (gate_open name);
     tg_idempotent := tg_idempotent (gate_open name) |}.

Definition with_sections (gate : ToolGate) (sections : list (Section_ * Privilege)) : ToolGate :=
  {| tg_name := tg_name gate; tg_needs := tg_needs gate; tg_sections := sections;
     tg_idempotent := tg_idempotent gate |}.

Definition not_idempotent (gate : ToolGate) : ToolGate :=
  {| tg_name := tg_name gate; tg_needs := tg_needs gate; tg_sections := tg_sections gate;
     tg_idempotent := false |}.

Definition gate_changes (gate : ToolGate) : bool :=
  match tg_needs gate with Some privilege => bool_decide (privilege ∈ WRITES) | None => false end.

Definition gate_usable_on (gate : ToolGate) (access : ClusterAccess) (writable : bool) : bool :=
  match tg_needs gate with None => true | Some privilege => allows access privilege end &&
  (negb (gate_changes gate) || writable).

Definition gate_offered_to (gate : ToolGate) (clusters : list (ClusterAccess * bool)) : bool :=
  bool_decide (tg_needs gate = None) ||
  existsb (λ cluster, gate_usable_on gate cluster.1 cluster.2) clusters.

Record ToolRights : Set := {
  tr_tool : string;
  tr_section : option Section_;
  tr_available : bool;
  tr_needs : option Privilege;
}.

Definition rights_check (access : ClusterAccess) (name : string) (section : option Section_)
    (needs : option Privilege) : ToolRights :=
  let missing := privilege ← needs; if negb (allows access privilege) then Some privilege else None in
  {| tr_tool := name; tr_section := section; tr_available := bool_decide (missing = None);
     tr_needs := missing |}.

Definition gate_rights (gate : ToolGate) (access : ClusterAccess) (writable : bool) : list ToolRights :=
  let tool := rights_check access (tg_name gate) None (tg_needs gate) in
  {| tr_tool := tr_tool tool; tr_section := tr_section tool;
     tr_available := gate_usable_on gate access writable; tr_needs := tr_needs tool |} ::
  map (λ entry : Section_ * Privilege, rights_check access (tg_name gate) (Some entry.1) (Some entry.2))
    (tg_sections gate).

(** The tools' gates, sorted by name. *)
Definition gates : list ToolGate :=
  sort_by (λ a b, String.compare (tg_name a) (tg_name b))
   [gate_needing "klens_acls_list" PAcls;
    with_sections (gate_open "klens_brokers_list") [(ConfigsSection, PBrokerConfigs)];
    gate_open "klens_clusters";
    gate_open "klens_access_explain";
    gate_open "klens_search";
    gate_open "klens_groups_list";
    gate_open "klens_group_describe";
    gate_needing "klens_record_get" PRecords;
    not_idempotent (gate_needing "klens_record_produce" PProduce);
    gate_needing "klens_records_read" PRecords;
    gate_needing "klens_schema_get" PSchemaText;
    gate_needing "klens_schema_register" PRegisterSchemas;
    gate_open "klens_schemas_list";
    gate_open "klens_topics_list";
    not_idempotent (gate_needing "klens_topic_create" PCreateTopics);
    with_sections (gate_open "klens_topic_describe") [(ConfigsSection, PTopicConfigs)]].

Definition gate_named (name : string) : option ToolGate :=
  List.find (λ gate, String.eqb (tg_name gate) name) gates.

(** ** Helper lemmas *)

Section roles.
Context (roles : list (string * Role)).

(** Every binding with the grant it makes, in config order. *)
Definition role_bindings_of (entry : string * Role) : list (Binding * Grant) :=
  map (λ binding, (binding, {| gt_role_name := entry.1;
    gt_privileges := list_to_set (role_privileges entry.2);
    gt_scope := scope_from_list (bd_clusters binding) |})) (role_bindings entry.2).

Definition bindings_of (l : list (string * Role)) : list (Binding * Grant) := concat (map role_bindings_of l).

(** The grants of the bindings that name one of [groups]. *)
Definition names_group (groups : list string) (binding : Binding) : bool :=
  existsb (λ group, bool_decide (group ∈ groups)) (bd_groups binding).

Definition granted (groups : list string) : list Grant :=
  map snd (List.filter (λ entry, names_group groups entry.1) (bindings_of roles)).

(** What a table holds after the bindings [done]. *)
Definition compiled (table : RoleTable) (done : list (Binding * Grant)) : Prop :=
  rt_grants table = map snd done ∧
  ∀ group i, i ∈ default [] (rt_by_group table !! group) ↔
    ∃ entry, done !! i = Some entry ∧ group ∈ bd_groups entry.1.

Lemma index_groups index gs (by_group : gmap string (list nat)) group i :
  i ∈ default [] (foldl (index_group index) by_group gs !! group) ↔
  i ∈ default [] (by_group !! group) ∨ i = index ∧ group ∈ gs.
Proof.
  revert by_group. induction gs as [|g gs IH]; intros by_group; cbn [foldl].
  - split; [by left|]. intros [?|[_ ?%not_elem_of_nil]]; done.
  - rewrite IH. unfold index_group. destruct (decide (g = group)) as [->|Hne].
    + rewrite lookup_insert_eq. simpl. rewrite elem_of_app, list_elem_of_singleton, elem_of_cons. naive_solver.
    + rewrite lookup_insert_ne, elem_of_cons by done. naive_solver.
Qed.

Lemma compile_binding_compiled name privileges table done binding :
  compiled table done →
  compiled (compile_binding name privileges table binding)
    (done ++ [(binding, {| gt_role_name := name; gt_privileges := privileges;
       gt_scope := scope_from_list (bd_clusters binding) |})]).
Proof.
  intros [Hgrants Hindex]. split; [simpl; by rewrite Hgrants, map_app|].
  intros group i. simpl. rewrite index_groups, Hindex, Hgrants, length_map. split.
  - intros [(entry & Hi & Hg)|[-> Hg]].
    + exists entry. split; [by apply lookup_app_l_Some|done].
    + eexists. split; [by apply list_lookup_middle|done].
  - intros (entry & Hi & Hg). apply lookup_app_Some in Hi as [Hi|[Hlen Hi]]; [left; by exists entry|].
    apply list_lookup_singleton_Some in Hi as [Hz <-]. right. split; [lia|done].
Qed.

Lemma compile_role_compiled entry table done :
  compiled table done →
  compiled (foldl (compile_binding entry.1 (list_to_set (role_privileges entry.2))) table (role_bindings entry.2))
    (done ++ role_bindings_of entry).
Proof.
  unfold role_bindings_of. revert table done. induction (role_bindings entry.2) as [|b bs IH];
    intros table done Hc; cbn [foldl map]; [by rewrite app_nil_r|].
  rewrite cons_middle, (assoc_L (++)). by apply IH, compile_binding_compiled.
Qed.

Lemma compile_roles_compiled : compiled (compile_roles roles) (bindings_of roles).
Proof.
  unfold compile_roles. assert (∀ l table done, compiled table done →
    compiled (foldl (λ table entry, foldl (compile_binding entry.1 (list_to_set (role_privileges entry.2)))
      table (role_bindings entry.2)) table l) (done ++ bindings_of l)) as Hgo.
  { induction l as [|entry l IH]; intros table done Hc; cbn [foldl].
    - unfold bindings_of. simpl. by rewrite app_nil_r.
    - unfold bindings_of. cbn [map concat]. rewrite (assoc_L (++)). by apply IH, compile_role_compiled. }
  rewrite <- (app_nil_l (bindings_of roles)). apply Hgo. split; [done|].
  intros group i. simpl. rewrite lookup_empty. split; [by intros ?%not_elem_of_nil|by intros (? & ? & _)].
Qed.

(** The table's indices are in range. *)
Lemma compiled_in_range group i :
  i ∈ default [] (rt_by_group (compile_roles roles) !! group) →
  is_Some (rt_grants (compile_roles roles) !! i).
Proof.
  destruct compile_roles_compiled as [-> Hindex]. intros (entry & Hi & _)%Hindex.
  exists entry.2. by rewrite (list_lookup_fmap snd), Hi.
Qed.
End roles.

#[export] Instance Nat_compare_order : OrderCmp Nat.compare.
Proof.
  split.
  - intros x y. apply Nat.compare_antisym.
  - intros x y z. rewrite !Nat.compare_lt_iff. lia.
  - intros x y z. rewrite Nat.compare_eq_iff. congruence.
Qed.

(** Strictly sorted lists of the same elements are the same list. *)
Lemma strictly_sorted_ext {A} (cmp : A → A → comparison) `{!OrderCmp cmp} l k :
  StronglySorted (λ x y, cmp x y = Lt) l → StronglySorted (λ x y, cmp x y = Lt) k →
  (∀ x, x ∈ l ↔ x ∈ k) → l = k.
Proof.
  intros Hl. revert k. induction Hl as [|x l Hl IH Hx]; intros k Hk Hin.
  - symmetry. apply elem_of_nil_inv. intros x Hxk. apply Hin in Hxk. by apply not_elem_of_nil in Hxk.
  - destruct Hk as [|y k Hk Hy]; [destruct (not_elem_of_nil x); apply Hin; by left|].
    rewrite Forall_forall in Hx, Hy.
    assert (x = y) as ->.
    { assert (x ∈ y :: k) as [|Hxk]%elem_of_cons by (apply Hin; by left); [done|].
      assert (y ∈ x :: l) as [|Hyl]%elem_of_cons by (apply Hin; by left); [done|].
      pose proof (Hx y Hyl) as H1. pose proof (Hy x Hxk) as H2.
      pose proof (cmp_lt_trans cmp _ _ _ H1 H2) as H3. by rewrite (cmp_refl cmp) in H3. }
    f_equal. apply IH; [done|]. intros z. split; intros Hz.
    + assert (z ∈ y :: k) as [->|]%elem_of_cons by (apply Hin; by right); [|done].
      specialize (Hx y Hz). by rewrite (cmp_refl cmp) in Hx.
    + assert (z ∈ y :: l) as [->|]%elem_of_cons by (apply Hin; by right); [|done].
      specialize (Hy y Hz). by rewrite (cmp_refl cmp) in Hy.
Qed.

Lemma seq_sorted n m : StronglySorted (λ x y, Nat.compare x y = Lt) (seq n m).
Proof.
  revert n. induction m as [|m IH]; intros n; simpl; constructor; [done|].
  rewrite Forall_forall. intros y Hy%elem_of_seq. apply Nat.compare_lt_iff. lia.
Qed.

Lemma filter_sorted {A} (R : A → A → Prop) (p : A → bool) l :
  StronglySorted R l → StronglySorted R (List.filter p l).
Proof.
  induction 1 as [|x l _ IH Hx]; simpl; [constructor|]. destruct (p x); [|done]. constructor; [done|].
  rewrite Forall_forall in Hx |- *. intros y Hy. apply Hx.
  apply list_elem_of_In, filter_In in Hy as [Hy _]. by apply list_elem_of_In.
Qed.

(** Picking the indices whose element satisfies [p] is filtering by [p]. *)
Lemma omap_filter_indices {A} (p : A → bool) (l : list A) :
  omap (λ i, l !! i) (List.filter (λ i, match l !! i with Some x => p x | None => false end)
    (seq 0 (length l))) = List.filter p l.
Proof.
  induction l as [|x l IH] using rev_ind; [done|].
  rewrite length_app. simpl. rewrite Nat.add_1_r, seq_S, List.filter_app. simpl.
  rewrite list_lookup_middle by done. rewrite omap_app, List.filter_app. f_equal.
  - rewrite <- IH. assert (Forall (λ i, (i < length l)%nat) (seq 0 (length l))) as Hall.
    { apply Forall_forall. intros i Hi%elem_of_seq. lia. }
    clear IH. induction Hall as [|i ix Hi _ IHix]; [done|]. cbn [List.filter]. rewrite lookup_app_l by done.
    destruct (l !! i) as [y|] eqn:E; [|exact IHix]. destruct (p y); [|exact IHix]. csimpl.
    rewrite lookup_app_l, E by done. by f_equal.
  - simpl. destruct (p x); [|done]. csimpl. by rewrite list_lookup_middle.
Qed.

Lemma elem_of_filtered {A} (p : A → bool) l x : x ∈ List.filter p l ↔ x ∈ l ∧ p x = true.
Proof. by rewrite !list_elem_of_In, filter_In. Qed.

Lemma resolve_granted roles groups :
  resolve (compile_roles roles) groups =
  match granted roles groups with [] => None | grants => Some grants end.
Proof.
  destruct (compile_roles_compiled roles) as [Hgrants Hindex]. unfold resolve.
  set (matched := dedup _).
  assert (matched = List.filter (λ i, match bindings_of roles !! i with
    | Some entry => names_group groups entry.1 | None => false end) (seq 0 (length (bindings_of roles)))) as ->.
  { apply (strictly_sorted_ext Nat.compare).
    - apply (dedup_sorted Nat.compare); [intros x y; apply Nat.compare_eq|apply sort_by_sorted, _].
    - apply filter_sorted, seq_sorted.
    - intros i. unfold matched. rewrite elem_of_dedup, elem_of_sort_by, elem_of_concat.
      rewrite elem_of_filtered, elem_of_seq. split.
      + intros (l & Hi & (group & Hgroup & Hl)%list_elem_of_omap).
        assert (i ∈ default [] (rt_by_group (compile_roles roles) !! group)) as Hd by by rewrite Hl.
        apply Hindex in Hd as (entry & He & Hg). rewrite He. split; [apply lookup_lt_Some in He; lia|].
        unfold names_group. apply existsb_exists. exists group. split; [by apply list_elem_of_In|].
        by apply bool_decide_eq_true.
      + intros [_ Hn]. destruct (bindings_of roles !! i) as [entry|] eqn:He; [|done].
        unfold names_group in Hn. apply existsb_exists in Hn as (group & Hg & Hin).
        apply list_elem_of_In in Hg. apply bool_decide_eq_true in Hin.
        assert (i ∈ default [] (rt_by_group (compile_roles roles) !! group)) as Hd by (apply Hindex; by exists entry).
        destruct (rt_by_group (compile_roles roles) !! group) as [l|] eqn:El; [|by apply not_elem_of_nil in Hd].
        exists l. split; [done|]. apply list_elem_of_omap. by exists group. }
  rewrite Hgrants.
  assert (∀ ix, omap (λ i, map snd (bindings_of roles) !! i) ix = map snd (omap (λ i, bindings_of roles !! i) ix)) as ->.
  { induction ix as [|i ix IH]; [done|]. csimpl. rewrite (list_lookup_fmap snd).
    destruct (bindings_of roles !! i); simpl; by rewrite IH. }
  rewrite (omap_filter_indices (λ entry, names_group groups entry.1)). fold (granted roles groups).
  by destruct (granted roles groups).
Qed.

Lemma elem_of_granted roles groups g :
  g ∈ granted roles groups ↔
  ∃ name role b, (name, role) ∈ roles ∧ b ∈ role_bindings role ∧
    (∃ group, group ∈ bd_groups b ∧ group ∈ groups) ∧
    g = grant_new name (role_privileges role) (bd_clusters b).
Proof.
  unfold granted, names_group. rewrite list_elem_of_fmap. split.
  - intros (entry & -> & Hin). apply list_elem_of_In, filter_In in Hin as [Hin Hex].
    apply list_elem_of_In in Hin. apply existsb_exists in Hex as (group & Hg & Hgs).
    apply list_elem_of_In in Hg. apply bool_decide_eq_true in Hgs.
    apply elem_of_concat in Hin as (l & He & ([name role] & -> & Hr)%list_elem_of_fmap).
    apply list_elem_of_fmap in He as (b & -> & Hb). exists name, role, b. simpl in *. naive_solver.
  - intros (name & role & b & Hr & Hb & (group & Hg & Hgs) & ->).
    exists (b, grant_new name (role_privileges role) (bd_clusters b)). split; [done|].
    apply list_elem_of_In, filter_In. split.
    + apply list_elem_of_In, elem_of_concat. exists (role_bindings_of (name, role)). split.
      * apply list_elem_of_fmap. by exists b.
      * by apply (list_elem_of_fmap_2 role_bindings_of).
    + apply existsb_exists. exists group. split; [by apply list_elem_of_In|]. by apply bool_decide_eq_true.
Qed.

(** The privileges of the grants in scope, together. *)
Lemma privileges_for_granted grants cluster :
  match privileges_for (Granted_ grants) cluster with
  | None => ∀ g, g ∈ grants → scope_contains (gt_scope g) cluster = false
  | Some held =>
      (∃ g, g ∈ grants ∧ scope_contains (gt_scope g) cluster = true) ∧
      ∀ p, p ∈ held ↔ ∃ g, g ∈ grants ∧ scope_contains (gt_scope g) cluster = true ∧ p ∈ gt_privileges g
  end.
Proof.
  unfold privileges_for.
  assert (∀ g, g ∈ List.filter (λ g, scope_contains (gt_scope g) cluster) grants ↔
    g ∈ grants ∧ scope_contains (gt_scope g) cluster = true) as Hf.
  { intros g. by rewrite !list_elem_of_In, filter_In. }
  destruct (List.filter _ grants) as [|g l] eqn:E; csimpl.
  - intros g Hg. apply not_true_is_false. intros Hs. by apply (not_elem_of_nil g), Hf.
  - assert (∀ acc p, p ∈ foldl (∪) acc (gt_privileges <$> l) ↔
      p ∈ acc ∨ ∃ g, g ∈ l ∧ p ∈ gt_privileges g) as Hfold.
    { clear. induction l as [|g l IH]; intros acc p; csimpl.
      - split; [by left|]. by intros [?|(? & ?%not_elem_of_nil & _)].
      - rewrite IH, elem_of_union. setoid_rewrite elem_of_cons. naive_solver. }
    split; [exists g; apply Hf; by left|]. intros p. rewrite Hfold. setoid_rewrite elem_of_cons in Hf.
    naive_solver.
Qed.

Lemma scope_from_list_contains clusters cluster :
  scope_contains (scope_from_list clusters) cluster = true ↔
  match clusters with None => True | Some names => cluster ∈ names end.
Proof.
  destruct clusters as [names|]; simpl; [|done]. by rewrite bool_decide_eq_true, elem_of_list_to_set.
Qed.

(** A binding that covers [cluster] for one of [groups]. *)
Definition bound (roles : list (string * Role)) (groups : list string) (cluster : string) (role : Role) : Prop :=
  ∃ name b group, (name, role) ∈ roles ∧ b ∈ role_bindings role ∧ group ∈ bd_groups b ∧ group ∈ groups ∧
    match bd_clusters b with None => True | Some names => cluster ∈ names end.

(** ** Properties *)

(** The compiled role table answers as the config reads: a caller gets, in config order
    and once each, the grants of the bindings that name one of its groups, and is turned
    away when no binding does. *)
Theorem compile_refines roles groups :
  policy_admit (from_roles (Some roles)) {| id_groups := groups |} =
  match granted roles groups with [] => None | grants => Some (Granted_ grants) end.
Proof. simpl. rewrite resolve_granted. by destruct (granted roles groups). Qed.

(** C4 A caller holds a capability on a cluster exactly when a role that lists its
    privilege has a binding for one of the caller's groups that covers the cluster; a
    cluster no such binding covers is unknown, and a missing privilege is forbidden. *)
Theorem capability_spec roles groups access cluster p :
  policy_admit (from_roles (Some roles)) {| id_groups := groups |} = Some access →
  match access_cluster access cluster with
  | Ok a => (∃ role, bound roles groups cluster role) ∧
      (capability p a = Ok (cap p) ↔ ∃ role, bound roles groups cluster role ∧ p ∈ role_privileges role) ∧
      (capability p a ≠ Ok (cap p) → capability p a = Err (Forbidden cluster p))
  | Err e => e = UnknownAccessCluster cluster ∧ ¬ ∃ role, bound roles groups cluster role
  end.
Proof.
  simpl. rewrite resolve_granted. destruct (granted roles groups) as [|g0 gs] eqn:Eg; [done|].
  intros [= <-]. unfold access_cluster. rewrite <- Eg. clear Eg g0 gs.
  pose proof (privileges_for_granted (granted roles groups) cluster) as Hp.
  assert (∀ role p, bound roles groups cluster role → p ∈ role_privileges role →
    ∃ g, g ∈ granted roles groups ∧ scope_contains (gt_scope g) cluster = true ∧ p ∈ gt_privileges g) as Hgrant.
  { intros role q (name & b & group & Hr & Hb & Hg & Hgs & Hc) Hq.
    exists (grant_new name (role_privileges role) (bd_clusters b)). split; [apply elem_of_granted; naive_solver|].
    split; [by apply scope_from_list_contains|]. simpl. by apply elem_of_list_to_set. }
  assert (∀ role, bound roles groups cluster role →
    ∃ g, g ∈ granted roles groups ∧ scope_contains (gt_scope g) cluster = true) as Hscope.
  { intros role (name & b & group & Hr & Hb & Hg & Hgs & Hc).
    exists (grant_new name (role_privileges role) (bd_clusters b)). split; [apply elem_of_granted; naive_solver|].
    by apply scope_from_list_contains. }
  assert (∀ g, g ∈ granted roles groups → scope_contains (gt_scope g) cluster = true →
    ∃ role, bound roles groups cluster role ∧ ∀ q, q ∈ gt_privileges g → q ∈ role_privileges role) as Hback.
  { intros g (name & role & b & Hr & Hb & (group & Hg & Hgs) & ->)%elem_of_granted Hs.
    exists role. split; [|by intros q ?%elem_of_list_to_set].
    exists name, b, group. split_and!; try done. by apply scope_from_list_contains. }
  destruct (privileges_for _ cluster) as [held|].
  - destruct Hp as [(g & Hg & Hs) Hheld]. unfold capability, check, allows. cbn [ca_privileges ca_cluster].
    split; [destruct (Hback g Hg Hs) as (role & Hb & _); by exists role|].
    destruct (bool_decide (p ∈ held)) eqn:E.
    + apply bool_decide_eq_true in E. split; [|by intros []]. split; [|done]. intros _.
      apply Hheld in E as (g' & Hg' & Hs' & Hp'). destruct (Hback g' Hg' Hs') as (role & Hb & Hq). exists role. auto.
    + apply bool_decide_eq_false in E. split; [|done]. split; [done|]. intros (role & Hb & Hq).
      destruct E. apply Hheld. by eapply Hgrant.
  - split; [done|]. intros (role & Hb). destruct (Hscope role Hb) as (g & Hg & Hs).
    by rewrite (Hp g Hg) in Hs.
Qed.

(** C15 An MCP caller stays inside the config: it reaches only the clusters the config lets
    it, a tool is usable there only with its privilege from the config, one of the five
    reads or three writes, and a tool that changes something only on a writable cluster,
    never when the config names no write. *)
Theorem mcp_gates_spec mcp cluster writable gate access :
  tool_privileges (mcp_privileges mcp) = Some (mcp_privileges mcp) →
  access_cluster (mcp_access mcp) cluster = Ok access →
  gate_usable_on gate access writable = true →
  match mcp_clusters mcp with None => True | Some names => cluster ∈ names end ∧
  (∀ p, tg_needs gate = Some p →
    capability p access = Ok (cap p) ∧ p ∈ mcp_privileges mcp ∧ (p ∈ READS ∨ p ∈ WRITES)) ∧
  (gate_changes gate = true → writable = true ∧ mcp_writes mcp = true).
Proof.
  intros Htool Hacc Huse. unfold access_cluster, mcp_access in Hacc.
  pose proof (privileges_for_granted [grant_new "mcp" (mcp_privileges mcp) (mcp_clusters mcp)] cluster) as Hp.
  destruct (privileges_for _ cluster) as [held|]; [|done]. injection Hacc as <-.
  destruct Hp as [(g & ->%list_elem_of_singleton & Hs) Hheld].
  assert (∀ p, p ∈ held → p ∈ mcp_privileges mcp) as Hin.
  { intros p (g & ->%list_elem_of_singleton & _ & Hq)%Hheld. by apply elem_of_list_to_set in Hq. }
  unfold gate_usable_on in Huse. apply andb_true_iff in Huse as [Hneed Hwrite].
  split; [by apply scope_from_list_contains|]. split.
  - intros p Hneeds. rewrite Hneeds in Hneed. unfold allows in Hneed. simpl in Hneed.
    split; [unfold capability, check, allows; simpl; by rewrite Hneed|].
    apply bool_decide_eq_true, Hin in Hneed. split; [done|].
    unfold tool_privileges in Htool. destruct (existsb _ _) eqn:E; [done|].
    destruct (decide (p ∈ READS)) as [Hr|Hr]; [by left|]. right.
    destruct (decide (p ∈ WRITES)) as [Hw|Hw]; [done|]. exfalso.
    apply not_true_iff_false in E. apply E, existsb_exists. exists p.
    split; [by apply list_elem_of_In|]. by rewrite !bool_decide_eq_false_2.
  - intros Hchanges. rewrite Hchanges in Hwrite. split; [done|].
    unfold gate_changes in Hchanges. destruct (tg_needs gate) as [p|]; [|done].
    unfold mcp_writes. apply existsb_exists. exists p. split; [|done].
    apply list_elem_of_In, Hin. unfold allows in Hneed. simpl in Hneed. by apply bool_decide_eq_true in Hneed.
Qed.

(** ** Witnesses *)

Definition sample_roles : list (string * Role) :=
  [("viewer", {| role_privileges := []; role_bindings := [{| bd_groups := ["everyone"]; bd_clusters := None |}] |});
   ("operator", {| role_privileges := [PRecords; PDeleteTopics];
      role_bindings := [{| bd_groups := ["ops"; "sre"]; bd_clusters := Some ["staging"] |}] |})].

Lemma capability_spec_witness :
  ∃ access a, policy_admit (from_roles (Some sample_roles)) {| id_groups := ["sre"; "everyone"] |} = Some access ∧
    access_cluster access "staging" = Ok a ∧ capability PDeleteTopics a = Ok (cap PDeleteTopics).
Proof.
  eexists _, _. split; [reflexivity|]. split; [reflexivity|].
  assert (policy_admit (from_roles (Some sample_roles)) {| id_groups := ["sre"; "everyone"] |} =
    Some (Granted_ (granted sample_roles ["sre"; "everyone"]))) as H by reflexivity.
  pose proof (capability_spec sample_roles ["sre"; "everyone"] _ "staging" PDeleteTopics H) as Hc.
  apply Hc. exists {| role_privileges := [PRecords; PDeleteTopics];
    role_bindings := [{| bd_groups := ["ops"; "sre"]; bd_clusters := Some ["staging"] |}] |}.
  split; [|right; by left].
  exists "operator", {| bd_groups := ["ops"; "sre"]; bd_clusters := Some ["staging"] |}, "sre".
  split; [right; by left|]. split; [by left|]. split; [right; by left|]. split; by left.
Defined.

Definition sample_mcp : McpConfig := {| mcp_privileges := [PRecords; PProduce]; mcp_clusters := Some ["dev"] |}.

Lemma mcp_gates_spec_witness :
  ∃ access, access_cluster (mcp_access sample_mcp) "dev" = Ok access ∧
    capability PProduce access = Ok (cap PProduce).
Proof.
  eexists. split; [reflexivity|].
  apply (mcp_gates_spec sample_mcp "dev" true (gate_needing "klens_record_produce" PProduce));
    [reflexivity|reflexivity|vm_compute; reflexivity|reflexivity].
Defined.
