(* ===== verification/Lane.v ===== *)
(** [src/kafka/store/lane.rs]: the table a poller keeps for its readers, its health, and
    the wait for a poll that shows a change. *)

From S2P Require Import Prelude.

(** ** State *)

Definition Timestamp : Type := Z.

Record LaneHealth : Type := {
  lh_updated_at : option Timestamp;
  lh_checked_at : option Timestamp;
  lh_last_error : option string;
  lh_last_poll_ms : option Z;
}.

Definition LaneHealth_default : LaneHealth :=
  {| lh_updated_at := None; lh_checked_at := None; lh_last_error := None; lh_last_poll_ms := None |}.

Definition healthy (h : LaneHealth) : bool :=
  match lh_last_error h, lh_updated_at h with None, Some _ => true | _, _ => false end.

(** [Duration]s in milliseconds. *)
Definition REFRESH_BACKOFF : Z := 50.
Definition REFRESH_BACKOFF_MAX : Z := 1000.

Section lane.
Context {T : Type}.

(** [ln_kick] is the permit [Notify::notify_one] leaves for the next [notified]. *)
Record Lane : Type := {
  ln_table : option T;
  ln_version : Z;
  ln_health : LaneHealth;
  ln_kick : bool;
  ln_refresh : bool;
}.

Definition Lane_default : Lane :=
  {| ln_table := None; ln_version := 0; ln_health := LaneHealth_default;
     ln_kick := false; ln_refresh := false |}.

Definition u64_add (a b : Z) : Z := ((a + b) mod 18446744073709551616)%Z.

Definition lane_ready (lane : Lane) : bool := (0 <? ln_version lane)%Z.

(** [commit], with the version it returns. *)
Definition commit (lane : Lane) (next : T) (now : Timestamp) : Lane * Z :=
  let version := u64_add (ln_version lane) 1 in
  let h := ln_health lane in
  ({| ln_table := Some next; ln_version := version;
      ln_health := {| lh_updated_at := Some now; lh_checked_at := lh_checked_at h;
        lh_last_error := lh_last_error h; lh_last_poll_ms := lh_last_poll_ms h |};
      ln_kick := ln_kick lane; ln_refresh := ln_refresh lane |}, version).

(** [as_millis() as u64]. *)
Definition record_poll (lane : Lane) (elapsed_ms : Z) (error : option string) (now : Timestamp) : Lane :=
  let h := ln_health lane in
  {| ln_table := ln_table lane; ln_version := ln_version lane;
     ln_health := {| lh_updated_at := lh_updated_at h;
       lh_checked_at := match error with None => Some now | Some _ => lh_checked_at h end;
       lh_last_error := error; lh_last_poll_ms := Some (elapsed_ms mod 18446744073709551616)%Z |};
     ln_kick := ln_kick lane; ln_refresh := ln_refresh lane |}.

Definition lane_kick (lane : Lane) : Lane :=
  {| ln_table := ln_table lane; ln_version := ln_version lane; ln_health := ln_health lane;
     ln_kick := true; ln_refresh := ln_refresh lane |}.

(** [self.refresh.store(true)]. *)
Definition ask_refresh (lane : Lane) : Lane :=
  {| ln_table := ln_table lane; ln_version := ln_version lane; ln_health := ln_health lane;
     ln_kick := ln_kick lane; ln_refresh := true |}.

Definition take_refresh (lane : Lane) : Lane * bool :=
  ({| ln_table := ln_table lane; ln_version := ln_version lane; ln_health := ln_health lane;
      ln_kick := ln_kick lane; ln_refresh := false |}, ln_refresh lane).

(** ** Waiting for a table *)

(** What the rest of the program does to the lane in one turn of the wait: until a poll
    ended, between the two reads that follow it, and during the sleep. *)
Record Turn : Type := {
  tn_poll : Lane → Lane;
  tn_between : Lane → Lane;
  tn_sleep : Lane → Lane;
}.

(** How a wait stands: a table showed what it waited for, a poll failed, or it goes on. *)
Inductive Wait : Type := Shown | PollError (error : string) | Waiting.

(** What the wait does: it leaves a lane asking for a poll, or sleeps. *)
Inductive WaitStep : Type := Asked (lane : Lane) | Slept (ms : Z).

Definition shows (done : T → bool) (lane : Lane) : bool :=
  match ln_table lane with Some table => done table | None => false end.

(** The loop of [refresh_until], for the turns the program takes. *)
Fixpoint refresh_loop (done : T → bool) (turns : list Turn) (lane : Lane) (backoff : Z)
    : list WaitStep * Lane * Wait :=
  if shows done lane then ([], lane, Shown)
  else
    match turns with
    | [] => ([], lane, Waiting)
    | turn :: turns =>
        let asked := lane_kick (ask_refresh lane) in
        let polled := tn_poll turn asked in
        match lh_last_error (ln_health polled) with
        | Some error => ([Asked asked], polled, PollError error)
        | None =>
            let read := tn_between turn polled in
            if shows done read then ([Asked asked], read, Shown)
            else
              let '(steps, lane, wait) :=
                refresh_loop done turns (tn_sleep turn read) (Z.min (backoff * 2) REFRESH_BACKOFF_MAX) in
              (Asked asked :: Slept backoff :: steps, lane, wait)
        end
    end.

Definition refresh_until (done : T → bool) (turns : list Turn) (lane : Lane)
    : list WaitStep * Lane * Wait := refresh_loop done turns lane REFRESH_BACKOFF.

(** [reread_until], for the answers its reads get: the sleeps, and how many reads it made
    before it returned, if it did. *)
Fixpoint reread_loop {E} (done : T → bool) (reads : list (result E T)) (backoff : Z)
    : list Z * bool :=
  match reads with
  | [] => ([], false)
  | Err _ :: _ => ([], true)
  | Ok value :: reads =>
      if done value then ([], true)
      else
        let '(sleeps, returned) := reread_loop done reads (Z.min (backoff * 2) REFRESH_BACKOFF_MAX) in
        (backoff :: sleeps, returned)
  end.

Definition reread_until {E} (done : T → bool) (reads : list (result E T)) : list Z * bool :=
  reread_loop done reads REFRESH_BACKOFF.

(** ** Helper lemmas *)

(** The sleep after the [k]th poll from a sleep of [b]. *)
Definition sleep_at (b : Z) (k : nat) : Z := Z.min (b * 2 ^ Z.of_nat k) REFRESH_BACKOFF_MAX.

(** The asks and the sleeps of a wait alternate, each ask with the lane kicked and
    refreshing, each sleep [k] long [sleep_at b k]. *)
Fixpoint paced (b : Z) (steps : list WaitStep) : Prop :=
  match steps with
  | [] => True
  | Asked lane :: steps =>
      ln_kick lane = true ∧ ln_refresh lane = true ∧
      match steps with
      | [] => True
      | Slept ms :: steps => ms = b ∧ paced (Z.min (b * 2) REFRESH_BACKOFF_MAX) steps
      | _ => False
      end
  | Slept _ :: _ => False
  end.

Definition sleeps (steps : list WaitStep) : list Z :=
  omap (λ step, match step with Slept ms => Some ms | Asked _ => None end) steps.

Definition asks (steps : list WaitStep) : list Lane :=
  omap (λ step, match step with Asked lane => Some lane | Slept _ => None end) steps.

Lemma sleep_at_next b k : (0 ≤ b ≤ REFRESH_BACKOFF_MAX)%Z →
  sleep_at (Z.min (b * 2) REFRESH_BACKOFF_MAX) k = sleep_at b (S k).
Proof.
  intros Hb. unfold sleep_at, REFRESH_BACKOFF_MAX in *. rewrite Nat2Z.inj_succ, Z.pow_succ_r by lia.
  assert (1 ≤ 2 ^ Z.of_nat k)%Z by (apply (Z.pow_le_mono_r 2 0); lia). nia.
Qed.

Lemma paced_sleeps b steps : (0 ≤ b ≤ REFRESH_BACKOFF_MAX)%Z → paced b steps →
  sleeps steps = sleep_at b <$> seq 0 (length (sleeps steps)).
Proof.
  assert (∀ n b steps, (length steps ≤ n)%nat → (0 ≤ b ≤ REFRESH_BACKOFF_MAX)%Z → paced b steps →
    sleeps steps = sleep_at b <$> seq 0 (length (sleeps steps))) as H; [|by eapply H].
  clear. intros n. induction n as [|n IH]; intros b steps Hn Hb Hp.
  - destruct steps; [done|simpl in Hn; lia].
  - destruct steps as [|[lane|ms] [|[lane'|ms'] steps]]; try done; simpl in Hp; try tauto.
    destruct Hp as (_ & _ & -> & Hp). simpl in Hn. unfold sleeps in *. csimpl. f_equal.
    + unfold sleep_at, REFRESH_BACKOFF_MAX in *. simpl. lia.
    + rewrite IH at 1; [|lia| |done]; [|unfold REFRESH_BACKOFF_MAX in *; lia].
      rewrite <- seq_shift, map_map. apply map_ext. intros k. by apply sleep_at_next.
Qed.

Lemma refresh_loop_spec done turns lane b steps lane' wait :
  refresh_loop done turns lane b = (steps, lane', wait) →
  paced b steps ∧ Forall (λ lane, shows done lane = false) (asks steps) ∧
  match wait with
  | Shown => shows done lane' = true
  | PollError error => lh_last_error (ln_health lane') = Some error ∧ asks steps ≠ []
  | Waiting => length (asks steps) = length turns
  end.
Proof.
  revert lane b steps. induction turns as [|turn turns IH]; intros lane b steps; cbn [refresh_loop];
    destruct (shows done lane) eqn:Es; try by intros [= <- <- <-]; repeat constructor.
  set (asked := lane_kick (ask_refresh lane)). set (polled := tn_poll turn asked).
  destruct (lh_last_error (ln_health polled)) as [error|] eqn:Ee; [by intros [= <- <- <-]; repeat constructor|].
  destruct (shows done (tn_between turn polled)) eqn:Er; [by intros [= <- <- <-]; repeat constructor|].
  destruct (refresh_loop _ turns _ _) as [[steps' lane''] wait'] eqn:El.
  intros [= <- <- <-]. destruct (IH _ _ _ El) as (Hp & Ha & Hw). split; [done|].
  split; [by constructor|]. destruct wait'; unfold asks in *; csimpl; [done| |by rewrite Hw].
  by destruct Hw.
Qed.

Lemma paced_asks b steps : paced b steps →
  Forall (λ lane, ln_kick lane = true ∧ ln_refresh lane = true) (asks steps).
Proof.
  assert (∀ n b steps, (length steps ≤ n)%nat → paced b steps →
    Forall (λ lane, ln_kick lane = true ∧ ln_refresh lane = true) (asks steps)) as H; [|by eapply H].
  clear. intros n. induction n as [|n IH]; intros b steps Hn Hp.
  - destruct steps; [constructor|simpl in Hn; lia].
  - destruct steps as [|[lane|ms] [|[lane'|ms'] steps]]; simpl in Hp; try tauto; try constructor; try tauto; try constructor.
    destruct Hp as (_ & _ & Hp).
    destruct Hp as [-> Hp]. simpl in Hn. eapply IH; [|done]. lia.
Qed.

(** ** Properties *)

(** A wait for a change asks for a poll only while the lane does not show it, each time
    with the lane kicked and told to read everything again, and sleeps longer after each
    poll, up to a second. It returns once the lane shows the change or a poll failed, and
    goes on only after a poll for each turn the program took. *)
Theorem refresh_until_spec done turns lane steps lane' wait :
  refresh_until done turns lane = (steps, lane', wait) →
  Forall (λ lane, shows done lane = false ∧ ln_kick lane = true ∧ ln_refresh lane = true) (asks steps) ∧
  sleeps steps = (λ k, Z.min (50 * 2 ^ Z.of_nat k) 1000) <$> seq 0 (length (sleeps steps)) ∧
  match wait with
  | Shown => shows done lane' = true
  | PollError error => lh_last_error (ln_health lane') = Some error ∧ asks steps ≠ []
  | Waiting => length (asks steps) = length turns
  end.
Proof.
  intros (Hp & Ha & Hw)%refresh_loop_spec. split; [|split; [|done]].
  - apply Forall_and. split; [done|]. by eapply paced_asks.
  - apply (paced_sleeps REFRESH_BACKOFF); [by unfold REFRESH_BACKOFF, REFRESH_BACKOFF_MAX|done].
Qed.
End lane.

Arguments Lane : clear implicits.
Arguments Turn : clear implicits.

(** ** Witnesses *)

Definition quiet (lane : Lane Z) : Lane Z := lane.

(** A poll that commits [n]. *)
Definition polls (n : Z) : Turn Z :=
  {| tn_poll lane := record_poll (commit (take_refresh lane).1 n 7%Z).1 3%Z None 8%Z;
     tn_between := quiet; tn_sleep := quiet |}.

Lemma refresh_until_spec_witness :
  ∃ steps lane', refresh_until (λ n, (2 <=? n)%Z) [polls 0; polls 1; polls 2] Lane_default = (steps, lane', Shown) ∧
    sleeps steps = [50; 100]%Z ∧ ln_table lane' = Some 2%Z ∧ shows (λ n, (2 <=? n)%Z) lane' = true.
Proof.
  eexists _, _. split; [reflexivity|]. split; [reflexivity|]. split; [reflexivity|].
  exact (proj2 (proj2 (refresh_until_spec (λ n, (2 <=? n)%Z) [polls 0; polls 1; polls 2] Lane_default
    _ _ Shown eq_refl))).
Defined.
