(* ===== verification/Handle.v ===== *)
(** [src/app/context.rs] and [src/app/context/]: what a caller may change on a cluster, with
    the guards and the order of the calls each change makes, and the errors of
    [src/app/error.rs]. *)

From Stdlib Require Import Floats.SpecFloat.
From S2P Require Import Prelude Text Errors Metadata TopicConfig Group Reset Tables Registry Acl Quota Access.

(** ** The data of the changes *)

Record NewRecord : Set := {
  nr_topic : string;
  nr_partition : option Z;
  nr_key : option string;
  nr_value : option string;
  nr_headers : list (string * string);
}.

Record ProducedRecord : Set := { pd_partition : Z; pd_offset : Z }.

Record NewScramCredential : Set := {
  nc_user : string;
  nc_mechanism : ScramMechanism;
  nc_iterations : Z;
  nc_password : string;
}.

(** ** Errors *)

Inductive ApiError : Type :=
  | ApiKafka (error : KafkaError)
  | ApiAccess (error : AccessError)
  | SessionExpired
  | Unauthorized
  | HostNotAllowed
  | NotFromGateway
  | NotFound
  | TooManyTails
  | RateLimited
  | TooManyLiveCalls
  | NotReady (cluster lane : string) (last_error : option string)
  | InvalidRequest (status : Z) (message : string).

Definition ApiError_code (e : ApiError) : string :=
  match e with
  | ApiKafka error => KafkaError_code error
  | ApiAccess error => AccessError_code error
  | SessionExpired => "SESSION_EXPIRED"
  | Unauthorized => "UNAUTHORIZED"
  | HostNotAllowed => "HOST_NOT_ALLOWED"
  | NotFromGateway => "NOT_FROM_GATEWAY"
  | NotFound => "NOT_FOUND"
  | TooManyTails => "TOO_MANY_TAILS"
  | RateLimited | TooManyLiveCalls => "RATE_LIMITED"
  | NotReady _ _ _ => "NOT_READY"
  | InvalidRequest _ _ => "INVALID_REQUEST"
  end.

Definition kafka_status (e : KafkaError) : Z :=
  match e with
  | UnknownCluster _ | UnknownTopic _ _ | UnknownGroup _ _ | UnknownBroker _ _
  | UnknownSubject _ _ _ | UnknownSchema _ _ | UnknownPartition _ _ _
  | UnknownOffset _ _ _ _ | NoSchemaRegistry _ => 404
  | InvalidQuery _ => 400
  | Refused _ | RegistryRefused _ | Unencodable _ _ | InternalTopic _ | PrefixedAcl
  | NoCommittedOffset _ _ _ => 422
  | ActiveGroup _ | ConsumedTopic _ _ => 409
  | Timeout_ => 504
  | Admin _ | BrokerConfigs _ _ | SchemaRegistry _ _ | Krafka _ => 502
  end%Z.

Definition ApiError_status (e : ApiError) : Z :=
  match e with
  | SessionExpired | Unauthorized => 401
  | TooManyTails | NotReady _ _ _ => 503
  | RateLimited | TooManyLiveCalls => 429
  | InvalidRequest status _ => status
  | HostNotAllowed | NotFromGateway | ApiAccess (Forbidden _ _ | ReadOnlyCluster _) => 403
  | NotFound | ApiAccess (UnknownAccessCluster _) => 404
  | ApiKafka error => kafka_status error
  end%Z.

(** ** The session's writes *)

(** The methods of [ClusterSession] that change something, with their arguments. *)
Inductive Write : Type :=
  | WCreateTopic (topic : NewTopic)
  | WDeleteTopic (topic : string)
  | WAlterTopicConfigs (topic : string) (edit : ConfigEdit)
  | WAlterBrokerConfigs (scope : BrokerScope) (edit : ConfigEdit)
  | WAddPartitions (topic : string) (total : Z)
  | WDeleteRecords (deletion : RecordDeletion)
  | WProduce (record : NewRecord)
  | WAlterGroupOffsets (group : string) (offsets : list CommittedOffset)
  | WDeleteGroup (group : string)
  | WDeleteGroupOffsets (group topic : string) (partitions : list Z)
  | WRegisterSchema (schema : NewSchema)
  | WDeleteSchema (deletion : SchemaDeletion)
  | WSetCompatibility (subject : string) (level : SchemaCompatibility)
  | WCreateAcls (acls : list Acl)
  | WDeleteAcl (acl : Acl)
  | WAlterClientQuota (quota : ClientQuota)
  | WSetScramCredential (credential : NewScramCredential)
  | WDeleteScramCredential (user : string) (mechanism : ScramMechanism).

(** What a write answers when Kafka takes it. *)
Definition reply (w : Write) : Type :=
  match w with
  | WDeleteRecords _ => gmap Z Z
  | WProduce _ => ProducedRecord
  | WRegisterSchema _ => RegisteredVersion
  | _ => ()
  end.

(** What [settle] waits for: the lane and the change to show there. *)
Inductive Settle : Type :=
  | OnTopology (done : Topology → bool)
  | OnConfigs (done : ConfigTable → bool)
  | OnWatermarks (done : WatermarkTable → bool)
  | OnOffsets (done : OffsetTable → bool)
  | OnSubjects (done : SubjectTable → bool)
  | OnAcls (done : AclListing → bool)
  | OnQuotas (done : QuotaListing → bool)
  | OnScramUsers (done : ScramListing → bool)
  | OnBrokerConfigs (brokers : list Z) (done : list ConfigEntry → bool).

Inductive Event : Type :=
  | Wrote (w : Write)
  | Watching (group : string)
  | Settling (s : Settle).

(** A cluster: its name, its switch, and what its lanes and its session answer. The ingest
    commits to the lanes while an operation runs, so a load answers for its time. *)
Record Cluster : Type := {
  cl_name : string;
  cl_writable : bool;
  cl_topology : nat → option Topology;
  cl_subjects : nat → option SubjectTable;
  cl_offsets : nat → OffsetSession;
  cl_broker_configs : nat → Z → result KafkaError (list ConfigEntry);
  cl_write : ∀ w : Write, result KafkaError (reply w);
}.

(** ** Operations *)

(** An operation takes the time it starts at to its events, its result and its end. *)
Definition Op (A : Type) : Type := nat → list Event * result KafkaError A * nat.

Declare Scope op_scope.
Delimit Scope op_scope with op.
Bind Scope op_scope with Op.

Definition op_ret {A} (x : A) : Op A := λ t, ([], Ok x, t).
Definition op_lift {A} (r : result KafkaError A) : Op A := λ t, ([], r, t).
Definition op_bind {A B} (f : A → Op B) (m : Op A) : Op B := λ t,
  match m t with
  | (events, Ok x, t) => let '(events', r, t) := f x t in (events ++ events', r, t)
  | (events, Err e, t) => (events, Err e, t)
  end.
Definition op_event (event : Event) : Op () := λ t, ([event], Ok (), t).
(** Reads what [at_] answers now. *)
Definition op_at {A} (at_ : nat → A) : Op A := λ t, ([], Ok (at_ t), S t).
Definition op_write (c : Cluster) (w : Write) : Op (reply w) := λ t, ([Wrote w], cl_write c w, S t).
Definition settle (s : Settle) : Op () := op_event (Settling s).

Notation "'let*' x := m 'in' k" := (op_bind (λ x, k) m) (at level 10, x binder, k at level 200) : op_scope.
Notation "m ;; k" := (op_bind (λ _, k) m) (at level 100, k at level 200, right associativity) : op_scope.
Local Open Scope op_scope.

(** ** Guards *)

Definition known_group {A} (c : Cluster) (group : string) (read : GroupInfo → A) : Op A :=
  let* topology := op_at (cl_topology c) in
  op_lift (ok_or (read <$> (known ← topology; Tables.group known group)) (UnknownGroup (cl_name c) group)).

Definition stopped_group (c : Cluster) (group : string) : Op () :=
  let* running := known_group c group (λ info, has_members (gi_state info)) in
  if running : bool then op_lift (Err (ActiveGroup group)) else op_ret ().

Definition subject_known (table : option SubjectTable) (subject : string) (version : option Z) : bool :=
  match table with
  | None => false
  | Some table =>
      match subjects_get table subject with
      | None => false
      | Some info =>
          match version with None => true | Some version => bool_decide (version ∈ si_versions info) end
      end
  end.

Definition known_subject (c : Cluster) (subject : string) (version : option Z) : Op () :=
  let* table := op_at (cl_subjects c) in
  if subject_known table subject version then op_ret ()
  else op_lift (Err (UnknownSubject (cl_name c) subject (default 0%Z version))).

Definition topic_read {A} (name : string) (topology : option Topology) (topic : string)
    (read : TopicInfo → A) : result KafkaError A :=
  match known ← topology; tp_topics known !! topic with
  | None => Err (UnknownTopic name topic)
  | Some info => if ti_internal info then Err (InternalTopic topic) else Ok (read info)
  end.

Definition writable_topic {A} (c : Cluster) (topic : string) (read : TopicInfo → A) : Op A :=
  let* topology := op_at (cl_topology c) in op_lift (topic_read (cl_name c) topology topic read).

Definition known_broker (c : Cluster) (id : Z) : Op () :=
  let* topology := op_at (cl_topology c) in
  match topology with
  | Some topology =>
      if bool_decide (is_Some (tp_brokers topology !! id)) then op_ret ()
      else op_lift (Err (UnknownBroker (cl_name c) id))
  | None => op_ret ()
  end.

(** The first of [partitions] that is not one of the topic's. *)
Definition stray_partition (known partitions : list Z) : option Z :=
  List.find (λ partition, negb (bool_decide (partition ∈ known))) partitions.

Definition check_partitions (c : Cluster) (topic : string) (known partitions : list Z) : Op () :=
  match stray_partition known partitions with
  | Some partition => op_lift (Err (UnknownPartition (cl_name c) topic partition))
  | None => op_ret ()
  end.

(** No partitions named means all of them. *)
Definition or_all (known partitions : list Z) : list Z :=
  if bool_decide (partitions = []) then known else partitions.

(** ** What a caller was granted *)

(** A capability on a cluster. *)
Record GrantedOn (p : Privilege) : Type := { gr_cap : Cap p; gr_cluster : Cluster }.
Arguments gr_cap {p} _.
Arguments gr_cluster {p} _.

(** *** Topics *)

Definition create_topic (g : GrantedOn PCreateTopics) (topic : NewTopic) : Op () :=
  op_write (gr_cluster g) (WCreateTopic topic) ;;
  settle (OnTopology (λ topology, bool_decide (is_Some (tp_topics topology !! nt_name topic)))).

Definition alter_topic_configs (g : GrantedOn PAlterTopicConfigs) (topic : string) (edit : ConfigEdit) : Op () :=
  writable_topic (gr_cluster g) topic (λ _, ()) ;;
  op_write (gr_cluster g) (WAlterTopicConfigs topic edit) ;;
  settle (OnConfigs (λ table,
    match configs_get table topic with Some entries => shows_in edit entries DynamicTopic | None => false end)).

Definition add_partitions (g : GrantedOn PAddPartitions) (topic : string) (count : Z) : Op () :=
  writable_topic (gr_cluster g) topic (λ _, ()) ;;
  op_write (gr_cluster g) (WAddPartitions topic count) ;;
  settle (OnTopology (λ known,
    match tp_topics known !! topic with
    | Some info => (count <=? len (ti_partitions info))%Z
    | None => false
    end)).

Definition delete_topic (g : GrantedOn PDeleteTopics) (topic : string) : Op () :=
  writable_topic (gr_cluster g) topic (λ _, ()) ;;
  op_write (gr_cluster g) (WDeleteTopic topic) ;;
  settle (OnTopology (λ known, negb (bool_decide (is_Some (tp_topics known !! topic))))).

(** *** Records *)

Definition record_deletion (topic : string) (partitions : list Z) (before : option Z) : RecordDeletion :=
  {| rd_topic := topic; rd_before := collect ((λ partition, (partition, before)) <$> partitions) |}.

Definition delete_records (g : GrantedOn PDeleteRecords) (topic : string) (partitions : list Z)
    (before : option Z) : Op () :=
  let* known := writable_topic (gr_cluster g) topic partition_ids in
  check_partitions (gr_cluster g) topic known partitions ;;
  let* lows := op_write (gr_cluster g)
    (WDeleteRecords (record_deletion topic (or_all known partitions) before)) in
  settle (OnWatermarks (λ marks, forallb (λ entry : Z * Z,
    match marks_get marks topic entry.1 with Some mark => (entry.2 <=? low mark)%Z | None => false end)
    (btree_iter (lows : gmap Z Z)))).

Definition writable_partition (g : GrantedOn PProduce) (topic : string) (partition : option Z) : Op () :=
  let* partitions := writable_topic (gr_cluster g) topic partition_ids in
  check_partitions (gr_cluster g) topic partitions (option_list partition).

Definition produce (g : GrantedOn PProduce) (record : NewRecord) : Op ProducedRecord :=
  writable_partition g (nr_topic record) (nr_partition record) ;;
  let* produced := op_write (gr_cluster g) (WProduce record) in op_ret (produced : ProducedRecord).

(** *** Groups *)

Definition plan (g : GrantedOn PResetOffsets) (reset : OffsetReset) : Op (list OffsetMove) :=
  let c := gr_cluster g in
  let planned partitions :=
    let* session := op_at (cl_offsets c) in
    op_lift (plan_reset session (or_group reset) partitions (or_to reset)) in
  match or_topic reset with
  | None => planned None
  | Some topic =>
      let* known := writable_topic c topic partition_ids in
      check_partitions c topic known (or_partitions reset) ;;
      planned (Some (topic, or_all known (or_partitions reset)))
  end.

(** The dry run. *)
Definition plan_only (g : GrantedOn PResetOffsets) (reset : OffsetReset) : Op (list OffsetMove) :=
  known_group (gr_cluster g) (or_group reset) (λ _, ()) ;; plan g reset.

Definition reset_offsets (g : GrantedOn PResetOffsets) (reset : OffsetReset) : Op (list OffsetMove) :=
  stopped_group (gr_cluster g) (or_group reset) ;;
  let* moves := plan g reset in
  if bool_decide (length moves = 0%nat) then op_ret moves
  else
    op_write (gr_cluster g) (WAlterGroupOffsets (or_group reset) (move_committed <$> moves)) ;;
    op_event (Watching (or_group reset)) ;;
    settle (OnOffsets (λ table,
      match offsets_get table (or_group reset) with
      | Some offsets => offsets_show offsets (move_committed <$> moves)
      | None => false
      end)) ;;
    op_ret moves.

Definition delete_group (g : GrantedOn PDeleteGroups) (group : string) : Op () :=
  stopped_group (gr_cluster g) group ;;
  op_write (gr_cluster g) (WDeleteGroup group) ;;
  settle (OnTopology (λ known, negb (bool_decide (is_Some (tp_groups known !! group))))).

(** The group's committed partitions of the topic. *)
Definition committed_on (committed : list CommittedOffset) (topic : string) : list Z :=
  co_partition <$> List.filter (λ offset, String.eqb (co_topic offset) topic) committed.

Definition delete_offsets (g : GrantedOn PDeleteOffsets) (group topic : string) : Op () :=
  let c := gr_cluster g in
  let* consumed := known_group c group (λ info, consumes info topic) in
  if consumed : bool then op_lift (Err (ConsumedTopic group topic))
  else
    let* session := op_at (cl_offsets c) in
    let* committed := op_lift (os_committed_offsets session group) in
    let partitions := committed_on committed topic in
    if bool_decide (length partitions = 0%nat) then op_ret ()
    else
      op_write c (WDeleteGroupOffsets group topic partitions) ;;
      op_event (Watching group) ;;
      settle (OnOffsets (λ table,
        match offsets_get table group with
        | Some offsets => forallb (λ entry, negb (String.eqb entry.1 topic)) (offset_partitions offsets)
        | None => true
        end)).

(** *** Schemas *)

Definition register_schema (g : GrantedOn PRegisterSchemas) (schema : NewSchema) : Op RegisteredVersion :=
  let* registered := op_write (gr_cluster g) (WRegisterSchema schema) in
  settle (OnSubjects (λ table,
    match subjects_get table (ns_subject schema) with
    | Some info => bool_decide (rv_version registered ∈ si_versions info)
    | None => false
    end)) ;;
  op_ret (registered : RegisteredVersion).

Definition delete_schema (g : GrantedOn PDeleteSchemas) (deletion : SchemaDeletion) : Op () :=
  known_subject (gr_cluster g) (sd_subject deletion) (sd_version deletion) ;;
  op_write (gr_cluster g) (WDeleteSchema deletion) ;;
  settle (OnSubjects (λ table,
    match subjects_get table (sd_subject deletion) with
    | None => true
    | Some info =>
        match sd_version deletion with
        | Some version => negb (bool_decide (version ∈ si_versions info))
        | None => false
        end
    end)).

Definition set_compatibility (g : GrantedOn PSetCompatibility) (subject : string)
    (level : SchemaCompatibility) : Op () :=
  known_subject (gr_cluster g) subject None ;;
  op_write (gr_cluster g) (WSetCompatibility subject level) ;;
  settle (OnSubjects (λ table,
    match subjects_get table subject with
    | Some info => bool_decide (si_compatibility info = level)
    | None => false
    end)).

(** *** ACLs, quotas and credentials *)

Definition create_acls (g : GrantedOn PCreateAcls) (acls : list Acl) : Op () :=
  op_write (gr_cluster g) (WCreateAcls acls) ;;
  settle (OnAcls (λ listing, forallb (listing_contains listing) acls)).

Definition delete_acl (g : GrantedOn PDeleteAcls) (acl : Acl) : Op () :=
  op_write (gr_cluster g) (WDeleteAcl acl) ;;
  settle (OnAcls (λ listing, negb (listing_contains listing acl))).

Definition set_client_quota (g : GrantedOn PAlterQuotas) (quota : ClientQuota) : Op () :=
  op_write (gr_cluster g) (WAlterClientQuota quota) ;;
  settle (OnQuotas (λ listing,
    match quota_values listing (cq_entity quota) with
    | None => quota_values_eqb (cq_values quota) QuotaValues_default
    | Some values => quota_values_eqb values (cq_values quota)
    end)).

Definition set_scram_credential (g : GrantedOn PSetScramCredentials) (credential : NewScramCredential) : Op () :=
  op_write (gr_cluster g) (WSetScramCredential credential) ;;
  settle (OnScramUsers (λ listing,
    bool_decide (iterations listing (nc_user credential) (nc_mechanism credential) =
      Some (nc_iterations credential)))).

Definition delete_scram_credential (g : GrantedOn PDeleteScramCredentials) (user : string)
    (mechanism : ScramMechanism) : Op () :=
  op_write (gr_cluster g) (WDeleteScramCredential user mechanism) ;;
  settle (OnScramUsers (λ listing, bool_decide (iterations listing user mechanism = None))).

(** *** Brokers *)

Definition broker_configs (g : GrantedOn PBrokerConfigs) (id : Z) : Op (list ConfigEntry) :=
  known_broker (gr_cluster g) id ;;
  let* answer := op_at (cl_broker_configs (gr_cluster g)) in op_lift (answer id).

Definition alter_broker_configs (g : GrantedOn PAlterBrokerConfigs) (scope : BrokerScope)
    (edit : ConfigEdit) : Op () :=
  let c := gr_cluster g in
  match scope with OneBroker id => known_broker c id | EveryBroker => op_ret () end ;;
  op_write c (WAlterBrokerConfigs scope edit) ;;
  let* brokers :=
    match scope with
    | OneBroker id => op_ret [id]
    | EveryBroker =>
        let* topology := op_at (cl_topology c) in
        op_ret (from_option (λ topology, btree_keys (tp_brokers topology)) [] topology)
    end in
  settle (OnBrokerConfigs brokers (λ entries, shows_in edit entries (scope_source scope))).

(** ** A caller's writes *)

Record Session : Type := { se_access : EffectiveAccess; se_clusters : list Cluster }.

(** [Clusters::get]. *)
Definition clusters_get (clusters : list Cluster) (name : string) : result KafkaError Cluster :=
  ok_or (List.find (λ c, String.eqb (cl_name c) name) clusters) (UnknownCluster name).

Record ClusterHandle : Type := { ch_access : ClusterAccess; ch_cluster : Cluster }.

(** [Session::cluster]. *)
Definition session_cluster (s : Session) (name : string) : result ApiError ClusterHandle :=
  access ← map_err ApiAccess (access_cluster (se_access s) name);
  cluster ← map_err ApiKafka (clusters_get (se_clusters s) (ca_cluster access));
  Ok {| ch_access := access; ch_cluster := cluster |}.

(** [ClusterHandle::writable]. *)
Definition writable (h : ClusterHandle) : result AccessError () :=
  if cl_writable (ch_cluster h) then Ok () else Err (ReadOnlyCluster (ca_cluster (ch_access h))).

(** The methods of [writes!]: the switch first, then the capability. *)
Definition write_capability (p : Privilege) (h : ClusterHandle) : result AccessError (GrantedOn p) :=
  _ ← writable h;
  c ← capability p (ch_access h);
  Ok {| gr_cap := c; gr_cluster := ch_cluster h |}.

(** The methods of the reads, which the switch does not gate. *)
Definition read_capability (p : Privilege) (h : ClusterHandle) : result AccessError (GrantedOn p) :=
  c ← capability p (ch_access h);
  Ok {| gr_cap := c; gr_cluster := ch_cluster h |}.

(** Every change a caller can ask for. *)
Inductive WriteOp : Type :=
  | CreateTopic (topic : NewTopic)
  | DeleteTopic (topic : string)
  | AlterTopicConfigs (topic : string) (edit : ConfigEdit)
  | AddPartitions (topic : string) (count : Z)
  | DeleteRecords (topic : string) (partitions : list Z) (before : option Z)
  | Produce (record : NewRecord)
  | ResetOffsets (reset : OffsetReset)
  | DeleteOffsets (group topic : string)
  | DeleteGroup (group : string)
  | RegisterSchema (schema : NewSchema)
  | SetCompatibility (subject : string) (level : SchemaCompatibility)
  | DeleteSchema (deletion : SchemaDeletion)
  | CreateAcls (acls : list Acl)
  | DeleteAcl (acl : Acl)
  | AlterQuota (quota : ClientQuota)
  | SetScramCredential (credential : NewScramCredential)
  | DeleteScramCredential (user : string) (mechanism : ScramMechanism)
  | AlterBrokerConfigs (scope : BrokerScope) (edit : ConfigEdit).

Definition needs (op : WriteOp) : Privilege :=
  match op with
  | CreateTopic _ => PCreateTopics
  | DeleteTopic _ => PDeleteTopics
  | AlterTopicConfigs _ _ => PAlterTopicConfigs
  | AddPartitions _ _ => PAddPartitions
  | DeleteRecords _ _ _ => PDeleteRecords
  | Produce _ => PProduce
  | ResetOffsets _ => PResetOffsets
  | DeleteOffsets _ _ => PDeleteOffsets
  | DeleteGroup _ => PDeleteGroups
  | RegisterSchema _ => PRegisterSchemas
  | SetCompatibility _ _ => PSetCompatibility
  | DeleteSchema _ => PDeleteSchemas
  | CreateAcls _ => PCreateAcls
  | DeleteAcl _ => PDeleteAcls
  | AlterQuota _ => PAlterQuotas
  | SetScramCredential _ => PSetScramCredentials
  | DeleteScramCredential _ _ => PDeleteScramCredentials
  | AlterBrokerConfigs _ _ => PAlterBrokerConfigs
  end.

Definition op_done {A} (m : Op A) : Op () := let* _ := m in op_ret ().

Definition perform (op : WriteOp) : GrantedOn (needs op) → Op () :=
  match op with
  | CreateTopic topic => λ g, create_topic g topic
  | DeleteTopic topic => λ g, delete_topic g topic
  | AlterTopicConfigs topic edit => λ g, alter_topic_configs g topic edit
  | AddPartitions topic count => λ g, add_partitions g topic count
  | DeleteRecords topic partitions before => λ g, delete_records g topic partitions before
  | Produce record => λ g, op_done (produce g record)
  | ResetOffsets reset => λ g, op_done (reset_offsets g reset)
  | DeleteOffsets group topic => λ g, delete_offsets g group topic
  | DeleteGroup group => λ g, delete_group g group
  | RegisterSchema schema => λ g, op_done (register_schema g schema)
  | SetCompatibility subject level => λ g, set_compatibility g subject level
  | DeleteSchema deletion => λ g, delete_schema g deletion
  | CreateAcls acls => λ g, create_acls g acls
  | DeleteAcl acl => λ g, delete_acl g acl
  | AlterQuota quota => λ g, set_client_quota g quota
  | SetScramCredential credential => λ g, set_scram_credential g credential
  | DeleteScramCredential user mechanism => λ g, delete_scram_credential g user mechanism
  | AlterBrokerConfigs scope edit => λ g, alter_broker_configs g scope edit
  end.

(** A request for a change, from the caller's session on. *)
Definition execute (s : Session) (name : string) (op : WriteOp) (t : nat)
    : list Event * result ApiError () * nat :=
  match session_cluster s name with
  | Err e => ([], Err e, t)
  | Ok h =>
      match write_capability (needs op) h with
      | Err e => ([], Err (ApiAccess e), t)
      | Ok g => let '(events, r, t) := perform op g t in (events, map_err ApiKafka r, t)
      end
  end.

(** ** What a write amounts to *)

Definition writes (events : list Event) : list Write :=
  omap (λ event, match event with Wrote w => Some w | _ => None end) events.

Section planned.
Context (c : Cluster).

Definition topic_at (t : nat) (topic : string) : result KafkaError TopicInfo :=
  topic_read (cl_name c) (cl_topology c t) topic (λ info, info).

Definition group_at (t : nat) (group : string) : result KafkaError GroupInfo :=
  ok_or (known ← cl_topology c t; Tables.group known group) (UnknownGroup (cl_name c) group).

Definition group_stopped_at (t : nat) (group : string) : result KafkaError () :=
  info ← group_at t group; if has_members (gi_state info) then Err (ActiveGroup group) else Ok ().

Definition subject_at (t : nat) (subject : string) (version : option Z) : result KafkaError () :=
  if subject_known (cl_subjects c t) subject version then Ok ()
  else Err (UnknownSubject (cl_name c) subject (default 0%Z version)).

(** The partitions [partitions] names of a topic that may be written, all when it names none. *)
Definition partitions_at (t : nat) (topic : string) (partitions : list Z) : result KafkaError (list Z) :=
  info ← topic_at t topic;
  match stray_partition (partition_ids info) partitions with
  | Some partition => Err (UnknownPartition (cl_name c) topic partition)
  | None => Ok (or_all (partition_ids info) partitions)
  end.

Definition moves_at (t2 t3 : nat) (reset : OffsetReset) : result KafkaError (list OffsetMove) :=
  partitions ← match or_topic reset with
               | None => Ok None
               | Some topic =>
                   partitions ← partitions_at t2 topic (or_partitions reset); Ok (Some (topic, partitions))
               end;
  plan_reset (cl_offsets c t3) (or_group reset) partitions (or_to reset).

(** The one write a change makes, if it makes one, from what the lanes and the session said
    of the groups at [t1], of the topics, subjects and brokers at [t2] and of the offsets
    at [t3]. *)
Definition planned (t1 t2 t3 : nat) (op : WriteOp) : result KafkaError (option Write) :=
  match op with
  | CreateTopic topic => Ok (Some (WCreateTopic topic))
  | DeleteTopic topic => _ ← topic_at t2 topic; Ok (Some (WDeleteTopic topic))
  | AlterTopicConfigs topic edit => _ ← topic_at t2 topic; Ok (Some (WAlterTopicConfigs topic edit))
  | AddPartitions topic count => _ ← topic_at t2 topic; Ok (Some (WAddPartitions topic count))
  | DeleteRecords topic partitions before =>
      partitions ← partitions_at t2 topic partitions;
      Ok (Some (WDeleteRecords (record_deletion topic partitions before)))
  | Produce record =>
      _ ← partitions_at t2 (nr_topic record) (option_list (nr_partition record)); Ok (Some (WProduce record))
  | ResetOffsets reset =>
      _ ← group_stopped_at t1 (or_group reset);
      moves ← moves_at t2 t3 reset;
      Ok (if bool_decide (length moves = 0%nat) then None
          else Some (WAlterGroupOffsets (or_group reset) (move_committed <$> moves)))
  | DeleteOffsets group topic =>
      info ← group_at t1 group;
      if consumes info topic then Err (ConsumedTopic group topic)
      else
        committed ← os_committed_offsets (cl_offsets c t3) group;
        Ok (if bool_decide (length (committed_on committed topic) = 0%nat) then None
            else Some (WDeleteGroupOffsets group topic (committed_on committed topic)))
  | DeleteGroup group => _ ← group_stopped_at t1 group; Ok (Some (WDeleteGroup group))
  | RegisterSchema schema => Ok (Some (WRegisterSchema schema))
  | SetCompatibility subject level =>
      _ ← subject_at t2 subject None; Ok (Some (WSetCompatibility subject level))
  | DeleteSchema deletion =>
      _ ← subject_at t2 (sd_subject deletion) (sd_version deletion); Ok (Some (WDeleteSchema deletion))
  | CreateAcls acls => Ok (Some (WCreateAcls acls))
  | DeleteAcl acl => Ok (Some (WDeleteAcl acl))
  | AlterQuota quota => Ok (Some (WAlterClientQuota quota))
  | SetScramCredential credential => Ok (Some (WSetScramCredential credential))
  | DeleteScramCredential user mechanism => Ok (Some (WDeleteScramCredential user mechanism))
  | AlterBrokerConfigs scope edit =>
      match scope, cl_topology c t2 with
      | OneBroker id, Some topology =>
          if bool_decide (is_Some (tp_brokers topology !! id)) then Ok (Some (WAlterBrokerConfigs scope edit))
          else Err (UnknownBroker (cl_name c) id)
      | _, _ => Ok (Some (WAlterBrokerConfigs scope edit))
      end
  end.

(** What an operation did, against what it was to write. *)
Definition did {A} (plan : result KafkaError (option Write)) (events : list Event)
    (r : result KafkaError A) : Prop :=
  match plan with
  | Err e => events = [] ∧ r = Err e
  | Ok None => events = [] ∧ ∃ x, r = Ok x
  | Ok (Some w) =>
      writes events = [w] ∧
      match cl_write c w with
      | Ok _ => ∃ x, r = Ok x
      | Err e => events = [Wrote w] ∧ r = Err e
      end
  end.
End planned.

Lemma topic_read_at {A} c t topic (read : TopicInfo → A) :
  topic_read (cl_name c) (cl_topology c t) topic read = read <$> topic_at c t topic.
Proof.
  unfold topic_at, topic_read. destruct (_ ≫= _) as [info|]; [|done]. by destruct (ti_internal info).
Qed.

Lemma ok_or_fmap {E A B} (f : A → B) (o : option A) (e : E) : ok_or (f <$> o) e = f <$> ok_or o e.
Proof. by destruct o. Qed.

(** When an operation that starts at [t] reads what its write depends on. *)
Definition read_times (op : WriteOp) (t : nat) : nat * nat * nat :=
  match op with
  | ResetOffsets reset => (t, S t, match or_topic reset with Some _ => S (S t) | None => S t end)
  | DeleteOffsets _ _ => (t, t, S t)
  | _ => (t, t, t)
  end.

Lemma known_group_run {A} c group (read : GroupInfo → A) t :
  known_group c group read t = ([], read <$> group_at c t group, S t).
Proof. unfold known_group, group_at, op_bind, op_at, op_lift. by rewrite ok_or_fmap. Qed.

Lemma stopped_group_run c group t : stopped_group c group t = ([], group_stopped_at c t group, S t).
Proof.
  unfold stopped_group, op_bind, group_stopped_at. rewrite known_group_run.
  destruct (group_at c t group) as [info|]; [|done]. simpl. by destruct (has_members _).
Qed.

Lemma writable_topic_run {A} c topic (read : TopicInfo → A) t :
  writable_topic c topic read t = ([], read <$> topic_at c t topic, S t).
Proof. unfold writable_topic, op_bind, op_at, op_lift. by rewrite topic_read_at. Qed.

Lemma plan_run g reset t : ∃ t',
  plan g reset t = ([], moves_at (gr_cluster g) t
    (match or_topic reset with Some _ => S t | None => t end) reset, t').
Proof.
  unfold plan, moves_at, partitions_at, check_partitions. destruct (or_topic reset) as [topic|]; [|by eexists].
  unfold op_bind. rewrite writable_topic_run. destruct (topic_at _ t topic) as [info|e]; [|by eexists]. simpl.
  destruct (stray_partition _ _); by eexists.
Qed.

(** Runs an operation and what it was to write, case by case. *)
Ltac run_op :=
  repeat match goal with
  | H : context [match topic_at ?c ?t ?topic with _ => _ end] |- _ => destruct (topic_at c t topic); simplify_eq/=
  | H : context [match group_at ?c ?t ?group with _ => _ end] |- _ => destruct (group_at c t group); simplify_eq/=
  | H : context [match group_stopped_at ?c ?t ?group with _ => _ end] |- _ =>
      destruct (group_stopped_at c t group); simplify_eq/=
  | H : context [plan ?g ?reset ?t] |- _ => destruct (plan_run g reset t) as [? Hplan]; rewrite Hplan in H; clear Hplan
  | H : context [match cl_write ?c ?w with _ => _ end] |- _ => destruct (cl_write c w) eqn:?; simplify_eq/=
  | H : context [match ?x with _ => _ end] |- _ => destruct x eqn:?; simplify_eq/=
  end;
  repeat match goal with
  | H : ?x = _ |- context [?x] => rewrite H
  end.

Lemma perform_planned op (g : GrantedOn (needs op)) t events r t' :
  perform op g t = (events, r, t') →
  let '(t1, t2, t3) := read_times op t in
  did (gr_cluster g) (planned (gr_cluster g) t1 t2 t3 op) events r.
Proof.
  intros Hop. destruct op; cbn [needs perform read_times planned] in *;
    cbv [create_topic delete_topic alter_topic_configs add_partitions delete_records produce reset_offsets
      delete_offsets delete_group register_schema set_compatibility delete_schema create_acls delete_acl
      set_client_quota set_scram_credential delete_scram_credential alter_broker_configs
      op_bind op_ret op_lift op_event op_at op_write op_done settle known_subject
      known_broker check_partitions writable_partition] in Hop;
    rewrite ?writable_topic_run, ?known_group_run, ?stopped_group_run in Hop;
    unfold did, partitions_at, subject_at in *; cbv [fmap result_fmap mbind result_bind] in *.
  all: try (run_op; try done; cbn; rewrite ?Heqr; naive_solver; fail).
Qed.

(** What a request for a change comes to: whom it refuses, and what the change writes. *)
Definition verdict (s : Session) (name : string) (op : WriteOp) (t1 t2 t3 : nat)
    : result ApiError (Cluster * option Write) :=
  match privileges_for (se_access s) name with
  | None => Err (ApiAccess (UnknownAccessCluster name))
  | Some held =>
      match List.find (λ c, String.eqb (cl_name c) name) (se_clusters s) with
      | None => Err (ApiKafka (UnknownCluster name))
      | Some c =>
          if negb (cl_writable c) then Err (ApiAccess (ReadOnlyCluster name))
          else if negb (bool_decide (needs op ∈ held)) then Err (ApiAccess (Forbidden name (needs op)))
          else pair c <$> map_err ApiKafka (planned c t1 t2 t3 op)
      end
  end.

(** A request that is let through runs the operation on the cluster it names. *)
Lemma execute_cases s name op t :
  match privileges_for (se_access s) name with
  | None => execute s name op t = ([], Err (ApiAccess (UnknownAccessCluster name)), t)
  | Some held =>
      match List.find (λ c, String.eqb (cl_name c) name) (se_clusters s) with
      | None => execute s name op t = ([], Err (ApiKafka (UnknownCluster name)), t)
      | Some c =>
          if negb (cl_writable c) then execute s name op t = ([], Err (ApiAccess (ReadOnlyCluster name)), t)
          else if negb (bool_decide (needs op ∈ held))
          then execute s name op t = ([], Err (ApiAccess (Forbidden name (needs op))), t)
          else ∃ g : GrantedOn (needs op), gr_cluster g = c ∧
            execute s name op t = let '(events, r, t) := perform op g t in (events, map_err ApiKafka r, t)
      end
  end.
Proof.
  unfold execute, session_cluster, access_cluster, clusters_get.
  destruct (privileges_for _ name) as [held|]; [|done]. cbn [map_err mbind result_bind ca_cluster].
  destruct (List.find _ _) as [c|]; [|done]. cbn [map_err mbind result_bind ok_or].
  unfold write_capability, writable, capability, check, allows. cbn [ch_cluster ch_access ca_cluster ca_privileges].
  destruct (cl_writable c); [|done]. cbn [negb mbind result_bind].
  destruct (bool_decide (needs op ∈ held)); [|done]. cbn [negb fmap result_fmap mbind result_bind].
  by exists {| gr_cap := cap (needs op); gr_cluster := c |}.
Qed.

(** ** What a write needs *)

Definition privilege_of (w : Write) : Privilege :=
  match w with
  | WCreateTopic _ => PCreateTopics
  | WDeleteTopic _ => PDeleteTopics
  | WAlterTopicConfigs _ _ => PAlterTopicConfigs
  | WAlterBrokerConfigs _ _ => PAlterBrokerConfigs
  | WAddPartitions _ _ => PAddPartitions
  | WDeleteRecords _ => PDeleteRecords
  | WProduce _ => PProduce
  | WAlterGroupOffsets _ _ => PResetOffsets
  | WDeleteGroup _ => PDeleteGroups
  | WDeleteGroupOffsets _ _ _ => PDeleteOffsets
  | WRegisterSchema _ => PRegisterSchemas
  | WDeleteSchema _ => PDeleteSchemas
  | WSetCompatibility _ _ => PSetCompatibility
  | WCreateAcls _ => PCreateAcls
  | WDeleteAcl _ => PDeleteAcls
  | WAlterClientQuota _ => PAlterQuotas
  | WSetScramCredential _ => PSetScramCredentials
  | WDeleteScramCredential _ _ => PDeleteScramCredentials
  end.

(** The topology lists the topic, and not as an internal one. *)
Definition open_topic (c : Cluster) (t : nat) (topic : string) (info : TopicInfo) : Prop :=
  ∃ topology, cl_topology c t = Some topology ∧ tp_topics topology !! topic = Some info ∧
    ti_internal info = false.

Definition listed_group (c : Cluster) (t : nat) (group : string) (info : GroupInfo) : Prop :=
  ∃ topology, cl_topology c t = Some topology ∧ tp_groups topology !! group = Some info.

(** What holds of the lanes at [t] when [w] is safe to make. *)
Definition guarded (c : Cluster) (t : nat) (w : Write) : Prop :=
  match w with
  | WDeleteTopic topic | WAlterTopicConfigs topic _ | WAddPartitions topic _ => ∃ info, open_topic c t topic info
  | WDeleteRecords deletion =>
      ∃ info, open_topic c t (rd_topic deletion) info ∧
        ∀ partition, is_Some (rd_before deletion !! partition) → partition ∈ partition_ids info
  | WProduce record =>
      ∃ info, open_topic c t (nr_topic record) info ∧
        ∀ partition, nr_partition record = Some partition → partition ∈ partition_ids info
  | WAlterGroupOffsets group _ | WDeleteGroup group =>
      ∃ info, listed_group c t group info ∧ has_members (gi_state info) = false
  | WDeleteGroupOffsets group topic _ =>
      ∃ info, listed_group c t group info ∧ consumes info topic = false
  | WSetCompatibility subject _ => subject_known (cl_subjects c t) subject None = true
  | WDeleteSchema deletion =>
      subject_known (cl_subjects c t) (sd_subject deletion) (sd_version deletion) = true
  | WAlterBrokerConfigs (OneBroker id) _ =>
      ∀ topology, cl_topology c t = Some topology → is_Some (tp_brokers topology !! id)
  | _ => True
  end.

Lemma topic_at_open c t topic info : topic_at c t topic = Ok info → open_topic c t topic info.
Proof.
  unfold topic_at, topic_read, open_topic. destruct (cl_topology c t) as [topology|]; [|done]. csimpl.
  destruct (tp_topics topology !! topic) as [i|] eqn:E; [|done]. destruct (ti_internal i) eqn:Ei; [done|].
  intros [= <-]. eauto.
Qed.

Lemma group_at_listed c t group info : group_at c t group = Ok info → listed_group c t group info.
Proof.
  unfold group_at, listed_group, Tables.group. destruct (cl_topology c t) as [topology|]; [|done]. csimpl.
  destruct (tp_groups topology !! group) as [i|] eqn:E; [|done]. intros [= <-]. eauto.
Qed.

Lemma group_stopped_listed c t group x : group_stopped_at c t group = Ok x →
  ∃ info, listed_group c t group info ∧ has_members (gi_state info) = false.
Proof.
  unfold group_stopped_at. destruct (group_at c t group) as [info|] eqn:E; [|done]. csimpl.
  destruct (has_members _) eqn:Em; [done|]. intros _. exists info. split; [by apply group_at_listed|done].
Qed.

Lemma subject_at_known c t subject version x :
  subject_at c t subject version = Ok x → subject_known (cl_subjects c t) subject version = true.
Proof. unfold subject_at. by destruct (subject_known _ _ _). Qed.

Lemma stray_partition_none known partitions :
  stray_partition known partitions = None → ∀ p, p ∈ partitions → p ∈ known.
Proof.
  unfold stray_partition. intros H p Hp%list_elem_of_In. pose proof (find_none _ _ H p Hp) as Hn.
  by apply negb_false_iff, bool_decide_eq_true in Hn.
Qed.

Lemma partitions_at_open c t topic partitions wanted :
  partitions_at c t topic partitions = Ok wanted →
  ∃ info, open_topic c t topic info ∧ (∀ p, p ∈ wanted → p ∈ partition_ids info) ∧
    ∀ p, p ∈ partitions → p ∈ partition_ids info.
Proof.
  unfold partitions_at. destruct (topic_at c t topic) as [info|] eqn:E; [|done]. csimpl.
  destruct (stray_partition _ _) eqn:Es; [done|]. intros [= <-]. exists info.
  split; [by apply topic_at_open|]. pose proof (stray_partition_none _ _ Es). split; [|done].
  unfold or_all. by destruct (bool_decide _).
Qed.

Lemma record_deletion_partitions topic partitions before p :
  is_Some (rd_before (record_deletion topic partitions before) !! p) → p ∈ partitions.
Proof.
  simpl. intros [x Hx]. pose proof (collect_cases ((λ q, (q, before)) <$> partitions) p) as Hc.
  rewrite Hx in Hc. apply list_elem_of_fmap in Hc as (q & [= -> _] & Hq). done.
Qed.

Lemma planned_guarded c t1 t2 t3 op w : planned c t1 t2 t3 op = Ok (Some w) →
  privilege_of w = needs op ∧ (guarded c t1 w ∨ guarded c t2 w).
Proof.
  intros Hp. destruct op; cbn [planned needs] in *.
  all: try (destruct (topic_at c t2 _) as [info|] eqn:E; [|done]; cbn in Hp; simplify_eq;
    split; [done|]; right; exists info; by apply topic_at_open).
  all: try (destruct (subject_at c t2 _ _) eqn:E; [|done]; cbn in Hp; simplify_eq;
    split; [done|]; right; by eapply subject_at_known).
  all: try (by simplify_eq; split; [|left]).
  - destruct (partitions_at c t2 _ _) as [wanted|] eqn:E; [|done]. cbn in Hp. simplify_eq.
    split; [done|]. right. destruct (partitions_at_open _ _ _ _ _ E) as (info & Ho & Hin & _).
    exists info. split; [done|]. intros p Hq. by eapply Hin, record_deletion_partitions.
  - destruct (partitions_at c t2 _ _) as [wanted|] eqn:E; [|done]. cbn in Hp. simplify_eq.
    split; [done|]. right. destruct (partitions_at_open _ _ _ _ _ E) as (info & Ho & _ & Hin).
    exists info. split; [done|]. intros p Hq. apply Hin. rewrite Hq. by left.
  - destruct (group_stopped_at c t1 _) eqn:E; [|done]. cbn in Hp.
    destruct (moves_at c t2 t3 reset); [|done]. cbn in Hp. destruct (bool_decide _); simplify_eq.
    split; [done|]. left. by eapply group_stopped_listed.
  - destruct (group_at c t1 _) as [info|] eqn:E; [|done]. cbn in Hp.
    destruct (consumes info topic) eqn:Ec; [done|].
    destruct (os_committed_offsets _ _); [|done]. cbn in Hp. destruct (bool_decide _); simplify_eq.
    split; [done|]. left. exists info. split; [by apply group_at_listed|done].
  - destruct (group_stopped_at c t1 _) eqn:E; [|done]. cbn in Hp. simplify_eq.
    split; [done|]. left. by eapply group_stopped_listed.
  - destruct scope as [id|]; [|by simplify_eq; split; [|left]].
    destruct (cl_topology c t2) as [topology|] eqn:E.
    + destruct (bool_decide _) eqn:Eb; simplify_eq. split; [done|]. right. simpl. intros topology' Ht.
      simplify_eq. by apply bool_decide_eq_true in Eb.
    + simplify_eq. split; [done|]. right. simpl. intros topology' Ht. by rewrite E in Ht.
Qed.

(** ** Properties *)

(** C7 A request for a change does what its verdict says and nothing else. A caller with no
    access to the cluster, a cluster that is read-only, a missing privilege and a failed
    guard each refuse it in that order, before anything is written; a change that has
    nothing to write succeeds; any other makes its one write, answers Kafka's refusal of it,
    and waits for it to show only once Kafka took it. Lanes may change between the reads. *)
Theorem execute_refines s name op t events r t' :
  execute s name op t = (events, r, t') →
  ∃ t1 t2 t3, (t ≤ t1 ≤ t2 ∧ t2 ≤ t3)%nat ∧
  match verdict s name op t1 t2 t3 with
  | Err e => events = [] ∧ r = Err e
  | Ok (c, None) => events = [] ∧ r = Ok ()
  | Ok (c, Some w) =>
      writes events = [w] ∧
      match cl_write c w with
      | Ok _ => r = Ok ()
      | Err e => events = [Wrote w] ∧ r = Err (ApiKafka e)
      end
  end.
Proof.
  intros Hx. destruct (read_times op t) as [[t1 t2] t3] eqn:Et. exists t1, t2, t3.
  assert (t ≤ t1 ≤ t2 ∧ t2 ≤ t3)%nat as Hle.
  { destruct op; simpl in Et; simplify_eq; try lia. destruct (or_topic _); simplify_eq; lia. }
  split; [done|]. clear Hle. pose proof (execute_cases s name op t) as He. unfold verdict. rewrite Hx in He.
  destruct (privileges_for _ name) as [held|]; [|by simplify_eq].
  destruct (List.find _ _) as [c|]; [|by simplify_eq].
  destruct (negb (cl_writable c)); [by simplify_eq|].
  destruct (negb (bool_decide (needs op ∈ held))); [by simplify_eq|]. destruct He as (g & <- & Hg).
  destruct (perform op g t) as [[events' r'] t''] eqn:Ep. simplify_eq.
  apply perform_planned in Ep. rewrite Et in Ep. unfold did in Ep.
  destruct (planned _ t1 t2 t3 op) as [[w|]|e]; cbn.
  - destruct Ep as [Hw Hr]. split; [done|]. destruct (cl_write _ w); [by destruct Hr as [[] ->]|].
    by destruct Hr as [-> ->].
  - by destruct Ep as [-> [[] ->]].
  - by destruct Ep as [-> ->].
Qed.

(** C3 Nothing is written without leave: a request that writes names a configured cluster
    whose switch allows writes and on which the caller holds the write's own privilege, and
    makes that one write; the lanes showed, when the request read them, a topic it changes
    as known and not internal with the partitions it names, a group whose offsets it moves
    or that it deletes as stopped, a topic whose offsets it deletes as not consumed by the
    group, and a subject it changes as known. *)
Theorem writes_authorized s name op t events r t' w :
  execute s name op t = (events, r, t') → w ∈ writes events →
  ∃ c held t0, List.find (λ c, String.eqb (cl_name c) name) (se_clusters s) = Some c ∧
    cl_writable c = true ∧
    privileges_for (se_access s) name = Some held ∧ privilege_of w ∈ held ∧
    writes events = [w] ∧ (t ≤ t0)%nat ∧ guarded c t0 w.
Proof.
  intros Hx Hw. pose proof (execute_cases s name op t) as He. rewrite Hx in He.
  destruct (privileges_for _ name) as [held|]; [|by simplify_eq; apply not_elem_of_nil in Hw].
  destruct (List.find _ _) as [c|]; [|by simplify_eq; apply not_elem_of_nil in Hw].
  destruct (cl_writable c) eqn:Ew; [|by simplify_eq/=; apply not_elem_of_nil in Hw]. cbn [negb] in He.
  destruct (bool_decide (needs op ∈ held)) eqn:Eh; [|by simplify_eq/=; apply not_elem_of_nil in Hw].
  apply bool_decide_eq_true in Eh. destruct He as (g & <- & Hg).
  destruct (perform op g t) as [[events' r'] t''] eqn:Ep. simplify_eq.
  apply perform_planned in Ep. destruct (read_times op t) as [[t1 t2] t3] eqn:Et. unfold did in Ep.
  assert (t ≤ t1 ∧ t ≤ t2)%nat as [Ht1 Ht2] by (destruct op; simpl in Et; simplify_eq; lia).
  destruct (planned _ t1 t2 t3 op) as [[w'|]|e] eqn:Epl; [|by destruct Ep as [-> _]; apply not_elem_of_nil in Hw..].
  destruct Ep as [Hws _]. rewrite Hws in Hw. apply list_elem_of_singleton in Hw as ->.
  apply planned_guarded in Epl as [Hp Hg']. rewrite <- Hp in Eh.
  exists (gr_cluster g), held. destruct Hg' as [Hg'|Hg']; [exists t1|exists t2]; done.
Qed.

(** ** Witnesses *)

(** A cluster with one topic and one stopped group. *)
Definition sample_topology (t : nat) : option Topology :=
  Some {| tp_controller := Some 1%Z; tp_brokers := ∅;
    tp_topics := {[ "orders" := {| ti_internal := false; ti_partitions := [
      {| id := 0; leader := 1; replicas := [1]; isr := [1] |};
      {| id := 1; leader := 1; replicas := [1]; isr := [1] |}] |} ]};
    tp_groups := {[ "billing" := {| gi_state := EmptyGroup; gi_protocol := "range"; gi_members := [] |} ]};
    tp_topic_groups := {[ "orders" := ["billing"] ]} |}%Z.

Definition sample_cluster : Cluster :=
  {| cl_name := "dev"; cl_writable := true; cl_topology := sample_topology; cl_subjects _ := None;
     cl_offsets _ := sample_offset_session;
     cl_broker_configs _ _ := Ok [];
     cl_write w := match w with
       | WDeleteRecords _ => Ok {[ 0%Z := 5%Z ]}
       | WProduce _ => Ok {| pd_partition := 0; pd_offset := 9 |}
       | WRegisterSchema _ => Ok {| rv_id := 1; rv_version := 1 |}
       | _ => Ok ()
       end |}.

Definition sample_session : Session :=
  {| se_access := mcp_access {| mcp_privileges := [PDeleteRecords; PDeleteGroups]; mcp_clusters := None |};
     se_clusters := [sample_cluster] |}.

Definition sample_write : Write := WDeleteRecords (record_deletion "orders" [1%Z] (Some 5%Z)).

Lemma execute_refines_witness :
  ∃ events t', execute sample_session "dev" (DeleteRecords "orders" [7%Z] None) 0 =
      (events, Err (ApiKafka (UnknownPartition "dev" "orders" 7)), t') ∧ events = [].
Proof.
  eexists _, _. split; [vm_compute; reflexivity|].
  pose proof (execute_refines sample_session "dev" (DeleteRecords "orders" [7%Z] None) 0) as Hr.
  destruct (Hr _ _ _ eq_refl) as (t1 & t2 & t3 & _ & H). exact (proj1 H).
Defined.

Lemma writes_authorized_witness :
  ∃ events t', execute sample_session "dev" (DeleteRecords "orders" [1%Z] (Some 5%Z)) 0 = (events, Ok (), t') ∧
    writes events = [sample_write] ∧ ∃ t0, guarded sample_cluster t0 sample_write.
Proof.
  eexists _, _. split; [vm_compute; reflexivity|]. split; [vm_compute; reflexivity|].
  destruct (writes_authorized sample_session "dev" (DeleteRecords "orders" [1%Z] (Some 5%Z)) 0
    _ _ _ sample_write eq_refl) as (c & held & t0 & Hc & _ & _ & _ & _ & _ & Hg); [by left|].
  exists t0. simpl in Hc. injection Hc as <-. exact Hg.
Defined.
