(* ===== verification/Tuning.v ===== *)
(** [src/config/tuning.rs], but for its [RecordLimits], and the durations of [src/config.rs]:
    the settings a config may change. A duration is in nanoseconds. *)

From S2P Require Import Prelude Query.

Definition from_secs (secs : Z) : Z := (secs * 1000000000)%Z.
Definition from_millis (millis : Z) : Z := (millis * 1000000)%Z.

(** [parsed] is what jiff reads of the text. *)
Definition at_least_one_second (parsed : result string Z) : result string Z :=
  duration ← parsed;
  if (duration <? from_secs 1)%Z then Err "must be at least 1s" else Ok duration.

Record KafkaTuning : Set := {
  connect_timeout : Z;
  request_timeout : Z;
  kt_consume_timeout : Z;
  max_in_flight_requests : Z;
  max_response_mib : Z;
}.

Definition max_response_bytes (tuning : KafkaTuning) : Z := usize_saturating_mul (max_response_mib tuning) (1024 * 1024).

Definition KafkaTuning_default : KafkaTuning := {|
  connect_timeout := from_secs 10;
  request_timeout := from_secs 10;
  kt_consume_timeout := from_secs 5;
  max_in_flight_requests := 32;
  max_response_mib := 32;
|}.

Record SchemaRegistryTuning : Set := {
  registry_timeout : Z;
  subject_fetch_concurrency : Z;
  missing_schema_ttl : Z;
}.

Definition SchemaRegistryTuning_default : SchemaRegistryTuning := {|
  registry_timeout := from_secs 5;
  subject_fetch_concurrency := 8;
  missing_schema_ttl := from_secs 60;
|}.

Record ScanTuning : Set := {
  pool_per_topic : Z;
  pool_total : Z;
  pool_idle_ttl : Z;
  scan_poll_wait : Z;
}.

Definition ScanTuning_default : ScanTuning := {|
  pool_per_topic := 2;
  pool_total := 16;
  pool_idle_ttl := from_secs 60;
  scan_poll_wait := from_millis 100;
|}.

Record TailTuning : Set := {
  tt_batch_limit : Z;
  tt_interval : Z;
  tt_poll_wait : Z;
  tt_max_live : Z;
}.

Definition TailTuning_default : TailTuning := {|
  tt_batch_limit := 100;
  tt_interval := from_millis 250;
  tt_poll_wait := from_millis 500;
  tt_max_live := 32;
|}.

Record IngestTuning : Set := {
  it_topology : Z;
  it_high_watermark : Z;
  it_low_watermark : Z;
  it_config : Z;
  it_subjects : Z;
  it_log_dirs : Z;
  it_acls : Z;
  it_quotas : Z;
  it_scram_users : Z;
  it_offset_tick : Z;
  it_fast_offset : Z;
  it_slow_offset : Z;
  it_offset_fetch_concurrency : Z;
  it_interest_ttl : Z;
  it_idle_heartbeat : Z;
  it_max_sample_gap : Z;
}.

Definition IngestTuning_default : IngestTuning := {|
  it_topology := from_secs 10;
  it_high_watermark := from_secs 3;
  it_low_watermark := from_secs 30;
  it_config := from_secs 60;
  it_subjects := from_secs 30;
  it_log_dirs := from_secs 60;
  it_acls := from_secs 60;
  it_quotas := from_secs 60;
  it_scram_users := from_secs 60;
  it_offset_tick := from_secs 1;
  it_fast_offset := from_secs 2;
  it_slow_offset := from_secs 20;
  it_offset_fetch_concurrency := 32;
  it_interest_ttl := from_secs 30;
  it_idle_heartbeat := from_secs 15;
  it_max_sample_gap := from_secs 15;
|}.

Record McpTuning : Set := { max_concurrent_calls : Z; live_calls_per_minute : Z }.

Definition McpTuning_default : McpTuning := {| max_concurrent_calls := 16; live_calls_per_minute := 30 |}.

Record Tuning : Set := {
  tn_kafka : KafkaTuning;
  tn_schema_registry : SchemaRegistryTuning;
  tn_scan : ScanTuning;
  tn_records : RecordLimits;
  tn_tail : TailTuning;
  tn_ingest : IngestTuning;
  tn_mcp : McpTuning;
}.

(** [Tuning::default], which is derived. *)
Definition Tuning_default : Tuning := {|
  tn_kafka := KafkaTuning_default;
  tn_schema_registry := SchemaRegistryTuning_default;
  tn_scan := ScanTuning_default;
  tn_records := RecordLimits_default;
  tn_tail := TailTuning_default;
  tn_ingest := IngestTuning_default;
  tn_mcp := McpTuning_default;
|}.

Lemma max_response_bytes_bounds tuning :
  (1 ≤ max_response_mib tuning)%Z → (1048576 ≤ max_response_bytes tuning ≤ usize_max)%Z.
Proof. unfold max_response_bytes, usize_saturating_mul, usize_max. lia. Qed.
