(* ===== verification/Convert.v ===== *)
(** [src/kafka/client/convert.rs], [src/kafka/client/groups.rs] and
    [src/kafka/client/offsets.rs], with [upsertion] of [src/kafka/scram.rs]: krafka's answers as
    klens keeps them, and klens' changes as krafka takes them. krafka's types are records of the
    fields the source reads or sets. *)

From Stdlib Require Import Ascii.
From S2P Require Import Prelude Text Errors Metadata TopicConfig Group Reset Quota Registry Handle.

(** ** krafka's types *)

Definition TopicPartition : Set := string * Z.

Record WireBroker : Set := { wb_id : Z; wb_host : string; wb_port : Z; wb_rack : option string }.

Record WirePartition : Set := { wp_partition : Z; wp_leader : Z; wp_replicas : list Z; wp_isr : list Z }.

(** The partitions are the values of its map, in the map's order. *)
Record WireTopic : Set := { wt_name : string; wt_is_internal : bool; wt_partitions : list WirePartition }.

Record FetchMetadataResult : Set := { fm_brokers : list WireBroker; fm_topics : list WireTopic }.

Record ConsumerGroupListing : Set := { gl_group_id : string; gl_state : option string }.

Record ConsumerGroupMember : Set := {
  cm_member_id : string;
  cm_client_id : string;
  cm_client_host : string;
  cm_assignment : option (list (string * list Z));
}.

Record ConsumerGroupDescription : Set := {
  cg_group_id : string;
  cg_state : string;
  cg_assignor : option string;
  cg_members : list ConsumerGroupMember;
}.

Record LogDirDescription : Set := {
  dd_total_bytes : option Z;
  dd_usable_bytes : option Z;
  dd_is_cordoned : bool;
  dd_replicas : list (TopicPartition * (Z * bool));
}.

Record KrafkaConfigEntry : Set := {
  kc_name : string;
  kc_value : option string;
  kc_config_source : Z;
  kc_read_only : bool;
  kc_is_sensitive : bool;
}.

Inductive ConfigOp : Set := ConfigSet (name value : string) | ConfigDelete (name : string).

Inductive ConfigResource : Set := TopicConfigs (topic : string) | BrokerConfigs_ (id : Z) | BrokerDefaults.

Record WireNewTopic : Set := {
  wn_name : string;
  wn_partitions : Z;
  wn_replication_factor : Z;
  wn_configs : list (string * string);
}.

Record WireRecord : Set := {
  wr_topic : string;
  wr_partition : option Z;
  wr_key : option string;
  wr_value : option string;
  wr_headers : list (string * option string);
}.

Record ScramCredentialUpsertion : Set := {
  up_name : string;
  up_mechanism : WireMechanism;
  up_iterations : Z;
  up_salt : string;
  up_salted_password : string;
}.

(** krafka's checks, and the hash of a password. *)
Class KrafkaLib : Type := {
  is_retriable : ErrorCode → bool;
  new_topic_check : string → Z → Z → result KrafkaError ();
  pbkdf2_hmac : ScramMechanism → string → string → Z → string;
}.

(** ** Metadata *)

Definition topic_from_krafka (topic : WireTopic) : TopicMetadata :=
  let partitions :=
    (λ p, {| id := wp_partition p; leader := wp_leader p; replicas := wp_replicas p; isr := wp_isr p |}) <$> wt_partitions topic in
  {| tm_name := wt_name topic;
     tm_internal := wt_is_internal topic || is_internal_topic (wt_name topic);
     tm_partitions := sort_by (λ a b, Z.compare (id a) (id b)) partitions |}.

Definition snapshot_from_krafka (cached : FetchMetadataResult) : MetadataSnapshot :=
  {| ms_brokers := (λ b, {| bm_id := wb_id b; bm_host := wb_host b; bm_port := wb_port b; bm_rack := wb_rack b |})
       <$> fm_brokers cached;
     ms_topics := topic_from_krafka <$> fm_topics cached |}.

(** ** Errors *)

Definition refused {A} (r : result KrafkaError A) : result KafkaError A :=
  map_err (λ error, match error with
    | Broker code message => Refused {| refusal_code := code; refusal_reason := Some message |}
    | error => Krafka error
    end) r.

Definition unless_denied {A} (r : result KrafkaError A) : result KafkaError (option A) :=
  match r with
  | Ok described => Ok (Some described)
  | Err (Broker ClusterAuthorizationFailed _) => Ok None
  | Err (Broker _ message) => Err (Admin message)
  | Err error => Err (Krafka error)
  end.

Definition produce_refusal `{!KrafkaLib} (error : KrafkaError) : KafkaError :=
  match error with
  | Broker code _ =>
      if negb (is_retriable code) then Refused {| refusal_code := code; refusal_reason := None |} else Krafka error
  | error => Krafka error
  end.

(** ** Changes *)

Definition HIGH_WATERMARK : Z := -1.

Definition deletion_to_krafka (deletion : RecordDeletion) : list (TopicPartition * Z) :=
  (λ entry, ((rd_topic deletion, entry.1), default HIGH_WATERMARK entry.2)) <$> btree_iter (rd_before deletion).

Definition record_to_krafka (record : NewRecord) : WireRecord :=
  {| wr_topic := nr_topic record; wr_partition := nr_partition record; wr_key := nr_key record; wr_value := nr_value record;
     wr_headers := (λ header, (header.1, Some header.2)) <$> nr_headers record |}.

Definition edit_to_krafka (edit : ConfigEdit) : list ConfigOp :=
  ((λ entry, ConfigSet entry.1 entry.2) <$> btree_iter (edit_set edit)) ++
  (ConfigDelete <$> sort_by String.compare (elements (edit_reset edit))).

Definition BROKER_DEFAULT : Z := -1.

Definition new_topic_to_krafka `{!KrafkaLib} (topic : NewTopic) : result KafkaError WireNewTopic :=
  let partitions := default BROKER_DEFAULT (nt_partitions topic) in
  let replication_factor := default BROKER_DEFAULT (nt_replication_factor topic) in
  _ ← map_err Krafka (new_topic_check (nt_name topic) partitions replication_factor);
  Ok {| wn_name := nt_name topic; wn_partitions := partitions; wn_replication_factor := replication_factor;
        wn_configs := btree_iter (nt_configs topic) |}.

Definition scope_to_krafka (scope : BrokerScope) : ConfigResource :=
  match scope with OneBroker id => BrokerConfigs_ id | EveryBroker => BrokerDefaults end.

(** [salted_with]; [upsertion] salts with random bytes. *)
Definition salted_with `{!KrafkaLib} (credential : NewScramCredential) (salt : string) : ScramCredentialUpsertion :=
  {| up_name := nc_user credential;
     up_mechanism := mechanism_wire (nc_mechanism credential);
     up_iterations := nc_iterations credential;
     up_salt := salt;
     up_salted_password :=
       pbkdf2_hmac (nc_mechanism credential) (nc_password credential) salt (cast_unsigned (nc_iterations credential)) |}.

(** ** Groups *)

Fixpoint trim_start_slashes (host : string) : string :=
  match host with
  | String c rest => if Ascii.eqb c "/" then trim_start_slashes rest else host
  | EmptyString => EmptyString
  end.

Definition assignment_from_krafka (assignment : string * list Z) : option MemberAssignment :=
  if is_empty assignment.1 then None
  else Some {| ma_topic := assignment.1; ma_partitions := assignment.2 |}.

Definition member_from_krafka (member : ConsumerGroupMember) : GroupMember :=
  {| gm_id := cm_member_id member;
     gm_client_id := cm_client_id member;
     gm_host := trim_start_slashes (cm_client_host member);
     gm_assignments := match cm_assignment member with Some assigned => omap assignment_from_krafka assigned | None => [] end |}.

Definition group_from_krafka (description : ConsumerGroupDescription) : GroupSnapshot :=
  {| gs_id := cg_group_id description;
     gs_state := parse_state (cg_state description);
     gs_protocol := default EmptyString (cg_assignor description);
     gs_members := member_from_krafka <$> cg_members description;
     gs_committed := [] |}.

Definition committed_offset_from_krafka (partition : TopicPartition) (offset : option Z) : option CommittedOffset :=
  offset ← offset;
  _ ← result_ok (validate_topic_name partition.1);
  Some {| co_topic := partition.1; co_partition := partition.2; co_offset := offset |}.

Definition committed_from_krafka (offsets : list (TopicPartition * result KrafkaError (option Z))) : list CommittedOffset :=
  omap (λ entry : TopicPartition * result KrafkaError (option Z),
    match entry.2 with Ok offset => committed_offset_from_krafka entry.1 offset | Err _ => None end) offsets.

Definition LISTED_GROUP_TYPES : list string := ["classic"; "consumer"].

Record ListedGroup : Set := { lg_id : string; lg_state : option GroupState }.

Definition listed_from_krafka (listing : ConsumerGroupListing) : ListedGroup :=
  {| lg_id := gl_group_id listing; lg_state := parse_state <$> gl_state listing |}.

Definition needs_description (group : ListedGroup) : bool :=
  match lg_state group with None => true | Some state => has_members state end.

Definition listed_snapshot (group : string) (state : GroupState) : GroupSnapshot :=
  {| gs_id := group; gs_state := state; gs_protocol := EmptyString; gs_members := []; gs_committed := [] |}.

Definition snapshot_from_description (entry : string * result KrafkaError ConsumerGroupDescription) : option GroupSnapshot :=
  if is_internal_group entry.1 then None
  else
    match entry.2 with
    | Ok description =>
        if eq_ignore_ascii_case (cg_state description) "dead" then None else Some (group_from_krafka description)
    | Err (Broker GroupIdNotFound _) => None
    | Err _ => Some (listed_snapshot entry.1 UnknownState)
    end.

Definition snapshots_from_descriptions (descriptions : list (string * result KrafkaError ConsumerGroupDescription))
    : list GroupSnapshot :=
  omap snapshot_from_description descriptions.

Fixpoint split_empty_groups (listed : list ListedGroup) : list string * list GroupSnapshot :=
  match listed with
  | [] => ([], [])
  | group :: listed =>
      let '(active, empty) := split_empty_groups listed in
      if is_internal_group (lg_id group) then (active, empty)
      else if needs_description group then (lg_id group :: active, empty)
      else (active, listed_snapshot (lg_id group) EmptyGroup :: empty)
  end.

(** ** Log directories and configs *)

Definition log_dir_from_krafka `{!KrafkaTexts} (broker : Z) (path : string) (dir : result KrafkaError LogDirDescription)
    : LogDir :=
  match dir with
  | Err error =>
      {| ld_broker := broker; ld_path := path; ld_error := Some (krafka_text error);
         ld_total_bytes := None; ld_usable_bytes := None; ld_cordoned := false; ld_replicas := [] |}
  | Ok dir =>
      {| ld_broker := broker; ld_path := path; ld_error := None;
         ld_total_bytes := dd_total_bytes dir; ld_usable_bytes := dd_usable_bytes dir; ld_cordoned := dd_is_cordoned dir;
         ld_replicas := (λ entry : TopicPartition * (Z * bool),
           {| rl_topic := entry.1.1; rl_partition := entry.1.2; rl_size_bytes := entry.2.1; rl_future := entry.2.2 |})
           <$> dd_replicas dir |}
  end.

Definition source_from_krafka (source : Z) : ConfigSource :=
  match source with
  | 1%Z => DynamicTopic
  | 2%Z => DynamicBroker
  | 3%Z => DynamicDefaultBroker
  | 4%Z => StaticBroker
  | _ => DefaultSource
  end.

Definition config_entry_from_krafka (entry : KrafkaConfigEntry) : ConfigEntry :=
  {| ce_name := kc_name entry; ce_value := kc_value entry; ce_source := source_from_krafka (kc_config_source entry);
     ce_read_only := kc_read_only entry; ce_sensitive := kc_is_sensitive entry |}.

(** ** Offsets *)

Definition NO_RECORD : string := "the broker reported no offset for this spec".

Definition log_offset (lookup : OffsetLookup) (listed : string * Z * result KrafkaError Z) : OffsetLookup :=
  let '(topic, partition, offset) := listed in
  match offset with
  | Ok offset => lookup_insert_ lookup topic partition offset
  | Err (Broker UnknownTopicOrPartition _) => lookup
  | Err error => lookup_fail lookup (Krafka error)
  end.

Definition log_offsets (listed : list (string * Z * result KrafkaError Z)) : OffsetLookup :=
  foldl log_offset lookup_default listed.

Fixpoint time_offsets_from (offsets : gmap Z (option Z)) (listed : list (string * Z * result KrafkaError Z))
    : result KafkaError (gmap Z (option Z)) :=
  match listed with
  | [] => Ok offsets
  | (_, partition, offset) :: listed =>
      match offset with
      | Ok offset => time_offsets_from (<[partition := Some offset]> offsets) listed
      | Err (Broker OffsetNotAvailable message) =>
          if String.eqb message NO_RECORD then time_offsets_from (<[partition := None]> offsets) listed
          else Err (Krafka (Broker OffsetNotAvailable message))
      | Err (Broker UnknownTopicOrPartition _) => time_offsets_from offsets listed
      | Err error => Err (Krafka error)
      end
  end.

Definition time_offsets (listed : list (string * Z * result KrafkaError Z)) : result KafkaError (gmap Z (option Z)) :=
  time_offsets_from ∅ listed.
