(* ===== verification/Interest.v ===== *)
(** [src/kafka/store/interest.rs]: which groups somebody watches, so that the offset lane
    reads them more often. The mutex makes each operation one step. *)

From S2P Require Import Prelude.

(** Times and durations in nanoseconds; [saturating_duration_since]. *)
Definition since (now at_ : Z) : Z := Z.max 0 (now - at_).

Record InterestState : Set := { is_leases : Z; is_touched_at : option Z }.

Definition InterestState_default : InterestState := {| is_leases := 0; is_touched_at := None |}.

Definition state_hot (s : InterestState) (now ttl : Z) : bool :=
  (0 <? is_leases s)%Z ||
  match is_touched_at s with Some at_ => (since now at_ <? ttl)%Z | None => false end.

Definition state_idle (s : InterestState) : bool :=
  (is_leases s =? 0)%Z && bool_decide (is_touched_at s = None).

Record InterestRegistry : Type := { ir_groups : gmap string InterestState; ir_ttl : Z }.

Definition registry_new (ttl : Z) : InterestRegistry := {| ir_groups := ∅; ir_ttl := ttl |}.

Definition with_groups (r : InterestRegistry) (groups : gmap string InterestState) : InterestRegistry :=
  {| ir_groups := groups; ir_ttl := ir_ttl r |}.

(** [lease_group]; its lease is the id [drop_lease] takes. *)
Definition lease_group (r : InterestRegistry) (id : string) : InterestRegistry :=
  let s := default InterestState_default (ir_groups r !! id) in
  with_groups r (<[id := {| is_leases := usize_add (is_leases s) 1; is_touched_at := is_touched_at s |}]>
    (ir_groups r)).

Definition touch_group (r : InterestRegistry) (id : string) (now : Z) : InterestRegistry :=
  let s := default InterestState_default (ir_groups r !! id) in
  with_groups r (<[id := {| is_leases := is_leases s; is_touched_at := Some now |}]> (ir_groups r)).

(** [hot_groups] forgets the groups that are not hot, and answers the others. *)
Definition hot_groups (r : InterestRegistry) (now : Z) : InterestRegistry * gset string :=
  let groups := filter (λ entry, state_hot entry.2 now (ir_ttl r) = true) (ir_groups r) in
  (with_groups r groups, dom groups).

(** [InterestLease]'s drop. *)
Definition drop_lease (r : InterestRegistry) (id : string) : InterestRegistry :=
  match ir_groups r !! id with
  | None => r
  | Some s =>
      let s := {| is_leases := Z.max 0 (is_leases s - 1); is_touched_at := is_touched_at s |} in
      with_groups r (if state_idle s then delete id (ir_groups r) else <[id := s]> (ir_groups r))
  end.

(** ** Histories *)

(** What happens to a registry, with the clock where the operation reads it. *)
Inductive InterestEvent : Set :=
  | Leased (id : string)
  | Dropped (id : string)
  | Touched (id : string) (now : Z)
  | Read_ (now : Z).

Definition interest_step (r : InterestRegistry) (e : InterestEvent) : InterestRegistry :=
  match e with
  | Leased id => lease_group r id
  | Dropped id => drop_lease r id
  | Touched id now => touch_group r id now
  | Read_ now => (hot_groups r now).1
  end.

Definition interest_run (ttl : Z) (history : list InterestEvent) : InterestRegistry :=
  foldl interest_step (registry_new ttl) history.

(** The leases of [id] still held, and when it was last touched. *)
Definition held_step (id : string) (n : Z) (e : InterestEvent) : Z :=
  match e with
  | Leased id' => if decide (id' = id) then n + 1 else n
  | Dropped id' => if decide (id' = id) then n - 1 else n
  | _ => n
  end%Z.
Definition held (history : list InterestEvent) (id : string) : Z := foldl (held_step id) 0%Z history.

Definition touch_step (id : string) (at_ : option Z) (e : InterestEvent) : option Z :=
  match e with Touched id' now => if decide (id' = id) then Some now else at_ | _ => at_ end.
Definition last_touch (history : list InterestEvent) (id : string) : option Z :=
  foldl (touch_step id) None history.

Definition event_time (e : InterestEvent) : option Z :=
  match e with Touched _ now | Read_ now => Some now | _ => None end.

(** The clock never goes back, and every drop is of a lease still held; usize counts the
    leases. *)
Inductive history_ok : list InterestEvent → Z → Prop :=
  | history_nil t : history_ok [] t
  | history_snoc history t e t' :
      history_ok history t → (t ≤ t')%Z →
      (∀ now, event_time e = Some now → (t ≤ now ≤ t')%Z) →
      (∀ id, (0 ≤ held (history ++ [e]) id < usize_modulus)%Z) →
      history_ok (history ++ [e]) t'.

(** [at_] is too long ago to count at [now]. *)
Definition cold (at_ : option Z) (now ttl : Z) : Prop :=
  match at_ with Some at_ => (ttl ≤ since now at_)%Z | None => True end.

#[export] Instance cold_dec at_ now ttl : Decision (cold at_ now ttl).
Proof. destruct at_; simpl; apply _. Defined.

(** What the registry keeps of a history at [t]: a forgotten group has no leases, and a
    forgotten touch is cold. *)
Definition tracks (r : InterestRegistry) (history : list InterestEvent) (t : Z) : Prop :=
  ∀ id,
    is_leases (default InterestState_default (ir_groups r !! id)) = held history id ∧
    (is_touched_at (default InterestState_default (ir_groups r !! id)) = last_touch history id ∨
     is_touched_at (default InterestState_default (ir_groups r !! id)) = None ∧
     cold (last_touch history id) t (ir_ttl r)).

Lemma cold_later at_ t t' ttl : (t ≤ t')%Z → cold at_ t ttl → cold at_ t' ttl.
Proof. destruct at_ as [at_|]; simpl; unfold since; [lia|done]. Qed.

Lemma state_hot_spec s now ttl :
  state_hot s now ttl = true ↔ (0 < is_leases s)%Z ∨ ¬ cold (is_touched_at s) now ttl.
Proof.
  unfold state_hot, cold. rewrite orb_true_iff, Z.ltb_lt.
  destruct (is_touched_at s) as [at_|]; [rewrite Z.ltb_lt; lia|]. naive_solver.
Qed.

Lemma held_snoc history e id : held (history ++ [e]) id = held_step id (held history id) e.
Proof. unfold held. by rewrite foldl_app. Qed.
Lemma last_touch_snoc history e id :
  last_touch (history ++ [e]) id = touch_step id (last_touch history id) e.
Proof. unfold last_touch. by rewrite foldl_app. Qed.
#[export] Hint Rewrite held_snoc last_touch_snoc : klens.

(** The state of a group that is not there is the default. *)
Definition state_of (r : InterestRegistry) (id : string) : InterestState :=
  default InterestState_default (ir_groups r !! id).

Lemma lease_state r id id' : state_of (lease_group r id') id =
  if decide (id' = id)
  then {| is_leases := usize_add (is_leases (state_of r id)) 1; is_touched_at := is_touched_at (state_of r id) |}
  else state_of r id.
Proof.
  unfold state_of. cbn [lease_group touch_group with_groups ir_groups]. destruct (decide (id' = id)) as [->|]; [by rewrite lookup_insert_eq|].
  by rewrite lookup_insert_ne.
Qed.

Lemma touch_state r id id' now : state_of (touch_group r id' now) id =
  if decide (id' = id) then {| is_leases := is_leases (state_of r id); is_touched_at := Some now |}
  else state_of r id.
Proof.
  unfold state_of. cbn [lease_group touch_group with_groups ir_groups]. destruct (decide (id' = id)) as [->|]; [by rewrite lookup_insert_eq|].
  by rewrite lookup_insert_ne.
Qed.

Lemma drop_state r id id' : state_of (drop_lease r id') id =
  if decide (id' = id)
  then {| is_leases := Z.max 0 (is_leases (state_of r id) - 1); is_touched_at := is_touched_at (state_of r id) |}
  else state_of r id.
Proof.
  unfold state_of, drop_lease. destruct (ir_groups r !! id') as [s|] eqn:E; cbn [with_groups ir_groups].
  - destruct (state_idle _) eqn:Ei; destruct (decide (id' = id)) as [->|].
    + rewrite lookup_delete_eq, E. simpl. unfold state_idle in Ei. simpl in Ei.
      apply andb_true_iff in Ei as [Hl%Z.eqb_eq Ht%bool_decide_eq_true]. by rewrite Hl, Ht.
    + by rewrite lookup_delete_ne.
    + by rewrite lookup_insert_eq, E.
    + by rewrite lookup_insert_ne.
  - destruct (decide (id' = id)) as [->|]; [|done]. by rewrite E.
Qed.

Lemma hot_lookup r now id : ir_groups (hot_groups r now).1 !! id =
  s ← ir_groups r !! id; if state_hot s now (ir_ttl r) then Some s else None.
Proof.
  simpl. destruct (ir_groups r !! id) as [s|] eqn:E; simpl.
  - destruct (state_hot s now (ir_ttl r)) eqn:Eh.
    + by apply map_lookup_filter_Some.
    + apply map_lookup_filter_None. right. intros s' Hs. rewrite E in Hs. injection Hs as <-. simpl. by rewrite Eh.
  - apply map_lookup_filter_None. by left.
Qed.

Lemma hot_state r now id : state_of (hot_groups r now).1 id =
  if state_hot (state_of r id) now (ir_ttl r) then state_of r id else InterestState_default.
Proof.
  unfold state_of. rewrite hot_lookup. destruct (ir_groups r !! id) as [s|]; [by simpl; destruct (state_hot s now (ir_ttl r))|].
  by destruct (state_hot (default _ None) _ _).
Qed.

Lemma step_ttl r e : ir_ttl (interest_step r e) = ir_ttl r.
Proof. destruct e; simpl; try done. unfold drop_lease. by destruct (ir_groups r !! id). Qed.

Lemma tracks_step r history t e t' :
  tracks r history t → (t ≤ t')%Z →
  (∀ now, event_time e = Some now → (t ≤ now ≤ t')%Z) →
  (∀ id, (0 ≤ held (history ++ [e]) id < usize_modulus)%Z) →
  tracks (interest_step r e) (history ++ [e]) t'.
Proof.
  intros Ht Hle Hnow Hheld id. specialize (Hheld id). destruct (Ht id) as [Hl Htouch].
  fold (state_of r id) in *. fold (state_of (interest_step r e) id). rewrite step_ttl.
  autorewrite with klens in *. assert (∀ at_, cold at_ t (ir_ttl r) → cold at_ t' (ir_ttl r)) as Hcold
    by (intros at_; by apply cold_later).
  destruct e as [id'|id'|id' now|now]; cbn [interest_step held_step touch_step] in *.
  - rewrite lease_state. destruct (decide (id' = id)); simpl; [|naive_solver].
    split; [|naive_solver]. rewrite Hl. unfold usize_add. by apply Z.mod_small.
  - rewrite drop_state. destruct (decide (id' = id)); simpl; [|naive_solver].
    split; [|naive_solver]. rewrite Hl. lia.
  - rewrite touch_state. destruct (decide (id' = id)); simpl; naive_solver.
  - rewrite hot_state. destruct (state_hot _ _ _) eqn:Eh; [naive_solver|].
    destruct (Hnow now eq_refl) as [_ Hle'].
    assert (¬ (state_hot (state_of r id) now (ir_ttl r) = true)) as Hn by by rewrite Eh.
    rewrite state_hot_spec in Hn. simpl. split; [lia|]. right. split; [done|].
    destruct Htouch as [<-|[_ Hc]]; [|by apply Hcold].
    destruct (decide (cold (is_touched_at (state_of r id)) now (ir_ttl r))) as [Hc|Hc]; [|naive_solver].
    by eapply cold_later.
Qed.

Lemma history_tracks ttl history t :
  history_ok history t → tracks (interest_run ttl history) history t ∧ ir_ttl (interest_run ttl history) = ttl.
Proof.
  unfold interest_run. induction 1 as [t|history t e t' _ [IH Httl] Hle Hnow Hheld].
  - split; [|done]. intros id. simpl. rewrite lookup_empty. simpl. by split; [|left].
  - rewrite foldl_app. simpl. split; [by eapply tracks_step|]. by rewrite step_ttl.
Qed.

(** ** Properties *)

(** The registry answers what happened to it: a group is hot exactly when a lease on it
    is still held or it was touched less than the time to live ago, whatever was forgotten
    on the way. *)
Theorem hot_groups_spec ttl history t now id :
  history_ok history t → (t ≤ now)%Z →
  id ∈ (hot_groups (interest_run ttl history) now).2 ↔
  (0 < held history id)%Z ∨ ∃ at_, last_touch history id = Some at_ ∧ (since now at_ < ttl)%Z.
Proof.
  intros Hok Hnow. destruct (history_tracks ttl _ _ Hok) as [Ht Httl]. destruct (Ht id) as [Hl Htouch].
  rewrite Httl in Htouch. simpl. rewrite elem_of_dom. unfold is_Some.
  pose proof (hot_lookup (interest_run ttl history) now id) as Hlook. simpl in Hlook. rewrite Hlook, Httl.
  destruct (ir_groups (interest_run ttl history) !! id) as [s|]; simpl in *.
  - destruct (state_hot s now ttl) eqn:Eh.
    + apply state_hot_spec in Eh. rewrite Hl in Eh. split; [intros _|by eexists].
      destruct Eh as [Eh|Eh]; [by left|]. destruct Htouch as [Htouch|[Htouch _]]; rewrite Htouch in Eh.
      * right. destruct (last_touch history id) as [at_|]; simpl in Eh; [|tauto]. exists at_. split; [done|lia].
      * simpl in Eh. tauto.
    + split; [by intros [? ?]|]. intros Hhot. exfalso.
      assert (¬ (state_hot s now ttl = true)) as Hn by by rewrite Eh.
      apply Hn, state_hot_spec. rewrite Hl. destruct Hhot as [?|(at_ & Hat & Hlt)]; [by left|]. right.
      destruct Htouch as [->|[_ Hc]]; [rewrite Hat; simpl; lia|].
      apply (cold_later _ t now) in Hc; [|done]. rewrite Hat in Hc. simpl in Hc. lia.
  - split; [by intros [? ?]|]. intros [?|(at_ & Hat & Hlt)]; [lia|]. rewrite Hat in Htouch.
    destruct Htouch as [Htouch|[_ Hc]]; [done|]. apply (cold_later _ t now) in Hc; [|done]. simpl in Hc. lia.
Qed.

(** ** Witnesses *)

Definition sample_history : list InterestEvent :=
  [Leased "billing"; Touched "orders" 10; Read_ 40; Dropped "billing"; Leased "orders"]%Z.

Lemma sample_history_ok : history_ok sample_history 40.
Proof.
  assert (∀ h e id, (0 ≤ held h id < 9)%Z → (0 ≤ held (h ++ [e]) id)%Z →
    (0 ≤ held (h ++ [e]) id < usize_modulus)%Z) as Hs.
  { intros h e id Hh. autorewrite with klens. unfold held_step, usize_modulus. repeat case_match; lia. }
  change sample_history with ([] ++ [Leased "billing"] ++ [Touched "orders" 10] ++ [Read_ 40] ++ [Dropped "billing"] ++ [Leased "orders"])%Z.
  rewrite !app_assoc.
  repeat (eapply history_snoc; [| |by intros ? [= <-]|]); try apply (history_nil 0); try done.
  all: intros id; unfold held; simpl; repeat case_decide; subst; try done; unfold usize_modulus; lia.
Qed.

Lemma hot_groups_spec_witness :
  history_ok sample_history 40 ∧ "orders" ∈ (hot_groups (interest_run 20 sample_history) 50).2.
Proof.
  split; [apply sample_history_ok|].
  apply (hot_groups_spec 20 sample_history 40 50 "orders" sample_history_ok); [lia|]. left. vm_compute. reflexivity.
Defined.
