(* ===== verification/Store.v ===== *)
(** [src/kafka/store/cluster.rs], with the rates of [src/kafka/store/rates.rs] and the
    changes of [src/kafka/store/bus.rs]: what klens holds of one cluster, and its reads.

    The bus is the list of the changes it was given, in order: what a subscriber who never
    lags behind receives. A handler reads each lane once; the reads below are on one state. *)

From Stdlib Require Import SpecFloat.
From S2P Require Import Prelude Text Metadata Group TopicConfig Tables Projections Bus Acl Quota Lane Interest.

(** ** Rates *)

Record TopicRate : Set := { rt_topic : string; rt_rate : spec_float }.

Abbreviation RateStore := (gmap string spec_float).

(** The rates after, and whether the stored rate changed; a NaN is never equal. *)
Definition rate_replace (rates : RateStore) (topic : string) (rate : spec_float) : RateStore * bool :=
  (<[topic := rate]> rates,
   match rates !! topic with Some old => negb (SFeqb old rate) | None => true end).

(** [Vec::retain] runs its test once per update, in order. *)
Fixpoint keep_changed (rates : RateStore) (updates : list TopicRate) : RateStore * list TopicRate :=
  match updates with
  | [] => (rates, [])
  | update :: updates =>
      let '(rates, changed) := rate_replace rates (rt_topic update) (rt_rate update) in
      let '(rates, kept) := keep_changed rates updates in
      (rates, if changed : bool then update :: kept else kept)
  end.

Definition rate_get (rates : RateStore) (topic : string) : option spec_float := rates !! topic.

Definition rates_retain (rates : RateStore) (live : string → bool) : RateStore :=
  filter (λ entry, live entry.1 = true) rates.

(** ** Changes *)

Record GroupLagUpdate : Set := {
  glu_group : string;
  glu_total_lag : Z;
  glu_lag_complete : bool;
  glu_offsets : list GroupOffset;
}.

#[export] Instance GroupLagUpdate_eq_dec : EqDecision GroupLagUpdate.
Proof. solve_decision. Defined.

Inductive Change : Set :=
  | ChTopology (delta : TopologyDelta)
  | ChWatermarks (rates : list TopicRate)
  | ChGroupOffsets (groups : list GroupLagUpdate)
  | ChConfigs (delta : ConfigsDelta)
  | ChSubjects (delta : SubjectsDelta)
  | ChLogDirs (delta : LogDirsDelta)
  | ChAcls
  | ChQuotas
  | ChScramUsers.

(** [WatermarksTick::rate] by binary search in the sorted rates: where a topic is listed
    once, its entry. *)
Definition tick_rate (rates : list TopicRate) (topic : string) : option spec_float :=
  rt_rate <$> List.find (λ rate, String.eqb (rt_topic rate) topic) rates.

Definition wave_group (groups : list GroupLagUpdate) (id : string) : option GroupLagUpdate :=
  List.find (λ update, String.eqb (glu_group update) id) groups.

(** ** The store *)

Record ClusterStore : Type := ClusterStore_ {
  cs_name : string;
  cs_topology : Lane Topology;
  cs_watermarks : Lane WatermarkTable;
  cs_offsets : Lane OffsetTable;
  cs_configs : Lane ConfigTable;
  cs_subjects : Lane SubjectTable;
  cs_schema_ids : Lane SchemaIdTable;
  cs_log_dirs : Lane LogDirTable;
  cs_acls : Lane AclListing;
  cs_quotas : Lane QuotaListing;
  cs_scram_users : Lane ScramListing;
  cs_rates : RateStore;
  cs_bus : list Change;
  cs_interest : InterestRegistry;
}.

Definition store_new (name : string) (interest_ttl : Z) : ClusterStore :=
  ClusterStore_ name Lane_default Lane_default Lane_default Lane_default Lane_default Lane_default
    Lane_default Lane_default Lane_default Lane_default ∅ [] (registry_new interest_ttl).

(** A field that holds a lane, which a source reads and writes. *)
Class LaneField (T : Type) : Type := {
  lane_of : ClusterStore → Lane T;
  set_lane : ClusterStore → Lane T → ClusterStore;
}.

#[export] Instance topology_field : LaneField Topology :=
  {| lane_of := cs_topology; set_lane '(ClusterStore_ n _ b c d e f g h i j k l m) x :=
       ClusterStore_ n x b c d e f g h i j k l m |}.
#[export] Instance watermarks_field : LaneField WatermarkTable :=
  {| lane_of := cs_watermarks; set_lane '(ClusterStore_ n a _ c d e f g h i j k l m) x :=
       ClusterStore_ n a x c d e f g h i j k l m |}.
#[export] Instance offsets_field : LaneField OffsetTable :=
  {| lane_of := cs_offsets; set_lane '(ClusterStore_ n a b _ d e f g h i j k l m) x :=
       ClusterStore_ n a b x d e f g h i j k l m |}.
#[export] Instance configs_field : LaneField ConfigTable :=
  {| lane_of := cs_configs; set_lane '(ClusterStore_ n a b c _ e f g h i j k l m) x :=
       ClusterStore_ n a b c x e f g h i j k l m |}.
#[export] Instance subjects_field : LaneField SubjectTable :=
  {| lane_of := cs_subjects; set_lane '(ClusterStore_ n a b c d _ f g h i j k l m) x :=
       ClusterStore_ n a b c d x f g h i j k l m |}.
#[export] Instance schema_ids_field : LaneField SchemaIdTable :=
  {| lane_of := cs_schema_ids; set_lane '(ClusterStore_ n a b c d e _ g h i j k l m) x :=
       ClusterStore_ n a b c d e x g h i j k l m |}.
#[export] Instance log_dirs_field : LaneField LogDirTable :=
  {| lane_of := cs_log_dirs; set_lane '(ClusterStore_ n a b c d e f _ h i j k l m) x :=
       ClusterStore_ n a b c d e f x h i j k l m |}.
#[export] Instance acls_field : LaneField AclListing :=
  {| lane_of := cs_acls; set_lane '(ClusterStore_ n a b c d e f g _ i j k l m) x :=
       ClusterStore_ n a b c d e f g x i j k l m |}.
#[export] Instance quotas_field : LaneField QuotaListing :=
  {| lane_of := cs_quotas; set_lane '(ClusterStore_ n a b c d e f g h _ j k l m) x :=
       ClusterStore_ n a b c d e f g h x j k l m |}.
#[export] Instance scram_users_field : LaneField ScramListing :=
  {| lane_of := cs_scram_users; set_lane '(ClusterStore_ n a b c d e f g h i _ k l m) x :=
       ClusterStore_ n a b c d e f g h i x k l m |}.

Definition set_rates (s : ClusterStore) (rates : RateStore) : ClusterStore :=
  match s with ClusterStore_ n a b c d e f g h i j _ l m => ClusterStore_ n a b c d e f g h i j rates l m end.

(** [ChangeBus::publish]. *)
Definition publish (s : ClusterStore) (change : Change) : ClusterStore :=
  match s with
  | ClusterStore_ n a b c d e f g h i j k l m => ClusterStore_ n a b c d e f g h i j k (l ++ [change]) m
  end.

Definition set_interest (s : ClusterStore) (interest : InterestRegistry) : ClusterStore :=
  match s with
  | ClusterStore_ n a b c d e f g h i j k l _ => ClusterStore_ n a b c d e f g h i j k l interest
  end.

(** What is written to a lane is read back, and leaves the bus alone; publishing and rates
    leave the lane alone. *)
Class LaneFieldLaws (T : Type) `{!LaneField T} : Prop := {
  lane_of_set s l : lane_of (set_lane s l) = l;
  set_lane_bus s l : cs_bus (set_lane s l) = cs_bus s;
  lane_of_publish s change : lane_of (publish s change) = lane_of s;
  lane_of_rates s rates : lane_of (set_rates s rates) = lane_of s;
}.

Definition load {T} `{!LaneField T} (s : ClusterStore) : option T := ln_table (lane_of s).

(** ** Reads *)

Definition store_ready (s : ClusterStore) : bool := lane_ready (cs_topology s).

Definition settled (s : ClusterStore) : bool :=
  store_ready s || bool_decide (is_Some (lh_last_error (ln_health (cs_topology s)))).

Definition topic_lanes (s : ClusterStore) (topology : Topology) : TopicLanes :=
  {| tl_topology := topology; tl_watermarks := load s; tl_configs := load s; tl_log_dirs := load s |}.

Definition topic_rate (s : ClusterStore) (name : string) : spec_float :=
  default (S754_zero false) (rate_get (cs_rates s) name).

Definition topic_rows (s : ClusterStore) : list TopicRow :=
  match load (T := Topology) s with
  | None => []
  | Some topology =>
      (λ entry : string * TopicInfo,
        topic_row entry.1 entry.2 (topic_lanes s topology) (topic_rate s entry.1)) <$>
      btree_iter (tp_topics topology)
  end.

Definition store_topic_detail (s : ClusterStore) (name : string) : option TopicDetail :=
  topology ← load (T := Topology) s;
  topic ← tp_topics topology !! name;
  Some (topic_detail name topic (topic_lanes s topology) (topic_rate s name)).

Definition topic_configs (s : ClusterStore) (name : string) : option (list ConfigEntry) :=
  configs ← load s; configs_get configs name.

Definition group_rows (s : ClusterStore) : list GroupRow :=
  match load (T := Topology) s with
  | None => []
  | Some topology =>
      (λ entry : string * GroupInfo,
        group_row entry.1 entry.2 (offsets_for (load s) entry.1) (load s)) <$>
      btree_iter (tp_groups topology)
  end.

(** Reading a group's page touches the group, at [now]. *)
Definition store_group_detail (s : ClusterStore) (id : string) (now : Z) : ClusterStore * option GroupDetail :=
  match topology ← load (T := Topology) s; tp_groups topology !! id with
  | None => (s, None)
  | Some group =>
      (set_interest s (touch_group (cs_interest s) id now),
       Some (group_detail id group (offsets_for (load s) id) (load s)))
  end.

Definition topic_groups (s : ClusterStore) (topic : string) : list TopicGroupRow :=
  match load (T := Topology) s with
  | None => []
  | Some topology =>
      omap (λ id,
        group ← tp_groups topology !! id;
        Some (topic_group_row id topic group (offsets_for (load s) id) (load s)))
        (groups_for_topic topology topic)
  end.

Definition store_broker_rows (s : ClusterStore) : list BrokerRow :=
  match load (T := Topology) s with Some topology => broker_rows topology (load s) | None => [] end.

Definition store_subject_rows (s : ClusterStore) : list SubjectRow :=
  match load (T := SubjectTable) s with Some subjects => subject_rows subjects (load s) | None => [] end.

Record ClusterHealthView : Type := {
  hv_cluster : string;
  hv_topology : LaneHealth;
  hv_watermarks : LaneHealth;
  hv_offsets : LaneHealth;
  hv_configs : LaneHealth;
  hv_subjects : LaneHealth;
  hv_log_dirs : LaneHealth;
  hv_acls : LaneHealth;
  hv_quotas : LaneHealth;
  hv_scram_users : LaneHealth;
  hv_topic_count : Z;
  hv_partition_count : Z;
  hv_group_count : Z;
  hv_broker_count : Z;
  hv_subject_count : Z;
  hv_under_replicated : Z;
  hv_offline : Z;
}.

Definition i32_of_bool (b : bool) : Z := if b then 1 else 0.

(** Under-replicated and offline partitions. *)
Definition health_counts (topology : Topology) : Z * Z :=
  foldl (λ counts partition,
    (i32_add counts.1 (i32_of_bool (under_replicated partition)),
     i32_add counts.2 (i32_of_bool (offline partition))))
    (0, 0)%Z (all_partitions topology).

Definition count_of {K A} `{Countable K} (m : gmap K A) : Z := usize_as_i32 (Z.of_nat (size m)).

Definition store_health (s : ClusterStore) : ClusterHealthView :=
  let topology : option Topology := load s in
  let counts := from_option health_counts (0, 0)%Z topology in
  {| hv_cluster := cs_name s;
     hv_topology := ln_health (cs_topology s);
     hv_watermarks := ln_health (cs_watermarks s);
     hv_offsets := ln_health (cs_offsets s);
     hv_configs := ln_health (cs_configs s);
     hv_subjects := ln_health (cs_subjects s);
     hv_log_dirs := ln_health (cs_log_dirs s);
     hv_acls := ln_health (cs_acls s);
     hv_quotas := ln_health (cs_quotas s);
     hv_scram_users := ln_health (cs_scram_users s);
     hv_topic_count := from_option (λ t, count_of (tp_topics t)) 0%Z topology;
     hv_partition_count := from_option partition_count 0%Z topology;
     hv_group_count := from_option (λ t, count_of (tp_groups t)) 0%Z topology;
     hv_broker_count := from_option (λ t, count_of (tp_brokers t)) 0%Z topology;
     hv_subject_count := from_option (λ t, count_of (st_subjects t)) 0%Z (load s);
     hv_under_replicated := counts.1;
     hv_offline := counts.2 |}.

(** ** Helper lemmas *)

#[export] Instance topology_laws : LaneFieldLaws Topology. Proof. by split; intros []. Qed.
#[export] Instance watermarks_laws : LaneFieldLaws WatermarkTable. Proof. by split; intros []. Qed.
#[export] Instance offsets_laws : LaneFieldLaws OffsetTable. Proof. by split; intros []. Qed.
#[export] Instance configs_laws : LaneFieldLaws ConfigTable. Proof. by split; intros []. Qed.
#[export] Instance subjects_laws : LaneFieldLaws SubjectTable. Proof. by split; intros []. Qed.
#[export] Instance schema_ids_laws : LaneFieldLaws SchemaIdTable. Proof. by split; intros []. Qed.
#[export] Instance log_dirs_laws : LaneFieldLaws LogDirTable. Proof. by split; intros []. Qed.
#[export] Instance acls_laws : LaneFieldLaws AclListing. Proof. by split; intros []. Qed.
#[export] Instance quotas_laws : LaneFieldLaws QuotaListing. Proof. by split; intros []. Qed.
#[export] Instance scram_users_laws : LaneFieldLaws ScramListing. Proof. by split; intros []. Qed.

Lemma set_rates_bus s rates : cs_bus (set_rates s rates) = cs_bus s.
Proof. by destruct s. Qed.

Lemma publish_bus s change : cs_bus (publish s change) = cs_bus s ++ [change].
Proof. by destruct s. Qed.
