(* ===== verification/Ingest.v ===== *)
(** [src/kafka/ingest/runner.rs] and the lanes whose sources keep no state of their own
    ([topology.rs], [configs.rs], [subjects.rs], [log_dirs.rs], [acls.rs], [quotas.rs] and
    [scram_users.rs] of [src/kafka/ingest/]): how a table is polled, committed and told. *)

From S2P Require Import Prelude Text Errors Metadata Group TopicConfig Tables Bus Acl Quota Reset.
From S2P Require Import Lane Interest Store.

(** ** The session and the clock of one poll *)

(** What the session answers the calls of one poll. [in_version_ids] may be called twice. *)
Record IngestSession : Type := {
  in_metadata : result KafkaError MetadataSnapshot;
  in_groups : result KafkaError (list GroupSnapshot);
  in_metadata_first : bool;
  in_topic_configs : list string → result KafkaError (gmap string (list ConfigEntry));
  in_log_dirs : result KafkaError (list LogDir);
  in_acls : result KafkaError AclListing;
  in_quotas : result KafkaError QuotaListing;
  in_scram_users : result KafkaError ScramListing;
  in_schema_subjects : (string → option LatestSchema) → result KafkaError (list SchemaSubject);
  in_version_ids : nat → list (string * Z) → result KafkaError (list (string * RegisteredVersion));
  in_offsets : OffsetSession;
  in_committed : string → option (list (string * Z)) → result KafkaError (list CommittedOffset);
}.

(** When the poll reads a clock: instants in nanoseconds, and the wall clock the lane's
    health shows. *)
Record PollClock : Type := {
  pc_started : Z;
  pc_fetch : Z;
  pc_diff : Z;
  pc_commit : Timestamp;
  pc_publish : Z;
  pc_ended : Z;
  pc_checked : Timestamp;
}.

(** [Duration::as_millis]. *)
Definition elapsed_ms (clock : PollClock) : Z := (since (pc_ended clock) (pc_started clock) / 1000000)%Z.

(** ** Sources *)

(** [LaneSource]: a source [S] of the lane of [T], fed by [U], that tells of [D]s. *)
Class LaneSource (S U T D : Type) `{!LaneField T} : Type := {
  ls_name : S → string;
  ls_interval : S → Z;
  ls_fetch : S → ClusterStore → IngestSession → U → option T → Z → S * ClusterStore * result KafkaError T;
  ls_stale : S → U → U → bool;
  ls_diff : S → option T → T → Z → option D;
  ls_publish : S → ClusterStore → option T → T → D → Z → S * ClusterStore;
}.
Arguments ls_fetch {S U T D _ _} _ _ _ _ _ _.
Arguments ls_name {S U T D _ _} _.
Arguments ls_interval {S U T D _ _} _.
Arguments ls_stale {S U T D _ _} _ _ _.
Arguments ls_diff {S U T D _ _} _ _ _ _.
Arguments ls_publish {S U T D _ _} _ _ _ _ _ _.

Section poll.
Context {S U T D : Type} `{!LaneField T, LS : !LaneSource S U T D, !KrafkaTexts}.

(** [poll]: [mid] is what the other tasks do to the store while the fetch waits. *)
Definition poll (src : S) (s : ClusterStore) (u : U) (env : IngestSession) (clock : PollClock)
    (mid : ClusterStore → ClusterStore) : S * ClusterStore :=
  let previous := load s in
  let '(src, s, answer) := ls_fetch src s env u previous (pc_fetch clock) in
  let s := mid s in
  match answer with
  | Ok next =>
      let delta := ls_diff (LaneSource := LS) src previous next (pc_diff clock) in
      let '(src, s) :=
        if bool_decide (is_Some delta) || bool_decide (¬ is_Some previous) then
          let s := set_lane s (commit (lane_of s) next (pc_commit clock)).1 in
          match delta with
          | Some delta => ls_publish src s previous next delta (pc_publish clock)
          | None => (src, s)
          end
        else (src, s) in
      (src, set_lane s (record_poll (lane_of s) (elapsed_ms clock) None (pc_checked clock)))
  | Err error =>
      (src, set_lane s (record_poll (lane_of s) (elapsed_ms clock) (Some (KafkaError_text error))
         (pc_checked clock)))
  end.

(** What ends the wait between two polls: the interval, a kick, or a table committed
    upstream, which ends it when the source finds the one it polled with stale. *)
Inductive Wake : Type := IntervalElapsed | Kicked_ | UpstreamCommit (table : U).

(** Whether the wait [run] makes after a poll with [fetched] ends at one of [wakes]. *)
Fixpoint wakes_up (src : S) (fetched : U) (wakes : list Wake) : bool :=
  match wakes with
  | [] => false
  | (IntervalElapsed | Kicked_) :: _ => true
  | UpstreamCommit table :: wakes =>
      ls_stale (LaneSource := LS) src fetched table || wakes_up src fetched wakes
  end.
End poll.

(** ** The stateless lanes *)

(** [tokio::try_join!]: the first error to come back, else both values. *)
Definition try_join {A B} (a_first : bool) (a : result KafkaError A) (b : result KafkaError B)
    : result KafkaError (A * B) :=
  match a, b with
  | Ok x, Ok y => Ok (x, y)
  | Err e, Ok _ => Err e
  | Ok _, Err e => Err e
  | Err e, Err e' => Err (if a_first then e else e')
  end.

Record TopologyLane : Set := { topology_interval : Z }.

Definition topology_publish (s : ClusterStore) (next : Topology) (delta : TopologyDelta) : ClusterStore :=
  let s :=
    if bool_decide (removed_topics delta = []) then s
    else set_rates s (rates_retain (cs_rates s) (λ topic, bool_decide (is_Some (tp_topics next !! topic)))) in
  publish s (ChTopology delta).

Definition topology_source : LaneSource TopologyLane () Topology TopologyDelta := {|
  ls_name _ := "topology";
  ls_interval := topology_interval;
  ls_fetch src s env _ _ _ :=
    (src, s, pair ← try_join (in_metadata_first env) (in_metadata env) (in_groups env);
             Ok (assemble pair.1 pair.2));
  ls_stale _ _ _ := false;
  ls_diff _ previous next _ := topology_between previous next;
  ls_publish src s _ next delta _ := (src, topology_publish s next delta);
|}.
#[export] Existing Instance topology_source.

Record ConfigLane : Set := { config_interval : Z }.

(** The entries read for each topic of the topology; sharing an unchanged list is left out. *)
Definition config_fetch (env : IngestSession) (topology : Topology) : result KafkaError ConfigTable :=
  fetched ← in_topic_configs env (btree_keys (tp_topics topology));
  Ok {| ct_topics := merge (λ topic entries, _ ← topic; entries) (tp_topics topology) fetched |}.

Definition config_source : LaneSource ConfigLane Topology ConfigTable ConfigsDelta := {|
  ls_name _ := "configs";
  ls_interval := config_interval;
  ls_fetch src s env topology _ _ := (src, s, config_fetch env topology);
  ls_stale _ fetched latest := gained_topics_since latest fetched;
  ls_diff _ previous next _ := configs_between previous next;
  ls_publish src s _ _ delta _ := (src, publish s (ChConfigs delta));
|}.
#[export] Existing Instance config_source.

Record SubjectLane : Set := { subject_interval : Z }.

Definition subject_fetch (env : IngestSession) (previous : option SubjectTable)
    : result KafkaError SubjectTable :=
  subjects ← in_schema_subjects env (latest (default {| st_subjects := ∅ |} previous));
  Ok (subjects_assemble subjects).

Definition subject_source : LaneSource SubjectLane () SubjectTable SubjectsDelta := {|
  ls_name _ := "subjects";
  ls_interval := subject_interval;
  ls_fetch src s env _ previous _ := (src, s, subject_fetch env previous);
  ls_stale _ _ _ := false;
  ls_diff _ previous next _ := subjects_between previous next;
  ls_publish src s _ _ delta _ := (src, publish s (ChSubjects delta));
|}.
#[export] Existing Instance subject_source.

Record LogDirLane : Set := { log_dir_interval : Z }.

Definition log_dir_source : LaneSource LogDirLane Topology LogDirTable LogDirsDelta := {|
  ls_name _ := "log_dirs";
  ls_interval := log_dir_interval;
  ls_fetch src s env _ _ _ := (src, s, log_dirs_assemble <$> in_log_dirs env);
  ls_stale _ fetched latest :=
    gained_topics_since latest fetched || bool_decide (tp_brokers latest ≠ tp_brokers fetched);
  ls_diff _ previous next _ := log_dirs_between previous next;
  ls_publish src s _ _ delta _ := (src, publish s (ChLogDirs delta));
|}.
#[export] Existing Instance log_dir_source.

(** [(previous != Some(next)).then_some(())]. *)
Definition changed_from {T} (eqb : T → T → bool) (previous : option T) (next : T) : option () :=
  match previous with
  | Some previous => if eqb previous next then None else Some ()
  | None => Some ()
  end.

Record AclLane : Set := { acl_interval : Z }.
Record QuotaLane : Set := { quota_interval : Z }.
Record ScramUserLane : Set := { scram_user_interval : Z }.

Definition acl_source : LaneSource AclLane () AclListing () := {|
  ls_name _ := "acls";
  ls_interval := acl_interval;
  ls_fetch src s env _ _ _ := (src, s, in_acls env);
  ls_stale _ _ _ := false;
  ls_diff _ previous next _ := changed_from (λ a b, bool_decide (a = b)) previous next;
  ls_publish src s _ _ _ _ := (src, publish s ChAcls);
|}.
#[export] Existing Instance acl_source.

Definition quota_source : LaneSource QuotaLane () QuotaListing () := {|
  ls_name _ := "quotas";
  ls_interval := quota_interval;
  ls_fetch src s env _ _ _ := (src, s, in_quotas env);
  ls_stale _ _ _ := false;
  ls_diff _ previous next _ := changed_from quota_listing_eqb previous next;
  ls_publish src s _ _ _ _ := (src, publish s ChQuotas);
|}.
#[export] Existing Instance quota_source.

Definition scram_user_source : LaneSource ScramUserLane () ScramListing () := {|
  ls_name _ := "scram_users";
  ls_interval := scram_user_interval;
  ls_fetch src s env _ _ _ := (src, s, in_scram_users env);
  ls_stale _ _ _ := false;
  ls_diff _ previous next _ := changed_from (λ a b, bool_decide (a = b)) previous next;
  ls_publish src s _ _ _ _ := (src, publish s ChScramUsers);
|}.
#[export] Existing Instance scram_user_source.

(** ** Laws of a source *)

(** What a source may do to the store: its fetch leaves the lane's table, version and health
    and the bus alone, and telling of a change adds it to the bus and leaves the lane. *)
Class LaneSourceLaws (S U T D : Type) `{!LaneField T, !LaneSource S U T D} : Type := {
  ls_changes : D → list Change;
  fetch_keeps src s env u previous now src' s' answer :
    ls_fetch src s env u previous now = (src', s', answer) →
    ln_table (lane_of s') = ln_table (lane_of s) ∧ ln_version (lane_of s') = ln_version (lane_of s) ∧
    ln_health (lane_of s') = ln_health (lane_of s) ∧ cs_bus s' = cs_bus s;
  publish_tells src s previous next delta now src' s' :
    ls_publish src s previous next delta now = (src', s') →
    lane_of s' = lane_of s ∧ cs_bus s' = cs_bus s ++ ls_changes delta;
}.

(** A table as a map from keys to values, and the keys a delta names: whatever differs
    between two tables is named by the delta between them, and nothing differs when there
    is none. *)
Class DeltaCovers (S U T D K V : Type) `{!LaneField T, !LaneSource S U T D, !EqDecision V} : Type := {
  lookup_in : T → K → option V;
  names : D → K → bool;
  diff_none src previous next now k :
    ls_diff src previous next now = None → (previous ≫= λ t, lookup_in t k) = lookup_in next k;
  diff_names src previous next now delta k :
    ls_diff src previous next now = Some delta →
    (previous ≫= λ t, lookup_in t k) ≠ lookup_in next k → names delta k = true;
}.

(** What the other tasks may do to the store meanwhile: the lane has one writer. *)
Record quiet_for (T : Type) `{!LaneField T} (mid : ClusterStore → ClusterStore) : Prop := {
  quiet_table s : ln_table (lane_of (mid s)) = ln_table (lane_of s);
  quiet_version s : ln_version (lane_of (mid s)) = ln_version (lane_of s);
  quiet_health s : ln_health (lane_of (mid s)) = ln_health (lane_of s);
  quiet_bus s : ∃ told, cs_bus (mid s) = cs_bus s ++ told;
}.

Section polls.
Context {S U T D : Type} `{!LaneField T, !LaneFieldLaws T, LS : !LaneSource S U T D, LL : !LaneSourceLaws S U T D}.
Context `{!KrafkaTexts}.

Lemma poll_cases src s u env clock mid src' s' :
  quiet_for T mid → poll src s u env clock mid = (src', s') →
  ∃ src1 s1 told answer,
    ls_fetch src s env u (load s) (pc_fetch clock) = (src1, s1, answer) ∧
    lh_last_poll_ms (ln_health (lane_of s')) = Some (elapsed_ms clock mod 18446744073709551616)%Z ∧
    match answer with
    | Err error =>
        load s' = load s ∧ ln_version (lane_of s') = ln_version (lane_of s) ∧
        lh_last_error (ln_health (lane_of s')) = Some (KafkaError_text error) ∧
        lh_checked_at (ln_health (lane_of s')) = lh_checked_at (ln_health (lane_of s)) ∧
        cs_bus s' = cs_bus s ++ told
    | Ok next =>
        lh_last_error (ln_health (lane_of s')) = None ∧
        lh_checked_at (ln_health (lane_of s')) = Some (pc_checked clock) ∧
        match load s, ls_diff src1 (load s) next (pc_diff clock) with
        | Some previous, None =>
            load s' = Some previous ∧ ln_version (lane_of s') = ln_version (lane_of s) ∧
            cs_bus s' = cs_bus s ++ told
        | _, delta =>
            load s' = Some next ∧ ln_version (lane_of s') = u64_add (ln_version (lane_of s)) 1 ∧
            cs_bus s' = cs_bus s ++ told ++ default [] (ls_changes <$> delta)
        end
    end.
Proof.
  intros Hq Hp. unfold poll in Hp.
  destruct (ls_fetch src s env u (load s) (pc_fetch clock)) as [[src1 s1] answer] eqn:Ef.
  destruct (fetch_keeps _ _ _ _ _ _ _ _ _ Ef) as (Ht & Hv & Hh & Hb).
  destruct (quiet_bus T mid Hq s1) as [told Htold]. rewrite Hb in Htold.
  pose proof (quiet_table T mid Hq s1) as Ht1. pose proof (quiet_version T mid Hq s1) as Hv1.
  pose proof (quiet_health T mid Hq s1) as Hh1. rewrite Ht in Ht1. rewrite Hv in Hv1. rewrite Hh in Hh1.
  exists src1, s1, told, answer. split; [done|].
  destruct answer as [next|error].
  - destruct (ls_diff src1 (load s) next (pc_diff clock)) as [delta|] eqn:Ed.
    + simpl in Hp. destruct (ls_publish _ _ _ _ delta _) as [src2 s2] eqn:Epub.
      destruct (publish_tells _ _ _ _ _ _ _ _ Epub) as [Hl2 Hb2]. injection Hp as <- <-.
      unfold load. rewrite lane_of_set, set_lane_bus, Hl2, Hb2, lane_of_set, set_lane_bus. simpl.
      rewrite Hv1, Htold, <- app_assoc. destruct (ln_table (lane_of s)); done.
    + destruct (load s) as [previous|] eqn:Eprev.
      * simpl in Hp. injection Hp as <- <-. unfold load in *. rewrite lane_of_set, set_lane_bus. simpl.
        by rewrite Ht1, Hv1, Htold.
      * simpl in Hp. injection Hp as <- <-. unfold load. rewrite lane_of_set, !set_lane_bus, lane_of_set. simpl.
        by rewrite Hv1, Htold, app_nil_r.
  - injection Hp as <- <-. unfold load. rewrite lane_of_set, set_lane_bus. simpl.
    by rewrite Ht1, Hv1, Hh1, Htold.
Qed.

(** The store over time: polls of the lane, and steps of everything else. *)
Inductive evolves : ClusterStore → ClusterStore → Prop :=
  | evolves_refl s : evolves s s
  | evolves_other s s' other : evolves s s' → quiet_for T other → evolves s (other s')
  | evolves_poll s s' src u env clock mid src' s'' :
      evolves s s' → quiet_for T mid → poll src s' u env clock mid = (src', s'') → evolves s s''.
End polls.

Section announce.
Context {S U T D K V : Type} `{!LaneField T, !LaneFieldLaws T, LS : !LaneSource S U T D, LL : !LaneSourceLaws S U T D}.
Context `{!KrafkaTexts, !EqDecision V, DC : !DeltaCovers S U T D K V}.

(** What the lane shows at a key. *)
Definition shown_at (s : ClusterStore) (k : K) : option V := load s ≫= λ t, lookup_in (DeltaCovers := DC) t k.

(** The bus from [s] on tells of the key. *)
Definition told_since (s s' : ClusterStore) (k : K) : Prop :=
  ∃ told delta, cs_bus s' = cs_bus s ++ told ∧
    (∀ c, c ∈ ls_changes (LaneSourceLaws := LL) delta → c ∈ told) ∧ names (DeltaCovers := DC) delta k = true.

Lemma told_later s s' s'' k more : told_since s s' k → cs_bus s'' = cs_bus s' ++ more → told_since s s'' k.
Proof.
  intros (told & delta & Hb & Hc & Hn) Hmore. exists (told ++ more), delta. split_and!; [|set_solver|done].
  by rewrite Hmore, Hb, app_assoc.
Qed.

(** A step of one poll tells of each key it changes. *)
Lemma poll_tells src s u env clock mid src' s' k :
  quiet_for T mid → poll (LS := LS) src s u env clock mid = (src', s') →
  (∃ more, cs_bus s' = cs_bus s ++ more) ∧ (shown_at s k = shown_at s' k ∨ told_since s s' k).
Proof.
  intros Hq Hp. destruct (poll_cases _ _ _ _ _ _ _ _ Hq Hp) as (src1 & s1 & told & answer & _ & _ & Ha).
  unfold shown_at. destruct answer as [next|error]; [|destruct Ha as (-> & _ & _ & _ & Hb); split; [by eexists|by left]].
  destruct Ha as (_ & _ & Ha). destruct (ls_diff src1 (load s) next (pc_diff clock)) as [delta|] eqn:Ed.
  - assert (load s' = Some next ∧ cs_bus s' = cs_bus s ++ told ++ ls_changes delta) as [-> Hb]
      by (destruct (load s); destruct Ha as (? & _ & ?); done).
    split; [by eexists|]. simpl.
    destruct (decide ((load s ≫= λ t, lookup_in (DeltaCovers := DC) t k) = lookup_in next k)); [by left|]. right.
    exists (told ++ ls_changes delta), delta. split_and!; [done|set_solver|]. by eapply diff_names.
  - assert (∃ more, cs_bus s' = cs_bus s ++ more) as Hmore
      by (destruct (load s); destruct Ha as (_ & _ & ?); by eexists).
    split; [done|]. left. apply (diff_none (DeltaCovers := DC) src1 (load s) next (pc_diff clock) k) in Ed.
    destruct (load s) as [previous|]; destruct Ha as (-> & _); [done|]. simpl in *. congruence.
Qed.

Lemma evolves_told s s' k : evolves (LS := LS) s s' →
  (∃ more, cs_bus s' = cs_bus s ++ more) ∧ (shown_at s k = shown_at s' k ∨ told_since s s' k).
Proof.
  induction 1 as [s|s s' other _ [[more Hm] IH] Hq|s s' src u env clock mid src' s'' _ [[more Hm] IH] Hq Hp].
  - split; [exists []; by rewrite app_nil_r|by left].
  - destruct (quiet_bus T other Hq s') as [told Htold].
    split; [exists (more ++ told); by rewrite Htold, Hm, app_assoc|].
    destruct IH as [IH|IH]; [left|right; by eapply told_later].
    rewrite IH. unfold shown_at, load. by rewrite (quiet_table T other Hq).
  - destruct (poll_tells _ _ _ _ _ _ _ _ k Hq Hp) as [[told Htold] Hstep].
    split; [exists (more ++ told); by rewrite Htold, Hm, app_assoc|].
    destruct IH as [IH|IH]; [|right; by eapply told_later].
    destruct Hstep as [Hstep|(told' & delta & Hb & Hc & Hn)]; [left; congruence|]. right.
    exists (more ++ told'), delta. split_and!; [by rewrite Hb, Hm, app_assoc|set_solver|done].
Qed.
End announce.

(** ** The lanes keep the laws *)

Section lanes.
Context `{!KrafkaTexts}.

#[export] Instance topology_source_laws : LaneSourceLaws TopologyLane () Topology TopologyDelta.
Proof.
  refine {| ls_changes delta := [ChTopology delta] |}.
  - by intros * [= <- <- <-].
  - intros * [= <- <-]. unfold topology_publish. rewrite lane_of_publish, publish_bus.
    case_bool_decide; [done|]. by rewrite lane_of_rates, set_rates_bus.
Defined.

#[export] Instance config_source_laws : LaneSourceLaws ConfigLane Topology ConfigTable ConfigsDelta.
Proof.
  refine {| ls_changes delta := [ChConfigs delta] |}.
  all: [> by intros * [= <- <- <-]|intros * [= <- <-]; by rewrite lane_of_publish, publish_bus].
Defined.

#[export] Instance subject_source_laws : LaneSourceLaws SubjectLane () SubjectTable SubjectsDelta.
Proof.
  refine {| ls_changes delta := [ChSubjects delta] |}.
  all: [> by intros * [= <- <- <-]|intros * [= <- <-]; by rewrite lane_of_publish, publish_bus].
Defined.

#[export] Instance log_dir_source_laws : LaneSourceLaws LogDirLane Topology LogDirTable LogDirsDelta.
Proof.
  refine {| ls_changes delta := [ChLogDirs delta] |}.
  all: [> by intros * [= <- <- <-]|intros * [= <- <-]; by rewrite lane_of_publish, publish_bus].
Defined.

#[export] Instance acl_source_laws : LaneSourceLaws AclLane () AclListing ().
Proof.
  refine {| ls_changes _ := [ChAcls] |}.
  all: [> by intros * [= <- <- <-]|intros * [= <- <-]; by rewrite lane_of_publish, publish_bus].
Defined.

#[export] Instance quota_source_laws : LaneSourceLaws QuotaLane () QuotaListing ().
Proof.
  refine {| ls_changes _ := [ChQuotas] |}.
  all: [> by intros * [= <- <- <-]|intros * [= <- <-]; by rewrite lane_of_publish, publish_bus].
Defined.

#[export] Instance scram_user_source_laws : LaneSourceLaws ScramUserLane () ScramListing ().
Proof.
  refine {| ls_changes _ := [ChScramUsers] |}.
  all: [> by intros * [= <- <- <-]|intros * [= <- <-]; by rewrite lane_of_publish, publish_bus].
Defined.

Lemma topology_before {K V} `{Countable K} (field : Topology → gmap K V) previous k :
  field Topology_default = ∅ →
  (previous ≫= λ t, field t !! k) = field (default Topology_default previous) !! k.
Proof. destruct previous; simpl; [done|]. by intros ->. Qed.

#[export] Instance topics_covered : DeltaCovers TopologyLane () Topology TopologyDelta string TopicInfo.
Proof.
  refine {| lookup_in t k := tp_topics t !! k; names := touches_topic |}.
  - intros src previous next now k Hd. rewrite topology_before by done.
    pose proof (topology_between_cases previous next) as Hc. cbv zeta in Hc. simpl in Hd. rewrite Hd in Hc.
    by destruct Hc as [-> _].
  - intros src previous next now delta k Hd. rewrite topology_before by done.
    pose proof (topology_between_cases previous next) as Hc. cbv zeta in Hc. simpl in Hd. rewrite Hd in Hc.
    apply Hc.
Defined.

#[export] Instance groups_covered : DeltaCovers TopologyLane () Topology TopologyDelta string GroupInfo.
Proof.
  refine {| lookup_in t k := tp_groups t !! k; names := touches_group |}.
  - intros src previous next now k Hd. rewrite topology_before by done.
    pose proof (topology_between_cases previous next) as Hc. cbv zeta in Hc. simpl in Hd. rewrite Hd in Hc.
    by destruct Hc as (_ & -> & _).
  - intros src previous next now delta k Hd. rewrite topology_before by done.
    pose proof (topology_between_cases previous next) as Hc. cbv zeta in Hc. simpl in Hd. rewrite Hd in Hc.
    apply Hc.
Defined.

#[export] Instance configs_covered :
    DeltaCovers ConfigLane Topology ConfigTable ConfigsDelta string (list ConfigEntry).
Proof.
  refine {| lookup_in t k := ct_topics t !! k; names delta k := bool_decide (k ∈ cd_topics delta) |}.
  - intros src previous next now k Hd. pose proof (configs_between_cases previous next k) as Hc.
    simpl in Hd. by rewrite Hd in Hc.
  - intros src previous next now delta k Hd Hne. pose proof (configs_between_cases previous next k) as Hc.
    simpl in Hd. rewrite Hd in Hc. by apply bool_decide_eq_true, Hc.
Defined.

Definition subject_named (delta : SubjectsDelta) (k : string) : bool :=
  bool_decide (k ∈ sd_added delta ∨ k ∈ sd_removed delta ∨ k ∈ sd_changed delta).

#[export] Instance subjects_covered :
    DeltaCovers SubjectLane () SubjectTable SubjectsDelta string SubjectInfo.
Proof.
  refine {| lookup_in t k := st_subjects t !! k; names := subject_named |}.
  - intros src previous next now k Hd. simpl in Hd. unfold subjects_between in Hd.
    pose proof (subjects_of_cases (st_subjects <$> previous) (st_subjects next) k) as Hc. rewrite Hd in Hc.
    by destruct previous.
  - intros src previous next now delta k Hd Hne. simpl in Hd. unfold subjects_between in Hd.
    pose proof (subjects_of_cases (st_subjects <$> previous) (st_subjects next) k) as Hc. rewrite Hd in Hc.
    apply bool_decide_eq_true, Hc. by destruct previous.
Defined.

#[export] Instance storage_covered :
    DeltaCovers LogDirLane Topology LogDirTable LogDirsDelta string (gmap Z PartitionStorage).
Proof.
  refine {| lookup_in t k := ldt_partitions t !! k; names := log_dirs_touches_topic |}.
  - intros src previous next now k Hd. pose proof (log_dirs_between_cases previous next k) as Hc.
    cbv zeta in Hc. simpl in Hd. rewrite Hd in Hc. by destruct previous, Hc.
  - intros src previous next now delta k Hd Hne. pose proof (log_dirs_between_cases previous next k) as Hc.
    cbv zeta in Hc. simpl in Hd. rewrite Hd in Hc. apply Hc. by destruct previous.
Defined.

(** ** Properties *)

(** A poll commits what it read exactly when that changes the lane or is its first table,
    counts one version for it, and tells of the change after what others told meanwhile; a
    failed poll leaves the table, its version and its date, and shows its error until a
    poll succeeds. *)
Theorem poll_spec {S U T D} `{!LaneField T, !LaneFieldLaws T, LS : !LaneSource S U T D, LL : !LaneSourceLaws S U T D}
    src s u env clock mid src' s' :
  quiet_for T mid → poll src s u env clock mid = (src', s') →
  ∃ src1 s1 told answer, ls_fetch src s env u (load s) (pc_fetch clock) = (src1, s1, answer) ∧
    match answer with
    | Err error =>
        load s' = load s ∧ ln_version (lane_of s') = ln_version (lane_of s) ∧
        lh_last_error (ln_health (lane_of s')) = Some (KafkaError_text error) ∧
        lh_checked_at (ln_health (lane_of s')) = lh_checked_at (ln_health (lane_of s)) ∧
        cs_bus s' = cs_bus s ++ told
    | Ok next =>
        lh_last_error (ln_health (lane_of s')) = None ∧
        lh_checked_at (ln_health (lane_of s')) = Some (pc_checked clock) ∧
        match load s, ls_diff src1 (load s) next (pc_diff clock) with
        | Some previous, None =>
            load s' = Some previous ∧ ln_version (lane_of s') = ln_version (lane_of s) ∧
            cs_bus s' = cs_bus s ++ told
        | _, delta =>
            load s' = Some next ∧ ln_version (lane_of s') = u64_add (ln_version (lane_of s)) 1 ∧
            cs_bus s' = cs_bus s ++ told ++ default [] (ls_changes <$> delta)
        end
    end.
Proof.
  intros Hq Hp. destruct (poll_cases _ _ _ _ _ _ _ _ Hq Hp) as (src1 & s1 & told & answer & Hf & _ & Ha).
  by exists src1, s1, told, answer.
Qed.

(** C16 Nothing changes untold: whatever polls and other tasks do between two moments, a topic
    or group the topology lane shows differently is named by a topology change on the bus
    since the first moment, and so are a topic's configs, a topic's storage and a subject
    by a change of their lanes. *)
Theorem changes_are_told s s' k :
  (evolves (LS := topology_source) s s' →
    ((topology ← load (T := Topology) s; tp_topics topology !! k) ≠
       (topology ← load (T := Topology) s'; tp_topics topology !! k) →
     ∃ delta, ChTopology delta ∈ drop (length (cs_bus s)) (cs_bus s') ∧ touches_topic delta k = true) ∧
    ((topology ← load (T := Topology) s; tp_groups topology !! k) ≠
       (topology ← load (T := Topology) s'; tp_groups topology !! k) →
     ∃ delta, ChTopology delta ∈ drop (length (cs_bus s)) (cs_bus s') ∧ touches_group delta k = true)) ∧
  (evolves (LS := config_source) s s' →
    (table ← load (T := ConfigTable) s; ct_topics table !! k) ≠
      (table ← load (T := ConfigTable) s'; ct_topics table !! k) →
    ∃ delta, ChConfigs delta ∈ drop (length (cs_bus s)) (cs_bus s') ∧ k ∈ cd_topics delta) ∧
  (evolves (LS := log_dir_source) s s' →
    (table ← load (T := LogDirTable) s; ldt_partitions table !! k) ≠
      (table ← load (T := LogDirTable) s'; ldt_partitions table !! k) →
    ∃ delta, ChLogDirs delta ∈ drop (length (cs_bus s)) (cs_bus s') ∧ log_dirs_touches_topic delta k = true) ∧
  (evolves (LS := subject_source) s s' →
    (table ← load (T := SubjectTable) s; st_subjects table !! k) ≠
      (table ← load (T := SubjectTable) s'; st_subjects table !! k) →
    ∃ delta, ChSubjects delta ∈ drop (length (cs_bus s)) (cs_bus s') ∧ subject_named delta k = true).
Proof.
  assert (∀ s s' : ClusterStore, ∀ change : Change, ∀ told,
    cs_bus s' = cs_bus s ++ told → change ∈ told → change ∈ drop (length (cs_bus s)) (cs_bus s')) as Hdrop.
  { intros ? ? change told -> Hin. by rewrite drop_app_length. }
  split_and!; intros He; [split|..]; intros Hne.
  - destruct (evolves_told (DC := topics_covered) s s' k He) as [_ [|(told & delta & Hb & Hc & Hn)]]; [done|].
    exists delta. split; [|done]. eapply Hdrop; [done|]. apply Hc. by left.
  - destruct (evolves_told (DC := groups_covered) s s' k He) as [_ [|(told & delta & Hb & Hc & Hn)]]; [done|].
    exists delta. split; [|done]. eapply Hdrop; [done|]. apply Hc. by left.
  - destruct (evolves_told (DC := configs_covered) s s' k He) as [_ [|(told & delta & Hb & Hc & Hn)]]; [done|].
    exists delta. split; [|by apply bool_decide_eq_true in Hn]. eapply Hdrop; [done|]. apply Hc. by left.
  - destruct (evolves_told (DC := storage_covered) s s' k He) as [_ [|(told & delta & Hb & Hc & Hn)]]; [done|].
    exists delta. split; [|done]. eapply Hdrop; [done|]. apply Hc. by left.
  - destruct (evolves_told (DC := subjects_covered) s s' k He) as [_ [|(told & delta & Hb & Hc & Hn)]]; [done|].
    exists delta. split; [|done]. eapply Hdrop; [done|]. apply Hc. by left.
Qed.
End lanes.

(** ** Witnesses *)

Definition sample_texts : KrafkaTexts := {| error_code_debug _ := "ERROR"; krafka_text _ := "error" |}.

Definition sample_topic : TopicMetadata :=
  {| tm_name := "orders"; tm_internal := false;
     tm_partitions := [{| id := 0; leader := 1; replicas := [1]; isr := [1] |}]%Z |}.

(** A session with one topic and no registry. *)
Definition sample_session (topics : list TopicMetadata) : IngestSession := {|
  in_metadata := Ok {| ms_brokers := []; ms_topics := topics |};
  in_groups := Ok [];
  in_metadata_first := true;
  in_topic_configs _ := Ok ∅;
  in_log_dirs := Ok [];
  in_acls := Ok AclsDisabled;
  in_quotas := Ok QuotasDenied;
  in_scram_users := Ok ScramDenied;
  in_schema_subjects _ := Ok [];
  in_version_ids _ _ := Ok [];
  in_offsets := sample_offset_session;
  in_committed _ _ := Ok [];
|}.

Definition sample_clock : PollClock :=
  {| pc_started := 0; pc_fetch := 1; pc_diff := 2; pc_commit := 3; pc_publish := 4; pc_ended := 5; pc_checked := 6 |}%Z.

Lemma quiet_id T `{!LaneField T} : quiet_for T (λ s, s).
Proof. split; intros s; try done. exists []. by rewrite app_nil_r. Qed.

Definition sample_lane : TopologyLane := {| topology_interval := 10 |}.
Definition sample_store : ClusterStore := store_new "dev" 30.

Lemma poll_spec_witness :
  ∃ src' s', poll (H := sample_texts) sample_lane sample_store () (sample_session [sample_topic]) sample_clock (λ s, s) = (src', s') ∧
    lh_last_error (ln_health (lane_of (T := Topology) s')) = None.
Proof.
  destruct (poll (H := sample_texts) sample_lane sample_store () (sample_session [sample_topic]) sample_clock (λ s, s))
    as [src' s'] eqn:E. exists src', s'. split; [done|].
  destruct (poll_spec (H := sample_texts) sample_lane sample_store () (sample_session [sample_topic]) sample_clock (λ s, s)
    _ _ (quiet_id Topology) E) as (src1 & s1 & told & answer & Hf & Ha).
  injection Hf as _ _ <-. exact (proj1 Ha).
Defined.

Lemma changes_are_told_witness :
  ∃ src' s', poll (H := sample_texts) sample_lane sample_store () (sample_session [sample_topic]) sample_clock (λ s, s) = (src', s') ∧
    ∃ delta, ChTopology delta ∈ drop (length (cs_bus sample_store)) (cs_bus s') ∧ touches_topic delta "orders" = true.
Proof.
  eexists _, _. split; [apply surjective_pairing|].
  refine (proj1 (proj1 (changes_are_told (H := sample_texts) sample_store _ "orders") _) _).
  - eapply evolves_poll; [apply evolves_refl|apply quiet_id|apply surjective_pairing].
  - vm_compute. intros H. discriminate H.
Defined.
