(* ===== verification/Watermarks.v ===== *)
(** [src/kafka/ingest/watermarks.rs]: the lane of every partition's first and next offset,
    and the rate each topic is produced at.

    An [f64] is Stdlib's IEEE number at double precision. *)

From Stdlib Require Import SpecFloat.
From S2P Require Import Prelude Text Errors Metadata Group Tables Bus Reset Lane Interest Store Ingest.

(** ** Doubles *)

Definition f64_add : spec_float → spec_float → spec_float := SFadd 53 1024.
Definition f64_mul : spec_float → spec_float → spec_float := SFmul 53 1024.
Definition f64_div : spec_float → spec_float → spec_float := SFdiv 53 1024.
(** [as f64]. *)
Definition f64_of_Z (z : Z) : spec_float := binary_normalize 53 1024 z 0 false.

(** [f64::round]: to the nearest integer, halves away from zero. *)
Definition f64_round (x : spec_float) : spec_float :=
  match x with
  | S754_finite s m e =>
      if (0 <=? e)%Z then x
      else
        let q := ((Zpos m + 2 ^ (- e - 1)) / 2 ^ (- e))%Z in
        if (q =? 0)%Z then S754_zero s else binary_normalize 53 1024 (if s then - q else q)%Z 0 s
  | _ => x
  end.

(** [Duration::as_secs_f64] of nanoseconds. *)
Definition secs_f64 (ns : Z) : spec_float :=
  f64_add (f64_of_Z (ns / 1000000000)) (f64_div (f64_of_Z (ns mod 1000000000)) (f64_of_Z 1000000000)).

(** ** The lane *)

Record WatermarkLane : Type := {
  wl_high_interval : Z;
  wl_low_interval : Z;
  wl_low_read_at : option Z;
  wl_idle_heartbeat : Z;
  wl_max_sample_gap : Z;
  wl_committed_at : option Z;
}.

Definition watermark_lane_new (high_interval low_interval idle_heartbeat max_sample_gap : Z) : WatermarkLane :=
  {| wl_high_interval := high_interval; wl_low_interval := low_interval; wl_low_read_at := None;
     wl_idle_heartbeat := idle_heartbeat; wl_max_sample_gap := max_sample_gap; wl_committed_at := None |}.

Definition with_low_read_at (l : WatermarkLane) (now : Z) : WatermarkLane :=
  {| wl_high_interval := wl_high_interval l; wl_low_interval := wl_low_interval l;
     wl_low_read_at := Some now; wl_idle_heartbeat := wl_idle_heartbeat l;
     wl_max_sample_gap := wl_max_sample_gap l; wl_committed_at := wl_committed_at l |}.

Definition with_committed_at (l : WatermarkLane) (now : Z) : WatermarkLane :=
  {| wl_high_interval := wl_high_interval l; wl_low_interval := wl_low_interval l;
     wl_low_read_at := wl_low_read_at l; wl_idle_heartbeat := wl_idle_heartbeat l;
     wl_max_sample_gap := wl_max_sample_gap l; wl_committed_at := Some now |}.

(** Every partition of the topology, and every one some group committed. *)
Definition lane_wanted (s : ClusterStore) (topology : Topology) : gmap string (list Z) :=
  let wanted := partition_ids <$> tp_topics topology in
  let wanted :=
    match load (T := OffsetTable) s with
    | Some offsets =>
        foldl (λ wanted entry, push_at wanted entry.1 entry.2) wanted
          (concat ((λ group, offset_partitions group.2) <$> map_to_list (ot_groups offsets)))
    | None => wanted
    end in
  (λ partitions, dedup (sort_by Z.compare partitions)) <$> wanted.

Definition low_due (l : WatermarkLane) (now : Z) : bool :=
  match wl_low_read_at l with Some at_ => (wl_low_interval l <=? since now at_)%Z | None => true end.

Definition read_low_and_high (l : WatermarkLane) (env : OffsetSession) (wanted : gmap string (list Z)) (now : Z)
    : WatermarkLane * result KafkaError (gmap string (gmap Z Watermarks)) :=
  match watermarks_of env wanted with
  | Ok fetched => (with_low_read_at l now, Ok fetched)
  | Err e => (l, Err e)
  end.

(** The low read before, unless the log was truncated below it. *)
Definition cached_low (previous : WatermarkTable) (topic : string) (partition high : Z) : option Z :=
  match marks_get previous topic partition with
  | Some cached => if (low cached <=? high)%Z then Some (low cached) else None
  | None => None
  end.

Definition known_lows (previous : WatermarkTable) (highs : gmap string (gmap Z Z)) : gmap string (gmap Z Z) :=
  map_imap (λ topic partitions, Some (map_imap (cached_low previous topic) partitions)) highs.

Definition uncached (previous : WatermarkTable) (highs : gmap string (gmap Z Z)) : gmap string (list Z) :=
  map_imap (λ topic partitions,
    let missing := omap (λ entry : Z * Z,
      match cached_low previous topic entry.1 entry.2 with Some _ => None | None => Some entry.1 end)
      (map_to_list partitions) in
    if bool_decide (missing = []) then None else Some missing) highs.

(** [lows.entry(topic).or_default().extend(partitions)] for each topic found. *)
Definition extend_lows (lows fetched : gmap string (gmap Z Z)) : gmap string (gmap Z Z) :=
  union_with (λ known fetched, Some (fetched ∪ known)) lows fetched.

Definition read_high (env : OffsetSession) (wanted : gmap string (list Z)) (previous : WatermarkTable)
    : result KafkaError (gmap string (gmap Z Watermarks)) :=
  highs ← found <$> os_high_watermarks env wanted;
  let lows := known_lows previous highs in
  lows ← if bool_decide (uncached previous highs = ∅) then Ok lows
         else fetched ← found <$> os_low_watermarks env (uncached previous highs); Ok (extend_lows lows fetched);
  Ok (merge_watermarks lows highs).

Definition since_last_commit (l : WatermarkLane) (now : Z) : option Z := since now <$> wl_committed_at l.

Definition watermark_fetch (l : WatermarkLane) (s : ClusterStore) (env : IngestSession) (topology : Topology)
    (previous : option WatermarkTable) (now : Z) : WatermarkLane * ClusterStore * result KafkaError WatermarkTable :=
  let wanted := lane_wanted s topology in
  let '(lane, refresh) := take_refresh (cs_watermarks s) in
  let s := set_lane s lane in
  let '(l, fetched) :=
    match previous with
    | Some previous =>
        if negb refresh && negb (low_due l now) then (l, read_high (in_offsets env) wanted previous)
        else read_low_and_high l (in_offsets env) wanted now
    | None => read_low_and_high l (in_offsets env) wanted now
    end in
  (l, s, marks ← fetched; Ok {| wt_marks := marks |}).

(** Some when the marks moved, or to keep the rates alive. *)
Definition watermark_diff (l : WatermarkLane) (previous : option WatermarkTable) (next : WatermarkTable)
    (now : Z) : option () :=
  if match previous with
     | Some previous => bool_decide (wt_marks previous ≠ wt_marks next)
     | None => true
     end
  then Some ()
  else
    match since_last_commit l now with
    | Some gap => if (wl_idle_heartbeat l <=? gap)%Z then Some () else None
    | None => Some ()
    end.

(** ** Rates *)

Definition round_rate (value : spec_float) : spec_float :=
  f64_div (f64_round (f64_mul value (f64_of_Z 1000))) (f64_of_Z 1000).

(** The records a partition gained. *)
Definition gained (before : option (gmap Z Watermarks)) (partition : Z) (marks : Watermarks) : Z :=
  let before := from_option high (high marks) (before ≫= λ before, before !! partition) in
  Z.max (i64_sub (high marks) before) 0.

Definition topic_gained (previous : WatermarkTable) (topic : string) (partitions : gmap Z Watermarks) : Z :=
  sum_i64 ((λ entry : Z * Watermarks, gained (wt_marks previous !! topic) entry.1 entry.2) <$>
    map_to_list partitions).

Definition topic_rate_between (baseline : option (WatermarkTable * spec_float)) (topic : string)
    (partitions : gmap Z Watermarks) : spec_float :=
  match baseline with
  | Some (previous, seconds) =>
      round_rate (f64_div (f64_of_Z (topic_gained previous topic partitions)) seconds)
  | None => S754_zero false
  end.

Definition rates_between (previous : option WatermarkTable) (next : WatermarkTable) (elapsed : option Z)
    : list TopicRate :=
  let baseline := elapsed ← elapsed; previous ← previous; Some (previous, secs_f64 elapsed) in
  sort_by (λ a b, String.compare (rt_topic a) (rt_topic b))
    ((λ entry : string * gmap Z Watermarks,
       {| rt_topic := entry.1; rt_rate := topic_rate_between baseline entry.1 entry.2 |}) <$>
     map_to_list (wt_marks next)).

(** One step: the source stores the rates under their lock and then tells the bus, so between the
    two a reader may see a rate it is not told of yet. *)
Definition watermark_publish (l : WatermarkLane) (s : ClusterStore) (previous : option WatermarkTable)
    (next : WatermarkTable) (now : Z) : WatermarkLane * ClusterStore :=
  let elapsed :=
    gap ← since_last_commit l now;
    if negb (gap =? 0)%Z && (gap <=? wl_max_sample_gap l)%Z then Some gap else None in
  let '(rates, changed) := keep_changed (cs_rates s) (rates_between previous next elapsed) in
  let s := set_rates s rates in
  (with_committed_at l now, if bool_decide (length changed = 0%nat) then s else publish s (ChWatermarks changed)).

Definition watermark_source : LaneSource WatermarkLane Topology WatermarkTable () := {|
  ls_name _ := "watermarks";
  ls_interval := wl_high_interval;
  ls_fetch := watermark_fetch;
  ls_stale _ _ _ := false;
  ls_diff := watermark_diff;
  ls_publish l s previous next _ now := watermark_publish l s previous next now;
|}.
#[export] Existing Instance watermark_source.

(** ** Lemmas *)

Lemma marks_get_merge lows highs topic partition :
  marks_get {| wt_marks := merge_watermarks lows highs |} topic partition =
  (marks ← merge_watermarks lows highs !! topic; marks !! partition).
Proof. done. Qed.

Lemma extend_lows_lookup lows fetched topic partition :
  (l ← extend_lows lows fetched !! topic; l !! partition) =
  match (l ← fetched !! topic; l !! partition) with
  | Some low => Some low
  | None => l ← lows !! topic; l !! partition
  end.
Proof.
  unfold extend_lows. rewrite lookup_union_with.
  destruct (lows !! topic) as [known|], (fetched !! topic) as [more|]; simpl; [|done| |done].
  - rewrite lookup_union. destruct (more !! partition); simpl; [by destruct (known !! _)|].
    by destruct (known !! partition).
  - by destruct (more !! partition).
Qed.

Lemma known_lows_lookup previous highs topic partition low' :
  (l ← known_lows previous highs !! topic; l !! partition) = Some low' →
  ∃ h, (l ← highs !! topic; l !! partition) = Some h ∧ cached_low previous topic partition h = Some low'.
Proof.
  unfold known_lows. rewrite map_lookup_imap. destruct (highs !! topic) as [ps|]; simpl; [|done].
  rewrite map_lookup_imap. destruct (ps !! partition) as [h|]; simpl; [|done]. eauto.
Qed.

Lemma cached_low_spec previous topic partition h low' :
  cached_low previous topic partition h = Some low' ↔
  ∃ m, marks_get previous topic partition = Some m ∧ low m = low' ∧ (low' ≤ h)%Z.
Proof.
  unfold cached_low. destruct (marks_get _ _ _) as [m|]; [|naive_solver].
  destruct (Z.leb_spec (low m) h) as [Hle|Hgt].
  - split; [intros [= <-]; eauto|]. intros (? & [= <-] & <- & _). done.
  - split; [done|]. intros (? & [= <-] & <- & ?). lia.
Qed.

Lemma found_map {A B} (f : A → B) (r : result KafkaError A) v :
  (f <$> r) = Ok v → ∃ a, r = Ok a ∧ v = f a.
Proof. destruct r; simpl; [|done]. intros [= <-]. eauto. Qed.

(** Partitions of the topology and of committed offsets, pushed on their topics. *)
Lemma push_wanted_lookup (entries : list (string * Z)) m topic partition :
  partition ∈ default [] (foldl (λ wanted entry, push_at wanted entry.1 entry.2) m entries !! topic) ↔
  partition ∈ default [] (m !! topic) ∨ (topic, partition) ∈ entries.
Proof.
  revert m. induction entries as [|[t p] entries IH]; intros m; cbn [foldl].
  - rewrite elem_of_nil. tauto.
  - rewrite IH, push_at_lookup, elem_of_cons, elem_of_app.
    cbn [fst snd]. case_decide as E; subst.
    + rewrite list_elem_of_singleton. naive_solver.
    + rewrite elem_of_nil. naive_solver.
Qed.

(** The next offset a pass read of a partition. *)
#[local] Abbreviation at_ table topic partition := (l ← table !! topic; l !! partition).

(** The first offset known of a partition whose next one is [h] by now, unless its log no longer
    holds it. *)
Definition stays (previous : WatermarkTable) (topic : string) (partition h low' : Z) : Prop :=
  ∃ cached, marks_get previous topic partition = Some cached ∧ low cached = low' ∧ (low' ≤ h)%Z.

(** The partitions a pass that read [highs] has to ask for the first offset of: those with none
    that stays, and no others. *)
Definition lacking (previous : WatermarkTable) (highs : gmap string (gmap Z Z)) (asked : gmap string (list Z)) : Prop :=
  ∀ topic partition, partition ∈ default [] (asked !! topic) ↔
    ∃ h, at_ highs topic partition = Some h ∧ ∀ low', ¬ stays previous topic partition h low'.

(** A first offset read together with those of all partitions that lacked one. One that Kafka does
    not answer for is taken to be the next. *)
Definition low_read (env : OffsetSession) (previous : WatermarkTable) (highs : gmap string (gmap Z Z))
    (topic : string) (partition : Z) (m : Watermarks) : Prop :=
  ∃ asked lows, lacking previous highs asked ∧ os_low_watermarks env asked = Ok lows ∧
    match at_ (found lows) topic partition with
    | Some low' => low m = low'
    | None => partition ∈ default [] (asked !! topic) ∧ low m = high m
    end.

Definition high_read (env : OffsetSession) (wanted : gmap string (list Z)) (topic : string) (partition : Z)
    (m : Watermarks) : Prop :=
  ∃ highs, os_high_watermarks env wanted = Ok highs ∧
    (l ← found highs !! topic; l !! partition) = Some (high m).

Lemma read_low_and_high_spec l env wanted now l' marks topic partition m :
  read_low_and_high l env wanted now = (l', Ok marks) →
  (ms ← marks !! topic; ms !! partition) = Some m →
  (low m ≤ high m)%Z ∧ high_read env wanted topic partition m ∧
  (∃ lows, os_low_watermarks env wanted = Ok lows ∧
    low m = default (high m) (l ← found lows !! topic; l !! partition)) ∧
  wl_low_read_at l' = Some now.
Proof.
  unfold read_low_and_high, watermarks_of, high_read.
  destruct (os_low_watermarks env wanted) as [lows|] eqn:El; simpl; [|done].
  destruct (os_high_watermarks env wanted) as [highs|] eqn:Eh; simpl; [|done].
  intros [= <- <-] (Hh & Hl & Hle)%merge_watermarks_lookup. eauto 10.
Qed.

Lemma uncached_none previous highs topic partition h :
  uncached previous highs = ∅ → (l ← highs !! topic; l !! partition) = Some h →
  (l ← known_lows previous highs !! topic; l !! partition) = cached_low previous topic partition h ∧
  is_Some (cached_low previous topic partition h).
Proof.
  intros Hu Hh. apply (f_equal (.!! topic)) in Hu. revert Hu. unfold uncached, known_lows.
  rewrite lookup_empty, !map_lookup_imap.
  destruct (highs !! topic) as [ps|]; simpl in *; [|done]. case_bool_decide as E; [intros _|done].
  rewrite map_lookup_imap, Hh. simpl. split; [done|].
  destruct (cached_low previous topic partition h) eqn:Ec; [done|]. exfalso.
  apply (not_elem_of_nil partition). rewrite <- E. apply list_elem_of_omap. exists (partition, h).
  split; [by apply elem_of_map_to_list|]. simpl. by rewrite Ec.
Qed.

Lemma uncached_lacking previous highs : lacking previous highs (uncached previous highs).
Proof.
  intros topic partition. unfold uncached. rewrite map_lookup_imap.
  destruct (highs !! topic) as [ps|]; cbn [mbind option_bind];
    [|simpl; rewrite elem_of_nil; naive_solver].
  set (missing := omap _ _).
  assert (partition ∈ missing ↔ ∃ h, ps !! partition = Some h ∧ ∀ low', ¬ stays previous topic partition h low') as Hm.
  { unfold missing. rewrite list_elem_of_omap. split.
    - intros ([p h] & Hin%elem_of_map_to_list & Hc). cbn [fst snd] in Hc.
      destruct (cached_low previous topic p h) eqn:Ec; [done|]. injection Hc as ->. exists h. split; [done|].
      intros low' Hs%cached_low_spec. congruence.
    - intros (h & Hh & Hs). exists (partition, h). split; [by apply elem_of_map_to_list|]. cbn [fst snd].
      destruct (cached_low previous topic partition h) eqn:Ec; [|done]. by apply cached_low_spec, Hs in Ec. }
  case_bool_decide as E; cbn [default]; [|exact Hm]. by rewrite E in Hm.
Qed.

(** Where the lows of a pass that only reads the highs come from. *)
Lemma read_high_cases env wanted previous marks :
  read_high env wanted previous = Ok marks →
  ∃ highs lows, os_high_watermarks env wanted = Ok highs ∧ marks = merge_watermarks lows (found highs) ∧
    ∀ topic partition h, at_ (found highs) topic partition = Some h →
      (∃ low', at_ lows topic partition = Some low' ∧ stays previous topic partition h low') ∨
      (∃ asked fetched, lacking previous (found highs) asked ∧ os_low_watermarks env asked = Ok fetched ∧
        match at_ (found fetched) topic partition with
        | Some low' => at_ lows topic partition = Some low'
        | None => partition ∈ default [] (asked !! topic) ∧ at_ lows topic partition = None
        end).
Proof.
  unfold read_high. destruct (os_high_watermarks env wanted) as [highs|]; simpl; [|done].
  pose proof (uncached_lacking previous (found highs)) as Hlack.
  case_bool_decide as E.
  - intros [= <-]. eexists _, _. split; [done|]. split; [done|]. intros topic partition h Hh. left.
    destruct (uncached_none previous (found highs) topic partition h E Hh) as [Hk [low' Hl]].
    exists low'. rewrite Hk. split; [done|]. by apply cached_low_spec.
  - destruct (os_low_watermarks env _) as [fetched|] eqn:Ef; simpl; [|done].
    intros [= <-]. eexists _, _. split; [done|]. split; [done|]. intros topic partition h Hh.
    rewrite extend_lows_lookup.
    destruct (at_ (found fetched) topic partition) as [f|] eqn:Eff.
    { right. exists (uncached previous (found highs)), fetched. by rewrite Eff. }
    destruct (at_ (known_lows previous (found highs)) topic partition) as [low'|] eqn:Ek.
    + left. exists low'. split; [done|]. apply known_lows_lookup in Ek as (h' & Hh' & ?).
      apply cached_low_spec. congruence.
    + right. exists (uncached previous (found highs)), fetched. rewrite Eff.
      split_and!; [done..| |done]. apply Hlack. exists h. split; [done|].
      intros low' Hs%cached_low_spec. revert Ek. unfold known_lows. rewrite map_lookup_imap.
      destruct (found highs !! topic) as [ps|]; simpl in *; [|done]. rewrite map_lookup_imap, Hh. simpl. congruence.
Qed.

Lemma read_high_spec env wanted previous marks topic partition m :
  read_high env wanted previous = Ok marks →
  at_ marks topic partition = Some m →
  (low m ≤ high m)%Z ∧
  ∃ highs, os_high_watermarks env wanted = Ok highs ∧ at_ (found highs) topic partition = Some (high m) ∧
    (stays previous topic partition (high m) (low m) ∨ low_read env previous (found highs) topic partition m).
Proof.
  intros (highs & lows & Hh & -> & Hl)%read_high_cases (Hp & Hm & Hle)%merge_watermarks_lookup.
  split; [done|]. exists highs. split; [done|]. split; [done|].
  destruct (Hl _ _ _ Hp) as [(low' & Hk & Hs)|(asked & fetched & Hlack & Ha & Hk)].
  - left. rewrite Hk in Hm. simpl in Hm. by rewrite Hm.
  - right. exists asked, fetched. split; [done|]. split; [done|].
    destruct (at_ (found fetched) topic partition); [by rewrite Hk in Hm|].
    destruct Hk as [? Hk]. by rewrite Hk in Hm.
Qed.

Lemma lane_wanted_lookup s topology topic partitions :
  lane_wanted s topology !! topic = Some partitions →
  StronglySorted Z.lt partitions ∧
  ∀ p, p ∈ partitions ↔
    (∃ info, tp_topics topology !! topic = Some info ∧ p ∈ partition_ids info) ∨
    (∃ offsets id group, load (T := OffsetTable) s = Some offsets ∧ ot_groups offsets !! id = Some group ∧
      (topic, p) ∈ offset_partitions group).
Proof.
  unfold lane_wanted. rewrite lookup_fmap. intros (ps & Hps & ->)%fmap_Some.
  split; [apply (dedup_sorted Z.compare); [apply Z.compare_eq|apply sort_by_sorted, _]|].
  intros p. cbn beta. rewrite elem_of_dedup, elem_of_sort_by.
  assert (p ∈ default [] ((partition_ids <$> tp_topics topology) !! topic) ↔
    ∃ info, tp_topics topology !! topic = Some info ∧ p ∈ partition_ids info) as <-.
  { rewrite lookup_fmap. destruct (tp_topics topology !! topic); simpl; [naive_solver|].
    rewrite elem_of_nil. naive_solver. }
  revert Hps. destruct (load (T := OffsetTable) s) as [offsets|]; simpl; intros Hps.
  - apply (f_equal (default [])) in Hps. simpl in Hps.
    rewrite <- Hps, push_wanted_lookup. apply or_iff_compat_l.
    rewrite elem_of_concat. split.
    + intros (l & Hin & ([id g] & -> & Hg)%list_elem_of_fmap). apply elem_of_map_to_list in Hg. by eauto 6.
    + intros (o & id & g & [= <-] & Hg & Hin). exists (offset_partitions g). split; [done|].
      apply list_elem_of_fmap. exists (id, g). split; [done|]. by apply elem_of_map_to_list.
  - rewrite Hps. simpl. split; [by left|]. intros [?|(? & ? & ? & ? & _)]; done.
Qed.

(** A table as the rest of the program relies on it: no partition's first offset is past its
    next one, and no topic is listed without partitions. *)
Definition marks_ok (table : WatermarkTable) : Prop :=
  (∀ topic partition m, marks_get table topic partition = Some m → (low m ≤ high m)%Z) ∧
  ∀ topic, wt_marks table !! topic ≠ Some ∅.

Lemma merged_ok lows highs : marks_ok {| wt_marks := merge_watermarks lows highs |}.
Proof.
  split.
  - intros topic partition m. rewrite marks_get_merge. by intros (_ & _ & ?)%merge_watermarks_lookup.
  - intros topic. simpl. unfold merge_watermarks. rewrite map_lookup_imap.
    destruct (highs !! topic); simpl; [|done]. case_decide; simpl; congruence.
Qed.

Lemma watermark_fetch_ok l s env topology previous now l' s' table :
  watermark_fetch l s env topology previous now = (l', s', Ok table) → marks_ok table.
Proof.
  unfold watermark_fetch, read_low_and_high, watermarks_of. simpl. intros Hf.
  assert (∃ lows highs, wt_marks table = merge_watermarks lows highs) as (lows & highs & Hm).
  { destruct (os_low_watermarks (in_offsets env) (lane_wanted s topology)) as [lows|] eqn:El,
      (os_high_watermarks (in_offsets env) (lane_wanted s topology)) as [highs|] eqn:Eh,
      previous as [previous|]; try destruct (negb _ && negb _);
      try destruct (read_high (in_offsets env) (lane_wanted s topology) previous) as [marks|] eqn:Er;
      simpl in Hf; try discriminate Hf; injection Hf as <- <- <-;
      try (apply read_high_cases in Er as (? & ? & _ & -> & _)); by eexists _, _. }
  destruct table as [marks]. simpl in Hm. rewrite Hm. apply merged_ok.
Qed.

(** ** Told rates *)

(** Equal as numbers, or the same not-a-number. *)
Definition same_rate (a b : spec_float) : Prop := a = b ∨ SFeqb a b = true.

Lemma SFeqb_cases a b :
  SFeqb a b = true ↔ (a = b ∧ a ≠ S754_nan) ∨ ∃ s s', a = S754_zero s ∧ b = S754_zero s'.
Proof.
  assert (∀ m e m' e', match (e ?= e')%Z with Eq => (m ?= m')%positive | c => c end = Eq → m = m' ∧ e = e') as Hc.
  { intros m e m' e'. destruct (Z.compare_spec e e'); try done. by intros ?%Pos.compare_eq. }
  unfold SFeqb.
  destruct a as [s|s| |s m e], b as [s'|s'| |s' m' e']; simpl; try naive_solver;
    try (destruct s; naive_solver); try (destruct s, s'; naive_solver).
  specialize (Hc m e m' e'). unfold Pos.compare in Hc.
  destruct s, s'; simpl; try naive_solver; (split; [|intros [[[= <- <-] _]|(? & ? & [=] & _)];
    by rewrite Z.compare_refl, ?Pos.compare_cont_refl]); intros H; left; (split; [|done]);
    destruct (e ?= e')%Z; try done; destruct (Pos.compare_cont Eq m m'); try done;
    by destruct (Hc eq_refl) as [-> ->].
Qed.

Lemma same_rate_trans a b c : same_rate a b → same_rate b c → same_rate a c.
Proof.
  unfold same_rate. rewrite !SFeqb_cases.
  intros [->|[[-> ?]|(? & ? & -> & ->)]] [<-|[[<- ?]|(? & ? & ? & ->)]]; eauto 8.
Qed.

Definition tell_rates (told : gmap string spec_float) (rates : list TopicRate) : gmap string spec_float :=
  foldl (λ told rate, <[rt_topic rate := rt_rate rate]> told) told rates.

(** The rates a reader of the bus knows. *)
Definition told_rates (bus : list Change) : gmap string spec_float :=
  foldl (λ told change, match change with ChWatermarks rates => tell_rates told rates | _ => told end) ∅ bus.

(** Every rate the store shows is one the reader knows. *)
Definition rates_told (told : gmap string spec_float) (rates : RateStore) : Prop :=
  ∀ topic rate, rates !! topic = Some rate → ∃ rate', told !! topic = Some rate' ∧ same_rate rate' rate.

Lemma rates_told_insert told rates topic rate :
  rates_told told rates → rates_told (<[topic := rate]> told) (<[topic := rate]> rates).
Proof.
  intros Ht t r. rewrite lookup_insert_Some. intros [[<- <-]|[Hne Hr]].
  - exists rate. rewrite lookup_insert_eq. split; [done|by left].
  - destruct (Ht t r Hr) as (r' & ? & ?). exists r'. by rewrite lookup_insert_ne.
Qed.

Lemma keep_changed_told told rates updates rates' kept :
  rates_told told rates → keep_changed rates updates = (rates', kept) →
  rates_told (tell_rates told kept) rates'.
Proof.
  revert told rates rates' kept.
  induction updates as [|update updates IH]; intros told rates rates' kept Ht; cbn [keep_changed].
  { by intros [= <- <-]. }
  unfold rate_replace.
  destruct (keep_changed (<[rt_topic update := rt_rate update]> rates) updates) as [rates1 kept1] eqn:E.
  destruct (rates !! rt_topic update) as [old|] eqn:Eold; [destruct (SFeqb old (rt_rate update)) eqn:Eeq|];
    simpl; intros [= <- <-]; cbn [tell_rates foldl];
    (eapply IH; [|exact E]); [|by apply rates_told_insert..].
  intros t r. rewrite lookup_insert_Some. intros [[<- <-]|[Hne Hr]]; [|by apply Ht].
  destruct (Ht _ _ Eold) as (r' & Hr' & Hs). exists r'. split; [done|].
  eapply same_rate_trans; [exact Hs|by right].
Qed.

Lemma told_rates_app bus more :
  told_rates (bus ++ more) =
  foldl (λ told change, match change with ChWatermarks rates => tell_rates told rates | _ => told end)
    (told_rates bus) more.
Proof. apply foldl_app. Qed.

(** The steps that touch the rates, and everything else. *)
Inductive rates_step : ClusterStore → ClusterStore → Prop :=
  | step_measured s l previous next now :
      rates_step s (watermark_publish l s previous next now).2
  | step_topology s next delta : rates_step s (topology_publish s next delta)
  | step_other s s' told :
      cs_rates s' = cs_rates s → cs_bus s' = cs_bus s ++ told → Forall (λ c, ∀ rates, c ≠ ChWatermarks rates) told →
      rates_step s s'.

Lemma rates_publish s change : cs_rates (publish s change) = cs_rates s.
Proof. by destruct s. Qed.
Lemma rates_set s rates : cs_rates (set_rates s rates) = rates.
Proof. by destruct s. Qed.

Lemma told_rates_other bus told :
  Forall (λ c, ∀ rates, c ≠ ChWatermarks rates) told → told_rates (bus ++ told) = told_rates bus.
Proof.
  intros Hf. rewrite told_rates_app. generalize (told_rates bus) as m.
  induction Hf as [|c told Hc _ IH]; intros m; [done|]. cbn [foldl]. rewrite IH. by destruct c; try destruct (Hc rates).
Qed.

Lemma rates_step_told s s' : rates_step s s' →
  rates_told (told_rates (cs_bus s)) (cs_rates s) → rates_told (told_rates (cs_bus s')) (cs_rates s').
Proof.
  intros Hstep Ht. destruct Hstep as [s l previous next now|s next delta|s s' told Hr Hb Hf].
  - unfold watermark_publish.
    destruct (keep_changed _ _) as [rates kept] eqn:E. simpl.
    pose proof (keep_changed_told _ _ _ _ _ Ht E) as Hk. case_bool_decide as En.
    + rewrite set_rates_bus, rates_set. by destruct kept.
    + rewrite rates_publish, rates_set, publish_bus, set_rates_bus. by rewrite told_rates_app.
  - unfold topology_publish. rewrite publish_bus, rates_publish.
    rewrite told_rates_other by (repeat constructor; done).
    case_bool_decide; [done|]. rewrite set_rates_bus, rates_set.
    intros t r (Hr & _)%map_lookup_filter_Some. by apply Ht.
  - by rewrite Hr, Hb, told_rates_other.
Qed.

(** ** Properties *)

(** C23 Each partition the lane shows has both its offsets, the first not past the next and
    no topic empty; its next offset was read in this pass, with every partition of the
    topology and of the groups' commits asked for; a pass with no table before, with a
    refresh asked for, or with the firsts due, asks for the first offsets of the same
    partitions too and dates that. Any other pass asks for exactly those first offsets that
    it has not or that the log no longer holds, and keeps the others unless it is answered
    for them as well. A first offset that Kafka does not answer for is taken to be the next. *)
Theorem watermark_fetch_spec l s env topology previous now l' s' table :
  watermark_fetch l s env topology previous now = (l', s', Ok table) →
  marks_ok table ∧ ln_refresh (cs_watermarks s') = false ∧
  ∀ topic partition m, marks_get table topic partition = Some m →
    ∃ highs, os_high_watermarks (in_offsets env) (lane_wanted s topology) = Ok highs ∧
    (l ← found highs !! topic; l !! partition) = Some (high m) ∧
    ((∃ lows, os_low_watermarks (in_offsets env) (lane_wanted s topology) = Ok lows ∧
        low m = default (high m) (l ← found lows !! topic; l !! partition) ∧
        wl_low_read_at l' = Some now) ∨
     (ln_refresh (cs_watermarks s) = false ∧ low_due l now = false ∧ l' = l ∧
      ∃ before, previous = Some before ∧
        (stays before topic partition (high m) (low m) ∨
         low_read (in_offsets env) before (found highs) topic partition m))).
Proof.
  intros Hf. split; [by eapply watermark_fetch_ok|]. revert Hf. unfold watermark_fetch.
  destruct (take_refresh (cs_watermarks s)) as [lane refresh] eqn:Et.
  assert (ln_refresh lane = false ∧ refresh = ln_refresh (cs_watermarks s)) as [Hlane ->]
    by (unfold take_refresh in Et; by injection Et as <- <-).
  destruct previous as [before|]; [destruct (negb _ && negb _) eqn:Eb|]; cbn zeta;
    [destruct (read_high _ _ _) as [marks|] eqn:Er|
     destruct (read_low_and_high _ _ _ _) as [l1 [marks|]] eqn:Er..];
    simpl; try (by intros [=]); intros [= <- <- <-]; (split; [destruct s; exact Hlane|]);
    intros topic partition m Hm.
  1: { apply andb_true_iff in Eb as [E1%negb_true_iff E2%negb_true_iff].
       destruct (read_high_spec _ _ _ _ _ _ _ Er Hm) as (_ & highs & Hh & Hp & Hl). exists highs. eauto 10. }
  all: destruct (read_low_and_high_spec _ _ _ _ _ _ _ _ _ Er Hm) as (_ & (highs & Hh & Hp) & (lows & ? & ?) & ?);
    exists highs; eauto 10.
Qed.

(** C25 A reader of the bus always knows the rate the store shows for each topic: from a store
    with none, through every table of watermarks, every topology that drops topics and
    anything else the program does. Storing the rates and telling them is one step here. *)
Theorem rates_are_told s s' :
  cs_rates s = ∅ → rtc rates_step s s' →
  ∀ topic rate, cs_rates s' !! topic = Some rate →
    ∃ rate', told_rates (cs_bus s') !! topic = Some rate' ∧ same_rate rate' rate.
Proof.
  intros He Hsteps. assert (rates_told (told_rates (cs_bus s)) (cs_rates s)) as Ht by (by rewrite He; intros ??).
  clear He. induction Hsteps as [s|s s1 s' Hstep _ IH]; [exact Ht|].
  by apply IH, (rates_step_told s).
Qed.

(** ** Witnesses *)

Definition sample_watermark_lane : WatermarkLane := watermark_lane_new 5 30 60 100.
Definition sample_topology : Topology := assemble {| ms_brokers := []; ms_topics := [sample_topic] |} [].

Lemma watermark_fetch_spec_witness :
  ∃ l' s' table,
    watermark_fetch sample_watermark_lane sample_store (sample_session [sample_topic]) sample_topology None 7 =
      (l', s', Ok table) ∧
    ∃ m, marks_get table "t" 0 = Some m ∧ (low m ≤ high m)%Z ∧ wl_low_read_at l' = Some 7%Z.
Proof.
  destruct (watermark_fetch sample_watermark_lane sample_store (sample_session [sample_topic]) sample_topology None 7)
    as [[l' s'] [table|e]] eqn:E; [|vm_compute in E; discriminate E].
  exists l', s', table. split; [done|].
  destruct (watermark_fetch_spec _ _ _ _ _ _ _ _ _ E) as ((Hle & _) & _ & Hm).
  destruct (marks_get table "t" 0) as [m|] eqn:Em.
  - exists m. split; [done|]. split; [by eapply Hle|].
    destruct (Hm _ _ _ Em) as (? & _ & _ & [(? & _ & _ & ?)|(_ & _ & _ & ? & [=] & _)]); done.
  - vm_compute in E. injection E as <- <- <-. vm_compute in Em. discriminate Em.
Defined.

Definition sample_marks (h : Z) : WatermarkTable :=
  {| wt_marks := {[ "orders" := {[ 0%Z := {| low := 0; high := h |} ]} ]} |}.

(** A topic's first table and the one after it, two seconds and ten records later. *)
Definition sample_measured : WatermarkLane * ClusterStore :=
  let '(l, s) := watermark_publish (watermark_lane_new 1 1 1 100000000000) sample_store None (sample_marks 5) 0 in
  watermark_publish l s (Some (sample_marks 5)) (sample_marks 15) 2000000000.

Example sample_measured_rate :
  (cs_rates sample_measured.2 !! "orders") = Some (f64_of_Z 5).
Proof. vm_compute. reflexivity. Qed.

Lemma rates_are_told_witness :
  ∃ rate', told_rates (cs_bus sample_measured.2) !! "orders" = Some rate' ∧ same_rate rate' (f64_of_Z 5).
Proof.
  apply (rates_are_told sample_store sample_measured.2); [reflexivity| |vm_compute; reflexivity].
  eapply rtc_l; [apply (step_measured sample_store (watermark_lane_new 1 1 1 100000000000) None (sample_marks 5) 0)|].
  eapply rtc_once.
  apply (step_measured _ (watermark_publish (watermark_lane_new 1 1 1 100000000000) sample_store None (sample_marks 5) 0).1
    (Some (sample_marks 5)) (sample_marks 15) 2000000000).
Defined.
