(* ===== verification/Offsets.v ===== *)
(** [src/kafka/ingest/offsets.rs]: the lane of the groups' committed offsets. A sweep asks
    for the groups that are due, and keeps the others' offsets. *)

From S2P Require Import Prelude Errors Metadata Group Tables Projections Reset Lane Interest Store Ingest.

(** ** The lane *)

(** [ol_published] holds a fingerprint of the last lag told for a group. *)
Record OffsetLane : Type := {
  ol_tick : Z;
  ol_fast : Z;
  ol_slow : Z;
  ol_attempted_at : gmap string Z;
  ol_published : gmap string Z;
}.

Definition offset_lane_new (tick fast slow : Z) : OffsetLane :=
  {| ol_tick := tick; ol_fast := fast; ol_slow := slow; ol_attempted_at := ∅; ol_published := ∅ |}.

Definition with_tiers (l : OffsetLane) (tick fast slow : Z) : OffsetLane :=
  {| ol_tick := tick; ol_fast := fast; ol_slow := slow;
     ol_attempted_at := ol_attempted_at l; ol_published := ol_published l |}.

Definition with_attempted (l : OffsetLane) (attempted_at : gmap string Z) : OffsetLane :=
  {| ol_tick := ol_tick l; ol_fast := ol_fast l; ol_slow := ol_slow l;
     ol_attempted_at := attempted_at; ol_published := ol_published l |}.

Definition with_published (l : OffsetLane) (published : gmap string Z) : OffsetLane :=
  {| ol_tick := ol_tick l; ol_fast := ol_fast l; ol_slow := ol_slow l;
     ol_attempted_at := ol_attempted_at l; ol_published := published |}.

Record Wave : Set := {
  wv_refreshed : list string;
  wv_failed : list string;
  wv_dropped : list string;
}.

Definition Wave_default : Wave := {| wv_refreshed := []; wv_failed := []; wv_dropped := [] |}.

Definition wave_is_empty (w : Wave) : bool :=
  bool_decide (wv_refreshed w = []) && bool_decide (wv_failed w = []) && bool_decide (wv_dropped w = []).

(** The ids of a topology's groups, in order. *)
Definition group_ids (topology : Topology) : list string := btree_keys (tp_groups topology).

Definition has_group (topology : Topology) (id : string) : bool :=
  bool_decide (is_Some (tp_groups topology !! id)).

Definition offsets_retain (l : OffsetLane) (topology : Topology) : OffsetLane :=
  {| ol_tick := ol_tick l; ol_fast := ol_fast l; ol_slow := ol_slow l;
     ol_attempted_at := filter (λ entry, has_group topology entry.1 = true) (ol_attempted_at l);
     ol_published := filter (λ entry, has_group topology entry.1 = true) (ol_published l) |}.

(** How long a group's last attempt lasts. *)
Definition threshold (l : OffsetLane) (hot : gset string) (refresh : bool) (id : string) : Z :=
  if negb (bool_decide (id ∈ hot)) then ol_slow l else if refresh then 0 else ol_fast l.

Definition group_due (l : OffsetLane) (hot : gset string) (refresh : bool) (now : Z) (id : string) : bool :=
  match ol_attempted_at l !! id with
  | Some at_ => (threshold l hot refresh id <=? since now at_)%Z
  | None => true
  end.

Definition due_groups (l : OffsetLane) (topology : Topology) (hot : gset string) (refresh : bool) (now : Z)
    : list string :=
  List.filter (group_due l hot refresh now) (group_ids topology).

Definition stale_groups (topology : Topology) (previous : option OffsetTable) : list string :=
  match previous with
  | Some table => List.filter (λ id, negb (has_group topology id)) (map_to_list (ot_groups table)).*1
  | None => []
  end.

(** ** Fetching *)

Definition mark_attempted (l : OffsetLane) (ids : list string) (now : Z) : OffsetLane :=
  with_attempted l (foldl (λ attempted id, <[id := now]> attempted) (ol_attempted_at l) ids).

(** The partitions to ask for: all of them ([None]) when the group is assigned none. *)
Definition offset_fetch_partitions (topology : Topology) (previous : option OffsetTable) (id : string)
    : option (list (string * Z)) :=
  let partitions := from_option assigned_partition_refs [] (tp_groups topology !! id) in
  if bool_decide (partitions = []) then None
  else
    let partitions :=
      match offsets_for previous id with
      | Some offsets =>
          let consumed := partitions.*1 in
          partitions ++ List.filter (λ entry, bool_decide (entry.1 ∈ consumed)) (offset_partitions offsets)
      | None => partitions
      end in
    Some (dedup (sort_by key_cmp partitions)).

(** [None] for a group Kafka failed to answer for. *)
Definition offsets_fetch (l : OffsetLane) (env : IngestSession) (topology : Topology)
    (previous : option OffsetTable) (due : list string) (now : Z)
    : OffsetLane * gmap string (option (list CommittedOffset)) :=
  (mark_attempted l due now,
   collect ((λ id,
     (id, match in_committed env id (offset_fetch_partitions topology previous id) with
          | Ok committed => Some committed
          | Err _ => None
          end)) <$> due)).

(** ** A sweep *)

Section sweep.
(** [fingerprint] is [foldhash]'s hash of an update. *)
Context (fingerprint : GroupLagUpdate → Z).

Definition lag_update (topology : Topology) (offsets : OffsetTable) (watermarks : option WatermarkTable)
    (id : string) : option GroupLagUpdate :=
  group ← tp_groups topology !! id;
  let lag := group_lag group (offsets_get offsets id) watermarks in
  total ← gl_total lag;
  Some {| glu_group := id; glu_total_lag := total; glu_lag_complete := gl_complete lag;
          glu_offsets := gl_offsets lag |}.

(** The updates that are not the last ones told, by their fingerprints. *)
Fixpoint fresh_updates (published : gmap string Z) (updates : list GroupLagUpdate)
    : gmap string Z * list GroupLagUpdate :=
  match updates with
  | [] => (published, [])
  | update :: updates =>
      let print := fingerprint update in
      let '(after, fresh) := fresh_updates (<[glu_group update := print]> published) updates in
      (after, if bool_decide (published !! glu_group update = Some print) then fresh else update :: fresh)
  end.

Definition lag_updates (l : OffsetLane) (s : ClusterStore) (topology : Topology) (offsets : OffsetTable)
    (refreshed : list string) : OffsetLane * list GroupLagUpdate :=
  let watermarks := load (T := WatermarkTable) s in
  let '(published, updates) :=
    fresh_updates (ol_published l) (omap (lag_update topology offsets watermarks) refreshed) in
  (with_published l published, updates).

(** One group's place in the next table. *)
Definition sweep_group (previous : option OffsetTable) (fetched : gmap string (option (list CommittedOffset)))
    (state : gmap string GroupOffsets * list string * list string) (id : string)
    : gmap string GroupOffsets * list string * list string :=
  let '(groups, refreshed, failed) := state in
  let keep := match offsets_for previous id with Some kept => <[id := kept]> groups | None => groups end in
  match fetched !! id with
  | Some None => (keep, refreshed, failed ++ [id])
  | Some (Some committed) => (<[id := {| gos_committed := committed |}]> groups, refreshed ++ [id], failed)
  | None => (keep, refreshed, failed)
  end.

(** When a sweep reads a clock. *)
Record SweepClock : Type := {
  sc_hot : Z;
  sc_due : Z;
  sc_attempted : Z;
  sc_commit : Timestamp;
}.

(** [mid]: what the other tasks do to the store while the fetches wait. *)
Definition sweep (l : OffsetLane) (s : ClusterStore) (topology : Topology) (env : IngestSession)
    (clock : SweepClock) (mid : ClusterStore → ClusterStore) : OffsetLane * ClusterStore * Wave :=
  let l := offsets_retain l topology in
  let previous := load (T := OffsetTable) s in
  let '(interest, hot) := hot_groups (cs_interest s) (sc_hot clock) in
  let s := set_interest s interest in
  let '(lane, refresh) := take_refresh (cs_offsets s) in
  let s := set_lane s lane in
  let due := due_groups l topology hot refresh (sc_due clock) in
  let dropped := stale_groups topology previous in
  if bool_decide (due = []) && bool_decide (dropped = []) && bool_decide (is_Some previous)
  then (l, s, Wave_default)
  else
    let '(l, fetched) := offsets_fetch l env topology previous due (sc_attempted clock) in
    let s := mid s in
    let '(groups, refreshed, failed) := foldl (sweep_group previous fetched) (∅, [], []) (group_ids topology) in
    let next := {| ot_groups := groups |} in
    let s := set_lane s (commit (lane_of s) next (sc_commit clock)).1 in
    let '(l, updates) := lag_updates l s topology next refreshed in
    let s := if bool_decide (updates = []) then s else publish s (ChGroupOffsets updates) in
    (l, s, {| wv_refreshed := refreshed; wv_failed := failed; wv_dropped := dropped |}).

(** A turn of [run]: a sweep, and its record. *)
Definition offset_turn (l : OffsetLane) (s : ClusterStore) (topology : Topology) (env : IngestSession)
    (clock : SweepClock) (elapsed : Z) (checked : Timestamp) (mid : ClusterStore → ClusterStore)
    : OffsetLane * ClusterStore * Wave :=
  let '(l, s, wave) := sweep l s topology env clock mid in
  (l, set_lane s (record_poll (lane_of (T := OffsetTable) s) elapsed None checked), wave).
End sweep.

(** ** Lemmas *)

Lemma elem_of_group_ids topology id : id ∈ group_ids topology ↔ is_Some (tp_groups topology !! id).
Proof. apply elem_of_btree_keys. Qed.

Lemma NoDup_group_ids topology : NoDup (group_ids topology).
Proof. apply NoDup_btree_keys. Qed.

Lemma elem_of_filter_bool {A} (f : A → bool) l x : x ∈ List.filter f l ↔ x ∈ l ∧ f x = true.
Proof. rewrite !list_elem_of_In. apply filter_In. Qed.

Lemma NoDup_filter_bool {A} (f : A → bool) (l : list A) : NoDup l → NoDup (List.filter f l).
Proof.
  induction 1 as [|x l Hx Hl IH]; simpl; [constructor|]. destruct (f x); [|done].
  constructor; [|done]. by rewrite elem_of_filter_bool; intros [? _].
Qed.

Lemma elem_of_stale_groups topology previous id :
  id ∈ stale_groups topology previous ↔ is_Some (offsets_for previous id) ∧ tp_groups topology !! id = None.
Proof.
  unfold stale_groups, offsets_for, offsets_get, has_group. destruct previous as [table|]; simpl; [|].
  - rewrite elem_of_filter_bool, negb_true_iff, bool_decide_eq_false, <- eq_None_not_Some.
    apply and_iff_compat_r. rewrite list_elem_of_fmap. split.
    + intros ([k g] & -> & ?%elem_of_map_to_list). by exists g.
    + intros [g Hg]. exists (id, g). split; [done|]. by apply elem_of_map_to_list.
  - rewrite elem_of_nil. split; [done|]. by intros [[? [=]] _].
Qed.

(** A group the sweep asks for. *)
Definition asked (l : OffsetLane) (s : ClusterStore) (topology : Topology) (clock : SweepClock) (id : string) : Prop :=
  is_Some (tp_groups topology !! id) ∧
  match ol_attempted_at l !! id with
  | Some at_ =>
      (threshold l (hot_groups (cs_interest s) (sc_hot clock)).2 (ln_refresh (cs_offsets s)) id
         ≤ since (sc_due clock) at_)%Z
  | None => True
  end.

#[export] Instance asked_dec l s topology clock id : Decision (asked l s topology clock id).
Proof.
  apply and_dec; [apply _|]. destruct (ol_attempted_at l !! id); [apply Z_le_dec|apply True_dec].
Defined.

Lemma elem_of_due_groups l s topology clock id :
  id ∈ due_groups (offsets_retain l topology) topology (hot_groups (cs_interest s) (sc_hot clock)).2
         (ln_refresh (cs_offsets s)) (sc_due clock) ↔ asked l s topology clock id.
Proof.
  unfold due_groups, asked. rewrite elem_of_filter_bool, elem_of_group_ids.
  split; intros [Hid Hdue]; (split; [done|]); revert Hdue; unfold group_due; simpl.
  - destruct (ol_attempted_at l !! id) as [at_|] eqn:E; [|done].
    rewrite (map_lookup_filter_Some_2 _ _ _ _ E) by (by apply bool_decide_eq_true). apply Z.leb_le.
  - destruct (filter _ (ol_attempted_at l) !! id) as [at_|] eqn:E; [|done].
    apply map_lookup_filter_Some in E as [-> _]. apply Z.leb_le.
Qed.

Lemma mark_attempted_lookup l ids now id :
  ol_attempted_at (mark_attempted l ids now) !! id =
  if decide (id ∈ ids) then Some now else ol_attempted_at l !! id.
Proof.
  unfold mark_attempted. simpl. generalize (ol_attempted_at l) as m.
  induction ids as [|i ids IH]; intros m; [done|]. cbn [foldl]. rewrite IH.
  destruct (decide (id ∈ ids)) as [Hin|Hin]; [by rewrite decide_True by (by right)|].
  destruct (decide (id = i)) as [->|Hne].
  - rewrite lookup_insert_eq, decide_True by (by left). done.
  - rewrite lookup_insert_ne by done. by rewrite decide_False by (by rewrite not_elem_of_cons).
Qed.

(** What Kafka answers for a group. *)
Definition answer_for (env : IngestSession) (topology : Topology) (previous : option OffsetTable) (id : string)
    : option (list CommittedOffset) :=
  match in_committed env id (offset_fetch_partitions topology previous id) with
  | Ok committed => Some committed
  | Err _ => None
  end.

Lemma offsets_fetch_lookup l env topology previous due now id :
  (offsets_fetch l env topology previous due now).2 !! id =
  if decide (id ∈ due) then Some (answer_for env topology previous id) else None.
Proof.
  unfold offsets_fetch. cbn [snd]. fold (answer_for env topology previous).
  change (λ id, (id, _)) with (λ id, (id, answer_for env topology previous id)).
  pose proof (collect_cases ((λ id, (id, answer_for env topology previous id)) <$> due) id) as Hc.
  destruct (collect _ !! id) as [answer|].
  - apply list_elem_of_fmap in Hc as (i & [= -> ->] & Hi). by rewrite decide_True.
  - rewrite decide_False; [done|]. intros Hin. apply Hc. rewrite <- list_fmap_compose.
    apply list_elem_of_fmap. by exists id.
Qed.

Definition is_refreshed (fetched : gmap string (option (list CommittedOffset))) (id : string) : bool :=
  match fetched !! id with Some (Some _) => true | _ => false end.
Definition is_failed (fetched : gmap string (option (list CommittedOffset))) (id : string) : bool :=
  match fetched !! id with Some None => true | _ => false end.

(** A group's offsets after the sweep: those fetched, else those it had. *)
Definition swept (previous : option OffsetTable) (fetched : gmap string (option (list CommittedOffset)))
    (id : string) : option GroupOffsets :=
  match fetched !! id with
  | Some (Some committed) => Some {| gos_committed := committed |}
  | _ => offsets_for previous id
  end.

Lemma sweep_groups previous fetched ids groups refreshed failed groups' refreshed' failed' :
  NoDup ids → (∀ id, id ∈ ids → groups !! id = None) →
  foldl (sweep_group previous fetched) (groups, refreshed, failed) ids = (groups', refreshed', failed') →
  refreshed' = refreshed ++ List.filter (is_refreshed fetched) ids ∧
  failed' = failed ++ List.filter (is_failed fetched) ids ∧
  ∀ id, groups' !! id = if decide (id ∈ ids) then swept previous fetched id else groups !! id.
Proof.
  intros Hnd. revert groups refreshed failed.
  induction Hnd as [|i ids Hi Hnd IH]; intros groups refreshed failed Hg; cbn [foldl].
  { intros [= <- <- <-]. by rewrite !app_nil_r. }
  intros Hf. destruct (sweep_group previous fetched (groups, refreshed, failed) i)
    as [[groups1 refreshed1] failed1] eqn:E1.
  assert (refreshed1 = refreshed ++ (if is_refreshed fetched i then [i] else []) ∧
    failed1 = failed ++ (if is_failed fetched i then [i] else []) ∧
    groups1 = match swept previous fetched i with Some g => <[i := g]> groups | None => groups end)
    as (-> & -> & Hg1).
  { unfold sweep_group, is_refreshed, is_failed, swept in *.
    destruct (fetched !! i) as [[committed|]|]; injection E1 as <- <- <-; by rewrite ?app_nil_r. }
  destruct (IH groups1 _ _ (λ id Hid, ltac:(
    rewrite Hg1; destruct (swept previous fetched i); [rewrite lookup_insert_ne by congruence|]; apply Hg; by right))
    Hf) as (-> & -> & Hl).
  cbn [List.filter]. rewrite <- !app_assoc. split_and!; [by destruct (is_refreshed _ i)|by destruct (is_failed _ i)|].
  intros id. rewrite Hl. destruct (decide (id ∈ ids)) as [Hin|Hin]; [by rewrite decide_True by (by right)|].
  rewrite Hg1. destruct (decide (id = i)) as [->|Hne].
  - rewrite decide_True by (by left). destruct (swept previous fetched i); [by rewrite lookup_insert_eq|].
    apply Hg. by left.
  - rewrite decide_False by (by rewrite not_elem_of_cons).
    destruct (swept previous fetched i); [by rewrite lookup_insert_ne|done].
Qed.

Section swept.
Context (fingerprint : GroupLagUpdate → Z).

(** The lane and the store as a sweep starts: retained, with the refresh taken and the cold
    groups forgotten. *)
Definition sweep_start (s : ClusterStore) (clock : SweepClock) : ClusterStore :=
  let s := set_interest s (hot_groups (cs_interest s) (sc_hot clock)).1 in
  set_lane s (take_refresh (cs_offsets s)).1.

Lemma sweep_start_facts s clock :
  load (T := OffsetTable) (sweep_start s clock) = load s ∧ cs_bus (sweep_start s clock) = cs_bus s ∧
  ln_version (cs_offsets (sweep_start s clock)) = ln_version (cs_offsets s).
Proof. by destruct s. Qed.

Definition sweep_due (l : OffsetLane) (s : ClusterStore) (topology : Topology) (clock : SweepClock) : list string :=
  due_groups (offsets_retain l topology) topology (hot_groups (cs_interest s) (sc_hot clock)).2
    (ln_refresh (cs_offsets s)) (sc_due clock).

(** What a sweep answers and leaves. *)
Lemma sweep_cases l s topology env clock mid l' s' wave :
  quiet_for OffsetTable mid → sweep fingerprint l s topology env clock mid = (l', s', wave) →
  (sweep_due l s topology clock = [] ∧ stale_groups topology (load s) = [] ∧ is_Some (load (T := OffsetTable) s) ∧
   l' = offsets_retain l topology ∧ s' = sweep_start s clock ∧ wave = Wave_default) ∨
  (let fetched := (offsets_fetch (offsets_retain l topology) env topology (load s) (sweep_due l s topology clock)
                     (sc_attempted clock)).2 in
   (wv_refreshed wave = List.filter (is_refreshed fetched) (group_ids topology) ∧
    wv_failed wave = List.filter (is_failed fetched) (group_ids topology) ∧
    wv_dropped wave = stale_groups topology (load s)) ∧
   ol_attempted_at l' = ol_attempted_at (mark_attempted (offsets_retain l topology) (sweep_due l s topology clock)
                          (sc_attempted clock)) ∧
   ln_version (cs_offsets s') = u64_add (ln_version (cs_offsets s)) 1 ∧
   ∃ groups told updates, load s' = Some {| ot_groups := groups |} ∧
     (∀ id, groups !! id = if decide (id ∈ group_ids topology) then swept (load s) fetched id else None) ∧
     cs_bus s' = cs_bus s ++ told ++ (if decide (updates = []) then [] else [ChGroupOffsets updates]) ∧
     ∃ marks, updates = (fresh_updates fingerprint (ol_published (offsets_retain l topology))
       (omap (lag_update topology {| ot_groups := groups |} marks) (wv_refreshed wave))).2).
Proof.
  intros Hq. unfold sweep. rewrite (surjective_pairing (hot_groups _ _)).
  destruct (take_refresh (cs_offsets (set_interest s _))) as [lane refresh] eqn:Et.
  assert (refresh = ln_refresh (cs_offsets s) ∧ lane = (take_refresh (cs_offsets s)).1) as [-> ->]
    by (destruct s; simpl in *; by injection Et as <- <-).
  fold (sweep_due l s topology clock).
  assert (set_lane (set_interest s (hot_groups (cs_interest s) (sc_hot clock)).1) (take_refresh (cs_offsets s)).1 =
    sweep_start s clock) as -> by by destruct s.
  destruct (_ && _ && _) eqn:E.
  { intros [= <- <- <-]. left. apply andb_true_iff in E as [[E1 E2]%andb_true_iff E3].
    by apply bool_decide_eq_true in E1, E2, E3. }
  clear E. right. revert H.
  destruct (offsets_fetch _ _ _ _ _ _) as [l1 fetched] eqn:Ef.
  assert (l1 = mark_attempted (offsets_retain l topology) (sweep_due l s topology clock) (sc_attempted clock)) as ->
    by by injection Ef.
  cbn [snd]. clear Ef. destruct (foldl _ _ _) as [[groups refreshed] failed] eqn:Eg.
  destruct (sweep_groups _ _ _ _ _ _ _ _ _ (NoDup_group_ids topology) (λ _ _, lookup_empty _) Eg)
    as (-> & -> & Hg). clear Eg. unfold lag_updates.
  destruct (fresh_updates _ _ _) as [published updates] eqn:Eu.
  destruct (sweep_start_facts s clock) as (Hl & Hb & Hv).
  destruct (quiet_bus _ mid Hq (sweep_start s clock)) as [told Htold].
  pose proof (quiet_version _ mid Hq (sweep_start s clock)) as Hv1. rewrite Hb in Htold.
  set (s1 := mid (sweep_start s clock)) in *. clearbody s1.
  set (s2 := set_lane s1 (commit (lane_of s1) {| ot_groups := groups |} (sc_commit clock)).1) in *.
  assert (load (T := OffsetTable) s2 = Some {| ot_groups := groups |} ∧
    ln_version (cs_offsets s2) = u64_add (ln_version (cs_offsets s)) 1 ∧ cs_bus s2 = cs_bus s ++ told)
    as (Hload & Hv2 & Hb2).
  { rewrite <- Htold, <- Hv. change (ln_version (cs_offsets (sweep_start s clock))) with
      (ln_version (lane_of (T := OffsetTable) (sweep_start s clock))). rewrite <- Hv1. by destruct s1. }
  clearbody s2. intros [= <- <- <-]. split; [done|]. split; [done|]. cbn [wv_refreshed].
  split; [by case_bool_decide; destruct s2|].
  exists groups, told, updates. split; [|split; [|split]].
  - case_bool_decide; by destruct s2.
  - intros id. by rewrite Hg, lookup_empty.
  - case_bool_decide as E; [rewrite Hb2, decide_True by done|rewrite publish_bus, Hb2, decide_False by done];
      by rewrite <- ?app_assoc, ?app_nil_r.
  - exists (load s2). cbn [app mark_attempted with_attempted ol_published] in Eu |- *. by rewrite Eu.
Qed.
End swept.

Lemma sweep_leaves fingerprint l s topology env clock mid l' s' wave id :
  quiet_for OffsetTable mid → sweep fingerprint l s topology env clock mid = (l', s', wave) →
  let before := offsets_for (load s) id in
  let after := offsets_for (load s') id in
  is_Some (load (T := OffsetTable) s') ∧
  (id ∈ wv_dropped wave ↔ is_Some before ∧ tp_groups topology !! id = None) ∧
  (tp_groups topology !! id = None → after = None ∧ ol_attempted_at l' !! id = None) ∧
  (asked l s topology clock id → ol_attempted_at l' !! id = Some (sc_attempted clock) ∧
    match in_committed env id (offset_fetch_partitions topology (load s) id) with
    | Ok committed => after = Some {| gos_committed := committed |} ∧ id ∈ wv_refreshed wave
    | Err _ => after = before ∧ id ∈ wv_failed wave
    end) ∧
  (is_Some (tp_groups topology !! id) → ¬ asked l s topology clock id →
    after = before ∧ ol_attempted_at l' !! id = ol_attempted_at l !! id ∧
    ¬ (id ∈ wv_refreshed wave ∨ id ∈ wv_failed wave)).
Proof.
  intros Hq Hs. cbn zeta. pose proof (elem_of_due_groups l s topology clock id) as Hdue.
  fold (sweep_due l s topology clock) in Hdue.
  assert (∀ l0, ol_attempted_at l0 = ol_attempted_at (offsets_retain l topology) →
    ol_attempted_at l0 !! id = if decide (is_Some (tp_groups topology !! id)) then ol_attempted_at l !! id else None) as Hkept.
  { intros l0 ->. cbn [offsets_retain ol_attempted_at]. rewrite map_lookup_filter.
    destruct (ol_attempted_at l !! id) as [at_|]; simpl; [|by case_decide].
    unfold has_group. destruct (decide (is_Some (tp_groups topology !! id))).
    - by rewrite option_guard_True by by apply bool_decide_eq_true.
    - by rewrite option_guard_False by by rewrite bool_decide_eq_true. }
  destruct (sweep_cases _ _ _ _ _ _ _ _ _ _ Hq Hs)
    as [(Ed & Est & Hprev & -> & -> & ->)|((Hr & Hf & Hd) & Ha & _ & groups & told & updates & Hl & Hg & _)].
  - destruct (sweep_start_facts s clock) as (-> & _ & _). rewrite Ed, elem_of_nil in Hdue.
    rewrite (Hkept _ eq_refl). pose proof (elem_of_stale_groups topology (load s) id) as Hstale.
    rewrite Est, elem_of_nil in Hstale. cbn [wv_dropped wv_refreshed wv_failed Wave_default]. rewrite elem_of_nil. split_and!; [done|done| | |].
    + intros Hnone. rewrite decide_False by by rewrite Hnone; intros [? [=]]. split; [|done].
      apply eq_None_not_Some. intros Hsome. by apply Hstale.
    + intros Hask. by apply Hdue in Hask.
    + intros Hin _. rewrite decide_True by done. split_and!; [done|done|]. by intros [?|?].
  - rewrite Hl, Hd, elem_of_stale_groups. change (offsets_for (Some {| ot_groups := groups |}) id) with (groups !! id).
    rewrite Hg, Ha, mark_attempted_lookup, (Hkept _ eq_refl), Hr, Hf, !elem_of_filter_bool.
    assert (id ∈ group_ids topology ↔ is_Some (tp_groups topology !! id)) as Hids by apply elem_of_group_ids.
    unfold swept, is_refreshed, is_failed, answer_for. rewrite offsets_fetch_lookup.
    unfold answer_for. split_and!; [done|done| | |].
    + intros Hnone. rewrite !decide_False; [done|..]; rewrite ?Hids, ?Hdue, ?Hnone; try by intros [? [=]].
      intros [[? Hx] _]. by rewrite Hnone in Hx.
    + intros Hask. rewrite !(decide_True (P := id ∈ sweep_due _ _ _ _)) by by apply Hdue.
      assert (id ∈ group_ids topology) as Hin by (apply Hids, Hask). rewrite decide_True by done.
      split; [done|]. destruct (in_committed _ _ _) eqn:Ec; (split; [done|]);
        apply elem_of_filter_bool; (split; [done|]); rewrite offsets_fetch_lookup, decide_True by (by apply Hdue);
        unfold answer_for; by rewrite Ec.
    + intros Hin Hask. rewrite !(decide_False (P := id ∈ sweep_due _ _ _ _)) by by rewrite Hdue.
      rewrite !decide_True by (by rewrite ?Hids). split_and!; [done|done|].
      intros [[_ ?]|[_ Hx]%elem_of_filter_bool]; [done|].
      by rewrite offsets_fetch_lookup, decide_False in Hx by by rewrite Hdue.
Qed.

(** A sweep asks for a group of the topology, or leaves its last attempt. *)
Lemma sweep_asks fingerprint l s topology env clock mid l' s' wave id :
  quiet_for OffsetTable mid → sweep fingerprint l s topology env clock mid = (l', s', wave) →
  is_Some (tp_groups topology !! id) →
  id ∈ wv_refreshed wave ++ wv_failed wave ∨
  ¬ asked l s topology clock id ∧ ol_attempted_at l' !! id = ol_attempted_at l !! id.
Proof.
  intros Hq Hs Hid. destruct (sweep_leaves _ _ _ _ _ _ _ _ _ _ id Hq Hs) as (_ & _ & _ & Hask & Hleft).
  destruct (decide (asked l s topology clock id)) as [Ha|Ha].
  - left. apply elem_of_app. destruct (Hask Ha) as [_ Hans].
    destruct (in_committed _ _ _); destruct Hans as [_ ?]; auto.
  - right. by destruct (Hleft Hid Ha) as (_ & ? & _).
Qed.

Lemma sweep_tiers fingerprint l s topology env clock mid l' s' wave :
  sweep fingerprint l s topology env clock mid = (l', s', wave) → ol_fast l' = ol_fast l ∧ ol_slow l' = ol_slow l.
Proof.
  unfold sweep, lag_updates, offsets_fetch. destruct (hot_groups _ _), (take_refresh _), (_ && _ && _);
    [by intros [= <- _ _]|]. destruct (foldl _ _ _) as [[??]?], (fresh_updates _ _ _). by intros [= <- _ _].
Qed.

(** ** Properties *)

(** A sweep asks for each group of the topology whose last attempt is older than its
    threshold (the fast one while someone looks at it, none once they asked for a refresh,
    the slow one otherwise), with the partitions it is assigned and those already known of
    the topics it consumes; an answered group shows what Kafka answered, a failed one and
    one not asked keep what they showed, and one the topology lost is dropped. *)
Theorem sweep_spec fingerprint l s topology env clock mid l' s' wave id :
  quiet_for OffsetTable mid → sweep fingerprint l s topology env clock mid = (l', s', wave) →
  let before := offsets_for (load s) id in
  let after := offsets_for (load s') id in
  is_Some (load (T := OffsetTable) s') ∧
  (id ∈ wv_dropped wave ↔ is_Some before ∧ tp_groups topology !! id = None) ∧
  (tp_groups topology !! id = None → after = None ∧ ol_attempted_at l' !! id = None) ∧
  (asked l s topology clock id → ol_attempted_at l' !! id = Some (sc_attempted clock) ∧
    match in_committed env id (offset_fetch_partitions topology (load s) id) with
    | Ok committed => after = Some {| gos_committed := committed |} ∧ id ∈ wv_refreshed wave
    | Err _ => after = before ∧ id ∈ wv_failed wave
    end) ∧
  (is_Some (tp_groups topology !! id) → ¬ asked l s topology clock id →
    after = before ∧ ol_attempted_at l' !! id = ol_attempted_at l !! id ∧
    ¬ (id ∈ wv_refreshed wave ∨ id ∈ wv_failed wave)).
Proof. apply sweep_leaves. Qed.

(** One turn of the lane: what topology it sees, what Kafka answers, when, and what the rest
    of the program does meanwhile. *)
Record SweepTurn : Type := {
  st_topology : Topology;
  st_env : IngestSession;
  st_clock : SweepClock;
  st_mid : ClusterStore → ClusterStore;
}.

(** The waves of the lane's turns; [others] is what the program does between two turns. *)
Fixpoint sweeps (fingerprint : GroupLagUpdate → Z) (others : ClusterStore → ClusterStore) (l : OffsetLane)
    (s : ClusterStore) (turns : list SweepTurn) : list Wave :=
  match turns with
  | [] => []
  | turn :: turns =>
      let '(l, s, wave) := sweep fingerprint l s (st_topology turn) (st_env turn) (st_clock turn) (st_mid turn) in
      wave :: sweeps fingerprint others l (others s) turns
  end.

(** C24 No group waits for ever: a group that stays in the topology is asked for again by the
    time a sweep comes a slow threshold after its last attempt (at the first sweep when it
    was never asked for), whatever fails meanwhile and whoever stops looking at it. The fast
    threshold is taken to be no longer than the slow one. *)
Theorem no_group_waits fingerprint others l s turns id :
  (0 ≤ ol_fast l ≤ ol_slow l)%Z →
  Forall (λ turn, is_Some (tp_groups (st_topology turn) !! id) ∧ quiet_for OffsetTable (st_mid turn)) turns →
  Exists (λ turn, match ol_attempted_at l !! id with
                  | Some at_ => (ol_slow l ≤ since (sc_due (st_clock turn)) at_)%Z
                  | None => True
                  end) turns →
  Exists (λ wave, id ∈ wv_refreshed wave ++ wv_failed wave) (sweeps fingerprint others l s turns).
Proof.
  revert l s. induction turns as [|turn turns IH]; intros l s Ht Hall Hex; [by apply Exists_nil in Hex|].
  apply Forall_cons in Hall as [[Hid Hq] Hall]. cbn [sweeps].
  destruct (sweep fingerprint l s _ _ _ _) as [[l' s'] wave] eqn:Es. apply Exists_cons.
  destruct (sweep_asks _ _ _ _ _ _ _ _ _ _ id Hq Es Hid) as [Hnow|[Hask Hl]]; [by left|right].
  destruct (sweep_tiers _ _ _ _ _ _ _ _ _ _ Es) as [Hfast Hslow].
  apply IH; rewrite ?Hfast, ?Hslow, ?Hl; [done..|]. apply Exists_cons in Hex as [Hnow|]; [|done].
  exfalso. apply Hask. split; [done|]. unfold threshold.
  destruct (ol_attempted_at l !! id); [|done]. unfold since in *. repeat case_match; lia.
Qed.

(** ** Witnesses *)

Definition sample_group : GroupSnapshot :=
  {| gs_id := "g"; gs_state := Stable; gs_protocol := "range"; gs_members := []; gs_committed := [] |}.

Definition sample_turn (now : Z) : SweepTurn := {|
  st_topology := assemble {| ms_brokers := []; ms_topics := [sample_topic] |} [sample_group];
  st_env := sample_session [sample_topic];
  st_clock := {| sc_hot := now; sc_due := now; sc_attempted := now; sc_commit := now |};
  st_mid s := s;
|}.

Definition sample_sweep (now : Z) (l : OffsetLane) (s : ClusterStore) : OffsetLane * ClusterStore * Wave :=
  sweep (λ _, 0%Z) l s (st_topology (sample_turn now)) (st_env (sample_turn now)) (st_clock (sample_turn now)) (λ s, s).

Lemma sweep_spec_witness :
  ∃ l' s' wave, sample_sweep 5 (offset_lane_new 1 2 20) sample_store = (l', s', wave) ∧
    offsets_for (load s') "g" = Some {| gos_committed := [] |} ∧ ol_attempted_at l' !! "g" = Some 5%Z.
Proof.
  destruct (sample_sweep 5 (offset_lane_new 1 2 20) sample_store) as [[l' s'] wave] eqn:E.
  exists l', s', wave. split; [done|].
  destruct (sweep_spec _ _ _ _ _ _ _ _ _ _ "g" (quiet_id OffsetTable) E) as (_ & _ & _ & Hask & _).
  destruct Hask as [? [? _]]; [split; [by eexists|exact I]|]. by split.
Defined.

(** A group asked for at 5 is not asked for at 6, and is at 25. *)
Example sample_waves :
  (λ wave, (wv_refreshed wave, wv_failed wave)) <$>
    sweeps (λ _, 0%Z) (λ s, s) (offset_lane_new 1 2 20) sample_store [sample_turn 5; sample_turn 6; sample_turn 25] =
  [(["g"], []); ([], []); (["g"], [])].
Proof. vm_compute. reflexivity. Qed.

Lemma no_group_waits_witness :
  Exists (λ wave, "g" ∈ wv_refreshed wave ++ wv_failed wave)
    (sweeps (λ _, 0%Z) (λ s, s) (sample_sweep 5 (offset_lane_new 1 2 20) sample_store).1.1
       (sample_sweep 5 (offset_lane_new 1 2 20) sample_store).1.2 [sample_turn 6; sample_turn 25]).
Proof.
  apply (no_group_waits (λ _, 0%Z) (λ s, s) (sample_sweep 5 (offset_lane_new 1 2 20) sample_store).1.1
    (sample_sweep 5 (offset_lane_new 1 2 20) sample_store).1.2).
  - by vm_compute.
  - repeat (apply Forall_cons; split; [split; [by eexists|apply quiet_id]|]). apply Forall_nil, I.
  - apply Exists_cons. right. apply Exists_cons. left. vm_compute. intros H. discriminate H.
Defined.
