(* ===== verification/SchemaIds.v ===== *)
(** [src/kafka/ingest/schema_ids.rs]: the lane of every schema version's id. An id learnt
    before is asked for again only when its subject may have been recreated. *)

From S2P Require Import Prelude Errors Metadata Tables Bus Lane Interest Store Ingest.

Record SchemaIdLane : Set := { schema_id_interval : Z }.

(** ** The subjects held *)

Definition held_for (previous : option SchemaIdTable) (subject : string) : option (gmap Z Z) :=
  previous ← previous; sit_subjects previous !! subject.

(** [BTreeMap::last_key_value]'s key. *)
Definition last_held (held : gmap Z Z) : option Z := fst <$> last (btree_iter held).

(** The newest version held of each subject whose latest version is not. *)
Definition schema_checks (previous : option SchemaIdTable) (subjects : SubjectTable) : list (string * Z) :=
  omap (λ entry : string * SubjectInfo,
    held ← held_for previous entry.1;
    if bool_decide (is_Some (held !! si_latest_version entry.2)) then None
    else version ← last_held held; Some (entry.1, version))
    (btree_iter (st_subjects subjects)).

(** The subjects whose newest version held has the id it had. *)
Definition confirmed_by (previous : option SchemaIdTable) (found : list (string * RegisteredVersion)) : gset string :=
  list_to_set (omap (λ entry : string * RegisteredVersion,
    if bool_decide ((held ← held_for previous entry.1; held !! rv_version entry.2) = Some (rv_id entry.2))
    then Some entry.1 else None) found).

Definition schema_confirmed (env : IngestSession) (previous : option SchemaIdTable) (subjects : SubjectTable)
    : result KafkaError (gset string) :=
  let checks := schema_checks previous subjects in
  if bool_decide (checks = []) then Ok ∅
  else found ← in_version_ids env 0 checks; Ok (confirmed_by previous found).

(** The ids held of a subject that still stand. *)
Definition trusted (previous : option SchemaIdTable) (confirmed : gset string) (subject : string)
    (info : SubjectInfo) : option (gmap Z Z) :=
  held ← held_for previous subject;
  if match held !! si_latest_version info with
     | Some id => (id =? si_id info)%Z
     | None => bool_decide (subject ∈ confirmed)
     end
  then Some held else None.

Definition known_id (info : SubjectInfo) (held : option (gmap Z Z)) (version : Z) : option Z :=
  if (version =? si_latest_version info)%Z then Some (si_id info) else held ← held; held !! version.

(** One version of a subject: its id, or that it is wanted. *)
Definition learn_version (subject : string) (info : SubjectInfo) (held : option (gmap Z Z))
    (state : gmap Z Z * list (string * Z)) (version : Z) : gmap Z Z * list (string * Z) :=
  match known_id info held version with
  | Some id => (<[version := id]> state.1, state.2)
  | None => (state.1, state.2 ++ [(subject, version)])
  end.

Definition learn_subject (previous : option SchemaIdTable) (confirmed : gset string)
    (state : gmap string (gmap Z Z) * list (string * Z)) (entry : string * SubjectInfo)
    : gmap string (gmap Z Z) * list (string * Z) :=
  let held := trusted previous confirmed entry.1 entry.2 in
  let '(ids, wanted) :=
    foldl (learn_version entry.1 entry.2 held) (default ∅ (state.1 !! entry.1), state.2) (si_versions entry.2) in
  (<[entry.1 := ids]> state.1, wanted).

(** [table.subjects.entry(subject).or_default().insert(version, id)]. *)
Definition add_found (table : gmap string (gmap Z Z)) (entry : string * RegisteredVersion)
    : gmap string (gmap Z Z) :=
  <[entry.1 := <[rv_version entry.2 := rv_id entry.2]> (default ∅ (table !! entry.1))]> table.

Definition schema_ids_fetch (env : IngestSession) (subjects : SubjectTable) (previous : option SchemaIdTable)
    : result KafkaError SchemaIdTable :=
  confirmed ← schema_confirmed env previous subjects;
  let '(table, wanted) :=
    foldl (learn_subject previous confirmed) (∅, []) (btree_iter (st_subjects subjects)) in
  if bool_decide (wanted = []) then Ok {| sit_subjects := table |}
  else found ← in_version_ids env 1 wanted; Ok {| sit_subjects := foldl add_found table found |}.

Definition schema_id_source : LaneSource SchemaIdLane SubjectTable SchemaIdTable SubjectsDelta := {|
  ls_name _ := "schema_ids";
  ls_interval := schema_id_interval;
  ls_fetch src s env subjects previous _ := (src, s, schema_ids_fetch env subjects previous);
  ls_stale _ _ _ := true;
  ls_diff _ previous next _ := subjects_of_ids previous next;
  ls_publish src s _ _ delta _ := (src, publish s (ChSubjects delta));
|}.
#[export] Existing Instance schema_id_source.

(** ** Lemmas *)

#[export] Instance schema_id_laws : LaneSourceLaws SchemaIdLane SubjectTable SchemaIdTable SubjectsDelta.
Proof.
  refine {| ls_changes delta := [ChSubjects delta] |}.
  - by intros src s env u previous now src' s' answer [= <- <- <-].
  - intros src s previous next delta now src' s' [= <- <-]. split; by destruct s.
Defined.

Lemma learn_versions subject info held versions ids wanted ids' wanted' :
  foldl (learn_version subject info held) (ids, wanted) versions = (ids', wanted') →
  wanted' = wanted ++ ((λ v, (subject, v)) <$> List.filter (λ v, negb (bool_decide (is_Some (known_id info held v)))) versions) ∧
  ∀ v, ids' !! v = match known_id info held v with
                   | Some id => if decide (v ∈ versions) then Some id else ids !! v
                   | None => ids !! v
                   end.
Proof.
  revert ids wanted. induction versions as [|v0 versions IH]; intros ids wanted; cbn [foldl].
  { intros [= <- <-]. rewrite app_nil_r. split; [done|]. intros v. by destruct (known_id info held v). }
  intros Hf. unfold learn_version at 2 in Hf. cbn [fst snd] in Hf. cbn [List.filter].
  destruct (known_id info held v0) as [id0|] eqn:E0; destruct (IH _ _ Hf) as [-> Hl]; clear IH Hf; simpl.
  - split; [done|]. intros v. rewrite Hl. destruct (decide (v = v0)) as [->|Hne].
    + rewrite E0, lookup_insert_eq, (decide_True (P := v0 ∈ v0 :: versions)) by (by left). by case_decide.
    + rewrite lookup_insert_ne by done. destruct (known_id info held v); [|done].
      destruct (decide (v ∈ versions)); [by rewrite decide_True by (by right)|].
      by rewrite decide_False by (by rewrite not_elem_of_cons).
  - rewrite <- app_assoc. split; [done|]. intros v. rewrite Hl. destruct (known_id info held v) eqn:E; [|done].
    destruct (decide (v ∈ versions)); [by rewrite decide_True by (by right)|].
    rewrite decide_False; [done|]. rewrite not_elem_of_cons. split; [congruence|done].
Qed.

(** What is known of a subject, and what is wanted. *)
Lemma learn_subjects previous confirmed entries table wanted table' wanted' :
  NoDup entries.*1 → (∀ subject, subject ∈ entries.*1 → table !! subject = None) →
  foldl (learn_subject previous confirmed) (table, wanted) entries = (table', wanted') →
  (∀ subject, subject ∉ entries.*1 → table' !! subject = table !! subject) ∧
  (∀ subject v, (subject, v) ∈ wanted → (subject, v) ∈ wanted') ∧
  (∀ subject v, (subject, v) ∈ wanted' → (subject, v) ∈ wanted ∨
    ∃ info, (subject, info) ∈ entries ∧ v ∈ si_versions info ∧
      known_id info (trusted previous confirmed subject info) v = None) ∧
  ∀ subject info v, (subject, info) ∈ entries →
    (ids ← table' !! subject; ids !! v) =
      (if decide (v ∈ si_versions info) then known_id info (trusted previous confirmed subject info) v else None) ∧
    (v ∈ si_versions info → known_id info (trusted previous confirmed subject info) v = None → (subject, v) ∈ wanted').
Proof.
  revert table wanted. induction entries as [|[subject0 info0] entries IH]; intros table wanted Hnd Hfresh; cbn [foldl].
  { intros [= <- <-]. split_and!; [done|done|by left|]. by intros ? ? ? ?%not_elem_of_nil. }
  csimpl in *. apply NoDup_cons in Hnd as [Hn0 Hnd]. intros Hf.
  unfold learn_subject at 2 in Hf. cbn [fst snd] in Hf.
  destruct (foldl _ (default ∅ (table !! subject0), wanted) _) as [ids1 wanted1] eqn:E1.
  destruct (learn_versions _ _ _ _ _ _ _ _ E1) as [Hw1 Hl1].
  rewrite Hfresh in Hl1 by (by left). simpl in Hl1.
  assert (∀ subject, subject ∈ entries.*1 → <[subject0 := ids1]> table !! subject = None) as Hfresh1.
  { intros subject Hin. rewrite lookup_insert_ne by (by intros ->). apply Hfresh. by right. }
  destruct (IH _ _ Hnd Hfresh1 Hf)
    as (Hother & Hmore & Honly & Hat). clear IH Hf.
  split_and!.
  - intros subject. rewrite not_elem_of_cons. intros [Hne Hnot].
    rewrite Hother by done. by rewrite lookup_insert_ne.
  - intros subject v Hin. apply Hmore. rewrite Hw1, elem_of_app. by left.
  - intros subject v Hin. destruct (Honly _ _ Hin) as [Hin1|(info & ? & ?)]; [|right; exists info; by split; [right|]].
    rewrite Hw1, elem_of_app in Hin1. destruct Hin1 as [Hin1|Hin1]; [by left|right].
    apply list_elem_of_fmap in Hin1 as (v1 & [= -> ->] & Hv). rewrite list_elem_of_In, filter_In in Hv.
    destruct Hv as [Hv%list_elem_of_In Hk%negb_true_iff%bool_decide_eq_false].
    exists info0. split; [by left|]. split; [done|]. by apply eq_None_not_Some.
  - intros subject info v. rewrite elem_of_cons. intros [[= -> ->]|Hin]; [|by apply Hat].
    rewrite Hother by done. rewrite lookup_insert_eq. simpl. rewrite Hl1, lookup_empty. split.
    + destruct (known_id info0 _ v); by case_decide.
    + intros Hv Hk. apply Hmore. rewrite Hw1, elem_of_app. right. apply list_elem_of_fmap. exists v. split; [done|].
      rewrite list_elem_of_In, filter_In. split; [by apply list_elem_of_In|].
      by rewrite Hk.
Qed.

(** A found id is the table's, and one the table had stays unless found again. *)
Lemma add_found_lookup found table subject v :
  match (ids ← foldl add_found table found !! subject; ids !! v) with
  | Some id =>
      (∃ rv, (subject, rv) ∈ found ∧ rv_version rv = v ∧ rv_id rv = id) ∨
      (ids ← table !! subject; ids !! v) = Some id
  | None => (ids ← table !! subject; ids !! v) = None ∧ ∀ rv, (subject, rv) ∈ found → rv_version rv ≠ v
  end.
Proof.
  revert table. induction found as [|[subject0 rv0] found IH]; intros table; cbn [foldl].
  { destruct (ids ← table !! subject; ids !! v); [by right|]. split; [done|]. by intros ? ?%not_elem_of_nil. }
  specialize (IH (add_found table (subject0, rv0))).
  assert ((ids ← add_found table (subject0, rv0) !! subject; ids !! v) =
    if decide (subject = subject0 ∧ v = rv_version rv0) then Some (rv_id rv0) else ids ← table !! subject; ids !! v) as Hl.
  { unfold add_found. cbn [fst snd]. destruct (decide (subject = subject0)) as [->|Hs].
    - rewrite lookup_insert_eq. simpl. destruct (decide (v = rv_version rv0)) as [->|Hv].
      + by rewrite lookup_insert_eq, decide_True.
      + rewrite lookup_insert_ne, decide_False by naive_solver. by destruct (table !! subject0).
    - rewrite lookup_insert_ne by done. rewrite decide_False by naive_solver. done. }
  destruct (ids ← foldl add_found _ found !! subject; ids !! v) as [id|].
  - destruct IH as [(rv & ? & ?)|IH]; [left; exists rv; split; [by right|done]|].
    rewrite Hl in IH. case_decide as E; [|by right]. destruct E as [-> ->]. injection IH as <-.
    left. exists rv0. split; [by left|done].
  - destruct IH as [IH Hnone]. rewrite Hl in IH. case_decide as E; [done|]. split; [done|].
    intros rv [[= -> ->]|Hin]%elem_of_cons; [naive_solver|by apply Hnone].
Qed.

(** *** What is known without asking *)

#[local] Abbreviation held_of previous subject := (table ← previous; sit_subjects table !! subject).

(** The newest version held of a subject. *)
Definition newest_held (held : gmap Z Z) (v : Z) : Prop :=
  is_Some (held !! v) ∧ ∀ w, is_Some (held !! w) → (w ≤ v)%Z.

Lemma last_held_newest held v : last_held held = Some v ↔ newest_held held v.
Proof.
  unfold last_held, newest_held.
  assert (∀ k y, (k, y) ∈ btree_iter held ↔ held !! k = Some y) as Hin by (intros k y; apply elem_of_btree_iter).
  pose proof (btree_iter_sorted held) as Hs.
  destruct (last (btree_iter held)) as [[w x]|] eqn:E.
  - apply last_Some in E as [l E]. rewrite E in Hin, Hs. simpl.
    assert (is_Some (held !! w)) as Hw by (exists x; apply Hin, elem_of_app; right; by left).
    assert (∀ k, is_Some (held !! k) → (k ≤ w)%Z) as Hle.
    { intros k [y Hk]. apply Hin, elem_of_app in Hk as [Hk|Hk%list_elem_of_singleton]; [|by injection Hk as -> _].
      assert (cmp_le (λ a b : Z * Z, key_cmp a.1 b.1) (k, y) (w, x)) as Hc
        by (eapply StronglySorted_app_1_elem_of; [exact Hs|done|by left]).
      unfold cmp_le in Hc. exact Hc. }
    split; [intros [= <-]; done|]. intros [Hv Hmax]. f_equal. specialize (Hle _ Hv). specialize (Hmax _ Hw). lia.
  - apply last_None in E. rewrite E in Hin. split; [done|]. intros [[y Hy] _]. apply Hin in Hy. by apply not_elem_of_nil in Hy.
Qed.

(** What a pass checks: of each subject whose latest version is not held, the newest that is. *)
Definition checks_newest (previous : option SchemaIdTable) (subjects : SubjectTable) (checks : list (string * Z)) : Prop :=
  ∀ subject w, (subject, w) ∈ checks ↔
    ∃ info held, st_subjects subjects !! subject = Some info ∧ held_of previous subject = Some held ∧
      held !! si_latest_version info = None ∧ newest_held held w.

(** The ids held of a subject stand, going by what the checks found: its latest version is held, and
    with the id it is listed with; or it is not, and a version that is held was found with its id. *)
Definition stands (checked : list (string * RegisteredVersion)) (subject : string) (info : SubjectInfo)
    (held : gmap Z Z) : Prop :=
  match held !! si_latest_version info with
  | Some id => id = si_id info
  | None => ∃ rv, (subject, rv) ∈ checked ∧ held !! rv_version rv = Some (rv_id rv)
  end.

(** A version's id without asking for it: the latest one's as the subjects list it, another's as it
    is held, where that stands. *)
Definition known_id_is (previous : option SchemaIdTable) (checked : list (string * RegisteredVersion))
    (subject : string) (info : SubjectInfo) (v id : Z) : Prop :=
  if decide (v = si_latest_version info) then id = si_id info
  else ∃ held, held_of previous subject = Some held ∧ stands checked subject info held ∧ held !! v = Some id.

Lemma schema_checks_newest previous subjects : checks_newest previous subjects (schema_checks previous subjects).
Proof.
  intros subject w. unfold schema_checks. rewrite list_elem_of_omap. split.
  - intros ([subject' info] & Hi%elem_of_btree_iter & Hc). cbn [fst snd] in Hc. unfold held_for in Hc.
    destruct (held_of previous subject') as [held|] eqn:Eh; cbn in Hc; [|done]. case_bool_decide as Hl; [done|].
    destruct (last_held held) as [newest|] eqn:En; cbn in Hc; [|done]. injection Hc as -> ->.
    exists info, held. split_and!; [done|done|by apply eq_None_not_Some|by apply last_held_newest].
  - intros (info & held & Hi & Hh & Hl & Hn). exists (subject, info). split; [by apply elem_of_btree_iter|].
    cbn [fst snd]. unfold held_for. rewrite Hh. cbn. rewrite bool_decide_false by (rewrite Hl; by intros [? ?]).
    apply last_held_newest in Hn. by rewrite Hn.
Qed.

Lemma known_id_spec env previous subjects confirmed :
  schema_confirmed env previous subjects = Ok confirmed →
  ∃ checked, (schema_checks previous subjects = [] ∧ checked = [] ∨
      in_version_ids env 0 (schema_checks previous subjects) = Ok checked) ∧
    ∀ subject info v id, known_id info (trusted previous confirmed subject info) v = Some id ↔
      known_id_is previous checked subject info v id.
Proof.
  intros Hc.
  assert (∃ checked, (schema_checks previous subjects = [] ∧ checked = [] ∨
      in_version_ids env 0 (schema_checks previous subjects) = Ok checked) ∧
    confirmed = confirmed_by previous checked) as (checked & Hchecked & ->).
  { unfold schema_confirmed in Hc. case_bool_decide.
    - injection Hc as <-. exists []. split; [by left|done].
    - destruct (in_version_ids env 0 _) as [found|]; cbn in Hc; [|done]. injection Hc as <-.
      exists found. split; [by right|done]. }
  exists checked. split; [done|]. intros subject info v id. unfold known_id, known_id_is.
  destruct (Z.eqb_spec v (si_latest_version info)) as [->|Hne].
  { rewrite decide_True by done. split; [by intros [= ->]|by intros ->]. }
  rewrite decide_False by done. unfold trusted, held_for. destruct (held_of previous subject) as [held|] eqn:Eh; cbn;
    [|split; [done|by intros (? & ? & _)]].
  assert ((match held !! si_latest_version info with
    | Some id => (id =? si_id info)%Z | None => bool_decide (subject ∈ confirmed_by previous checked) end = true) ↔
    stands checked subject info held) as Hs.
  { unfold stands. destruct (held !! si_latest_version info); [apply Z.eqb_eq|]. rewrite bool_decide_eq_true.
    unfold confirmed_by. rewrite elem_of_list_to_set, list_elem_of_omap. split.
    - intros ([subject' rv] & Hin & Hif). cbn [fst snd] in Hif. case_bool_decide as Hheld; [|done].
      injection Hif as ->. unfold held_for in Hheld. rewrite Eh in Hheld. by exists rv.
    - intros (rv & Hin & Hheld). exists (subject, rv). split; [done|]. cbn [fst snd]. unfold held_for. rewrite Eh. cbn.
      by rewrite bool_decide_true. }
  destruct (match held !! _ with Some _ => _ | None => _ end); cbn.
  - split; [intros Hv; exists held; by rewrite <- Hs|]. by intros (? & [= <-] & _ & ?).
  - split; [done|]. intros (? & [= <-] & Hst & _). by apply Hs in Hst.
Qed.

(** What a fetch answers for a version: what is known of it, or what the registry found. *)
Lemma schema_ids_cases env subjects previous table :
  schema_ids_fetch env subjects previous = Ok table →
  ∃ confirmed asked found, schema_confirmed env previous subjects = Ok confirmed ∧
    (asked = [] ∧ found = [] ∨ in_version_ids env 1 asked = Ok found) ∧
    (∀ subject v, (subject, v) ∈ asked ↔ ∃ info, st_subjects subjects !! subject = Some info ∧ v ∈ si_versions info ∧
      known_id info (trusted previous confirmed subject info) v = None) ∧
    ∀ subject v,
      let known := info ← st_subjects subjects !! subject;
        if decide (v ∈ si_versions info) then known_id info (trusted previous confirmed subject info) v else None in
      match schema_ids_get table subject v with
      | Some id => (∃ rv, (subject, rv) ∈ found ∧ rv_version rv = v ∧ rv_id rv = id) ∨ known = Some id
      | None => known = None ∧ ∀ rv, (subject, rv) ∈ found → rv_version rv ≠ v
      end.
Proof.
  unfold schema_ids_fetch. destruct (schema_confirmed _ _ _) as [confirmed|]; simpl; [|done].
  destruct (foldl _ _ _) as [table1 wanted] eqn:Ef.
  destruct (learn_subjects _ _ _ _ _ _ _ (NoDup_btree_keys _) (λ _ _, lookup_empty _) Ef)
    as (Hother & _ & Honly & Hat). clear Ef.
  assert (∀ subject v, (ids ← table1 !! subject; ids !! v) = info ← st_subjects subjects !! subject;
    if decide (v ∈ si_versions info) then known_id info (trusted previous confirmed subject info) v else None) as Hknown.
  { intros subject v. destruct (st_subjects subjects !! subject) as [info|] eqn:E; simpl.
    - apply (Hat subject info v). by apply elem_of_btree_iter.
    - rewrite Hother; [by rewrite lookup_empty|]. intros ([k i] & -> & Hin%elem_of_btree_iter)%list_elem_of_fmap.
      simpl in E. congruence. }
  intros Hf. exists confirmed, wanted.
  assert (∃ found, (wanted = [] ∧ found = [] ∨ in_version_ids env 1 wanted = Ok found) ∧
    table = {| sit_subjects := foldl add_found table1 found |}) as (found & Hfound & ->).
  { case_bool_decide; [injection Hf as <-; exists []; split; [by left|done]|].
    destruct (in_version_ids env 1 wanted) as [found|]; simpl in Hf; [|done]. injection Hf as <-.
    exists found. by split; [right|]. }
  exists found. split; [done|]. split; [done|]. split.
  { intros subject v. split.
    - intros [Hnil|(info & Hi & ?)]%Honly; [by apply not_elem_of_nil in Hnil|].
      exists info. split; [|done]. by apply elem_of_btree_iter.
    - intros (info & Hi & Hv & Hk). apply (Hat subject info v); [by apply elem_of_btree_iter|done..]. }
  intros subject v. cbn zeta. rewrite <- Hknown.
  pose proof (add_found_lookup found table1 subject v) as Ha. unfold schema_ids_get. cbn [sit_subjects].
  by destruct (ids ← foldl add_found table1 found !! subject; ids !! v) as [id|].
Qed.

(** ** Properties *)

(** The session answers for what it was asked. *)
Definition answers_asked (env : IngestSession) : Prop :=
  ∀ n asked found subject rv, in_version_ids env n asked = Ok found → (subject, rv) ∈ found →
    (subject, rv_version rv) ∈ asked.

(** C18 The lane shows ids of listed versions only. The latest version's is the one it is listed with.
    An earlier one's is kept from the pass before while the subject still looks the same: its latest
    version has the id held of it, or, when that one is new, the newest version held was checked in
    this pass and has its id. Every other version is asked for in this pass, and shows the answer,
    or nothing when there is none. *)
Theorem schema_ids_spec env previous subjects table :
  answers_asked env → schema_ids_fetch env subjects previous = Ok table →
  ∃ checks checked asked found,
    checks_newest previous subjects checks ∧
    (checks = [] ∧ checked = [] ∨ in_version_ids env 0 checks = Ok checked) ∧
    (∀ subject v, (subject, v) ∈ asked ↔ ∃ info, st_subjects subjects !! subject = Some info ∧ v ∈ si_versions info ∧
      ∀ id, ¬ known_id_is previous checked subject info v id) ∧
    (asked = [] ∧ found = [] ∨ in_version_ids env 1 asked = Ok found) ∧
    ∀ subject v,
      match schema_ids_get table subject v with
      | Some id => ∃ info, st_subjects subjects !! subject = Some info ∧ v ∈ si_versions info ∧
          (known_id_is previous checked subject info v id ∨
           (subject, v) ∈ asked ∧ (subject, {| rv_id := id; rv_version := v |}) ∈ found)
      | None => ∀ info, st_subjects subjects !! subject = Some info → v ∈ si_versions info →
          (subject, v) ∈ asked ∧ ∀ id, (subject, {| rv_id := id; rv_version := v |}) ∉ found
      end.
Proof.
  intros Ha (confirmed & asked & found & Hc & Hf & Hasked & Hcase)%schema_ids_cases.
  destruct (known_id_spec _ _ _ _ Hc) as (checked & Hchecked & Hknown).
  assert (∀ subject info v, known_id info (trusted previous confirmed subject info) v = None ↔
    ∀ id, ¬ known_id_is previous checked subject info v id) as Hnone.
  { intros subject info v. rewrite eq_None_not_Some. unfold is_Some. setoid_rewrite Hknown. naive_solver. }
  exists (schema_checks previous subjects), checked, asked, found.
  split; [apply schema_checks_newest|]. split; [done|].
  split; [intros subject v; rewrite Hasked; by setoid_rewrite Hnone|]. split; [done|].
  intros subject v. specialize (Hcase subject v). cbn zeta in Hcase.
  destruct (schema_ids_get table subject v) as [id|].
  - destruct Hcase as [([id' v'] & Hin & <- & <-)|Hk].
    + destruct Hf as [[_ ->]|Hf]; [by apply not_elem_of_nil in Hin|].
      pose proof (Ha _ _ _ _ _ Hf Hin) as Hin'. destruct (proj1 (Hasked _ _) Hin') as (info & ? & ? & _).
      exists info. split_and!; [done..|]. by right.
    + destruct (st_subjects subjects !! subject) as [info|] eqn:Ei; simpl in Hk; [|done].
      case_decide as Hv; [|done]. exists info. split_and!; [done..|]. left. by apply Hknown.
  - destruct Hcase as [Hk Hno]. intros info Hi Hv. rewrite Hi in Hk. simpl in Hk. rewrite decide_True in Hk by done.
    split; [apply Hasked; by exists info|]. intros id Hin. by apply Hno in Hin.
Qed.

(** ** Witnesses *)

Definition sample_registered (subject : string) (v : Z) : option Z :=
  if bool_decide (subject = "orders") then
    if (v =? 1)%Z then Some 10%Z else if (v =? 2)%Z then Some 11%Z else if (v =? 3)%Z then Some 12%Z else None
  else None.

Definition sample_registry : IngestSession := {|
  in_metadata := in_metadata (sample_session []); in_groups := in_groups (sample_session []);
  in_metadata_first := true; in_topic_configs := in_topic_configs (sample_session []);
  in_log_dirs := in_log_dirs (sample_session []); in_acls := in_acls (sample_session []);
  in_quotas := in_quotas (sample_session []); in_scram_users := in_scram_users (sample_session []);
  in_schema_subjects := in_schema_subjects (sample_session []);
  in_version_ids _ asked := Ok (omap (λ entry : string * Z,
    id ← sample_registered entry.1 entry.2; Some (entry.1, {| rv_id := id; rv_version := entry.2 |})) asked);
  in_offsets := in_offsets (sample_session []); in_committed := in_committed (sample_session []);
|}.

Definition sample_subjects : SubjectTable := {| st_subjects := {[ "orders" :=
  {| si_id := 12; si_schema_type := Avro; si_latest_version := 3; si_versions := [1; 2; 3]%Z;
     si_compatibility := NoCompat |} ]} |}.

(** Version 1 was read when it was the latest: it is confirmed and kept, and 2 is read. *)
Definition sample_held : option SchemaIdTable := Some {| sit_subjects := {[ "orders" := {[ 1%Z := 10%Z ]} ]} |}.

Example sample_ids : sit_subjects <$> (match schema_ids_fetch sample_registry sample_subjects sample_held with
    Ok table => Some table | Err _ => None end) =
  Some {[ "orders" := {[ 1%Z := 10%Z; 2%Z := 11%Z; 3%Z := 12%Z ]} ]}.
Proof. vm_compute. reflexivity. Qed.

Lemma sample_answers : answers_asked sample_registry.
Proof.
  intros n asked found subject rv [= <-] Hin.
  apply list_elem_of_omap in Hin as ([subject' v'] & Hin & Hif). cbn [fst snd] in Hif.
  destruct (sample_registered subject' v') as [id|] eqn:E; [|discriminate Hif]. cbn in Hif.
  by injection Hif as <- <-.
Defined.

Lemma schema_ids_spec_witness :
  ∃ table checked, schema_ids_fetch sample_registry sample_subjects sample_held = Ok table ∧
    ∃ info, st_subjects sample_subjects !! "orders" = Some info ∧
      (known_id_is sample_held checked "orders" info 1 10 ∨ ∃ asked found,
         in_version_ids sample_registry 1 asked = Ok found ∧ ("orders", {| rv_id := 10; rv_version := 1 |}) ∈ found).
Proof.
  destruct (schema_ids_fetch sample_registry sample_subjects sample_held) as [table|e] eqn:E;
    [|vm_compute in E; discriminate E].
  destruct (schema_ids_spec _ _ _ _ sample_answers E) as (checks & checked & asked & found & _ & _ & _ & Hf & Hids).
  exists table, checked. split; [done|]. specialize (Hids "orders" 1%Z).
  assert (schema_ids_get table "orders" 1 = Some 10%Z) as Hg
    by (vm_compute in E; injection E as <-; vm_compute; reflexivity).
  rewrite Hg in Hids. destruct Hids as (info & Hi & _ & [Hk|[_ Hin]]); exists info; (split; [done|]); [by left|right].
  exists asked, found. split; [|exact Hin]. destruct Hf as [[_ Hnil]|Hf]; [|exact Hf].
  exfalso. rewrite Hnil in Hin. by apply not_elem_of_nil in Hin.
Defined.

(** A subject deleted for good and registered again with its first two schemas the other way round,
    and the third as before: the registry holds 11 and 10 now, but the ids held stand. *)
Definition reordered_registry (n : nat) (asked : list (string * Z)) : result KafkaError (list (string * RegisteredVersion)) :=
  Ok ((λ entry : string * Z, (entry.1, {| rv_id := if (entry.2 =? 1)%Z then 11 else 10; rv_version := entry.2 |})) <$> asked).

Example reordered_recreation_kept :
  let env := {|
    in_metadata := in_metadata sample_registry; in_groups := in_groups sample_registry;
    in_metadata_first := true; in_topic_configs := in_topic_configs sample_registry;
    in_log_dirs := in_log_dirs sample_registry; in_acls := in_acls sample_registry;
    in_quotas := in_quotas sample_registry; in_scram_users := in_scram_users sample_registry;
    in_schema_subjects := in_schema_subjects sample_registry; in_version_ids := reordered_registry;
    in_offsets := in_offsets sample_registry; in_committed := in_committed sample_registry |} in
  let held := Some {| sit_subjects := {[ "orders" := {[ 1%Z := 10%Z; 2%Z := 11%Z; 3%Z := 12%Z ]} ]} |} in
  (λ table, schema_ids_get table "orders" 1) <$> result_ok (schema_ids_fetch env sample_subjects held) = Some (Some 10%Z).
Proof. vm_compute. reflexivity. Qed.
