(* ===== verification/Tail.v ===== *)
(** [src/kafka/scan/tail.rs], with [TailLimits] of [src/kafka/limits.rs]: the live tail of
    a topic. What the consumer and the clock do is an environment the operations run
    against, a turn of it per turn of the loop. *)

From S2P Require Import Prelude Text Errors Metadata Cursor Plan Batch Payload Filter Query.
From S2P Require Import Obfuscate Pipeline Session Paging Reset Read.

(** ** Positions, limits and batches *)

Record TailPosition : Set := { tp_partition : Z; tp_offset : Z }.

Record TailLimits : Set := {
  tl_batch : Z;
  tl_interval : Z;
  tl_poll_wait : Z;
  tl_heartbeat : Z;
  tl_records : RecordLimits;
}.

(** [window_take(..) as u64]. *)
Definition limits_backlog (limits : TailLimits) (searching : bool) : Z :=
  (window_take (tl_records limits) (tl_batch limits) searching mod usize_modulus)%Z.

(** The calls a tail makes on its consumer and its timer, in order. *)
Inductive TailCall : Type :=
  | TPoll
  | TSeek (positions : list TailPosition)
  | TSleepUntil (instant : Z).

Section tail.
Context `{!PayloadLib, !RedactLib, !FilterLib, !TimestampLib}.

Record TailQuery : Type := {
  tq_topic : string;
  tq_partitions : list Z;
  tq_filter : option CompiledFilter;
  tq_schema_id : option Z;
}.

Definition tail_searching (q : TailQuery) : bool := bool_decide (is_Some (tq_filter q)).

Record TailBatch : Type := { tb_records : list Record_; tb_skipped : Z }.

Definition TailBatch_default : TailBatch := {| tb_records := []; tb_skipped := 0 |}.

Definition tail_batch_is_empty (b : TailBatch) : bool :=
  bool_decide (tb_records b = []) && (tb_skipped b =? 0)%Z.

Record Tail : Type := {
  tl_pipeline : RecordPipeline;
  tl_topic : string;
  tl_start : list TailPosition;
  tl_backlog : Z;
  tl_limits : TailLimits;
  tl_flushed : option Z;
}.

(** ** Opening *)

(** The end of each partition, in partition order. *)
Definition tail_start (found : gmap string (gmap Z Z)) (topic : string) : list TailPosition :=
  (λ entry : Z * Z, {| tp_partition := entry.1; tp_offset := entry.2 |}) <$>
    btree_iter (default ∅ (found !! topic)).

Definition tail_open (env : ReadEnv) (fetch_env : FetchEnv) (query : TailQuery) (limits : TailLimits)
    : result KafkaError Tail :=
  partitions ← (resolve_partitions env (tq_topic query) (tq_partitions query)).1;
  highs ← os_high_watermarks (re_offsets env) {[ tq_topic query := partitions ]};
  let start := tail_start (found highs) (tq_topic query) in
  match fe_open fetch_env with
  | None => Err Timeout_
  | Some (Err error) => Err error
  | Some (Ok _) =>
      Ok {| tl_pipeline :=
              {| pl_codec := fe_codec fetch_env; pl_filter := tq_filter query;
                 pl_obfuscator := topic_obfuscator fetch_env (tq_topic query);
                 pl_fallback_schema_id := tq_schema_id query |};
            tl_topic := tq_topic query; tl_start := start;
            tl_backlog := limits_backlog limits (tail_searching query);
            tl_limits := limits; tl_flushed := None |}
  end.

Definition tail_obfuscated (t : Tail) : bool := obfuscated (tl_pipeline t).

(** ** One batch *)

(** One turn of the loop: the clock at its check and at its poll, the poll's answer, then
    the lags, positions and answer to a seek that follow it. *)
Record TailTurn : Type := {
  tt_now : Z;
  tt_polled_at : Z;
  tt_polled : result KafkaError (list RawRecord);
  tt_lags : gmap Z Z;
  tt_position : Z → option Z;
  tt_seek : result KafkaError ();
}.

(** A partition's jump, when it has fallen behind by more than the backlog. *)
Definition jump_of (t : Tail) (turn : TailTurn) (partition : Z) : option (Z * TailPosition) :=
  match tt_lags turn !! partition with
  | None => None
  | Some lag =>
      if (lag <=? tl_backlog t)%Z then None
      else
        match tt_position turn partition with
        | None => None
        | Some position =>
            let jump := usize_sub lag (tl_backlog t) in
            Some (jump, {| tp_partition := partition;
                           tp_offset := i64_saturating_add position (usize_as_i64 jump) |})
        end
  end.

Definition jumps (t : Tail) (turn : TailTurn) : list (Z * TailPosition) :=
  omap (λ start, jump_of t turn (tp_partition start)) (tl_start t).

Definition sum_u64 (l : list Z) : Z := foldl usize_add 0%Z l.

Definition skip_ahead (t : Tail) (turn : TailTurn) : result KafkaError Z * list TailCall :=
  let seeks := (jumps t turn).*2 in
  let skipped := sum_u64 (jumps t turn).*1 in
  if bool_decide (seeks = []) then (Ok skipped, [])
  else (_ ← tt_seek turn; Ok skipped, [TSeek seeks]).

Definition ranked (polled : list RawRecord) : list (SortKey * RawRecord) :=
  (λ raw, (raw_sort_key raw, raw)) <$> polled.

Definition tail_ingest (t : Tail) (polled : list RawRecord) (batch : RecordBatch Kept) : RecordBatch Kept * Z :=
  admit_records (tl_pipeline t) batch (ranked polled).

(** The loop of [next]: the batch it ends with, the records skipped, and whether it ended
    because nothing came until [quiet_until]. The environment's last turn is the
    deadline's. *)
Fixpoint next_polls (t : Tail) (quiet_until : Z) (batch : RecordBatch Kept) (skipped : Z) (turns : list TailTurn)
    : RecordBatch Kept * result KafkaError (bool * Z) * list TailCall :=
  if negb (batch_is_empty batch) then (batch, Ok (false, skipped), [])
  else
    match turns with
    | [] => (batch, Ok (true, skipped), [])
    | turn :: turns =>
        if (quiet_until <=? tt_now turn)%Z then (batch, Ok (true, skipped), [])
        else
          match tt_polled turn with
          | Err error => (batch, Err error, [TPoll])
          | Ok polled =>
              let sleep :=
                if bool_decide (polled = []) then [TSleepUntil (tt_polled_at turn + tl_poll_wait (tl_limits t))]
                else [] in
              let '(batch, rejected) := tail_ingest t polled batch in
              let skipped := usize_add skipped rejected in
              match skip_ahead t turn with
              | (Err error, seek) => (batch, Err error, TPoll :: sleep ++ seek)
              | (Ok ahead, seek) =>
                  let '(batch, r, calls) := next_polls t quiet_until batch (usize_add skipped ahead) turns in
                  (batch, r, TPoll :: sleep ++ seek ++ calls)
              end
          end
    end.

(** The page a batch becomes, oldest first. *)
Definition tail_page (batch : RecordBatch Kept) : list Kept :=
  sort_by (λ a b, cmp_for_order (raw_sort_key (kept_raw a)) (raw_sort_key (kept_raw b)) Oldest)
    (into_sorted batch).

(** [next], called at [called]; [flushed] is the clock after its last sleep. *)
Definition tail_next (t : Tail) (called flushed : Z) (turns : list TailTurn)
    : Tail * result KafkaError TailBatch * list TailCall :=
  let quiet_until := (called + tl_heartbeat (tl_limits t))%Z in
  let ready_at := match tl_flushed t with Some last => (last + tl_interval (tl_limits t))%Z | None => called end in
  let batch := batch_new (tl_batch (tl_limits t)) Newest Forward in
  match next_polls t quiet_until batch 0 turns with
  | (_, Err error, calls) => (t, Err error, calls)
  | (_, Ok (true, skipped), calls) => (t, Ok {| tb_records := []; tb_skipped := skipped |}, calls)
  | (batch, Ok (false, skipped), calls) =>
      ({| tl_pipeline := tl_pipeline t; tl_topic := tl_topic t; tl_start := tl_start t;
          tl_backlog := tl_backlog t; tl_limits := tl_limits t; tl_flushed := Some flushed |},
       Ok {| tb_records := render_page (tl_pipeline t) (tail_page batch) (tl_topic t);
             tb_skipped := usize_add skipped (displaced batch) |},
       calls ++ [TSleepUntil ready_at])
  end.
End tail.

(** ** Counting *)

Section counting.
Context `{!PayloadLib, !RedactLib, !FilterLib} (pl : RecordPipeline).
Implicit Types (b : RecordBatch Kept) (records : list (SortKey * RawRecord)).

Lemma push_all_app b items items' : push_all b (items ++ items') = push_all (push_all b items) items'.
Proof. apply foldl_app. Qed.

(** Each screened record is pushed, left to decode, turned away or filtered out. *)
Lemma screen_count b records b' candidates rejected :
  (len records ≤ usize_max)%Z → screen pl b records = (b', candidates, rejected) →
  ∃ items pushed left turned dropped, records ≡ₚ pushed ++ left ++ turned ++ dropped ∧
    b' = push_all b items ∧ length items = length pushed ∧ rejected = len turned ∧
    Forall2 (λ c r, screen_record pl r.2 = (c.2, Some ScreenNeedsPayload)) candidates left ∧
    Forall (λ r, filtered_out pl r.2) dropped.
Proof.
  revert b b' candidates rejected. induction records as [|[sort raw] records IH]; intros b b' candidates rejected Hlen.
  { intros [= <- <- <-]. by exists [], [], [], [], []. }
  rewrite len_cons in Hlen. cbn [screen].
  destruct (admits b sort); cbn [negb].
  - destruct (screen_record pl raw) as [masked [[|]|]] eqn:Es.
    + intros (items & pushed & left & turned & dropped & Hp & -> & Hi & -> & Hl & Hd)%IH; [|lia].
      exists ((sort, Pending masked) :: items), ((sort, raw) :: pushed), left, turned, dropped.
      split_and!; [by rewrite Hp|done|simpl; lia|done..].
    + destruct (screen pl b records) as [[b1 c1] r1] eqn:E. intros [= <- <- <-].
      destruct (IH _ _ _ _ ltac:(lia) E) as (items & pushed & left & turned & dropped & Hp & -> & Hi & -> & Hl & Hd).
      exists items, pushed, ((sort, raw) :: left), turned, dropped. split_and!; [|done..|by constructor|done].
      rewrite Hp. cbn [app]. by rewrite Permutation_middle.
    + intros (items & pushed & left & turned & dropped & Hp & -> & Hi & -> & Hl & Hd)%IH; [|lia].
      exists items, pushed, left, turned, ((sort, raw) :: dropped). split_and!; [|done..|].
      * rewrite Hp, !app_assoc. by rewrite Permutation_middle.
      * constructor; [|done]. unfold filtered_out. simpl. rewrite Es. by left.
  - destruct (screen pl b records) as [[b1 c1] r1] eqn:E. intros [= <- <- <-].
    destruct (IH _ _ _ _ ltac:(lia) E) as (items & pushed & left & turned & dropped & Hp & -> & Hi & -> & Hl & Hd).
    exists items, pushed, left, ((sort, raw) :: turned), dropped. split_and!; [|done..| |done|done].
    + rewrite Hp. cbn [app]. rewrite !Permutation_middle. done.
    + assert (len turned ≤ len records)%Z.
      { unfold len. rewrite Hp, !length_app. lia. }
      pose proof (len_nonneg turned). unfold usize_add. rewrite len_cons, Z.mod_small; unfold_ints; unfold usize_modulus; lia.
Qed.

(** A decoded candidate is pushed or filtered out. *)
Lemma decode_count candidates left :
  Forall2 (λ c r : SortKey * RawRecord, screen_record pl r.2 = (c.2, Some ScreenNeedsPayload)) candidates left →
  ∃ pushed dropped, left ≡ₚ pushed ++ dropped ∧ length (decode_and_filter pl candidates) = length pushed ∧
    Forall (λ r, filtered_out pl r.2) dropped.
Proof.
  intros Hl. destruct (decode_and_filter_spec pl candidates) as (results & -> & Hres). revert results Hres.
  induction Hl as [|c r candidates left Hs Hl IH]; intros results Hres; inversion Hres as [|? o ? results' Ho Hres']; subst.
  { by exists [], []. }
  destruct (IH _ Hres') as (pushed & dropped & Hp & Hlen & Hd). destruct o as [[sort k]|].
  - exists (r :: pushed), dropped. split_and!; [by rewrite Hp| |done]. cbn. f_equal. exact Hlen.
  - exists pushed, (r :: dropped). split_and!; [by rewrite Hp, Permutation_middle|exact Hlen|].
    constructor; [|done]. unfold filtered_out. rewrite Hs. right. split; [done|].
    destruct Ho as (f & key & value & ? & ? & ?). by exists f, key, value.
Qed.

Lemma admit_count b records b' rejected :
  (len records ≤ usize_max)%Z → admit_records pl b records = (b', rejected) →
  ∃ items kept turned dropped, records ≡ₚ kept ++ turned ++ dropped ∧
    b' = push_all b items ∧ length items = length kept ∧ rejected = len turned ∧
    Forall (λ r, filtered_out pl r.2) dropped.
Proof.
  intros Hlen. unfold admit_records. destruct records as [|r records].
  { intros [= <- <-]. by exists [], [], [], []. }
  cbn [batch_take]. destruct (screen pl b (r :: records)) as [[b1 candidates] rejected1] eqn:E. intros [= <- <-].
  destruct (screen_count _ _ _ _ _ Hlen E) as (items & pushed & left & turned & dropped & Hp & -> & Hi & -> & Hl & Hd).
  destruct (decode_count _ _ Hl) as (pushed' & dropped' & Hp' & Hlen' & Hd').
  exists (items ++ decode_and_filter pl candidates), (pushed ++ pushed'), turned, (dropped' ++ dropped). split_and!.
  - rewrite Hp, Hp', <- !app_assoc. apply Permutation_app_head, Permutation_app_head.
    rewrite !app_assoc. by apply Permutation_app_tail, Permutation_app_comm.
  - by rewrite push_all_app.
  - rewrite !length_app. lia.
  - done.
  - by apply Forall_app.
Qed.
End counting.

(** ** The loop *)

Section loop.
Context `{!PayloadLib, !RedactLib, !FilterLib, !TimestampLib}.

Definition polled_of (turn : TailTurn) : list RawRecord :=
  match tt_polled turn with Ok polled => polled | Err _ => [] end.

Definition read_in (turns : list TailTurn) : list RawRecord := concat (polled_of <$> turns).

(** What the jumps of a turn skip. *)
Definition total (l : list Z) : Z := foldr Z.add 0%Z l.
Definition jumped (t : Tail) (turns : list TailTurn) : Z := total ((λ turn, total (jumps t turn).*1) <$> turns).

Lemma read_in_cons turn turns : read_in (turn :: turns) = polled_of turn ++ read_in turns.
Proof. done. Qed.
Lemma jumped_cons t turn turns : jumped t (turn :: turns) = (total (jumps t turn).*1 + jumped t turns)%Z.
Proof. done. Qed.

Lemma jumps_nonneg t turn : Forall (λ jump, 0 ≤ jump)%Z (jumps t turn).*1.
Proof.
  apply Forall_fmap, Forall_forall. intros [jump p] Hin.
  apply list_elem_of_omap in Hin as (start & _ & Hj). unfold jump_of in Hj.
  destruct (tt_lags turn !! _) as [lag|]; [|done]. destruct (_ <=? _)%Z; [done|].
  destruct (tt_position _ _); [|done]. injection Hj as <- <-. simpl. by apply Z.mod_pos_bound.
Qed.

Lemma total_nonneg l : Forall (λ z, 0 ≤ z)%Z l → (0 ≤ total l)%Z.
Proof. induction 1; simpl; lia. Qed.

Lemma jumped_nonneg t turns : (0 ≤ jumped t turns)%Z.
Proof.
  apply total_nonneg, Forall_fmap, Forall_forall. intros turn _. simpl. apply total_nonneg, jumps_nonneg.
Qed.

Lemma foldl_usize_add l a : (0 ≤ a)%Z → Forall (λ z, 0 ≤ z)%Z l → (a + total l ≤ usize_max)%Z →
  foldl usize_add a l = (a + total l)%Z.
Proof.
  intros Ha Hl. revert a Ha. induction Hl as [|z l Hz Hl IH]; intros a Ha; cbn [foldl total foldr]; [lia|].
  fold (total l). pose proof (total_nonneg l Hl). intros Hmax.
  assert (usize_add a z = (a + z)%Z) as -> by (apply usize_add_id; unfold_ints; lia). rewrite IH; lia.
Qed.

Lemma sum_u64_total l : Forall (λ z, 0 ≤ z)%Z l → (total l ≤ usize_max)%Z → sum_u64 l = total l.
Proof. intros. apply foldl_usize_add; [lia|done|lia]. Qed.

Lemma ranked_snd polled : (ranked polled).*2 = polled.
Proof. unfold ranked. rewrite <- list_fmap_compose. apply list_fmap_id. Qed.

Lemma elem_of_ranked sort raw polled : (sort, raw) ∈ ranked polled ↔ sort = raw_sort_key raw ∧ raw ∈ polled.
Proof. unfold ranked. rewrite list_elem_of_fmap. naive_solver. Qed.

Lemma skip_ahead_ok t turn ahead calls :
  skip_ahead t turn = (Ok ahead, calls) → ahead = sum_u64 (jumps t turn).*1.
Proof.
  unfold skip_ahead. case_bool_decide; [by intros [= <- <-]|]. destruct (tt_seek turn); simpl; [|done].
  by intros [= <- <-].
Qed.

Lemma len_fmap {A B} (f : A → B) (l : list A) : len (f <$> l) = len l.
Proof. unfold len. by rewrite length_fmap. Qed.

Lemma perm_mix {A} (a b c d e : list A) : (a ++ b) ++ c ++ d ++ e ≡ₚ c ++ (a ++ d) ++ b ++ e.
Proof.
  rewrite <- !app_assoc, (Permutation_app_swap_app b c), (Permutation_app_swap_app a c).
  do 2 apply Permutation_app_head. apply Permutation_app_swap_app.
Qed.

(** An empty batch fed items keeps some of them. *)
Lemma fed_batch limit (items : list (SortKey * Kept)) :
  (0 < limit)%Z → (len items ≤ usize_max)%Z →
  let b := push_all (batch_new limit Newest Forward) items in
  len (rb_entries b) = Z.min limit (len items) ∧ rb_seen b = len items.
Proof.
  intros Hl Hi b.
  destruct (push_all_holds (batch_new (T := Kept) limit Newest Forward) [] items) as [[He Hs] (El & Eo & Ed)];
    [simpl; lia|by rewrite len_nil|apply holds_new|].
  simpl in *. fold b in He, Hs, El, Eo, Ed. rewrite He, El. split.
  - unfold len. rewrite length_best. lia.
  - destruct Hs; [lia|done].
Qed.

(** A batch the polls fed: what it holds of what was read. *)
Definition fed (t : Tail) (b : RecordBatch Kept) (read : list RawRecord) : Prop :=
  wf_batch b ∧ same_settings (batch_new (tl_batch (tl_limits t)) Newest Forward) b ∧
  (∀ e, e ∈ rb_entries b → came_from (tl_pipeline t) (ranked read) (e_key e) (e_value e)) ∧
  ∀ raw, raw ∈ read → accounted b (raw_sort_key raw) ∨ filtered_out (tl_pipeline t) raw.

Lemma new_accounts_none limit key : (0 < limit)%Z → ¬ accounted (batch_new (T := Kept) limit Newest Forward) key.
Proof.
  intros Hl [(e & He & _)|[Hf _]]; [by apply not_elem_of_nil in He|]. apply Z.leb_le in Hf. simpl in Hf. rewrite len_nil in Hf. lia.
Qed.

Lemma next_polls_spec t quiet_until skipped turns b' quiet skipped' calls :
  let b0 := batch_new (tl_batch (tl_limits t)) Newest Forward in
  (0 < tl_batch (tl_limits t))%Z → (0 ≤ skipped)%Z →
  (skipped + len (read_in turns) + jumped t turns ≤ usize_max)%Z →
  next_polls t quiet_until b0 skipped turns = (b', Ok (quiet, skipped'), calls) →
  ∃ n items kept turned dropped,
    read_in (take n turns) ≡ₚ kept ++ turned ++ dropped ∧ Forall (filtered_out (tl_pipeline t)) dropped ∧
    b' = push_all b0 items ∧ length items = length kept ∧ quiet = bool_decide (items = []) ∧
    skipped' = (skipped + len turned + jumped t (take n turns))%Z ∧ fed t b' (read_in (take n turns)).
Proof.
  intros b0 Hpos. assert (wf_batch b0) as Hwf0 by (apply wf_batch_new; lia).
  assert (batch_is_empty b0 = true) as Hempty by done.
  revert skipped calls. induction turns as [|turn turns IH]; intros skipped calls Hsk Hmax; cbn [next_polls]; rewrite Hempty; cbn [negb].
  { intros [= <- <- <- <-]. exists 0%nat, [], [], [], []. split_and!; try done; [rewrite len_nil; cbn; lia|].
    split_and!; [done..| |]; by intros ? ?%not_elem_of_nil. }
  destruct (quiet_until <=? tt_now turn)%Z.
  { intros [= <- <- <- <-]. exists 0%nat, [], [], [], []. split_and!; try done; [rewrite len_nil; cbn; lia|].
    split_and!; [done..| |]; by intros ? ?%not_elem_of_nil. }
  destruct (tt_polled turn) as [polled|error] eqn:Ep; [|done].
  assert (polled_of turn = polled) as Hpolled by by unfold polled_of; rewrite Ep.
  rewrite read_in_cons, jumped_cons, Hpolled, len_app in Hmax.
  pose proof (jumped_nonneg t turns) as Hj. pose proof (total_nonneg _ (jumps_nonneg t turn)) as Hjt.
  pose proof (len_nonneg (read_in turns)). pose proof (len_nonneg polled).
  assert (len (ranked polled) = len polled) as Hlr by by apply len_fmap.
  destruct (tail_ingest t polled b0) as [b1 rejected] eqn:Ei. unfold tail_ingest in Ei.
  assert (len (ranked polled) ≤ usize_max)%Z as Hfits by lia.
  destruct (admit_count _ _ _ _ _ Hfits Ei)
    as (items & kept & turned & dropped & Hp & Hb1 & Hlen & -> & Hdrop).
  destruct (admit_spec (tl_pipeline t) b0 (ranked polled) Hwf0 Hpos) as [(Hwf & Hset & _ & Hent) Hacc].
  rewrite Ei in Hwf, Hset, Hent, Hacc. cbn [fst] in Hwf, Hset, Hent, Hacc.
  assert (fed t b1 polled) as Hfed.
  { split_and!; [done|done| |].
    - intros e He. by apply Hent in He as [He|He]; [apply not_elem_of_nil in He|].
    - intros raw Hin. apply (Hacc (raw_sort_key raw) raw). by apply elem_of_ranked. }
  assert (len kept + len turned + len dropped = len polled)%Z as Hsum.
  { rewrite <- Hlr. unfold len. rewrite Hp, !length_app. lia. }
  assert (polled ≡ₚ kept.*2 ++ turned.*2 ++ dropped.*2) as Hp2.
  { rewrite <- !fmap_app, <- Hp. by rewrite ranked_snd. }
  pose proof (len_nonneg kept). pose proof (len_nonneg turned). pose proof (len_nonneg dropped).
  destruct (skip_ahead t turn) as [[ahead|error] seek] eqn:Es; [|done].
  apply skip_ahead_ok in Es. rewrite sum_u64_total in Es by (apply jumps_nonneg || lia). subst ahead.
  assert (usize_add (usize_add skipped (len turned)) (total (jumps t turn).*1) =
    skipped + len turned + total (jumps t turn).*1)%Z as Hskip.
  { rewrite !usize_add_id; [done|..]; rewrite ?usize_add_id; unfold_ints; lia. }
  rewrite Hskip. destruct (decide (items = [])) as [->|Hitems].
  - simpl in Hb1. subst b1. symmetry in Hlen. apply nil_length_inv in Hlen as ->.
    destruct (next_polls t quiet_until b0 _ turns) as [[b2 r2] calls2] eqn:En. intros [= <- -> _].
    assert (0 ≤ skipped + len turned + total (jumps t turn).*1)%Z as Hs0 by lia.
    assert (skipped + len turned + total (jumps t turn).*1 + len (read_in turns) + jumped t turns ≤ usize_max)%Z as Hs1 by lia.
    destruct (IH _ _ Hs0 Hs1 En) as (n & items & kept' & turned' & dropped' & Hp' & Hd' & -> & Hl' & -> & -> & Hf').
    exists (S n), items, kept', (turned.*2 ++ turned'), (dropped.*2 ++ dropped').
    cbn [take]. rewrite read_in_cons, jumped_cons, Hpolled. split_and!; try done.
    + rewrite Hp', Hp2. generalize (turned.*2), (dropped.*2). intros a d. apply (perm_mix a d).
    + apply Forall_app. by rewrite Forall_fmap.
    + rewrite len_app, len_fmap. lia.
    + destruct Hf' as (Hwf' & Hset' & Hent' & Hacc'). split_and!; try done.
      * intros e He. destruct (Hent' e He) as (raw & Hin & Hk). exists raw. split; [|done].
        unfold ranked. rewrite fmap_app. apply elem_of_app. by right.
      * intros raw [Hin|Hin]%elem_of_app; [|by apply Hacc'].
        destruct Hfed as (_ & _ & _ & Hacc0). right.
        destruct (Hacc0 raw Hin) as [Ha|]; [by apply new_accounts_none in Ha|done].
  - assert (batch_is_empty b1 = false) as Hne.
    { destruct (fed_batch (tl_batch (tl_limits t)) items Hpos) as [Hlen1 _]; [unfold len in *; lia|].
      fold b0 in Hlen1. rewrite <- Hb1 in Hlen1. apply bool_decide_eq_false. intros Hz. rewrite Hz in Hlen1.
      destruct items; [done|]. rewrite len_cons in Hlen1. pose proof (len_nonneg items). lia. }
    destruct turns; cbn [next_polls]; rewrite Hne; intros [= <- <- <- _];
      exists 1%nat, items, kept.*2, turned.*2, dropped.*2; cbn [take];
      rewrite read_in_cons, jumped_cons, Hpolled, app_nil_r; (split_and!;
        [done|by rewrite Forall_fmap|done|by rewrite length_fmap|by rewrite bool_decide_false| |done]);
      rewrite len_fmap; cbn; lia.
Qed.

Lemma read_in_take n turns : (len (read_in (take n turns)) ≤ len (read_in turns))%Z.
Proof.
  unfold read_in. rewrite <- (take_drop n turns) at 2. rewrite fmap_app, concat_app, len_app.
  pose proof (len_nonneg (concat (polled_of <$> drop n turns))). lia.
Qed.

Lemma total_app l k : total (l ++ k) = (total l + total k)%Z.
Proof. unfold total. induction l as [|z l IH]; cbn [foldr app]; lia. Qed.

Lemma jumped_take t n turns : (jumped t (take n turns) ≤ jumped t turns)%Z.
Proof.
  rewrite <- (take_drop n turns) at 2. unfold jumped. rewrite fmap_app, total_app.
  pose proof (jumped_nonneg t (drop n turns)). unfold jumped in *. lia.
Qed.

Lemma kept_from_key pl raw k : kept_from pl raw k → raw_sort_key (kept_raw k) = raw_sort_key raw.
Proof.
  assert (raw_sort_key (screen_record pl raw).1 = raw_sort_key raw) as Hs.
  { unfold screen_record. repeat case_match; done. }
  unfold kept_from. destruct (screen_record pl raw) as [masked verdict]. rewrite <- Hs.
  intros [[_ ->]|[_ Hd]]; [done|]. destruct k as [|r]; [done|]. destruct Hd as [Hd _]. simpl. by rewrite Hd.
Qed.

(** The records of a page, by the polled record each shows. *)
Lemma fed_page t b read :
  fed t b read →
  ∃ raws, Forall2 (shows (tl_pipeline t)) raws (render_page (tl_pipeline t) (tail_page b) (tl_topic t)) ∧
    Forall (λ raw, raw ∈ read) raws ∧
    StronglySorted (cmp_le (λ x y, cmp_for_order (raw_sort_key x) (raw_sort_key y) Oldest)) raws ∧
    ∀ key, key ∈ raw_sort_key <$> raws ↔ key ∈ e_key <$> rb_entries b.
Proof.
  intros (Hwf & Hset & Hent & Hacc).
  assert (∀ k, k ∈ tail_page b → ∃ raw, raw ∈ read ∧ kept_from (tl_pipeline t) raw k) as Hfrom.
  { intros k. unfold tail_page. rewrite elem_of_sort_by. intros (e & -> & He)%list_elem_of_fmap.
    destruct (Hent e He) as (raw & [_ Hin]%elem_of_ranked & Hk). by exists raw. }
  assert (∃ raws, Forall2 (λ raw k, raw ∈ read ∧ kept_from (tl_pipeline t) raw k) raws (tail_page b)) as [raws Hraws].
  { revert Hfrom. generalize (tail_page b). intros page. induction page as [|k page IH]; intros Hfrom; [by exists []|].
    destruct (Hfrom k ltac:(by left)) as (raw & Hraw). destruct IH as [raws Hraws]; [intros k' ?; apply Hfrom; by right|].
    exists (raw :: raws). by constructor. }
  assert (raw_sort_key <$> raws = (raw_sort_key ∘ kept_raw) <$> tail_page b) as Hkeys.
  { clear -Hraws. induction Hraws as [|raw k raws page [_ Hk] _ IH]; [done|]. csimpl. rewrite IH. f_equal.
    symmetry. by eapply kept_from_key. }
  exists raws. split; [|split; [|split]].
  - pose proof (render_page_spec (tl_pipeline t) (tl_topic t) (tail_page b)) as Hr. revert Hr.
    generalize (render_page (tl_pipeline t) (tail_page b) (tl_topic t)). revert Hraws. generalize (tail_page b).
    clear. intros page Hraws. induction Hraws as [|raw k raws page [_ Hk] _ IH]; intros recs Hr; inversion Hr; subst; [constructor|].
    constructor; [by eapply rendered_shows|by apply IH].
  - clear -Hraws. induction Hraws as [|raw k raws page [Hin _] _ IH]; by constructor.
  - assert (StronglySorted (cmp_le (λ x y : SortKey, cmp_for_order x y Oldest)) (raw_sort_key <$> raws)) as Hs.
    { rewrite Hkeys. unfold tail_page.
      apply StronglySorted_fmap with (R1 := cmp_le (λ a b, cmp_for_order (raw_sort_key (kept_raw a))
        (raw_sort_key (kept_raw b)) Oldest)); [done|].
      apply sort_by_sorted, (cmp_on_order (λ k, raw_sort_key (kept_raw k)) (λ x y, cmp_for_order x y Oldest)), _. }
    clear -Hs. induction raws as [|raw raws IH]; [constructor|]. csimpl in Hs.
    apply StronglySorted_inv in Hs as [Hs Hf]. constructor; [by apply IH|]. by rewrite Forall_fmap in Hf.
  - intros key. rewrite Hkeys. unfold tail_page. rewrite !list_elem_of_fmap. split.
    + intros (k & -> & Hk). rewrite elem_of_sort_by in Hk. apply list_elem_of_fmap in Hk as (e & -> & He).
      destruct (Hent e He) as (raw & [He' _]%elem_of_ranked & Hk). exists e. split; [|done].
      rewrite He'. symmetry. apply (kept_from_key _ _ _ Hk) || (simpl; by rewrite (kept_from_key _ _ _ Hk)).
    + intros (e & -> & He). exists (e_value e). split.
      * destruct (Hent e He) as (raw & [He' _]%elem_of_ranked & Hk). rewrite He'. simpl.
        symmetry. by eapply kept_from_key.
      * rewrite elem_of_sort_by. apply list_elem_of_fmap. by exists e.
Qed.
End loop.

(** ** Properties *)

Section properties.
Context `{!PayloadLib, !RedactLib, !FilterLib, !TimestampLib}.

Lemma length_tail_records t b :
  len (render_page (tl_pipeline t) (tail_page b) (tl_topic t)) = len (rb_entries b).
Proof.
  unfold len. rewrite <- (Forall2_length _ _ _ (render_page_spec (tl_pipeline t) (tl_topic t) (tail_page b))).
  unfold tail_page, into_sorted. by rewrite length_sort_by, length_fmap.
Qed.

(** C17 A live batch accounts for every record read: those it shows and those it says it
    skipped are the ones that were not filtered out and the ones the tail jumped over. It
    shows records read since the last batch, as the policy and the filter allow, oldest
    first; and one read, not filtered out and not shown is no newer than any shown, the
    batch being full. *)
Theorem tail_next_spec t called flushed turns t' batch calls :
  (0 < tl_batch (tl_limits t))%Z → (len (read_in turns) + jumped t turns ≤ usize_max)%Z →
  tail_next t called flushed turns = (t', Ok batch, calls) →
  ∃ n raws kept turned dropped,
    let read := read_in (take n turns) in
    read ≡ₚ kept ++ turned ++ dropped ∧ Forall (filtered_out (tl_pipeline t)) dropped ∧
    (len (tb_records batch) + tb_skipped batch = len kept + len turned + jumped t (take n turns))%Z ∧
    Forall2 (shows (tl_pipeline t)) raws (tb_records batch) ∧ Forall (λ raw, raw ∈ read) raws ∧
    StronglySorted (cmp_le (λ x y, cmp_for_order (raw_sort_key x) (raw_sort_key y) Oldest)) raws ∧
    ∀ raw, raw ∈ read → filtered_out (tl_pipeline t) raw ∨ raw_sort_key raw ∈ raw_sort_key <$> raws ∨
      len raws = tl_batch (tl_limits t) ∧
      ∀ r, r ∈ raws → cmp_for_order (raw_sort_key r) (raw_sort_key raw) Newest ≠ Gt.
Proof.
  intros Hpos Hmax. unfold tail_next.
  destruct (next_polls t _ _ 0 turns) as [[b [[quiet skipped]|error]] pcalls] eqn:En; [|done].
  apply next_polls_spec in En as (n & items & kept & turned & dropped & Hp & Hd & Hb & Hl & -> & -> & Hfed); [|lia..].
  pose proof (fed_page t b _ Hfed) as (raws & Hshow & Hin & Hsort & Hkeys).
  assert (len raws = len (rb_entries b)) as Hlen.
  { rewrite <- (length_tail_records t b). unfold len. by rewrite (Forall2_length _ _ _ Hshow). }
  pose proof (read_in_take n turns). pose proof (jumped_take t n turns). pose proof (jumped_nonneg t (take n turns)).
  assert (len (read_in (take n turns)) = len kept + len turned + len dropped)%Z as Hread.
  { unfold len. rewrite Hp, !length_app. lia. }
  pose proof (len_nonneg kept). pose proof (len_nonneg turned). pose proof (len_nonneg dropped).
  assert (len items = len kept) as Hik by (unfold len; congruence).
  destruct (fed_batch (tl_batch (tl_limits t)) items Hpos ltac:(lia)) as [Hent Hseen]. rewrite <- Hb in Hent, Hseen.
  assert (∀ raw, raw ∈ read_in (take n turns) → filtered_out (tl_pipeline t) raw ∨ raw_sort_key raw ∈ raw_sort_key <$> raws ∨
      len raws = tl_batch (tl_limits t) ∧
      ∀ r, r ∈ raws → cmp_for_order (raw_sort_key r) (raw_sort_key raw) Newest ≠ Gt) as Hall.
  { intros raw Hr. pose proof Hfed as (Hwf & (El & Eo & Ed) & _ & Hacc).
    destruct (Hacc raw Hr) as [[(e & He & <-)|[Hf Hle]]|]; [| |by left].
    - right; left. apply Hkeys, list_elem_of_fmap. by exists e.
    - right; right. split; [apply (is_full_true b Hwf) in Hf; by rewrite Hlen, Hf, El|].
      intros r Hrin. assert (raw_sort_key r ∈ e_key <$> rb_entries b) as Hrk by by apply Hkeys, list_elem_of_fmap_2.
      apply list_elem_of_fmap in Hrk as (e & -> & He).
      specialize (Hle e He). rewrite Eo, Ed in Hle. exact Hle. }
  case_bool_decide as Hi; intros [= <- <- <-]; cbn [tb_records tb_skipped].
  - subst items. simpl in Hb. subst b. rewrite len_nil in Hik.
    assert (raws = []) as ->. { apply nil_length_inv. unfold len in Hlen. simpl in Hlen. lia. }
    exists n, [], kept, turned, dropped. split_and!; try done; rewrite ?len_nil; [lia|constructor..].
  - exists n, raws, kept, turned, dropped. split_and!; try done.
    rewrite length_tail_records. unfold displaced.
    pose proof (len_nonneg (rb_entries b)).
    rewrite usize_sub_id by (unfold_ints; lia). rewrite usize_add_id by (unfold_ints; lia). lia.
Qed.

(** A tail that fell behind jumps to its backlog: exactly the partitions it tails whose
    lag is past the backlog, and whose position is known, are sought to the offset the
    backlog is from the partition's end, and the records between are counted as skipped. *)
Theorem skip_ahead_spec t turn ahead calls :
  (0 ≤ tl_backlog t)%Z →
  (∀ p lag at_, tt_lags turn !! p = Some lag → tt_position turn p = Some at_ →
    (0 ≤ lag ∧ 0 ≤ at_ ∧ at_ + lag ≤ i64_max)%Z) →
  (jumped t [turn] ≤ usize_max)%Z →
  skip_ahead t turn = (Ok ahead, calls) →
  ∃ moves : list (Z * TailPosition), calls = (if decide (moves = []) then [] else [TSeek moves.*2]) ∧
    ahead = total moves.*1 ∧
    ∀ skipped position, (skipped, position) ∈ moves ↔
      ∃ lag at_, tp_partition position ∈ tp_partition <$> tl_start t ∧
        tt_lags turn !! tp_partition position = Some lag ∧ (tl_backlog t < lag)%Z ∧
        tt_position turn (tp_partition position) = Some at_ ∧
        (at_ + skipped = tp_offset position ∧ tp_offset position + tl_backlog t = at_ + lag)%Z.
Proof.
  intros Hb Hok Hmax Hs. exists (jumps t turn). split; [|split].
  - revert Hs. unfold skip_ahead. destruct (jumps t turn) as [|j js]; [by intros [= <- <-]|].
    rewrite bool_decide_false, decide_False by done. destruct (tt_seek turn); simpl; [|done]. by intros [= <- <-].
  - rewrite (skip_ahead_ok _ _ _ _ Hs). apply sum_u64_total; [apply jumps_nonneg|].
    unfold jumped in Hmax. simpl in Hmax. lia.
  - intros skipped position. unfold jumps. rewrite list_elem_of_omap. unfold jump_of.
    assert (∀ lag at_, tt_lags turn !! tp_partition position = Some lag → tt_position turn (tp_partition position) = Some at_ →
      (tl_backlog t < lag)%Z → usize_sub lag (tl_backlog t) = lag - tl_backlog t ∧
      i64_saturating_add at_ (usize_as_i64 (lag - tl_backlog t)) = at_ + (lag - tl_backlog t))%Z as Hnum.
    { intros lag at_ El Ea Hlt. destruct (Hok _ _ _ El Ea) as (? & ? & ?). unfold_ints. split.
      - apply usize_sub_id. unfold_ints. lia.
      - unfold usize_as_i64. rewrite wrap_i64_id by (unfold_ints; lia). unfold i64_saturating_add. unfold_ints. lia. }
    split.
    + intros (start & Hin & Hj). destruct (tt_lags turn !! tp_partition start) as [lag|] eqn:El; [|done].
      destruct (Z.leb_spec lag (tl_backlog t)); [done|]. destruct (tt_position turn (tp_partition start)) as [at_|] eqn:Ea; [|done].
      injection Hj as <- <-. cbn [tp_partition tp_offset] in *. exists lag, at_.
      destruct (Hnum lag at_ El Ea ltac:(lia)) as [-> ->].
      split_and!; try done; [by apply list_elem_of_fmap_2|lia].
    + intros (lag & at_ & (start & Hp & Hin)%list_elem_of_fmap & El & Hlt & Ea & Hsk & Hoff). exists start. split; [done|].
      rewrite <- Hp, El. destruct (Z.leb_spec lag (tl_backlog t)); [lia|]. rewrite Ea.
      destruct (Hnum lag at_ El Ea Hlt) as [-> ->]. destruct position as [p o]. cbn in *. do 3 f_equal; lia.
Qed.
End properties.

(** ** Witnesses *)

Section witnesses.
#[local] Existing Instances sample_payload_lib sample_redact_lib sample_filter_lib.

Definition sample_tail : Tail := {|
  tl_pipeline := sample_pipeline; tl_topic := "t";
  tl_start := [{| tp_partition := 0; tp_offset := 1 |}]; tl_backlog := 10;
  tl_limits := {| tl_batch := 2; tl_interval := 250; tl_poll_wait := 500; tl_heartbeat := 1000;
                  tl_records := RecordLimits_default |};
  tl_flushed := None |}%Z.

(** A poll of two records, one of them filtered out, with thirty records to go. *)
Definition sample_tail_turn : TailTurn := {|
  tt_now := 0; tt_polled_at := 0; tt_polled := Ok (concat sample_polls).*2;
  tt_lags := {[ 0%Z := 30%Z ]}; tt_position := λ _, Some 3%Z; tt_seek := Ok () |}.

Example sample_tail_calls : (tail_next sample_tail 0 5 [sample_tail_turn]).2 =
  [TPoll; TSeek [{| tp_partition := 0; tp_offset := 23 |}]; TSleepUntil 0].
Proof. vm_compute. reflexivity. Qed.

Lemma tail_next_spec_witness :
  ∃ t' batch calls, tail_next sample_tail 0 5 [sample_tail_turn] = (t', Ok batch, calls) ∧
    tb_skipped batch = 20%Z ∧ ∃ raws, Forall2 (shows sample_pipeline) raws (tb_records batch).
Proof.
  destruct (tail_next sample_tail 0 5 [sample_tail_turn]) as [[t' [batch|e]] calls] eqn:E; [|vm_compute in E; discriminate E].
  exists t', batch, calls. split; [done|].
  destruct (tail_next_spec sample_tail 0 5 [sample_tail_turn] t' batch calls ltac:(done) ltac:(vm_compute; discriminate) E)
    as (n & raws & kept & turned & dropped & _ & _ & _ & Hshow & _).
  split; [|by exists raws]. vm_compute in E. by injection E as _ <- _.
Defined.

Lemma skip_ahead_spec_witness :
  ∃ ahead calls, skip_ahead sample_tail sample_tail_turn = (Ok ahead, calls) ∧
    ∃ moves : list (Z * TailPosition), calls = [TSeek moves.*2] ∧ ahead = total moves.*1.
Proof.
  destruct (skip_ahead sample_tail sample_tail_turn) as [[ahead|e] calls] eqn:E; [|vm_compute in E; discriminate E].
  exists ahead, calls. split; [done|].
  destruct (skip_ahead_spec sample_tail sample_tail_turn ahead calls ltac:(done)) as (moves & Hc & Ha & _).
  - intros p lag at_ Hl [= <-]. cbn [sample_tail_turn tt_lags] in Hl. apply lookup_singleton_Some in Hl as [<- <-]. by vm_compute.
  - vm_compute. discriminate.
  - exact E.
  - exists moves. split; [|done]. rewrite Hc. case_decide as Hm; [|done]. subst moves. vm_compute in E. rewrite Hc in E. discriminate E.
Defined.
End witnesses.
