(* ===== verification/Client.v ===== *)
(** [src/kafka/client.rs], with [src/kafka/client/transport.rs], [src/kafka/client/tail.rs] and
    the readers of [src/kafka/client/scan.rs]: the session klens holds with a cluster, over
    krafka's clients. What a call of krafka's answers is a parameter. *)

From Stdlib Require Import SpecFloat.
From S2P Require Import Prelude Text Utf8 Errors Metadata TopicConfig Group Reset Quota Acl Tables Registry Plan Pipeline Query Tuning Handle Tail Convert.

(** ** Reaching a cluster *)

Inductive SaslMechanism : Set := Plain | ScramSha256 | ScramSha512.

Record Sasl : Set := { sasl_mechanism : SaslMechanism; sasl_username : string; sasl_password : string }.

Record ClientCert : Set := { cert_path : string; key_path : string }.

Record Tls : Set := { tls_ca_cert : option string; tls_client : option ClientCert; tls_insecure_skip_verify : bool }.

(** The fields of the configured [Cluster] that the connector reads. *)
Record ClusterConfig : Set := {
  cc_bootstrap_servers : list string;
  cc_client_id : option string;
  cc_tls : option Tls;
  cc_sasl : option Sasl;
}.

Record KrafkaTls : Set := {
  kt_insecure : bool;
  kt_ca_cert : option string;
  kt_client_cert : option (string * string);
}.

Inductive AuthConfig : Set :=
  | AuthSsl (tls : KrafkaTls)
  | AuthSasl (mechanism : SaslMechanism) (username password : string)
  | AuthWithTls (auth : AuthConfig) (tls : KrafkaTls).

(** A path's [to_string_lossy]. *)
Definition krafka_tls (tls : Tls) : KrafkaTls :=
  {| kt_insecure := tls_insecure_skip_verify tls;
     kt_ca_cert := from_utf8_lossy <$> tls_ca_cert tls;
     kt_client_cert := (λ client, (from_utf8_lossy (cert_path client), from_utf8_lossy (key_path client))) <$> tls_client tls |}.

Definition krafka_sasl (sasl : Sasl) : AuthConfig := AuthSasl (sasl_mechanism sasl) (sasl_username sasl) (sasl_password sasl).

Definition krafka_auth (cluster : ClusterConfig) : option AuthConfig :=
  match cc_sasl cluster, krafka_tls <$> cc_tls cluster with
  | None, None => None
  | None, Some tls => Some (AuthSsl tls)
  | Some sasl, None => Some (krafka_sasl sasl)
  | Some sasl, Some tls => Some (AuthWithTls (krafka_sasl sasl) tls)
  end.

Definition CLIENT_ID_PREFIX : string := "klens".

Record Connector : Set := {
  cn_bootstrap_servers : string;
  cn_client_id : string;
  cn_request_timeout : Z;
  cn_connect_timeout : Z;
  cn_max_in_flight_requests : Z;
  cn_max_response_size : Z;
  cn_auth : option AuthConfig;
}.

Definition connector_new (name : string) (cluster : ClusterConfig) (tuning : KafkaTuning) : Connector :=
  {| cn_bootstrap_servers := join comma (cc_bootstrap_servers cluster);
     cn_client_id := default (CLIENT_ID_PREFIX +:+ "-" +:+ name) (cc_client_id cluster);
     cn_request_timeout := Z.max (request_timeout tuning) (connect_timeout tuning);
     cn_connect_timeout := connect_timeout tuning;
     cn_max_in_flight_requests := max_in_flight_requests tuning;
     cn_max_response_size := max_response_bytes tuning;
     cn_auth := krafka_auth cluster |}.

(** [OnceCell::get_or_try_init]: what it answers, and the cell after. A failed attempt leaves the
    cell empty. *)
Definition get_or_try_init {E A} (cell : option A) (attempt : result E A) : result E A * option A :=
  match cell with
  | Some value => (Ok value, cell)
  | None => match attempt with Ok value => (Ok value, Some value) | Err error => (Err error, None) end
  end.

(** [Link::open]: the transport's client, its metadata consumer, then the scans' client. *)
Definition link_open (connected metadata_built scans_connected : result KrafkaError ()) : result KafkaError () :=
  map_err Krafka (_ ← connected; _ ← metadata_built; scans_connected).

(** ** Readers *)

Definition MIN_FETCH_WAIT : Z := from_millis 1.

Record ReaderConfig : Set := { rc_fetch_wait : Z; rc_page_limit : Z; rc_fetch_max_bytes : Z }.

(** [i32::try_from(_).unwrap_or(i32::MAX)] of a [usize]. *)
Definition usize_to_i32 (n : Z) : Z := if (n <=? i32_max)%Z then n else i32_max.

Definition reader_config (tuning : Tuning) (fetch_wait : Z) : ReaderConfig :=
  {| rc_fetch_wait := Z.max fetch_wait MIN_FETCH_WAIT;
     rc_page_limit := usize_to_i32 (max_limit (tn_records tuning));
     rc_fetch_max_bytes := usize_to_i32 (max_response_bytes (tn_kafka tuning) / 2) |}.

Inductive AutoOffsetReset : Set := ResetEarliest | ResetLatest.

(** What a built consumer is told. *)
Record ConsumerOptions : Set := {
  op_auto_commit : bool;
  op_metrics_push : bool;
  op_auto_offset_reset : AutoOffsetReset;
  op_fetch_max_wait : Z;
  op_max_poll_records : Z;
  op_max_buffered_records : Z;
  op_fetch_max_bytes : Z;
  op_initial_offsets : list (TopicPartition * Z);
}.

(** [i32::saturating_mul]. *)
Definition i32_saturating_mul (a b : Z) : Z := Z.max i32_min (Z.min i32_max (a * b)).

Definition reader (topic : string) (start : list (Z * Z)) (config : ReaderConfig) : ConsumerOptions :=
  {| op_auto_commit := false;
     op_metrics_push := false;
     op_auto_offset_reset := ResetEarliest;
     op_fetch_max_wait := rc_fetch_wait config;
     op_max_poll_records := rc_page_limit config;
     op_max_buffered_records := i32_saturating_mul (rc_page_limit config) 2;
     op_fetch_max_bytes := rc_fetch_max_bytes config;
     op_initial_offsets := (λ at_, ((topic, at_.1), at_.2)) <$> start |}.

(** [ScanPool::build]. *)
Definition scan_reader (topic : string) (windows : list PartitionWindow) (config : ReaderConfig) : ConsumerOptions :=
  reader topic ((λ window, (pw_partition window, pw_start window)) <$> windows) config.

Definition tail_reader (topic : string) (start : list TailPosition) (config : ReaderConfig) : ConsumerOptions :=
  let options := reader topic ((λ position, (tp_partition position, tp_offset position)) <$> start) config in
  {| op_auto_commit := op_auto_commit options; op_metrics_push := op_metrics_push options;
     op_auto_offset_reset := ResetLatest; op_fetch_max_wait := op_fetch_max_wait options;
     op_max_poll_records := op_max_poll_records options; op_max_buffered_records := op_max_buffered_records options;
     op_fetch_max_bytes := op_fetch_max_bytes options; op_initial_offsets := op_initial_offsets options |}.

(** [lags] of a lease: the known lags of its topic. *)
Definition lease_lags (topic : string) (lags : list (TopicPartition * option Z)) : gmap Z Z :=
  list_to_map (omap (λ entry : TopicPartition * option Z,
    if String.eqb entry.1.1 topic then (λ lag, (entry.1.2, lag)) <$> entry.2 else None) lags).

(** ** krafka's answers *)

Inductive OffsetSpec : Set := Earliest | Latest | AtTimestamp (timestamp : Z).

(** The answer of each call; a map is the list of its entries, in the map's order. *)
Record Kafka : Type := {
  (** Reaching the cluster, now or before. *)
  kk_transport : result KafkaError ();
  kk_list_topics : result KrafkaError ();
  kk_fetch_metadata : option string → result KrafkaError FetchMetadataResult;
  kk_list_consumer_groups : list string → result KrafkaError (list (Z * result KrafkaError (list ConsumerGroupListing)));
  kk_describe_consumer_groups : list string → result KrafkaError (list (string * result KrafkaError ConsumerGroupDescription));
  kk_list_consumer_group_offsets : string → option (list TopicPartition) →
    result KrafkaError (list (TopicPartition * result KrafkaError (option Z)));
  kk_list_offsets : list (TopicPartition * OffsetSpec) → result KrafkaError (list (TopicPartition * result KrafkaError Z));
  kk_describe_configs : list ConfigResource → result KrafkaError (list (string * result KrafkaError (list KrafkaConfigEntry)));
  kk_describe_log_dirs : list Z → result KrafkaError (list (Z * result KrafkaError (list (string * result KrafkaError LogDirDescription))));
  kk_describe_acls : result KrafkaError (list AclBinding);
  kk_describe_client_quotas : result KrafkaError (list (list (string * option string) * list (string * spec_float)));
  kk_describe_scram : result KrafkaError (list (string * result KrafkaError (list (WireMechanism * Z))));
  kk_create_topics : WireNewTopic → result KrafkaError (list (result KrafkaError ()));
  kk_delete_topics : string → result KrafkaError (list (result KrafkaError ()));
  kk_incremental_alter_configs : ConfigResource → list ConfigOp → result KrafkaError (list (result KrafkaError ()));
  kk_create_partitions : string → Z → result KrafkaError (list (result KrafkaError ()));
  kk_delete_records : list (TopicPartition * Z) → result KrafkaError (list (TopicPartition * result KrafkaError Z));
  kk_producer : result KafkaError ();
  kk_send : WireRecord → result KrafkaError (Z * Z);
  kk_alter_group_offsets : string → list (TopicPartition * Z) → result KrafkaError (list (result KrafkaError ()));
  kk_delete_groups : string → result KrafkaError (list (result KrafkaError ()));
  kk_delete_group_offsets : string → list TopicPartition → result KrafkaError (list (result KrafkaError ()));
  kk_create_acls : list AclBinding → result KrafkaError (list (result KrafkaError ()));
  kk_delete_acls : AclFilter → result KrafkaError (list (result KrafkaError (list KrafkaError)));
  kk_alter_quotas : list (string * option string) → list (string * option spec_float) → result KrafkaError (list (result KrafkaError ()));
  kk_upsert_scram : ScramCredentialUpsertion → result KrafkaError (list (result KrafkaError ()));
  kk_delete_scram : string → WireMechanism → result KrafkaError (list (result KrafkaError ()));
}.

Section client.
Context `{!KrafkaLib, !KrafkaTexts, !SchemregLib} (k : Kafka) (cluster : string) (registry : option RegistryEnv).

Definition asked {A} (answer : result KrafkaError A) : result KafkaError A := map_err Krafka answer.

(** ** Reads *)

Definition client_metadata : result KafkaError MetadataSnapshot :=
  _ ← kk_transport k;
  _ ← asked (kk_list_topics k);
  cached ← asked (kk_fetch_metadata k None);
  Ok (snapshot_from_krafka cached).

Definition client_topic_metadata (topic : string) : result KafkaError TopicMetadata :=
  let unknown := UnknownTopic cluster topic in
  match validate_topic_name topic with
  | Err _ => Err unknown
  | Ok _ =>
      _ ← kk_transport k;
      cached ← asked (kk_fetch_metadata k (Some topic));
      ok_or (topic_from_krafka <$> head (fm_topics cached)) unknown
  end.

Fixpoint listed_groups (listed : list (Z * result KrafkaError (list ConsumerGroupListing))) : result KafkaError (list ListedGroup) :=
  match listed with
  | [] => Ok []
  | (_, listing) :: listed =>
      listing ← asked listing;
      groups ← listed_groups listed;
      Ok ((listed_from_krafka <$> listing) ++ groups)
  end.

Definition client_groups : result KafkaError (list GroupSnapshot) :=
  _ ← kk_transport k;
  listed ← asked (kk_list_consumer_groups k LISTED_GROUP_TYPES);
  listed ← listed_groups listed;
  let '(active, groups) := split_empty_groups listed in
  described ← asked (kk_describe_consumer_groups k active);
  Ok (groups ++ snapshots_from_descriptions described).

Definition valid_topic (topic : string) : bool := bool_decide (validate_topic_name topic = Ok ()).

Definition client_committed_offsets (group : string) (partitions : option (list (string * Z)))
    : result KafkaError (list CommittedOffset) :=
  let read asked_for :=
    _ ← kk_transport k;
    listed ← asked (kk_list_consumer_group_offsets k group asked_for);
    Ok (committed_from_krafka listed) in
  match partitions with
  | None => read None
  | Some partitions =>
      let partitions := List.filter (λ p, valid_topic p.1) partitions in
      if bool_decide (partitions = []) then Ok [] else read (Some partitions)
  end.

Definition offset_specs (topics : gmap string (list Z)) (spec : OffsetSpec) : list (TopicPartition * OffsetSpec) :=
  concat ((λ entry : string * list Z, (λ partition, ((entry.1, partition), spec)) <$> entry.2) <$>
    List.filter (λ entry, valid_topic entry.1) (map_to_list topics)).

Definition listed_offset_parts (listed : TopicPartition * result KrafkaError Z) : string * Z * result KrafkaError Z :=
  (listed.1.1, listed.1.2, listed.2).

Definition client_list_offsets (topics : gmap string (list Z)) (spec : OffsetSpec) : result KafkaError OffsetLookup :=
  let specs := offset_specs topics spec in
  if bool_decide (specs = []) then Ok lookup_default
  else
    _ ← kk_transport k;
    listed ← asked (kk_list_offsets k specs);
    Ok (log_offsets (listed_offset_parts <$> listed)).

Definition client_low_watermarks (topics : gmap string (list Z)) : result KafkaError OffsetLookup := client_list_offsets topics Earliest.
Definition client_high_watermarks (topics : gmap string (list Z)) : result KafkaError OffsetLookup := client_list_offsets topics Latest.

Definition client_offsets_for_times (topic : string) (partitions : list Z) (timestamp : Z)
    : result KafkaError (gmap Z (option Z)) :=
  if bool_decide (partitions = []) || negb (valid_topic topic) then Ok ∅
  else
    _ ← kk_transport k;
    listed ← asked (kk_list_offsets k ((λ partition, ((topic, partition), AtTimestamp timestamp)) <$> partitions));
    time_offsets (listed_offset_parts <$> listed).

Fixpoint topic_configs_from (configs : gmap string (list ConfigEntry))
    (described : list (string * result KrafkaError (list KrafkaConfigEntry))) : result KafkaError (gmap string (list ConfigEntry)) :=
  match described with
  | [] => Ok configs
  | (name, Ok entries) :: described => topic_configs_from (<[name := config_entry_from_krafka <$> entries]> configs) described
  | (_, Err (Broker _ _)) :: described => topic_configs_from configs described
  | (_, Err error) :: _ => Err (Krafka error)
  end.

Definition client_topic_configs (topics : list string) : result KafkaError (gmap string (list ConfigEntry)) :=
  if bool_decide (topics = []) then Ok ∅
  else
    _ ← kk_transport k;
    described ← asked (kk_describe_configs k (TopicConfigs <$> topics));
    topic_configs_from ∅ described.

Definition client_broker_configs (broker_id : Z) : result KafkaError (list ConfigEntry) :=
  _ ← kk_transport k;
  described ← asked (kk_describe_configs k [BrokerConfigs_ broker_id]);
  match snd <$> head described with
  | Some (Ok entries) => Ok (config_entry_from_krafka <$> entries)
  | Some (Err (Broker _ message)) => Err (BrokerConfigs broker_id message)
  | Some (Err error) => Err (Krafka error)
  | None => Ok []
  end.

Fixpoint log_dirs_from (described : list (Z * result KrafkaError (list (string * result KrafkaError LogDirDescription))))
    : result KafkaError (list LogDir) :=
  match described with
  | [] => Ok []
  | (broker, dirs) :: described =>
      dirs ← asked dirs;
      rest ← log_dirs_from described;
      Ok (((λ entry, log_dir_from_krafka broker entry.1 entry.2) <$> dirs) ++ rest)
  end.

Definition client_log_dirs : result KafkaError (list LogDir) :=
  _ ← kk_transport k;
  cached ← asked (kk_fetch_metadata k None);
  described ← asked (kk_describe_log_dirs k (wb_id <$> fm_brokers cached));
  log_dirs_from described.

Definition client_acls : result KafkaError AclListing :=
  _ ← kk_transport k;
  acls_from_admin_result (kk_describe_acls k).

Definition client_quotas : result KafkaError QuotaListing :=
  _ ← kk_transport k;
  described ← unless_denied (kk_describe_client_quotas k);
  Ok match described with
     | None => QuotasDenied
     | Some described => quotas_from_describe ((λ entry, {| dq_entity := entry.1; dq_values := entry.2 |}) <$> described)
     end.

Fixpoint scram_users_from (described : list (string * result KrafkaError (list (WireMechanism * Z)))) : result KafkaError (list DescribedUser) :=
  match described with
  | [] => Ok []
  | (name, infos) :: described =>
      infos ← asked infos;
      users ← scram_users_from described;
      Ok ({| du_name := name; du_credentials := infos |} :: users)
  end.

Definition client_scram_users : result KafkaError ScramListing :=
  _ ← kk_transport k;
  described ← unless_denied (kk_describe_scram k);
  match described with
  | None => Ok ScramDenied
  | Some described => users ← scram_users_from described; Ok (scram_from_describe users)
  end.

Definition client_schema_subjects (known : string → option LatestSchema) : result KafkaError (list SchemaSubject) :=
  match registry with None => Ok [] | Some env => subjects cluster env known end.

Definition client_subject_schema (subject : string) (version : Z) : result KafkaError RegisteredSchema :=
  match registry with
  | None => Err (UnknownSubject cluster subject version)
  | Some env => schema_by_subject_version cluster env subject version
  end.

Definition client_schema_version_ids (versions : list (string * Z)) : result KafkaError (list (string * RegisteredVersion)) :=
  match registry with None => Ok [] | Some env => Ok (registry_version_ids env versions) end.

(** ** Changes *)

Definition the_registry : result KafkaError RegistryEnv := ok_or registry (NoSchemaRegistry cluster).

(** [try_for_each(refused)]. *)
Fixpoint all_accepted (answers : list (result KrafkaError ())) : result KafkaError () :=
  match answers with
  | [] => Ok ()
  | answer :: answers => _ ← refused answer; all_accepted answers
  end.

(** An admin call on the transport, and its answers. *)
Definition admin (call : result KrafkaError (list (result KrafkaError ()))) : result KafkaError () :=
  _ ← kk_transport k;
  answers ← asked call;
  all_accepted answers.

Definition alter_configs (resource : ConfigResource) (edit : ConfigEdit) : result KafkaError () :=
  admin (kk_incremental_alter_configs k resource (edit_to_krafka edit)).

Definition client_create_topic (topic : NewTopic) : result KafkaError () :=
  _ ← kk_transport k;
  topic ← new_topic_to_krafka topic;
  admin (kk_create_topics k topic).

Fixpoint deleted_records (marks : gmap Z Z) (answers : list (TopicPartition * result KrafkaError Z)) : result KafkaError (gmap Z Z) :=
  match answers with
  | [] => Ok marks
  | (partition, low_watermark) :: answers =>
      low_watermark ← refused low_watermark;
      deleted_records (<[partition.2 := low_watermark]> marks) answers
  end.

Definition client_delete_records (deletion : RecordDeletion) : result KafkaError (gmap Z Z) :=
  _ ← kk_transport k;
  answers ← asked (kk_delete_records k (deletion_to_krafka deletion));
  deleted_records ∅ answers.

Definition client_produce (record : NewRecord) : result KafkaError ProducedRecord :=
  _ ← kk_transport k;
  _ ← kk_producer k;
  sent ← map_err produce_refusal (kk_send k (record_to_krafka record));
  Ok {| pd_partition := sent.1; pd_offset := sent.2 |}.

Definition client_create_acls (acls : list Acl) : result KafkaError () :=
  bindings ← foldr (λ acl bindings, binding ← acl_to_krafka acl; bindings ← bindings; Ok (binding :: bindings)) (Ok []) acls;
  admin (kk_create_acls k bindings).

Fixpoint deleted_acls (answers : list (result KrafkaError (list KrafkaError))) : result KafkaError () :=
  match answers with
  | [] => Ok ()
  | deleted :: answers =>
      failed ← refused deleted;
      match failed with
      | error :: _ => refused (Err error)
      | [] => deleted_acls answers
      end
  end.

Definition client_delete_acl (acl : Acl) : result KafkaError () :=
  _ ← kk_transport k;
  filter ← acl_to_krafka_filter acl;
  deleted ← asked (kk_delete_acls k filter);
  deleted_acls deleted.

Definition client_alter_client_quota (quota : ClientQuota) : result KafkaError () :=
  admin (kk_alter_quotas k ((λ part, (quota_wire (qe_entity_type part), qe_name part)) <$> cq_entity quota)
    (quota_entries (cq_values quota))).

(** The session's method for each change. [salt] is the random one of a new password. *)
Definition client_write (salt : string) (w : Write) : result KafkaError (reply w) :=
  match w with
  | WCreateTopic topic => client_create_topic topic
  | WDeleteTopic topic => admin (kk_delete_topics k topic)
  | WAlterTopicConfigs topic edit => alter_configs (TopicConfigs topic) edit
  | WAlterBrokerConfigs scope edit => alter_configs (scope_to_krafka scope) edit
  | WAddPartitions topic total => admin (kk_create_partitions k topic total)
  | WDeleteRecords deletion => client_delete_records deletion
  | WProduce record => client_produce record
  | WAlterGroupOffsets group offsets =>
      admin (kk_alter_group_offsets k group ((λ offset, ((co_topic offset, co_partition offset), co_offset offset)) <$> offsets))
  | WDeleteGroup group => admin (kk_delete_groups k group)
  | WDeleteGroupOffsets group topic partitions =>
      admin (kk_delete_group_offsets k group ((λ partition, (topic, partition)) <$> partitions))
  | WRegisterSchema schema => env ← the_registry; register cluster env schema
  | WDeleteSchema deletion => env ← the_registry; (registry_delete cluster env deletion).1
  | WSetCompatibility subject level => env ← the_registry; registry_set_compatibility cluster env subject level
  | WCreateAcls acls => client_create_acls acls
  | WDeleteAcl acl => client_delete_acl acl
  | WAlterClientQuota quota => client_alter_client_quota quota
  | WSetScramCredential credential => admin (kk_upsert_scram k (salted_with credential salt))
  | WDeleteScramCredential user mechanism => admin (kk_delete_scram k user (mechanism_wire mechanism))
  end.

(** The session that planning a reset reads. *)
Definition client_offset_session : OffsetSession :=
  {| os_cluster := cluster;
     os_committed_offsets := λ group, client_committed_offsets group None;
     os_low_watermarks := client_low_watermarks;
     os_high_watermarks := client_high_watermarks;
     os_offsets_for_times := client_offsets_for_times |}.
End client.

(** ** Lemmas *)

Lemma asked_ok {A} (answer : result KrafkaError A) x : asked answer = Ok x ↔ answer = Ok x.
Proof. destruct answer; cbn; split; congruence. Qed.

Lemma result_bind_ok {E A B} (r : result E A) (f : A → result E B) y : (r ≫= f) = Ok y ↔ ∃ x, r = Ok x ∧ f x = Ok y.
Proof. destruct r; cbn; [naive_solver|]. split; [done|naive_solver]. Qed.

Lemma refused_ok {A} (answer : result KrafkaError A) x : refused answer = Ok x ↔ answer = Ok x.
Proof. destruct answer; cbn; split; congruence. Qed.

(** How Kafka's refusal of one part of a change is shown. *)
Definition shown_refusal (error : KrafkaError) : KafkaError :=
  match error with
  | Broker code message => Refused {| refusal_code := code; refusal_reason := Some message |}
  | error => Krafka error
  end.

Lemma all_accepted_spec answers :
  all_accepted answers =
    match List.find (λ answer, match answer with Ok _ => false | Err _ => true end) answers with
    | Some (Err error) => Err (shown_refusal error)
    | _ => Ok ()
    end.
Proof. induction answers as [|[[]|error] answers IH]; cbn; [done|done|by destruct error]. Qed.

Lemma all_accepted_ok answers : all_accepted answers = Ok () ↔ Forall (λ answer, answer = Ok ()) answers.
Proof.
  induction answers as [|answer answers IH]; cbn; [split; [constructor|done]|].
  rewrite result_bind_ok, Forall_cons, <- IH. split.
  - intros ([] & H1%refused_ok & H2). done.
  - intros [-> H2]. exists (). by rewrite refused_ok.
Qed.

Lemma admin_ok k call : admin k call = Ok () ↔
  kk_transport k = Ok () ∧ ∃ answers, call = Ok answers ∧ Forall (λ answer, answer = Ok ()) answers.
Proof.
  unfold admin. rewrite result_bind_ok. split.
  - intros ([] & H1 & (answers & H2%asked_ok & H3%all_accepted_ok)%result_bind_ok). eauto.
  - intros (H1 & answers & -> & H3%all_accepted_ok). exists (). split; [done|]. by rewrite result_bind_ok; exists answers.
Qed.

Lemma deleted_records_ok answers : ∀ marks marks', deleted_records marks answers = Ok marks' →
  ∀ partition low, (partition, low) ∈ answers → ∃ mark, low = Ok mark.
Proof.
  induction answers as [|[partition low] answers IH]; intros marks marks' E; [set_solver|]. cbn in E.
  apply result_bind_ok in E as (mark & Hm%refused_ok & E). intros p l [[= -> ->]|Hin]%elem_of_cons; [eauto|eauto].
Qed.

Lemma deleted_acls_ok answers : deleted_acls answers = Ok () ↔ Forall (λ answer, answer = Ok []) answers.
Proof.
  induction answers as [|answer answers IH]; cbn; [split; [constructor|done]|].
  rewrite result_bind_ok, Forall_cons, <- IH. split.
  - intros (failed & Hf%refused_ok & E). subst answer. destruct failed as [|error failed]; [done|].
    exfalso. by destruct error.
  - intros [-> E]. exists []. by rewrite refused_ok.
Qed.

(** ** Changes *)

(** What Kafka or the registry answered when it took all of a change. *)
Definition accepted `{!KrafkaLib, !SchemregLib} (k : Kafka) (registry : option RegistryEnv) (salt : string) (w : Write) : Prop :=
  let all call := kk_transport k = Ok () ∧ ∃ answers, call = Ok answers ∧ Forall (λ answer, answer = Ok ()) answers in
  match w with
  | WCreateTopic topic => ∃ wire, new_topic_to_krafka topic = Ok wire ∧ all (kk_create_topics k wire)
  | WDeleteTopic topic => all (kk_delete_topics k topic)
  | WAlterTopicConfigs topic edit => all (kk_incremental_alter_configs k (TopicConfigs topic) (edit_to_krafka edit))
  | WAlterBrokerConfigs scope edit => all (kk_incremental_alter_configs k (scope_to_krafka scope) (edit_to_krafka edit))
  | WAddPartitions topic total => all (kk_create_partitions k topic total)
  | WDeleteRecords deletion => kk_transport k = Ok () ∧ ∃ answers, kk_delete_records k (deletion_to_krafka deletion) = Ok answers ∧
      ∀ partition low, (partition, low) ∈ answers → ∃ mark, low = Ok mark
  | WProduce record => kk_transport k = Ok () ∧ ∃ sent, kk_send k (record_to_krafka record) = Ok sent
  | WAlterGroupOffsets group offsets =>
      all (kk_alter_group_offsets k group ((λ offset, ((co_topic offset, co_partition offset), co_offset offset)) <$> offsets))
  | WDeleteGroup group => all (kk_delete_groups k group)
  | WDeleteGroupOffsets group topic partitions => all (kk_delete_group_offsets k group ((λ partition, (topic, partition)) <$> partitions))
  | WRegisterSchema schema => ∃ env, registry = Some env ∧ rg_register env schema = Ok ()
  | WDeleteSchema deletion => ∃ env, registry = Some env ∧
      (delete_once env deletion (sd_permanent deletion) = Ok ())
  | WSetCompatibility subject level => ∃ env, registry = Some env ∧ rg_set_compatibility env subject (compatibility_into level) = Ok ()
  | WCreateAcls acls => ∃ bindings, Forall2 (λ acl binding, acl_to_krafka acl = Ok binding) acls bindings ∧ all (kk_create_acls k bindings)
  | WDeleteAcl acl => kk_transport k = Ok () ∧ ∃ filter answers, acl_to_krafka_filter acl = Ok filter ∧
      kk_delete_acls k filter = Ok answers ∧ Forall (λ answer, answer = Ok []) answers
  | WAlterClientQuota quota =>
      all (kk_alter_quotas k ((λ part, (quota_wire (qe_entity_type part), qe_name part)) <$> cq_entity quota) (quota_entries (cq_values quota)))
  | WSetScramCredential credential => all (kk_upsert_scram k (salted_with credential salt))
  | WDeleteScramCredential user mechanism => all (kk_delete_scram k user (mechanism_wire mechanism))
  end.

Lemma bindings_ok acls bindings :
  foldr (λ acl bindings, binding ← acl_to_krafka acl; bindings ← bindings; Ok (binding :: bindings)) (Ok []) acls = Ok bindings →
  Forall2 (λ acl binding, acl_to_krafka acl = Ok binding) acls bindings.
Proof.
  revert bindings. induction acls as [|acl acls IH]; intros bindings E; cbn in E; [by injection E as <-|].
  apply result_bind_ok in E as (binding & Hb & E). apply result_bind_ok in E as (rest & Hr & E).
  injection E as <-. constructor; auto.
Qed.

Lemma registry_delete_ok `{!SchemregLib} cluster env deletion :
  (registry_delete cluster env deletion).1 = Ok () → delete_once env deletion (sd_permanent deletion) = Ok ().
Proof.
  unfold registry_delete. destruct (sd_permanent deletion).
  - destruct (delete_once env deletion false) as [|error]; [|destruct (true && is_soft_deleted error); [|done]]; cbn;
      by destruct (delete_once env deletion true) as [[]|].
  - destruct (delete_once env deletion false) as [[]|]; done.
Qed.

(** C29 (safety). A change is reported as done only when the cluster was reached and Kafka took
    every part of it, or the registry took it; so no refusal of a partition, a resource, a group
    or an ACL is lost. *)
Theorem writes_accepted `{!KrafkaLib, !KrafkaTexts, !SchemregLib} (k : Kafka) (cluster : string) (registry : option RegistryEnv)
    (salt : string) (w : Write) (answer : reply w) :
  client_write k cluster registry salt w = Ok answer → accepted k registry salt w.
Proof.
  destruct w; cbn [client_write accepted reply] in *; unfold alter_configs, client_alter_client_quota;
    try (destruct answer; by intros ?%admin_ok).
  - destruct answer. intros ([] & Ht & (wire & Hw & Ha%admin_ok)%result_bind_ok)%result_bind_ok. eauto.
  - intros ([] & Ht & (answers & Ha%asked_ok & Hd)%result_bind_ok)%result_bind_ok. split; [done|]. exists answers.
    split; [done|]. by eapply deleted_records_ok.
  - intros ([] & Ht & ([] & Hp & (sent & Hs & _)%result_bind_ok)%result_bind_ok)%result_bind_ok. split; [done|].
    exists sent. by destruct (kk_send k _); [injection Hs as ->|].
  - intros (env & He & Hr)%result_bind_ok. destruct registry as [env'|]; [|done]. injection He as ->. exists env. split; [done|].
    unfold register in Hr. by destruct (rg_register env schema) as [[]|].
  - destruct answer. intros (env & He & Hr)%result_bind_ok. destruct registry as [env'|]; [|done]. injection He as ->. exists env.
    split; [done|]. by eapply registry_delete_ok.
  - destruct answer. intros (env & He & Hr)%result_bind_ok. destruct registry as [env'|]; [|done]. injection He as ->. exists env.
    split; [done|]. unfold registry_set_compatibility in Hr. by destruct (rg_set_compatibility env _ _) as [[]|].
  - destruct answer. intros (bindings & Hb%bindings_ok & Ha%admin_ok)%result_bind_ok. eauto.
  - destruct answer. intros ([] & Ht & (filter & Hf & (answers & Ha%asked_ok & Hd%deleted_acls_ok)%result_bind_ok)%result_bind_ok)%result_bind_ok.
    split; [done|]. by exists filter, answers.
Qed.

(** ** Groups *)

Lemma split_empty_spec listed active empty : split_empty_groups listed = (active, empty) →
  (∀ group, group ∈ active ↔ ∃ l, l ∈ listed ∧ lg_id l = group ∧ is_internal_group group = false ∧ needs_description l = true) ∧
  (∀ g, g ∈ empty ↔ ∃ l, l ∈ listed ∧ is_internal_group (lg_id l) = false ∧ needs_description l = false ∧
    g = listed_snapshot (lg_id l) EmptyGroup).
Proof.
  revert active empty. induction listed as [|l listed IH]; intros active empty E; cbn in E.
  { injection E as <- <-. set_solver. }
  destruct (split_empty_groups listed) as [active1 empty1]. destruct (IH _ _ eq_refl) as [H1 H2]. clear IH.
  destruct (is_internal_group (lg_id l)) eqn:Ei; [|destruct (needs_description l) eqn:En]; injection E as <- <-; split; intros x.
  all: rewrite ?elem_of_cons, ?H1, ?H2; setoid_rewrite elem_of_cons; naive_solver congruence.
Qed.

(** Every description of a group is shown, or every one says that it is gone. *)
Lemma snapshot_shown l described :
  is_internal_group (lg_id l) = false →
  (∀ key description, (key, Ok description) ∈ described → cg_group_id description = key) →
  (∃ g, g ∈ snapshots_from_descriptions described ∧ gs_id g = lg_id l) ∨
  ∀ d, (lg_id l, d) ∈ described →
    (∃ description, d = Ok description ∧ eq_ignore_ascii_case (cg_state description) "dead" = true) ∨
    (∃ message, d = Err (Broker GroupIdNotFound message)).
Proof.
  intros Hi. induction described as [|[key d] described IH]; intros Hkeys; [right; set_solver|].
  destruct IH as [(g & Hg & Hid)|Hall]; [intros; eapply Hkeys; by right| |].
  { left. exists g. split; [|done]. apply list_elem_of_omap in Hg as (e & He & Hs).
    apply list_elem_of_omap. exists e. split; [by right|done]. }
  destruct (decide (key = lg_id l)) as [->|Hne]; [|right; intros d' [[= E1 E2]|?]%elem_of_cons; [by destruct Hne|auto]].
  destruct (snapshot_from_description (lg_id l, d)) as [g|] eqn:Es.
  - left. exists g. split; [apply list_elem_of_omap; exists (lg_id l, d); split; [left|done]|].
    unfold snapshot_from_description in Es. cbn [fst snd] in Es. rewrite Hi in Es. destruct d as [d|error].
    + destruct (eq_ignore_ascii_case _ _); [done|]. injection Es as <-. cbn. eapply Hkeys. left.
    + destruct error as [[]|]; try discriminate Es; by injection Es as <-.
  - right. intros d' [[= E]|?]%elem_of_cons; [subst d'|auto]. unfold snapshot_from_description in Es. cbn [fst snd] in Es. rewrite Hi in Es.
    destruct d as [d|error].
    + left. exists d. split; [done|]. by destruct (eq_ignore_ascii_case _ _).
    + right. destruct error as [[]|]; try discriminate Es. eauto.
Qed.

(** The groups shown are those Kafka lists or describes, none of klens' own. A group
    is shown as having no members only when Kafka says so of it; a listed group is left out only
    when Kafka describes it as dead, no longer knows it, or answers nothing for it. *)
Theorem groups_spec (k : Kafka) (groups : list GroupSnapshot) :
  (∀ asked_for described, kk_describe_consumer_groups k asked_for = Ok described →
    ∀ key description, (key, Ok description) ∈ described → cg_group_id description = key) →
  client_groups k = Ok groups →
  ∃ answers listed described,
    kk_list_consumer_groups k LISTED_GROUP_TYPES = Ok answers ∧ listed_groups answers = Ok listed ∧
    kk_describe_consumer_groups k (split_empty_groups listed).1 = Ok described ∧
    (∀ g, g ∈ groups → is_internal_group (gs_id g) = false) ∧
    (∀ g, g ∈ groups → has_members (gs_state g) = false →
      (∃ l state, l ∈ listed ∧ lg_id l = gs_id g ∧ lg_state l = Some state ∧ has_members state = false) ∨
      (∃ d, (gs_id g, Ok d) ∈ described ∧ has_members (parse_state (cg_state d)) = false)) ∧
    (∀ l, l ∈ listed → is_internal_group (lg_id l) = false →
      (∃ g, g ∈ groups ∧ gs_id g = lg_id l) ∨
      needs_description l = true ∧ ∀ d, (lg_id l, d) ∈ described →
        (∃ description, d = Ok description ∧ eq_ignore_ascii_case (cg_state description) "dead" = true) ∨
        (∃ message, d = Err (Broker GroupIdNotFound message))).
Proof.
  intros Hkeys E. unfold client_groups in E.
  apply result_bind_ok in E as ([] & _ & E). apply result_bind_ok in E as (answers & Ha%asked_ok & E).
  apply result_bind_ok in E as (listed & Hl & E). destruct (split_empty_groups listed) as [active empty] eqn:Es.
  apply result_bind_ok in E as (described & Hd%asked_ok & E). injection E as <-.
  destruct (split_empty_spec _ _ _ Es) as [Hactive Hempty].
  assert (Hsnap : ∀ g, g ∈ snapshots_from_descriptions described → ∃ entry, entry ∈ described ∧
    is_internal_group entry.1 = false ∧ gs_id g = entry.1 ∧
    (gs_state g = UnknownState ∨ ∃ d, entry.2 = Ok d ∧ gs_state g = parse_state (cg_state d))).
  { intros g ([key d] & Hin & Hg)%list_elem_of_omap. exists (key, d). unfold snapshot_from_description in Hg. cbn [fst snd] in *.
    destruct (is_internal_group key); [done|]. split; [done|]. split; [done|]. destruct d as [d|[[] ?|?]].
    - destruct (eq_ignore_ascii_case _ _); [done|]. injection Hg as <-. cbn. split; [by eapply Hkeys|eauto].
    - injection Hg as <-. cbn. auto.
    - injection Hg as <-. cbn. auto.
    - done.
    - injection Hg as <-. cbn. auto.
    - injection Hg as <-. cbn. auto.
    - injection Hg as <-. cbn. auto.
    - injection Hg as <-. cbn. auto. }
  exists answers, listed, described. rewrite Es. do 3 (split; [done|]). split; [|split].
  - intros g [Hg|Hg]%elem_of_app.
    + apply Hempty in Hg as (l & _ & Hi & _ & ->). done.
    + apply Hsnap in Hg as (entry & _ & Hi & -> & _). done.
  - intros g [Hg|Hg]%elem_of_app Hm.
    + left. apply Hempty in Hg as (l & Hin & _ & Hn & ->). unfold needs_description in Hn.
      destruct (lg_state l) as [state|] eqn:Est; [|done]. exists l, state. by split_and!.
    + right. apply Hsnap in Hg as ([key d] & Hin & _ & -> & [Hu|(d' & Hd' & Hst)]); [by rewrite Hu in Hm|].
      cbn in *. subst d. exists d'. split; [done|]. congruence.
  - intros l Hin Hi. destruct (needs_description l) eqn:En.
    2: { left. exists (listed_snapshot (lg_id l) EmptyGroup). split; [|done]. apply elem_of_app. left. apply Hempty. eauto. }
    destruct (snapshot_shown l described) as [(g & Hg & Hid)|Hall]; [done|exact (Hkeys _ _ Hd)| |by right].
    left. exists g. split; [|done]. apply elem_of_app. by right.
Qed.

(** ** Offsets *)

Definition found_at (lookup : OffsetLookup) (topic : string) (partition : Z) : option Z :=
  found lookup !! topic ≫= λ partitions, partitions !! partition.

Lemma found_at_insert lookup topic partition offset topic' partition' :
  found_at (lookup_insert_ lookup topic partition offset) topic' partition' =
    if decide ((topic, partition) = (topic', partition')) then Some offset else found_at lookup topic' partition'.
Proof.
  unfold found_at, found, lookup_insert_. cbn [ol_found]. destruct (decide (topic = topic')) as [<-|Ht].
  - rewrite lookup_insert_eq. cbn [mbind option_bind]. destruct (decide (partition = partition')) as [<-|Hp].
    + by rewrite lookup_insert_eq, decide_True.
    + rewrite lookup_insert_ne, decide_False by congruence. destruct (ol_found lookup !! topic); [done|]. apply lookup_empty.
  - rewrite lookup_insert_ne, decide_False by congruence. done.
Qed.

Lemma log_offset_spec lookup topic partition answer :
  (∀ topic' partition', found_at (log_offset lookup (topic, partition, answer)) topic' partition' =
    match answer with
    | Ok offset => if decide ((topic, partition) = (topic', partition')) then Some offset else found_at lookup topic' partition'
    | Err _ => found_at lookup topic' partition'
    end) ∧
  (ol_failure (log_offset lookup (topic, partition, answer)) = None ↔
    ol_failure lookup = None ∧ ∀ error, answer = Err error → ∃ message, error = Broker UnknownTopicOrPartition message).
Proof.
  split.
  - intros t p. destruct answer as [offset|[[]|]]; [apply found_at_insert|done..].
  - destruct answer as [offset|error]; [naive_solver|].
    assert (Hfail : ∀ e, ol_failure (lookup_fail lookup e) ≠ None) by done.
    destruct error as [[]|]; cbn; split; try done; naive_solver.
Qed.

Lemma log_offsets_from_spec listed : ∀ lookup, NoDup listed.*1 →
  (∀ topic partition offset, found_at (foldl log_offset lookup listed) topic partition = Some offset ↔
    (topic, partition, Ok offset) ∈ listed ∨
    (∀ o, (topic, partition, Ok o) ∉ listed) ∧ found_at lookup topic partition = Some offset) ∧
  (ol_failure (foldl log_offset lookup listed) = None ↔
    ol_failure lookup = None ∧
    ∀ key error, (key, Err error) ∈ listed → ∃ message, error = Broker UnknownTopicOrPartition message).
Proof.
  induction listed as [|[[t p] answer] listed IH]; intros lookup Hnd; cbn [foldl].
  { split; [intros; set_solver|set_solver]. }
  apply NoDup_cons in Hnd as [Hn Hnd]. destruct (IH (log_offset lookup (t, p, answer)) Hnd) as [H1 H2].
  destruct (log_offset_spec lookup t p answer) as [L1 L2]. clear IH. cbn [fst] in Hn.
  assert (Hn' : ∀ r, (t, p, r) ∉ listed) by (intros r Hr; apply Hn, list_elem_of_fmap; by exists (t, p, r)).
  split.
  - intros t' p' o. rewrite H1, L1. destruct answer as [o'|error].
    + destruct (decide ((t, p) = (t', p'))) as [[= <- <-]|Hne].
      * split; [intros [?|[_ [= ->]]]; [by destruct (Hn' (Ok o))|left; left]|].
        intros [[[= ->]|?]%elem_of_cons|[Hno _]]; [right; split; [done|done]|by destruct (Hn' (Ok o))|].
        exfalso. apply (Hno o'). left.
      * setoid_rewrite elem_of_cons. naive_solver.
    + setoid_rewrite elem_of_cons. naive_solver.
  - rewrite H2, L2. setoid_rewrite elem_of_cons. naive_solver.
Qed.

Lemma elem_of_offset_specs topics spec topic partition spec' :
  ((topic, partition), spec') ∈ offset_specs topics spec ↔
  spec' = spec ∧ validate_topic_name topic = Ok () ∧ ∃ partitions, topics !! topic = Some partitions ∧ partition ∈ partitions.
Proof.
  rename topic into t, partition into p, spec' into s. unfold offset_specs. rewrite list_elem_of_In, in_concat. setoid_rewrite <- list_elem_of_In. split.
    - intros (l & ([t' ps] & -> & Hf)%list_elem_of_fmap & (p' & [= -> -> ->] & Hp)%list_elem_of_fmap).
      apply list_elem_of_In, List.filter_In in Hf as [Hf Hv]. apply list_elem_of_In, elem_of_map_to_list in Hf.
      unfold valid_topic in Hv. apply bool_decide_eq_true in Hv. eauto.
    - intros (-> & Hv & ps & Ht & Hp). exists ((λ partition, ((t, partition), spec)) <$> ps). split.
      + apply list_elem_of_fmap. exists (t, ps). split; [done|]. apply list_elem_of_In, List.filter_In.
        split; [by apply list_elem_of_In, elem_of_map_to_list|]. unfold valid_topic. by apply bool_decide_eq_true.
      + apply list_elem_of_fmap. by exists p.
Qed.

(** A lookup of first or last offsets asks for every partition of the topics
    whose names Kafka allows, finds exactly the offsets that Kafka answers, and is complete when
    it failed for none of the partitions but those it says it does not have. *)
Theorem list_offsets_spec (k : Kafka) (topics : gmap string (list Z)) (spec : OffsetSpec) (lookup : OffsetLookup) :
  (∀ specs listed, kk_list_offsets k specs = Ok listed → NoDup listed.*1) →
  client_list_offsets k topics spec = Ok lookup →
  ∃ listed,
    (offset_specs topics spec ≠ [] → kk_list_offsets k (offset_specs topics spec) = Ok listed) ∧
    (∀ topic partition spec', ((topic, partition), spec') ∈ offset_specs topics spec ↔
      spec' = spec ∧ validate_topic_name topic = Ok () ∧ ∃ partitions, topics !! topic = Some partitions ∧ partition ∈ partitions) ∧
    (∀ topic partition offset, found_at lookup topic partition = Some offset ↔ ((topic, partition), Ok offset) ∈ listed) ∧
    ((∃ all, complete lookup = Ok all) ↔
      ∀ key error, (key, Err error) ∈ listed → ∃ message, error = Broker UnknownTopicOrPartition message).
Proof.
  intros Hnd E. unfold client_list_offsets in E.
  pose proof (elem_of_offset_specs topics spec) as Hspecs.
  assert (Hcomplete : ∀ l : OffsetLookup, (∃ all, complete l = Ok all) ↔ ol_failure l = None).
  { intros l. unfold complete. destruct (ol_failure l); split; naive_solver. }
  case_bool_decide as Hempty.
  { injection E as <-. exists []. split; [done|]. split; [done|]. rewrite Hcomplete. cbn. unfold found_at, found. cbn.
    setoid_rewrite lookup_empty. cbn. split; [intros; split; [done|set_solver]|set_solver]. }
  apply result_bind_ok in E as ([] & _ & E). apply result_bind_ok in E as (listed & Hl%asked_ok & E). injection E as <-.
  exists listed. split; [done|]. split; [done|]. rewrite Hcomplete.
  assert (Hparts : ∀ t p r, (t, p, r) ∈ listed_offset_parts <$> listed ↔ ((t, p), r) ∈ listed).
  { intros t p r. rewrite list_elem_of_fmap. split; [|by exists ((t, p), r)].
    intros ([[t' p'] r'] & [= -> -> ->] & Hin). done. }
  assert (Hfst : (listed_offset_parts <$> listed).*1 = listed.*1).
  { rewrite <- list_fmap_compose. apply list_fmap_ext. by intros ? [[]] _. }
  destruct (log_offsets_from_spec (listed_offset_parts <$> listed) lookup_default) as [H1 H2]; [pose proof (Hnd _ _ Hl) as Hn; rewrite <- Hfst in Hn; exact Hn|].
  unfold log_offsets. split.
  - intros t p o. rewrite H1, Hparts. unfold found_at, found. cbn. rewrite lookup_empty. cbn. naive_solver.
  - rewrite H2. cbn. split.
    + intros [_ Hall] key error Hin. destruct key as [t p]. apply (Hall (t, p) error). by apply Hparts.
    + intros Hall. split; [done|]. intros [t p] error Hin. apply (Hall (t, p)), Hparts, Hin.
Qed.

(** ** Examples *)

#[local] Instance plain_krafka : KrafkaLib :=
  {| is_retriable _ := false; new_topic_check _ _ _ := Ok (); pbkdf2_hmac _ _ _ _ := "hash" |}.
#[local] Instance plain_texts : KrafkaTexts := {| error_code_debug _ := "code"; krafka_text _ := "failed" |}.
#[local] Existing Instance plain_schemreg.

(** A cluster with a group in use, a group without members, and one that is gone. *)
Definition a_kafka : Kafka := {|
  kk_transport := Ok ();
  kk_list_topics := Ok ();
  kk_fetch_metadata _ := Ok {| fm_brokers := []; fm_topics := [] |};
  kk_list_consumer_groups _ := Ok [(1%Z, Ok [
    {| gl_group_id := "used"; gl_state := Some "Stable" |}; {| gl_group_id := "idle"; gl_state := Some "Empty" |};
    {| gl_group_id := "gone"; gl_state := None |}])];
  kk_describe_consumer_groups _ := Ok [
    ("used", Ok {| cg_group_id := "used"; cg_state := "Stable"; cg_assignor := None; cg_members := [] |});
    ("gone", Err (Broker GroupIdNotFound "gone"))];
  kk_list_consumer_group_offsets _ _ := Ok [];
  kk_list_offsets _ := Ok [(("t", 0%Z), Ok 7%Z); (("t", 1%Z), Err (OtherKrafka "lost"))];
  kk_describe_configs _ := Ok [];
  kk_describe_log_dirs _ := Ok [];
  kk_describe_acls := Ok [];
  kk_describe_client_quotas := Ok [];
  kk_describe_scram := Ok [];
  kk_create_topics _ := Ok [Ok ()];
  kk_delete_topics _ := Ok [Ok ()];
  kk_incremental_alter_configs _ _ := Ok [Ok ()];
  kk_create_partitions _ _ := Ok [Ok ()];
  kk_delete_records _ := Ok [];
  kk_producer := Ok ();
  kk_send _ := Ok (0%Z, 0%Z);
  kk_alter_group_offsets _ _ := Ok [];
  kk_delete_groups _ := Ok [];
  kk_delete_group_offsets _ _ := Ok [];
  kk_create_acls _ := Ok [];
  kk_delete_acls _ := Ok [];
  kk_alter_quotas _ _ := Ok [];
  kk_upsert_scram _ := Ok [];
  kk_delete_scram _ _ := Ok [];
|}.

Lemma writes_accepted_witness : accepted a_kafka None "salt" (WDeleteTopic "t").
Proof. apply (writes_accepted a_kafka "k" None "salt" (WDeleteTopic "t") ()). reflexivity. Defined.

Lemma groups_spec_witness : ∃ groups, client_groups a_kafka = Ok groups ∧ gs_id <$> groups = ["idle"; "used"] ∧
  ∀ g, g ∈ groups → is_internal_group (gs_id g) = false.
Proof.
  eexists. split; [reflexivity|]. split; [reflexivity|].
  destruct (groups_spec a_kafka (match client_groups a_kafka with Ok groups => groups | Err _ => [] end))
    as (answers & listed & described & _ & _ & _ & H & _); [|reflexivity|exact H].
  intros asked_for described [= <-] key description Hin.
  apply elem_of_cons in Hin as [[= -> ->]|Hin]; [reflexivity|]. apply list_elem_of_singleton in Hin. discriminate Hin.
Defined.

Lemma list_offsets_spec_witness :
  ∃ lookup, client_list_offsets a_kafka {[ "t" := [0%Z; 1%Z] ]} Latest = Ok lookup ∧ found_at lookup "t" 0 = Some 7%Z ∧
    ¬ ∃ all, complete lookup = Ok all.
Proof.
  eexists. split; [vm_compute; reflexivity|].
  match goal with |- found_at ?l _ _ = _ ∧ _ =>
    destruct (list_offsets_spec a_kafka {[ "t" := [0%Z; 1%Z] ]} Latest l) as (listed & Hl & _ & Hfound & Hcomplete)
  end; [|vm_compute; reflexivity|].
  - intros specs listed [= <-]. apply (bool_decide_unpack (NoDup [("t", 0%Z); ("t", 1%Z)])). vm_compute. exact I.
  - specialize (Hl ltac:(vm_compute; discriminate)). injection Hl as <-. split.
    + apply Hfound. left.
    + rewrite Hcomplete. intros Hall. destruct (Hall ("t", 1%Z) (OtherKrafka "lost")) as [m Hm]; [right; left|discriminate Hm].
Defined.
