(* ===== verification/JsonText.v ===== *)
(** The text of a JSON value: what the development assumes of serde_json's compact printer
    ([JsonLines]), and a printer of that form which meets it, for the witnesses. *)

From Stdlib Require Import Ascii.
From S2P Require Import Prelude Text Utf8 Payload Untrusted.

(** What serde_json promises of its compact form: one line of printable text, whose escapes read. *)
Class JsonLines `{!PayloadLib} : Prop := {
  json_prints : ∀ value, ∃ line, json_to_string value = Some line ∧
    all_chars is_printable line = true ∧ is_Some (unescape line);
}.

(** ** A printer *)

(** The characters of a number. *)
Definition is_number_char (c : ascii) : bool :=
  is_digit c || existsb (Ascii.eqb c) ["-"; "+"; "."; "e"; "E"]%char.

(** A character of a string, escaped as serde_json does. *)
Definition escape_char (c : ascii) : string :=
  match c with
  | "034" => String backslash_ (String "034" EmptyString)
  | "092" => String backslash_ (String "092" EmptyString)
  | "008" => String backslash_ "b" | "009" => String backslash_ "t" | "010" => String backslash_ "n"
  | "012" => String backslash_ "f" | "013" => String backslash_ "r"
  | _ => if is_printable c then String c EmptyString
         else String backslash_ (String "u" (hex_digits 4 (N_of_ascii c) ""))
  end%char.

Fixpoint escape_text (s : string) : string :=
  match s with EmptyString => EmptyString | String c s => escape_char c +:+ escape_text s end.

Definition double_quote : string := String "034" EmptyString.
Definition quoted (s : string) : string := double_quote +:+ escape_text s +:+ double_quote.

Fixpoint compact (value : json) : string :=
  match value with
  | JNull => "null"
  | JBool b => if b then "true" else "false"
  | JNumber text => filter_chars is_number_char text
  | JString text => quoted text
  | JArray items => "[" +:+ String.concat "," (map compact items) +:+ "]"
  | JObject fields =>
      "{" +:+ String.concat "," (map (λ field, quoted field.1 +:+ ":" +:+ compact field.2) fields) +:+ "}"
  end.

(** A payload library with that printer, and no wire format. *)
Definition compact_payload_lib : PayloadLib :=
  {| decode_wire_prefix _ := None; json_to_string value := Some (compact value); json_display := compact |}.

(** ** It prints readable lines *)

(** A text that may stand before any readable line. *)
Definition readable (s : string) : Prop :=
  all_chars is_printable s = true ∧ ∀ rest, is_Some (unescape rest) → is_Some (unescape (s +:+ rest)).

Lemma readable_app s t : readable s → readable t → readable (s +:+ t).
Proof.
  intros [Hs Hs'] [Ht Ht']. split; [by rewrite all_chars_app, Hs, Ht|]. intros rest Hr.
  rewrite append_assoc. by apply Hs', Ht'.
Qed.

Lemma readable_plain s : all_chars is_printable s = true → contains_char backslash_ s = false → readable s.
Proof.
  intros Hp Hb. split; [done|]. intros rest [r Hr]. rewrite unescape_plain, Hr by done. by eexists.
Qed.

Lemma readable_escape_char c : readable (escape_char c).
Proof.
  split.
  - destruct c as [[] [] [] [] [] [] [] []]; by vm_compute.
  - intros rest [r Hr]. destruct c as [[] [] [] [] [] [] [] []]; cbv -[String.append unescape]; simpl;
      rewrite Hr; by eexists.
Qed.

Lemma readable_escape_text s : readable (escape_text s).
Proof.
  induction s as [|c s IH]; [by apply readable_plain|]. apply readable_app; [apply readable_escape_char|done].
Qed.

Lemma readable_quoted s : readable (quoted s).
Proof. repeat apply readable_app; try apply readable_escape_text; by apply readable_plain. Qed.

Lemma readable_number text : readable (filter_chars is_number_char text).
Proof.
  induction text as [|c text IH]; [by apply readable_plain|]. cbn [filter_chars].
  destruct (is_number_char c) eqn:E; [|done]. apply (readable_app (String c EmptyString)); [|done].
  apply readable_plain; destruct c as [[] [] [] [] [] [] [] []]; by vm_compute in E |- *.
Qed.

Lemma readable_concat pieces : Forall readable pieces → readable (String.concat "," pieces).
Proof.
  induction 1 as [|piece pieces Hp Hps IH]; [by apply readable_plain|].
  destruct pieces as [|next pieces]; [done|]. cbn [String.concat].
  apply readable_app; [done|]. apply readable_app; [by apply readable_plain|done].
Qed.

Lemma compact_readable value : readable (compact value).
Proof.
  induction value as [|b|text|text|items IH|fields IH] using json_nested_ind; cbn [compact].
  - by apply readable_plain.
  - destruct b; by apply readable_plain.
  - apply readable_number.
  - apply readable_quoted.
  - repeat apply readable_app; try (by apply readable_plain). apply readable_concat.
    induction IH; constructor; auto.
  - repeat apply readable_app; try (by apply readable_plain). apply readable_concat.
    induction IH; constructor; [|done]. apply readable_app; [apply readable_quoted|].
    apply readable_app; [by apply readable_plain|done].
Qed.

Lemma compact_json_lines : @JsonLines compact_payload_lib.
Proof.
  split. intros value. destruct (compact_readable value) as [Hp Hr]. exists (compact value).
  split; [done|]. split; [done|]. rewrite <- (append_nil_r (compact value)). apply Hr. by eexists.
Qed.
