(* ===== verification/Reply.v ===== *)
(** Replies of MCP tools ([src/app/mcp/reply.rs]): lists that are cut, the search for the most
    rows whose result fits a client's context, and the note on what was left out. *)

From Stdlib Require Import ZArith Lia.
From S2P Require Import Prelude Text Utf8 Payload Untrusted.

(** Most bytes of a result, and the rows of a list. *)
Definition RESULT_BYTES : nat := N.to_nat 24000.
Definition DEFAULT_ROWS : nat := 25.
Definition MAX_ROWS : nat := 100.

Definition print_nat (n : nat) : string := print_N (N.of_nat n).

(** ** Lists that can be cut *)

Record Rows (T : Type) : Type := { rw_name : string; rw_all : list T; rw_shown : nat }.
Arguments rw_name {T}.
Arguments rw_all {T}.
Arguments rw_shown {T}.

Definition Rows_new {T} (name : string) (all : list T) : Rows T :=
  {| rw_name := name; rw_all := all; rw_shown := length all |}.

Definition Rows_shown {T} (r : Rows T) : list T := list.take (rw_shown r) (rw_all r).

Definition Rows_show {T} (rows : nat) (r : Rows T) : Rows T :=
  {| rw_name := rw_name r; rw_all := rw_all r; rw_shown := rows `min` length (rw_all r) |}.

(** The trait [Cut], as the reference into a reply of type [R] that [Reply::lists] hands out. *)
Record Cut (R : Type) : Type := {
  cut_name : R → string;
  cut_total : R → nat;
  cut_shown_count : R → nat;
  cut_show : nat → R → R;
}.
Arguments cut_name {R}.
Arguments cut_total {R}.
Arguments cut_shown_count {R}.
Arguments cut_show {R}.

(** A field of rows as a [Cut]. *)
Definition Rows_cut {R T} (get : R → Rows T) (set_ : Rows T → R → R) : Cut R :=
  {| cut_name r := rw_name (get r);
     cut_total r := length (rw_all (get r));
     cut_shown_count r := rw_shown (get r);
     cut_show rows r := set_ (Rows_show rows (get r)) r |}.

Record Page (T : Type) : Type := { pg_rows : Rows T; pg_matching : nat; pg_narrow : option string }.
Arguments pg_rows {T}.
Arguments pg_matching {T}.
Arguments pg_narrow {T}.

Definition Page_new {T} (name : string) (rows : list T) (limit : option nat) (narrow : option string) : Page T :=
  {| pg_rows := Rows_new name (list.take (1 `max` (default DEFAULT_ROWS limit `min` MAX_ROWS)) rows);
     pg_matching := length rows;
     pg_narrow := narrow |}.

Definition Page_showing {T} (p : Page T) : string :=
  let shown := rw_shown (pg_rows p) in
  let cut_to_fit := bool_decide (shown < length (rw_all (pg_rows p))) in
  let counts := print_nat shown +:+ " of " +:+ print_nat (pg_matching p) in
  if bool_decide (shown = pg_matching p) then counts
  else
    match pg_narrow p, cut_to_fit with
    | Some narrow, true => counts +:+ ", as no more fit the result; " +:+ narrow +:+ " to see others"
    | None, true => counts +:+ ", as no more fit the result"
    | Some narrow, false => counts +:+ "; " +:+ narrow +:+ ", or raise `limit`, to see others"
    | None, false => counts +:+ "; raise `limit` to see others"
    end.

Definition Page_with_rows {T} (rows : Rows T) (p : Page T) : Page T :=
  {| pg_rows := rows; pg_matching := pg_matching p; pg_narrow := pg_narrow p |}.

(** [Lists for Page]. *)
Definition Page_cut {R T} (get : R → Page T) (set_ : Page T → R → R) : Cut R :=
  Rows_cut (pg_rows ∘ get) (λ rows r, set_ (Page_with_rows rows (get r)) r).

(** The first [most] rows of a list, and how many the rest holds. *)
Definition rows_prefix {T} (rows : list T) (most : nat) : list T * option nat :=
  (list.take (most `min` length rows) rows,
   if bool_decide (most < length rows) then Some (length rows - most) else None).

(** ** Serialization *)

(** What a value serializes as: a row, or the fields of a reply. *)
Class ToJson (T : Type) : Type := to_json : T → json.

#[export] Instance Rows_json {T} `{!ToJson T} : ToJson (Rows T) := λ r, JArray (to_json <$> Rows_shown r).

Definition Page_fields {T} `{!ToJson T} (p : Page T) : list (string * json) :=
  [(rw_name (pg_rows p), to_json (pg_rows p)); ("showing", JString (Page_showing p))].

(** rmcp's results: one of structured fields, one of text, and what serde_json writes of each,
    piece by piece. *)
Class ResultLib : Type := {
  CallToolResult : Type;
  structured : list (string * json) → CallToolResult;
  success_text : string → CallToolResult;
  error_text : string → CallToolResult;
  result_pieces : CallToolResult → list string;
}.

(** The trait [Reply], with the [Serialize] it asks for. *)
Class Reply (R : Type) : Type := {
  reply_fields : R → list (string * json);
  lists : R → list (Cut R);
  kept_whole : R → option string;
  inner_rows : R → nat;
  cap : nat → R → R;
  capped_note : nat → R → option string;
}.

Section reply.
Context `{!ResultLib}.

(** ** Budget *)

(** [ByteBudget]'s [write]. *)
Definition budget_write (left_ : nat) (bytes : string) : option nat :=
  if bool_decide (String.length bytes ≤ left_) then Some (left_ - String.length bytes) else None.

Fixpoint budget_writes (left_ : nat) (pieces : list string) : option nat :=
  match pieces with
  | [] => Some left_
  | bytes :: pieces => left_ ← budget_write left_ bytes; budget_writes left_ pieces
  end.

Definition fits (result : CallToolResult) : bool :=
  bool_decide (is_Some (budget_writes RESULT_BYTES (result_pieces result))).

(** ** Search *)

Section search.
Context {St : Type} (showing : nat → St → CallToolResult * St).

(** The loop of [search]: [fitting] rows fit or were not tried, [too_many] do not fit. [turns]
    counts the turns left. *)
Fixpoint search_loop (turns fitting too_many : nat) (best : option CallToolResult) (s : St)
    : option (option CallToolResult * St) :=
  if bool_decide (1 < too_many - fitting) then
    match turns with
    | O => None
    | S turns =>
        let rows := fitting + (too_many - fitting) / 2 in
        let '(result, s) := showing rows s in
        if fits result then search_loop turns rows too_many (Some result) s
        else search_loop turns fitting rows best s
    end
  else Some (best, s).

(** Halvings of [RESULT_BYTES] rows. *)
Definition SEARCH_TURNS : nat := 15.

Definition search (most : nat) (s : St) : option (CallToolResult * St) :=
  let most := most `min` RESULT_BYTES in
  let '(full, s) := showing most s in
  if fits full then Some (full, s)
  else
    '(best, s) ← search_loop SEARCH_TURNS 0 most None s;
    match best with
    | Some result => Some (result, s)
    | None => Some (showing 0 s)
    end.

End search.

(** ** Rendering *)

Section render.
Context {R : Type} `{!Reply R}.

(** What one list says it leaves out. *)
Definition left_out_note (several : bool) (c : Cut R) (r : R) : option string :=
  let left_out := cut_total c r - cut_shown_count c r in
  if bool_decide (0 < left_out) then
    Some (if several then print_nat left_out +:+ " of " +:+ print_nat (cut_total c r) +:+ " " +:+ cut_name c r
          else print_nat left_out +:+ " of " +:+ print_nat (cut_total c r))
  else None.

Fixpoint show_lists (rows : nat) (several : bool) (cuts : list (Cut R)) (r : R) : list string * R :=
  match cuts with
  | [] => ([], r)
  | c :: cuts =>
      let r := cut_show c rows r in
      let note := left_out_note several c r in
      let '(notes, r) := show_lists rows several cuts r in
      (option_list note ++ notes, r)
  end.

Definition join_text (separator : string) (pieces : list string) : string := String.concat separator pieces.

Definition truncated_note (rows : nat) (cut : list string) (r : R) : option string :=
  kept ← kept_whole r;
  let notes :=
    option_list (if bool_decide (cut ≠ []) then
                   Some (join_text " and " cut +:+ " left out to fit the result; " +:+ kept)
                 else None) ++
    option_list (capped_note rows r) in
  if bool_decide (notes ≠ []) then Some (join_text ". " notes) else None.

(** [Fitted]. *)
Definition fitted_fields (r : R) (truncated : option string) : list (string * json) :=
  reply_fields r ++ option_list ((λ note, ("truncated", JString note)) <$> truncated).

Definition render (r : R) (rows : nat) : CallToolResult * R :=
  let r := cap rows r in
  let cuts := lists r in
  let several := bool_decide (1 < length cuts) in
  let '(cut, r) := show_lists rows several cuts r in
  (structured (fitted_fields r (truncated_note rows cut r)), r).

Definition fit (r : R) : option CallToolResult :=
  let most := foldl Nat.max (inner_rows r) ((λ c, cut_total c r) <$> lists r) in
  fst <$> search (λ rows r, render r rows) most r.

End render.
End reply.

(** ** What a reply promises *)

(** A list shows as many rows as it is told, and leaves the other lists' counts alone; rendering
    at [b] rows does not depend on an earlier rendering. *)
Class ReplyLaws `{!ResultLib} (R : Type) `{!Reply R} : Prop := {
  cut_counts : ∀ r c, c ∈ lists r → ∀ rows r',
    cut_shown_count c (cut_show c rows r') = rows `min` cut_total c r' ∧
    cut_total c (cut_show c rows r') = cut_total c r' ∧ cut_name c (cut_show c rows r') = cut_name c r';
  cut_apart : ∀ r c c', c ∈ lists r → c' ∈ lists r → ∀ rows r',
    cut_total c (cut_show c' rows r') = cut_total c r' ∧ cut_name c (cut_show c' rows r') = cut_name c r';
  all_shown : ∀ rows r c, c ∈ lists (cap rows r) →
    cut_shown_count c (render r rows).2 = rows `min` cut_total c (cap rows r);
  rendered_again : ∀ a b r, render (render r a).2 b = render r b;
}.

Section laws.
Context `{!ResultLib}.

(** ** The budget and the search *)

Lemma budget_writes_spec left_ pieces :
  is_Some (budget_writes left_ pieces) ↔ (sum_list (String.length <$> pieces) ≤ left_)%nat.
Proof.
  revert left_. induction pieces as [|bytes pieces IH]; intros left_; [split; [simpl; lia|by eexists]|].
  rewrite fmap_cons. cbn [budget_writes foldr sum_list sum_list_with].
  unfold budget_write. case_bool_decide; simpl.
  - rewrite IH. split; lia.
  - split; [by intros [? ?]|lia].
Qed.

Lemma fits_spec result :
  fits result = true ↔ (sum_list (String.length <$> result_pieces result) ≤ RESULT_BYTES)%nat.
Proof. unfold fits. by rewrite bool_decide_eq_true, budget_writes_spec. Qed.

(** What a client's context holds of one result: 24000 bytes of what serde_json writes. *)
Definition result_size (result : CallToolResult) : nat := sum_list (String.length <$> result_pieces result).

Definition small_enough (result : CallToolResult) : Prop := (result_size result ≤ N.to_nat 24000)%nat.

Lemma fits_small result : fits result = true ↔ small_enough result.
Proof. apply fits_spec. Qed.

Lemma fits_not_small result : fits result = false ↔ ¬ small_enough result.
Proof. by rewrite <- fits_small, not_true_iff_false. Qed.

(** [SEARCH_TURNS] halvings are enough. *)
Lemma search_loop_ends {St : Type} (showing : nat → St → CallToolResult * St) turns fitting too_many best s :
  (too_many - fitting ≤ 2 ^ turns)%nat → is_Some (search_loop showing turns fitting too_many best s).
Proof.
  revert fitting too_many best s. induction turns as [|turns IH]; intros fitting too_many best s Hgap;
    cbn [search_loop]; (case_bool_decide as Hone; [|done]).
  { simpl in Hgap. lia. }
  rewrite Nat.pow_succ_r' in Hgap. pose proof (Nat.div_mod_eq (too_many - fitting) 2).
  pose proof (Nat.mod_upper_bound (too_many - fitting) 2).
  destruct (showing _ s) as [result s']. destruct (fits result); apply IH; lia.
Qed.

Lemma search_ends {St : Type} (showing : nat → St → CallToolResult * St) most s :
  is_Some (search showing most s).
Proof.
  unfold search. destruct (showing _ s) as [full s']. destruct (fits full); [done|].
  destruct (search_loop_ends showing SEARCH_TURNS 0 (most `min` RESULT_BYTES) None s') as [[best s''] ->].
  { transitivity RESULT_BYTES; [lia|]. apply Nat.leb_le. by vm_compute. }
  by destruct best.
Qed.

Section search_laws.
Context {St : Type} (showing : nat → St → CallToolResult * St).
Context (ok : St → Prop) (view : nat → CallToolResult).
Hypothesis showing_views : ∀ rows s, ok s → (showing rows s).1 = view rows ∧ ok (showing rows s).2.

Definition loop_ok (fitting : nat) (best : option CallToolResult) : Prop :=
  match best with
  | None => fitting = 0
  | Some result => result = view fitting ∧ fits result = true
  end.

Lemma search_loop_spec turns fitting too_many best s :
  (too_many - fitting ≤ 2 ^ turns)%nat → fits (view too_many) = false → loop_ok fitting best → ok s →
  ∃ fitting' best' s',
    search_loop showing turns fitting too_many best s = Some (best', s') ∧
    (fitting ≤ fitting' ≤ Nat.max fitting (too_many - 1))%nat ∧ loop_ok fitting' best' ∧ ok s' ∧
    (too_many ≤ fitting ∨ fits (view (S fitting')) = false).
Proof.
  revert fitting too_many best s. induction turns as [|turns IH]; intros fitting too_many best s Hgap Hmany Hbest Hs.
  - cbn [search_loop]. simpl in Hgap. rewrite bool_decide_false by lia.
    exists fitting, best, s. do 4 (split; [done || lia|]).
    destruct (decide (too_many ≤ fitting)); [by left|]. right. by replace (S fitting) with too_many by lia.
  - cbn [search_loop]. case_bool_decide as Hone.
    + assert (fitting < fitting + (too_many - fitting) / 2 < too_many)%nat as [Hlo Hhi].
      { pose proof (Nat.div_lt (too_many - fitting) 2 ltac:(lia) ltac:(lia)).
        pose proof (Nat.div_le_lower_bound (too_many - fitting) 2 1 ltac:(lia) ltac:(lia)). lia. }
      assert (too_many - (fitting + (too_many - fitting) / 2) ≤ 2 ^ turns ∧
              (too_many - fitting) / 2 ≤ 2 ^ turns)%nat as [Hup Hdown].
      { rewrite Nat.pow_succ_r' in Hgap. pose proof (Nat.div_mod_eq (too_many - fitting) 2).
        pose proof (Nat.mod_upper_bound (too_many - fitting) 2). lia. }
      set (rows := (fitting + (too_many - fitting) / 2)%nat) in *.
      destruct (showing_views rows s Hs) as [Hview Hs']. destruct (showing rows s) as [result s'].
      simpl in Hview, Hs'. subst result. destruct (fits (view rows)) eqn:Hfit.
      * destruct (IH rows too_many (Some (view rows)) s') as (f & b & s'' & -> & ? & ? & ? & Hlast);
          [done|done|by split|done|].
        exists f, b, s''. split; [done|]. split; [lia|]. do 2 (split; [done|]).
        right. destruct Hlast; [lia|done].
      * destruct (IH fitting rows best s') as (f & b & s'' & -> & ? & ? & ? & Hlast);
          [subst rows; lia|done|done|done|].
        exists f, b, s''. split; [done|]. split; [lia|]. do 2 (split; [done|]).
        right. destruct Hlast; [lia|done].
    + exists fitting, best, s. do 4 (split; [done || lia|]).
      destruct (decide (too_many ≤ fitting)); [by left|]. right. by replace (S fitting) with too_many by lia.
Qed.

(** [SEARCH_TURNS] halvings are enough, and the search ends at a number of rows whose result fits
    while the next does not. *)
Lemma search_finds most s :
  ok s →
  ∃ rows s',
    search showing most s = Some (view rows, s') ∧ (rows ≤ most `min` RESULT_BYTES)%nat ∧
    (rows = 0 ∨ fits (view rows) = true) ∧
    (rows = most `min` RESULT_BYTES ∨ fits (view (S rows)) = false).
Proof.
  intros Hs. unfold search. set (top := most `min` RESULT_BYTES).
  assert (top ≤ 2 ^ SEARCH_TURNS)%nat as Htop.
  { transitivity RESULT_BYTES; [unfold top; lia|]. apply Nat.leb_le. by vm_compute. }
  destruct (showing_views top s Hs) as [Hview Hs']. destruct (showing top s) as [full s'].
  simpl in Hview, Hs'. subst full. destruct (fits (view top)) eqn:Hfit.
  { exists top, s'. auto. }
  destruct (search_loop_spec SEARCH_TURNS 0 top None s') as (f & b & s'' & -> & Hf & Hb & Hs'' & Hlast);
    [lia|done|done|done|].
  simpl. destruct b as [result|].
  - destruct Hb as [-> Hfits]. exists f, s''. do 2 (split; [done || lia|]). split; [by right|].
    destruct Hlast; [left; lia|by right].
  - simpl in Hb. subst f. destruct (showing_views 0 s'' Hs'') as [Hv _].
    destruct (showing 0 s'') as [r0 s0]. simpl in Hv. subst r0.
    exists 0%nat, s0. split; [done|]. split; [lia|]. split; [by left|].
    destruct Hlast; [left; lia|by right].
Qed.

End search_laws.

(** ** What is left out *)

Section rendered.
Context {R : Type} `{!Reply R} `{!ReplyLaws R}.

#[local] Definition note_of (rows : nat) (several : bool) (r : R) (c : Cut R) : option string :=
  if bool_decide (rows < cut_total c r) then
    Some (if several then
            print_nat (cut_total c r - rows) +:+ " of " +:+ print_nat (cut_total c r) +:+ " " +:+ cut_name c r
          else print_nat (cut_total c r - rows) +:+ " of " +:+ print_nat (cut_total c r))
  else None.

(** Each list left short is named with how many of its rows are left out. *)
Lemma show_lists_notes rows several r0 cuts r :
  (∀ c, c ∈ cuts → c ∈ lists r0) → (show_lists rows several cuts r).1 = omap (note_of rows several r) cuts.
Proof.
  revert r. induction cuts as [|c cuts IH]; intros r Hin; [done|]. cbn [show_lists].
  assert (c ∈ lists r0) as Hc by (apply Hin; left).
  destruct (show_lists rows several cuts (cut_show c rows r)) as [notes r'] eqn:Hrest.
  specialize (IH (cut_show c rows r) (λ c' H, Hin c' (list_elem_of_further _ _ _ H))).
  rewrite Hrest in IH. simpl in IH. subst notes. cbn [fst omap list_omap].
  assert (omap (note_of rows several (cut_show c rows r)) cuts = omap (note_of rows several r) cuts) as ->.
  { apply list_omap_ext, Forall2_same_length_lookup_2; [done|]. intros i x y Hx Hy. simplify_eq.
    apply list_elem_of_lookup_2 in Hx. unfold note_of.
    by destruct (cut_apart r0 x c (Hin x (list_elem_of_further _ _ _ Hx)) Hc rows r) as [-> ->]. }
  unfold left_out_note, note_of. destruct (cut_counts r0 c Hc rows r) as (-> & -> & ->).
  destruct (decide (rows < cut_total c r)).
  - rewrite !bool_decide_true, Nat.min_l by lia. done.
  - rewrite !bool_decide_false by lia. done.
Qed.

Lemma omap_nil_iff {A B} (f : A → option B) l : omap f l = [] ↔ Forall (λ x, f x = None) l.
Proof.
  induction l as [|x l IH]; [done|]. cbn [omap list_omap]. rewrite Forall_cons, <- IH.
  destruct (f x); naive_solver.
Qed.

(** The note is there exactly when something is left out. *)
Lemma truncated_note_spec rows cut r kept :
  kept_whole r = Some kept → truncated_note rows cut r = None ↔ cut = [] ∧ capped_note rows r = None.
Proof.
  intros Hkept. unfold truncated_note. rewrite Hkept. cbn [mbind option_bind].
  destruct cut as [|n cut], (capped_note rows r) as [note|]; simpl;
    repeat case_bool_decide; simpl in *; naive_solver.
Qed.

(** C36 (functional): a tool's reply is rendered at a number of rows whose result is at most 24000
    bytes, or at none; one row more is past that or shows nothing more, and where more rows never
    make a smaller result, so is any larger number. Each list shows that many of its rows. A reply
    that says what it keeps whole carries a note exactly when something is left out; the others,
    which count what they show, carry none. *)
Theorem fit_spec reply :
  let most := foldl Nat.max (inner_rows reply) ((λ c, cut_total c reply) <$> lists reply) `min` N.to_nat 24000 in
  ∃ rows note,
    let shown := (render reply rows).2 in
    fit reply = Some (structured (fitted_fields shown note)) ∧ (rows ≤ most)%nat ∧
    (rows = 0 ∨ small_enough (structured (fitted_fields shown note))) ∧
    (rows = most ∨ ¬ small_enough (render reply (S rows)).1) ∧
    ((∀ a b, (a ≤ b)%nat → (result_size (render reply a).1 ≤ result_size (render reply b).1)%nat) →
     ∀ k, (rows < k ≤ most)%nat → ¬ small_enough (render reply k).1) ∧
    (∀ c, c ∈ lists (cap rows reply) → cut_shown_count c shown = rows `min` cut_total c (cap rows reply)) ∧
    match kept_whole shown with
    | Some _ =>
        note = None ↔
        Forall (λ c, (cut_total c (cap rows reply) ≤ rows)%nat) (lists (cap rows reply)) ∧
        capped_note rows shown = None
    | None => note = None
    end.
Proof.
  intros most.
  destruct (search_finds (λ rows r, render r rows) (λ r, r = reply ∨ ∃ a, r = (render reply a).2)
    (λ rows, (render reply rows).1)) with (most := foldl Nat.max (inner_rows reply)
      ((λ c, cut_total c reply) <$> lists reply)) (s := reply) as (rows & s & Hfit & Hle & Hfits & Hmore);
    [|by left|].
  { intros rows r [->|[a ->]]; [eauto|]. rewrite rendered_again. eauto. }
  change RESULT_BYTES with (N.to_nat 24000) in Hle, Hmore. fold most in Hle, Hmore.
  rewrite fits_small in Hfits. rewrite fits_not_small in Hmore.
  set (cuts := show_lists rows (bool_decide (1 < length (lists (cap rows reply)))) (lists (cap rows reply)) (cap rows reply)).
  assert (render reply rows = (structured (fitted_fields cuts.2 (truncated_note rows cuts.1 cuts.2)), cuts.2)) as Hr
    by (unfold render; fold cuts; by destruct cuts).
  exists rows, (truncated_note rows cuts.1 cuts.2). cbn zeta. rewrite Hr in *. cbn [fst snd] in *.
  split; [unfold fit; by rewrite Hfit|]. split; [done|]. split; [done|]. split; [done|].
  split; [|split].
  - intros Hmono k [Hk Htop] Hsmall. destruct Hmore as [Hmore|Hmore]; [lia|].
    apply Hmore. unfold small_enough in *. specialize (Hmono (S rows) k ltac:(lia)). lia.
  - intros c Hc. pose proof (all_shown rows reply c Hc) as Hall. by rewrite Hr in Hall.
  - destruct (kept_whole cuts.2) as [kept|] eqn:Hkept; [|unfold truncated_note; by rewrite Hkept].
    rewrite (truncated_note_spec _ _ _ _ Hkept). unfold cuts at 1.
    rewrite (show_lists_notes _ _ (cap rows reply)) by done.
    rewrite omap_nil_iff, !Forall_forall.
    apply and_iff_compat_r, forall_proper. intros c. apply forall_proper. intros _.
    unfold note_of. case_bool_decide; split; (done || lia).
Qed.

End rendered.
End laws.

(** ** A page *)

(** What a page holds of its rows, and the counts it tells. *)
Lemma Page_new_spec {T} name (rows : list T) limit narrow :
  let page := Page_new name rows limit narrow in
  let most := 1 `max` (default DEFAULT_ROWS limit `min` MAX_ROWS) in
  rw_all (pg_rows page) = list.take most rows ∧ pg_matching page = length rows ∧
  (1 ≤ most ≤ MAX_ROWS)%nat ∧
  (length rows ≤ most → Page_showing page = print_nat (length rows) +:+ " of " +:+ print_nat (length rows)).
Proof.
  intros page most. do 2 (split; [done|]). split; [unfold most, MAX_ROWS; lia|].
  intros H. unfold Page_showing, page, Page_new. cbn [pg_rows pg_matching rw_shown Rows_new rw_all].
  fold most. by rewrite take_ge, bool_decide_true.
Qed.

(** A reply of one page, and results whose size is that of their keys and texts. *)
Definition json_size (j : json) : string := match j with JString t => t | _ => EmptyString end.

Definition sample_pieces (fields : list (string * json)) : list string :=
  fields ≫= λ '(key, value), key :: match value with JArray items => json_size <$> items | _ => [json_size value] end.

#[local] Instance sample_result_lib : ResultLib :=
  {| CallToolResult := list (string * json); structured fields := fields;
     success_text text := [("text", JString text)]; error_text text := [("error", JString text)];
     result_pieces := sample_pieces |}.

Record Probe : Type := { pr_page : Page string }.

#[local] Instance string_json : ToJson string := JString.

#[local] Instance Probe_reply : Reply Probe :=
  {| reply_fields p := Page_fields (pr_page p);
     lists _ := [Page_cut pr_page (λ page _, {| pr_page := page |})];
     kept_whole _ := Some "every row counts";
     inner_rows _ := 0;
     cap _ p := p;
     capped_note _ _ := None |}.

#[local] Instance Probe_laws : ReplyLaws Probe.
Proof.
  split.
  - intros r c ->%list_elem_of_singleton rows r'. done.
  - intros r c c' ->%list_elem_of_singleton ->%list_elem_of_singleton rows r'. done.
  - intros rows r c ->%list_elem_of_singleton. done.
  - done.
Qed.

(** Fifty rows of a thousand bytes, of which all, but not so many, were asked for. *)
Definition long_row : string := concat_strings (repeat "0123456789" 100).
Definition a_probe : Probe := {| pr_page := Page_new "rows" (repeat long_row 50) (Some 100) None |}.

Example a_probe_cut :
  (lookup "showing" ∘ list_to_map (M := gmap string json)) <$> fit a_probe =
    Some (Some (JString "23 of 50, as no more fit the result")).
Proof. by vm_compute. Qed.

Example fit_spec_witness :
  ∃ rows note,
    fit a_probe = Some (structured (fitted_fields (render a_probe rows).2 note)) ∧
    (rows = 0 ∨ small_enough (structured (fitted_fields (render a_probe rows).2 note))) ∧
    (rows = 50 ∨ ¬ small_enough (render a_probe (S rows)).1) ∧
    (note = None → (50 ≤ rows)%nat).
Proof.
  destruct (fit_spec a_probe) as (rows & note & Hfit & _ & Hfits & Hmore & _ & _ & Hnote).
  exists rows, note. split; [exact Hfit|]. split; [exact Hfits|].
  split; [destruct Hmore as [->|Hmore]; [left; by vm_compute|by right]|].
  intros H. apply Hnote in H as [H _]. apply Forall_cons in H as [H _]. exact H.
Defined.
