(* ===== verification/Login.v ===== *)
(** Signing in and staying so ([src/app/auth.rs], [src/app/auth/backend.rs], [login.rs], [oidc.rs]
    and [store.rs]): the cache of users, the store of sessions, the guard a stream asks before it
    sends, and the login through an OpenID provider. Times are nanoseconds. *)

From Stdlib Require Import ZArith Lia Ascii.
From S2P Require Import Prelude Text Payload Access.

Definition SECOND : Z := 1000000000.

(** [Timestamp::as_second]. *)
Definition as_second (now : Z) : Z := Z.quot now SECOND.

Definition i64_saturating_sub (a b : Z) : Z := Z.max i64_min (Z.min i64_max (a - b)).

(** ** moka caches whose entries expire *)

(** moka's [Expiry]: how long an entry lives, as it is created and as it is replaced. *)
Record Expiry (K V : Type) : Type := {
  expire_after_create : K → V → Z → option Z;
  expire_after_update : K → V → Z → option Z → option Z;
}.
Arguments expire_after_create {K V}.
Arguments expire_after_update {K V}.

Class ExpiryCacheLib : Type := {
  ExpiryCache : Type → Type → Type;
  ec_new : ∀ {K V}, Expiry K V → ExpiryCache K V;
  ec_get : ∀ {K V} `{EqDecision K}, ExpiryCache K V → Z → K → option V;
  ec_insert : ∀ {K V} `{EqDecision K}, ExpiryCache K V → Z → K → V → ExpiryCache K V;
  ec_invalidate : ∀ {K V} `{EqDecision K}, ExpiryCache K V → K → ExpiryCache K V;
}.

(** What moka's documentation promises: an entry read is the last one inserted under its key, was
    not invalidated since, and has not lived as long as its [Expiry] gave it. *)
Class ExpiryCacheLaws `{!ExpiryCacheLib} : Type := {
  ec_expiry : ∀ {K V}, ExpiryCache K V → Expiry K V;
  ec_entry : ∀ {K V}, ExpiryCache K V → K → V → Z → option Z → Prop;
  ec_expiry_new : ∀ K V (e : Expiry K V), ec_expiry (ec_new e) = e;
  ec_entry_new : ∀ K V (e : Expiry K V) key value moment lives, ¬ ec_entry (ec_new e) key value moment lives;
  ec_expiry_insert : ∀ K V `{EqDecision K} (c : ExpiryCache K V) now key value,
    ec_expiry (ec_insert c now key value) = ec_expiry c;
  ec_entry_insert : ∀ K V `{EqDecision K} (c : ExpiryCache K V) now key value key' value' moment lives,
    ec_entry (ec_insert c now key value) key' value' moment lives →
    (key' = key ∧ value' = value ∧ moment = now ∧
     (lives = expire_after_create (ec_expiry c) key value now ∨
      ∃ left_, lives = expire_after_update (ec_expiry c) key value now left_)) ∨
    (key' ≠ key ∧ ec_entry c key' value' moment lives);
  ec_expiry_invalidate : ∀ K V `{EqDecision K} (c : ExpiryCache K V) key,
    ec_expiry (ec_invalidate c key) = ec_expiry c;
  ec_entry_invalidate : ∀ K V `{EqDecision K} (c : ExpiryCache K V) key key' value moment lives,
    ec_entry (ec_invalidate c key) key' value moment lives → key' ≠ key ∧ ec_entry c key' value moment lives;
  ec_get_entry : ∀ K V `{EqDecision K} (c : ExpiryCache K V) now key value, ec_get c now key = Some value →
    ∃ moment lives, ec_entry c key value moment lives ∧
      ∀ span, lives = Some span → (now < moment + span)%Z;
}.

(** ** Users *)

Definition SESSION_COOKIE_KEY_PREFIX : string := "klens-session-v1".

Record SessionUser : Type := {
  su_sub : string;
  su_email : option string;
  su_name : option string;
  su_exp : Z;
  su_groups : list string;
  su_auth_hash : string;
}.

(** The text a user's hash is taken of. *)
Definition session_text (sub : string) (groups : list string) (exp : Z) : string :=
  SESSION_COOKIE_KEY_PREFIX +:+ "|" +:+ sub +:+ "|" +:+ print_Z exp +:+ "|" +:+ join "000"%char groups.

(** SHA-256, and what [openidconnect], [base64] and [serde_json] are asked during a login. *)
Class OidcLib : Type := {
  sha256 : string → string;
  TokenResponse : Type;
  IdToken : Type;
  Claims : Type;
  (** [exchange_code] and its request, of a code and a PKCE verifier. *)
  exchange_code : string → string → result string TokenResponse;
  id_token : TokenResponse → option IdToken;
  (** The claims, once the token's signature, issuer, audience, expiry and nonce are verified. *)
  verified_claims : IdToken → string → result string Claims;
  claims_access_token_hash : Claims → option string;
  signing_alg : IdToken → result string string;
  signing_key : IdToken → result string string;
  (** [AccessTokenHash::from_token]. *)
  hash_of_token : TokenResponse → string → string → result string string;
  claims_subject : Claims → string;
  claims_email : Claims → option string;
  (** The name without a language, and every name. *)
  claims_name : Claims → option (option string * list string);
  claims_expiration : Claims → Z;
  id_token_text : IdToken → string;
  base64_url_no_pad : string → result string string;
  base64_url : string → result string string;
  json_from_slice : string → result string json;
}.

Section login.
Context `{!ExpiryCacheLib, !OidcLib}.

Definition SessionUser_new (sub : string) (email name : option string) (groups : list string) (exp : Z)
    : SessionUser :=
  {| su_sub := sub; su_email := email; su_name := name; su_exp := exp; su_groups := groups;
     su_auth_hash := sha256 (session_text sub groups exp) |}.

(** [UntilExp]: a user is forgotten once its token expires. *)
Definition user_left (_ : string) (user : SessionUser) (now : Z) : option Z :=
  Some (Z.max 0 (i64_saturating_sub (su_exp user) (as_second now)) * SECOND)%Z.

Definition UntilExp : Expiry string SessionUser :=
  {| expire_after_create := user_left;
     expire_after_update subject user updated_at _ := user_left subject user updated_at |}.

Definition users_new : ExpiryCache string SessionUser := ec_new UntilExp.

(** ** Sessions *)

(** tower-sessions' record of a session, named by a random id. *)
Record SessionRecord : Type := { sr_id : Z; sr_data : list (string * json); sr_expiry_date : Z }.

Definition record_left (_ : Z) (record : SessionRecord) (now : Z) : option Z :=
  Some (Z.max 0 (sr_expiry_date record - now))%Z.

Definition UntilExpiry : Expiry Z SessionRecord :=
  {| expire_after_create := record_left;
     expire_after_update id record updated_at _ := record_left id record updated_at |}.

Definition ExpiringStore : Type := ExpiryCache Z SessionRecord.

Definition ExpiringStore_default : ExpiringStore := ec_new UntilExpiry.

Definition store_contains (s : ExpiringStore) (now : Z) (id : Z) : bool :=
  bool_decide (is_Some (ec_get s now id)).

(** [create], with the ids it draws; [None] when they run out. *)
Fixpoint store_create (s : ExpiringStore) (now : Z) (record : SessionRecord) (draws : list Z)
    : option (ExpiringStore * SessionRecord) :=
  match ec_get s now (sr_id record) with
  | None => Some (ec_insert s now (sr_id record) record, record)
  | Some _ =>
      match draws with
      | [] => None
      | id :: draws =>
          store_create s now {| sr_id := id; sr_data := sr_data record; sr_expiry_date := sr_expiry_date record |} draws
      end
  end.

Definition store_save (s : ExpiringStore) (now : Z) (record : SessionRecord) : ExpiringStore :=
  ec_insert s now (sr_id record) record.
Definition store_load (s : ExpiringStore) (now : Z) (id : Z) : option SessionRecord := ec_get s now id.
Definition store_delete (s : ExpiringStore) (id : Z) : ExpiringStore := ec_invalidate s id.

(** ** State and guards *)

(** The backend without its provider is one with authentication off. *)
Record AuthState : Type := {
  au_enabled : bool;
  au_users : ExpiryCache string SessionUser;
  au_policy : AccessPolicy;
  au_sessions : ExpiringStore;
}.

Definition AuthState_disabled : AuthState :=
  {| au_enabled := false; au_users := users_new; au_policy := Open; au_sessions := ExpiringStore_default |}.

Definition AuthState_enabled (roles : option (list (string * Role))) : AuthState :=
  {| au_enabled := true; au_users := users_new; au_policy := from_roles roles;
     au_sessions := ExpiringStore_default |}.

Definition remember (a : AuthState) (now : Z) (user : SessionUser) : AuthState :=
  {| au_enabled := au_enabled a; au_users := ec_insert (au_users a) now (su_sub user) user;
     au_policy := au_policy a; au_sessions := au_sessions a |}.

Definition with_sessions (a : AuthState) (sessions : ExpiringStore) : AuthState :=
  {| au_enabled := au_enabled a; au_users := au_users a; au_policy := au_policy a; au_sessions := sessions |}.

Definition with_live_user {T} (a : AuthState) (now : Z) (subject : string) (read : SessionUser → T) : option T :=
  read <$> ec_get (au_users a) now subject.

Definition live_user (a : AuthState) (now : Z) (subject : string) : option SessionUser :=
  with_live_user a now subject id.

Definition access_from_user (a : AuthState) (user : SessionUser) : option EffectiveAccess :=
  policy_admit (au_policy a) {| id_groups := su_groups user |}.

(** What axum-login and tower-sessions make of a request's cookie. *)
Record AuthSession : Type := { as_user : option SessionUser; as_id : option Z }.

Definition access_from_session (a : AuthState) (session : AuthSession) : option EffectiveAccess :=
  if negb (au_enabled a) then Some Unrestricted
  else user ← as_user session; access_from_user a user.

Inductive Holder : Type :=
  | Nobody
  | SessionHolder (id : Z) (subject : string)
  | Fixed (access : EffectiveAccess).

Definition guard (a : AuthState) (session : AuthSession) : Holder :=
  match as_user session, as_id session with
  | Some user, Some id => if au_enabled a then SessionHolder id (su_sub user) else Nobody
  | _, _ => Nobody
  end.

(** [SessionGuard::revalidate], against the caches as they are by now. *)
Definition revalidate (a : AuthState) (now : Z) (holder : Holder) : option EffectiveAccess :=
  match holder with
  | Nobody => if negb (au_enabled a) then Some Unrestricted else None
  | SessionHolder id subject =>
      if negb (store_contains (au_sessions a) now id) then None
      else mjoin (with_live_user a now subject (access_from_user a))
  | Fixed access => Some access
  end.

Definition guard_subject (holder : Holder) : option string :=
  match holder with SessionHolder _ subject => Some subject | _ => None end.

(** [require_session]: the access and guard a request goes on with, or 401. *)
Definition require_session (a : AuthState) (session : AuthSession) : option (EffectiveAccess * Holder) :=
  access ← access_from_session a session; Some (access, guard a session).

(** [me]: the user the browser is told of. *)
Definition me (a : AuthState) (session : AuthSession) : bool * option SessionUser :=
  (au_enabled a, user ← as_user session; _ ← access_from_user a user; Some user).

(** ** The login cookie *)

Record LoginPending : Type := {
  lp_state : string;
  lp_nonce : string;
  lp_pkce_verifier : string;
  lp_expires_at : Z;
}.

(** [Timestamp::MAX]. *)
Definition TIMESTAMP_MAX : Z := 253402207200999999999.

(** The login a cookie holds until the provider sends the browser back. *)
Definition login_start (timeout now : Z) (state nonce pkce_verifier : string) : LoginPending :=
  {| lp_state := state; lp_nonce := nonce; lp_pkce_verifier := pkce_verifier;
     lp_expires_at := if (now + timeout <=? TIMESTAMP_MAX)%Z then (now + timeout)%Z else TIMESTAMP_MAX |}.

(** [finish], of the login in the cookie when klens signed it. *)
Definition login_finish (signed : option LoginPending) (now : Z) : option LoginPending :=
  pending ← signed;
  if (now <? lp_expires_at pending)%Z then Some pending else None.

(** ** The provider *)

Inductive OidcError : Set :=
  | Exchange (message : string) | NoIdToken | InvalidIdToken (message : string) | Expired.

Definition payload_of_token (id_token : string) : result OidcError string :=
  ok_or (split dot id_token !! 1) (InvalidIdToken "it has no payload").

Definition groups_from_id_token (token claim : string) : result OidcError (list string) :=
  payload ← payload_of_token token;
  decoded ← map_err InvalidIdToken
    (match base64_url_no_pad payload with Ok decoded => Ok decoded | Err _ => base64_url payload end);
  value ← map_err InvalidIdToken (json_from_slice decoded);
  Ok (groups_from_json value claim).

(** What is kept of [Oidc]. *)
Record OidcFlow : Type := { of_groups_claim : string; of_max_session_secs : Z }.

(** [Oidc::discover]'s share of it, of a session length in seconds. *)
Definition OidcFlow_of (groups_claim : string) (max_session : Z) : OidcFlow :=
  {| of_groups_claim := groups_claim; of_max_session_secs := Z.min i64_max max_session |}.

Definition check_access_token (response : TokenResponse) (token : IdToken) (claims : Claims)
    : result OidcError () :=
  match claims_access_token_hash claims with
  | None => Ok ()
  | Some expected_hash =>
      alg ← map_err InvalidIdToken (signing_alg token);
      key ← map_err InvalidIdToken (signing_key token);
      actual_hash ← map_err InvalidIdToken (hash_of_token response alg key);
      if String.eqb actual_hash expected_hash then Ok () else Err (InvalidIdToken "access token hash mismatch")
  end.

Definition oidc_authenticate (flow : OidcFlow) (now : Z) (code pkce_verifier nonce : string)
    : result OidcError SessionUser :=
  response ← map_err Exchange (exchange_code code pkce_verifier);
  token ← ok_or (id_token response) NoIdToken;
  claims ← map_err InvalidIdToken (verified_claims token nonce);
  _ ← check_access_token response token claims;
  let seconds := as_second now in
  let exp := Z.min (claims_expiration claims) (i64_saturating_add seconds (of_max_session_secs flow)) in
  if (exp <=? seconds)%Z then Err Expired
  else
    let name := '(plain, every) ← claims_name claims;
                match plain with Some name => Some name | None => head every end in
    groups ← groups_from_id_token (id_token_text token) (of_groups_claim flow);
    Ok (SessionUser_new (claims_subject claims) (claims_email claims) name groups exp).

(** ** The callback *)

Inductive Response : Set := StatusNotFound | StatusInternalError | RedirectTo (location : string).

Inductive LoginFail : Set := FailAuth | FailForbidden.

(** What the callback asks of the session layer, in order. *)
Inductive SessionCall : Type :=
  | SetExpiry (ttl : Z)
  | Remember (user : SessionUser)
  | LogIn (user : SessionUser)
  | LogOut.

Record CallbackQuery : Set := { cq_code : option string; cq_state : option string; cq_error : option string }.

(** Whether the session layer's [login] and [logout] succeed. *)
Record SessionLayer : Set := { sl_logs_in : bool; sl_logs_out : bool }.

Definition login_error (layer : SessionLayer) (fail : LoginFail) : Response * list SessionCall :=
  (if sl_logs_out layer then
     RedirectTo match fail with FailAuth => "/login?error=auth" | FailForbidden => "/login?error=forbidden" end
   else StatusInternalError, [LogOut]).

(** [AuthnBackend::authenticate]: an error is a refusal. *)
Definition backend_authenticate (flow : OidcFlow) (now : Z) (code pkce_verifier nonce : string)
    : option SessionUser := result_ok (oidc_authenticate flow now code pkce_verifier nonce).

Definition establish (a : AuthState) (layer : SessionLayer) (now : Z) (user : SessionUser)
    : Response * list SessionCall :=
  match access_from_user a user with
  | None => login_error layer FailForbidden
  | Some _ =>
      let ttl := Z.max 1 (i64_sub (su_exp user) (as_second now)) in
      (if sl_logs_in layer then RedirectTo "/login?from=callback" else StatusInternalError,
       [SetExpiry ttl; Remember user; LogIn user])
  end.

(** [exchanged] is the time the provider's answer is read at, [now] the time after it. *)
Definition complete_login (a : AuthState) (flow : OidcFlow) (layer : SessionLayer) (exchanged now : Z)
    (pending : option LoginPending) (query : CallbackQuery) : Response * list SessionCall :=
  let refuse := login_error layer FailAuth in
  if bool_decide (is_Some (cq_error query)) then refuse
  else
    match pending, cq_state query with
    | Some pending, Some state =>
        if negb (String.eqb (lp_state pending) state) then refuse
        else
          match cq_code query with
          | None => refuse
          | Some code =>
              match backend_authenticate flow exchanged code (lp_pkce_verifier pending) (lp_nonce pending) with
              | None => refuse
              | Some user => establish a layer now user
              end
          end
    | _, _ => refuse
    end.

Definition callback (a : AuthState) (flow : option OidcFlow) (layer : SessionLayer)
    (signed : option LoginPending) (arrived exchanged now : Z) (query : CallbackQuery)
    : Response * list SessionCall :=
  match flow with
  | None => (StatusNotFound, [])
  | Some flow => complete_login a flow layer exchanged now (login_finish signed arrived) query
  end.

Definition logout (layer : SessionLayer) : option () * list SessionCall :=
  (if sl_logs_out layer then Some () else None, [LogOut]).

End login.

(** ** What a guard promises *)

(** What happens to the caches: a login remembers its user, the session layer creates, saves and
    deletes records. *)
Inductive AuthEvent : Type :=
  | Remembered (now : Z) (user : SessionUser)
  | Created (now : Z) (record : SessionRecord) (draws : list Z)
  | Saved (now : Z) (record : SessionRecord)
  | Deleted (id : Z).

(** A guard's user is the one last remembered under its subject. *)
Fixpoint last_remembered (subject : string) (events : list AuthEvent) : option (Z * SessionUser) :=
  match events with
  | [] => None
  | Remembered now user :: past => if decide (su_sub user = subject) then Some (now, user) else last_remembered subject past
  | _ :: past => last_remembered subject past
  end.

Section guards.
Context `{!ExpiryCacheLib, !OidcLib}.

Definition auth_step (e : AuthEvent) (a : AuthState) : AuthState :=
  match e with
  | Remembered now user => remember a now user
  | Created now record draws =>
      match store_create (au_sessions a) now record draws with
      | Some (sessions, _) => with_sessions a sessions
      | None => a
      end
  | Saved now record => with_sessions a (store_save (au_sessions a) now record)
  | Deleted id => with_sessions a (store_delete (au_sessions a) id)
  end.

(** The state after [events], the last one first. *)
Definition auth_run (events : list AuthEvent) (a : AuthState) : AuthState := foldr auth_step a events.

(** The record a session's id was last stored with, unless it was deleted since. *)
Fixpoint open_session (a : AuthState) (id : Z) (events : list AuthEvent) : option (Z * SessionRecord) :=
  match events with
  | [] => None
  | Saved now record :: past => if decide (sr_id record = id) then Some (now, record) else open_session a id past
  | Deleted gone :: past => if decide (gone = id) then None else open_session a id past
  | Created now record draws :: past =>
      match store_create (au_sessions (auth_run past a)) now record draws with
      | Some (_, record) => if decide (sr_id record = id) then Some (now, record) else open_session a id past
      | None => open_session a id past
      end
  | Remembered _ _ :: past => open_session a id past
  end.

Definition happened_by (now : Z) (e : AuthEvent) : Prop :=
  match e with
  | Remembered moment _ | Created moment _ _ | Saved moment _ => (0 ≤ moment ≤ now)%Z
  | Deleted _ => True
  end.

(** [create] stores the record under an id no live session has, and changes nothing else of it. *)
Lemma store_create_spec s now record draws s' record' :
  store_create s now record draws = Some (s', record') →
  ec_get s now (sr_id record') = None ∧ s' = ec_insert s now (sr_id record') record' ∧
  sr_data record' = sr_data record ∧ sr_expiry_date record' = sr_expiry_date record ∧
  (sr_id record' = sr_id record ∨ sr_id record' ∈ draws).
Proof.
  revert record. induction draws as [|id draws IH]; intros record; cbn [store_create].
  - destruct (ec_get s now (sr_id record)) eqn:Hget; [done|]. intros [= <- <-]. do 4 (split; [done|]). by left.
  - destruct (ec_get s now (sr_id record)) eqn:Hget.
    + intros (? & ? & Hdata & Hdate & Hid)%IH. do 2 (split; [done|]).
      split; [exact Hdata|]. split; [exact Hdate|]. right. rewrite elem_of_cons. destruct Hid; auto.
    + intros [= <- <-]. do 4 (split; [done|]). by left.
Qed.

Lemma store_create_answers s now record draws :
  (∃ id, id ∈ sr_id record :: draws ∧ ec_get s now id = None) → is_Some (store_create s now record draws).
Proof.
  revert record. induction draws as [|id draws IH]; intros record (free & Hin & Hfree); cbn [store_create].
  - apply list_elem_of_singleton in Hin as ->. by rewrite Hfree.
  - destruct (ec_get s now (sr_id record)) eqn:Hget; [|done]. apply IH. exists free. split; [|done].
    apply elem_of_cons in Hin as [->|Hin]; [congruence|done].
Qed.

Context `{!ExpiryCacheLaws}.
Context (roles : option (list (string * Role))).

(** The caches hold only what the events put there last. *)
Record caches_ok (events : list AuthEvent) (a : AuthState) : Prop := {
  ca_enabled : au_enabled a = true;
  ca_policy : au_policy a = from_roles roles;
  ca_user_expiry : ec_expiry (au_users a) = UntilExp;
  ca_session_expiry : ec_expiry (au_sessions a) = UntilExpiry;
  ca_users : ∀ subject user moment lives, ec_entry (au_users a) subject user moment lives →
    last_remembered subject events = Some (moment, user) ∧ lives = user_left subject user moment;
  ca_sessions : ∀ id record moment lives, ec_entry (au_sessions a) id record moment lives →
    open_session (AuthState_enabled roles) id events = Some (moment, record) ∧ lives = record_left id record moment;
}.

#[local] Lemma session_inserted events a now record id found moment lives :
  caches_ok events a →
  ec_entry (ec_insert (au_sessions a) now (sr_id record) record) id found moment lives →
  (if decide (sr_id record = id) then Some (now, record)
   else open_session (AuthState_enabled roles) id events) = Some (moment, found) ∧
  lives = record_left id found moment.
Proof.
  intros Hok [(-> & -> & -> & Hlives)|(Hne & Hentry)]%ec_entry_insert.
  - rewrite decide_True by done. split; [done|]. rewrite (ca_session_expiry _ _ Hok) in Hlives.
    by destruct Hlives as [->|[? ->]].
  - rewrite decide_False by congruence. by apply (ca_sessions _ _ Hok).
Qed.

Lemma auth_run_ok events : caches_ok events (auth_run events (AuthState_enabled roles)).
Proof.
  induction events as [|e events IH].
  { split; try done; [apply ec_expiry_new|apply ec_expiry_new| |]; intros ???? []%ec_entry_new. }
  cbn [auth_run foldr]. fold (auth_run events (AuthState_enabled roles)).
  destruct e as [now user|now record draws|now record|gone]; cbn [auth_step].
  - (split; try (by destruct IH)).
    + rewrite <- (ca_user_expiry _ _ IH). apply ec_expiry_insert.
    + intros subject found moment lives [(-> & -> & -> & Hlives)|(Hne & Hentry)]%ec_entry_insert.
      * cbn [last_remembered]. rewrite decide_True by done. split; [done|].
        rewrite (ca_user_expiry _ _ IH) in Hlives. by destruct Hlives as [->|[? ->]].
      * cbn [last_remembered]. rewrite decide_False by congruence. by apply (ca_users _ _ IH).
  - destruct (store_create _ now record draws) as [[s record']|] eqn:Hcreate.
    + pose proof (store_create_spec _ _ _ _ _ _ Hcreate) as (_ & -> & _).
      (split; try (by destruct IH)).
      * rewrite <- (ca_session_expiry _ _ IH). apply ec_expiry_insert.
      * intros id found moment lives Hentry. cbn [open_session]. rewrite Hcreate.
        by apply (session_inserted _ _ _ _ _ _ _ _ IH).
    + (split; try (by destruct IH)). intros id found moment lives Hentry. cbn [open_session]. rewrite Hcreate.
      by apply (ca_sessions _ _ IH).
  - (split; try (by destruct IH)).
    + rewrite <- (ca_session_expiry _ _ IH). apply ec_expiry_insert.
    + intros id found moment lives Hentry. by apply (session_inserted _ _ _ _ _ _ _ _ IH).
  - (split; try (by destruct IH)).
    + rewrite <- (ca_session_expiry _ _ IH). apply ec_expiry_invalidate.
    + intros id found moment lives (Hne & Hentry)%ec_entry_invalidate.
      cbn [open_session]. rewrite decide_False by congruence. by apply (ca_sessions _ _ IH).
Qed.

Lemma user_outlives subject user moment now span :
  (0 ≤ moment ≤ now)%Z → user_left subject user moment = Some span → (now < moment + span)%Z →
  (now < (su_exp user + 1) * SECOND)%Z.
Proof.
  unfold user_left, i64_saturating_sub, as_second. intros Hm [= <-] Hnow.
  rewrite Z.quot_div_nonneg in Hnow by (unfold SECOND; lia).
  pose proof (Z.div_mod moment SECOND ltac:(done)). pose proof (Z.mod_pos_bound moment SECOND ltac:(done)).
  assert (Z.max 0 (Z.max i64_min (Z.min i64_max (su_exp user - moment / SECOND)))
          ≤ Z.max 0 (su_exp user - moment / SECOND))%Z by (unfold i64_min, i64_max; lia).
  set (span := Z.max 0 (Z.max _ _)) in *. assert (span * SECOND ≤ Z.max 0 (su_exp user - moment / SECOND) * SECOND)%Z
    by (apply Z.mul_le_mono_nonneg_r; [done|lia]).
  destruct (Z.le_gt_cases (su_exp user) (moment / SECOND)).
  - rewrite Z.max_l in * by lia. lia.
  - rewrite (Z.max_r 0 (su_exp user - moment / SECOND)) in * by lia. unfold SECOND in *. lia.
Qed.

Lemma last_remembered_in subject events moment user :
  last_remembered subject events = Some (moment, user) → Remembered moment user ∈ events ∧ su_sub user = subject.
Proof.
  induction events as [|[] events IH]; cbn [last_remembered]; try done;
    rewrite elem_of_cons; try naive_solver.
  destruct (decide _); [|naive_solver]. intros [= -> ->]. auto.
Qed.

Lemma open_session_moment a id events moment record now :
  Forall (happened_by now) events → open_session a id events = Some (moment, record) → (0 ≤ moment ≤ now)%Z.
Proof.
  induction 1 as [|[] events He _ IH]; cbn [open_session]; try done.
  - destruct (store_create _ _ _ _) as [[? ?]|]; [|done]. destruct (decide _); [|done]. by intros [= -> ->].
  - destruct (decide _); [|done]. by intros [= -> ->].
  - by destruct (decide _).
Qed.

(** C27 (safety): whatever logins, session records and logouts came before, a guard that is asked again
    answers only while its session was neither deleted nor expired and its user's token expired less
    than a second ago at most, and then what the roles give the groups of the user last remembered. *)
Theorem revalidate_spec events now id subject access :
  Forall (happened_by now) events →
  revalidate (auth_run events (AuthState_enabled roles)) now (SessionHolder id subject) = Some access →
  ∃ moment user opened record,
    last_remembered subject events = Some (moment, user) ∧
    (now < (su_exp user + 1) * SECOND)%Z ∧
    policy_admit (from_roles roles) {| id_groups := su_groups user |} = Some access ∧
    open_session (AuthState_enabled roles) id events = Some (opened, record) ∧
    (now < sr_expiry_date record)%Z.
Proof.
  intros Hby. pose proof (auth_run_ok events) as Hok.
  set (a := auth_run events (AuthState_enabled roles)) in *.
  unfold revalidate, store_contains, with_live_user. case_bool_decide as Hsession; [|done]. simpl.
  destruct Hsession as [record (opened & lives & Hentry & Hlives)%ec_get_entry].
  apply (ca_sessions _ _ Hok) in Hentry as (Hopen & ->).
  destruct (ec_get (au_users a) now subject) as [user|] eqn:Huser; [|done]. simpl. intros Haccess.
  apply ec_get_entry in Huser as (moment & lives & Hentry & Hlives').
  apply (ca_users _ _ Hok) in Hentry as (Hlast & ->).
  exists moment, user, opened, record. split; [done|].
  pose proof (last_remembered_in _ _ _ _ Hlast) as [Hin _].
  pose proof (proj1 (Forall_forall _ _) Hby _ Hin) as Hm. simpl in Hm.
  split; [by apply (user_outlives subject user moment now _ Hm eq_refl), Hlives'|].
  split; [unfold access_from_user in Haccess; by rewrite (ca_policy _ _ Hok) in Haccess|].
  split; [done|]. specialize (Hlives _ eq_refl).
  pose proof (open_session_moment _ _ _ _ _ _ Hby Hopen). lia.
Qed.

End guards.

(** ** What a login promises *)

Section logins.
Context {cache_lib : ExpiryCacheLib} {oidc_lib : OidcLib}.

(** A signed cookie brings back the login it was given, for as long as a login may take. *)
Lemma login_finish_start timeout started state nonce pkce_verifier now :
  (0 ≤ timeout)%Z → (started + timeout ≤ TIMESTAMP_MAX)%Z →
  login_finish (Some (login_start timeout started state nonce pkce_verifier)) now =
    if (now <? started + timeout)%Z then Some (login_start timeout started state nonce pkce_verifier) else None.
Proof. intros _ Hmax. unfold login_finish, login_start. simpl. by rewrite (proj2 (Z.leb_le _ _) Hmax). Qed.

(** The claims a user is made of were verified for the login's nonce, and its session ends with its
    token or with the longest session, whichever is first. *)
Lemma oidc_authenticate_spec flow now code pkce_verifier nonce user :
  oidc_authenticate flow now code pkce_verifier nonce = Ok user →
  ∃ response token claims groups,
    exchange_code code pkce_verifier = Ok response ∧ id_token response = Some token ∧
    verified_claims token nonce = Ok claims ∧
    (∀ expected, claims_access_token_hash claims = Some expected →
       ∃ alg key, signing_alg token = Ok alg ∧ signing_key token = Ok key ∧
         hash_of_token response alg key = Ok expected) ∧
    groups_from_id_token (id_token_text token) (of_groups_claim flow) = Ok groups ∧
    su_sub user = claims_subject claims ∧ su_groups user = groups ∧
    (as_second now < su_exp user)%Z ∧ (su_exp user ≤ claims_expiration claims)%Z ∧
    (su_exp user ≤ i64_saturating_add (as_second now) (of_max_session_secs flow))%Z.
Proof.
  unfold oidc_authenticate. intros H.
  destruct (exchange_code code pkce_verifier) as [response|] eqn:Hexchange; [|done]. simpl in H.
  destruct (id_token response) as [token|] eqn:Htoken; [|done]. simpl in H.
  destruct (verified_claims token nonce) as [claims|] eqn:Hclaims; [|done]. simpl in H.
  destruct (check_access_token response token claims) as [[]|] eqn:Hhash; [|done]. simpl in H.
  destruct (Z.leb_spec (Z.min (claims_expiration claims)
    (i64_saturating_add (as_second now) (of_max_session_secs flow))) (as_second now)) as [|Hexp]; [done|].
  destruct (groups_from_id_token _ _) as [groups|] eqn:Hgroups; [|done]. simpl in H. injection H as <-.
  exists response, token, claims, groups. do 3 (split; [done|]). split; [|repeat split; simpl; lia || done].
  intros expected Hexpected. unfold check_access_token in Hhash. rewrite Hexpected in Hhash.
  destruct (signing_alg token) as [alg|]; [|done]. destruct (signing_key token) as [key|]; [|done]. simpl in Hhash.
  destruct (hash_of_token response alg key) as [actual|] eqn:Hactual; [|done]. simpl in Hhash.
  destruct (String.eqb_spec actual expected) as [->|]; [eauto|done].
Qed.

(** C28 (safety): the callback signs a user in only when the browser brought back, on time, the login klens
    signed, with its state and a code; when the provider's claims were verified for its nonce and
    are still good; and when a role admits the user. Otherwise the session is cleared. *)
Theorem callback_spec a flow layer signed arrived exchanged now query response calls :
  callback a (Some flow) layer signed arrived exchanged now query = (response, calls) →
  (∃ pending code user token claims ttl,
     signed = Some pending ∧ (arrived < lp_expires_at pending)%Z ∧
     query = {| cq_code := Some code; cq_state := Some (lp_state pending); cq_error := None |} ∧
     verified_claims token (lp_nonce pending) = Ok claims ∧ su_sub user = claims_subject claims ∧
     groups_from_id_token (id_token_text token) (of_groups_claim flow) = Ok (su_groups user) ∧
     (as_second exchanged < su_exp user ≤ claims_expiration claims)%Z ∧
     is_Some (access_from_user a user) ∧
     calls = [SetExpiry ttl; Remember user; LogIn user] ∧ (1 ≤ ttl)%Z ∧
     (response = RedirectTo "/login?from=callback" ↔ sl_logs_in layer = true)) ∨
  (calls = [LogOut] ∧
   (response = RedirectTo "/login?error=auth" ∨ response = RedirectTo "/login?error=forbidden" ∨
    response = StatusInternalError ∧ sl_logs_out layer = false)).
Proof.
  assert (∀ fail, login_error layer fail = (response, calls) →
    calls = [LogOut] ∧ (response = RedirectTo "/login?error=auth" ∨ response = RedirectTo "/login?error=forbidden" ∨
      response = StatusInternalError ∧ sl_logs_out layer = false)) as Hrefused.
  { intros fail. unfold login_error. intros [= <- <-]. destruct (sl_logs_out layer), fail; auto. }
  unfold callback, complete_login. destruct query as [code state error]. cbn [cq_code cq_state cq_error].
  destruct error as [error|]; cbn [is_Some]; case_bool_decide as Herror; [eauto|by destruct Herror| |].
  { by destruct Herror. }
  destruct (login_finish signed arrived) as [pending|] eqn:Hpending; [|eauto].
  unfold login_finish in Hpending. apply bind_Some in Hpending as (found & -> & Hpending).
  destruct (Z.ltb_spec arrived (lp_expires_at found)) as [Hontime|]; [|done]. injection Hpending as ->.
  destruct state as [state|]; [|eauto].
  destruct (String.eqb_spec (lp_state pending) state) as [<-|]; cbn [negb]; [|eauto].
  destruct code as [code|]; [|eauto]. unfold backend_authenticate.
  destruct (oidc_authenticate flow exchanged code _ _) as [user|] eqn:Huser; cbn [result_ok]; [|eauto].
  apply oidc_authenticate_spec in Huser as
    (resp & token & claims & groups & _ & _ & Hclaims & _ & Hgroups & Hsub & <- & Hexp & Hend & _).
  unfold establish. destruct (access_from_user a user) as [access|] eqn:Haccess; [|eauto].
  intros [= <- <-]. left. exists pending, code, user, token, claims. eexists.
  do 6 (split; [done|]). split; [lia|]. split; [done|]. split; [done|]. split; [lia|].
  by destruct (sl_logs_in layer).
Qed.

(** The hash of a user binds its expiry, whatever its subject and groups hold. *)
Lemma session_text_binds sub groups groups' exp exp' :
  session_text sub groups exp = session_text sub groups' exp' →
  exp = exp' ∧ join "000"%char groups = join "000"%char groups'.
Proof.
  unfold session_text. intros H.
  assert (∀ x y z : string, x +:+ y = x +:+ z → y = z) as Hcancel.
  { intros x y z. induction x as [|c x IH]; [done|]. intros [= Hx]. auto. }
  do 4 apply Hcancel in H.
  assert (∀ e r, split_once "|" (print_Z e +:+ "|" +:+ r) = Some (print_Z e, r)) as Honce.
  { intros e r. apply split_once_app, print_Z_no_char; done. }
  pose proof (f_equal (split_once "|") H) as Hsplit. rewrite !Honce in Hsplit. injection Hsplit as Hexp ->.
  split; [|done].
  assert (parse_signed (Z.min exp exp') (Z.max exp exp') (print_Z exp) =
    parse_signed (Z.min exp exp') (Z.max exp exp') (print_Z exp')) as Hparse by by rewrite Hexp.
  rewrite !parse_signed_print in Hparse by lia. congruence.
Qed.

End logins.

(** ** Examples *)

(** A cache as an association list, its newest entry first, that reads no entry past its time. *)
Definition plain_entries (K V : Type) : Type := list (K * (V * Z * option Z)).

Definition plain_live {K V} `{EqDecision K} (now : Z) (key : K) (entry : K * (V * Z * option Z)) : bool :=
  bool_decide (entry.1 = key) && match entry.2.2 with Some span => (now <? entry.2.1.2 + span)%Z | None => true end.

Definition plain_expiry_lib : ExpiryCacheLib :=
  {| ExpiryCache K V := (Expiry K V * plain_entries K V)%type;
     ec_new K V e := (e, []);
     ec_get K V _ c now key := (λ entry, entry.2.1.1) <$> List.find (plain_live now key) c.2;
     ec_insert K V _ c now key value :=
       (c.1, (key, (value, now, expire_after_create c.1 key value now)) ::
             List.filter (λ entry, negb (bool_decide (entry.1 = key))) c.2);
     ec_invalidate K V _ c key := (c.1, List.filter (λ entry, negb (bool_decide (entry.1 = key))) c.2) |}.

Definition plain_expiry_laws : @ExpiryCacheLaws plain_expiry_lib.
Proof.
  refine {| ec_expiry K V (c : @ExpiryCache plain_expiry_lib K V) := c.1;
            ec_entry K V (c : @ExpiryCache plain_expiry_lib K V) key value moment lives :=
              In (key, (value, moment, lives)) c.2 |}.
  - done.
  - intros. simpl. tauto.
  - done.
  - intros K V ? [e entries] now key value key' value' moment lives [[= <- <- <- <-]|Hin]; [auto 6|].
    simpl in Hin. apply filter_In in Hin as [Hin Hne]. simpl in Hne. right. split; [|done].
    intros ->. by rewrite bool_decide_true in Hne.
  - done.
  - intros K V ? [e entries] key key' value moment lives Hin.
    simpl in Hin. apply filter_In in Hin as [Hin Hne]. simpl in Hne. split; [|done].
    intros ->. by rewrite bool_decide_true in Hne.
  - intros K V ? [e entries] now key value Hget. simpl in Hget.
    destruct (List.find (plain_live now key) entries) as [[k [[v m] lives]]|] eqn:Hfind; [|done].
    injection Hget as <-. apply find_some in Hfind as [Hin Hlive]. unfold plain_live in Hlive.
    simpl in Hlive. apply andb_true_iff in Hlive as [->%bool_decide_eq_true Hlive].
    exists m, lives. split; [done|]. intros span ->. by apply Z.ltb_lt.
Defined.

(** A provider whose token is the name of a user, good for an hour from 1970. *)
Definition sample_oidc_lib : OidcLib :=
  {| sha256 text := text; TokenResponse := string; IdToken := string; Claims := string;
     exchange_code code _ := Ok code; id_token response := Some response;
     verified_claims token nonce := if String.eqb nonce "n" then Ok token else Err "nonce";
     claims_access_token_hash _ := None; signing_alg _ := Ok "RS256"; signing_key _ := Ok "key";
     hash_of_token response _ _ := Ok response; claims_subject token := token;
     claims_email _ := None; claims_name _ := None; claims_expiration _ := 3600%Z;
     id_token_text token := "header." +:+ token +:+ ".signature";
     base64_url_no_pad text := Ok text; base64_url text := Ok text;
     json_from_slice text := Ok (JObject [("groups", JArray [JString "ops"])]) |}.

Definition ops_roles : list (string * Role) :=
  [("operator", {| role_privileges := [PRecords]; role_bindings := [{| bd_groups := ["ops"]; bd_clusters := None |}] |})].

Definition alice : SessionUser := @SessionUser_new sample_oidc_lib "alice" None None ["ops"] 3600%Z.

Definition alices_session : SessionRecord := {| sr_id := 7%Z; sr_data := []; sr_expiry_date := (3600 * SECOND)%Z |}.

(** Alice signed in a second after 1970, under an id that was free. *)
Definition signed_in : list AuthEvent :=
  [Created (2 * SECOND) alices_session [8%Z]; Remembered SECOND alice]%Z.

Example revalidate_spec_witness :
  let a := @auth_run plain_expiry_lib signed_in (@AuthState_enabled plain_expiry_lib (Some ops_roles)) in
  ∃ access,
    @revalidate plain_expiry_lib a (60 * SECOND)%Z (SessionHolder 7%Z "alice") = Some access ∧
    ∃ moment user opened record,
      last_remembered "alice" signed_in = Some (moment, user) ∧
      (60 * SECOND < (su_exp user + 1) * SECOND)%Z ∧
      policy_admit (from_roles (Some ops_roles)) {| id_groups := su_groups user |} = Some access ∧
      @open_session plain_expiry_lib (@AuthState_enabled plain_expiry_lib (Some ops_roles)) 7%Z signed_in = Some (opened, record) ∧
      (60 * SECOND < sr_expiry_date record)%Z.
Proof.
  intros a. eexists. assert (@revalidate plain_expiry_lib a (60 * SECOND)%Z (SessionHolder 7%Z "alice") = Some _) as Haccess
    by (vm_compute; reflexivity).
  split; [exact Haccess|].
  apply (@revalidate_spec plain_expiry_lib plain_expiry_laws (Some ops_roles) signed_in (60 * SECOND)%Z 7%Z "alice");
    [|exact Haccess].
  repeat constructor; by vm_compute.
Defined.

(** After a logout, or an hour, the guard refuses; a login that ends elsewhere is another's. *)
Example signed_out :
  let ask events now := @revalidate plain_expiry_lib
    (@auth_run plain_expiry_lib events (@AuthState_enabled plain_expiry_lib (Some ops_roles))) now (SessionHolder 7%Z "alice") in
  ask (Deleted 7%Z :: signed_in) (60 * SECOND)%Z = None ∧ ask signed_in (3600 * SECOND)%Z = None.
Proof. by vm_compute. Qed.

Definition login_query : CallbackQuery := {| cq_code := Some "alice"; cq_state := Some "s"; cq_error := None |}.

Definition pending_login : LoginPending := login_start (600 * SECOND)%Z 0%Z "s" "n" "verifier".

Example callback_spec_witness :
  ∃ pending code user token claims ttl,
    Some pending_login = Some pending ∧ (SECOND < lp_expires_at pending)%Z ∧
    login_query = {| cq_code := Some code; cq_state := Some (lp_state pending); cq_error := None |} ∧
    @verified_claims sample_oidc_lib token (lp_nonce pending) = Ok claims ∧
    [SetExpiry 3598%Z; Remember alice; LogIn alice] = [SetExpiry ttl; Remember user; LogIn user].
Proof.
  destruct (@callback_spec plain_expiry_lib sample_oidc_lib
    (@AuthState_enabled plain_expiry_lib (Some ops_roles)) (OidcFlow_of "groups" 43200%Z)
    {| sl_logs_in := true; sl_logs_out := true |} (Some pending_login) SECOND SECOND (2 * SECOND)%Z login_query
    (RedirectTo "/login?from=callback") [SetExpiry 3598%Z; Remember alice; LogIn alice])
    as [(pending & code & user & token & claims & ttl & Hp & Htime & Hq & Hclaims & _ & _ & _ & _ & Hcalls & _)|[Hout _]].
  - by vm_compute.
  - exists pending, code, user, token, claims, ttl. auto.
  - done.
Defined.
