(* ===== verification/Updates.v ===== *)
(** The stream of a cluster's changes to a browser ([src/app/resources/updates.rs] and its types):
    what a subscriber is told of each change, and how its stream ends. The broadcast channel is
    tokio's. *)

From Stdlib Require Import ZArith SpecFloat.
From S2P Require Import Prelude Text Errors Metadata Group Tables Bus Access Interest Lane Store Ingest Handle.

(** ** Updates *)

Inductive Update : Type :=
  | UWatermarks (topics : list TopicRate)
  | UGroupLag (group : string) (lag : Z) (lag_complete : bool) (offsets : list GroupOffset)
  | UTopology (added_topics removed_topics changed_topics added_groups removed_groups changed_groups : list string)
      (brokers_changed : bool)
  | UConfigs (topics : list string)
  | USubjects (removed changed : list string)
  | ULogDirs (topics : list string) (brokers_changed : bool)
  | UAcls | UQuotas | UScramUsers
  | Resync.

Definition Update_event (u : Update) : string :=
  match u with
  | UWatermarks _ => "watermarks"
  | UGroupLag _ _ _ _ => "groupLag"
  | UTopology _ _ _ _ _ _ _ => "topology"
  | UConfigs _ => "configs"
  | USubjects _ _ => "subjects"
  | ULogDirs _ _ => "logDirs"
  | UAcls => "acls"
  | UQuotas => "quotas"
  | UScramUsers => "scramUsers"
  | Resync => "resync"
  end.

(** Only a subscriber scoped to the group gets its offsets. *)
Definition update_group_lag (update : GroupLagUpdate) (with_offsets : bool) : Update :=
  UGroupLag (glu_group update) (glu_total_lag update) (glu_lag_complete update)
    (if with_offsets then glu_offsets update else []).

Record UpdateScope : Set := { us_topic : option string; us_group : option string }.

Definition scope_named (value : option string) : option string :=
  value ← trim <$> value; if is_empty value then None else Some value.

(** [Scope::from] of the query's topic and group. *)
Definition scope_of_query (topic group : option string) : UpdateScope :=
  {| us_topic := scope_named topic; us_group := scope_named group |}.

Definition scope_relevant (s : UpdateScope) (delta : TopologyDelta) : bool :=
  match us_topic s, us_group s with
  | None, None => true
  | topic, group =>
      match topic with Some topic => touches_topic delta topic | None => false end ||
      match group with Some group => touches_group delta group | None => false end
  end.

Definition scope_updates (s : UpdateScope) (change : Change) : list Update :=
  match change with
  | ChWatermarks rates =>
      match us_topic s with
      | None => [UWatermarks rates]
      | Some topic =>
          match tick_rate rates topic with
          | None => []
          | Some rate => [UWatermarks [{| rt_topic := topic; rt_rate := rate |}]]
          end
      end
  | ChGroupOffsets groups =>
      match us_group s with
      | Some group => option_list ((λ update, update_group_lag update true) <$> wave_group groups group)
      | None => (λ update, update_group_lag update false) <$> groups
      end
  | ChTopology delta =>
      if scope_relevant s delta
      then [UTopology (added_topics delta) (removed_topics delta) (changed_topics delta) (added_groups delta)
              (removed_groups delta) (changed_groups delta) (brokers_changed delta)]
      else []
  | ChConfigs delta =>
      match us_topic s with
      | None => [UConfigs (cd_topics delta)]
      | Some topic => if existsb (String.eqb topic) (cd_topics delta) then [UConfigs [topic]] else []
      end
  | ChSubjects delta => [USubjects (sd_removed delta) (sd_changed delta)]
  | ChLogDirs delta =>
      match us_topic s with
      | None => [ULogDirs (lgd_topics delta) (lgd_brokers_changed delta)]
      | Some topic => if log_dirs_touches_topic delta topic then [ULogDirs [topic] false] else []
      end
  | ChAcls => [UAcls]
  | ChQuotas => [UQuotas]
  | ChScramUsers => [UScramUsers]
  end.

(** ** The stream *)

(** What the channel answers a [recv]. *)
Inductive Received : Type := Got (change : Change) | Lagged (missed : Z) | Closed.

(** A [recv], and what the session's guard answers when it is asked then. *)
Definition StreamTurn : Type := Received * option EffectiveAccess.

Inductive StreamEvent : Type := Told (update : Update) | Ended (error : ApiError).

Record Stream : Type := {
  sm_pending : list Update;
  sm_cluster : string;
  sm_scope : UpdateScope;
  sm_done : bool;
}.

Definition stream_new (cluster : string) (scope : UpdateScope) : Stream :=
  {| sm_pending := []; sm_cluster := cluster; sm_scope := scope; sm_done := false |}.

Definition stream_denied (s : Stream) (guard : option EffectiveAccess) : option ApiError :=
  match guard with
  | None => Some SessionExpired
  | Some access =>
      match access_cluster access (sm_cluster s) with Ok _ => None | Err error => Some (ApiAccess error) end
  end.

Definition with_pending (s : Stream) (pending : list Update) : Stream :=
  {| sm_pending := pending; sm_cluster := sm_cluster s; sm_scope := sm_scope s; sm_done := sm_done s |}.

Definition stream_end (s : Stream) : Stream :=
  {| sm_pending := sm_pending s; sm_cluster := sm_cluster s; sm_scope := sm_scope s; sm_done := true |}.

(** One turn of [unfold]: the next event, the state and the turns still to come. [None] is the
    end of the stream, or a wait for a turn that is not there. *)
Fixpoint stream_next (turns : list StreamTurn) (s : Stream) : option (StreamEvent * Stream * list StreamTurn) :=
  if sm_done s then None
  else
    match sm_pending s with
    | update :: pending => Some (Told update, with_pending s pending, turns)
    | [] =>
        match turns with
        | [] | (Closed, _) :: _ => None
        | (Lagged _, _) :: turns => Some (Told Resync, s, turns)
        | (Got change, guard) :: turns =>
            match stream_denied s guard with
            | Some error => Some (Ended error, stream_end s, turns)
            | None => stream_next turns (with_pending s (scope_updates (sm_scope s) change))
            end
        end
    end.

(** The first [n] events. *)
Fixpoint stream_take (n : nat) (turns : list StreamTurn) (s : Stream) : list StreamEvent :=
  match n with
  | O => []
  | S n =>
      match stream_next turns s with
      | Some (event, s, turns) => event :: stream_take n turns s
      | None => []
      end
  end.

(** ** What a subscriber is told *)

(** The events of a stream with nothing pending, all its turns taken. *)
Fixpoint stream_events (cluster : string) (scope : UpdateScope) (turns : list StreamTurn) : list StreamEvent :=
  match turns with
  | [] | (Closed, _) :: _ => []
  | (Lagged _, _) :: turns => Told Resync :: stream_events cluster scope turns
  | (Got change, guard) :: turns =>
      match stream_denied (stream_new cluster scope) guard with
      | Some error => [Ended error]
      | None => (Told <$> scope_updates scope change) ++ stream_events cluster scope turns
      end
  end.

(** Taken one by one, the events are those: what is pending, then what each turn tells. *)
Lemma stream_take_events n turns cluster scope pending :
  stream_take n turns {| sm_pending := pending; sm_cluster := cluster; sm_scope := scope; sm_done := false |} =
  list.take n ((Told <$> pending) ++ stream_events cluster scope turns).
Proof.
  revert turns pending. induction n as [|n IH]; intros turns pending; [done|].
  destruct pending as [|update pending].
  - cbn [stream_take]. induction turns as [|[[change|missed|] guard] turns IHt]; try done.
    + cbn [stream_next sm_done sm_pending stream_events].
      change (stream_denied {| sm_pending := []; sm_cluster := cluster; sm_scope := scope; sm_done := false |} guard)
        with (stream_denied (stream_new cluster scope) guard).
      destruct (stream_denied (stream_new cluster scope) guard) as [error|].
      * cbn. f_equal. by destruct n, turns.
      * unfold with_pending. cbn [sm_cluster sm_scope sm_done].
        destruct (scope_updates scope change) as [|update pending]; [exact IHt|].
        destruct turns; cbn [stream_next sm_done sm_pending with_pending sm_cluster sm_scope app fmap list_fmap list.take];
          f_equal; apply IH.
    + cbn. f_equal. apply (IH turns []).
  - destruct turns; cbn [stream_take stream_next sm_done sm_pending with_pending sm_cluster sm_scope app fmap list_fmap list.take];
      f_equal; apply IH.
Qed.

(** What a broadcast channel promises of the changes published since the subscription: each in
    order, but for runs that a lagging subscriber is told it missed. *)
Inductive delivered : list Change → list Received → Prop :=
  | delivered_nil : delivered [] []
  | delivered_closed : delivered [] [Closed]
  | delivered_got change changes received :
      delivered changes received → delivered (change :: changes) (Got change :: received)
  | delivered_lagged missed changes received :
      missed ≠ [] → delivered changes received →
      delivered (missed ++ changes) (Lagged (Z.of_nat (length missed)) :: received).

(** A change is told in full, or the subscriber is told to start over, or its stream has ended. *)
Lemma delivered_told cluster scope changes turns change :
  delivered changes turns.*1 → change ∈ changes →
  (∀ update, update ∈ scope_updates scope change → Told update ∈ stream_events cluster scope turns) ∨
  Told Resync ∈ stream_events cluster scope turns ∨
  ∃ error, Ended error ∈ stream_events cluster scope turns.
Proof.
  intros Hd. remember turns.*1 as received eqn:Hr. revert turns Hr.
  induction Hd as [| |first changes received _ IH|missed changes received _ _ IH]; intros turns Hr Hin.
  - by apply not_elem_of_nil in Hin.
  - by apply not_elem_of_nil in Hin.
  - destruct turns as [|[? guard] turns]; [done|]. injection Hr as <- ->. cbn [stream_events].
    destruct (stream_denied _ guard) as [error|]; [right; right; exists error; by left|].
    apply elem_of_cons in Hin as [->|Hin].
    + left. intros update Hu. apply elem_of_app. left. by apply list_elem_of_fmap_2.
    + destruct (IH turns eq_refl Hin) as [Hall|[Hre|[error He]]].
      * left. intros update Hu. apply elem_of_app. right. by apply Hall.
      * right. left. apply elem_of_app. by right.
      * right. right. exists error. apply elem_of_app. by right.
  - destruct turns as [|[? guard] turns]; [done|]. injection Hr as <- ->. cbn [stream_events].
    right. left. by left.
Qed.

(** A stream told nothing of a change unless its guard held the cluster as the change arrived. *)
Lemma told_guarded cluster scope turns update :
  Told update ∈ stream_events cluster scope turns →
  update = Resync ∨
  ∃ change access clustered, (Got change, Some access) ∈ turns ∧ access_cluster access cluster = Ok clustered ∧
    update ∈ scope_updates scope change.
Proof.
  induction turns as [|[[change|missed|] guard] turns IH]; cbn [stream_events];
    [by intros ?%not_elem_of_nil| | |by intros ?%not_elem_of_nil].
  - destruct (stream_denied _ guard) as [error|] eqn:Hd; [by intros ?%list_elem_of_singleton|].
    unfold stream_denied in Hd. destruct guard as [access|]; [|done]. cbn [sm_cluster stream_new] in Hd.
    destruct (access_cluster access cluster) as [clustered|] eqn:Ha; [|done].
    intros [Hin|Hin]%elem_of_app.
    + apply list_elem_of_fmap in Hin as (u & [= ->] & Hu). right.
      exists change, access, clustered. split; [by left|]. done.
    + destruct (IH Hin) as [|(c & a & r & ? & ?)]; [by left|]. right. exists c, a, r. split; [by right|done].
  - intros [[= ->]|Hin]%elem_of_cons; [by left|].
    destruct (IH Hin) as [|(c & a & r & ? & ?)]; [by left|]. right. exists c, a, r. split; [by right|done].
Qed.

(** The error that ends a stream is its last event. *)
Lemma ended_last cluster scope turns events error rest :
  stream_events cluster scope turns = events ++ Ended error :: rest → rest = [].
Proof.
  revert events. induction turns as [|[[change|missed|] guard] turns IH]; intros events; cbn [stream_events];
    try (intros H; by apply app_cons_not_nil in H).
  - destruct (stream_denied _ guard) as [e|].
    + destruct events as [|e' events]; [by intros [= _ <-]|]. intros [= _ H]. by apply app_cons_not_nil in H.
    + generalize (scope_updates scope change) as updates. intros updates. revert events.
      induction updates as [|u updates IHu]; intros events; [apply IH|].
      destruct events as [|e' events]; [done|]. intros [= _ H]. by apply (IHu events).
  - destruct events as [|e' events]; [done|]. intros [= _ H]. by apply (IH events).
Qed.

(** A lookup of the table a lane shows. *)
#[local] Abbreviation shows_in s field k := (table ← load s; field table !! k).

Definition told_of (events : list StreamEvent) (names : Update → Prop) : Prop :=
  (∃ update, Told update ∈ events ∧ names update) ∨ Told Resync ∈ events ∨ ∃ error, Ended error ∈ events.

Definition names_topic (k : string) (update : Update) : Prop :=
  match update with UTopology added removed changed _ _ _ _ => k ∈ added ++ removed ++ changed | _ => False end.
Definition names_group (k : string) (update : Update) : Prop :=
  match update with UTopology _ _ _ added removed changed _ => k ∈ added ++ removed ++ changed | _ => False end.
Definition names_configs (k : string) (update : Update) : Prop :=
  match update with UConfigs topics => k ∈ topics | _ => False end.
Definition names_storage (k : string) (update : Update) : Prop :=
  match update with ULogDirs topics _ => k ∈ topics | _ => False end.

(** Every topic and group, or that one alone. *)
Definition follows_topic (scope : UpdateScope) (k : string) : Prop :=
  us_topic scope = Some k ∨ us_topic scope = None ∧ us_group scope = None.
Definition follows_group (scope : UpdateScope) (k : string) : Prop :=
  us_group scope = Some k ∨ us_topic scope = None ∧ us_group scope = None.

Section told.
Context `{!KrafkaTexts}.

(** A change the scope names something in tells of it. *)
#[local] Lemma told_by_change cluster scope turns change (names : Update → Prop) changes :
  delivered changes turns.*1 → change ∈ changes →
  (∃ update, update ∈ scope_updates scope change ∧ names update) →
  told_of (stream_events cluster scope turns) names.
Proof.
  intros Hd Hin (update & Hu & Hn).
  destruct (delivered_told cluster scope _ _ _ Hd Hin) as [Hall|Hother]; [left|by right]. eauto.
Qed.

(** C30 (liveness): a browser that follows a topic or group, or the whole cluster, from some moment on is told when
    the topic, its configs or storage, or the group, come to show differently: by an update that
    names it, by a resync, or by the end of its stream. *)
Theorem updates_miss_nothing s s' cluster scope turns k :
  delivered (drop (length (cs_bus s)) (cs_bus s')) turns.*1 →
  (evolves (LS := topology_source) s s' →
    (follows_topic scope k → shows_in s tp_topics k ≠ shows_in s' tp_topics k →
     told_of (stream_events cluster scope turns) (names_topic k)) ∧
    (follows_group scope k → shows_in s tp_groups k ≠ shows_in s' tp_groups k →
     told_of (stream_events cluster scope turns) (names_group k))) ∧
  (evolves (LS := config_source) s s' → follows_topic scope k →
    shows_in s ct_topics k ≠ shows_in s' ct_topics k →
    told_of (stream_events cluster scope turns) (names_configs k)) ∧
  (evolves (LS := log_dir_source) s s' → follows_topic scope k →
    shows_in s ldt_partitions k ≠ shows_in s' ldt_partitions k →
    told_of (stream_events cluster scope turns) (names_storage k)).
Proof.
  intros Hd.
  assert (∀ change told, cs_bus s' = cs_bus s ++ told → change ∈ told →
    change ∈ drop (length (cs_bus s)) (cs_bus s')) as Hdrop.
  { intros change told -> Hin. by rewrite drop_app_length. }
  split_and!; intros He; [split|..]; intros Hfollows Hne.
  - destruct (evolves_told (DC := topics_covered) s s' k He) as [_ [|(told & delta & Hb & Hc & Hn)]]; [done|].
    apply (told_by_change _ _ _ (ChTopology delta) _ _ Hd); [apply (Hdrop _ _ Hb), Hc; by left|].
    cbn [scope_updates]. assert (scope_relevant scope delta = true) as ->.
    { unfold scope_relevant. destruct Hfollows as [->|[-> ->]]; [|done]. simpl in Hn. by rewrite Hn. }
    eexists. split; [by left|]. simpl in Hn |- *. unfold touches_topic in Hn.
    by rewrite !orb_true_iff, !existsb_eqb in Hn; rewrite !elem_of_app; tauto.
  - destruct (evolves_told (DC := groups_covered) s s' k He) as [_ [|(told & delta & Hb & Hc & Hn)]]; [done|].
    apply (told_by_change _ _ _ (ChTopology delta) _ _ Hd); [apply (Hdrop _ _ Hb), Hc; by left|].
    cbn [scope_updates]. assert (scope_relevant scope delta = true) as ->.
    { unfold scope_relevant. destruct Hfollows as [->|[-> ->]]; [|done]. simpl in Hn.
      by destruct (us_topic scope); rewrite Hn, ?orb_true_r. }
    eexists. split; [by left|]. simpl in Hn |- *. unfold touches_group in Hn.
    by rewrite !orb_true_iff, !existsb_eqb in Hn; rewrite !elem_of_app; tauto.
  - destruct (evolves_told (DC := configs_covered) s s' k He) as [_ [|(told & delta & Hb & Hc & Hn)]]; [done|].
    apply (told_by_change _ _ _ (ChConfigs delta) _ _ Hd); [apply (Hdrop _ _ Hb), Hc; by left|].
    apply bool_decide_eq_true in Hn. cbn [scope_updates]. destruct Hfollows as [->|[-> _]].
    + rewrite (proj2 (existsb_eqb _ _) Hn). eexists. split; [by left|]. by left.
    + eexists. split; [by left|]. done.
  - destruct (evolves_told (DC := storage_covered) s s' k He) as [_ [|(told & delta & Hb & Hc & Hn)]]; [done|].
    apply (told_by_change _ _ _ (ChLogDirs delta) _ _ Hd); [apply (Hdrop _ _ Hb), Hc; by left|].
    simpl in Hn. cbn [scope_updates]. destruct Hfollows as [->|[-> _]].
    + rewrite Hn. eexists. split; [by left|]. by left.
    + eexists. split; [by left|]. by apply existsb_eqb.
Qed.
End told.

(** ** What a scope leaves of a change *)

(** What one update says of one change to a browser that follows [scope]: everything, or only what
    concerns the topic or the group it follows. *)
Definition tells (scope : UpdateScope) (change : Change) (update : Update) : Prop :=
  match change, update with
  | ChWatermarks rates, UWatermarks told =>
      match us_topic scope with
      | None => told = rates
      | Some topic => ∃ rate, told = [rate] ∧ rate ∈ rates ∧ rt_topic rate = topic
      end
  | ChGroupOffsets groups, UGroupLag group lag complete offsets =>
      ∃ moved, moved ∈ groups ∧ glu_group moved = group ∧ glu_total_lag moved = lag ∧ glu_lag_complete moved = complete ∧
        match us_group scope with
        | None => offsets = []
        | Some followed => group = followed ∧ offsets = glu_offsets moved
        end
  | ChTopology delta, UTopology added removed changed added' removed' changed' brokers =>
      added = added_topics delta ∧ removed = removed_topics delta ∧ changed = changed_topics delta ∧
      added' = added_groups delta ∧ removed' = removed_groups delta ∧ changed' = changed_groups delta ∧
      brokers = brokers_changed delta ∧
      (us_topic scope = None ∧ us_group scope = None ∨
       (∃ topic, us_topic scope = Some topic ∧ topic ∈ added ++ removed ++ changed) ∨
       ∃ group, us_group scope = Some group ∧ group ∈ added' ++ removed' ++ changed')
  | ChConfigs delta, UConfigs topics =>
      match us_topic scope with
      | None => topics = cd_topics delta
      | Some topic => topics = [topic] ∧ topic ∈ cd_topics delta
      end
  | ChLogDirs delta, ULogDirs topics brokers =>
      match us_topic scope with
      | None => topics = lgd_topics delta ∧ brokers = lgd_brokers_changed delta
      | Some topic => topics = [topic] ∧ topic ∈ lgd_topics delta ∧ brokers = false
      end
  | ChSubjects delta, USubjects removed changed => removed = sd_removed delta ∧ changed = sd_changed delta
  | ChAcls, UAcls | ChQuotas, UQuotas | ChScramUsers, UScramUsers => True
  | _, _ => False
  end.

Lemma find_elem {A} (f : A → bool) l x : List.find f l = Some x → x ∈ l ∧ f x = true.
Proof. intros [Hin Hf]%find_some. by rewrite list_elem_of_In. Qed.

Lemma scope_updates_tell scope change update :
  update ∈ scope_updates scope change → tells scope change update.
Proof.
  unfold scope_updates, tells. destruct change as [delta|rates|groups|delta|delta|delta| | |].
  - destruct (scope_relevant scope delta) eqn:Hr; [|by intros ?%not_elem_of_nil].
    intros ->%list_elem_of_singleton. split_and!; try done. unfold scope_relevant, touches_topic, touches_group in Hr.
    setoid_rewrite elem_of_app. setoid_rewrite elem_of_app.
    destruct (us_topic scope) as [topic|], (us_group scope) as [group|];
      rewrite ?orb_true_iff, ?existsb_eqb in Hr; naive_solver.
  - destruct (us_topic scope) as [topic|]; [|by intros ->%list_elem_of_singleton].
    unfold tick_rate. destruct (List.find _ rates) as [rate|] eqn:Hfind; cbn; [|by intros ?%not_elem_of_nil].
    apply find_elem in Hfind as [Hin Ht%String.eqb_eq]. intros ->%list_elem_of_singleton.
    exists rate. split_and!; [|done..]. destruct rate. cbn in *. by subst.
  - destruct (us_group scope) as [group|].
    + unfold wave_group. destruct (List.find _ groups) as [moved|] eqn:Hfind; cbn; [|by intros ?%not_elem_of_nil].
      apply find_elem in Hfind as [Hin Hg%String.eqb_eq]. intros ->%list_elem_of_singleton. by exists moved.
    + intros (moved & -> & Hin)%list_elem_of_fmap. by exists moved.
  - destruct (us_topic scope) as [topic|]; [|by intros ->%list_elem_of_singleton].
    destruct (existsb _ _) eqn:Hin; [|by intros ?%not_elem_of_nil]. apply existsb_eqb in Hin.
    by intros ->%list_elem_of_singleton.
  - by intros ->%list_elem_of_singleton.
  - destruct (us_topic scope) as [topic|]; [|by intros ->%list_elem_of_singleton].
    unfold log_dirs_touches_topic. destruct (existsb _ _) eqn:Hin; [|by intros ?%not_elem_of_nil].
    apply existsb_eqb in Hin. by intros ->%list_elem_of_singleton.
  - by intros ->%list_elem_of_singleton.
  - by intros ->%list_elem_of_singleton.
  - by intros ->%list_elem_of_singleton.
Qed.

(** C31 (safety): nothing of a cluster is told to a browser but of a change that arrived while its session
    held the cluster. Who follows a topic is told of no other topic's rate, configs or storage; who
    follows a group of no other group's lag, and only then of a group's offsets; and who follows
    either of no change of the topology that leaves what it follows alone. Once its session lost the
    cluster, the stream tells so and nothing more. *)
Theorem updates_guarded cluster scope turns n :
  let events := stream_take n turns (stream_new cluster scope) in
  (∀ update, Told update ∈ events → update = Resync ∨
     ∃ change access clustered, (Got change, Some access) ∈ turns ∧
       access_cluster access cluster = Ok clustered ∧ tells scope change update) ∧
  (∀ before error rest, events = before ++ Ended error :: rest → rest = []).
Proof.
  intros events. unfold events, stream_new. rewrite stream_take_events. cbn [fmap list_fmap app]. split.
  - intros update Hin. assert (Told update ∈ stream_events cluster scope turns) as Htold
      by (by apply elem_of_take in Hin as (i & Hi & _); eapply list_elem_of_lookup_2).
    apply told_guarded in Htold as [|(change & access & clustered & ? & ? & Hu)]; [by left|right].
    exists change, access, clustered. split; [done|]. split; [done|]. by apply scope_updates_tell.
  - intros before error rest H.
    pose proof (take_drop n (stream_events cluster scope turns)) as Hall. rewrite H in Hall.
    rewrite <- app_assoc in Hall. symmetry in Hall. apply ended_last in Hall. by apply app_nil in Hall as [-> _].
Qed.

(** ** Examples *)

(** A first poll finds the topic [orders], and a browser that follows it is told so. *)
Definition polled_store : ClusterStore :=
  (poll (H := sample_texts) sample_lane sample_store () (Ingest.sample_session [sample_topic]) sample_clock (λ s, s)).2.

Definition orders_scope : UpdateScope := scope_of_query (Some " orders ") None.

Definition polled_turns : list StreamTurn :=
  (λ change, (Got change, Some Unrestricted)) <$> cs_bus polled_store.

Lemma updates_miss_nothing_witness :
  told_of (stream_events "dev" orders_scope polled_turns) (names_topic "orders").
Proof.
  assert (∀ changes, delivered changes ((λ change, (Got change, Some Unrestricted)) <$> changes : list StreamTurn).*1) as Hall.
  { induction changes as [|c changes IH]; [apply delivered_nil|by apply delivered_got]. }
  refine (proj1 (proj1 (updates_miss_nothing (H := sample_texts) sample_store polled_store "dev"
    orders_scope polled_turns "orders" (Hall _)) _) _ _).
  - eapply evolves_poll; [apply evolves_refl|apply quiet_id|apply surjective_pairing].
  - left. reflexivity.
  - vm_compute. intros H. discriminate H.
Defined.

(** A group scope keeps offsets to its group, and a stream ends once its session does. *)
Example scoped_stream :
  let wave := ChGroupOffsets [{| glu_group := "a"; glu_total_lag := 3; glu_lag_complete := true; glu_offsets := [] |};
                              {| glu_group := "b"; glu_total_lag := 5; glu_lag_complete := true; glu_offsets := [] |}]%Z in
  stream_take 9 [(Got wave, Some Unrestricted); (Lagged 4%Z, None); (Got wave, None); (Got wave, Some Unrestricted)]
    (stream_new "dev" (scope_of_query None (Some "b"))) =
  [Told (UGroupLag "b" 5%Z true []); Told Resync; Ended SessionExpired].
Proof. by vm_compute. Qed.
