(* ===== verification/RecordApi.v ===== *)
(** Records over HTTP ([src/app/resources/records.rs] and records/): the queries parameters make,
    the record a request produces, an export as it is streamed and a tail as it is followed. *)

From Stdlib Require Import ZArith Lia Ascii.
From S2P Require Import Prelude Text Errors Metadata Cursor Plan Payload Filter Query Obfuscate Pipeline Session Read Export Tail Access Handle.

(** jiff's timestamps of the API. *)
Class ApiTimeLib `{!TimestampLib} : Type := {
  from_millisecond : Z → option Timestamp;
  UNIX_EPOCH : Timestamp;
  (** Its [Serialize]. *)
  timestamp_text : Timestamp → string;
}.

Section records.
Context `{!PayloadLib, !RedactLib, !FilterLib, !TimestampLib, !ApiTimeLib}.

(** ** Records *)

Record ApiRecord : Type := {
  ar_topic : string;
  ar_partition : Z;
  ar_offset : Z;
  ar_timestamp : Timestamp;
  ar_key : option string;
  ar_value : option string;
  ar_schema_id : option Z;
  ar_headers : list (string * string);
  ar_size_bytes : Z;
  ar_verbatim : bool;
}.

Definition ApiRecord_from (record : Record_) : ApiRecord :=
  {| ar_topic := rec_topic record; ar_partition := rec_partition record; ar_offset := rec_offset record;
     ar_timestamp := default UNIX_EPOCH (from_millisecond (rec_timestamp record));
     ar_key := rec_key record; ar_value := rec_value record; ar_schema_id := rec_schema_id record;
     ar_headers := rec_headers record; ar_size_bytes := rec_size_bytes record;
     ar_verbatim := rec_verbatim record |}.

Definition json_option {A} (f : A → json) (o : option A) : json := match o with Some a => f a | None => JNull end.
Definition json_Z (z : Z) : json := JNumber (print_Z z).

Definition header_json (header : string * string) : json :=
  JObject [("key", JString header.1); ("value", JString header.2)].

(** Its [Serialize]. *)
Definition ApiRecord_json (r : ApiRecord) : json :=
  JObject [("topic", JString (ar_topic r)); ("partition", json_Z (ar_partition r));
    ("offset", json_Z (ar_offset r)); ("timestamp", JString (timestamp_text (ar_timestamp r)));
    ("key", json_option JString (ar_key r)); ("value", json_option JString (ar_value r));
    ("schemaId", json_option json_Z (ar_schema_id r)); ("headers", JArray (header_json <$> ar_headers r));
    ("sizeBytes", json_Z (ar_size_bytes r)); ("verbatim", JBool (ar_verbatim r))].

Record ApiRecordPage : Type := {
  ap_records : list ApiRecord;
  ap_complete : bool;
  ap_obfuscated : bool;
  ap_next_cursor : option string;
  ap_prev_cursor : option string;
}.

Definition ApiRecordPage_from (page : RecordPage) : ApiRecordPage :=
  {| ap_records := ApiRecord_from <$> rp_records page; ap_complete := rp_complete page;
     ap_obfuscated := rp_obfuscated page; ap_next_cursor := rp_next_cursor page;
     ap_prev_cursor := rp_prev_cursor page |}.

(** ** Queries *)

Definition record_filter (contains_ : option string) : result QueryError (option CompiledFilter) :=
  match contains_ with None => Ok None | Some text => Filter.contains text end.

Record RecordParams : Type := {
  qp_partition : list Z;
  qp_order : option RecordOrder;
  qp_from : option Timestamp;
  qp_to : option Timestamp;
  qp_limit : Z;
  qp_contains : option string;
  qp_schema_id : option Z;
  qp_cursor : option string;
}.

Definition default_record_limit : Z := 50.

Definition params_cursor (text : option string) (order : RecordOrder) : result QueryError (option RecordCursor) :=
  match trim <$> text with
  | None => Ok None
  | Some text =>
      if is_empty text then Ok None
      else cursor ← Cursor.parse text; _ ← validate_for cursor order; Ok (Some cursor)
  end.

Definition params_into_query (p : RecordParams) (topic : string) : result QueryError RecordQuery :=
  let order := default Newest (qp_order p) in
  timestamps ← timestamp_range (qp_from p) (qp_to p);
  filter ← record_filter (qp_contains p);
  cursor ← params_cursor (qp_cursor p) order;
  Ok {| rq_topic := topic; rq_partitions := qp_partition p; rq_filter := filter;
        rq_timestamps := timestamps; rq_limit := qp_limit p; rq_order := order; rq_cursor := cursor;
        rq_schema_id := qp_schema_id p |}.

Record ExportParams : Type := {
  ep_partition : list Z;
  ep_order : option RecordOrder;
  ep_from : option Timestamp;
  ep_to : option Timestamp;
  ep_contains : option string;
  ep_schema_id : option Z;
}.

Definition export_into_query (p : ExportParams) (topic : string) : result QueryError RecordQuery :=
  timestamps ← timestamp_range (ep_from p) (ep_to p);
  filter ← record_filter (ep_contains p);
  Ok {| rq_topic := topic; rq_partitions := ep_partition p; rq_filter := filter;
        rq_timestamps := timestamps; rq_limit := i32_max; rq_order := default Newest (ep_order p);
        rq_cursor := None; rq_schema_id := ep_schema_id p |}.

Record TailParams : Type := { tp_partitions : list Z; tp_contains : option string; tp_schema_id : option Z }.

Definition tail_into_query (p : TailParams) (topic : string) : result QueryError TailQuery :=
  filter ← record_filter (tp_contains p);
  Ok {| tq_topic := topic; tq_partitions := tp_partitions p; tq_filter := filter; tq_schema_id := tp_schema_id p |}.

(** [LookupParams::into_record_at]. *)
Definition into_record_at (schema_id : option Z) (topic : string) (partition offset : Z) : RecordAt :=
  {| ra_topic := topic; ra_partition := partition; ra_offset := offset; ra_schema_id := schema_id |}.

(** [DeleteParams::before]. *)
Definition delete_before (before : option Z) : result ApiError (option Z) :=
  match before with
  | Some offset =>
      if (offset <? 0)%Z then Err (InvalidRequest 422 "before must be an offset of zero or more") else Ok before
  | None => Ok None
  end.

(** ** Producing *)

Inductive RecordPayload : Set :=
  | PText (data : string) | PBase64 (data : string) | PSchema (schema_id : Z) (data : string).

(** [u8::is_ascii_whitespace]. *)
Definition is_ascii_whitespace (c : ascii) : bool :=
  match c with " " | "009" | "010" | "012" | "013" => true | _ => false end%char.

Section produce.
(** The base64 decoder, and the schema encoder of the cluster. *)
Context (base64_decode : string → option string) (encode_payload : Z → string → result KafkaError string).

Definition into_bytes (payload : RecordPayload) (part : string) : result ApiError string :=
  match payload with
  | PText data => Ok data
  | PBase64 data =>
      ok_or (base64_decode (filter_chars (λ c, negb (is_ascii_whitespace c)) data))
        (InvalidRequest 422 ("the " +:+ part +:+ " is not valid base64"))
  | PSchema schema_id data => map_err ApiKafka (encode_payload schema_id data)
  end.

Definition into_bytes_option (payload : option RecordPayload) (part : string) : result ApiError (option string) :=
  match payload with None => Ok None | Some payload => Some <$> into_bytes payload part end.

Record ProduceRecord : Set := {
  pr_partition : option Z;
  pr_key : option RecordPayload;
  pr_value : option RecordPayload;
  pr_headers : list (string * string);
}.

Definition into_record (request : ProduceRecord) (topic : string) : result ApiError NewRecord :=
  key ← into_bytes_option (pr_key request) "key";
  value ← into_bytes_option (pr_value request) "value";
  Ok {| nr_topic := topic; nr_partition := pr_partition request; nr_key := key; nr_value := value;
        nr_headers := pr_headers request |}.
End produce.

(** ** Streams *)

(** Why a stream must end, given what its session's guard answers. *)
Definition denied (cluster : string) (guard : option EffectiveAccess) : option ApiError :=
  match guard with
  | None => Some SessionExpired
  | Some access =>
      match clustered ← access_cluster access cluster; capability PRecords clustered with
      | Ok _ => None
      | Err error => Some (ApiAccess error)
      end
  end.

(** The chunks of an export: a turn asks the guard, then the export. *)
Fixpoint export_stream (cluster : string) (x : Export) (turns : list (option EffectiveAccess * FetchEnv))
    : list (result ApiError (list Record_)) :=
  match turns with
  | [] => []
  | (guard, env) :: turns =>
      match denied cluster guard with
      | Some error => [Err error]
      | None =>
          match export_next x env with
          | (_, Err error) => [Err (ApiKafka error)]
          | (_, Ok None) => []
          | (x, Ok (Some records)) => Ok records :: export_stream cluster x turns
          end
      end
  end.

(** A chunk's bytes; [None] is the panic of [expect]. *)
Fixpoint ndjson (records : list Record_) : option string :=
  match records with
  | [] => Some EmptyString
  | record :: records =>
      line ← json_to_string (ApiRecord_json (ApiRecord_from record));
      rest ← ndjson records;
      Some (line +:+ String "010" rest)
  end.

Inductive TailEvent : Type :=
  | TailReady (start : list TailPosition) (obfuscated : bool)
  | TailRecords (records : list ApiRecord) (skipped : Z)
  | TailError (error : ApiError).

Definition TailEvent_name (e : TailEvent) : string :=
  match e with TailReady _ _ => "ready" | TailRecords _ _ => "records" | TailError _ => "error" end.

Definition tail_ready (t : Tail) : TailEvent := TailReady (tl_start t) (obfuscated (tl_pipeline t)).

(** A call of the tail's [next], and what the guard answers after it. *)
Record FollowTurn : Type := {
  ft_called : Z;
  ft_flushed : Z;
  ft_turns : list TailTurn;
  ft_guard : option EffectiveAccess;
}.

(** The events of a followed tail: a turn asks the tail, then the guard; an empty batch is not sent. *)
Fixpoint follow (cluster : string) (t : Tail) (turns : list FollowTurn) : list TailEvent :=
  match turns with
  | [] => []
  | turn :: turns =>
      match tail_next t (ft_called turn) (ft_flushed turn) (ft_turns turn) with
      | (_, Err error, _) => [TailError (ApiKafka error)]
      | (t, Ok batch, _) =>
          match denied cluster (ft_guard turn) with
          | Some error => [TailError error]
          | None =>
              if tail_batch_is_empty batch then follow cluster t turns
              else TailRecords (ApiRecord_from <$> tb_records batch) (tb_skipped batch) :: follow cluster t turns
          end
      end
  end.

(** [tail], once opened. *)
Definition tail_stream (cluster : string) (t : Tail) (turns : list FollowTurn) : list TailEvent :=
  tail_ready t :: follow cluster t turns.

End records.

(** ** Queries *)

Section queries.
Context {PL : PayloadLib} {RL : RedactLib} {FL : FilterLib} {TL : TimestampLib} {AL : ApiTimeLib}.

Lemma trim_to_string c : trim (to_string c) = to_string c.
Proof. apply trim_all_graphic, to_string_graphic. Qed.

Lemma to_string_nonempty c : is_empty (to_string c) = false.
Proof. reflexivity. Qed.

(** The cursor a page hands on is taken back, in the order it was made for alone. *)
Lemma params_cursor_own c order :
  wf c → params_cursor (Some (to_string c)) order =
    if decide (Cursor.order c = order) then Ok (Some c) else Err InvalidCursor.
Proof.
  intros Hwf. unfold params_cursor. cbn [fmap option_fmap option_map].
  rewrite trim_to_string, to_string_nonempty, (parse_to_string_wf c Hwf). simpl. unfold validate_for.
  by repeat case_decide.
Qed.

(** A query a client's parameters make is consistent, with a cursor of its own order; parameters
    are refused for their times, their text or their cursor. *)
Lemma params_into_query_spec p topic :
  match params_into_query p topic with
  | Ok query =>
      query_consistent query ∧ rq_topic query = topic ∧ rq_order query = default Newest (qp_order p) ∧
      timestamp_range (qp_from p) (qp_to p) = Ok (rq_timestamps query) ∧
      record_filter (qp_contains p) = Ok (rq_filter query) ∧
      (∀ cursor, rq_cursor query = Some cursor → wf cursor)
  | Err error =>
      timestamp_range (qp_from p) (qp_to p) = Err error ∨ record_filter (qp_contains p) = Err error ∨
      params_cursor (qp_cursor p) (default Newest (qp_order p)) = Err error
  end.
Proof.
  unfold params_into_query.
  destruct (timestamp_range (qp_from p) (qp_to p)) as [timestamps|error]; [|by left]. simpl.
  destruct (record_filter (qp_contains p)) as [filter|error]; [|by right; left]. simpl.
  destruct (params_cursor (qp_cursor p) _) as [cursor|error] eqn:Hcursor; [|by right; right]. simpl.
  unfold query_consistent. simpl. unfold params_cursor in Hcursor.
  destruct (trim <$> qp_cursor p) as [text|]; [|by injection Hcursor as <-].
  destruct (is_empty text); [by injection Hcursor as <-|].
  destruct (Cursor.parse text) as [found|] eqn:Hparse; [|done]. simpl in Hcursor. unfold validate_for in Hcursor.
  destruct (decide _) as [Horder|]; [|done]. injection Hcursor as <-.
  split_and!; try done. intros c [= <-]. by eapply parse_wf.
Qed.
End queries.

(** ** Streams *)

(** An access that holds the records of a cluster. *)
Definition holds_records (access : EffectiveAccess) (cluster : string) : Prop :=
  ∃ clustered, access_cluster access cluster = Ok clustered ∧ allows clustered PRecords = true.

Lemma denied_none cluster guard :
  denied cluster guard = None ↔ ∃ access, guard = Some access ∧ holds_records access cluster.
Proof.
  unfold denied, holds_records. destruct guard as [access|]; [|by split; [|intros (? & ? & _)]].
  destruct (access_cluster access cluster) as [clustered|error] eqn:Haccess; simpl; unfold capability, check.
  - destruct (allows clustered PRecords) eqn:Hallows; simpl.
    + split; [intros _; eauto|done].
    + split; [done|]. intros (? & [= <-] & c & Hc & ?). congruence.
  - split; [done|]. intros (? & [= <-] & c & Hc & ?). congruence.
Qed.

Section streams.
Context {PL : PayloadLib} {RL : RedactLib} {FL : FilterLib} {TL : TimestampLib} {AL : ApiTimeLib}.

Lemma export_next_page x env x' records :
  export_next x env = (x', Ok (Some records)) →
  ∃ page, fetch (ex_request x) (ex_span x) env = Ok page ∧ records = rp_records page.
Proof.
  unfold export_next. destruct (ex_done x); [done|]. destruct (fetch _ _ _) as [page|]; [|done].
  destruct (match rp_next_cursor page with Some _ => _ | None => _ end) as [next|]; [|done].
  destruct (_ && _); [done|]. intros [= _ <-]. eauto.
Qed.

Lemma export_next_done x env x' : export_next x env = (x', Ok None) → ex_done x = true.
Proof.
  unfold export_next. destruct (ex_done x); [done|]. destruct (fetch _ _ _) as [page|]; [|done].
  destruct (match rp_next_cursor page with Some _ => _ | None => _ end) as [next|]; [|done].
  by destruct (_ && _).
Qed.

(** C32 (refinement): the body of an export is the pages of one run of it, each read while the session held the
    cluster's records; it goes on until the export is done, unless an error ends it, after which
    nothing is sent. *)
Theorem export_stream_spec cluster x turns :
  ∃ pages x' last_,
    export_run x pages x' ∧
    export_stream cluster x turns = ((λ call, Ok (rp_records call.2)) <$> pages) ++ last_ ∧
    (length pages ≤ length turns)%nat ∧
    Forall2 (λ turn call, turn.2 = call.1 ∧ ∃ access, turn.1 = Some access ∧ holds_records access cluster)
      (list.take (length pages) turns) pages ∧
    (last_ = [] ∧ (length pages = length turns ∨ ex_done x' = true) ∨ ∃ error, last_ = [Err error]).
Proof.
  revert x. induction turns as [|[guard env] turns IH]; intros x.
  { exists [], x, []. split_and!; [constructor|done|simpl; lia|constructor|]. left. auto. }
  cbn [export_stream]. destruct (denied cluster guard) as [error|] eqn:Hdenied.
  { exists [], x, [Err error]. split_and!; [constructor|done|simpl; lia|constructor|eauto]. }
  apply denied_none in Hdenied as (access & -> & Hholds).
  destruct (export_next x env) as [x1 [[records|]|error]] eqn:Hnext.
  - destruct (export_next_page _ _ _ _ Hnext) as (page & Hfetch & ->).
    destruct (IH x1) as (pages & x' & last_ & Hrun & -> & Hlen & Hturns & Hend).
    exists ((env, page) :: pages), x', last_. split; [by econstructor|]. split; [done|]. split; [simpl; lia|].
    split; [constructor; [simpl; eauto|exact Hturns]|]. simpl. destruct Hend as [[-> [->|]]|]; auto.
  - apply export_next_done in Hnext. exists [], x, [].
    split_and!; [constructor|done|simpl; lia|constructor|]. left. auto.
  - exists [], x, [Err (ApiKafka error)]. split_and!; [constructor|done|simpl; lia|constructor|eauto].
Qed.

(** A batch a call of [next] answered, after which the guard held the cluster's records. *)
Definition followed (cluster : string) (turns : list FollowTurn) (records : list ApiRecord) (skipped : Z) : Prop :=
  ∃ t turn access batch, turn ∈ turns ∧ ft_guard turn = Some access ∧ holds_records access cluster ∧
    (tail_next t (ft_called turn) (ft_flushed turn) (ft_turns turn)).1.2 = Ok batch ∧
    records = ApiRecord_from <$> tb_records batch ∧ skipped = tb_skipped batch ∧
    tail_batch_is_empty batch = false.

(** A followed tail sends what a call of [next] answered, once the guard asked after it held the
    cluster's records, and nothing after an error. *)
Lemma follow_guarded cluster t turns :
  (∀ records skipped, TailRecords records skipped ∈ follow cluster t turns → followed cluster turns records skipped) ∧
  (∀ before_ error rest, follow cluster t turns = before_ ++ TailError error :: rest → rest = []).
Proof.
  revert t. induction turns as [|turn turns IH]; intros t.
  { split; [by intros ?? ?%not_elem_of_nil|]. intros before_ error rest H. by apply app_cons_not_nil in H. }
  cbn [follow]. destruct (tail_next t _ _ _) as [[t1 [batch|error]] calls] eqn:Hnext.
  2: { split; [by intros ?? ?%list_elem_of_singleton|].
       intros [|? before_] e rest; [by intros [= _ <-]|]. intros [= _ H]. by apply app_cons_not_nil in H. }
  destruct (denied cluster (ft_guard turn)) as [error|] eqn:Hdenied.
  { split; [by intros ?? ?%list_elem_of_singleton|].
    intros [|? before_] e rest; [by intros [= _ <-]|]. intros [= _ H]. by apply app_cons_not_nil in H. }
  apply denied_none in Hdenied as (access & Hguard & Hholds). destruct (IH t1) as [IHin IHlast].
  assert (∀ records skipped, followed cluster turns records skipped → followed cluster (turn :: turns) records skipped)
    as Hlater by (intros records skipped (t0 & tn & a & b & ? & ?); exists t0, tn, a, b; split; [by right|done]).
  destruct (tail_batch_is_empty batch) eqn:Hempty; [by eauto|]. split.
  - intros records skipped [[= -> ->]|Hin]%elem_of_cons; [|by apply Hlater, IHin].
    exists t, turn, access, batch. rewrite Hnext. split_and!; [by left|done..].
  - intros [|? before_] e rest; [done|]. intros [= _ H]. by apply IHlast in H.
Qed.

(** A chunk of an export is a line for each of its records. *)
Lemma ndjson_lines records text :
  ndjson records = Some text →
  (∀ j line, json_to_string j = Some line → contains_char "010" line = false) →
  Forall2 (λ record line, json_to_string (ApiRecord_json (ApiRecord_from record)) = Some line)
    records (list.take (length records) (split "010" text)) ∧
  drop (length records) (split "010" text) = [EmptyString].
Proof.
  intros Htext Hline. revert text Htext. induction records as [|record records IH]; intros text.
  - intros [= <-]. split; [constructor|done].
  - cbn [ndjson]. intros (line & Hjson & (rest & Hrest & [= <-])%bind_Some)%bind_Some.
    rewrite split_app by eauto. destruct (IH rest Hrest) as [Hlines Hlast].
    split; [by constructor|done].
Qed.
End streams.
