(* ===== verification/Requests.v ===== *)
(** [src/app/resources/]: the bodies a change is asked with, how each becomes what Kafka or the
    registry is told, and the handlers that answer a change, in [topics.rs], [records.rs],
    [groups.rs], [subjects.rs], [acls.rs], [quotas.rs], [scram_users.rs] and [brokers.rs] with
    their [types.rs].

    The enums of the bodies have the variants of the domain's ([from_same_variants!]) and are
    the domain's here. A record's bytes are decoded by the parameters of [RecordApi]. *)

From Stdlib Require Import SpecFloat.
From S2P Require Import Prelude Text Utf8 Errors Metadata TopicConfig Group Reset Tables Registry Acl Quota Access Handle RecordApi.

(** ** What each body says *)

Definition unprocessable (message : string) : ApiError := InvalidRequest 422 message.

Section bodies.
(** [Debug] of a character, whose tables of printable characters are not copied, and the
    record's encoders. *)
Context (char_debug : string → string)
  (base64_decode : string → option string) (encode_payload : Z → string → result KafkaError string).

Definition InvalidTopicName_text (e : InvalidTopicName) : string :=
  match e with
  | EmptyName => "topic name cannot be empty"
  | TooLong length => "topic name length " +:+ print_Z length +:+ " exceeds maximum of " +:+ print_Z MAX_TOPIC_NAME_LEN
  | IllegalCharacter c =>
      "topic name contains illegal character " +:+ char_debug c +:+ "; only [a-zA-Z0-9._-] is allowed"
  end.

(** [CreateTopic] has the fields of [NewTopic]. *)
Definition into_topic (request : NewTopic) : result ApiError NewTopic :=
  _ ← map_err (λ error, unprocessable (InvalidTopicName_text error)) (validate_topic_name (nt_name request));
  Ok request.

(** [EditConfigs] has the fields of [ConfigEdit]; its sets are in order of name. *)
Definition into_edit (request : ConfigEdit) : result ApiError ConfigEdit :=
  if bool_decide (edit_set request = ∅) && bool_decide (edit_reset request = ∅)
  then Err (unprocessable "name a config to set or reset")
  else
    match List.find (λ name, bool_decide (is_Some (edit_set request !! name)))
            (sort_by String.compare (elements (edit_reset request))) with
    | Some name => Err (unprocessable (name +:+ " cannot be both set and reset"))
    | None => Ok request
    end.

Record ResetOffsetsBody : Set := {
  ro_topic : option string;
  ro_partitions : gset Z;
  ro_to : ResetTarget;
  ro_dry_run : bool;
}.

Definition into_reset (request : ResetOffsetsBody) (group : string) : result ApiError OffsetReset :=
  if bool_decide (ro_topic request = None) && negb (bool_decide (ro_partitions request = ∅))
  then Err (unprocessable "partitions need a topic")
  else Ok {| or_group := group; or_topic := ro_topic request;
             or_partitions := sort_by Z.compare (elements (ro_partitions request)); or_to := ro_to request |}.

Fixpoint repeated_entity (entity : list QuotaEntity) : option QuotaEntity :=
  match entity with
  | part :: (next :: _) as rest =>
      if bool_decide (qe_entity_type part = qe_entity_type next) then Some part else repeated_entity rest
  | _ => None
  end.

Definition into_quota (request : ClientQuota) : result ApiError ClientQuota :=
  if bool_decide (cq_entity request = []) then Err (unprocessable "name the entity the quota applies to")
  else
    let entity := sort_by entity_cmp (cq_entity request) in
    match repeated_entity entity with
    | Some part => Err (unprocessable ("the entity names " +:+ quota_wire (qe_entity_type part) +:+ " twice"))
    | None => Ok {| cq_entity := entity; cq_values := cq_values request |}
    end.

Record SetScramCredentialBody : Set := {
  ss_mechanism : ScramMechanism;
  ss_password : string;
  ss_iterations : option Z;
}.

(** [SCRAM_ITERATIONS]. *)
Definition MIN_ITERATIONS : Z := 4096.
Definition MAX_ITERATIONS : Z := 16384.

Definition into_credential (request : SetScramCredentialBody) (user : string) : result ApiError NewScramCredential :=
  let iterations := default MIN_ITERATIONS (ss_iterations request) in
  if negb ((MIN_ITERATIONS <=? iterations)%Z && (iterations <=? MAX_ITERATIONS)%Z)
  then Err (unprocessable ("iterations must be between " +:+ print_Z MIN_ITERATIONS +:+ " and " +:+ print_Z MAX_ITERATIONS))
  else if is_empty (ss_password request) then Err (unprocessable "the password is empty")
  else Ok {| nc_user := user; nc_mechanism := ss_mechanism request; nc_iterations := iterations;
             nc_password := ss_password request |}.

Definition into_acls (bindings : list Acl) : result ApiError (list Acl) :=
  if bool_decide (bindings = []) then Err (unprocessable "name at least one binding") else Ok bindings.

Record RegisterSchemaBody : Set := {
  rs_schema_type : SchemaType;
  rs_schema : string;
  rs_references : list SchemaReference;
}.

Definition into_schema (request : RegisterSchemaBody) (subject : string) : NewSchema :=
  {| ns_subject := subject; ns_schema_type := rs_schema_type request; ns_schema := rs_schema request;
     ns_references := rs_references request |}.

(** ** The handlers *)

(** What every handler does, with the capability it asks for, what its body says and the
    operation it runs: the cluster, the capability, the body, the operation. *)
Definition handle {A} (s : Session) (name : string) (p : Privilege) (request : result ApiError A)
    (run : GrantedOn p → A → Op ()) (t : nat) : list Event * result ApiError () * nat :=
  match session_cluster s name with
  | Err error => ([], Err error, t)
  | Ok cluster =>
      match write_capability p cluster with
      | Err error => ([], Err (ApiAccess error), t)
      | Ok granted =>
          match request with
          | Err error => ([], Err error, t)
          | Ok request => let '(events, r, t) := run granted request t in (events, map_err ApiKafka r, t)
          end
      end
  end.

(** The requests that change a cluster, with what their paths, queries and bodies carry. *)
Inductive HttpChange : Type :=
  | PostTopic (request : NewTopic)
  | DeleteTopicAt (topic : string)
  | PatchTopicConfigs (topic : string) (request : ConfigEdit)
  | PostPartitions (topic : string) (count : Z)
  | PostRecord (topic : string) (request : ProduceRecord)
  | DeleteRecordsOf (topic : string) (partitions : list Z) (before : option Z)
  | PatchGroupOffsets (group : string) (request : ResetOffsetsBody)
  | DeleteGroupOffsets (group topic : string)
  | DeleteGroupAt (group : string)
  | PostSchema (subject : string) (request : RegisterSchemaBody)
  | PatchSubject (subject : string) (level : SchemaCompatibility)
  | DeleteSchemaAt (subject : string) (version : option Z) (permanent : bool)
  | PostAcls (bindings : list Acl)
  | DeleteAclOf (acl : Acl)
  | PutQuota (request : ClientQuota)
  | PutScramUser (user : string) (request : SetScramCredentialBody)
  | DeleteScramUser (user : string) (mechanism : ScramMechanism)
  | PatchBrokerConfigs (id : Z) (request : ConfigEdit)
  | PatchBrokerDefaults (request : ConfigEdit).

(** A dry run answers the plan. *)
Definition reset_or_plan (dry_run : bool) (g : GrantedOn PResetOffsets) (reset : OffsetReset) : Op () :=
  op_done (if dry_run then plan_only g reset else reset_offsets g reset).

(** Each handler, by its function. *)
Definition create_topic_handler (s : Session) (name : string) (request : NewTopic) :=
  handle s name PCreateTopics (into_topic request) create_topic.

Definition delete_topic_handler (s : Session) (name topic : string) :=
  handle s name PDeleteTopics (Ok topic) delete_topic.

Definition alter_topic_configs_handler (s : Session) (name topic : string) (request : ConfigEdit) :=
  handle s name PAlterTopicConfigs (into_edit request) (λ g, alter_topic_configs g topic).

Definition add_partitions_handler (s : Session) (name topic : string) (count : Z) :=
  handle s name PAddPartitions (Ok count) (λ g, add_partitions g topic).

Definition produce_handler (s : Session) (name topic : string) (request : ProduceRecord) :=
  handle s name PProduce (into_record base64_decode encode_payload request topic)
    (λ g record, op_done (produce g record)).

Definition delete_records_handler (s : Session) (name topic : string) (partitions : list Z) (before : option Z) :=
  handle s name PDeleteRecords (delete_before before) (λ g, delete_records g topic partitions).

Definition reset_offsets_handler (s : Session) (name group : string) (request : ResetOffsetsBody) :=
  handle s name PResetOffsets (into_reset request group) (reset_or_plan (ro_dry_run request)).

Definition delete_offsets_handler (s : Session) (name group topic : string) :=
  handle s name PDeleteOffsets (Ok topic) (λ g, delete_offsets g group).

Definition delete_group_handler (s : Session) (name group : string) :=
  handle s name PDeleteGroups (Ok group) delete_group.

Definition register_schema_handler (s : Session) (name subject : string) (request : RegisterSchemaBody) :=
  handle s name PRegisterSchemas (Ok (into_schema request subject)) (λ g schema, op_done (register_schema g schema)).

Definition edit_subject_handler (s : Session) (name subject : string) (level : SchemaCompatibility) :=
  handle s name PSetCompatibility (Ok level) (λ g, set_compatibility g subject).

Definition delete_schema_handler (s : Session) (name subject : string) (version : option Z) (permanent : bool) :=
  handle s name PDeleteSchemas (Ok {| sd_subject := subject; sd_version := version; sd_permanent := permanent |})
    delete_schema.

Definition create_acls_handler (s : Session) (name : string) (bindings : list Acl) :=
  handle s name PCreateAcls (into_acls bindings) create_acls.

Definition delete_acl_handler (s : Session) (name : string) (acl : Acl) :=
  handle s name PDeleteAcls (Ok acl) delete_acl.

Definition set_client_quota_handler (s : Session) (name : string) (request : ClientQuota) :=
  handle s name PAlterQuotas (into_quota request) set_client_quota.

Definition set_scram_credential_handler (s : Session) (name user : string) (request : SetScramCredentialBody) :=
  handle s name PSetScramCredentials (into_credential request user) set_scram_credential.

Definition delete_scram_credential_handler (s : Session) (name user : string) (mechanism : ScramMechanism) :=
  handle s name PDeleteScramCredentials (Ok mechanism) (λ g, delete_scram_credential g user).

(** [alter], of a broker or of the cluster's defaults. *)
Definition alter_broker_handler (s : Session) (name : string) (scope : BrokerScope) (request : ConfigEdit) :=
  handle s name PAlterBrokerConfigs (into_edit request) (λ g, alter_broker_configs g scope).

Definition http_change (s : Session) (name : string) (c : HttpChange)
    : nat → list Event * result ApiError () * nat :=
  match c with
  | PostTopic request => create_topic_handler s name request
  | DeleteTopicAt topic => delete_topic_handler s name topic
  | PatchTopicConfigs topic request => alter_topic_configs_handler s name topic request
  | PostPartitions topic count => add_partitions_handler s name topic count
  | PostRecord topic request => produce_handler s name topic request
  | DeleteRecordsOf topic partitions before => delete_records_handler s name topic partitions before
  | PatchGroupOffsets group request => reset_offsets_handler s name group request
  | DeleteGroupOffsets group topic => delete_offsets_handler s name group topic
  | DeleteGroupAt group => delete_group_handler s name group
  | PostSchema subject request => register_schema_handler s name subject request
  | PatchSubject subject level => edit_subject_handler s name subject level
  | DeleteSchemaAt subject version permanent => delete_schema_handler s name subject version permanent
  | PostAcls bindings => create_acls_handler s name bindings
  | DeleteAclOf acl => delete_acl_handler s name acl
  | PutQuota request => set_client_quota_handler s name request
  | PutScramUser user request => set_scram_credential_handler s name user request
  | DeleteScramUser user mechanism => delete_scram_credential_handler s name user mechanism
  | PatchBrokerConfigs id request => alter_broker_handler s name (OneBroker id) request
  | PatchBrokerDefaults request => alter_broker_handler s name EveryBroker request
  end.

(** ** What a request asks for *)

(** The change a request asks for, if its body makes sense; none for a dry run. *)
Definition asked_for (c : HttpChange) : result ApiError (option WriteOp) :=
  match c with
  | PostTopic request => topic ← into_topic request; Ok (Some (CreateTopic topic))
  | DeleteTopicAt topic => Ok (Some (DeleteTopic topic))
  | PatchTopicConfigs topic request => edit ← into_edit request; Ok (Some (AlterTopicConfigs topic edit))
  | PostPartitions topic count => Ok (Some (AddPartitions topic count))
  | PostRecord topic request =>
      record ← into_record base64_decode encode_payload request topic; Ok (Some (Produce record))
  | DeleteRecordsOf topic partitions before =>
      before ← delete_before before; Ok (Some (DeleteRecords topic partitions before))
  | PatchGroupOffsets group request =>
      reset ← into_reset request group; Ok (if ro_dry_run request then None else Some (ResetOffsets reset))
  | DeleteGroupOffsets group topic => Ok (Some (DeleteOffsets group topic))
  | DeleteGroupAt group => Ok (Some (DeleteGroup group))
  | PostSchema subject request => Ok (Some (RegisterSchema (into_schema request subject)))
  | PatchSubject subject level => Ok (Some (SetCompatibility subject level))
  | DeleteSchemaAt subject version permanent =>
      Ok (Some (DeleteSchema {| sd_subject := subject; sd_version := version; sd_permanent := permanent |}))
  | PostAcls bindings => acls ← into_acls bindings; Ok (Some (CreateAcls acls))
  | DeleteAclOf acl => Ok (Some (DeleteAcl acl))
  | PutQuota request => quota ← into_quota request; Ok (Some (AlterQuota quota))
  | PutScramUser user request => credential ← into_credential request user; Ok (Some (SetScramCredential credential))
  | DeleteScramUser user mechanism => Ok (Some (DeleteScramCredential user mechanism))
  | PatchBrokerConfigs id request => edit ← into_edit request; Ok (Some (AlterBrokerConfigs (OneBroker id) edit))
  | PatchBrokerDefaults request => edit ← into_edit request; Ok (Some (AlterBrokerConfigs EveryBroker edit))
  end.

End bodies.

(** What klens lets a change tell Kafka: names Kafka takes, an edit that edits something and
    never a config twice, an offset that can be, an entity with each type once, a credential
    Kafka accepts. *)
Definition lawful (w : Write) : Prop :=
  match w with
  | WCreateTopic topic =>
      (1 ≤ Z.of_nat (String.length (nt_name topic)) ≤ 249)%Z ∧ all_chars legal_byte (nt_name topic) = true
  | WAlterTopicConfigs _ edit | WAlterBrokerConfigs _ edit =>
      (edit_set edit ≠ ∅ ∨ edit_reset edit ≠ ∅) ∧ ∀ name, name ∈ edit_reset edit → edit_set edit !! name = None
  | WDeleteRecords deletion =>
      ∀ partition offset, rd_before deletion !! partition = Some (Some offset) → (0 ≤ offset)%Z
  | WCreateAcls acls => acls ≠ []
  | WAlterClientQuota quota => cq_entity quota ≠ [] ∧ NoDup (qe_entity_type <$> cq_entity quota)
  | WSetScramCredential credential =>
      (4096 ≤ nc_iterations credential ≤ 16384)%Z ∧ nc_password credential ≠ EmptyString
  | _ => True
  end.

(** The capability a request needs. *)
Definition capability_for (c : HttpChange) : Privilege :=
  match c with
  | PostTopic _ => PCreateTopics
  | DeleteTopicAt _ => PDeleteTopics
  | PatchTopicConfigs _ _ => PAlterTopicConfigs
  | PostPartitions _ _ => PAddPartitions
  | PostRecord _ _ => PProduce
  | DeleteRecordsOf _ _ _ => PDeleteRecords
  | PatchGroupOffsets _ _ => PResetOffsets
  | DeleteGroupOffsets _ _ => PDeleteOffsets
  | DeleteGroupAt _ => PDeleteGroups
  | PostSchema _ _ => PRegisterSchemas
  | PatchSubject _ _ => PSetCompatibility
  | DeleteSchemaAt _ _ _ => PDeleteSchemas
  | PostAcls _ => PCreateAcls
  | DeleteAclOf _ => PDeleteAcls
  | PutQuota _ => PAlterQuotas
  | PutScramUser _ _ => PSetScramCredentials
  | DeleteScramUser _ _ => PDeleteScramCredentials
  | PatchBrokerConfigs _ _ | PatchBrokerDefaults _ => PAlterBrokerConfigs
  end.

(** Why a caller may not have [p] used on [name], if so. *)
Definition barred (s : Session) (name : string) (p : Privilege) : option ApiError :=
  match session_cluster s name with
  | Err error => Some error
  | Ok cluster => match write_capability p cluster with Err error => Some (ApiAccess error) | Ok _ => None end
  end.

(** ** Helper lemmas *)

Lemma into_topic_ok char_debug request topic :
  into_topic char_debug request = Ok topic → lawful (WCreateTopic topic).
Proof.
  unfold into_topic. destruct (validate_topic_name _) as [[]|] eqn:E; [|done]. intros [= <-].
  by apply validate_topic_name_ok in E.
Qed.

Lemma into_edit_ok request edit : into_edit request = Ok edit →
  (edit_set edit ≠ ∅ ∨ edit_reset edit ≠ ∅) ∧ ∀ name, name ∈ edit_reset edit → edit_set edit !! name = None.
Proof.
  unfold into_edit. destruct (_ && _) eqn:Ee; [done|]. destruct (List.find _ _) eqn:Ef; [done|]. intros [= <-]. split.
  - apply andb_false_iff in Ee as [E|E]; apply bool_decide_eq_false in E; tauto.
  - intros name Hn. pose proof (find_none _ _ Ef name) as H.
    rewrite <- list_elem_of_In, elem_of_sort_by, elem_of_elements in H. specialize (H Hn).
    apply bool_decide_eq_false in H. by destruct (edit_set request !! name); [exfalso; eauto|].
Qed.

Lemma entity_rank_inj a b : entity_rank a = entity_rank b → a = b.
Proof. by destruct a, b. Qed.

#[local] Instance rank_order : OrderCmp (λ a b, Z.compare (entity_rank a) (entity_rank b)).
Proof. apply (cmp_on_order entity_rank), _. Qed.
#[local] Instance entity_cmp_order : OrderCmp entity_cmp.
Proof. exact (cmp_on_order qe_entity_type _ rank_order). Qed.

(** A list in order of type with no neighbours alike has each type once. *)
Lemma repeated_entity_none entity :
  StronglySorted (cmp_le entity_cmp) entity → repeated_entity entity = None → NoDup (qe_entity_type <$> entity).
Proof.
  intros Hs Hn. apply (strictly_sorted_NoDup (λ a b, Z.compare (entity_rank a) (entity_rank b))).
  induction Hs as [|a entity Hs IH Ha]; csimpl; [constructor|].
  assert (repeated_entity entity = None) as Hr.
  { destruct entity as [|b entity]; [done|]. cbn [repeated_entity] in Hn. by case_bool_decide. }
  constructor; [by apply IH|]. destruct entity as [|b entity]; [constructor|].
  assert (qe_entity_type a ≠ qe_entity_type b) as Hab by (cbn [repeated_entity] in Hn; by case_bool_decide).
  assert (entity_rank (qe_entity_type a) < entity_rank (qe_entity_type b))%Z as Hlt.
  { inversion Ha as [|? ? Hle]; subst. unfold cmp_le, entity_cmp in Hle.
    destruct (Z.compare_spec (entity_rank (qe_entity_type a)) (entity_rank (qe_entity_type b))) as [E|E|E]; try done.
    by apply entity_rank_inj in E. }
  apply Forall_fmap, Forall_forall. intros c Hc. apply Z.compare_lt_iff.
  apply elem_of_cons in Hc as [->|Hc]; [done|]. apply StronglySorted_inv in Hs as [_ Hb].
  rewrite Forall_forall in Hb. specialize (Hb c Hc). unfold cmp_le, entity_cmp in Hb.
  destruct (Z.compare_spec (entity_rank (qe_entity_type b)) (entity_rank (qe_entity_type c))); try done; lia.
Qed.

Lemma into_quota_ok request quota : into_quota request = Ok quota → lawful (WAlterClientQuota quota).
Proof.
  unfold into_quota. case_bool_decide as He; [done|]. destruct (repeated_entity _) eqn:Er; [done|].
  intros [= <-]. cbn [lawful cq_entity]. split.
  - intros Hs. apply He, nil_length_inv. by rewrite <- (length_sort_by entity_cmp), Hs.
  - apply repeated_entity_none; [|done]. apply sort_by_sorted, _.
Qed.

Lemma into_credential_ok request user credential :
  into_credential request user = Ok credential → lawful (WSetScramCredential credential).
Proof.
  unfold into_credential, MIN_ITERATIONS, MAX_ITERATIONS. destruct (negb _) eqn:Er; [done|].
  destruct (is_empty _) eqn:Ep; [done|]. intros [= <-]. cbn [lawful nc_iterations nc_password].
  apply negb_false_iff, andb_true_iff in Er as [H1%Z.leb_le H2%Z.leb_le]. split; [lia|]. intros E. by rewrite E in Ep.
Qed.

Lemma delete_before_ok before before' : delete_before before = Ok before' →
  ∀ offset, before' = Some offset → (0 ≤ offset)%Z.
Proof.
  destruct before as [offset|]; simpl; [|by intros [= <-]].
  destruct (Z.ltb_spec offset 0); [done|]. intros [= <-] ? [= <-]. done.
Qed.

Lemma collect_constant (partitions : list Z) (before : option Z) partition offset :
  collect ((λ p, (p, before)) <$> partitions) !! partition = Some offset → offset = before.
Proof.
  intros H. pose proof (collect_cases ((λ p, (p, before)) <$> partitions) partition) as Hc. rewrite H in Hc.
  apply list_elem_of_fmap in Hc as (p & [=] & _). by subst.
Qed.

Section handling.
Context (char_debug : string → string)
  (base64_decode : string → option string) (encode_payload : Z → string → result KafkaError string).

(** What a request asks for is lawful by the time it is written. *)
Lemma asked_lawful c op cluster t1 t2 t3 w :
  asked_for char_debug base64_decode encode_payload c = Ok (Some op) →
  planned cluster t1 t2 t3 op = Ok (Some w) → lawful w.
Proof.
  intros Hc Hp. destruct c; cbn [asked_for] in Hc;
    try (destruct (into_topic _ _) eqn:E in Hc); try (destruct (into_edit _) eqn:E in Hc);
    try (destruct (into_record _ _ _ _) eqn:E in Hc); try (destruct (delete_before _) eqn:E in Hc);
    try (destruct (into_reset _ _) eqn:E in Hc); try (destruct (ro_dry_run _) in Hc);
    try (destruct (into_acls _) eqn:E in Hc); try (destruct (into_quota _) eqn:E in Hc);
    try (destruct (into_credential _ _) eqn:E in Hc); simplify_eq/=;
    try (cbv [mbind result_bind] in Hp);
    repeat match goal with
    | H : context [match ?x with _ => _ end] |- _ => destruct x eqn:?; simplify_eq/=
    end; try done.
  all: try (by eapply into_topic_ok); try (by eapply into_edit_ok);
    try (by eapply into_quota_ok); try (by eapply into_credential_ok).
  - intros partition offset H%collect_constant. by eapply delete_before_ok.
  - unfold into_acls in E. by case_bool_decide; simplify_eq.
Qed.

(** The privilege of the change a request asks for. *)
Lemma asked_needs c op :
  asked_for char_debug base64_decode encode_payload c = Ok (Some op) → needs op = capability_for c.
Proof.
  intros Hc. destruct c; cbn [asked_for] in Hc;
    repeat match type of Hc with
    | context [into_topic ?a ?b] => destruct (into_topic a b)
    | context [into_edit ?a] => destruct (into_edit a)
    | context [into_record ?a ?b ?c ?d] => destruct (into_record a b c d)
    | context [delete_before ?a] => destruct (delete_before a)
    | context [into_reset ?a ?b] => destruct (into_reset a b)
    | context [ro_dry_run ?a] => destruct (ro_dry_run a)
    | context [into_acls ?a] => destruct (into_acls a)
    | context [into_quota ?a] => destruct (into_quota a)
    | context [into_credential ?a ?b] => destruct (into_credential a b)
    end; by simplify_eq/=.
Qed.

(** A body that makes no sense is a 422. *)
Lemma asked_error c error :
  asked_for char_debug base64_decode encode_payload c = Err error →
  ApiError_status error = 422%Z ∨ ∃ topic request, c = PostRecord topic request.
Proof.
  intros Hc. destruct c; try (right; by eauto); left; cbn [asked_for] in Hc;
    unfold into_topic, into_edit, delete_before, into_reset, into_acls, into_quota, into_credential in Hc;
    cbv [mbind result_bind] in Hc;
    repeat match goal with
    | H : context [match ?x with _ => _ end] |- _ => destruct x eqn:?; simplify_eq/=
    end; try done.
  destruct (validate_topic_name _); by simplify_eq/=.
Qed.

(** A handler refuses whom [barred] bars, then a body that makes no sense. *)
Lemma handle_refuses {A} s name p error (run : GrantedOn p → A → Op ()) t :
  handle s name p (Err error) run t = ([], Err (default error (barred s name p)), t).
Proof.
  unfold handle, barred. destruct (session_cluster _ _) as [cluster|]; [|done].
  by destruct (write_capability _ _).
Qed.

Lemma handle_plans s name reset t :
  ∃ r t', handle s name PResetOffsets (Ok reset) (reset_or_plan true) t = ([], r, t').
Proof.
  unfold handle. destruct (session_cluster _ _) as [cluster|]; [|by eexists _, _].
  destruct (write_capability _ _) as [g|]; [|by eexists _, _].
  unfold reset_or_plan, op_done, plan_only, op_bind. rewrite known_group_run.
  destruct (_ <$> group_at _ _ _); cbv beta iota zeta.
  - destruct (plan_run g reset (S t)) as [t' ->]. destruct (moves_at _ _ _ _); by eexists _, _.
  - by eexists _, _.
Qed.

(** What a change writes is the write planned for it. *)
Lemma execute_writes s name op t w :
  w ∈ writes (execute s name op t).1.1 → ∃ cluster t1 t2 t3, planned cluster t1 t2 t3 op = Ok (Some w).
Proof.
  pose proof (execute_cases s name op t) as H. intros Hw.
  destruct (privileges_for _ _) as [held|]; [|by rewrite H in Hw; apply not_elem_of_nil in Hw].
  destruct (List.find _ _) as [cluster|]; [|by rewrite H in Hw; apply not_elem_of_nil in Hw].
  destruct (negb _); [by rewrite H in Hw; apply not_elem_of_nil in Hw|].
  destruct (negb _); [by rewrite H in Hw; apply not_elem_of_nil in Hw|].
  destruct H as (g & _ & H). rewrite H in Hw. destruct (perform op g t) as [[events r] t'] eqn:Ep.
  apply perform_planned in Ep. destruct (read_times op t) as [[t1 t2] t3]. exists (gr_cluster g), t1, t2, t3.
  simpl in Hw. unfold did in Ep. destruct (planned _ _ _ _ _) as [[w'|]|].
  - destruct Ep as [Ew _]. rewrite Ew in Hw. apply list_elem_of_singleton in Hw. by subst.
  - destruct Ep as [-> _]. by apply not_elem_of_nil in Hw.
  - destruct Ep as [-> _]. by apply not_elem_of_nil in Hw.
Qed.

(** C12 (refinement): a request for a change is answered as the change it asks for is: a caller who may
    not make it is refused first, a body that makes no sense second, with a 422 unless the
    registry could not encode it, and neither tells Kafka anything, nor does a dry run; and
    whatever is told to Kafka or the registry is lawful and of the privilege asked for. *)
Theorem http_change_spec s name c t :
  let answer := http_change char_debug base64_decode encode_payload s name c t in
  match asked_for char_debug base64_decode encode_payload c with
  | Ok (Some op) => answer = execute s name op t ∧ needs op = capability_for c
  | Ok None => ∃ r t', answer = ([], r, t')
  | Err error =>
      answer = ([], Err (default error (barred s name (capability_for c))), t) ∧
      (ApiError_status error = 422%Z ∨ ∃ topic request, c = PostRecord topic request)
  end ∧
  ∀ w, w ∈ writes answer.1.1 → lawful w.
Proof.
  intros answer.
  assert (match asked_for char_debug base64_decode encode_payload c with
  | Ok (Some op) => answer = execute s name op t
  | Ok None => ∃ r t', answer = ([], r, t')
  | Err error => answer = ([], Err (default error (barred s name (capability_for c))), t)
  end) as Ha.
  { subst answer. destruct c; cbn [asked_for http_change capability_for];
      cbv delta [create_topic_handler delete_topic_handler alter_topic_configs_handler add_partitions_handler
        produce_handler delete_records_handler reset_offsets_handler delete_offsets_handler delete_group_handler
        register_schema_handler edit_subject_handler delete_schema_handler create_acls_handler delete_acl_handler
        set_client_quota_handler set_scram_credential_handler delete_scram_credential_handler
        alter_broker_handler]; cbv beta; try reflexivity;
      repeat match goal with
      | |- context [ro_dry_run ?a] => destruct (ro_dry_run a)
      | |- context [match _ ← ?x; _ with _ => _ end] => destruct x as [|]; cbn [mbind result_bind]
      end; try apply handle_refuses; try apply handle_plans; try reflexivity. }
  pose proof (asked_needs c) as Hneeds. pose proof (asked_lawful c) as Hlawful.
  pose proof (asked_error c) as Herr.
  destruct (asked_for _ _ _ c) as [[op|]|error]; split.
  - split; [done|by apply Hneeds].
  - rewrite Ha. intros w (cluster & t1 & t2 & t3 & Hp)%execute_writes. by eapply Hlawful.
  - done.
  - destruct Ha as (r & t' & ->). by intros w ?%not_elem_of_nil.
  - split; [done|by apply Herr].
  - rewrite Ha. by intros w ?%not_elem_of_nil.
Qed.

(** ** What an answer rests on *)

(** A cluster as a caller sees it that may not change what [p] covers there: its name and its
    switch. *)
Definition public_cluster (p : Privilege) (a : ClusterAccess) (c : Cluster) : Cluster :=
  if bool_decide (p ∈ ca_privileges a) && cl_writable c then c
  else
    {| cl_name := cl_name c; cl_writable := cl_writable c; cl_topology _ := None; cl_subjects _ := None;
       cl_offsets _ := {| os_cluster := cl_name c; os_committed_offsets _ := Err Timeout_;
                          os_low_watermarks _ := Err Timeout_; os_high_watermarks _ := Err Timeout_;
                          os_offsets_for_times _ _ _ := Err Timeout_ |};
       cl_broker_configs _ _ := Err Timeout_; cl_write _ := Err Timeout_ |}.

(** The clusters [access] reaches, each as above. *)
Definition public_clusters (p : Privilege) (access : EffectiveAccess) (clusters : list Cluster) : list Cluster :=
  omap (λ c,
    match access_cluster access (cl_name c) with
    | Ok a => Some (public_cluster p a c)
    | Err _ => None
    end) clusters.

Lemma public_cluster_name p a c : cl_name (public_cluster p a c) = cl_name c.
Proof. unfold public_cluster. by destruct (_ && _). Qed.

Lemma find_public p access clusters name a :
  access_cluster access name = Ok a →
  List.find (λ c, String.eqb (cl_name c) name) (public_clusters p access clusters) =
  public_cluster p a <$> List.find (λ c, String.eqb (cl_name c) name) clusters.
Proof.
  intros Ha. induction clusters as [|c clusters IH]; [done|]. cbn [public_clusters omap list_omap List.find].
  destruct (String.eqb_spec (cl_name c) name) as [E|E].
  - rewrite E, Ha. cbn. by rewrite public_cluster_name, E, String.eqb_refl.
  - destruct (access_cluster access (cl_name c)) as [b|]; [|exact IH].
    cbn. rewrite public_cluster_name. by apply String.eqb_neq in E as ->.
Qed.

(** A handler looks at a cluster no further than its caller may. *)
Lemma handle_public {A} access clusters name p (request : result ApiError A) (run : GrantedOn p → A → Op ()) t :
  handle {| se_access := access; se_clusters := public_clusters p access clusters |} name p request run t =
  handle {| se_access := access; se_clusters := clusters |} name p request run t.
Proof.
  unfold handle, session_cluster. cbn [se_access se_clusters].
  destruct (access_cluster access name) as [a|] eqn:Ha; [|done]. cbn [map_err mbind result_bind].
  assert (ca_cluster a = name) as -> by (revert Ha; unfold access_cluster; destruct (privileges_for _ _); [by intros [= <-]|done]).
  unfold clusters_get. rewrite (find_public _ _ _ _ _ Ha).
  destruct (List.find _ clusters) as [c|]; [|done]. cbn.
  unfold write_capability, writable, capability, check, allows, public_cluster. cbn [ch_cluster ch_access].
  destruct (cl_writable c) eqn:Hw, (bool_decide (p ∈ ca_privileges a)) eqn:Hp; cbn; by rewrite ?Hw, ?Hp.
Qed.

Lemma http_change_public access clusters name c t :
  http_change char_debug base64_decode encode_payload
    {| se_access := access; se_clusters := public_clusters (capability_for c) access clusters |} name c t =
  http_change char_debug base64_decode encode_payload
    {| se_access := access; se_clusters := clusters |} name c t.
Proof. destruct c; apply handle_public. Qed.
End handling.
