(* ===== verification/Search.v ===== *)
(** [src/kafka/store/search.rs]: names found by a search. The fuzzy matcher (frizbee) is a
    parameter; what it is given and what becomes of its answer is the program's. *)

From Stdlib Require Import Ascii.
From S2P Require Import Prelude Text Utf8 Metadata Group Tables.

Definition MAX_HITS : nat := 20.
Definition CHARS_PER_TYPO : Z := 4.

Inductive SearchKind : Set := TopicHit | GroupHit | NodeHit | SubjectHit.

#[export] Instance SearchKind_eq_dec : EqDecision SearchKind.
Proof. solve_decision. Defined.

Record SearchHit : Set := { hit_kind : SearchKind; hit_id : string; hit_label : string; hit_detail : string }.

Inductive Candidate : Set :=
  | CTopic (name : string) (topic : TopicInfo)
  | CGroup (id : string) (group : GroupInfo)
  | CNode (id : Z) (broker : BrokerInfo)
  | CSubject (name : string) (subject : SubjectInfo).

Definition haystack (c : Candidate) : string :=
  match c with
  | CTopic name _ | CGroup name _ | CSubject name _ => name
  | CNode id broker => print_Z id +:+ " " +:+ bi_host broker
  end.

(** [strum::Display] of a group's state and of a schema's type. *)
Definition GroupState_text (s : GroupState) : string :=
  match s with
  | Stable => "Stable" | EmptyGroup => "Empty" | PreparingRebalance => "PreparingRebalance"
  | CompletingRebalance => "CompletingRebalance" | Assigning => "Assigning" | Reconciling => "Reconciling"
  | Dead => "Dead" | UnknownState => "Unknown"
  end.

Definition SchemaType_text (t : SchemaType) : string :=
  match t with Avro => "AVRO" | Json => "JSON" | Protobuf => "PROTOBUF" end.

(** A middle dot. *)
Definition MIDDLE_DOT : string := bytes2 "194" "183".

Definition hit (c : Candidate) : SearchHit :=
  match c with
  | CTopic name topic =>
      {| hit_kind := TopicHit; hit_id := name; hit_label := name;
         hit_detail := print_Z (len (ti_partitions topic)) +:+ " partitions" |}
  | CGroup id group =>
      {| hit_kind := GroupHit; hit_id := id; hit_label := id; hit_detail := GroupState_text (gi_state group) |}
  | CNode id broker =>
      {| hit_kind := NodeHit; hit_id := print_Z id; hit_label := "Broker " +:+ print_Z id; hit_detail := bi_host broker |}
  | CSubject name subject =>
      {| hit_kind := SubjectHit; hit_id := name; hit_label := name;
         hit_detail := SchemaType_text (si_schema_type subject) +:+ " " +:+ MIDDLE_DOT +:+ " v" +:+
           print_Z (si_latest_version subject) |}
  end.

Definition candidates (topology : option Topology) (subjects : option SubjectTable) : list Candidate :=
  match topology with
  | None => []
  | Some topology =>
      (map (λ entry : string * TopicInfo, CTopic entry.1 entry.2) (btree_iter (tp_topics topology))) ++
      (map (λ entry : string * GroupInfo, CGroup entry.1 entry.2) (btree_iter (tp_groups topology))) ++
      (map (λ entry : Z * BrokerInfo, CNode entry.1 entry.2) (btree_iter (tp_brokers topology)))
  end ++
  match subjects with
  | None => []
  | Some subjects =>
      map (λ entry : string * SubjectInfo, CSubject entry.1 entry.2) (btree_iter (st_subjects subjects))
  end.

(** frizbee: what a query says, and the haystacks its patterns match, best first, by index. *)
Class FrizbeeLib : Type := {
  Pattern : Type;
  parse_query : string → list Pattern;
  pt_needle : Pattern → string;
  pt_negated : Pattern → bool;
  with_max_typos : Z → Pattern → Pattern;
  match_list : list Pattern → list string → list nat;
}.

Section find.
Context `{!FrizbeeLib}.

Definition search_patterns (term : string) : list Pattern :=
  (λ pattern,
    let typos := Z.quot (len (chars (pt_needle pattern))) CHARS_PER_TYPO in
    with_max_typos (Z.min typos 65535) pattern) <$> parse_query term.

Definition find (topology : option Topology) (subjects : option SubjectTable) (term : string) : list SearchHit :=
  let patterns := search_patterns term in
  if forallb pt_negated patterns then []
  else
    let candidates := candidates topology subjects in
    omap (λ index, hit <$> candidates !! index)
      (list.take MAX_HITS (match_list patterns (haystack <$> candidates))).
End find.

(** It answers indices of what it was given, each once. *)
Class FrizbeeLaws `{!FrizbeeLib} : Prop := {
  match_list_index patterns haystacks index :
    index ∈ match_list patterns haystacks → (index < length haystacks)%nat;
  match_list_once patterns haystacks : NoDup (match_list patterns haystacks);
}.

(** ** Helper lemmas *)

(** Every hit of a list of valid indices is kept. *)
Lemma length_hits (cs : list Candidate) (indices : list nat) :
  (∀ index, index ∈ indices → (index < length cs)%nat) →
  length (omap (λ index, hit <$> cs !! index) indices) = length indices.
Proof.
  induction indices as [|index indices IH]; intros Hi; csimpl; [done|].
  destruct (lookup_lt_is_Some_2 cs index) as [c Hc]; [apply Hi; by left|]. rewrite Hc. csimpl.
  f_equal. apply IH. intros i Hin. apply Hi. by right.
Qed.

(** ** Properties *)

(** A search shows at most 20 of the names the store lists, none for a query that only leaves
    names out, and as many as the matcher answers otherwise. *)
Theorem find_spec `{!FrizbeeLib, !FrizbeeLaws} topology subjects term :
  let cs := candidates topology subjects in
  let hits := find topology subjects term in
  (length hits ≤ MAX_HITS)%nat ∧
  (∀ h, h ∈ hits → ∃ c, c ∈ cs ∧ h = hit c) ∧
  (forallb pt_negated (search_patterns term) = true → hits = []) ∧
  (forallb pt_negated (search_patterns term) = false →
   length hits = length (match_list (search_patterns term) (haystack <$> cs)) `min` MAX_HITS).
Proof.
  intros cs hits. subst hits. unfold find. destruct (forallb pt_negated _) eqn:En.
  - repeat split; try done; [simpl; lia|]. by intros h ?%not_elem_of_nil.
  - assert (∀ index, index ∈ list.take MAX_HITS (match_list (search_patterns term) (haystack <$> cs)) →
      (index < length cs)%nat) as Hi.
    { intros index Hin. apply (subseteq_take MAX_HITS) in Hin.
      apply match_list_index in Hin. by rewrite length_fmap in Hin. }
    pose proof (length_hits cs _ Hi) as Hl. fold cs. rewrite Hl, length_take.
    repeat split; try done; try lia.
    intros h (index & Hin & Hh)%list_elem_of_omap. destruct (cs !! index) as [c|] eqn:Ec; [|done].
    injection Hh as <-. exists c. split; [|done]. by apply list_elem_of_lookup_2 in Ec.
Qed.

(** ** Examples *)

(** A matcher that finds the names which start with the query. *)
Definition prefix_frizbee : FrizbeeLib :=
  {| Pattern := string; parse_query term := [term]; pt_needle p := p; pt_negated _ := false; with_max_typos _ p := p;
     match_list patterns haystacks :=
       List.filter (λ i, forallb (λ p, starts_with p (default EmptyString (haystacks !! i))) patterns)
         (seq 0 (length haystacks)) |}.

Definition prefix_frizbee_laws : @FrizbeeLaws prefix_frizbee.
Proof.
  split.
  - intros patterns haystacks index. cbn. intros [Hin _]%list_elem_of_In%filter_In. apply in_seq in Hin. lia.
  - intros patterns haystacks. cbn. apply NoDup_ListNoDup, List.NoDup_filter, List.seq_NoDup.
Qed.

Example subject_found :
  let subjects := {| st_subjects := {["orders-value" := {| si_id := 7; si_schema_type := Avro; si_latest_version := 3;
    si_versions := [1; 2; 3]%Z; si_compatibility := Backward_ |}; "users-key" := {| si_id := 8; si_schema_type := Json;
    si_latest_version := 1; si_versions := [1]%Z; si_compatibility := Backward_ |}]} |} in
  hit_id <$> @find prefix_frizbee (Some Topology_default) (Some subjects) "orders" = ["orders-value"].
Proof. by vm_compute. Qed.
