(* ===== verification/Visit.v ===== *)
(** What a caller may look at: [Session] and [ClusterHandle] of [src/app/context.rs] for reads, the
    clusters of [src/kafka/cluster.rs] they read, and what the MCP tools add to both in
    [src/app/mcp/ext.rs]. A read takes the clusters as they stand at one moment.

    [public_visitor] erases what a caller's roles do not let it read; [Resources] and [McpTools]
    prove that no answer depends on what it erases. *)

From S2P Require Import Prelude Text Errors Metadata Cursor Payload Filter Query Obfuscate Pipeline Session Read TopicConfig Group Tables Projections Acl Quota Access Lane Interest Store Registry Handle Search.

(** ** The clusters a server serves *)

Section served.
Context {TL : TimestampLib}.

(** A cluster: its name and switch, its store, and what its session would answer now. [read_page]
    and [read_record] of [Read] give what a read of records answers. *)
Record Served : Type := {
  sr_cluster : string;
  sr_writable : bool;
  sr_store : ClusterStore;
  sr_has_registry : bool;
  sr_broker_configs : Z → result KafkaError (list ConfigEntry);
  sr_subject_schema : string → Z → result KafkaError RegisteredSchema;
  sr_read : RecordQuery → result KafkaError RecordPage;
  sr_record : RecordAt → result KafkaError FoundRecord;
}.

(** [Clusters::ready]. *)
Definition clusters_ready (clusters : list Served) : bool := forallb (λ c, settled (sr_store c)) clusters.

(** [Cluster::known_broker]. *)
Definition served_broker (c : Served) (id : Z) : result KafkaError () :=
  match load (T := Topology) (sr_store c) with
  | Some topology =>
      if bool_decide (is_Some (tp_brokers topology !! id)) then Ok () else Err (UnknownBroker (sr_cluster c) id)
  | None => Ok ()
  end.

(** [Cluster::broker_configs]. *)
Definition served_broker_configs (c : Served) (id : Z) : result KafkaError (list ConfigEntry) :=
  _ ← served_broker c id; sr_broker_configs c id.

(** ** A caller *)

Record Visitor : Type := { vi_access : EffectiveAccess; vi_clusters : list Served }.

(** A cluster the caller was let in to. *)
Record Seen : Type := { sn_access : ClusterAccess; sn_served : Served }.

(** [Session::cluster]. *)
Definition visit (v : Visitor) (name : string) : result ApiError Seen :=
  access ← map_err ApiAccess (access_cluster (vi_access v) name);
  served ← map_err ApiKafka (ok_or
    (List.find (λ c, String.eqb (sr_cluster c) (ca_cluster access)) (vi_clusters v))
    (UnknownCluster (ca_cluster access)));
  Ok {| sn_access := access; sn_served := served |}.

(** [Session::clusters], in the order of the configuration. *)
Definition visited (v : Visitor) : list Seen :=
  omap (λ c, result_ok (visit v (sr_cluster c))) (vi_clusters v).

(** [ClusterHandle::name]. *)
Definition seen_name (s : Seen) : string := ca_cluster (sn_access s).
Definition seen_store (s : Seen) : ClusterStore := sr_store (sn_served s).

(** [ClusterHandle::records], [broker_configs] and [schema_text], and the checks of [access]. *)
Definition granted (s : Seen) (p : Privilege) : result ApiError (Cap p) :=
  map_err ApiAccess (capability p (sn_access s)).

(** [ClusterHandle::latest_version]. *)
Definition latest_version (s : Seen) (subject : string) : result ApiError Z :=
  ok_or (subjects ← load (seen_store s); si_latest_version <$> subjects_get subjects subject)
    (ApiKafka (UnknownSubject (seen_name s) subject 0)).

(** *** What the tools add *)

Definition cluster_or_only (v : Visitor) (name : option string) : result ApiError Seen :=
  match name with
  | Some name => visit v name
  | None =>
      match visited v with
      | [only] => Ok only
      | [] => Err (InvalidRequest 422 "you can see no cluster")
      | seen => Err (InvalidRequest 422 ("pass `cluster` as one of " +:+ String.concat ", " (seen_name <$> seen)))
      end
  end.

(** The lane's table, which must have been read. *)
Definition snapshot {T} (s : Seen) (lane_name : string) (lane : Lane T) : result ApiError T :=
  ok_or (ln_table lane) (NotReady (seen_name s) lane_name (lh_last_error (ln_health lane))).

Definition seen_topology (s : Seen) : result ApiError Topology :=
  snapshot s "topology" (cs_topology (seen_store s)).

Definition require_schema_registry (s : Seen) : result ApiError () :=
  if sr_has_registry (sn_served s) then Ok () else Err (ApiKafka (NoSchemaRegistry (seen_name s))).

(** ** What roles leave *)

(** A lane whose table is not to be read. *)
Definition sealed {T} (lane : Lane T) : Lane T :=
  {| ln_table := None; ln_version := ln_version lane; ln_health := ln_health lane;
     ln_kick := ln_kick lane; ln_refresh := ln_refresh lane |}.

Definition seal {T} `{!LaneField T} (s : ClusterStore) : ClusterStore := set_lane s (sealed (lane_of s)).

(** The two configs the topic lists show anyone. *)
Definition shown_config (entry : ConfigEntry) : bool :=
  String.eqb (ce_name entry) "cleanup.policy" || String.eqb (ce_name entry) "retention.ms".

Definition public_configs (configs : ConfigTable) : ConfigTable :=
  {| ct_topics := List.filter shown_config <$> ct_topics configs |}.

Definition seal_configs (s : ClusterStore) : ClusterStore :=
  let lane := cs_configs s in
  set_lane s {| ln_table := public_configs <$> ln_table lane; ln_version := ln_version lane;
                ln_health := ln_health lane; ln_kick := ln_kick lane; ln_refresh := ln_refresh lane |}.

Definition unless (allowed : bool) {A} (f : A → A) (x : A) : A := if allowed then x else f x.

(** A cluster without what a caller of [access] may not read of it. *)
Definition public_served (access : ClusterAccess) (c : Served) : Served :=
  let may := allows access in
  {| sr_cluster := sr_cluster c;
     sr_writable := sr_writable c;
     sr_store :=
       unless (may PTopicConfigs) seal_configs (
       unless (may PBrokerConfigs) (seal (T := QuotaListing)) (
       unless (may PAcls) (seal (T := ScramListing)) (
       unless (may PAcls) (seal (T := AclListing)) (sr_store c))));
     sr_has_registry := sr_has_registry c;
     sr_broker_configs := unless (may PBrokerConfigs) (λ _ _, Err Timeout_) (sr_broker_configs c);
     sr_subject_schema := unless (may PSchemaText) (λ _ _ _, Err Timeout_) (sr_subject_schema c);
     sr_read := unless (may PRecords) (λ _ _, Err Timeout_) (sr_read c);
     sr_record := unless (may PRecords) (λ _ _, Err Timeout_) (sr_record c) |}.

(** The clusters a caller can see, each without what it may not read. *)
Definition public_visitor (v : Visitor) : Visitor :=
  {| vi_access := vi_access v;
     vi_clusters := omap (λ c,
       match access_cluster (vi_access v) (sr_cluster c) with
       | Ok access => Some (public_served access c)
       | Err _ => None
       end) (vi_clusters v) |}.

Definition public_seen (s : Seen) : Seen :=
  {| sn_access := sn_access s; sn_served := public_served (sn_access s) (sn_served s) |}.

(** ** Helper lemmas *)

(** What a privilege covers is gone for a caller without it. *)
Lemma public_seals access c :
  let public := public_served access c in
  (allows access PRecords = false →
     (∀ query, sr_read public query = Err Timeout_) ∧ ∀ at_, sr_record public at_ = Err Timeout_) ∧
  (allows access PSchemaText = false → ∀ subject version, sr_subject_schema public subject version = Err Timeout_) ∧
  (allows access PBrokerConfigs = false →
     (∀ id, sr_broker_configs public id = Err Timeout_) ∧ load (T := QuotaListing) (sr_store public) = None) ∧
  (allows access PAcls = false →
     load (T := AclListing) (sr_store public) = None ∧ load (T := ScramListing) (sr_store public) = None) ∧
  (allows access PTopicConfigs = false → ∀ topic entries entry,
     Store.topic_configs (sr_store public) topic = Some entries → entry ∈ entries → shown_config entry = true).
Proof.
  unfold public_served. cbn -[seal seal_configs]. destruct (sr_store c) as [n a b d e f g h i j k l m o].
  split; [by intros ->|]. split; [by intros ->|].
  split; [intros ->; split; [done|by destruct (allows access PAcls), (allows access PTopicConfigs)]|].
  split; [intros ->; split; by destruct (allows access PBrokerConfigs), (allows access PTopicConfigs)|].
  intros ->.
  intros topic. unfold Store.topic_configs, load.
  assert (∀ table : option ConfigTable, (public_configs <$> table) ≫= (λ configs, configs_get configs topic) =
    List.filter shown_config <$> (table ≫= λ configs, configs_get configs topic)) as Hget.
  { intros [table|]; [|done]. cbn. unfold configs_get, public_configs. cbn. by rewrite lookup_fmap. }
  intros entries entry He Hin. cbn in He.
  assert (∃ l, entries = List.filter shown_config l) as [l' ->].
  { destruct (allows access PBrokerConfigs), (allows access PAcls); cbn in He; rewrite Hget in He;
      apply fmap_Some in He as (l' & _ & ->); by exists l'. }
  apply list_elem_of_In, filter_In in Hin. apply Hin.
Qed.

Lemma access_cluster_name access name a : access_cluster access name = Ok a → ca_cluster a = name.
Proof. unfold access_cluster. destruct (privileges_for access name); [|done]. by intros [= <-]. Qed.

(** Letting a caller in to a cluster sees only what is public to it. *)
Lemma visit_public v name : visit (public_visitor v) name = public_seen <$> visit v name.
Proof.
  unfold visit. cbn [vi_access public_visitor]. destruct (access_cluster (vi_access v) name) as [a|e] eqn:Ea; [|done].
  cbn [map_err mbind result_bind]. pose proof (access_cluster_name _ _ _ Ea) as Hn. rewrite !Hn.
  assert (List.find (λ c, String.eqb (sr_cluster c) name) (vi_clusters (public_visitor v)) =
    public_served a <$> List.find (λ c, String.eqb (sr_cluster c) name) (vi_clusters v)) as ->.
  { cbn [vi_clusters public_visitor]. induction (vi_clusters v) as [|c l IH]; [done|]. csimpl.
    destruct (String.eqb_spec (sr_cluster c) name) as [E|E].
    - rewrite E, Ea. simpl. by rewrite E, String.eqb_refl.
    - destruct (access_cluster (vi_access v) (sr_cluster c)) as [a'|]; simpl; [|done].
      by apply String.eqb_neq in E as ->. }
  by destruct (List.find _ _).
Qed.

Lemma visited_public v : visited (public_visitor v) = public_seen <$> visited v.
Proof.
  unfold visited at 2. change (visited (public_visitor v)) with
    (omap (λ c, result_ok (visit (public_visitor v) (sr_cluster c))) (vi_clusters (public_visitor v))).
  cbn [vi_clusters public_visitor]. generalize (vi_clusters v) as l. intros l.
  induction l as [|c l IH]; [done|]. csimpl.
  destruct (access_cluster (vi_access v) (sr_cluster c)) as [a|] eqn:Ea.
  - csimpl. rewrite visit_public, IH. by destruct (visit v (sr_cluster c)).
  - rewrite IH. assert (result_ok (visit v (sr_cluster c)) = None) as ->; [|done].
    unfold visit. by rewrite Ea.
Qed.

Lemma seen_name_public s : seen_name (public_seen s) = seen_name s.
Proof. done. Qed.

Lemma cluster_or_only_public v name : cluster_or_only (public_visitor v) name = public_seen <$> cluster_or_only v name.
Proof.
  destruct name as [name|]; [apply visit_public|]. unfold cluster_or_only. rewrite visited_public.
  destruct (visited v) as [|s [|s' l]]; [done|done|]. csimpl.
  by rewrite <- list_fmap_compose.
Qed.

(** *** What sealing leaves of a store *)

(** Two stores that show a visitor the same: only the tables of the sealed lanes differ, and not
    in what the topic lists read of the configs. *)
Record agree (s s' : ClusterStore) : Prop := {
  ag_name : cs_name s' = cs_name s;
  ag_topology : cs_topology s' = cs_topology s;
  ag_watermarks : cs_watermarks s' = cs_watermarks s;
  ag_offsets : cs_offsets s' = cs_offsets s;
  ag_subjects : cs_subjects s' = cs_subjects s;
  ag_schema_ids : cs_schema_ids s' = cs_schema_ids s;
  ag_log_dirs : cs_log_dirs s' = cs_log_dirs s;
  ag_rates : cs_rates s' = cs_rates s;
  ag_interest : cs_interest s' = cs_interest s;
  ag_configs : ln_health (cs_configs s') = ln_health (cs_configs s);
  ag_acls : ln_health (cs_acls s') = ln_health (cs_acls s);
  ag_quotas : ln_health (cs_quotas s') = ln_health (cs_quotas s);
  ag_scram_users : ln_health (cs_scram_users s') = ln_health (cs_scram_users s);
  ag_values name : topic_config_values (topic_configs s' name) = topic_config_values (topic_configs s name);
}.

Lemma config_lookup_shown entries name :
  name = "cleanup.policy" ∨ name = "retention.ms" →
  config_lookup (List.filter shown_config entries) name = config_lookup entries name.
Proof.
  intros Hn. unfold config_lookup, config_entry. induction entries as [|entry entries IH]; [done|]. simpl.
  destruct (shown_config entry) eqn:Es; simpl.
  - by destruct (String.eqb (ce_name entry) name).
  - rewrite IH. destruct (String.eqb_spec (ce_name entry) name) as [E|E]; [|done].
    unfold shown_config in Es. rewrite E in Es. by destruct Hn as [->| ->].
Qed.

Lemma agree_refl s : agree s s.
Proof. by split. Qed.

Lemma agree_trans s1 s2 s3 : agree s1 s2 → agree s2 s3 → agree s1 s3.
Proof. intros [] []. split; try congruence. Qed.

Lemma agree_configs s : agree s (seal_configs s).
Proof.
  destruct s as [n a b c d e f g h i j k l m]. split; try done. intros name.
  unfold topic_configs, load, seal_configs. cbn. destruct (ln_table d) as [configs|]; [|done]. cbn.
  unfold configs_get. cbn. rewrite lookup_fmap. destruct (ct_topics configs !! name) as [entries|]; [|done]. cbn.
  unfold topic_config_values. cbv [default from_option Datatypes.id]. by rewrite !config_lookup_shown by auto.
Qed.

Lemma agree_unless (f : ClusterStore → ClusterStore) allowed s s' :
  (∀ s, agree s (f s)) → agree s s' → agree s (unless allowed f s').
Proof. intros Hf Ha. destruct allowed; [done|]. by eapply agree_trans. Qed.

Lemma public_agree access c : agree (sr_store c) (sr_store (public_served access c)).
Proof.
  cbn [public_served sr_store].
  repeat apply agree_unless; try apply agree_refl; try apply agree_configs; by intros [].
Qed.

(** *** What the views read *)

Section views.
Context (s s' : ClusterStore) (Ha : agree s s').

#[local] Ltac by_lanes := unfold load; cbn [lane_of topology_field watermarks_field offsets_field subjects_field
  schema_ids_field log_dirs_field]; rewrite ?(ag_name _ _ Ha), ?(ag_topology _ _ Ha), ?(ag_watermarks _ _ Ha),
  ?(ag_offsets _ _ Ha), ?(ag_subjects _ _ Ha), ?(ag_schema_ids _ _ Ha), ?(ag_log_dirs _ _ Ha), ?(ag_rates _ _ Ha),
  ?(ag_interest _ _ Ha), ?(ag_configs _ _ Ha), ?(ag_acls _ _ Ha), ?(ag_quotas _ _ Ha), ?(ag_scram_users _ _ Ha).

Lemma config_values_agree topology name :
  topic_config_values (configs ← tl_configs (topic_lanes s' topology); configs_get configs name) =
  topic_config_values (configs ← tl_configs (topic_lanes s topology); configs_get configs name).
Proof. exact (ag_values _ _ Ha name). Qed.

Lemma topic_row_agree topology name topic :
  topic_row name topic (topic_lanes s' topology) (topic_rate s' name) =
  topic_row name topic (topic_lanes s topology) (topic_rate s name).
Proof.
  unfold topic_row. rewrite config_values_agree. unfold topic_lanes, topic_rate.
  cbn [tl_topology tl_watermarks tl_log_dirs]. by_lanes. done.
Qed.

Lemma topic_rows_agree : topic_rows s' = topic_rows s.
Proof.
  unfold topic_rows. replace (load (T := Topology) s') with (load (T := Topology) s) by (by by_lanes).
  destruct (load s) as [topology|]; [|done]. apply list_fmap_ext. intros i [name topic] _. apply topic_row_agree.
Qed.

Lemma topic_detail_agree name : store_topic_detail s' name = store_topic_detail s name.
Proof.
  unfold store_topic_detail. replace (load (T := Topology) s') with (load (T := Topology) s) by (by by_lanes).
  destruct (load (T := Topology) s) as [topology|]; [|done]. cbn [mbind option_bind].
  destruct (tp_topics topology !! name) as [topic|]; [|done]. cbn [mbind option_bind]. f_equal. unfold topic_detail. rewrite config_values_agree.
  destruct (topic_config_values _) as [policy retention]. unfold partition_row, topic_lanes, topic_rate.
  cbn [tl_topology tl_watermarks tl_log_dirs]. by_lanes. done.
Qed.

Lemma group_rows_agree : group_rows s' = group_rows s.
Proof. unfold group_rows. by_lanes. done. Qed.

Lemma group_detail_agree id now :
  cs_interest (store_group_detail s' id now).1 = cs_interest (store_group_detail s id now).1 ∧
  (store_group_detail s' id now).2 = (store_group_detail s id now).2.
Proof.
  unfold store_group_detail. by_lanes. destruct (_ ≫= _) as [group|]; [|split; [apply Ha|done]].
  destruct s, s'. done.
Qed.

Lemma topic_groups_agree topic : topic_groups s' topic = topic_groups s topic.
Proof. unfold topic_groups. by_lanes. done. Qed.

Lemma broker_rows_agree : store_broker_rows s' = store_broker_rows s.
Proof. unfold store_broker_rows. by_lanes. done. Qed.

Lemma subject_rows_agree : store_subject_rows s' = store_subject_rows s.
Proof. unfold store_subject_rows. by_lanes. done. Qed.

Lemma health_agree : store_health s' = store_health s.
Proof. unfold store_health. by_lanes. done. Qed.
End views.
End served.
