(* ===== verification/Resources.v ===== *)
(** [src/app/resources/]: the requests that read, as their handlers in [clusters.rs], [topics.rs],
    [groups.rs], [brokers.rs], [subjects.rs], [acls.rs], [quotas.rs], [scram_users.rs],
    [search.rs], [records.rs] and [whoami.rs] answer them, and [src/app/health.rs].

    A body of the API has the fields of the row it is made of; the bodies written out are those
    that add to it ([types.rs]). *)

From Stdlib Require Import SpecFloat.
From S2P Require Import Prelude Text Utf8 Errors Metadata Cursor Payload Filter Query Obfuscate Pipeline Session Read TopicConfig Group Tables Projections Acl Quota Access Lane Interest Store Registry Handle Search RecordApi RecordText Visit.

(** ** Bodies *)

Record ApiLaneHealth : Type := {
  al_updated_at : option Lane.Timestamp;
  al_checked_at : option Lane.Timestamp;
  al_last_error : option string;
  al_last_poll_ms : option Z;
  al_healthy : bool;
}.

Definition ApiLaneHealth_from (h : LaneHealth) : ApiLaneHealth :=
  {| al_updated_at := lh_updated_at h; al_checked_at := lh_checked_at h; al_last_error := lh_last_error h;
     al_last_poll_ms := lh_last_poll_ms h; al_healthy := healthy h |}.

(** [ClusterHealth]: the view's counts, each lane's health as above, and whether it is ready. *)
Record ClusterHealth : Type := {
  ah_cluster : string;
  ah_ready : bool;
  ah_lanes : list (string * ApiLaneHealth);
  ah_topic_count : Z;
  ah_partition_count : Z;
  ah_group_count : Z;
  ah_broker_count : Z;
  ah_subject_count : Z;
  ah_under_replicated_partitions : Z;
  ah_offline_partitions : Z;
}.

(** The nine lanes by the names of their fields. *)
Definition health_lanes (h : ClusterHealthView) : list (string * LaneHealth) :=
  [("topology", hv_topology h); ("watermarks", hv_watermarks h); ("offsets", hv_offsets h);
   ("configs", hv_configs h); ("subjects", hv_subjects h); ("log_dirs", hv_log_dirs h); ("acls", hv_acls h);
   ("quotas", hv_quotas h); ("scram_users", hv_scram_users h)].

Definition ClusterHealth_from (h : ClusterHealthView) : ClusterHealth :=
  {| ah_cluster := hv_cluster h;
     ah_ready := bool_decide (is_Some (lh_updated_at (hv_topology h)));
     ah_lanes := (λ lane, (lane.1, ApiLaneHealth_from lane.2)) <$> health_lanes h;
     ah_topic_count := hv_topic_count h;
     ah_partition_count := hv_partition_count h;
     ah_group_count := hv_group_count h;
     ah_broker_count := hv_broker_count h;
     ah_subject_count := hv_subject_count h;
     ah_under_replicated_partitions := hv_under_replicated h;
     ah_offline_partitions := hv_offline h |}.

Record ApiPartitionRow : Set := {
  ap_row : PartitionRow;
  ap_retained : Z;
  ap_under_replicated : bool;
}.

Definition ApiPartitionRow_from (row : PartitionRow) : ApiPartitionRow :=
  {| ap_row := row; ap_retained := row_retained row; ap_under_replicated := row_under_replicated row |}.

(** A topic with its partitions as above. *)
Record ApiTopicDetail : Set := { at_detail : TopicDetail; at_partitions : list ApiPartitionRow }.

Definition ApiTopicDetail_from (detail : TopicDetail) : ApiTopicDetail :=
  {| at_detail := detail; at_partitions := ApiPartitionRow_from <$> td_partitions detail |}.

Inductive AclStatus : Set := AclPending | AclEnabled | AclDisabled | AclDenied.

Record ApiAclListing : Type := {
  aa_status : AclStatus;
  aa_bindings : list Acl;
  aa_source_health : ApiLaneHealth;
}.

Definition ApiAclListing_new (listing : option AclListing) (health : ApiLaneHealth) : ApiAclListing :=
  let '(status, bindings) :=
    match listing with
    | None => (AclPending, [])
    | Some (AclsEnabled rows) => (AclEnabled, rows)
    | Some AclsDisabled => (AclDisabled, [])
    | Some AclsDenied => (AclDenied, [])
    end in
  {| aa_status := status; aa_bindings := bindings; aa_source_health := health |}.

Inductive DescribeStatus : Set := DescribePending | Described | DescribeDenied.

Record ApiQuotaListing : Type := {
  aq_status : DescribeStatus;
  aq_quotas : list ClientQuota;
  aq_source_health : ApiLaneHealth;
}.

Definition ApiQuotaListing_new (listing : option QuotaListing) (health : ApiLaneHealth) : ApiQuotaListing :=
  let '(status, quotas) :=
    match listing with
    | None => (DescribePending, [])
    | Some (QuotasDescribed quotas) => (Described, quotas)
    | Some QuotasDenied => (DescribeDenied, [])
    end in
  {| aq_status := status; aq_quotas := quotas; aq_source_health := health |}.

Record ApiScramListing : Type := {
  as_status : DescribeStatus;
  as_users : list ScramUser;
  as_source_health : ApiLaneHealth;
}.

Definition ApiScramListing_new (listing : option ScramListing) (health : ApiLaneHealth) : ApiScramListing :=
  let '(status, users) :=
    match listing with
    | None => (DescribePending, [])
    | Some (ScramDescribed users) => (Described, users)
    | Some ScramDenied => (DescribeDenied, [])
    end in
  {| as_status := status; as_users := users; as_source_health := health |}.

Record SubjectRowsResult : Type := {
  sw_rows : list SubjectRow;
  sw_source_health : ApiLaneHealth;
  sw_has_registry : bool;
}.

Record ClusterGrant : Set := {
  cg_cluster : string;
  cg_roles : list string;
  cg_privileges : list Privilege;
  cg_writable : bool;
}.

Record WhoamiIdentity : Set := { wi_subject : option string; wi_clusters : list ClusterGrant }.

(** ** Handlers *)

Definition MAX_QUERY_CHARS : Z := 256.

Definition check_query_length (query : string) : result ApiError () :=
  if (MAX_QUERY_CHARS <? len (chars query))%Z
  then Err (InvalidRequest 422 ("a query holds at most " +:+ print_Z MAX_QUERY_CHARS +:+ " characters"))
  else Ok ().

Section reads.
Context {PL : PayloadLib} {RL : RedactLib} {FL : FilterLib} {TL : TimestampLib} {AL : ApiTimeLib} {FZ : FrizbeeLib}.

(** [/ready]. *)
Definition ready_status (clusters : list Served) : Z := if clusters_ready clusters then 204 else 503.

Definition get_clusters (v : Visitor) : list ClusterHealth :=
  (λ s, ClusterHealth_from (store_health (seen_store s))) <$> visited v.

Definition get_cluster (s : Seen) : ClusterHealth := ClusterHealth_from (store_health (seen_store s)).

Definition get_topics (s : Seen) : list TopicRow := topic_rows (seen_store s).
Definition get_topic_groups (s : Seen) (topic : string) : list TopicGroupRow := topic_groups (seen_store s) topic.
Definition get_groups (s : Seen) : list GroupRow := group_rows (seen_store s).
Definition get_brokers (s : Seen) : list BrokerRow := store_broker_rows (seen_store s).

Definition unknown_topic (s : Seen) (topic : string) : ApiError := ApiKafka (UnknownTopic (seen_name s) topic).

Definition get_topic (s : Seen) (topic : string) : result ApiError ApiTopicDetail :=
  ok_or (ApiTopicDetail_from <$> store_topic_detail (seen_store s) topic) (unknown_topic s topic).

Definition get_topic_configs (s : Seen) (topic : string) : result ApiError (list ConfigEntry) :=
  _ ← granted s PTopicConfigs;
  ok_or (Store.topic_configs (seen_store s) topic) (unknown_topic s topic).

(** The page of a group, and the interest in groups it leaves the store with. *)
Definition get_group (s : Seen) (id : string) (now : Z) : result ApiError GroupDetail * InterestRegistry :=
  let '(store, detail) := store_group_detail (seen_store s) id now in
  (ok_or detail (ApiKafka (UnknownGroup (seen_name s) id)), cs_interest store).

Definition get_broker_configs (s : Seen) (id : Z) : result ApiError (list ConfigEntry) :=
  _ ← granted s PBrokerConfigs;
  map_err ApiKafka (served_broker_configs (sn_served s) id).

Definition get_subjects (s : Seen) : SubjectRowsResult :=
  {| sw_rows := store_subject_rows (seen_store s);
     sw_source_health := ApiLaneHealth_from (ln_health (cs_subjects (seen_store s)));
     sw_has_registry := sr_has_registry (sn_served s) |}.

Definition get_subject (s : Seen) (subject : string) (version : option Z) : result ApiError SubjectDetail :=
  _ ← granted s PSchemaText;
  version ← match version with Some version => Ok version | None => latest_version s subject end;
  schema ← map_err ApiKafka (sr_subject_schema (sn_served s) subject version);
  Ok (SubjectDetail_new subject version schema).

Definition get_acls (s : Seen) : result ApiError ApiAclListing :=
  _ ← granted s PAcls;
  Ok (ApiAclListing_new (load (seen_store s)) (ApiLaneHealth_from (ln_health (cs_acls (seen_store s))))).

Definition get_quotas (s : Seen) : result ApiError ApiQuotaListing :=
  _ ← granted s PBrokerConfigs;
  Ok (ApiQuotaListing_new (load (seen_store s)) (ApiLaneHealth_from (ln_health (cs_quotas (seen_store s))))).

Definition get_scram_users (s : Seen) : result ApiError ApiScramListing :=
  _ ← granted s PAcls;
  Ok (ApiScramListing_new (load (seen_store s)) (ApiLaneHealth_from (ln_health (cs_scram_users (seen_store s))))).

Definition get_search (v : Visitor) (name query : string) : result ApiError (list SearchHit) :=
  _ ← check_query_length query;
  s ← visit v name;
  Ok (Search.find (load (seen_store s)) (load (seen_store s)) query).

Definition get_records (s : Seen) (topic : string) (params : RecordParams) : result ApiError ApiRecordPage :=
  _ ← granted s PRecords;
  query ← map_err (λ error, ApiKafka (InvalidQuery error)) (params_into_query params topic);
  page ← map_err ApiKafka (sr_read (sn_served s) query);
  Ok (ApiRecordPage_from page).

(** [RecordLookup]: the record, and whether a rule covers its topic. *)
Definition get_record (s : Seen) (topic : string) (partition offset : Z) (schema_id : option Z)
    : result ApiError (ApiRecord * bool) :=
  _ ← granted s PRecords;
  found ← map_err ApiKafka (sr_record (sn_served s) (into_record_at schema_id topic partition offset));
  Ok (ApiRecord_from (fr_record found), fr_obfuscated found).

Definition whoami (v : Visitor) (subject : option string) : WhoamiIdentity :=
  {| wi_subject := subject;
     wi_clusters := (λ s,
       {| cg_cluster := seen_name s; cg_roles := role_names (sn_access s);
          cg_privileges := privileges_list (sn_access s); cg_writable := sr_writable (sn_served s) |}) <$> visited v |}.

(** ** Every read *)

Inductive HttpRead : Type :=
  | GetClusters
  | GetWhoami (subject : option string)
  | GetSearch (cluster query : string)
  | GetCluster (cluster : string)
  | GetTopics (cluster : string)
  | GetTopic (cluster topic : string)
  | GetTopicGroups (cluster topic : string)
  | GetTopicConfigs (cluster topic : string)
  | GetGroups (cluster : string)
  | GetGroup (cluster id : string) (now : Z)
  | GetBrokers (cluster : string)
  | GetBrokerConfigs (cluster : string) (id : Z)
  | GetSubjects (cluster : string)
  | GetSubject (cluster subject : string) (version : option Z)
  | GetAcls (cluster : string)
  | GetQuotas (cluster : string)
  | GetScramUsers (cluster : string)
  | GetRecords (cluster topic : string) (params : RecordParams)
  | GetRecord (cluster topic : string) (partition offset : Z) (schema_id : option Z).

Inductive HttpAnswer : Type :=
  | AClusters (clusters : list ClusterHealth)
  | AWhoami (identity : WhoamiIdentity)
  | ASearch (hits : list SearchHit)
  | ACluster (cluster : ClusterHealth)
  | ATopics (topics : list TopicRow)
  | ATopic (topic : ApiTopicDetail)
  | ATopicGroups (groups : list TopicGroupRow)
  | AConfigs (entries : list ConfigEntry)
  | AGroups (groups : list GroupRow)
  | AGroup (group : GroupDetail)
  | ABrokers (brokers : list BrokerRow)
  | ASubjects (subjects : SubjectRowsResult)
  | ASubject (subject : SubjectDetail)
  | AAcls (acls : ApiAclListing)
  | AQuotas (quotas : ApiQuotaListing)
  | AScramUsers (users : ApiScramListing)
  | ARecords (page : ApiRecordPage)
  | ARecord (record : ApiRecord) (obfuscated : bool).

(** The answer to a read, and the interest in groups it leaves the cluster's store with, when it
    touches one. *)
Definition http_read (v : Visitor) (r : HttpRead) : result ApiError HttpAnswer * option InterestRegistry :=
  let on cluster (answer : Seen → result ApiError HttpAnswer) := (s ← visit v cluster; answer s, None) in
  match r with
  | GetClusters => (Ok (AClusters (get_clusters v)), None)
  | GetWhoami subject => (Ok (AWhoami (whoami v subject)), None)
  | GetSearch cluster query => (ASearch <$> get_search v cluster query, None)
  | GetCluster cluster => on cluster (λ s, Ok (ACluster (get_cluster s)))
  | GetTopics cluster => on cluster (λ s, Ok (ATopics (get_topics s)))
  | GetTopic cluster topic => on cluster (λ s, ATopic <$> get_topic s topic)
  | GetTopicGroups cluster topic => on cluster (λ s, Ok (ATopicGroups (get_topic_groups s topic)))
  | GetTopicConfigs cluster topic => on cluster (λ s, AConfigs <$> get_topic_configs s topic)
  | GetGroups cluster => on cluster (λ s, Ok (AGroups (get_groups s)))
  | GetGroup cluster id now =>
      match visit v cluster with
      | Ok s => let '(detail, interest) := get_group s id now in (AGroup <$> detail, Some interest)
      | Err error => (Err error, None)
      end
  | GetBrokers cluster => on cluster (λ s, Ok (ABrokers (get_brokers s)))
  | GetBrokerConfigs cluster id => on cluster (λ s, AConfigs <$> get_broker_configs s id)
  | GetSubjects cluster => on cluster (λ s, Ok (ASubjects (get_subjects s)))
  | GetSubject cluster subject version => on cluster (λ s, ASubject <$> get_subject s subject version)
  | GetAcls cluster => on cluster (λ s, AAcls <$> get_acls s)
  | GetQuotas cluster => on cluster (λ s, AQuotas <$> get_quotas s)
  | GetScramUsers cluster => on cluster (λ s, AScramUsers <$> get_scram_users s)
  | GetRecords cluster topic params => on cluster (λ s, ARecords <$> get_records s topic params)
  | GetRecord cluster topic partition offset schema_id =>
      on cluster (λ s, (λ found, ARecord found.1 found.2) <$> get_record s topic partition offset schema_id)
  end.
End reads.

(** ** Helper lemmas *)

Section public.
Context {PL : PayloadLib} {RL : RedactLib} {FL : FilterLib} {TL : TimestampLib} {AL : ApiTimeLib} {FZ : FrizbeeLib}.
Implicit Types (v : Visitor) (s : Seen).

(** What a capability opens is not erased of whom it is granted. *)
Lemma granted_allows s p c : granted s p = Ok c → allows (sn_access s) p = true.
Proof. unfold granted, capability, check. by destruct (allows _ _). Qed.

Lemma topic_configs_public s topic : allows (sn_access s) PTopicConfigs = true →
  Store.topic_configs (seen_store (public_seen s)) topic = Store.topic_configs (seen_store s) topic.
Proof.
  intros H. unfold seen_store, public_seen, public_served. cbn. rewrite H.
  destruct (sr_store (sn_served s)). by destruct (allows _ PBrokerConfigs), (allows _ PAcls).
Qed.

Lemma acls_public s : allows (sn_access s) PAcls = true →
  load (T := AclListing) (seen_store (public_seen s)) = load (seen_store s).
Proof.
  intros H. unfold seen_store, public_seen, public_served. cbn. rewrite H.
  destruct (sr_store (sn_served s)). by destruct (allows _ PBrokerConfigs), (allows _ PTopicConfigs).
Qed.

Lemma scram_users_public s : allows (sn_access s) PAcls = true →
  load (T := ScramListing) (seen_store (public_seen s)) = load (seen_store s).
Proof.
  intros H. unfold seen_store, public_seen, public_served. cbn. rewrite H.
  destruct (sr_store (sn_served s)). by destruct (allows _ PBrokerConfigs), (allows _ PTopicConfigs).
Qed.

Lemma quotas_public s : allows (sn_access s) PBrokerConfigs = true →
  load (T := QuotaListing) (seen_store (public_seen s)) = load (seen_store s).
Proof.
  intros H. unfold seen_store, public_seen, public_served. cbn. rewrite H.
  destruct (sr_store (sn_served s)). by destruct (allows _ PAcls), (allows _ PTopicConfigs).
Qed.

Lemma seen_agree s : agree (seen_store s) (seen_store (public_seen s)).
Proof. apply public_agree. Qed.

Lemma served_broker_configs_public s id : allows (sn_access s) PBrokerConfigs = true →
  served_broker_configs (sn_served (public_seen s)) id = served_broker_configs (sn_served s) id.
Proof.
  intros H. unfold served_broker_configs, served_broker.
  pose proof (ag_topology _ _ (seen_agree s)) as Ht. unfold seen_store in Ht.
  unfold load. cbn [lane_of topology_field]. rewrite Ht. unfold public_seen, public_served. cbn. by rewrite H.
Qed.

Lemma on_public {A} v cluster (f : Seen → result ApiError A) :
  (∀ s, f (public_seen s) = f s) →
  (s ← visit (public_visitor v) cluster; f s) = (s ← visit v cluster; f s).
Proof. intros Hf. rewrite visit_public. destruct (visit v cluster) as [s|]; [apply Hf|done]. Qed.

(** A handler that asks for a capability first. *)
Lemma granted_public {A} s p (f g : result ApiError A) :
  (allows (sn_access s) p = true → f = g) →
  (_ ← granted (public_seen s) p; f) = (_ ← granted s p; g).
Proof.
  intros Hf. change (granted (public_seen s) p) with (granted s p).
  destruct (granted s p) as [c|] eqn:E; [|done]. apply Hf. by eapply granted_allows.
Qed.

(** *** Each handler *)

Lemma get_cluster_public s : get_cluster (public_seen s) = get_cluster s.
Proof. unfold get_cluster. by rewrite (health_agree _ _ (seen_agree s)). Qed.

Lemma get_clusters_public v : get_clusters (public_visitor v) = get_clusters v.
Proof.
  unfold get_clusters. rewrite visited_public, <- list_fmap_compose. apply list_fmap_ext. intros i s _.
  apply get_cluster_public.
Qed.

Lemma whoami_public v subject : whoami (public_visitor v) subject = whoami v subject.
Proof. unfold whoami. by rewrite visited_public, <- list_fmap_compose. Qed.

Lemma get_search_public v cluster query : get_search (public_visitor v) cluster query = get_search v cluster query.
Proof.
  unfold get_search. destruct (check_query_length query); [|done]. apply on_public. intros s.
  pose proof (seen_agree s) as Ha. unfold load. cbn [lane_of topology_field subjects_field].
  by rewrite (ag_topology _ _ Ha), (ag_subjects _ _ Ha).
Qed.

Lemma get_topic_public s topic : get_topic (public_seen s) topic = get_topic s topic.
Proof. unfold get_topic. by rewrite (topic_detail_agree _ _ (seen_agree s)). Qed.

Lemma get_topic_configs_public s topic : get_topic_configs (public_seen s) topic = get_topic_configs s topic.
Proof. apply granted_public. intros H. by rewrite topic_configs_public. Qed.

Lemma get_group_public s id now : get_group (public_seen s) id now = get_group s id now.
Proof.
  unfold get_group. pose proof (group_detail_agree _ _ (seen_agree s) id now) as [Hi Hd].
  destruct (store_group_detail (seen_store (public_seen s)) id now), (store_group_detail (seen_store s) id now).
  cbn [fst snd] in Hi, Hd. by rewrite Hi, Hd.
Qed.

Lemma get_broker_configs_public s id : get_broker_configs (public_seen s) id = get_broker_configs s id.
Proof. apply granted_public. intros H. by rewrite served_broker_configs_public. Qed.

Lemma get_subjects_public s : get_subjects (public_seen s) = get_subjects s.
Proof.
  unfold get_subjects. by rewrite (subject_rows_agree _ _ (seen_agree s)), (ag_subjects _ _ (seen_agree s)).
Qed.

Lemma latest_version_public s subject : latest_version (public_seen s) subject = latest_version s subject.
Proof.
  unfold latest_version, load. cbn [lane_of subjects_field]. by rewrite (ag_subjects _ _ (seen_agree s)).
Qed.

Lemma get_subject_public s subject version : get_subject (public_seen s) subject version = get_subject s subject version.
Proof.
  apply granted_public. intros H. rewrite latest_version_public. by unfold public_seen, public_served; cbn; rewrite H.
Qed.

Lemma get_acls_public s : get_acls (public_seen s) = get_acls s.
Proof. apply granted_public. intros H. by rewrite acls_public, (ag_acls _ _ (seen_agree s)). Qed.

Lemma get_quotas_public s : get_quotas (public_seen s) = get_quotas s.
Proof. apply granted_public. intros H. by rewrite quotas_public, (ag_quotas _ _ (seen_agree s)). Qed.

Lemma get_scram_users_public s : get_scram_users (public_seen s) = get_scram_users s.
Proof. apply granted_public. intros H. by rewrite scram_users_public, (ag_scram_users _ _ (seen_agree s)). Qed.

Lemma get_records_public s topic params : get_records (public_seen s) topic params = get_records s topic params.
Proof. apply granted_public. intros H. unfold public_seen, public_served. cbn. by rewrite H. Qed.

Lemma get_record_public s topic partition offset schema_id :
  get_record (public_seen s) topic partition offset schema_id = get_record s topic partition offset schema_id.
Proof. apply granted_public. intros H. unfold public_seen, public_served. cbn. by rewrite H. Qed.

(** (safety): no answer depends on what its caller may not read: on a cluster outside its scope, on
    the configs of topics but for the two anyone sees, on a broker's configs and the quotas, on
    ACLs and credentials, on schema texts or on records, unless its roles hold the privilege
    that covers it there. *)
Theorem reads_public v r : http_read (public_visitor v) r = http_read v r.
Proof.
  destruct r; unfold http_read, get_topics, get_topic_groups, get_groups, get_brokers; cbv zeta; f_equal;
    try (apply on_public; intros s; pose proof (seen_agree s) as Ha);
    rewrite ?get_clusters_public, ?whoami_public, ?get_search_public, ?get_cluster_public, ?get_topic_public,
      ?get_topic_configs_public, ?get_broker_configs_public, ?get_subjects_public, ?get_subject_public,
      ?get_acls_public, ?get_quotas_public, ?get_scram_users_public, ?get_records_public, ?get_record_public,
      ?(topic_rows_agree _ _ Ha), ?(topic_groups_agree _ _ Ha), ?(group_rows_agree _ _ Ha),
      ?(broker_rows_agree _ _ Ha); try done.
  rewrite visit_public. destruct (visit v cluster) as [s|]; [|done]. cbn [fmap result_fmap].
  by rewrite get_group_public.
Qed.
End public.
