(* ===== verification/ToolRows.v ===== *)
(** What the MCP tools that read the snapshot answer with: the rows of
    [src/app/mcp/tools/topics.rs], [brokers.rs], [acls.rs], [schemas.rs], [clusters.rs] and
    [groups.rs], the section of configs of [src/app/mcp/configs.rs], and how each reply is cut.

    A row that carries the name of one of the API's has [Mcp] before it. Fields stand in the order
    of the source's structs. *)

From Stdlib Require Import SpecFloat.
From S2P Require Import Prelude Text Utf8 Errors Metadata Cursor Payload Filter Query Obfuscate Pipeline Session Read TopicConfig Group Tables Projections Acl Quota Access Lane Interest Store Registry Handle Search Untrusted Reply RecordApi RecordText Findings Visit.

Definition MAX_CONFIG_CHARS : nat := 500.
Definition MAX_VERSIONS : nat := 10.

(** What serde_json makes of an [f64], and jiff of a time. *)
Class ValueJson : Type := { f64_json : spec_float → json; instant_json : Lane.Timestamp → json }.

(** ** JSON of values *)

Definition ConfigSource_json (s : ConfigSource) : json :=
  JString match s with
          | DynamicTopic => "DYNAMIC_TOPIC_CONFIG" | DynamicBroker => "DYNAMIC_BROKER_CONFIG"
          | DynamicDefaultBroker => "DYNAMIC_DEFAULT_BROKER_CONFIG"
          | StaticBroker => "STATIC_BROKER_CONFIG" | DefaultSource => "DEFAULT_CONFIG"
          end.

Definition CleanupPolicy_json (p : CleanupPolicy) : json :=
  JString match p with DeletePolicy => "DELETE" | Compact => "COMPACT" | CompactDelete => "COMPACT_DELETE" end.

Definition SchemaCompatibility_json (c : SchemaCompatibility) : json :=
  JString match c with
          | Backward_ => "BACKWARD" | BackwardTransitive => "BACKWARD_TRANSITIVE" | ForwardCompat => "FORWARD"
          | ForwardTransitive => "FORWARD_TRANSITIVE" | Full => "FULL" | FullTransitive => "FULL_TRANSITIVE"
          | NoCompat => "NONE"
          end.

Definition AclResourceType_json (t : AclResourceType) : json :=
  JString match t with
          | TopicResource => "TOPIC" | GroupResource => "GROUP" | ClusterResource => "CLUSTER"
          | TransactionalId => "TRANSACTIONAL_ID" | DelegationToken => "DELEGATION_TOKEN"
          end.

Definition AclPatternType_json (t : AclPatternType) : json :=
  JString match t with Literal => "LITERAL" | Prefixed => "PREFIXED" end.

Definition AclOperation_json (o : AclOperation) : json :=
  JString match o with
          | AllOps => "ALL" | ReadOp => "READ" | Acl.WriteOp => "WRITE" | CreateOp => "CREATE" | DeleteOp => "DELETE"
          | AlterOp => "ALTER" | DescribeOp => "DESCRIBE" | ClusterAction => "CLUSTER_ACTION"
          | DescribeConfigs => "DESCRIBE_CONFIGS" | AlterConfigs => "ALTER_CONFIGS"
          | IdempotentWrite => "IDEMPOTENT_WRITE"
          end.

Definition AclPermission_json (p : AclPermission) : json := JString match p with Allow => "ALLOW" | Deny => "DENY" end.

Definition Privilege_json (p : Privilege) : json :=
  JString match p with
          | PRecords => "RECORDS" | PTopicConfigs => "TOPIC_CONFIGS" | PBrokerConfigs => "BROKER_CONFIGS"
          | PSchemaText => "SCHEMA_TEXT" | PAcls => "ACLS" | PCreateTopics => "CREATE_TOPICS"
          | PDeleteTopics => "DELETE_TOPICS" | PAlterTopicConfigs => "ALTER_TOPIC_CONFIGS"
          | PAddPartitions => "ADD_PARTITIONS" | PDeleteRecords => "DELETE_RECORDS" | PProduce => "PRODUCE"
          | PResetOffsets => "RESET_OFFSETS" | PDeleteOffsets => "DELETE_OFFSETS" | PDeleteGroups => "DELETE_GROUPS"
          | PRegisterSchemas => "REGISTER_SCHEMAS" | PSetCompatibility => "SET_COMPATIBILITY"
          | PDeleteSchemas => "DELETE_SCHEMAS" | PCreateAcls => "CREATE_ACLS" | PDeleteAcls => "DELETE_ACLS"
          | PAlterQuotas => "ALTER_QUOTAS" | PSetScramCredentials => "SET_SCRAM_CREDENTIALS"
          | PDeleteScramCredentials => "DELETE_SCRAM_CREDENTIALS" | PAlterBrokerConfigs => "ALTER_BROKER_CONFIGS"
          end.

Definition SearchKind_json (k : SearchKind) : json :=
  JString match k with TopicHit => "TOPIC" | GroupHit => "GROUP" | NodeHit => "NODE" | SubjectHit => "SUBJECT" end.

#[local] Abbreviation json_int := json_Z.
#[local] Abbreviation json_opt := json_option.
#[local] Abbreviation json_ints l := (JArray (json_Z <$> l)).

#[export] Instance Acl_json : ToJson Acl := λ a,
  JObject [("resourceType", AclResourceType_json (acl_resource_type a)); ("resourceName", JString (acl_resource_name a));
           ("patternType", AclPatternType_json (acl_pattern_type a)); ("principal", JString (acl_principal a));
           ("host", JString (acl_host a)); ("operation", AclOperation_json (acl_operation a));
           ("permission", AclPermission_json (acl_permission a))].

(** ** Configs *)

Record ConfigRow : Set := { cr_entry : ConfigEntry; cr_cut : bool }.

Definition ConfigRow_new (entry : ConfigEntry) : ConfigRow :=
  let '(value, cut) :=
    match ce_value entry with
    | Some value => let '(kept, cut) := clip value MAX_CONFIG_CHARS in (Some kept, cut)
    | None => (None, false)
    end in
  {| cr_entry := {| ce_name := ce_name entry; ce_value := value; ce_source := ce_source entry;
                    ce_read_only := ce_read_only entry; ce_sensitive := ce_sensitive entry |};
     cr_cut := cut |}.

Definition ConfigEntry_fields (e : ConfigEntry) : list (string * json) :=
  [("name", JString (ce_name e)); ("value", json_opt JString (ce_value e)); ("source", ConfigSource_json (ce_source e));
   ("readOnly", JBool (ce_read_only e)); ("sensitive", JBool (ce_sensitive e))].

#[export] Instance ConfigRow_json : ToJson ConfigRow := λ r,
  JObject (ConfigEntry_fields (cr_entry r) ++ (if cr_cut r then [("cut", JBool true)] else [])).

Inductive Reason : Set := Needs (privilege : Privilege) | NotRead (last_error : option string).

Record Omitted : Set := { om_section : Section_; om_reason : Reason }.

Record ConfigSection : Type := { sec_configs : option (Rows ConfigRow); sec_omitted : option Omitted }.

Definition overrides (entries : list ConfigEntry) : ConfigSection :=
  {| sec_configs := Some (Rows_new "configs"
       (ConfigRow_new <$> List.filter (λ entry, negb (bool_decide (ce_source entry = DefaultSource))) entries));
     sec_omitted := None |}.

Definition omitted (reason : Reason) : ConfigSection :=
  {| sec_configs := None; sec_omitted := Some {| om_section := ConfigsSection; om_reason := reason |} |}.

(** [ConfigSection::withheld], and any other refusal. *)
Definition withheld (error : AccessError) : result AccessError ConfigSection :=
  match error with
  | Forbidden _ privilege => Ok (omitted (Needs privilege))
  | error => Err error
  end.

Section lane_errors.
Context `{!PayloadLib}.

(** [Boundary::lane_error], whose panic [Untrusted] tells apart. *)
Definition told_error (b : Boundary) (error : option string) : option string := default None (lane_error b error).

Definition not_read (last_error : option string) (b : Boundary) : ConfigSection :=
  omitted (NotRead (told_error b last_error)).
End lane_errors.

Definition explained_by_error (s : ConfigSection) : bool :=
  match sec_omitted s with
  | Some {| om_reason := NotRead (Some _) |} => true
  | _ => false
  end.

Definition Reason_fields (r : Reason) : list (string * json) :=
  match r with
  | Needs privilege => [("needs", Privilege_json privilege)]
  | NotRead last_error => [("notRead", JObject [("lastError", json_opt JString last_error)])]
  end.

Definition Omitted_json (o : Omitted) : json :=
  JObject (("section", JString match om_section o with ConfigsSection => "configs" end) :: Reason_fields (om_reason o)).

Definition ConfigSection_fields (s : ConfigSection) : list (string * json) :=
  ("configs", json_opt to_json (sec_configs s)) ::
  option_list ((λ o, ("omitted", Omitted_json o)) <$> sec_omitted s).

(** [Lists for ConfigSection]: its rows, when it has them. *)
Definition ConfigSection_cuts {R} (get : R → ConfigSection) (set_ : ConfigSection → R → R) (r : R) : list (Cut R) :=
  match sec_configs (get r) with
  | None => []
  | Some _ =>
      [Rows_cut (λ r, default (Rows_new "configs" []) (sec_configs (get r)))
         (λ rows r, set_ {| sec_configs := Some rows; sec_omitted := sec_omitted (get r) |} r)]
  end.

(** ** Topics *)

Inductive TopicSort : Set := SortName | SortSize | SortRate | SortRecords | SortPartitions | SortGroups.

(** The input of klens_topics_list, without its cluster. *)
Record TopicsQuery : Set := {
  qt_name_contains : option string;
  qt_under_replicated : option bool;
  qt_empty : option bool;
  qt_include_internal : bool;
  qt_sort : TopicSort;
  qt_limit : option nat;
  qt_detailed : bool;
}.

Record TopicRowDetail : Set := {
  trd_internal : bool;
  trd_replication_factor : Z;
  trd_produced_total : option Z;
  trd_retention_ms : option Z;
  trd_cleanup_policy : option CleanupPolicy;
}.

Record McpTopicRow : Set := {
  mt_name : string;
  mt_partition_count : Z;
  mt_retained_messages : option Z;
  mt_size_bytes : option Z;
  mt_rate : option spec_float;
  mt_group_count : Z;
  mt_under_replicated : bool;
  mt_detail : option TopicRowDetail;
}.

(** [bool::then_some]. *)
Definition then_some {A} (b : bool) (x : A) : option A := if b then Some x else None.

Definition measured (watermarks : option WatermarkTable) (name : string) (topic : TopicInfo) : bool :=
  match watermarks with
  | Some table => forallb (λ p, bool_decide (is_Some (marks_get table name (id p)))) (ti_partitions topic)
  | None => false
  end.

Definition McpTopicRow_new (row : TopicRow) (counted : bool) (rate : option spec_float) (detailed : bool)
    : McpTopicRow :=
  {| mt_name := tr_name row;
     mt_partition_count := tr_partition_count row;
     mt_retained_messages := then_some counted (tr_retained_messages row);
     mt_size_bytes := tr_size_bytes row;
     mt_rate := rate;
     mt_group_count := tr_group_count row;
     mt_under_replicated := tr_under_replicated row;
     mt_detail := then_some detailed
       {| trd_internal := tr_internal row;
          trd_replication_factor := tr_replication_factor row;
          trd_produced_total := then_some counted (tr_produced_total row);
          trd_retention_ms := tr_retention_ms row;
          trd_cleanup_policy := tr_cleanup_policy row |} |}.

(** [f64::total_cmp]: by the sign, then the magnitude. A rate is a quotient by a time that has
    passed, so the one NaN is never reached; it is put last. *)
Definition total_cmp (a b : spec_float) : comparison :=
  match SFcompare a b with
  | Some Eq =>
      match a, b with
      | S754_zero s, S754_zero s' => Bool.compare s' s
      | _, _ => Eq
      end
  | Some c => c
  | None =>
      match a, b with
      | S754_nan, S754_nan => Eq
      | S754_nan, _ => Gt
      | _, _ => Lt
      end
  end.

Definition topic_order (sort : TopicSort) (a b : McpTopicRow) : comparison :=
  cmp_then
    match sort with
    | SortName => Eq
    | SortSize => largest_first (mt_size_bytes a) (mt_size_bytes b) Z.compare
    | SortRate => largest_first (mt_rate a) (mt_rate b) total_cmp
    | SortRecords => largest_first (mt_retained_messages a) (mt_retained_messages b) Z.compare
    | SortPartitions => Z.compare (mt_partition_count b) (mt_partition_count a)
    | SortGroups => Z.compare (mt_group_count b) (mt_group_count a)
    end
    (String.compare (mt_name a) (mt_name b)).

Section matching.
(** [str::to_lowercase], which Unicode's tables give. *)
Context (to_lowercase : string → string).

Definition keeps_topic (q : TopicsQuery) (row : TopicRow) : bool :=
  (qt_include_internal q || negb (tr_internal row)) &&
  name_matches to_lowercase (qt_name_contains q) (tr_name row) &&
  match qt_under_replicated q with Some wanted => Bool.eqb (tr_under_replicated row) wanted | None => true end.

(** The last filter of [matching], which counts what it leaves out for want of a measure. *)
Fixpoint keep_empty (empty : option bool) (rows : list McpTopicRow) : list McpTopicRow * nat :=
  match rows with
  | [] => ([], 0)
  | row :: rows =>
      let '(kept, unmeasured) := keep_empty empty rows in
      match empty, mt_retained_messages row with
      | None, _ => (row :: kept, unmeasured)
      | Some wanted, Some records => (if Bool.eqb (records =? 0)%Z wanted then row :: kept else kept, unmeasured)
      | Some _, None => (kept, S unmeasured)
      end
  end.

Definition listed_topic (store : ClusterStore) (topology : Topology) (detailed : bool) (row : TopicRow) : McpTopicRow :=
  let counted :=
    match tp_topics topology !! tr_name row with
    | Some topic => measured (load store) (tr_name row) topic
    | None => false
    end in
  McpTopicRow_new row counted (rate_get (cs_rates store) (tr_name row)) detailed.

(** [TopicsQuery::matching], after the topology was read. *)
Definition matching (q : TopicsQuery) (store : ClusterStore) (topology : Topology) : list McpTopicRow * nat :=
  let '(topics, unmeasured) := keep_empty (qt_empty q)
    (listed_topic store topology (qt_detailed q) <$> List.filter (keeps_topic q) (topic_rows store)) in
  (sort_by (topic_order (qt_sort q)) topics, unmeasured).
End matching.

Record TopicList : Type := { tli_page : Page McpTopicRow; tli_unmeasured : option nat }.

Record TopicSummary : Set := {
  ts_name : string;
  ts_internal : bool;
  ts_partition_count : nat;
  ts_replication_factor : Z;
  ts_retained_messages : option Z;
  ts_produced_total : option Z;
  ts_size_bytes : option Z;
  ts_disk_bytes : option Z;
  ts_rate : option spec_float;
  ts_retention_ms : option Z;
  ts_cleanup_policy : option CleanupPolicy;
  ts_under_replicated_partitions : nat;
  ts_offline_partitions : nat;
}.

Definition TopicSummary_new (detail : TopicDetail) (counted : bool) (rate : option spec_float) : TopicSummary :=
  let count (test : PartitionRow → bool) := length (List.filter test (td_partitions detail)) in
  {| ts_name := td_name detail;
     ts_internal := td_internal detail;
     ts_partition_count := length (td_partitions detail);
     ts_replication_factor := td_replication_factor detail;
     ts_retained_messages := then_some counted (td_retained_messages detail);
     ts_produced_total := then_some counted (td_produced_total detail);
     ts_size_bytes := td_size_bytes detail;
     ts_disk_bytes := td_disk_bytes detail;
     ts_rate := rate;
     ts_retention_ms := td_retention_ms detail;
     ts_cleanup_policy := td_cleanup_policy detail;
     ts_under_replicated_partitions := count row_under_replicated;
     ts_offline_partitions := count row_offline |}.

Record McpPartitionRow : Set := {
  mp_partition : Z;
  mp_leader : option Z;
  mp_replicas : list Z;
  mp_isr : list Z;
  mp_under_replicated : bool;
  mp_offline : bool;
  mp_low_watermark : option Z;
  mp_high_watermark : option Z;
  mp_retained_messages : option Z;
  mp_size_bytes : option Z;
}.

Definition McpPartitionRow_new (row : PartitionRow) (counted : bool) : McpPartitionRow :=
  {| mp_partition := pr_id row;
     mp_leader := then_some (negb (row_offline row)) (pr_leader row);
     mp_replicas := pr_replicas row;
     mp_isr := pr_isr row;
     mp_under_replicated := row_under_replicated row;
     mp_offline := row_offline row;
     mp_low_watermark := then_some counted (pr_low_watermark row);
     mp_high_watermark := then_some counted (pr_high_watermark row);
     mp_retained_messages := then_some counted (row_retained row);
     mp_size_bytes := pr_size_bytes row |}.

(** ** Schema subjects *)

Record SubjectVersions : Set := {
  su_latest_schema_id : Z;
  su_versions : list SubjectVersion;
  su_versions_left_out : option nat;
}.

Record McpSubjectRow : Set := {
  ms_subject : string;
  ms_latest_version : Z;
  ms_schema_type : SchemaType;
  ms_compatibility : SchemaCompatibility;
  ms_versions : option SubjectVersions;
}.

Definition concise (subject : string) (info : SubjectInfo) : McpSubjectRow :=
  {| ms_subject := subject; ms_latest_version := si_latest_version info; ms_schema_type := si_schema_type info;
     ms_compatibility := si_compatibility info; ms_versions := None |}.

Definition detailed (row : SubjectRow) : McpSubjectRow :=
  let older := length (sr_versions row) - MAX_VERSIONS in
  let row' := concise (Projections.sr_subject row) (sr_info row) in
  {| ms_subject := ms_subject row'; ms_latest_version := ms_latest_version row'; ms_schema_type := ms_schema_type row';
     ms_compatibility := ms_compatibility row';
     ms_versions := Some
       {| su_latest_schema_id := si_id (sr_info row);
          su_versions := list.drop older (sr_versions row);
          su_versions_left_out := then_some (bool_decide (0 < older)) older |} |}.

Record SubjectList : Type := { sl_page : Page McpSubjectRow }.

(** ** One topic *)

Record TopicDescription : Type := {
  to_topic : TopicSummary;
  to_configs : ConfigSection;
  to_groups : Rows TopicGroupRow;
  to_subjects : option (list McpSubjectRow);
  to_partitions : Rows McpPartitionRow;
  to_notice : string;
}.

Definition described_partitions (store : ClusterStore) (detail : TopicDetail) : list McpPartitionRow :=
  (λ p,
    let counted := match load (T := WatermarkTable) store with
                   | Some table => bool_decide (is_Some (marks_get table (td_name detail) (pr_id p)))
                   | None => false
                   end in
    McpPartitionRow_new p counted) <$> td_partitions detail.

Definition topic_group_order (a b : TopicGroupRow) : comparison :=
  cmp_then (largest_first (tgr_lag_on_topic a) (tgr_lag_on_topic b) Z.compare) (String.compare (tgr_id a) (tgr_id b)).

Definition described_groups (store : ClusterStore) (topic : string) : list TopicGroupRow :=
  sort_by topic_group_order (topic_groups store topic).

Definition described_subjects (has_registry : bool) (store : ClusterStore) (topic : string)
    : option (list McpSubjectRow) :=
  table ← (if has_registry then load (T := SubjectTable) store else None);
  Some (omap (λ part,
    let subject := topic +:+ "-" +:+ part in
    concise subject <$> subjects_get table subject) ["key"; "value"]).

Section topic.
Context {PL : PayloadLib} {TL : TimestampLib}.

Definition described_configs (s : Seen) (topic : string) (b : Boundary) : result AccessError ConfigSection :=
  match capability PTopicConfigs (sn_access s) with
  | Err error => withheld error
  | Ok _ =>
      Ok match Store.topic_configs (seen_store s) topic with
         | Some entries => overrides entries
         | None => not_read (lh_last_error (ln_health (cs_configs (seen_store s)))) b
         end
  end.

(** [TopicDescription::read]. *)
Definition TopicDescription_read (random : N) (s : Seen) (detail : TopicDetail) : result AccessError TopicDescription :=
  let boundary := Boundary_new random in
  let partitions := described_partitions (seen_store s) detail in
  let counted := forallb (λ p, bool_decide (is_Some (mp_retained_messages p))) partitions in
  configs ← described_configs s (td_name detail) boundary;
  let notice := if explained_by_error configs then CLIENT_VALUES_NOTICE +:+ " " +:+ lane_error_notice boundary
                else CLIENT_VALUES_NOTICE in
  Ok {| to_topic := TopicSummary_new detail counted (rate_get (cs_rates (seen_store s)) (td_name detail));
        to_configs := configs;
        to_groups := Rows_new "groups" (described_groups (seen_store s) (td_name detail));
        to_subjects := described_subjects (sr_has_registry (sn_served s)) (seen_store s) (td_name detail);
        to_partitions := Rows_new "partitions" partitions;
        to_notice := notice |}.
End topic.

(** ** Brokers *)

(** The input of klens_brokers_list, without its cluster. *)
Record BrokersQuery : Set := { bq_after : option Z; bq_broker : option Z; bq_limit : option nat }.

Record McpBrokerRow : Set := {
  mb_id : Z;
  mb_host : string;
  mb_port : Z;
  mb_rack : option string;
  mb_controller : option bool;
  mb_partition_count : Z;
  mb_leader_count : Z;
  mb_size_bytes : option Z;
  mb_log_dirs : option (list LogDirInfo);
}.

Definition McpBrokerRow_new (row : BrokerRow) (controller_known log_dirs_read : bool) : McpBrokerRow :=
  {| mb_id := br_id row; mb_host := br_host row; mb_port := br_port row; mb_rack := br_rack row;
     mb_controller := then_some controller_known (br_controller row);
     mb_partition_count := br_partition_count row; mb_leader_count := br_leader_count row;
     mb_size_bytes := br_size_bytes row; mb_log_dirs := then_some log_dirs_read (br_log_dirs row) |}.

(** [BrokerRow::read], after the topology was read. *)
Definition read_brokers (store : ClusterStore) (topology : Topology) : list McpBrokerRow :=
  (λ row,
    let log_dirs_read := match load (T := LogDirTable) store with
                         | Some table => bool_decide (is_Some (log_dirs_broker table (br_id row)))
                         | None => false
                         end in
    McpBrokerRow_new row (bool_decide (is_Some (tp_controller topology))) log_dirs_read) <$> store_broker_rows store.

Record BrokerList : Type := { bl_page : Page McpBrokerRow }.
Record BrokerDetail : Type := { bd_broker : McpBrokerRow; bd_configs : ConfigSection }.

(** ** ACLs *)

(** The input of klens_acls_list, without its cluster. *)
Record AclsQuery : Set := {
  qa_contains : option string;
  qa_resource_type : option AclResourceType;
  qa_operation : option AclOperation;
  qa_permission : option AclPermission;
  qa_limit : option nat;
}.

Record AclList : Type := { acls_status : string; acls_page : Page Acl }.

Definition wants {A} `{!EqDecision A} (wanted : option A) (x : A) : bool :=
  match wanted with Some wanted => bool_decide (x = wanted) | None => true end.

(** [AclsQuery::bindings], with the status as it serializes. *)
Definition bindings (to_lowercase : string → string) (q : AclsQuery) (listing : AclListing) : string * list Acl :=
  let rows := match listing with AclsEnabled rows => rows | AclsDisabled | AclsDenied => [] end in
  let status := match listing with
                | AclsEnabled _ => "ENABLED" | AclsDisabled => "DISABLED" | AclsDenied => "DENIED"
                end in
  let named := name_matches to_lowercase (qa_contains q) in
  (status,
   List.filter (λ acl, wants (qa_permission q) (acl_permission acl))
     (List.filter (λ acl, wants (qa_operation q) (acl_operation acl))
       (List.filter (λ acl, wants (qa_resource_type q) (acl_resource_type acl))
         (List.filter (λ acl, named (acl_principal acl) || named (acl_resource_name acl) || named (acl_host acl))
           rows)))).

(** ** Clusters *)

Record UnhealthyLane : Type := {
  ul_lane : string;
  ul_last_error : option string;
  ul_updated_at : option Lane.Timestamp;
}.

Record ClusterRow : Type := {
  cl_name_ : string;
  cl_is_ready : bool;
  cl_broker_count : option Z;
  cl_topic_count : option Z;
  cl_partition_count : option Z;
  cl_group_count : option Z;
  cl_subject_count : option Z;
  cl_under_replicated : option Z;
  cl_offline : option Z;
  cl_unhealthy_lanes : list UnhealthyLane;
}.

Section clusters.
Context {PL : PayloadLib} {TL : TimestampLib}.

Definition UnhealthyLane_new (b : Boundary) (lane : string * LaneHealth) : UnhealthyLane :=
  {| ul_lane := lane.1; ul_last_error := told_error b (lh_last_error lane.2); ul_updated_at := lh_updated_at lane.2 |}.

Definition ClusterRow_new (health : ClusterHealthView) (b : Boundary) : ClusterRow :=
  let ready := bool_decide (is_Some (lh_updated_at (hv_topology health))) in
  let subjects_read := bool_decide (is_Some (lh_updated_at (hv_subjects health))) in
  let lanes :=
    [("topology", hv_topology health); ("watermarks", hv_watermarks health); ("offsets", hv_offsets health);
     ("configs", hv_configs health); ("subjects", hv_subjects health); ("log_dirs", hv_log_dirs health);
     ("acls", hv_acls health); ("quotas", hv_quotas health); ("scram_users", hv_scram_users health)] in
  {| cl_name_ := hv_cluster health;
     cl_is_ready := ready;
     cl_broker_count := then_some ready (hv_broker_count health);
     cl_topic_count := then_some ready (hv_topic_count health);
     cl_partition_count := then_some ready (hv_partition_count health);
     cl_group_count := then_some ready (hv_group_count health);
     cl_subject_count := then_some subjects_read (hv_subject_count health);
     cl_under_replicated := then_some ready (hv_under_replicated health);
     cl_offline := then_some ready (hv_offline health);
     cl_unhealthy_lanes := UnhealthyLane_new b <$> List.filter (λ lane, negb (healthy lane.2)) lanes |}.

Definition has_lane_error (row : ClusterRow) : bool :=
  existsb (λ lane, bool_decide (is_Some (ul_last_error lane))) (cl_unhealthy_lanes row).

Record UnhealthyPartition : Set := {
  un_topic : string;
  un_partition : Z;
  un_leader : option Z;
  un_replicas : list Z;
  un_isr : list Z;
  un_offline : bool;
}.

Definition unhealthy_of (entry : string * TopicInfo) : list UnhealthyPartition :=
  (λ p, {| un_topic := entry.1; un_partition := id p; un_leader := then_some (negb (offline p)) (leader p);
           un_replicas := replicas p; un_isr := isr p; un_offline := offline p |}) <$>
  List.filter (λ p, under_replicated p || offline p) (ti_partitions entry.2).

(** [UnhealthyPartition::all], after the topology was read. *)
Definition unhealthy_partitions (topology : Topology) : list UnhealthyPartition :=
  sort_by (λ a b, Bool.compare (negb (un_offline a)) (negb (un_offline b)))
    (btree_iter (tp_topics topology) ≫= unhealthy_of).

Record ClusterList : Type := { clu_clusters : Rows ClusterRow; clu_notice : option string }.
Record ClusterDetail : Type := {
  cd_row : ClusterRow;
  cd_unhealthy_partitions : Rows UnhealthyPartition;
  cd_notice : option string;
}.

Record ClusterRights : Set := {
  ri_cluster : string;
  ri_writable : bool;
  ri_privileges : list Privilege;
  ri_tools : list ToolRights;
}.

Definition ClusterRights_of (s : Seen) : ClusterRights :=
  let writable := sr_writable (sn_served s) in
  {| ri_cluster := seen_name s; ri_writable := writable; ri_privileges := privileges_list (sn_access s);
     ri_tools := gates ≫= λ gate, gate_rights gate (sn_access s) writable |}.

Record AccessList : Type := { al_clusters : Rows ClusterRights }.

Record ClusterHit : Set := { cht_cluster : string; cht_hit : SearchHit }.
Record UnreadLane : Set := { ur_cluster : string; ur_lane : string; ur_last_error : option string }.

Definition UnreadLane_of {T} (s : Seen) (name : string) (lane : Lane T) (b : Boundary) : option UnreadLane :=
  if lane_ready lane then None
  else Some {| ur_cluster := seen_name s; ur_lane := name; ur_last_error := told_error b (lh_last_error (ln_health lane)) |}.

Record SearchResult : Type := {
  se_hits : Rows ClusterHit;
  se_not_ready : list UnreadLane;
  se_notice : option string;
}.

Context {FZ : FrizbeeLib}.

(** The loop of [SearchResult::find]. *)
Fixpoint find_all (b : Boundary) (query : string) (clusters : list Seen) : list ClusterHit * list UnreadLane :=
  match clusters with
  | [] => ([], [])
  | s :: clusters =>
      let '(hits, not_ready) := find_all b query clusters in
      match UnreadLane_of s "topology" (cs_topology (seen_store s)) b with
      | Some lane => (hits, lane :: not_ready)
      | None =>
          (((λ hit, {| cht_cluster := seen_name s; cht_hit := hit |}) <$>
              Search.find (load (seen_store s)) (load (seen_store s)) query) ++ hits,
           option_list (UnreadLane_of s "subjects" (cs_subjects (seen_store s)) b) ++ not_ready)
      end
  end.

Definition SearchResult_find (random : N) (clusters : list Seen) (query : string) : SearchResult :=
  let boundary := Boundary_new random in
  let '(hits, not_ready) := find_all boundary query clusters in
  let names_client_values :=
    existsb (λ found, bool_decide (hit_kind (cht_hit found) = GroupHit ∨ hit_kind (cht_hit found) = SubjectHit)) hits in
  let carries_lane_error := existsb (λ lane, bool_decide (is_Some (ur_last_error lane))) not_ready in
  let notices :=
    option_list (then_some names_client_values CLIENT_VALUES_NOTICE) ++
    option_list (then_some carries_lane_error (lane_error_notice boundary)) in
  {| se_hits := Rows_new "hits" hits; se_not_ready := not_ready;
     se_notice := then_some (bool_decide (notices ≠ [])) (join_text " " notices) |}.
End clusters.

Record GroupList : Type := { gl_page : Page McpGroupRow }.

(** ** Replies *)

Section json.
Context `{!ValueJson}.

#[export] Instance McpTopicRow_json : ToJson McpTopicRow := λ r,
  JObject ([("name", JString (mt_name r)); ("partitionCount", json_int (mt_partition_count r));
            ("retainedMessages", json_opt json_int (mt_retained_messages r));
            ("sizeBytes", json_opt json_int (mt_size_bytes r)); ("rate", json_opt f64_json (mt_rate r));
            ("groupCount", json_int (mt_group_count r)); ("underReplicated", JBool (mt_under_replicated r))] ++
           match mt_detail r with
           | None => []
           | Some d =>
               [("internal", JBool (trd_internal d)); ("replicationFactor", json_int (trd_replication_factor d));
                ("producedTotal", json_opt json_int (trd_produced_total d));
                ("retentionMs", json_opt json_int (trd_retention_ms d));
                ("cleanupPolicy", json_opt CleanupPolicy_json (trd_cleanup_policy d))]
           end).

Definition TopicSummary_fields (t : TopicSummary) : list (string * json) :=
  [("name", JString (ts_name t)); ("internal", JBool (ts_internal t));
   ("partitionCount", json_int (Z.of_nat (ts_partition_count t)));
   ("replicationFactor", json_int (ts_replication_factor t));
   ("retainedMessages", json_opt json_int (ts_retained_messages t));
   ("producedTotal", json_opt json_int (ts_produced_total t)); ("sizeBytes", json_opt json_int (ts_size_bytes t));
   ("diskBytes", json_opt json_int (ts_disk_bytes t)); ("rate", json_opt f64_json (ts_rate t));
   ("retentionMs", json_opt json_int (ts_retention_ms t));
   ("cleanupPolicy", json_opt CleanupPolicy_json (ts_cleanup_policy t));
   ("underReplicatedPartitions", json_int (Z.of_nat (ts_under_replicated_partitions t)));
   ("offlinePartitions", json_int (Z.of_nat (ts_offline_partitions t)))].

#[export] Instance McpPartitionRow_json : ToJson McpPartitionRow := λ p,
  JObject [("partition", json_int (mp_partition p)); ("leader", json_opt json_int (mp_leader p));
           ("replicas", json_ints (mp_replicas p)); ("isr", json_ints (mp_isr p));
           ("underReplicated", JBool (mp_under_replicated p)); ("offline", JBool (mp_offline p));
           ("lowWatermark", json_opt json_int (mp_low_watermark p));
           ("highWatermark", json_opt json_int (mp_high_watermark p));
           ("retainedMessages", json_opt json_int (mp_retained_messages p));
           ("sizeBytes", json_opt json_int (mp_size_bytes p))].

#[export] Instance TopicGroupRow_json : ToJson TopicGroupRow := λ g,
  JObject [("id", JString (tgr_id g)); ("state", GroupState_json (tgr_state g));
           ("memberCount", json_int (tgr_member_count g)); ("lagOnTopic", json_opt json_int (tgr_lag_on_topic g))].

Definition SubjectVersion_json (v : SubjectVersion) : json :=
  JObject [("version", json_int (sv_version v)); ("id", json_opt json_int (sv_id v))].

#[export] Instance McpSubjectRow_json : ToJson McpSubjectRow := λ s,
  JObject ([("subject", JString (ms_subject s)); ("latestVersion", json_int (ms_latest_version s));
            ("type", SchemaType_json (ms_schema_type s)); ("compatibility", SchemaCompatibility_json (ms_compatibility s))] ++
           match ms_versions s with
           | None => []
           | Some v =>
               [("latestSchemaId", json_int (su_latest_schema_id v));
                ("versions", JArray (SubjectVersion_json <$> su_versions v))] ++
               json_unless_none "versionsLeftOut" (su_versions_left_out v)
           end).

Definition LogDir_json (d : LogDirInfo) : json :=
  JObject [("path", JString (ldi_path d)); ("error", json_opt JString (ldi_error d));
           ("totalBytes", json_opt json_int (ldi_total_bytes d)); ("usableBytes", json_opt json_int (ldi_usable_bytes d));
           ("cordoned", JBool (ldi_cordoned d)); ("sizeBytes", json_int (ldi_size_bytes d));
           ("replicaCount", json_int (ldi_replica_count d))].

Definition McpBrokerRow_fields (b : McpBrokerRow) : list (string * json) :=
  [("id", json_int (mb_id b)); ("host", JString (mb_host b)); ("port", json_int (mb_port b));
   ("rack", json_opt JString (mb_rack b)); ("controller", json_opt JBool (mb_controller b));
   ("partitionCount", json_int (mb_partition_count b)); ("leaderCount", json_int (mb_leader_count b));
   ("sizeBytes", json_opt json_int (mb_size_bytes b));
   ("logDirs", json_opt (λ dirs, JArray (LogDir_json <$> dirs)) (mb_log_dirs b))].

#[export] Instance McpBrokerRow_json : ToJson McpBrokerRow := λ b, JObject (McpBrokerRow_fields b).

Definition UnhealthyLane_json (l : UnhealthyLane) : json :=
  JObject [("lane", JString (ul_lane l)); ("lastError", json_opt JString (ul_last_error l));
           ("updatedAt", json_opt instant_json (ul_updated_at l))].

Definition ClusterRow_fields (r : ClusterRow) : list (string * json) :=
  [("cluster", JString (cl_name_ r)); ("ready", JBool (cl_is_ready r));
   ("brokerCount", json_opt json_int (cl_broker_count r)); ("topicCount", json_opt json_int (cl_topic_count r));
   ("partitionCount", json_opt json_int (cl_partition_count r)); ("groupCount", json_opt json_int (cl_group_count r));
   ("subjectCount", json_opt json_int (cl_subject_count r));
   ("underReplicatedPartitions", json_opt json_int (cl_under_replicated r));
   ("offlinePartitions", json_opt json_int (cl_offline r));
   ("unhealthyLanes", JArray (UnhealthyLane_json <$> cl_unhealthy_lanes r))].

#[export] Instance ClusterRow_json : ToJson ClusterRow := λ r, JObject (ClusterRow_fields r).

#[export] Instance UnhealthyPartition_json : ToJson UnhealthyPartition := λ p,
  JObject [("topic", JString (un_topic p)); ("partition", json_int (un_partition p));
           ("leader", json_opt json_int (un_leader p)); ("replicas", json_ints (un_replicas p));
           ("isr", json_ints (un_isr p)); ("offline", JBool (un_offline p))].

Definition ToolRights_json (t : ToolRights) : json :=
  JObject (("name", JString (tr_tool t)) ::
           option_list ((λ s, ("section", JString match s with ConfigsSection => "configs" end)) <$> tr_section t) ++
           ("available", JBool (tr_available t)) ::
           option_list ((λ p, ("needs", Privilege_json p)) <$> tr_needs t)).

#[export] Instance ClusterRights_json : ToJson ClusterRights := λ r,
  JObject [("cluster", JString (ri_cluster r)); ("writable", JBool (ri_writable r));
           ("privileges", JArray (Privilege_json <$> ri_privileges r)); ("tools", JArray (ToolRights_json <$> ri_tools r))].

#[export] Instance ClusterHit_json : ToJson ClusterHit := λ h,
  JObject [("cluster", JString (cht_cluster h)); ("kind", SearchKind_json (hit_kind (cht_hit h)));
           ("id", JString (hit_id (cht_hit h))); ("label", JString (hit_label (cht_hit h)));
           ("detail", JString (hit_detail (cht_hit h)))].

Definition UnreadLane_json (l : UnreadLane) : json :=
  JObject [("cluster", JString (ur_cluster l)); ("lane", JString (ur_lane l));
           ("lastError", json_opt JString (ur_last_error l))].

#[export] Instance McpGroupRow_json : ToJson McpGroupRow := λ g,
  JObject ([("id", JString (mg_id g)); ("state", GroupState_json (mg_state g));
            ("memberCount", json_int (mg_member_count g))] ++
           option_list ((λ names, ("topicNames", JArray (JString <$> names))) <$> mg_topic_names g) ++
           [("totalLag", json_opt json_int (mg_total_lag g)); ("lagComplete", JBool (mg_lag_complete g))]).

Definition notice_field (notice : option string) : list (string * json) :=
  option_list ((λ n, ("notice", JString n)) <$> notice).

(** The macro [reply!]: the fields that hold lists, and what stays whole when they are cut. *)
Definition reply_of {R} (fields : R → list (string * json)) (cuts : R → list (Cut R)) (kept : option string) : Reply R :=
  {| reply_fields := fields; lists := cuts; kept_whole _ := kept; inner_rows _ := 0; cap _ r := r;
     capped_note _ _ := None |}.

#[export] Instance TopicList_reply : Reply TopicList := reply_of
  (λ r, Page_fields (tli_page r) ++ json_unless_none "unmeasured" (tli_unmeasured r))
  (λ _, [Page_cut tli_page (λ page r, {| tli_page := page; tli_unmeasured := tli_unmeasured r |})]) None.

#[local] Abbreviation with_rows r configs groups partitions :=
  {| to_topic := to_topic r; to_configs := configs; to_groups := groups; to_subjects := to_subjects r;
     to_partitions := partitions; to_notice := to_notice r |}.

#[export] Instance TopicDescription_reply : Reply TopicDescription := reply_of
  (λ r, TopicSummary_fields (to_topic r) ++ ConfigSection_fields (to_configs r) ++
        [("groups", to_json (to_groups r));
         ("subjects", json_opt (λ rows, JArray (to_json <$> rows)) (to_subjects r));
         ("partitions", to_json (to_partitions r)); ("notice", JString (to_notice r))])
  (λ r, ConfigSection_cuts to_configs (λ configs r, with_rows r configs (to_groups r) (to_partitions r)) r ++
        [Rows_cut to_groups (λ rows r, with_rows r (to_configs r) rows (to_partitions r));
         Rows_cut to_partitions (λ rows r, with_rows r (to_configs r) (to_groups r) rows)])
  (Some "the counts above cover every partition").

#[export] Instance SubjectList_reply : Reply SubjectList := reply_of
  (λ r, Page_fields (sl_page r) ++ [("notice", JString CLIENT_VALUES_NOTICE)])
  (λ _, [Page_cut sl_page (λ page _, {| sl_page := page |})]) None.

#[export] Instance BrokerList_reply : Reply BrokerList := reply_of
  (λ r, Page_fields (bl_page r)) (λ _, [Page_cut bl_page (λ page _, {| bl_page := page |})]) None.

#[export] Instance BrokerDetail_reply : Reply BrokerDetail := reply_of
  (λ r, McpBrokerRow_fields (bd_broker r) ++ ConfigSection_fields (bd_configs r))
  (ConfigSection_cuts bd_configs (λ configs r, {| bd_broker := bd_broker r; bd_configs := configs |}))
  (Some "the klens UI shows every config").

#[export] Instance AclList_reply : Reply AclList := reply_of
  (λ r, ("status", JString (acls_status r)) :: Page_fields (acls_page r) ++ [("notice", JString CLIENT_VALUES_NOTICE)])
  (λ _, [Page_cut acls_page (λ page r, {| acls_status := acls_status r; acls_page := page |})]) None.

#[export] Instance ClusterList_reply : Reply ClusterList := reply_of
  (λ r, ("clusters", to_json (clu_clusters r)) :: notice_field (clu_notice r))
  (λ _, [Rows_cut clu_clusters (λ rows r, {| clu_clusters := rows; clu_notice := clu_notice r |})])
  (Some "pass `cluster` to read one cluster").

#[export] Instance ClusterDetail_reply : Reply ClusterDetail := reply_of
  (λ r, ClusterRow_fields (cd_row r) ++ ("unhealthyPartitions", to_json (cd_unhealthy_partitions r)) ::
        notice_field (cd_notice r))
  (λ _, [Rows_cut cd_unhealthy_partitions
           (λ rows r, {| cd_row := cd_row r; cd_unhealthy_partitions := rows; cd_notice := cd_notice r |})])
  (Some "the counts above cover every partition").

#[export] Instance AccessList_reply : Reply AccessList := reply_of
  (λ r, [("clusters", to_json (al_clusters r))])
  (λ _, [Rows_cut al_clusters (λ rows _, {| al_clusters := rows |})])
  (Some "pass `cluster` to explain one cluster").

#[export] Instance SearchResult_reply : Reply SearchResult := reply_of
  (λ r, ("hits", to_json (se_hits r)) ::
        (if bool_decide (se_not_ready r = []) then [] else [("notReady", JArray (UnreadLane_json <$> se_not_ready r))]) ++
        notice_field (se_notice r))
  (λ _, [Rows_cut se_hits (λ rows r, {| se_hits := rows; se_not_ready := se_not_ready r; se_notice := se_notice r |})])
  (Some "pass `cluster` or a longer query").

#[export] Instance GroupList_reply : Reply GroupList := reply_of
  (λ r, Page_fields (gl_page r) ++ [("notice", JString CLIENT_VALUES_NOTICE)])
  (λ _, [Page_cut gl_page (λ page _, {| gl_page := page |})]) None.

(** ** What cutting them changes *)

Context `{!ResultLib}.

(** Each law, cut by cut. *)
#[local] Ltac each_cut Hc := cbn in Hc; rewrite ?elem_of_cons, ?elem_of_nil in Hc; destruct_or? Hc; subst; try done.

#[local] Ltac reply_laws :=
  split;
  [ intros r c Hc rows r'; each_cut Hc
  | intros r c c' Hc Hc' rows r'; each_cut Hc; each_cut Hc'
  | intros rows r c Hc; each_cut Hc
  | done ].

#[export] Instance TopicList_laws : ReplyLaws TopicList.
Proof. reply_laws. Qed.

#[export] Instance SubjectList_laws : ReplyLaws SubjectList.
Proof. reply_laws. Qed.

#[export] Instance BrokerList_laws : ReplyLaws BrokerList.
Proof. reply_laws. Qed.

#[export] Instance AclList_laws : ReplyLaws AclList.
Proof. reply_laws. Qed.

#[export] Instance ClusterList_laws : ReplyLaws ClusterList.
Proof. reply_laws. Qed.

#[export] Instance ClusterDetail_laws : ReplyLaws ClusterDetail.
Proof. reply_laws. Qed.

#[export] Instance AccessList_laws : ReplyLaws AccessList.
Proof. reply_laws. Qed.

#[export] Instance SearchResult_laws : ReplyLaws SearchResult.
Proof. reply_laws. Qed.

#[export] Instance GroupList_laws : ReplyLaws GroupList.
Proof. reply_laws. Qed.

#[export] Instance BrokerDetail_laws : ReplyLaws BrokerDetail.
Proof.
  split.
  - intros [b [[configs|] o]] c Hc rows r'; each_cut Hc.
  - intros [b [[configs|] o]] c c' Hc Hc' rows r'; each_cut Hc; each_cut Hc'.
  - intros rows [b [[configs|] o]] c Hc; each_cut Hc.
  - by intros x y [b [[configs|] o]].
Qed.

#[export] Instance TopicDescription_laws : ReplyLaws TopicDescription.
Proof.
  split.
  - intros [t [[configs|] o] g s p n] c Hc rows r'; each_cut Hc.
  - intros [t [[configs|] o] g s p n] c c' Hc Hc' rows r'; each_cut Hc; each_cut Hc'.
  - intros rows [t [[configs|] o] g s p n] c Hc; each_cut Hc.
  - by intros x y [t [[configs|] o] g s p n].
Qed.
End json.

(** ** Topics that are listed *)

Section listed.
Context (to_lowercase : string → string).

Lemma keep_empty_spec empty rows :
  (keep_empty empty rows).1 =
    List.filter (λ row, match empty, mt_retained_messages row with
                        | None, _ => true
                        | Some wanted, Some records => Bool.eqb (records =? 0)%Z wanted
                        | Some _, None => false
                        end) rows ∧
  (keep_empty empty rows).2 =
    match empty with
    | None => 0
    | Some _ => length (List.filter (λ row, bool_decide (mt_retained_messages row = None)) rows)
    end.
Proof.
  induction rows as [|row rows [IH1 IH2]]; [by destruct empty|]. cbn [keep_empty List.filter].
  destruct (keep_empty empty rows) as [kept unmeasured]. cbn [fst snd] in IH1, IH2. subst kept unmeasured.
  by destruct empty as [wanted|], (mt_retained_messages row) as [records|]; cbn.
Qed.
End listed.
