(* ===== verification/Bodies.v ===== *)
(** The bodies the HTTP API answers a read with, as they serialize ([types.rs] of
    [src/app/resources/]), and the response: its status and its body ([src/app/error.rs]).

    A body has the fields of the row or detail it is made of, in the order of its struct. *)

From Stdlib Require Import SpecFloat.
From S2P Require Import Prelude Text Utf8 Errors Metadata Cursor Payload Filter Query Obfuscate Pipeline Session Read TopicConfig Group Tables Projections Acl Quota Access Lane Interest Store Registry Handle Search Untrusted JsonText Reply RecordApi RecordText Findings Visit Resources Refusal ToolRows.

Section bodies.
Context {PL : PayloadLib} {RL : RedactLib} {FL : FilterLib} {TL : TimestampLib} {AL : ApiTimeLib} {FZ : FrizbeeLib}.
Context {VJ : ValueJson} {KT : KrafkaTexts}.

#[local] Abbreviation json_int := json_Z.
#[local] Abbreviation json_opt := json_option.
#[local] Abbreviation json_list f l := (JArray (f <$> l)).

(** ** Clusters *)

Definition ApiLaneHealth_json (h : ApiLaneHealth) : json :=
  JObject [("updatedAt", json_opt instant_json (al_updated_at h)); ("checkedAt", json_opt instant_json (al_checked_at h));
           ("lastError", json_opt JString (al_last_error h)); ("lastPollMs", json_opt json_int (al_last_poll_ms h));
           ("healthy", JBool (al_healthy h))].

Definition lane_key (lane : string) : string :=
  if String.eqb lane "log_dirs" then "logDirs" else if String.eqb lane "scram_users" then "scramUsers" else lane.

Definition ClusterHealth_json (h : ClusterHealth) : json :=
  JObject ([("cluster", JString (ah_cluster h)); ("ready", JBool (ah_ready h))] ++
           ((λ lane, (lane_key lane.1, ApiLaneHealth_json lane.2)) <$> ah_lanes h) ++
           [("topicCount", json_int (ah_topic_count h)); ("partitionCount", json_int (ah_partition_count h));
            ("groupCount", json_int (ah_group_count h)); ("brokerCount", json_int (ah_broker_count h));
            ("subjectCount", json_int (ah_subject_count h));
            ("underReplicatedPartitions", json_int (ah_under_replicated_partitions h));
            ("offlinePartitions", json_int (ah_offline_partitions h))]).

Definition ClusterGrant_json (g : ClusterGrant) : json :=
  JObject [("cluster", JString (cg_cluster g)); ("roles", json_list JString (cg_roles g));
           ("privileges", json_list Privilege_json (cg_privileges g)); ("writable", JBool (cg_writable g))].

Definition Identity_json (i : WhoamiIdentity) : json :=
  JObject [("subject", json_opt JString (wi_subject i)); ("clusters", json_list ClusterGrant_json (wi_clusters i))].

Definition SearchHit_json (h : SearchHit) : json :=
  JObject [("kind", SearchKind_json (hit_kind h)); ("id", JString (hit_id h)); ("label", JString (hit_label h));
           ("detail", JString (hit_detail h))].

(** ** Topics *)

Definition ApiTopicRow_json (r : TopicRow) : json :=
  JObject [("name", JString (tr_name r)); ("internal", JBool (tr_internal r));
           ("partitionCount", json_int (tr_partition_count r)); ("replicationFactor", json_int (tr_replication_factor r));
           ("retainedMessages", json_int (tr_retained_messages r)); ("producedTotal", json_int (tr_produced_total r));
           ("sizeBytes", json_opt json_int (tr_size_bytes r)); ("rate", f64_json (tr_rate r));
           ("retentionMs", json_opt json_int (tr_retention_ms r));
           ("cleanupPolicy", json_opt CleanupPolicy_json (tr_cleanup_policy r));
           ("groupCount", json_int (tr_group_count r)); ("underReplicated", JBool (tr_under_replicated r))].

Definition ApiPartitionRow_json (p : ApiPartitionRow) : json :=
  let row := ap_row p in
  JObject [("id", json_int (pr_id row)); ("leader", json_int (pr_leader row));
           ("replicas", json_list json_int (pr_replicas row)); ("isr", json_list json_int (pr_isr row));
           ("lowWatermark", json_int (pr_low_watermark row)); ("highWatermark", json_int (pr_high_watermark row));
           ("retained", json_int (ap_retained p)); ("underReplicated", JBool (ap_under_replicated p));
           ("sizeBytes", json_opt json_int (pr_size_bytes row))].

Definition ApiTopicDetail_json (t : ApiTopicDetail) : json :=
  let d := at_detail t in
  JObject [("name", JString (td_name d)); ("internal", JBool (td_internal d));
           ("partitions", json_list ApiPartitionRow_json (at_partitions t));
           ("replicationFactor", json_int (td_replication_factor d));
           ("retainedMessages", json_int (td_retained_messages d)); ("producedTotal", json_int (td_produced_total d));
           ("sizeBytes", json_opt json_int (td_size_bytes d)); ("diskBytes", json_opt json_int (td_disk_bytes d));
           ("rate", f64_json (td_rate d)); ("retentionMs", json_opt json_int (td_retention_ms d));
           ("cleanupPolicy", json_opt CleanupPolicy_json (td_cleanup_policy d));
           ("groupCount", json_int (td_group_count d)); ("underReplicated", JBool (td_under_replicated d))].

(** ** Groups *)

Definition MemberAssignment_json (a : MemberAssignment) : json :=
  JObject [("topic", JString (ma_topic a)); ("partitions", json_list json_int (ma_partitions a))].

Definition GroupMember_json (m : GroupMember) : json :=
  JObject [("id", JString (gm_id m)); ("clientId", JString (gm_client_id m)); ("host", JString (gm_host m));
           ("assignments", json_list MemberAssignment_json (gm_assignments m))].

Definition GroupOffset_json (o : GroupOffset) : json :=
  JObject [("topic", JString (go_topic o)); ("partition", json_int (go_partition o));
           ("currentOffset", json_opt json_int (go_current_offset o)); ("endOffset", json_opt json_int (go_end_offset o));
           ("lag", json_opt json_int (go_lag o)); ("memberId", json_opt JString (go_member_id o))].

Definition ApiGroupRow_json (r : GroupRow) : json :=
  JObject [("id", JString (gr_id r)); ("state", GroupState_json (gr_state r)); ("memberCount", json_int (gr_member_count r));
           ("topicNames", json_list JString (gr_topic_names r)); ("totalLag", json_opt json_int (gr_total_lag r));
           ("lagComplete", JBool (gr_lag_complete r))].

Definition GroupDetail_json (d : GroupDetail) : json :=
  JObject [("id", JString (gd_id d)); ("state", GroupState_json (gd_state d)); ("protocol", JString (gd_protocol d));
           ("members", json_list GroupMember_json (gd_members d)); ("offsets", json_list GroupOffset_json (gd_offsets d));
           ("totalLag", json_opt json_int (gd_total_lag d)); ("lagComplete", JBool (gd_lag_complete d))].

(** ** Brokers, configs and subjects *)

Definition ApiBrokerRow_json (b : BrokerRow) : json :=
  JObject [("id", json_int (br_id b)); ("host", JString (br_host b)); ("port", json_int (br_port b));
           ("rack", json_opt JString (br_rack b)); ("controller", JBool (br_controller b));
           ("partitionCount", json_int (br_partition_count b)); ("leaderCount", json_int (br_leader_count b));
           ("sizeBytes", json_opt json_int (br_size_bytes b)); ("logDirs", json_list LogDir_json (br_log_dirs b))].

Definition ConfigEntry_json (e : ConfigEntry) : json := JObject (ConfigEntry_fields e).

Definition ApiSubjectRow_json (r : SubjectRow) : json :=
  JObject [("subject", JString (Projections.sr_subject r)); ("id", json_int (si_id (sr_info r)));
           ("type", SchemaType_json (si_schema_type (sr_info r)));
           ("latestVersion", json_int (si_latest_version (sr_info r)));
           ("versions", json_list SubjectVersion_json (sr_versions r));
           ("compatibility", SchemaCompatibility_json (si_compatibility (sr_info r)))].

Definition SubjectRowsResult_json (r : SubjectRowsResult) : json :=
  JObject [("rows", json_list ApiSubjectRow_json (sw_rows r)); ("sourceHealth", ApiLaneHealth_json (sw_source_health r));
           ("hasRegistry", JBool (sw_has_registry r))].

Definition SubjectDetail_json (d : SubjectDetail) : json :=
  JObject [("subject", JString (de_subject d)); ("version", json_int (de_version d)); ("id", json_int (de_id d));
           ("type", SchemaType_json (de_schema_type d)); ("schema", JString (de_schema d));
           ("references", json_list SchemaReference_json (de_references d))].

(** ** ACLs, quotas and credentials *)

Definition AclStatus_json (s : AclStatus) : json :=
  JString match s with
          | AclPending => "PENDING" | AclEnabled => "ENABLED" | AclDisabled => "DISABLED" | AclDenied => "DENIED"
          end.

Definition ApiAclListing_json (l : ApiAclListing) : json :=
  JObject [("status", AclStatus_json (aa_status l)); ("bindings", json_list to_json (aa_bindings l));
           ("sourceHealth", ApiLaneHealth_json (aa_source_health l))].

(** [QuotaStatus] and [ScramStatus]. *)
Definition DescribeStatus_json (s : DescribeStatus) : json :=
  JString match s with DescribePending => "PENDING" | Described => "DESCRIBED" | DescribeDenied => "DENIED" end.

Definition QuotaEntity_json (e : QuotaEntity) : json :=
  JObject [("entityType", JString match qe_entity_type e with
                                  | UserEntity => "USER" | ClientIdEntity => "CLIENT_ID" | IpEntity => "IP"
                                  end);
           ("name", json_opt JString (qe_name e))].

Definition ClientQuota_json (q : ClientQuota) : json :=
  let values := cq_values q in
  JObject [("entity", json_list QuotaEntity_json (cq_entity q));
           ("producerByteRate", json_opt f64_json (producer_byte_rate values));
           ("consumerByteRate", json_opt f64_json (consumer_byte_rate values));
           ("requestPercentage", json_opt f64_json (request_percentage values));
           ("controllerMutationRate", json_opt f64_json (controller_mutation_rate values));
           ("connectionCreationRate", json_opt f64_json (connection_creation_rate values))].

Definition ApiQuotaListing_json (l : ApiQuotaListing) : json :=
  JObject [("status", DescribeStatus_json (aq_status l)); ("quotas", json_list ClientQuota_json (aq_quotas l));
           ("sourceHealth", ApiLaneHealth_json (aq_source_health l))].

Definition ScramCredential_json (c : ScramCredential) : json :=
  JObject [("mechanism", JString match sc_mechanism c with Sha256 => "SHA256" | Sha512 => "SHA512" end);
           ("iterations", json_int (sc_iterations c))].

Definition ScramUser_json (u : ScramUser) : json :=
  JObject [("name", JString (su_name u)); ("credentials", json_list ScramCredential_json (su_credentials u))].

Definition ApiScramListing_json (l : ApiScramListing) : json :=
  JObject [("status", DescribeStatus_json (as_status l)); ("users", json_list ScramUser_json (as_users l));
           ("sourceHealth", ApiLaneHealth_json (as_source_health l))].

(** ** Records *)

Definition ApiRecordPage_json (p : ApiRecordPage) : json :=
  JObject [("records", json_list ApiRecord_json (ap_records p)); ("complete", JBool (ap_complete p));
           ("obfuscated", JBool (ap_obfuscated p)); ("nextCursor", json_opt JString (ap_next_cursor p));
           ("prevCursor", json_opt JString (ap_prev_cursor p))].

Definition RecordLookup_json (record : ApiRecord) (obfuscated : bool) : json :=
  JObject [("record", ApiRecord_json record); ("obfuscated", JBool obfuscated)].

(** ** The response *)

Definition answer_json (a : HttpAnswer) : json :=
  match a with
  | AClusters clusters => json_list ClusterHealth_json clusters
  | AWhoami identity => Identity_json identity
  | ASearch hits => json_list SearchHit_json hits
  | ACluster cluster => ClusterHealth_json cluster
  | ATopics topics => json_list ApiTopicRow_json topics
  | ATopic topic => ApiTopicDetail_json topic
  | ATopicGroups groups => json_list to_json groups
  | AConfigs entries => json_list ConfigEntry_json entries
  | AGroups groups => json_list ApiGroupRow_json groups
  | AGroup group => GroupDetail_json group
  | ABrokers brokers => json_list ApiBrokerRow_json brokers
  | ASubjects subjects => SubjectRowsResult_json subjects
  | ASubject subject => SubjectDetail_json subject
  | AAcls acls => ApiAclListing_json acls
  | AQuotas quotas => ApiQuotaListing_json quotas
  | AScramUsers users => ApiScramListing_json users
  | ARecords page => ApiRecordPage_json page
  | ARecord record obfuscated => RecordLookup_json record obfuscated
  end.

(** [IntoResponse for ApiError]. *)
Definition error_response (e : ApiError) : Z * json :=
  (ApiError_status e, JObject ((λ field, (field.1, JString field.2)) <$> ApiError_body e)).

(** What a reader is sent, and the interest in groups it leaves behind. *)
Definition http_response (v : Visitor) (r : HttpRead) : (Z * json) * option InterestRegistry :=
  let '(answer, interest) := http_read v r in
  (match answer with Ok answer => (200%Z, answer_json answer) | Err error => error_response error end, interest).

(** C8 (safety): no response to a request that reads (the GET routes of [HttpRead]; changes and streams
    are not among them) depends on what its caller may not read: not its status, its body or the
    groups it makes klens read more often, on a cluster outside the caller's scope, on the
    configs of topics but for the two anyone sees, on a broker's configs and the quotas, on ACLs
    and credentials, on schema texts or on records, unless its roles hold the privilege that
    covers it there. *)
Theorem responses_public v r : http_response (public_visitor v) r = http_response v r.
Proof. unfold http_response. by rewrite reads_public. Qed.
End bodies.
