(* ===== verification/McpTools.v ===== *)
(** The MCP tools that read ([src/app/mcp/tools/]) and the server that runs them
    ([src/app/mcp/server.rs]): what a caller is answered, what it may see, and which calls reach
    Kafka or the schema registry.

    A call is given the limiter's word on one live call; rmcp's routing and its reading of
    arguments are not modelled, and [settle] takes what they make of a call. *)

From S2P Require Import Prelude Text Utf8 Errors Metadata Cursor Payload Filter Query Obfuscate Pipeline Session Read TopicConfig Group Tables Projections Acl Quota Access Lane Interest Store Registry Handle Search Untrusted JsonText Reply RecordApi RecordText Findings Requests Visit Resources Refusal ToolRows.

(** ** A call's effects *)

(** Whether the call asked the limiter for a live call, and the interest in groups it leaves its
    cluster's store with, when it touched it. *)
Record Effects : Type := { ef_asked : bool; ef_touched : option InterestRegistry }.

Definition no_effects : Effects := {| ef_asked := false; ef_touched := None |}.

Definition then_effects (a b : Effects) : Effects :=
  {| ef_asked := ef_asked a || ef_asked b;
     ef_touched := match ef_touched b with Some interest => Some interest | None => ef_touched a end |}.

(** A step of a call, given whether the limiter permits a live call. *)
Definition Act (A : Type) : Type := bool → Effects * result ApiError A.

Definition act_lift {A} (r : result ApiError A) : Act A := λ _, (no_effects, r).
Definition act_ret {A} (x : A) : Act A := act_lift (Ok x).

Definition act_bind {A B} (f : A → Act B) (m : Act A) : Act B := λ permit,
  match m permit with
  | (e, Ok x) => let '(e', r) := f x permit in (then_effects e e', r)
  | (e, Err error) => (e, Err error)
  end.

#[local] Notation "'let!' x := m 'in' k" := (act_bind (λ x, k) m) (at level 10, x pattern, k at level 200).

(** [KlensMcp::live_call]. *)
Definition live_call : Act () := λ permit,
  ({| ef_asked := true; ef_touched := None |}, if permit then Ok () else Err TooManyLiveCalls).

Definition touch (interest : InterestRegistry) : Act () := λ _,
  ({| ef_asked := false; ef_touched := Some interest |}, Ok ()).

Section tools.
Context {PL : PayloadLib} {RL : RedactLib} {FL : FilterLib} {TL : TimestampLib} {AL : ApiTimeLib} {FZ : FrizbeeLib}.
Context {VJ : ValueJson} {REL : ResultLib}.
(** [str::to_lowercase], and the marker a reply draws. *)
Context (to_lowercase : string → string) (random : N).

(** A reply fitted to a result; [None] would be a search that ran out of turns. *)
Definition fitted {R} `{!Reply R} (r : R) : Act (option CallToolResult) := act_ret (fit r).

Definition on_access {A} (r : result AccessError A) : Act A := act_lift (map_err ApiAccess r).
Definition on_kafka {A} (r : result KafkaError A) : Act A := act_lift (map_err ApiKafka r).

(** ** Clusters *)

Definition klens_clusters (v : Visitor) (cluster : option string) : Act (option CallToolResult) :=
  let boundary := Boundary_new random in
  match cluster with
  | None =>
      let rows := (λ s, ClusterRow_new (store_health (seen_store s)) boundary) <$> visited v in
      fitted {| clu_clusters := Rows_new "clusters" rows;
                clu_notice := then_some (existsb has_lane_error rows) (lane_error_notice boundary) |}
  | Some name =>
      let! s := act_lift (visit v name) in
      let! topology := act_lift (seen_topology s) in
      let row := ClusterRow_new (store_health (seen_store s)) boundary in
      fitted {| cd_row := row;
                cd_unhealthy_partitions := Rows_new "unhealthyPartitions" (unhealthy_partitions topology);
                cd_notice := then_some (has_lane_error row) (lane_error_notice boundary) |}
  end.

Definition klens_access_explain (v : Visitor) (cluster : option string) : Act (option CallToolResult) :=
  let! clusters :=
    match cluster with
    | Some name => let! s := act_lift (visit v name) in act_ret [ClusterRights_of s]
    | None => act_ret (ClusterRights_of <$> visited v)
    end in
  fitted {| al_clusters := Rows_new "clusters" clusters |}.

Definition klens_search (v : Visitor) (query : string) (cluster : option string) : Act (option CallToolResult) :=
  let! _ := act_lift (check_query_length query) in
  let! clusters :=
    match cluster with
    | Some name =>
        let! s := act_lift (visit v name) in
        let! _ := act_lift (seen_topology s) in
        act_ret [s]
    | None => act_ret (visited v)
    end in
  fitted (SearchResult_find random clusters query).

(** ** Topics and brokers *)

Definition klens_topics_list (s : Seen) (q : TopicsQuery) : Act (option CallToolResult) :=
  let! topology := act_lift (seen_topology s) in
  let '(topics, unmeasured) := matching to_lowercase q (seen_store s) topology in
  fitted {| tli_page := Page_new "topics" topics (qt_limit q) (Some "pass `nameContains` or a filter");
            tli_unmeasured := then_some (bool_decide (0 < unmeasured)) unmeasured |}.

Definition klens_topic_describe (s : Seen) (topic : string) : Act (option CallToolResult) :=
  let! _ := act_lift (seen_topology s) in
  let! detail := act_lift (ok_or (store_topic_detail (seen_store s) topic) (unknown_topic s topic)) in
  let! description := on_access (TopicDescription_read random s detail) in
  fitted description.

Definition klens_brokers_list (s : Seen) (q : BrokersQuery) : Act (option CallToolResult) :=
  let! topology := act_lift (seen_topology s) in
  let brokers := read_brokers (seen_store s) topology in
  match bq_broker q with
  | None =>
      let brokers :=
        List.filter (λ b, match bq_after q with Some after => (after <? mb_id b)%Z | None => true end) brokers in
      fitted {| bl_page := Page_new "brokers" brokers (bq_limit q) (Some "pass the last id shown as `after`") |}
  | Some id =>
      if bool_decide (is_Some (bq_after q)) || bool_decide (is_Some (bq_limit q))
      then act_lift (Err (unprocessable "pass `broker` without `after` or `limit`"))
      else
        let! broker := act_lift (ok_or (List.find (λ b, Z.eqb (mb_id b) id) brokers)
          (ApiKafka (UnknownBroker (seen_name s) id))) in
        let! configs :=
          match capability PBrokerConfigs (sn_access s) with
          | Ok _ =>
              let! _ := live_call in
              let! entries := on_kafka (served_broker_configs (sn_served s) id) in
              act_ret (overrides entries)
          | Err error => on_access (withheld error)
          end in
        fitted {| bd_broker := broker; bd_configs := configs |}
  end.

(** ** ACLs and schemas *)

Definition klens_acls_list (s : Seen) (q : AclsQuery) : Act (option CallToolResult) :=
  let! _ := act_lift (granted s PAcls) in
  let! listing := act_lift (snapshot s "acls" (cs_acls (seen_store s))) in
  let '(status, rows) := bindings to_lowercase q listing in
  fitted {| acls_status := status;
            acls_page := Page_new "bindings" rows (qa_limit q) (Some "pass `contains` or another filter") |}.

Definition klens_schema_get (s : Seen) (subject : string) (version : option Z) : Act (option CallToolResult) :=
  let! _ := act_lift (granted s PSchemaText) in
  let! _ := act_lift (require_schema_registry s) in
  let! version :=
    match version with
    | Some version =>
        if (version <? 1)%Z then act_lift (Err (unprocessable "`version` must be 1 or more")) else act_ret version
    | None =>
        let! _ := act_lift (snapshot s "subjects" (cs_subjects (seen_store s))) in
        act_lift (latest_version s subject)
    end in
  let! _ := live_call in
  let! schema := on_kafka (sr_subject_schema (sn_served s) subject version) in
  act_ret (schema_result random (SubjectDetail_new subject version schema)).

(** The input of klens_schemas_list, without its cluster. *)
Record SubjectsQuery : Set := {
  qs_name_contains : option string;
  qs_limit : option nat;
  qs_detailed : bool;
}.

Definition klens_schemas_list (s : Seen) (q : SubjectsQuery) : Act (option CallToolResult) :=
  let! _ := act_lift (require_schema_registry s) in
  let! _ := act_lift (snapshot s "subjects" (cs_subjects (seen_store s))) in
  let rows :=
    List.filter (λ row, name_matches to_lowercase (qs_name_contains q) (Projections.sr_subject row))
      (store_subject_rows (seen_store s)) in
  let subjects :=
    (λ row, if qs_detailed q then detailed row else concise (Projections.sr_subject row) (sr_info row)) <$> rows in
  fitted {| sl_page := Page_new "subjects" subjects (qs_limit q) (Some "pass `nameContains`") |}.

(** ** Groups *)

Definition klens_groups_list (s : Seen) (q : GroupsQuery) : Act (option CallToolResult) :=
  let! _ := act_lift (seen_topology s) in
  fitted {| gl_page := groups_page to_lowercase q (group_rows (seen_store s)) |}.

Definition klens_group_describe (s : Seen) (id : string) (now : Z) : Act (option CallToolResult) :=
  let! topology := act_lift (seen_topology s) in
  let! _ := live_call in
  let '(store, detail) := store_group_detail (seen_store s) id now in
  let! _ := touch (cs_interest store) in
  let! group := act_lift (ok_or detail (ApiKafka (UnknownGroup (seen_name s) id))) in
  fitted (GroupDescription_new group (Finding_all group topology)).

(** ** Records *)

Definition klens_record_get (s : Seen) (topic : string) (partition offset : Z) : Act (option CallToolResult) :=
  let! _ := act_lift (granted s PRecords) in
  if ((partition <? 0) || (offset <? 0))%Z
  then act_lift (Err (unprocessable "`partition` and `offset` must be zero or more"))
  else
    let! _ := live_call in
    let! found := on_kafka (sr_record (sn_served s) (into_record_at None topic partition offset)) in
    act_ret (records_result random [ApiRecord_from (fr_record found)]
      (if fr_obfuscated found then OBFUSCATED_NOTICE else EmptyString) "The klens UI shows the whole record.").

Definition klens_records_read (s : Seen) (q : RecordsQuery) : Act (option CallToolResult) :=
  let! _ := act_lift (granted s PRecords) in
  let! query := act_lift (records_query q) in
  let! _ := live_call in
  let! page := on_kafka (sr_read (sn_served s) query) in
  match records_read_result random (ApiRecordPage_from page) (mq_order q) with
  | Some (Ok result) => act_ret (Some result)
  | Some (Err error) => act_lift (Err error)
  | None => act_ret None
  end.

(** ** Every tool that reads *)

Inductive ToolRead : Type :=
  | KlensClusters (cluster : option string)
  | KlensAccessExplain (cluster : option string)
  | KlensSearch (query : string) (cluster : option string)
  | KlensTopicsList (cluster : option string) (q : TopicsQuery)
  | KlensTopicDescribe (cluster : option string) (topic : string)
  | KlensBrokersList (cluster : option string) (q : BrokersQuery)
  | KlensAclsList (cluster : option string) (q : AclsQuery)
  | KlensSchemaGet (cluster : option string) (subject : string) (version : option Z)
  | KlensSchemasList (cluster : option string) (q : SubjectsQuery)
  | KlensGroupsList (cluster : option string) (q : GroupsQuery)
  | KlensGroupDescribe (cluster : option string) (id : string) (now : Z)
  | KlensRecordGet (cluster : option string) (topic : string) (partition offset : Z)
  | KlensRecordsRead (cluster : option string) (q : RecordsQuery).

Definition tool_read (v : Visitor) (call : ToolRead) : Act (option CallToolResult) :=
  let on cluster (tool : Seen → Act (option CallToolResult)) :=
    let! s := act_lift (cluster_or_only v cluster) in tool s in
  match call with
  | KlensClusters cluster => klens_clusters v cluster
  | KlensAccessExplain cluster => klens_access_explain v cluster
  | KlensSearch query cluster => klens_search v query cluster
  | KlensTopicsList cluster q => on cluster (λ s, klens_topics_list s q)
  | KlensTopicDescribe cluster topic => on cluster (λ s, klens_topic_describe s topic)
  | KlensBrokersList cluster q => on cluster (λ s, klens_brokers_list s q)
  | KlensAclsList cluster q => on cluster (λ s, klens_acls_list s q)
  | KlensSchemaGet cluster subject version => on cluster (λ s, klens_schema_get s subject version)
  | KlensSchemasList cluster q => on cluster (λ s, klens_schemas_list s q)
  | KlensGroupsList cluster q => on cluster (λ s, klens_groups_list s q)
  | KlensGroupDescribe cluster id now => on cluster (λ s, klens_group_describe s id now)
  | KlensRecordGet cluster topic partition offset => on cluster (λ s, klens_record_get s topic partition offset)
  | KlensRecordsRead cluster q => on cluster (λ s, klens_records_read s q)
  end.

(** ** The server *)

(** What rmcp makes of a routed call. *)
Inductive RouteAnswer : Type :=
  | Replied (result : CallToolResult)
  | InvalidParams (message : string)
  | RouteFailed (message : string)
  | Panicked.

(** What the client is sent: a result, or an error of the protocol. *)
Inductive Response : Type := Responded (result : CallToolResult) | ProtocolError (message : string).

Context {KT : KrafkaTexts}.

(** [KlensMcp::settle]. *)
Definition settle_call (answer : RouteAnswer) : Response :=
  match answer with
  | InvalidParams message => Responded (refused_call random (unprocessable message))
  | Replied result => Responded result
  | RouteFailed message => ProtocolError message
  | Panicked => ProtocolError "the tool failed"
  end.

(** A tool's [ToolResult], as rmcp sends it. *)
Definition replied (r : result ApiError (option CallToolResult)) : RouteAnswer :=
  match r with
  | Ok (Some result) => Replied result
  | Ok None => Panicked
  | Err error => Replied (refused_call random error)
  end.

(** [KlensMcp::run], with a permit to run or none, of a call whose arguments were read. A call its
    client cancels first is dropped with whatever it did so far, and has no reply. *)
Definition run (admitted : bool) (v : Visitor) (call : ToolRead) (permit : bool) : Effects * Response :=
  if admitted then
    let '(effects, r) := tool_read v call permit in
    (effects, settle_call (replied r))
  else (no_effects, Responded (refused_call random RateLimited)).

(** [ToolGate::annotations]: what a tool's listing says it does. *)
Record ToolAnnotations : Set := { ta_read_only : bool; ta_destructive : bool; ta_idempotent : bool; ta_open_world : bool }.

Definition gate_annotations (gate : ToolGate) : ToolAnnotations :=
  {| ta_read_only := negb (gate_changes gate); ta_destructive := false; ta_idempotent := tg_idempotent gate;
     ta_open_world := false |}.

(** [list_tools]: the tools a caller is told of. *)
Definition list_tools (v : Visitor) : list string :=
  tg_name <$> List.filter (λ gate,
    gate_offered_to gate ((λ s, (sn_access s, sr_writable (sn_served s))) <$> visited v)) gates.
End tools.

(** ** Helper lemmas *)

Section actions.
Lemma act_bind_ext {A B} (f f' : A → Act B) (m m' : Act A) permit :
  m permit = m' permit → (∀ x, m permit = m' permit → f x permit = f' x permit) →
  act_bind f m permit = act_bind f' m' permit.
Proof.
  intros Hm Hf. unfold act_bind. rewrite Hm. destruct (m' permit) as [e [x|error]]; [|done]. by rewrite Hf.
Qed.

(** A step that goes through first makes what follows it be looked at only there. *)
Lemma act_bind_lift_ext {A B} (f f' : A → Act B) (r r' : result ApiError A) permit :
  r = r' → (∀ x, r' = Ok x → f x permit = f' x permit) →
  act_bind f (act_lift r) permit = act_bind f' (act_lift r') permit.
Proof. intros -> Hf. unfold act_bind, act_lift. destruct r' as [x|]; [|done]. by rewrite Hf. Qed.

Lemma act_bind_map {A B C} (g : A → B) (f : B → Act C) (r : result ApiError A) permit :
  act_bind f (act_lift (g <$> r)) permit = act_bind (λ x, f (g x)) (act_lift r) permit.
Proof. by destruct r. Qed.

(** A step whose result is that of another through [g]. *)
Lemma act_bind_through {A B C} (g : A → B) (f : A → Act C) (f' : B → Act C) (m : Act A) (m' : Act B) permit :
  m' permit = ((m permit).1, g <$> (m permit).2) → (∀ x, f' (g x) permit = f x permit) →
  act_bind f' m' permit = act_bind f m permit.
Proof. intros Hm Hf. unfold act_bind. rewrite Hm. destruct (m permit) as [e [x|]]; [|done]. simpl. by rewrite Hf. Qed.

(** Without a permit, nothing after the limiter is looked at. *)
Lemma live_call_refused {A} (f f' : () → Act A) : act_bind f live_call false = act_bind f' live_call false.
Proof. done. Qed.
End actions.

(** *** Without what a caller may not read *)

Section public.
Context {PL : PayloadLib} {RL : RedactLib} {FL : FilterLib} {TL : TimestampLib} {AL : ApiTimeLib} {FZ : FrizbeeLib}.
Context {VJ : ValueJson} {REL : ResultLib}.
Context (to_lowercase : string → string) (random : N).
Implicit Types (v : Visitor) (s : Seen).

Lemma seen_topology_public s : seen_topology (public_seen s) = seen_topology s.
Proof. unfold seen_topology, snapshot. by rewrite (ag_topology _ _ (seen_agree s)). Qed.

Lemma load_public {T} `{!LaneField T} s : lane_of (seen_store (public_seen s)) = lane_of (seen_store s) →
  load (T := T) (seen_store (public_seen s)) = load (seen_store s).
Proof. unfold load. by intros ->. Qed.

Lemma subjects_snapshot_public s :
  snapshot (public_seen s) "subjects" (cs_subjects (seen_store (public_seen s))) =
  snapshot s "subjects" (cs_subjects (seen_store s)).
Proof. by rewrite (ag_subjects _ _ (seen_agree s)). Qed.

Lemma rates_public s : cs_rates (seen_store (public_seen s)) = cs_rates (seen_store s).
Proof. apply (ag_rates _ _ (seen_agree s)). Qed.

Lemma watermarks_public s : load (T := WatermarkTable) (seen_store (public_seen s)) = load (seen_store s).
Proof. apply load_public, (ag_watermarks _ _ (seen_agree s)). Qed.

Lemma log_dirs_public s : load (T := LogDirTable) (seen_store (public_seen s)) = load (seen_store s).
Proof. apply load_public, (ag_log_dirs _ _ (seen_agree s)). Qed.

Lemma subjects_public s : load (T := SubjectTable) (seen_store (public_seen s)) = load (seen_store s).
Proof. apply load_public, (ag_subjects _ _ (seen_agree s)). Qed.

Lemma topology_public s : load (T := Topology) (seen_store (public_seen s)) = load (seen_store s).
Proof. apply load_public, (ag_topology _ _ (seen_agree s)). Qed.

Lemma capability_allows access p c : capability p access = Ok c → allows access p = true.
Proof. unfold capability, check. by destruct (allows _ _). Qed.

Lemma live_reads_public s :
  (allows (sn_access s) PSchemaText = true →
   sr_subject_schema (sn_served (public_seen s)) = sr_subject_schema (sn_served s)) ∧
  (allows (sn_access s) PRecords = true →
   sr_read (sn_served (public_seen s)) = sr_read (sn_served s) ∧
   sr_record (sn_served (public_seen s)) = sr_record (sn_served s)).
Proof. unfold public_seen, public_served. cbn. split; by intros ->. Qed.

(** A tool on one cluster. *)
Lemma on_visit_public {A} v name (f : Seen → Act A) permit :
  (∀ s, f (public_seen s) permit = f s permit) →
  act_bind f (act_lift (visit (public_visitor v) name)) permit = act_bind f (act_lift (visit v name)) permit.
Proof. intros Hf. rewrite visit_public, act_bind_map. by apply act_bind_lift_ext. Qed.

Lemma on_cluster_public {A} v name (f : Seen → Act A) permit :
  (∀ s, f (public_seen s) permit = f s permit) →
  act_bind f (act_lift (cluster_or_only (public_visitor v) name)) permit =
  act_bind f (act_lift (cluster_or_only v name)) permit.
Proof. intros Hf. rewrite cluster_or_only_public, act_bind_map. by apply act_bind_lift_ext. Qed.

(** A tool that asks for a capability first. *)
Lemma on_granted_public {A} s p (f f' : Cap p → Act A) permit :
  (allows (sn_access s) p = true → ∀ c, f c permit = f' c permit) →
  act_bind f (act_lift (granted (public_seen s) p)) permit = act_bind f' (act_lift (granted s p)) permit.
Proof. intros Hf. apply act_bind_lift_ext; [done|]. intros c Hc. apply Hf. by eapply granted_allows. Qed.

Lemma clusters_public v cluster permit :
  klens_clusters random (public_visitor v) cluster permit = klens_clusters random v cluster permit.
Proof.
  destruct cluster as [name|]; unfold klens_clusters; cbv zeta.
  - apply on_visit_public. intros s. apply act_bind_lift_ext; [apply seen_topology_public|]. intros topology _.
    by rewrite (health_agree _ _ (seen_agree s)).
  - rewrite visited_public, <- list_fmap_compose.
    replace (((λ s, ClusterRow_new (store_health (seen_store s)) (Boundary_new random)) ∘ public_seen) <$> visited v)
      with ((λ s, ClusterRow_new (store_health (seen_store s)) (Boundary_new random)) <$> visited v); [done|].
    apply list_fmap_ext. intros i s _. unfold compose. by rewrite (health_agree _ _ (seen_agree s)).
Qed.

Lemma rights_public s : ClusterRights_of (public_seen s) = ClusterRights_of s.
Proof. done. Qed.

Lemma access_explain_public v cluster permit :
  klens_access_explain (public_visitor v) cluster permit = klens_access_explain v cluster permit.
Proof.
  apply act_bind_ext; [|done]. destruct cluster as [name|]; [by apply on_visit_public|].
  by rewrite visited_public, <- list_fmap_compose.
Qed.

Lemma find_all_public b query clusters : find_all b query (public_seen <$> clusters) = find_all b query clusters.
Proof.
  induction clusters as [|s clusters IH]; [done|]. cbn [fmap list_fmap find_all]. fold (public_seen <$> clusters).
  rewrite IH. unfold UnreadLane_of.
  by rewrite (ag_topology _ _ (seen_agree s)), (ag_subjects _ _ (seen_agree s)), topology_public, subjects_public.
Qed.

Lemma search_public v query cluster permit :
  klens_search random (public_visitor v) query cluster permit = klens_search random v query cluster permit.
Proof.
  apply act_bind_lift_ext; [done|]. intros _ _.
  assert (∀ cs, SearchResult_find random (public_seen <$> cs) query = SearchResult_find random cs query) as Hfind
    by (intros cs; unfold SearchResult_find; by rewrite find_all_public).
  apply (act_bind_through (fmap public_seen)); [|intros cs; unfold fitted; by rewrite Hfind].
  destruct cluster as [name|].
  - rewrite visit_public. unfold act_bind, act_lift, act_ret. destruct (visit v name) as [s|]; [|done].
    unfold fmap, result_fmap, act_lift at 1 2. rewrite seen_topology_public. by destruct (seen_topology s).
  - by rewrite visited_public.
Qed.

Lemma topics_list_public s q permit :
  klens_topics_list to_lowercase (public_seen s) q permit = klens_topics_list to_lowercase s q permit.
Proof.
  apply act_bind_lift_ext; [apply seen_topology_public|]. intros topology _. unfold matching, listed_topic.
  by rewrite (topic_rows_agree _ _ (seen_agree s)), watermarks_public, rates_public.
Qed.

Lemma topic_describe_public s topic permit :
  klens_topic_describe random (public_seen s) topic permit = klens_topic_describe random s topic permit.
Proof.
  apply act_bind_lift_ext; [apply seen_topology_public|]. intros _ _.
  apply act_bind_lift_ext; [by rewrite (topic_detail_agree _ _ (seen_agree s))|]. intros detail _.
  apply act_bind_lift_ext; [|done]. f_equal.
  unfold TopicDescription_read, described_partitions, described_groups, described_subjects.
  rewrite watermarks_public, rates_public, (topic_groups_agree _ _ (seen_agree s)), subjects_public.
  replace (described_configs (public_seen s) (td_name detail) (Boundary_new random))
    with (described_configs s (td_name detail) (Boundary_new random)); [done|].
  unfold described_configs. change (sn_access (public_seen s)) with (sn_access s).
  destruct (capability _ _) as [c|] eqn:Hc; [|done].
  by rewrite (topic_configs_public _ _ (capability_allows _ _ _ Hc)), (ag_configs _ _ (seen_agree s)).
Qed.

Lemma brokers_list_public s q permit :
  klens_brokers_list (public_seen s) q permit = klens_brokers_list s q permit.
Proof.
  apply act_bind_lift_ext; [apply seen_topology_public|]. intros topology _.
  assert (read_brokers (seen_store (public_seen s)) topology = read_brokers (seen_store s) topology) as ->.
  { unfold read_brokers. by rewrite (broker_rows_agree _ _ (seen_agree s)), log_dirs_public. }
  destruct (bq_broker q) as [id|]; [|done]. destruct (_ || _); [done|].
  apply act_bind_lift_ext; [done|]. intros broker _. apply act_bind_ext; [|done].
  change (sn_access (public_seen s)) with (sn_access s).
  destruct (capability _ _) as [c|] eqn:Hc; [|done]. apply act_bind_ext; [done|]. intros _ _.
  by rewrite (served_broker_configs_public _ _ (capability_allows _ _ _ Hc)).
Qed.

Lemma acls_list_public s q permit :
  klens_acls_list to_lowercase (public_seen s) q permit = klens_acls_list to_lowercase s q permit.
Proof.
  apply on_granted_public. intros Ha _. apply act_bind_lift_ext; [|done]. unfold snapshot.
  pose proof (acls_public s Ha) as Hl. unfold load in Hl. cbn [lane_of acls_field] in Hl.
  by rewrite Hl, (ag_acls _ _ (seen_agree s)).
Qed.

Lemma schema_get_public s subject version permit :
  klens_schema_get random (public_seen s) subject version permit = klens_schema_get random s subject version permit.
Proof.
  apply on_granted_public. intros Ha _. apply act_bind_lift_ext; [done|]. intros _ _. apply act_bind_ext.
  - destruct version as [version|]; [done|].
    apply act_bind_lift_ext; [apply subjects_snapshot_public|]. intros _ _. by rewrite latest_version_public.
  - intros version' _. apply act_bind_ext; [done|]. intros _ _. by rewrite (proj1 (live_reads_public s) Ha).
Qed.

Lemma schemas_list_public s q permit :
  klens_schemas_list to_lowercase (public_seen s) q permit = klens_schemas_list to_lowercase s q permit.
Proof.
  apply act_bind_lift_ext; [done|]. intros _ _. apply act_bind_lift_ext; [apply subjects_snapshot_public|].
  intros _ _. by rewrite (subject_rows_agree _ _ (seen_agree s)).
Qed.

Lemma groups_list_public s q permit :
  klens_groups_list to_lowercase (public_seen s) q permit = klens_groups_list to_lowercase s q permit.
Proof.
  apply act_bind_lift_ext; [apply seen_topology_public|]. intros _ _.
  by rewrite (group_rows_agree _ _ (seen_agree s)).
Qed.

Lemma group_describe_public s id now permit :
  klens_group_describe (public_seen s) id now permit = klens_group_describe s id now permit.
Proof.
  apply act_bind_lift_ext; [apply seen_topology_public|]. intros topology _. apply act_bind_ext; [done|]. intros _ _.
  pose proof (group_detail_agree _ _ (seen_agree s) id now) as [Hi Hd].
  destruct (store_group_detail (seen_store (public_seen s)) id now), (store_group_detail (seen_store s) id now).
  cbn [fst snd] in Hi, Hd. by rewrite Hi, Hd.
Qed.

Lemma record_get_public s topic partition offset permit :
  klens_record_get random (public_seen s) topic partition offset permit =
  klens_record_get random s topic partition offset permit.
Proof.
  apply on_granted_public. intros Ha _. destruct ((_ <? _)%Z || _); [done|]. apply act_bind_ext; [done|].
  intros _ _. by rewrite (proj2 (proj2 (live_reads_public s) Ha)).
Qed.

Lemma records_read_public s q permit :
  klens_records_read random (public_seen s) q permit = klens_records_read random s q permit.
Proof.
  apply on_granted_public. intros Ha _. apply act_bind_lift_ext; [done|]. intros query _.
  apply act_bind_ext; [done|]. intros _ _. by rewrite (proj1 (proj2 (live_reads_public s) Ha)).
Qed.

Lemma tool_read_public v call permit :
  tool_read to_lowercase random (public_visitor v) call permit = tool_read to_lowercase random v call permit.
Proof.
  destruct call; unfold tool_read; cbv zeta;
    [apply clusters_public|apply access_explain_public|apply search_public|..];
    apply on_cluster_public; intros s;
    auto using topics_list_public, topic_describe_public, brokers_list_public, acls_list_public, schema_get_public,
      schemas_list_public, groups_list_public, group_describe_public, record_get_public, records_read_public.
Qed.
End public.

(** *** Without a permit for a live call *)

Section limited.
Context {PL : PayloadLib} {RL : RedactLib} {FL : FilterLib} {TL : TimestampLib} {AL : ApiTimeLib} {FZ : FrizbeeLib}.
Context {VJ : ValueJson} {REL : ResultLib}.
Context (to_lowercase : string → string) (random : N).
Implicit Types (v : Visitor) (s : Seen).

(** A cluster that neither Kafka nor a registry answers for. *)
Definition unplugged (c : Served) : Served :=
  {| sr_cluster := sr_cluster c; sr_writable := sr_writable c; sr_store := sr_store c;
     sr_has_registry := sr_has_registry c; sr_broker_configs _ := Err Timeout_; sr_subject_schema _ _ := Err Timeout_;
     sr_read _ := Err Timeout_; sr_record _ := Err Timeout_ |}.

Definition unplugged_visitor (v : Visitor) : Visitor :=
  {| vi_access := vi_access v; vi_clusters := unplugged <$> vi_clusters v |}.

Definition unplugged_seen (s : Seen) : Seen := {| sn_access := sn_access s; sn_served := unplugged (sn_served s) |}.

Lemma visit_unplugged v name : visit (unplugged_visitor v) name = unplugged_seen <$> visit v name.
Proof.
  unfold visit. cbn [vi_access unplugged_visitor]. destruct (access_cluster (vi_access v) name) as [a|e]; [|done].
  cbn [map_err mbind result_bind].
  assert (List.find (λ c, String.eqb (sr_cluster c) (ca_cluster a)) (vi_clusters (unplugged_visitor v)) =
    unplugged <$> List.find (λ c, String.eqb (sr_cluster c) (ca_cluster a)) (vi_clusters v)) as ->.
  { cbn [vi_clusters unplugged_visitor]. induction (vi_clusters v) as [|c l IH]; [done|]. csimpl.
    by destruct (String.eqb (sr_cluster c) (ca_cluster a)). }
  by destruct (List.find _ _).
Qed.

Lemma visited_unplugged v : visited (unplugged_visitor v) = unplugged_seen <$> visited v.
Proof.
  unfold visited at 2. change (visited (unplugged_visitor v)) with
    (omap (λ c, result_ok (visit (unplugged_visitor v) (sr_cluster c))) (vi_clusters (unplugged_visitor v))).
  cbn [vi_clusters unplugged_visitor]. generalize (vi_clusters v) as l. intros l.
  induction l as [|c l IH]; [done|]. csimpl. rewrite visit_unplugged, IH. by destruct (visit v (sr_cluster c)).
Qed.

Lemma cluster_or_only_unplugged v name :
  cluster_or_only (unplugged_visitor v) name = unplugged_seen <$> cluster_or_only v name.
Proof.
  destruct name as [name|]; [apply visit_unplugged|]. unfold cluster_or_only. rewrite visited_unplugged.
  destruct (visited v) as [|s [|s' l]]; [done|done|]. csimpl. by rewrite <- list_fmap_compose.
Qed.

(** A refused [m], which does what [m'] does; a permit changes only what asks for it. *)
Record limited {A} (m m' : Act A) : Prop := {
  li_same : m' false = m false;
  li_touched : ef_touched (m false).1 = None;
  li_refused : ef_asked (m false).1 = true → (m false).2 = Err TooManyLiveCalls;
  li_silent : ef_asked (m false).1 = false → m true = m false;
}.

Lemma limited_lift {A} (r : result ApiError A) : limited (act_lift r) (act_lift r).
Proof. by split. Qed.

Lemma limited_ret {A} (x : A) : limited (act_ret x) (act_ret x).
Proof. apply limited_lift. Qed.

Lemma limited_live {A} (f f' : () → Act A) : limited (act_bind f live_call) (act_bind f' live_call).
Proof. by split. Qed.

Lemma limited_bind {A B} (f f' : A → Act B) m m' :
  limited m m' → (∀ x, limited (f x) (f' x)) → limited (act_bind f m) (act_bind f' m').
Proof.
  intros [Hs Ht Hr Hl] Hf. unfold act_bind.
  destruct (m false) as [e [x|error]] eqn:Em; cbn [fst snd] in Hs, Ht, Hr, Hl.
  - destruct (ef_asked e) eqn:Ea; [by specialize (Hr eq_refl)|]. specialize (Hl eq_refl).
    destruct (Hf x) as [Hs' Ht' Hr' Hl'].
    destruct (f x false) as [e' r'] eqn:Ef. cbn [fst snd] in Hs', Ht', Hr', Hl'.
    split; rewrite ?Hs, ?Em, ?Hl, ?Ef, ?Hs'; cbn [fst snd ef_asked ef_touched then_effects]; rewrite ?Ea;
      [done|by rewrite Ht'|exact Hr'|].
    intros Hn. by rewrite (Hl' Hn).
  - split; rewrite ?Hs, ?Em; cbn [fst snd]; [done|done| |].
    + intros Hn. specialize (Hr Hn) as [= ->]. done.
    + intros Hn. by rewrite (Hl Hn).
Qed.

Lemma limited_map {A B C} (g : A → B) (f : B → Act C) (f' : A → Act C) (r : result ApiError A) :
  (∀ x, limited (f' x) (f (g x))) → limited (act_bind f' (act_lift r)) (act_bind f (act_lift (g <$> r))).
Proof. destruct r as [x|]; [|by split]. intros Hf. apply (limited_bind f' (λ x, f (g x)) (act_lift (Ok x)) (act_lift (Ok x)));
  [apply limited_lift|done]. Qed.

Lemma limited_through {A B C} (g : A → B) (f : A → Act C) (f' : B → Act C) m m' :
  limited m m → m' false = ((m false).1, g <$> (m false).2) → (∀ x, limited (f x) (f' (g x))) →
  limited (act_bind f m) (act_bind f' m').
Proof.
  intros Hm Hg Hf. destruct (limited_bind f (λ x, f' (g x)) m m Hm Hf) as [Hs Ht Hr Hl]. split; try done.
  by rewrite <- Hs, (act_bind_through g (λ x, f' (g x)) f' m m').
Qed.

#[local] Ltac each_step :=
  repeat first [ apply limited_lift | apply limited_ret | apply limited_live
               | apply limited_bind; [|intros ?] | case_match ].

Lemma tool_read_limited v call :
  limited (tool_read to_lowercase random v call) (tool_read to_lowercase random (unplugged_visitor v) call).
Proof.
  destruct call; unfold tool_read; cbv zeta.
  4-13: rewrite cluster_or_only_unplugged; apply limited_map; intros s;
    unfold klens_topics_list, klens_topic_describe, klens_brokers_list, klens_acls_list, klens_schema_get,
      klens_schemas_list, klens_groups_list, klens_group_describe, klens_record_get, klens_records_read, fitted,
      on_access, on_kafka; change (seen_store (unplugged_seen s)) with (seen_store s);
    change (sn_access (unplugged_seen s)) with (sn_access s); each_step.
  - unfold klens_clusters. destruct cluster as [name|].
    + rewrite visit_unplugged. apply limited_map. intros s. unfold fitted. each_step.
    + rewrite visited_unplugged, <- list_fmap_compose. apply limited_ret.
  - unfold klens_access_explain. destruct cluster as [name|].
    + rewrite visit_unplugged. apply limited_bind; [|intros; apply limited_ret]. apply limited_map. intros s. each_step.
    + rewrite visited_unplugged, <- list_fmap_compose. unfold fitted. each_step.
  - apply limited_bind; [apply limited_lift|]. intros _.
    assert (∀ b cs, find_all b query (unplugged_seen <$> cs) = find_all b query cs) as Hfind.
    { intros b cs. induction cs as [|s cs IH]; [done|]. cbn [fmap list_fmap find_all]. fold (unplugged_seen <$> cs).
      by rewrite IH. }
    assert (∀ cs, SearchResult_find random (unplugged_seen <$> cs) query = SearchResult_find random cs query) as Hall
      by (intros cs; unfold SearchResult_find; by rewrite Hfind).
    apply (limited_through (fmap unplugged_seen)); [| |intros cs; rewrite Hall; apply limited_ret].
    + destruct cluster; each_step.
    + destruct cluster as [name|]; [|by rewrite visited_unplugged].
      rewrite visit_unplugged. unfold act_bind, act_lift, act_ret, fmap, result_fmap.
      destruct (visit v name) as [s|]; [|done].
      change (seen_topology (unplugged_seen s)) with (seen_topology s). by destruct (seen_topology s).
Qed.
End limited.

(** *** Every call is answered *)

Section answered.
Context {PL : PayloadLib} {RL : RedactLib} {FL : FilterLib} {TL : TimestampLib} {AL : ApiTimeLib} {FZ : FrizbeeLib}.
Context {VJ : ValueJson} {REL : ResultLib}.
Context (to_lowercase : string → string) (random : N).

(** A call that goes through has a result. *)
Definition answers (m : Act (option CallToolResult)) : Prop := ∀ permit r, (m permit).2 = Ok r → is_Some r.

Lemma answers_bind {A} (f : A → Act (option CallToolResult)) m : (∀ x, answers (f x)) → answers (act_bind f m).
Proof.
  intros Hf permit r. unfold act_bind. destruct (m permit) as [e [x|]]; [|done].
  specialize (Hf x permit r). by destruct (f x permit).
Qed.

Lemma answers_err error : answers (act_lift (Err error)).
Proof. done. Qed.

Lemma answers_ret (r : option CallToolResult) : is_Some r → answers (act_ret r).
Proof. by intros Hr permit r' [= <-]. Qed.

Lemma answers_search {St} (showing : nat → St → CallToolResult * St) most s :
  answers (act_ret (fst <$> search showing most s)).
Proof. apply answers_ret. destruct (search_ends showing most s) as [? ->]. done. Qed.

Lemma answers_fitted {R} `{!Reply R} (reply : R) : answers (fitted reply).
Proof. apply answers_search. Qed.

#[local] Ltac each_answer :=
  repeat first [ apply answers_fitted | apply answers_search | apply answers_err
               | apply answers_bind; intros ? | case_match ].

Lemma tool_read_answers v call : answers (tool_read to_lowercase random v call).
Proof.
  destruct call; unfold tool_read; cbv zeta;
    unfold klens_clusters, klens_access_explain, klens_search, klens_topics_list, klens_topic_describe,
      klens_brokers_list, klens_acls_list, klens_schema_get, klens_schemas_list, klens_groups_list,
      klens_group_describe, klens_record_get, klens_records_read, schema_result, records_result; each_answer.
  - by apply answers_ret.
  - match goal with H : records_read_result _ _ _ = None |- _ => revert H end.
    unfold records_read_result, records_result.
    match goal with |- context [search ?f ?m ?s] => destruct (search_ends f m s) as [? ->] end. done.
Qed.
End answered.

(** ** Properties *)

Section properties.
Context {PL : PayloadLib} {RL : RedactLib} {FL : FilterLib} {TL : TimestampLib} {AL : ApiTimeLib} {FZ : FrizbeeLib}.
Context {VJ : ValueJson} {REL : ResultLib} {KT : KrafkaTexts}.
Context (to_lowercase : string → string) (random : N).

(** C10 (safety): neither the tools a caller is told of nor what a call of one of the 13 tools that
    read answers, nor its effects, depend on a cluster outside the caller's scope, or on what its privileges do not let it read of one
    in it. The three tools that change something ([McpWrites]) are not among them. *)
Theorem tools_public v admitted call permit :
  run to_lowercase random admitted (public_visitor v) call permit = run to_lowercase random admitted v call permit ∧
  list_tools (public_visitor v) = list_tools v.
Proof.
  split.
  - unfold run. by rewrite tool_read_public.
  - unfold list_tools. by rewrite visited_public, <- list_fmap_compose.
Qed.

(** C35 (safety): a call the limiter permits no live call reads nothing from Kafka or the schema registry, and
    makes klens read no group more often: it is refused where it asks the limiter, and a call that
    does not ask is answered the same with or without a permit. *)
Theorem tools_limited v call :
  let m := tool_read to_lowercase random v call in
  let e := (m false).1 in
  tool_read to_lowercase random (unplugged_visitor v) call false = m false ∧
  ef_touched e = None ∧
  (ef_asked e = true → (m false).2 = Err TooManyLiveCalls) ∧
  (ef_asked e = false →
     m true = m false ∧ tool_read to_lowercase random (unplugged_visitor v) call true = m true).
Proof.
  intros m e. destruct (tool_read_limited to_lowercase random v call) as [Hs Ht Hr Hl].
  do 3 (split; [done|]). intros Ha. split; [by apply Hl|].
  fold m in Hs, Hl. fold e in Hl.
  assert (unplugged_visitor (unplugged_visitor v) = unplugged_visitor v) as Hidem.
  { unfold unplugged_visitor. cbn. f_equal. rewrite <- list_fmap_compose. by apply list_fmap_ext. }
  pose proof (li_silent _ _ (tool_read_limited to_lowercase random (unplugged_visitor v) call)) as Hu.
  rewrite Hs in Hu. rewrite (Hu Ha). by rewrite (Hl Ha).
Qed.

(** (termination): every call is answered with a result: the reply of the tool, or the refusal of its
    error, and at once the refusal RATE_LIMITED when too many calls run. *)
Theorem tools_answer v admitted call permit :
  ∃ result,
    (run to_lowercase random admitted v call permit).2 = Responded result ∧
    if admitted then
      (tool_read to_lowercase random v call permit).2 = Ok (Some result) ∨
      (∃ error, (tool_read to_lowercase random v call permit).2 = Err error ∧ result = refused_call random error)
    else result = refused_call random RateLimited.
Proof.
  unfold run. destruct admitted; [|by eexists].
  pose proof (tool_read_answers to_lowercase random v call permit) as Ha.
  destruct (tool_read to_lowercase random v call permit) as [e [r|error]]; cbn [snd] in *.
  - destruct (Ha r eq_refl) as [result ->]. exists result. split; [done|by left].
  - eexists. split; [done|right; by eexists].
Qed.
End properties.
