(* ===== verification/McpWrites.v ===== *)
(** The MCP tools that change Kafka or the schema registry: klens_topic_create of
    [src/app/mcp/tools/topics.rs], klens_record_produce of [records.rs] and
    klens_schema_register of [schemas.rs], on the changes of [Handle]. *)

From S2P Require Import Prelude Text Utf8 Errors Payload Metadata Registry Tables Access Handle Untrusted Reply RecordApi Requests.

(** A change a tool makes, given whether the limiter permits a live call: whether it asked the
    limiter, what it told Kafka, its answer and when it ended. *)
Definition Change (A : Type) : Type := bool → nat → (bool * list Event) * result ApiError A * nat.

Definition ch_lift {A} (r : result ApiError A) : Change A := λ _ t, (false, [], r, t).
Definition ch_ret {A} (x : A) : Change A := ch_lift (Ok x).

Definition ch_op {A} (m : Op A) : Change A := λ _ t,
  let '(events, r, t) := m t in (false, events, map_err ApiKafka r, t).

Definition ch_bind {A B} (f : A → Change B) (m : Change A) : Change B := λ permit t,
  match m permit t with
  | (asked, events, Ok x, t) =>
      let '(asked', events', r, t) := f x permit t in (asked || asked', events ++ events', r, t)
  | (asked, events, Err error, t) => (asked, events, Err error, t)
  end.

#[local] Notation "'let!' x := m 'in' k" := (ch_bind (λ x, k) m) (at level 10, x pattern, k at level 200).

(** [KlensMcp::live_call]. *)
Definition ch_live : Change () := λ permit t,
  (true, [], if permit then Ok () else Err TooManyLiveCalls, t).

(** [Session::clusters], and [cluster_or_only] on the handles of changes. *)
Definition session_clusters (s : Session) : list ClusterHandle :=
  omap (λ c, result_ok (session_cluster s (cl_name c))) (se_clusters s).

Definition handle_or_only (s : Session) (name : option string) : result ApiError ClusterHandle :=
  match name with
  | Some name => session_cluster s name
  | None =>
      match session_clusters s with
      | [only] => Ok only
      | [] => Err (unprocessable "you can see no cluster")
      | seen => Err (unprocessable ("pass `cluster` as one of " +:+
                                    String.concat ", " ((λ h, ca_cluster (ch_access h)) <$> seen)))
      end
  end.

(** [ClusterHandle::create_topics], [register_schemas] and [produce]. *)
Definition write_granted (p : Privilege) (h : ClusterHandle) : Change (GrantedOn p) :=
  ch_lift (map_err ApiAccess (write_capability p h)).

Section tools.
Context {REL : ResultLib}.
(** As for [Requests]; and which clusters klens reads a registry for. *)
Context (char_debug : string → string)
  (base64_decode : string → option string) (encode_payload : Z → string → result KafkaError string)
  (has_registry : string → bool).

(** The partitions klens shows for the topic now, or those asked for. *)
Definition created_partitions (topic : NewTopic) (topology : option Topology) : option Z :=
  match topology ← topology; tp_topics topology !! nt_name topic with
  | Some info => Some (len (ti_partitions info))
  | None => nt_partitions topic
  end.

Definition klens_topic_create (s : Session) (cluster : option string) (request : NewTopic) : Change CallToolResult :=
  let! h := ch_lift (handle_or_only s cluster) in
  let! g := write_granted PCreateTopics h in
  let! topic := ch_lift (into_topic char_debug request) in
  let! _ := ch_live in
  let! _ := ch_op (create_topic g topic) in
  let! topology := ch_op (op_at (cl_topology (gr_cluster g))) in
  ch_ret (structured [("topic", JString (nt_name topic));
                      ("partitions", json_option json_Z (created_partitions topic topology))]).

Definition klens_schema_register (s : Session) (cluster : option string) (subject : string)
    (request : RegisterSchemaBody) : Change CallToolResult :=
  let! h := ch_lift (handle_or_only s cluster) in
  let! g := write_granted PRegisterSchemas h in
  let! _ := ch_lift (if has_registry (ca_cluster (ch_access h)) then Ok ()
                     else Err (ApiKafka (NoSchemaRegistry (ca_cluster (ch_access h))))) in
  let! _ := ch_live in
  let! version := ch_op (register_schema g (into_schema request subject)) in
  ch_ret (structured [("id", json_Z (rv_id version)); ("version", json_Z (rv_version version))]).

Definition klens_record_produce (s : Session) (cluster : option string) (topic : string) (partition : option Z)
    (key : option RecordPayload) (value : RecordPayload) (headers : list (string * string)) : Change CallToolResult :=
  let! h := ch_lift (handle_or_only s cluster) in
  let! g := write_granted PProduce h in
  let! _ := ch_op (writable_partition g topic partition) in
  let! _ := ch_live in
  let! record := ch_lift (into_record base64_decode encode_payload
    {| pr_partition := partition; pr_key := key; pr_value := Some value; pr_headers := headers |} topic) in
  let! produced := ch_op (produce g record) in
  ch_ret (structured [("partition", json_Z (pd_partition produced)); ("offset", json_Z (pd_offset produced))]).

Inductive ToolChange : Type :=
  | KlensTopicCreate (request : NewTopic)
  | KlensSchemaRegister (subject : string) (request : RegisterSchemaBody)
  | KlensRecordProduce (topic : string) (partition : option Z) (key : option RecordPayload) (value : RecordPayload)
      (headers : list (string * string)).

Definition tool_change (s : Session) (cluster : option string) (call : ToolChange) : Change CallToolResult :=
  match call with
  | KlensTopicCreate request => klens_topic_create s cluster request
  | KlensSchemaRegister subject request => klens_schema_register s cluster subject request
  | KlensRecordProduce topic partition key value headers =>
      klens_record_produce s cluster topic partition key value headers
  end.

(** ** Helper lemmas *)

(** What a tool may write on a cluster from [t] on: a lawful change, of a privilege MCP can be
    given and the caller holds there, where the cluster's switch allows changes. *)
Definition permitted (h : ClusterHandle) (t : nat) (w : Write) : Prop :=
  privilege_of w ∈ WRITES ∧ allows (ch_access h) (privilege_of w) = true ∧ cl_writable (ch_cluster h) = true ∧
  lawful w ∧ ∃ t0, (t ≤ t0)%nat ∧ guarded (ch_cluster h) t0 w.

(** What was written was [permitted], and was one change where the call went through. *)
Definition made {A} (h : ClusterHandle) (t : nat) (events : list Event) (r : result ApiError A) : Prop :=
  Forall (permitted h t) (writes events) ∧ match r with Ok _ => ∃ w, writes events = [w] | Err _ => True end.

(** As [made], and nothing was written before the limiter permitted it. *)
Definition kept {A} (h : ClusterHandle) (permit : bool) (t : nat)
    (answer : (bool * list Event) * result ApiError A * nat) : Prop :=
  let '(asked, events, r, _) := answer in
  made h t events r ∧ (writes events = [] ∨ asked = true ∧ permit = true).

Lemma kept_nothing {A} h permit t asked (error : ApiError) t' :
  kept h permit t (asked, [], Err error : result ApiError A, t').
Proof. split; [split; [constructor|done]|by left]. Qed.

Lemma kept_lift {A B} h permit t t1 (f : A → Change B) r :
  (∀ x, r = Ok x → kept h permit t (f x permit t1)) → kept h permit t (ch_bind f (ch_lift r) permit t1).
Proof.
  intros Hf. unfold ch_bind, ch_lift. destruct r as [x|]; [|apply kept_nothing]. specialize (Hf x eq_refl).
  by destruct (f x permit t1) as [[[a e] r] t'].
Qed.

Lemma kept_quiet {A B} h permit t t1 (f : A → Change B) m events r t2 :
  m permit t1 = (false, events, r, t2) → writes events = [] →
  (∀ x, kept h permit t (f x permit t2)) → kept h permit t (ch_bind f m permit t1).
Proof.
  intros Hm He Hf. unfold ch_bind. rewrite Hm. destruct r as [x|].
  - specialize (Hf x). destruct (f x permit t2) as [[[a e] r] t']. unfold kept, made, writes in *.
    by rewrite omap_app, He.
  - split; [split; [|done]|left; done]. by rewrite He.
Qed.

Lemma kept_live {B} h permit t t1 (f : () → Change B) :
  (let '(_, events, r, _) := f () true t1 in made h t events r) → kept h permit t (ch_bind f ch_live permit t1).
Proof.
  unfold ch_bind, ch_live. destruct permit; [|intros _; apply kept_nothing].
  destruct (f () true t1) as [[[a e] r] t']. intros Hm. split; [done|by right].
Qed.

Lemma write_capability_ok p h g : write_capability p h = Ok g →
  gr_cluster g = ch_cluster h ∧ cl_writable (ch_cluster h) = true ∧ allows (ch_access h) p = true.
Proof.
  unfold write_capability, writable, capability, check. destruct (cl_writable (ch_cluster h)); [|done].
  destruct (allows (ch_access h) p); [|done]. by intros [= <-].
Qed.

(** A change that is always written when it goes through. *)
Definition one_write (op : WriteOp) : Prop :=
  needs op ∈ WRITES ∧ ∀ t, read_times op t = (t, t, t) ∧
  ∀ c, match planned c t t t op with Ok None => False | Ok (Some w) => lawful w | Err _ => True end.

(** [m] writes and fails as [op] does. *)
Definition runs {A} (m : Op A) {op} (g : GrantedOn (needs op)) : Prop :=
  ∀ t, writes (m t).1.1 = writes (perform op g t).1.1 ∧ ∀ e, (m t).1.2 = Err e ↔ (perform op g t).1.2 = Err e.

Lemma runs_done {A} (m : Op A) op (g : GrantedOn (needs op)) : op_done m = perform op g → runs m g.
Proof.
  intros Hm t. rewrite <- Hm. unfold op_done, op_bind, op_ret. destruct (m t) as [[events [x|e]] t']; cbn [fst snd].
  - split; [by rewrite app_nil_r|]. by split.
  - split; [done|]. split; intros [=]; by subst.
Qed.

Lemma made_op {A B} h op (g : GrantedOn (needs op)) (m : Op A) (f : A → Change B) t t1 :
  write_capability (needs op) h = Ok g → one_write op → runs m g → (t ≤ t1)%nat →
  (∀ x t, ∃ asked y t', f x true t = (asked, [], Ok y, t')) →
  let '(_, events, r, _) := ch_bind f (ch_op m) true t1 in made h t events r.
Proof.
  intros (Hc & Hw & Ha)%write_capability_ok [Hn Hop] Hm Ht Hf. unfold ch_bind, ch_op. destruct (Hop t1) as [Hr Hp]. specialize (Hp (gr_cluster g)).
  destruct (Hm t1) as [He Hre]. destruct (perform op g t1) as [[events' r'] t'] eqn:Ep. apply perform_planned in Ep.
  rewrite Hr in Ep. destruct (m t1) as [[events r] t2]. cbn [fst snd] in He, Hre.
  enough (Forall (permitted h t) (writes events) ∧ (∀ x, r = Ok x → ∃ w, writes events = [w])) as [Hall Hone].
  { destruct r as [x|e]; cbn [map_err]; [|done]. destruct (Hf x t2) as (asked & y & t'' & ->).
    rewrite app_nil_r. split; [done|by eapply Hone]. }
  unfold did in Ep. rewrite He. destruct (planned (gr_cluster g) t1 t1 t1 op) as [[w|]|e] eqn:Epl; [|done|].
  - pose proof (planned_guarded _ _ _ _ _ _ Epl) as [Hpw Hg]. destruct Ep as [-> Hr']. split; [|by eexists].
    constructor; [|constructor]. unfold permitted. rewrite Hpw, <- Hc. split; [done|]. split; [done|].
    split; [by rewrite Hc|]. split; [done|]. exists t1. by destruct Hg.
  - destruct Ep as [-> ->]. split; [constructor|]. intros x ->. by pose proof (proj2 (Hre e) eq_refl).
Qed.

Lemma one_write_create topic : lawful (WCreateTopic topic) → one_write (CreateTopic topic).
Proof. intros Hl. split; [by apply (bool_decide_unpack _)|done]. Qed.

Lemma one_write_register schema : one_write (RegisterSchema schema).
Proof. split; [by apply (bool_decide_unpack _)|done]. Qed.

Lemma one_write_produce record : one_write (Produce record).
Proof.
  split; [by apply (bool_decide_unpack _)|]. intros t. split; [done|]. intros c. cbn [planned].
  by destruct (partitions_at c t _ _).
Qed.

Lemma writable_partition_quiet (g : GrantedOn PProduce) topic partition t :
  ∃ r, writable_partition g topic partition t = ([], r, S t).
Proof.
  unfold writable_partition, op_bind. rewrite writable_topic_run. destruct (_ <$> _) as [known|]; [|by eexists].
  unfold check_partitions. destruct (stray_partition _ _); by eexists.
Qed.

(** C11 (safety): an MCP tool that changes Kafka or the registry writes nothing before the limiter permits
    it, and then at most one change: of a privilege MCP may be given, which the caller holds on
    the one cluster it works on, whose switch allows changes, lawful, and guarded by what klens
    has seen of that cluster. A call that goes through wrote exactly one. *)
Theorem tool_changes_kept s cluster call permit t :
  match handle_or_only s cluster with
  | Ok h => kept h permit t (tool_change s cluster call permit t)
  | Err error => tool_change s cluster call permit t = (false, [], Err error, t)
  end.
Proof.
  destruct (handle_or_only s cluster) as [h|error] eqn:Eh;
    [|by destruct call; cbn [tool_change]; unfold klens_topic_create, klens_schema_register, klens_record_produce;
      rewrite Eh].
  destruct call as [request|subject request|topic partition key value headers]; cbn [tool_change];
    unfold klens_topic_create, klens_schema_register, klens_record_produce;
    rewrite Eh; apply kept_lift; intros h' [= <-];
    apply kept_lift; intros g Hg; destruct (write_capability _ h) as [g'|] eqn:Eg; try done; injection Hg as <-.
  - apply kept_lift. intros topic Ht. apply kept_live. apply (made_op h (CreateTopic topic) g'); [done| |done|done|].
    + by eapply one_write_create, into_topic_ok.
    + intros x t1. by eexists _, _, _.
  - apply kept_lift. intros _ _. apply kept_live.
    apply (made_op h (RegisterSchema (into_schema request subject)) g'); [done|apply one_write_register|by apply runs_done|done|].
    intros x t1. by eexists _, _, _.
  - destruct (writable_partition_quiet g' topic partition t) as [r Hr].
    eapply kept_quiet; [unfold ch_op; by rewrite Hr|done|]. intros _. apply kept_live.
    unfold ch_bind at 1, ch_lift. destruct (into_record _ _ _ _) as [record|]; [|by split; [constructor|]].
    assert (let '(_, events, r, _) := ch_bind (λ produced, ch_ret (structured
      [("partition", json_Z (pd_partition produced)); ("offset", json_Z (pd_offset produced))]))
      (ch_op (produce g' record)) true (S t) in made h t events r) as Hm.
    { apply (made_op h (Produce record) g'); [done|apply one_write_produce|by apply runs_done|lia|]. intros x t1. by eexists _, _, _. }
    by destruct (ch_bind _ _ true (S t)) as [[[a e] r'] t'].
Qed.

End tools.
