(* ===== verification/Hosts.v ===== *)
(** The hosts klens answers while [auth] is off: [AllowedHost] of [src/config/hosts.rs] and the check
    of [src/server/hosts.rs], with the addresses of [std::net] it reads. The [url] crate, which
    reads a host as a browser does, and the [http] crate, which reads an authority, are
    parameters. *)

From Stdlib Require Import ZArith Lia Ascii DecimalString.
From S2P Require Import Prelude Text.

(** ** Addresses, as [std::net] reads and shows them *)

Inductive IpAddr : Set := V4 (octets : list Z) | V6 (segments : list Z).

#[export] Instance IpAddr_eq_dec : EqDecision IpAddr.
Proof. solve_decision. Defined.

(** A socket address; an IPv4 one has no scope. *)
Record SocketAddr : Set := { sa_ip : IpAddr; sa_port : Z; sa_scope : Z }.

#[export] Instance SocketAddr_eq_dec : EqDecision SocketAddr.
Proof. solve_decision. Defined.

(** A decimal byte without a leading zero. *)
Definition parse_octet (s : string) : option Z :=
  match s with
  | String "0" (String _ _) => None
  | _ => if (String.length s <=? 3)%nat then n ← parse_digits s; in_range 0 255 n else None
  end.

Definition parse_ipv4 (s : string) : option (list Z) :=
  match split dot s with
  | [a; b; c; d] => mapM parse_octet [a; b; c; d]
  | _ => None
  end.

(** A digit of base 16, in either case. *)
Definition hex_value (c : ascii) : option Z :=
  let n := Z.of_N (N_of_ascii c) in
  if is_digit c then Some (n - 48)%Z
  else if ((97 <=? n) && (n <=? 102))%Z then Some (n - 87)%Z
  else if ((65 <=? n) && (n <=? 70))%Z then Some (n - 55)%Z
  else None.

Fixpoint parse_hex (acc : Z) (s : string) : option Z :=
  match s with
  | EmptyString => Some acc
  | String c r => d ← hex_value c; parse_hex (16 * acc + d) r
  end.

(** One to four digits. *)
Definition parse_group (s : string) : option Z :=
  if ((1 <=? String.length s) && (String.length s <=? 4))%nat then parse_hex 0 s else None.

(** The groups between colons, of which the last may be an IPv4 address. *)
Fixpoint parse_groups (parts : list string) : option (list Z) :=
  match parts with
  | [] => Some []
  | [part] =>
      match parse_ipv4 part with
      | Some [a; b; c; d] => Some [(256 * a + b)%Z; (256 * c + d)%Z]
      | _ => (λ g, [g]) <$> parse_group part
      end
  | part :: parts => g ← parse_group part; groups ← parse_groups parts; Some (g :: groups)
  end.

(** What is before the first double colon, and after it. *)
Fixpoint split_zeros (s : string) : option (string * string) :=
  match s with
  | EmptyString => None
  | String a r =>
      match r with
      | String b r' =>
          if Ascii.eqb a colon && Ascii.eqb b colon then Some (EmptyString, r')
          else (λ halves, (String a halves.1, halves.2)) <$> split_zeros r
      | EmptyString => None
      end
  end.

Definition parse_ipv6 (s : string) : option (list Z) :=
  match split_zeros s with
  | None => groups ← parse_groups (split colon s); if (length groups =? 8)%nat then Some groups else None
  | Some (front, back) =>
      head ← (if is_empty front then Some [] else mapM parse_group (split colon front));
      tail ← (if is_empty back then Some [] else parse_groups (split colon back));
      let known := (length head + length tail)%nat in
      if (known <=? 7)%nat then Some (head ++ replicate (8 - known) 0%Z ++ tail) else None
  end.

Definition print_ipv4 (octets : list Z) : string := String.concat "." (print_Z <$> octets).

(** The last digit of a number in base 16. *)
Definition hex_char (n : Z) : string :=
  let d := (n mod 16)%Z in String (ascii_of_N (Z.to_N (if (d <? 10)%Z then 48 + d else 87 + d)%Z)) EmptyString.

(** A 16-bit number in base 16, without leading zeros. *)
Fixpoint print_hex (fuel : nat) (n : Z) : string :=
  match fuel with
  | O => EmptyString
  | S fuel => if (n <? 16)%Z then hex_char n else print_hex fuel (n / 16) +:+ hex_char n
  end.

Definition print_groups (groups : list Z) : string := String.concat ":" (print_hex 4 <$> groups).

(** The longest run of zeros, the first of those, by its start and length. *)
Definition zero_step (spans : (nat * nat) * (nat * nat)) (entry : nat * Z) : (nat * nat) * (nat * nat) :=
  let '(longest, current) := spans in
  if bool_decide (entry.2 = 0%Z) then
    let current := if (current.2 =? 0)%nat then (entry.1, 1%nat) else (current.1, S current.2) in
    (if (longest.2 <? current.2)%nat then current else longest, current)
  else (longest, (0, 0)%nat).

Definition longest_zeros (segments : list Z) : nat * nat :=
  (foldl zero_step ((0, 0), (0, 0))%nat (imap pair segments)).1.

Definition is_mapped (segments : list Z) : bool := bool_decide (take 6 segments = [0; 0; 0; 0; 0; 65535]%Z).

Definition print_ipv6 (segments : list Z) : string :=
  if is_mapped segments then
    "::ffff:" +:+ print_ipv4 (drop 6 segments ≫= λ group, [(group / 256)%Z; (group mod 256)%Z])
  else
    let '(start, size) := longest_zeros segments in
    if (1 <? size)%nat
    then print_groups (take start segments) +:+ "::" +:+ print_groups (drop (start + size) segments)
    else print_groups segments.

(** [Display] of an address with its port. *)
Definition SocketAddr_text (a : SocketAddr) : string :=
  match sa_ip a with
  | V4 octets => print_ipv4 octets +:+ ":" +:+ print_Z (sa_port a)
  | V6 segments =>
      "[" +:+ print_ipv6 segments +:+ (if (sa_scope a =? 0)%Z then "" else "%" +:+ print_Z (sa_scope a)) +:+
      "]:" +:+ print_Z (sa_port a)
  end.

(** ** Allowed hosts *)

(** A host as the [url] crate reads it: how it shows it, and whether it is an IPv4 address. *)
Record UrlHost : Set := { uh_text : string; uh_is_v4 : bool }.

(** [Host::parse], or what its error says. *)
Class UrlLib : Type := { host_parse : string → result string UrlHost }.

(** An authority as the [http] crate reads it, an IPv6 host in its brackets. *)
Record Authority : Set := { at_host : string; at_port : option Z }.

Record AllowedHost : Set := { ah_host : string; ah_port : option Z }.

#[export] Instance AllowedHost_eq_dec : EqDecision AllowedHost.
Proof. solve_decision. Defined.

Definition loopback : list AllowedHost :=
  (λ host, {| ah_host := host; ah_port := None |}) <$> ["localhost"; "127.0.0.1"; "[::1]"].

Definition host_allows (h : AllowedHost) (a : Authority) : bool :=
  eq_ignore_ascii_case (at_host a) (ah_host h) &&
  match ah_port h with None => true | Some port => bool_decide (at_port a = Some port) end.

(** [str::parse] at [u16], which takes no minus sign. *)
Definition parse_u16 (s : string) : option Z :=
  match s with String "-" _ => None | _ => parse_signed 0 65535 s end.

(** [str::rsplit_once] at a colon. *)
Definition rsplit_colon (s : string) : option (string * string) :=
  match split_once colon (rev_string s) with
  | Some (back, front) => Some (rev_string front, rev_string back)
  | None => None
  end.

Definition ends_with_bracket (s : string) : bool := starts_with "]" (rev_string s).

Definition quoted_entry (entry : string) : string := "'" +:+ entry +:+ "'".

Section entries.
Context {UL : UrlLib}.

(** The host and the port an entry names. *)
Definition entry_parts (entry : string) : string * option string :=
  match rsplit_colon entry with
  | Some (host, port) => if ends_with_bracket entry then (entry, None) else (host, Some port)
  | None => (entry, None)
  end.

Definition entry_port (entry : string) (port : option string) : result string (option Z) :=
  match port with
  | None => Ok None
  | Some text => ok_or (Some <$> parse_u16 text) (quoted_entry entry +:+ " has an invalid port")
  end.

(** [AllowedHost::try_from]. *)
Definition AllowedHost_of (entry : string) : result string AllowedHost :=
  match parse_ipv6 entry with
  | Some address => Ok {| ah_host := "[" +:+ print_ipv6 address +:+ "]"; ah_port := None |}
  | None =>
      if contains_char "/" entry || contains_char "@" entry
      then Err (quoted_entry entry +:+ " must be a host and an optional port, with no scheme, path or user")
      else if contains_char "*" entry
      then Err (quoted_entry entry +:+ " has a wildcard, but each host must be listed in full")
      else
        let '(host, port) := entry_parts entry in
        if contains_char colon host && negb (starts_with "[" host)
        then Err (quoted_entry entry +:+ " needs brackets around its IPv6 address, like [::1]:8080")
        else
          port ← entry_port entry port;
          parsed ← map_err (λ error, quoted_entry entry +:+ ": " +:+ error) (host_parse host);
          if uh_is_v4 parsed && bool_decide (parse_ipv4 host = None)
          then Err (quoted_entry entry +:+ " must write its IPv4 address as four decimal numbers")
          else Ok {| ah_host := uh_text parsed; ah_port := port |}
  end.

(** [Display for AllowedHost]. *)
Definition AllowedHost_text (h : AllowedHost) : string :=
  match ah_port h with
  | Some port => ah_host h +:+ ":" +:+ print_Z port
  | None => ah_host h
  end.

(** [at_least_one], of the entries that were read. *)
Definition at_least_one (hosts : list AllowedHost) : result string (list AllowedHost) :=
  match hosts with [] => Err "must name at least one host" | hosts => Ok hosts end.
End entries.

(** ** The check of a request *)

(** [Authority::try_from], of the bytes of a [Host] header. *)
Class HttpLib : Type := { authority_of : string → option Authority }.

(** [AllowedHosts::call]: the host a request names, by its first [Host] header, or by its target when
    it has none. *)
Definition named_host {HL : HttpLib} (host : option string) (target : option Authority) : option Authority :=
  match host with Some host => authority_of host | None => target end.

(** [AllowedHosts::allows]. *)
Definition hosts_allow (allowed : list AllowedHost) (authority : option Authority) : bool :=
  match authority with
  | Some authority => existsb (λ host, host_allows host authority) allowed
  | None => false
  end.

(** ** Helper lemmas *)

(** What [Host::parse] promises of the host it shows. *)
Class UrlLaws `{!UrlLib} : Prop := {
  host_reads_back s h : host_parse s = Ok h → host_parse (uh_text h) = Ok h;
  host_no_path s h : host_parse s = Ok h →
    contains_char "/" (uh_text h) = false ∧ contains_char "@" (uh_text h) = false;
  host_brackets s h : host_parse s = Ok h →
    contains_char colon (uh_text h) = true → ∃ r, uh_text h = String "[" (r +:+ "]");
  host_ipv4 s h : host_parse s = Ok h → uh_is_v4 h = true → is_Some (parse_ipv4 (uh_text h));
  host_ipv6 s address : parse_ipv6 s = Some address → is_mapped address = false →
    host_parse ("[" +:+ print_ipv6 address +:+ "]") =
      Ok {| uh_text := "[" +:+ print_ipv6 address +:+ "]"; uh_is_v4 := false |};
}.

(** *** Addresses *)

Lemma split_zeros_cons a b r : split_zeros (String a (String b r)) =
  if Ascii.eqb a colon && Ascii.eqb b colon then Some (EmptyString, r)
  else (λ halves, (String a halves.1, halves.2)) <$> split_zeros (String b r).
Proof. done. Qed.

Lemma split_zeros_colon s front back : split_zeros s = Some (front, back) → contains_char colon s = true.
Proof.
  revert front back. induction s as [|a [|b r] IH]; intros front back; [done..|].
  rewrite split_zeros_cons. change (contains_char colon (String a (String b r)))
    with (Ascii.eqb a colon || contains_char colon (String b r)).
  destruct (Ascii.eqb a colon); [done|]. cbn [andb orb].
  destruct (split_zeros (String b r)) as [[f' b']|]; [|done]. intros _. by eapply IH.
Qed.

Lemma parse_groups_length parts groups : parse_groups parts = Some groups → (length groups <= S (length parts))%nat.
Proof.
  revert groups. induction parts as [|part [|part' parts] IH]; intros groups; [by intros [= <-]; cbn; lia| |].
  - cbn [parse_groups]. destruct (parse_group part); repeat case_match; cbn; intros Hg; simplify_eq; cbn; lia.
  - change (parse_groups (part :: part' :: parts)) with
      (g ← parse_group part; groups ← parse_groups (part' :: parts); Some (g :: groups)).
    destruct (parse_group part); [|done]. destruct (parse_groups (part' :: parts)) as [gs|] eqn:E; [|done].
    intros [= <-]. specialize (IH _ eq_refl). cbn in *. lia.
Qed.

(** A text without a colon, or with one and no two that touch, is no IPv6 address. *)
Lemma not_ipv6_plain a b : contains_char colon a = false → contains_char colon b = false →
  parse_ipv6 a = None ∧ parse_ipv6 (a +:+ String colon b) = None.
Proof.
  intros Ha Hb. split.
  - unfold parse_ipv6. destruct (split_zeros a) as [[f k]|] eqn:E;
      [by rewrite (split_zeros_colon _ _ _ E) in Ha|].
    rewrite (split_no_sep _ _ Ha). destruct (parse_groups [a]) as [gs|] eqn:E'; [|done].
    apply parse_groups_length in E'. cbn in *. destruct (Nat.eqb_spec (length gs) 8); [lia|done].
  - unfold parse_ipv6. destruct (split_zeros (a +:+ String colon b)) as [[f k]|] eqn:E.
    + exfalso. revert f k E. induction a as [|c a IH]; intros f k.
      * cbn [String.append]. destruct b as [|b0 b]; [done|]. rewrite split_zeros_cons.
        pose proof Hb as Hb0. cbn [contains_char] in Hb0. apply orb_false_iff in Hb0 as [Hb0 _].
        rewrite Hb0, andb_false_r. destruct (split_zeros (String b0 b)) as [[f' k']|] eqn:E; [|done].
        apply split_zeros_colon in E. by rewrite E in Hb.
      * cbn [contains_char] in Ha. apply orb_false_iff in Ha as [Hc Ha]. cbn [String.append].
        destruct (a +:+ String colon b) as [|d r] eqn:E; [by destruct a|]. rewrite split_zeros_cons, Hc. cbn [andb].
        destruct (split_zeros (String d r)) as [[f' k']|] eqn:E'; [|done].
        intros _. by eapply IH.
    + rewrite (split_app _ _ _ Ha), (split_no_sep _ _ Hb).
      destruct (parse_groups [a; b]) as [gs|] eqn:E'; [|done].
      apply parse_groups_length in E'. cbn in *. destruct (Nat.eqb_spec (length gs) 8); [lia|done].
Qed.

(** A bracket is no digit, so an address in brackets is not one by itself. *)
Lemma split_first sep c r : Ascii.eqb c sep = false → ∃ p ps, split sep (String c r) = String c p :: ps.
Proof. intros Hc. cbn [split]. rewrite Hc. destruct (split sep r) as [|p ps]; by eexists _, _. Qed.

Lemma parse_group_bracket r : parse_group (String "[" r) = None.
Proof. unfold parse_group. by destruct (_ && _). Qed.

Lemma parse_octet_bracket r : parse_octet (String "[" r) = None.
Proof.
  unfold parse_octet. destruct (_ <=? _)%nat; [|done].
  by destruct (NilEmpty.uint_of_string r) eqn:E; cbn; rewrite ?E.
Qed.

Lemma parse_ipv6_bracket r : parse_ipv6 (String "[" r) = None.
Proof.
  assert (∀ r, mapM parse_group (split colon (String "[" r)) = None ∧
               parse_groups (split colon (String "[" r)) = None) as Hs.
  { intros r0. destruct (split_first colon "[" r0 eq_refl) as (p & ps & ->). split.
    - cbn [mapM]. by rewrite parse_group_bracket.
    - assert (parse_ipv4 (String "[" p) = None) as H4.
      { unfold parse_ipv4. destruct (split_first dot "[" p eq_refl) as (q & qs & ->).
        destruct qs as [|b [|c [|d [|]]]]; try done. cbn [mapM]. by rewrite parse_octet_bracket. }
      destruct ps; cbn [parse_groups]; by rewrite ?H4, parse_group_bracket. }
  unfold parse_ipv6. destruct (split_zeros (String "[" r)) as [[front back]|] eqn:E.
  - assert (∃ f, front = String "[" f) as [f ->].
    { destruct r as [|b r]; [done|]. rewrite split_zeros_cons in E.
      destruct (split_zeros (String b r)) as [[f k]|]; [|done]. injection E as <- <-. by eexists. }
    cbn [is_empty]. by rewrite (proj1 (Hs f)).
  - by rewrite (proj2 (Hs r)).
Qed.

(** *** Entries *)

Lemma contains_char_rev c s : contains_char c (rev_string s) = contains_char c s.
Proof.
  induction s as [|d s IH]; [done|]. rewrite rev_string_cons, contains_char_app, IH. cbn. 
  rewrite orb_false_r. apply orb_comm.
Qed.

Lemma rsplit_colon_app a b : contains_char colon b = false → rsplit_colon (a +:+ String colon b) = Some (a, b).
Proof.
  intros Hb. unfold rsplit_colon.
  rewrite rev_string_app, rev_string_cons, append_assoc. cbn [String.append].
  rewrite split_once_app by (by rewrite contains_char_rev). by rewrite !rev_string_involutive.
Qed.

Lemma rsplit_colon_none a : contains_char colon a = false → rsplit_colon a = None.
Proof. intros Ha. unfold rsplit_colon. rewrite split_once_none by (by rewrite contains_char_rev). done. Qed.

Lemma ends_with_bracket_port a b :
  contains_char "]" b = false → ends_with_bracket (a +:+ String colon b) = false.
Proof.
  intros Hb. unfold ends_with_bracket. rewrite rev_string_app, rev_string_cons, append_assoc.
  rewrite <- contains_char_rev in Hb. destruct (rev_string b) as [|c r]; [done|].
  cbn [contains_char] in Hb. apply orb_false_iff in Hb as [Hc _].
  unfold starts_with. cbn [String.append String.prefix].
  destruct (ascii_dec "]" c) as [<-|]; [by rewrite Ascii.eqb_refl in Hc|done].
Qed.

Lemma ends_with_bracket_enclosed r : ends_with_bracket (String "[" (r +:+ "]")) = true.
Proof. unfold ends_with_bracket. rewrite rev_string_cons, rev_string_app. apply starts_with_spec. by eexists. Qed.

(** A port is a number from 0 to 65535, and prints as digits that read back as it. *)
Lemma entry_port_range entry text port : entry_port entry text = Ok (Some port) → (0 <= port <= 65535)%Z.
Proof.
  unfold entry_port. destruct text as [text|]; [|done].
  destruct (parse_u16 text) as [n|] eqn:E; [|done]. intros [= <-]. revert E. unfold parse_u16.
  repeat case_match; try done; apply parse_signed_range.
Qed.

Lemma port_digits port c : (0 <= port)%Z → is_digit c = false → contains_char c (print_Z port) = false.
Proof.
  intros Hp Hc. assert (print_Z port = print_N (Z.to_N port)) as -> by (by destruct port).
  apply digits_no_char, Hc. apply print_N_digits.
Qed.

Lemma parse_u16_print port : (0 <= port <= 65535)%Z → parse_u16 (print_Z port) = Some port.
Proof.
  intros Hp. unfold parse_u16. pose proof (parse_signed_print 0 65535 port Hp) as Hs.
  pose proof (port_digits port "-" (proj1 Hp) eq_refl) as Hm.
  destruct (print_Z port) as [|c r]; [done|]. cbn [contains_char] in Hm. apply orb_false_iff in Hm as [Hm _].
  destruct c as [[] [] [] [] [] [] [] []]; (exact Hs || done).
Qed.

(** *** The texts of hosts *)

Section laws.
Context `{UL : !UrlLib} `{!UrlLaws}.

(** What an entry of a host that was read says, with a port or none, is read part by part. *)
Lemma text_parts s parsed port :
  host_parse s = Ok parsed → from_option (λ p, (0 <= p <= 65535)%Z) True port →
  let text := AllowedHost_text {| ah_host := uh_text parsed; ah_port := port |} in
  parse_ipv6 text = None ∧ entry_parts text = (uh_text parsed, print_Z <$> port) ∧
  contains_char "/" text = false ∧ contains_char "@" text = false ∧
  contains_char "*" text = contains_char "*" (uh_text parsed) ∧
  (contains_char colon (uh_text parsed) = true → starts_with "[" (uh_text parsed) = true).
Proof.
  intros Hparse Hport text. destruct (host_no_path _ _ Hparse) as [Hslash Hat].
  pose proof (host_brackets _ _ Hparse) as Hb. set (host := uh_text parsed) in *.
  assert (∀ r, starts_with "[" (String "[" r) = true) as Hstart by (intros r; apply starts_with_spec; by eexists).
  destruct port as [port|]; cbn [from_option] in Hport; subst text; unfold AllowedHost_text; cbn [ah_port ah_host fmap option_fmap option_map].
  - change (host +:+ ":" +:+ print_Z port) with (host +:+ String colon (print_Z port)).
    assert (∀ c, is_digit c = false → contains_char c (print_Z port) = false) as Hd
      by (intros c; apply port_digits; lia).
    assert (∀ c, is_digit c = false → Ascii.eqb colon c = false →
      contains_char c (host +:+ String colon (print_Z port)) = contains_char c host) as Hc.
    { intros c H1 H2. rewrite contains_char_app. cbn [contains_char]. rewrite H2, Hd by done. apply orb_false_r. }
    rewrite !Hc by done. unfold entry_parts. rewrite rsplit_colon_app, ends_with_bracket_port by (by apply Hd).
    repeat split; try done.
    + destruct (contains_char colon host) eqn:E; [|by apply not_ipv6_plain; [|apply Hd]].
      destruct (Hb eq_refl) as [r ->]. apply parse_ipv6_bracket.
    + intros [r ->]%Hb. apply Hstart.
  - repeat split; try done.
    + destruct (contains_char colon host) eqn:E; [|by apply (not_ipv6_plain host EmptyString)].
      destruct (Hb eq_refl) as [r ->]. apply parse_ipv6_bracket.
    + unfold entry_parts. destruct (contains_char colon host) eqn:E; [|by rewrite rsplit_colon_none].
      destruct (Hb eq_refl) as [r ->]. rewrite ends_with_bracket_enclosed.
      by destruct (rsplit_colon _) as [[]|].
    + intros [r ->]%Hb. apply Hstart.
Qed.

(** ** Properties *)

(** C22 (roundtrip): an allowed host says an entry that reads as it again, unless it holds an asterisk that
    Unicode folded in, or was written bare as an IPv4 address mapped to IPv6. *)
Theorem AllowedHost_reads_back entry h :
  AllowedHost_of entry = Ok h → contains_char "*" (ah_host h) = false →
  from_option is_mapped false (parse_ipv6 entry) = false →
  AllowedHost_of (AllowedHost_text h) = Ok h.
Proof.
  intros Hread Hstar Hmapped.
  assert (∃ s parsed, host_parse s = Ok parsed ∧ ah_host h = uh_text parsed ∧
    from_option (λ p, (0 <= p <= 65535)%Z) True (ah_port h)) as (s & parsed & Hparse & Hhost & Hport).
  { revert Hread. unfold AllowedHost_of. destruct (parse_ipv6 entry) as [address|] eqn:E6.
    - intros [= <-]. pose proof (host_ipv6 _ _ E6 Hmapped). by eexists _, _.
    - destruct (_ || _); [done|]. destruct (contains_char "*" entry); [done|].
      destruct (entry_parts entry) as [host port]. destruct (_ && _); [done|].
      destruct (entry_port entry port) as [p|] eqn:Ep; [|done]. cbn.
      destruct (host_parse host) as [parsed|] eqn:Eh; [|done]. cbn. destruct (_ && _); [done|].
      intros [= <-]. exists host, parsed. split; [done|split; [done|]]. cbn.
      destruct p as [p|]; [by eapply entry_port_range|done]. }
  destruct h as [host port]. cbn in *. subst host.
  destruct (text_parts _ _ _ Hparse Hport) as (H6 & Hparts & H1 & H2 & H3 & H4).
  unfold AllowedHost_of. rewrite H6, H1, H2, H3, Hstar, Hparts. cbn [orb].
  assert (contains_char colon (uh_text parsed) && negb (starts_with "[" (uh_text parsed)) = false) as ->.
  { destruct (contains_char colon _); [|done]. by rewrite H4. }
  assert (entry_port (AllowedHost_text {| ah_host := uh_text parsed; ah_port := port |}) (print_Z <$> port) = Ok port) as ->.
  { destruct port as [port|]; [|done]. cbn [fmap option_fmap option_map entry_port].
    by rewrite parse_u16_print. }
  cbn. rewrite (host_reads_back _ _ Hparse). cbn.
  destruct (uh_is_v4 parsed) eqn:Ev; [|done]. destruct (host_ipv4 _ _ Hparse Ev) as [octets ->]. done.
Qed.
End laws.

(** ** Examples *)

(** A reader of hosts that knows IPv6 addresses by their brackets and takes every other text that has
    no mark of a URL as it is. *)
Definition plain_host_parse (s : string) : result string UrlHost :=
  if contains_char "/" s || contains_char "@" s then Err "invalid international domain name"
  else match s with
       | String "[" r => if ends_with_bracket r then Ok {| uh_text := s; uh_is_v4 := false |}
                         else Err "invalid IPv6 address"
       | _ => if contains_char colon s then Err "invalid international domain name"
              else Ok {| uh_text := s; uh_is_v4 := bool_decide (is_Some (parse_ipv4 s)) |}
       end.

#[local] Instance plain_url_lib : UrlLib := {| host_parse := plain_host_parse |}.

(** What an address says: digits of base 16 and colons. *)
Definition is_address_char (c : ascii) : bool := Ascii.eqb c colon || bool_decide (is_Some (hex_value c)).

Lemma hex_char_address n : all_chars is_address_char (hex_char n) = true.
Proof.
  unfold hex_char. pose proof (Z.mod_pos_bound n 16 ltac:(lia)) as Hd. set (d := (n mod 16)%Z) in *. clearbody d.
  assert (d ∈ seqZ 0 16) as Hin by (apply elem_of_seqZ; lia). clear Hd. revert d Hin. apply Forall_forall.
  repeat constructor.
Qed.

Lemma print_ipv6_address segments :
  is_mapped segments = false → all_chars is_address_char (print_ipv6 segments) = true.
Proof.
  intros Hm. assert (∀ fuel n, all_chars is_address_char (print_hex fuel n) = true) as Hh.
  { induction fuel as [|fuel IH]; intros n; [done|]. cbn [print_hex].
    destruct (_ <? _)%Z; [apply hex_char_address|]. by rewrite all_chars_app, IH, hex_char_address. }
  assert (∀ l, all_chars is_address_char (print_groups l) = true) as Hg.
  { intros l. unfold print_groups. induction l as [|g l IH]; [done|]. cbn [fmap list_fmap].
    destruct (print_hex 4 <$> l) as [|t ts] eqn:E; [apply Hh|].
    change (all_chars is_address_char (print_hex 4 g +:+ (":" +:+ String.concat ":" (t :: ts))) = true).
    by rewrite !all_chars_app, Hh, IH. }
  unfold print_ipv6. rewrite Hm. destruct (longest_zeros _) as [start size].
  destruct (_ <? _)%nat; by rewrite ?all_chars_app, ?Hg.
Qed.

Lemma all_chars_no_char p c s : all_chars p s = true → p c = false → contains_char c s = false.
Proof.
  intros H Hc. induction s as [|d s IH]; [done|]. cbn [all_chars contains_char] in *.
  apply andb_true_iff in H as [Hd H]. rewrite IH by done.
  destruct (Ascii.eqb_spec d c) as [->|]; [congruence|done].
Qed.

#[local] Instance plain_url_laws : UrlLaws.
Proof.
  assert (∀ s h, plain_host_parse s = Ok h → uh_text h = s ∧
    contains_char "/" s = false ∧ contains_char "@" s = false ∧
    ((∃ r, s = String "[" (r +:+ "]")) ∨ contains_char colon s = false) ∧
    (uh_is_v4 h = true → is_Some (parse_ipv4 s))) as Hspec.
  { intros s h. unfold plain_host_parse. destruct (contains_char "/" s), (contains_char "@" s); try done. cbn [orb].
    assert (∀ r, s = String "[" r → ends_with_bracket r = true → ∃ t, s = String "[" (t +:+ "]")) as Hb.
    { intros r -> [q Hq]%starts_with_spec. exists (rev_string q). f_equal.
      apply (f_equal rev_string) in Hq. rewrite rev_string_involutive in Hq. by rewrite Hq, rev_string_app. }
    destruct (contains_char colon s) eqn:Ec; intros H; repeat case_match; simplify_eq/=; try done;
      repeat split; try done; try (by left; eapply Hb); try (by right); by intros Hv%bool_decide_eq_true. }
  split.
  - intros s h H. destruct (Hspec _ _ H) as [-> _]. done.
  - intros s h H. destruct (Hspec _ _ H) as (-> & ? & ? & _). done.
  - intros s h H Hc. destruct (Hspec _ _ H) as (Ht & _ & _ & Hb & _). rewrite Ht in *. destruct Hb as [|Hb]; [done|congruence].
  - intros s h H Hv. destruct (Hspec _ _ H) as (-> & _ & _ & _ & H4). by apply H4.
  - intros s address _ Hm. pose proof (print_ipv6_address _ Hm) as Ha.
    cbn [host_parse plain_url_lib]. unfold plain_host_parse. set (text := print_ipv6 address) in *.
    change ("[" +:+ text +:+ "]") with (String "[" (text +:+ "]")).
    assert (∀ c, is_address_char c = false → contains_char c (String "[" (text +:+ "]")) =
      Ascii.eqb "[" c || Ascii.eqb "]" c) as Hc.
    { intros c Hc. cbn [contains_char]. rewrite contains_char_app, (all_chars_no_char _ _ _ Ha Hc). cbn.
      by rewrite orb_false_r. }
    rewrite !Hc by done. cbn [orb Ascii.eqb Bool.eqb].
    assert (ends_with_bracket (text +:+ "]") = true) as ->; [|done].
    unfold ends_with_bracket. rewrite rev_string_app. apply starts_with_spec. by eexists.
Qed.

(** A host with a port, and an IPv6 address written bare, read back. *)
Lemma AllowedHost_reads_back_witness :
  AllowedHost_of "klens.example.com:8443" = Ok {| ah_host := "klens.example.com"; ah_port := Some 8443%Z |} ∧
  AllowedHost_of (AllowedHost_text {| ah_host := "klens.example.com"; ah_port := Some 8443%Z |}) =
    Ok {| ah_host := "klens.example.com"; ah_port := Some 8443%Z |} ∧
  AllowedHost_of (AllowedHost_text {| ah_host := "[::1]"; ah_port := None |}) =
    Ok {| ah_host := "[::1]"; ah_port := None |}.
Proof.
  split; [by vm_compute|]. split.
  - apply (AllowedHost_reads_back "klens.example.com:8443"); by vm_compute.
  - apply (AllowedHost_reads_back "0:0::1"); by vm_compute.
Defined.

(** What entries read as, and how an address is shown. *)
Example entries_read :
  AllowedHost_of "[0:0::1]" = Ok {| ah_host := "[0:0::1]"; ah_port := None |} ∧
  AllowedHost_of "fe80::1:65535" = Err "'fe80::1:65535' needs brackets around its IPv6 address, like [::1]:8080" ∧
  AllowedHost_of "localhost:" = Err "'localhost:' has an invalid port" ∧
  AllowedHost_of "localhost:65536" = Err "'localhost:65536' has an invalid port" ∧
  AllowedHost_of "*.example.com" = Err "'*.example.com' has a wildcard, but each host must be listed in full" ∧
  print_ipv6 <$> parse_ipv6 "2001:DB8:0:0:1:0:0:1" = Some "2001:db8::1:0:0:1" ∧
  print_ipv6 <$> parse_ipv6 "::ffff:10.0.0.1" = Some "::ffff:10.0.0.1" ∧
  parse_ipv6 "1::2::3" = None ∧ parse_ipv4 "127.000.000.001" = None.
Proof. by vm_compute. Qed.

(** The two spellings of an address mapped to IPv6 part: bare, it is kept with its dots, so an
    authority that names it in base 16, as browsers do, is refused. *)
Lemma mapped_entry_refused :
  AllowedHost_of "::ffff:10.0.0.1" = Ok {| ah_host := "[::ffff:10.0.0.1]"; ah_port := None |} ∧
  parse_ipv6 "::ffff:a00:1" = parse_ipv6 "::ffff:10.0.0.1" ∧
  host_allows {| ah_host := "[::ffff:10.0.0.1]"; ah_port := None |}
    {| at_host := "[::ffff:a00:1]"; at_port := None |} = false.
Proof. by vm_compute. Qed.
