(* ===== verification/Config.v ===== *)
(** The configuration ([src/config.rs], [src/config/auth.rs], [cluster.rs], [mcp.rs] and
    [secret.rs]): its blocks with their defaults, the secrets it names, the rules that span blocks,
    and what klens warns of before it starts. Reading YAML into the blocks is serde's. *)

From Stdlib Require Import ZArith Lia Ascii.
From S2P Require Import Prelude Text Obfuscate Access Tuning Client Hosts.

(** ** Secrets *)

Inductive Source : Set := SourceValue (value : string) | SourceEnv (name : string) | SourceFile (path : string).

(** [trim_end_matches] at carriage returns and line feeds. *)
Fixpoint drop_breaks (reversed : string) : string :=
  match reversed with
  | String c r => if (N_of_ascii c =? 13)%N || (N_of_ascii c =? 10)%N then drop_breaks r else reversed
  | EmptyString => EmptyString
  end.
Definition trim_breaks (s : string) : string := rev_string (drop_breaks (rev_string s)).

Section secrets.
(** The process' environment and its files, or what their error says. *)
Context (env_var read_file : string → result string string).

(** [Secret::try_from]. *)
Definition Secret_of (source : Source) : result string string :=
  match source with
  | SourceValue value => Ok value
  | SourceEnv name => map_err (λ error, name +:+ ": " +:+ error) (env_var name)
  | SourceFile path => trim_breaks <$> map_err (λ error, path +:+ ": " +:+ error) (read_file path)
  end.
End secrets.

Definition MIN_BYTES : Z := 32.

(** [KeyMaterial::try_from]. *)
Definition KeyMaterial_of (secret : string) : result string string :=
  if (Z.of_nat (String.length secret) <? MIN_BYTES)%Z
  then Err ("must be at least " +:+ print_Z MIN_BYTES +:+ " bytes") else Ok secret.

(** ** Blocks *)

Record OidcConfig : Set := {
  oi_issuer : string;
  oi_client_id : string;
  oi_client_secret : string;
  oi_redirect_uri : string;
  oi_scopes : list string;
  oi_groups_claim : string;
}.

Definition default_scopes : list string := ["openid"; "email"; "profile"].
Definition default_groups_claim : string := "groups".

Record SessionConfig : Set := { ss_login_timeout : Z; ss_max_age : Z }.

Definition SessionConfig_default : SessionConfig :=
  {| ss_login_timeout := from_secs (10 * 60); ss_max_age := from_secs (12 * 60 * 60) |}.

Record AuthConfig_ : Type := {
  ac_oidc : OidcConfig;
  ac_session : SessionConfig;
  ac_roles : option (list (string * Role));
}.

Record BasicAuth : Set := { ba_username : string; ba_password : string }.
Record SchemaRegistryConfig : Set := { sc_url : string; sc_auth : option BasicAuth }.

Section blocks.
Context {RL : RedactLib}.

(** A cluster; the connector reads [cg_kafka]. *)
Record ClusterBlock : Type := {
  cg_kafka : ClusterConfig;
  cg_schema_registry : option SchemaRegistryConfig;
  cg_obfuscation : option Obfuscation;
  cg_writable : bool;
}.

(** [Mcp], whose privileges and clusters are [McpConfig]. *)
Record McpBlock : Set := { mb_tools : McpConfig; mb_secret : option string; mb_bind : SocketAddr }.

Inductive LogLevel : Set := LogOff | LogError | LogWarn | LogInfo | LogDebug | LogTrace.

Record Config : Type := {
  cf_bind : option SocketAddr;
  cf_allowed_hosts : list AllowedHost;
  cf_log_level : LogLevel;
  cf_clusters : list (string * ClusterBlock);
  cf_auth : option AuthConfig_;
  cf_mcp : option McpBlock;
  cf_tuning : Tuning;
}.

Definition Config_default : Config :=
  {| cf_bind := None; cf_allowed_hosts := loopback; cf_log_level := LogInfo; cf_clusters := []; cf_auth := None;
     cf_mcp := None; cf_tuning := Tuning_default |}.

(** ** What spans blocks *)

Definition UNSPECIFIED : IpAddr := V4 [0; 0; 0; 0]%Z.
Definition LOCALHOST : IpAddr := V4 [127; 0; 0; 1]%Z.

(** [Config::bind]. *)
Definition config_bind (c : Config) : SocketAddr :=
  default {| sa_ip := match cf_auth c with Some _ => UNSPECIFIED | None => LOCALHOST end;
             sa_port := 8080; sa_scope := 0 |} (cf_bind c).

Definition is_configured (c : Config) (name : string) : bool := bool_decide (name ∈ (cf_clusters c).*1).

(** The first cluster MCP names that is not configured. *)
Definition unknown_cluster (c : Config) (mcp : McpBlock) : option string :=
  List.find (λ name, negb (is_configured c name)) (default [] (mcp_clusters (mb_tools mcp))).

(** [Config::check]. *)
Definition config_check (c : Config) : result string () :=
  match cf_mcp c with
  | None => Ok ()
  | Some mcp =>
      match unknown_cluster c mcp with
      | Some unknown => Err ("mcp.clusters names '" +:+ unknown +:+ "', which is not a configured cluster")
      | None =>
          if bool_decide (mb_bind mcp = config_bind c)
          then Err ("mcp.bind is " +:+ SocketAddr_text (mb_bind mcp) +:+
                    ", the address of bind, so give MCP a port of its own")
          else Ok ()
      end
  end.

(** The two warnings of [mcp_warnings]. *)
Definition OPEN_WRITES : string :=
  "mcp.secret is unset and mcp.privileges names a write, so anyone who reaches mcp.bind can change a writable cluster".
Definition STEERED_WRITES : string :=
  "mcp.privileges names records or schema_text beside a write, so text an agent reads from Kafka could steer it to copy private data out through that write".

Definition mcp_warnings (c : Config) : list string :=
  match cf_mcp c with
  | None => []
  | Some mcp =>
      (if bool_decide (mb_secret mcp = None) && mcp_writes (mb_tools mcp) then [OPEN_WRITES] else []) ++
      (if mcp_writes (mb_tools mcp) && reads_private_text (mb_tools mcp) then [STEERED_WRITES] else [])
  end.

Definition writable_without_auth (c : Config) : list string :=
  match cf_auth c with
  | Some _ => []
  | None => (List.filter (λ cluster, cg_writable cluster.2) (cf_clusters c)).*1
  end.

(** ** Lemmas *)

(** A checked configuration keeps the addresses of MCP and of the UI apart, and MCP within its clusters. *)
Lemma config_check_spec c :
  match config_check c with
  | Ok _ => ∀ mcp, cf_mcp c = Some mcp →
      mb_bind mcp ≠ config_bind c ∧
      ∀ names name, mcp_clusters (mb_tools mcp) = Some names → name ∈ names → name ∈ (cf_clusters c).*1
  | Err _ => ∃ mcp, cf_mcp c = Some mcp ∧
      (mb_bind mcp = config_bind c ∨
       ∃ names name, mcp_clusters (mb_tools mcp) = Some names ∧ name ∈ names ∧ name ∉ (cf_clusters c).*1)
  end.
Proof.
  unfold config_check, unknown_cluster. destruct (cf_mcp c) as [mcp|]; [|done].
  destruct (List.find _ _) as [unknown|] eqn:E.
  - exists mcp. split; [done|]. right. apply List.find_some in E as [Hin Hno].
    unfold is_configured in Hno. apply negb_true_iff, bool_decide_eq_false in Hno.
    destruct (mcp_clusters (mb_tools mcp)) as [names|]; [|done].
    exists names, unknown. by rewrite list_elem_of_In.
  - case_bool_decide as Hb; [exists mcp; by auto|]. intros mcp' [= <-]. split; [done|].
    intros names name Hn Hin. rewrite Hn in E.
    apply list_elem_of_In, (List.find_none _ _ E), negb_false_iff in Hin.
    by apply bool_decide_eq_true in Hin.
Qed.

End blocks.

Lemma trim_breaks_spec s : ∃ breaks, s = trim_breaks s +:+ breaks ∧
  all_chars (λ c, (N_of_ascii c =? 13)%N || (N_of_ascii c =? 10)%N) breaks = true ∧
  ∀ t c, trim_breaks s = t +:+ String c EmptyString → ((N_of_ascii c =? 13)%N || (N_of_ascii c =? 10)%N) = false.
Proof.
  unfold trim_breaks. assert (∀ r, ∃ b, r = b +:+ drop_breaks r ∧
    all_chars (λ c, (N_of_ascii c =? 13)%N || (N_of_ascii c =? 10)%N) b = true ∧
    ∀ c t, drop_breaks r = String c t → ((N_of_ascii c =? 13)%N || (N_of_ascii c =? 10)%N) = false) as H.
  { induction r as [|c r (b & IH & Hb & Hd)]; [by exists EmptyString|]. cbn [drop_breaks].
    destruct (_ || _) eqn:E.
    - exists (String c b). split; [by rewrite app_cons, <- IH|]. split; [|done]. cbn. by rewrite E.
    - exists EmptyString. split; [done|split; [done|]]. by intros d t [= <- <-]. }
  destruct (H (rev_string s)) as (b & Hs & Hb & Hd). exists (rev_string b). split_and!.
  - by rewrite <- rev_string_app, <- Hs, rev_string_involutive.
  - clear Hs Hd. induction b as [|c b IH]; [done|]. cbn [all_chars] in Hb. apply andb_true_iff in Hb as [Hc Hb].
    rewrite rev_string_cons, all_chars_app, IH by done. cbn. by rewrite Hc.
  - intros t c Ht. apply (Hd c (rev_string t)). apply (f_equal rev_string) in Ht.
    rewrite rev_string_involutive, rev_string_app in Ht. done.
Qed.

(** ** Examples *)

#[local] Existing Instance sample_redact_lib.

Example config_defaults :
  SocketAddr_text (config_bind Config_default) = "127.0.0.1:8080" ∧
  (AllowedHost_text <$> cf_allowed_hosts Config_default) = ["localhost"; "127.0.0.1"; "[::1]"] ∧
  config_check Config_default = Ok () ∧ mcp_warnings Config_default = [].
Proof. by vm_compute. Qed.

Example shared_bind :
  config_check {| cf_bind := None; cf_allowed_hosts := loopback; cf_log_level := LogInfo; cf_clusters := []; cf_auth := None;
     cf_mcp := Some {| mb_tools := {| mcp_privileges := [PCreateTopics]; mcp_clusters := None |}; mb_secret := None;
                       mb_bind := {| sa_ip := LOCALHOST; sa_port := 8080; sa_scope := 0 |} |};
     cf_tuning := Tuning_default |} =
  Err "mcp.bind is 127.0.0.1:8080, the address of bind, so give MCP a port of its own".
Proof. by vm_compute. Qed.
