(* ===== verification/Streams.v ===== *)
(** The handlers that open a stream ([updates] of [src/app/resources/updates.rs], [export] of
    [records/export.rs] and [tail] of [records/tail.rs]): who may open one, and what it then sends,
    as [Updates] and [RecordApi] have it.

    A stream goes on after its request: what Kafka and the ingest will tell it, and what its
    session's guard will answer each time it is asked, are arguments. *)

From Stdlib Require Import ZArith Lia SpecFloat.
From S2P Require Import Prelude Text Errors Payload Filter Query Obfuscate Pipeline Session Read Export Tail Access Interest Bus Store Handle Search RecordApi RecordText Visit Updates.

(** ** Opening one *)

Section streams.
Context {PL : PayloadLib} {RL : RedactLib} {FL : FilterLib} {TL : TimestampLib} {AL : ApiTimeLib}.

(** What a cluster tells the streams opened on it now: the channel of its changes from now on, an
    export and what each of its pages will be read from, a tail and what each call of its [next]
    will see, with its clock. *)
Record StreamSource : Type := {
  sd_bus : list Received;
  sd_export : RecordQuery → result KafkaError Export;
  sd_pages : list FetchEnv;
  sd_tail : TailQuery → result KafkaError Tail;
  sd_batches : list (Z * Z * list TailTurn);
}.

(** The requests that open a stream, and how many events of it their client reads. *)
Inductive StreamRequest : Type :=
  | UpdatesOf (topic group : option string) (events : nat)
  | ExportOf (topic : string) (params : ExportParams)
  | TailOf (topic : string) (params : TailParams).

Inductive StreamBody : Type :=
  | UpdateEvents (events : list StreamEvent)
  | ExportChunks (chunks : list (result ApiError (list Record_)))
  | TailEvents (events : list TailEvent).

(** What the guard answers as each turn comes. *)
Definition Guards : Type := nat → option EffectiveAccess.

Fixpoint with_guards {A} (guards : Guards) (turns : list A) : list (A * option EffectiveAccess) :=
  match turns with
  | [] => []
  | turn :: turns => (turn, guards 0) :: with_guards (λ i, guards (S i)) turns
  end.

Definition get_updates (v : Visitor) (name : string) (source : StreamSource) (guards : Guards)
    (topic group : option string) (events : nat) : result ApiError (list StreamEvent) :=
  _ ← visit v name;
  Ok (stream_take events (with_guards guards (sd_bus source)) (stream_new name (scope_of_query topic group))).

Definition get_export (v : Visitor) (name : string) (source : StreamSource) (guards : Guards)
    (topic : string) (params : ExportParams) : result ApiError (list (result ApiError (list Record_))) :=
  cluster ← visit v name;
  _ ← granted cluster PRecords;
  query ← map_err (λ error, ApiKafka (InvalidQuery error)) (export_into_query params topic);
  export ← map_err ApiKafka (sd_export source query);
  Ok (export_stream name export ((λ turn, (turn.2, turn.1)) <$> with_guards guards (sd_pages source))).

Definition follow_turn (turn : (Z * Z * list TailTurn) * option EffectiveAccess) : FollowTurn :=
  {| ft_called := turn.1.1.1; ft_flushed := turn.1.1.2; ft_turns := turn.1.2; ft_guard := turn.2 |}.

(** [permit]: whether another tail may be opened. *)
Definition get_tail (v : Visitor) (name : string) (source : StreamSource) (guards : Guards) (permit : bool)
    (topic : string) (params : TailParams) : result ApiError (list TailEvent) :=
  cluster ← visit v name;
  _ ← granted cluster PRecords;
  query ← map_err (λ error, ApiKafka (InvalidQuery error)) (tail_into_query params topic);
  _ ← if permit then Ok () else Err TooManyTails;
  tail ← map_err ApiKafka (sd_tail source query);
  Ok (tail_stream name tail (follow_turn <$> with_guards guards (sd_batches source))).

Definition open_stream (v : Visitor) (name : string) (source : StreamSource) (guards : Guards) (permit : bool)
    (r : StreamRequest) : result ApiError StreamBody :=
  match r with
  | UpdatesOf topic group events => UpdateEvents <$> get_updates v name source guards topic group events
  | ExportOf topic params => ExportChunks <$> get_export v name source guards topic params
  | TailOf topic params => TailEvents <$> get_tail v name source guards permit topic params
  end.

(** ** What a stream rests on *)

(** Whether a session still holds the cluster, or its records. *)
Definition still_holds (records : bool) (name : string) (guard : option EffectiveAccess) : bool :=
  match guard with
  | None => false
  | Some access =>
      match access_cluster access name with
      | Ok a => implb records (bool_decide (PRecords ∈ ca_privileges a))
      | Err _ => false
      end
  end.

(** The same changes, until one arrives that the session may not be told of any more. *)
Fixpoint same_changes (name : string) (guards : Guards) (received received' : list Received) : Prop :=
  match received, received' with
  | [], [] | Closed :: _, Closed :: _ => True
  | Lagged _ :: received, Lagged _ :: received' => same_changes name (λ i, guards (S i)) received received'
  | Got change :: received, Got change' :: received' =>
      if still_holds false name (guards 0)
      then change = change' ∧ same_changes name (λ i, guards (S i)) received received'
      else True
  | _, _ => False
  end.

(** The same pages, until the session lost the records. *)
Fixpoint same_pages (name : string) (guards : Guards) (pages pages' : list FetchEnv) : Prop :=
  match pages, pages' with
  | [], [] => True
  | page :: pages, page' :: pages' =>
      if still_holds true name (guards 0)
      then page = page' ∧ same_pages name (λ i, guards (S i)) pages pages'
      else True
  | _, _ => False
  end.

(** The same calls, up to and with the one after which the session has lost the records: a tail
    reads before it asks, and tells an error at once. *)
Fixpoint same_batches (name : string) (guards : Guards) (batches batches' : list (Z * Z * list TailTurn)) : Prop :=
  match batches, batches' with
  | [], [] => True
  | batch :: batches, batch' :: batches' =>
      batch = batch' ∧
      if still_holds true name (guards 0) then same_batches name (λ i, guards (S i)) batches batches' else True
  | _, _ => False
  end.

(** Two sources that tell a stream the same, for a caller of [access]: of a cluster it does not
    reach, or whose records it may not read, nothing has to be. *)
Definition same_stream (access : EffectiveAccess) (name : string) (guards : Guards) (r : StreamRequest)
    (source source' : StreamSource) : Prop :=
  match r with
  | UpdatesOf _ _ _ =>
      still_holds false name (Some access) = true → same_changes name guards (sd_bus source) (sd_bus source')
  | ExportOf _ _ =>
      still_holds true name (Some access) = true →
      sd_export source = sd_export source' ∧ same_pages name guards (sd_pages source) (sd_pages source')
  | TailOf _ _ =>
      still_holds true name (Some access) = true →
      sd_tail source = sd_tail source' ∧ same_batches name guards (sd_batches source) (sd_batches source')
  end.

(** ** Lemmas *)

Lemma stream_denied_holds cluster scope guard :
  bool_decide (stream_denied (stream_new cluster scope) guard = None) = still_holds false cluster guard.
Proof.
  unfold stream_denied, still_holds. destruct guard as [access|]; [|done]. cbn [sm_cluster stream_new].
  by destruct (access_cluster access cluster).
Qed.

Lemma denied_holds cluster guard :
  bool_decide (denied cluster guard = None) = still_holds true cluster guard.
Proof.
  unfold denied, still_holds. destruct guard as [access|]; [|done].
  destruct (access_cluster access cluster) as [a|]; [|done]. cbn [mbind result_bind implb].
  unfold capability, check, allows. by destruct (bool_decide (PRecords ∈ ca_privileges a)).
Qed.

Lemma same_changes_events cluster scope guards received received' :
  same_changes cluster guards received received' →
  stream_events cluster scope (with_guards guards received) = stream_events cluster scope (with_guards guards received').
Proof.
  revert guards received'. induction received as [|[change|missed|] received IH]; intros guards [|[change'|missed'|] received'];
    cbn [same_changes]; try done; cbn [with_guards stream_events].
  - rewrite <- (stream_denied_holds cluster scope). case_bool_decide as Hd.
    + rewrite Hd. intros [<- Hs]. by rewrite (IH _ _ Hs).
    + by destruct (stream_denied _ _).
  - intros Hs. by rewrite (IH _ _ Hs).
Qed.

Lemma same_pages_chunks cluster x guards pages pages' :
  same_pages cluster guards pages pages' →
  export_stream cluster x ((λ turn, (turn.2, turn.1)) <$> with_guards guards pages) =
  export_stream cluster x ((λ turn, (turn.2, turn.1)) <$> with_guards guards pages').
Proof.
  revert x guards pages'. induction pages as [|page pages IH]; intros x guards [|page' pages']; cbn [same_pages]; try done.
  csimpl. cbn [with_guards fmap list_fmap export_stream fst snd]. rewrite <- denied_holds. case_bool_decide as Hd.
  - rewrite Hd. intros [<- Hs]. destruct (export_next x page) as [x1 [[records|]|]]; [|done|done].
    by rewrite (IH x1 _ _ Hs).
  - by destruct (denied _ _).
Qed.

Lemma same_batches_events cluster t guards batches batches' :
  same_batches cluster guards batches batches' →
  follow cluster t (follow_turn <$> with_guards guards batches) =
  follow cluster t (follow_turn <$> with_guards guards batches').
Proof.
  revert t guards batches'. induction batches as [|batch batches IH]; intros t guards [|batch' batches'];
    cbn [same_batches]; try done.
  intros [<- Hs]. cbn [with_guards fmap list_fmap follow follow_turn ft_called ft_flushed ft_turns ft_guard fst snd].
  destruct (tail_next _ _ _ _) as [[t1 [answer|]] calls]; [|done].
  rewrite <- denied_holds in Hs. destruct (denied cluster (guards 0)); [done|].
  rewrite bool_decide_eq_true_2 in Hs by done. by rewrite (IH t1 _ _ Hs).
Qed.

(** Who was let in to a cluster holds it. *)
Lemma visit_holds v name s : visit v name = Ok s →
  access_cluster (vi_access v) name = Ok (sn_access s).
Proof.
  unfold visit. destruct (access_cluster (vi_access v) name) as [a|]; [|done]. cbn.
  destruct (List.find _ _); [|done]. by intros [= <-].
Qed.

(** Opened alike, streams of sources that tell the same send the same. *)
Lemma open_stream_alike v v' name source source' guards permit r :
  public_visitor v = public_visitor v' → same_stream (vi_access v) name guards r source source' →
  open_stream v name source guards permit r = open_stream v' name source' guards permit r.
Proof.
  intros Hv Hs. assert (public_seen <$> visit v name = public_seen <$> visit v' name) as Hvisit
    by (by rewrite <- !visit_public, Hv).
  destruct (visit v name) as [s|e] eqn:Es, (visit v' name) as [s'|e'] eqn:Es'; cbn in Hvisit; try discriminate Hvisit.
  2: { injection Hvisit as <-. unfold open_stream, get_updates, get_export, get_tail. rewrite Es, Es'. by destruct r. }
  assert (sn_access s' = sn_access s) as Ha by (by injection Hvisit).
  assert (granted s' PRecords = granted s PRecords) as Hg by (unfold granted; by rewrite Ha).
  apply visit_holds in Es as Hholds.
  assert (still_holds true name (Some (vi_access v)) = true ∨ granted s PRecords = Err (ApiAccess (Forbidden (ca_cluster (sn_access s)) PRecords)))
    as Hrecords.
  { unfold still_holds, granted, capability, check, allows. rewrite Hholds. cbn.
    destruct (bool_decide _); [by left|by right]. }
  destruct r as [topic group events|topic params|topic params]; cbn [open_stream same_stream] in *;
    unfold get_updates, get_export, get_tail; rewrite Es, Es'; cbn [mbind result_bind]; rewrite ?Hg.
  - unfold stream_new. rewrite !stream_take_events. do 3 f_equal. f_equal. apply same_changes_events, Hs.
    unfold still_holds. by rewrite Hholds.
  - destruct Hrecords as [Hh| ->]; [|done]. destruct (Hs Hh) as [-> Hp].
    destruct (granted s PRecords); [|done]. cbn [mbind result_bind].
    destruct (map_err _ (export_into_query params topic)); [|done]. cbn [mbind result_bind].
    destruct (map_err ApiKafka _) as [x|]; [|done]. cbn [mbind result_bind]. by rewrite (same_pages_chunks _ _ _ _ _ Hp).
  - destruct Hrecords as [Hh| ->]; [|done]. destruct (Hs Hh) as [-> Hp].
    destruct (granted s PRecords); [|done]. cbn [mbind result_bind].
    destruct (map_err _ (tail_into_query params topic)); [|done]. cbn [mbind result_bind].
    destruct permit; [|done]. cbn [mbind result_bind].
    destruct (map_err ApiKafka _) as [t|]; [|done]. cbn [mbind result_bind]. unfold tail_stream.
    by rewrite (same_batches_events _ _ _ _ _ Hp).
Qed.
End streams.
