(* ===== verification/Server.v ===== *)
(** The servers and what stands in front of their handlers: the router of the UI ([src/app.rs]) with
    its check of the host ([src/server/hosts.rs]), its session and its headers; the router of MCP
    ([src/app/mcp.rs]) with the gateway's secret; their limits, and the listeners a configuration
    opens ([src/main.rs], [src/server.rs]).

    axum finds the route of a request and axum-login the session its cookie names; both are part
    of the request here. rmcp's check of an [Origin] is a parameter. A stream of updates, an export
    or a tail is opened and goes on as [Streams] has it. *)

From Stdlib Require Import ZArith Lia Ascii SpecFloat.
From S2P Require Import Prelude Text Utf8 Errors Payload Filter Query Obfuscate Pipeline Session Read Acl Access Tail Tuning Lane Interest Store Handle Search Login Reply RecordApi RecordText Requests Visit Resources Refusal ToolRows Bodies McpTools McpWrites Hosts Config Updates Streams.

(** ** Limits *)

Definition SSE_KEEP_ALIVE : Z := from_secs 15.

Record Limits : Set := {
  li_tail : TailLimits;
  li_live_tails : Z;
  li_mcp_calls : Z;
  li_mcp_live_calls_per_minute : Z;
}.

Definition Limits_new (tuning : Tuning) : Limits :=
  let tail := tn_tail tuning in
  {| li_tail := {| tl_batch := tt_batch_limit tail; tl_interval := tt_interval tail; tl_poll_wait := tt_poll_wait tail;
                   tl_heartbeat := SSE_KEEP_ALIVE; tl_records := tn_records tuning |};
     li_live_tails := tt_max_live tail;
     li_mcp_calls := max_concurrent_calls (tn_mcp tuning);
     li_mcp_live_calls_per_minute := live_calls_per_minute (tn_mcp tuning) |}.

(** ** Requests *)

Section server.
Context {ECL : ExpiryCacheLib} {OL : OidcLib} {HL : HttpLib}.
Context {PL : PayloadLib} {RL : RedactLib} {FL : FilterLib} {TL : TimestampLib} {AL : ApiTimeLib} {FZ : FrizbeeLib}.
Context {VJ : ValueJson} {KT : KrafkaTexts}.

(** A request that matched a route behind the session, as its extractors read it. *)
Inductive Resource : Type :=
  | ReadResource (read : HttpRead)
  | ChangeResource (cluster : string) (change : HttpChange)
  | StreamResource (cluster : string) (r : StreamRequest).

Inductive Route : Type :=
  | HealthRoute | ReadyRoute
  | AuthRoute
  | ResourceRoute (resource : Resource)
  | NoRoute | WrongMethod
  | WebPage.

Record HttpRequest : Type := {
  rq_host : option string;
  rq_target : option Authority;
  rq_session : AuthSession;
  rq_route : Route;
}.

(** What a handler is reached with or answers. *)
Inductive Reached : Type :=
  | Status (code : Z)
  | Refused_ (error : ApiError)
  | ReadAnswer (response : (Z * json) * option InterestRegistry)
  | ChangeAnswer (outcome : list Event * result ApiError () * nat)
  | StreamAnswer (body : result ApiError StreamBody)
  | SignIn
  | WebAsset.

(** The headers of [refuse_framing]. *)
Definition FRAMING : list (string * string) :=
  [("content-security-policy", "frame-ancestors 'none'"); ("x-frame-options", "DENY")].

(** Each request of a user asks about itself. *)
Definition of_caller (holder : Holder) (read : HttpRead) : HttpRead :=
  match read with GetWhoami _ => GetWhoami (guard_subject holder) | read => read end.

(** As for [Requests]. *)
Context (char_debug : string → string)
  (base64_decode : string → option string) (encode_payload : Z → string → result KafkaError string).

(** [AppState]: the sessions and the clusters, as reads, changes and streams see them, whether
    another tail may be opened, and the sessions and the clock as they will be at each turn of a
    stream. *)
Record AppState : Type := {
  ap_auth : AuthState;
  ap_reads : list Served;
  ap_changes : list Cluster;
  ap_streams : string → StreamSource;
  ap_tail_permit : bool;
  ap_later : nat → AuthState * Z;
}.

(** What the guard of [holder] will answer at each turn. *)
Definition guards_of (st : AppState) (holder : Holder) : Guards :=
  λ i, revalidate (ap_later st i).1 (ap_later st i).2 holder.

(** The handler of a resource, for a caller of [access]. *)
Definition reach (st : AppState) (t : nat) (access : EffectiveAccess) (holder : Holder) (resource : Resource) : Reached :=
  match resource with
  | ReadResource read =>
      ReadAnswer (http_response {| vi_access := access; vi_clusters := ap_reads st |} (of_caller holder read))
  | ChangeResource cluster change =>
      ChangeAnswer (http_change char_debug base64_decode encode_payload
        {| se_access := access; se_clusters := ap_changes st |} cluster change t)
  | StreamResource cluster r =>
      StreamAnswer (open_stream {| vi_access := access; vi_clusters := ap_reads st |} cluster
        (ap_streams st cluster) (guards_of st holder) (ap_tail_permit st) r)
  end.

(** [api_routes] and the UI, behind [require_session] where a resource is. *)
Definition app_reply (st : AppState) (t : nat) (r : HttpRequest) : Reached :=
  match rq_route r with
  | ResourceRoute resource =>
      match require_session (ap_auth st) (rq_session r) with
      | Some (access, holder) => reach st t access holder resource
      | None => Refused_ Unauthorized
      end
  | AuthRoute => SignIn
  | NoRoute => Refused_ NotFound
  | WrongMethod => Refused_ (InvalidRequest 405 "method not allowed")
  | WebPage => WebAsset
  | HealthRoute => Status 204
  | ReadyRoute => Status (ready_status (ap_reads st))
  end.

Definition is_probe (route : Route) : bool :=
  match route with HealthRoute | ReadyRoute => true | _ => false end.

(** [AllowedHosts::call], where [router] puts it: with authentication off, but for the probes. *)
Definition host_refused (st : AppState) (allowed : list AllowedHost) (r : HttpRequest) : bool :=
  negb (is_probe (rq_route r)) && negb (au_enabled (ap_auth st)) &&
  negb (hosts_allow allowed (named_host (rq_host r) (rq_target r))).

(** [router]. *)
Definition ui_router (st : AppState) (allowed : list AllowedHost) (t : nat) (r : HttpRequest)
    : Reached * list (string * string) :=
  (if host_refused st allowed r then Refused_ HostNotAllowed else app_reply st t r, FRAMING).

(** ** Who is let through *)

(** The access a request has to resources, if any. *)
Definition let_through (st : AppState) (allowed : list AllowedHost) (r : HttpRequest) : option EffectiveAccess :=
  if au_enabled (ap_auth st)
  then user ← as_user (rq_session r); access_from_user (ap_auth st) user
  else if hosts_allow allowed (named_host (rq_host r) (rq_target r)) then Some Unrestricted else None.

(** Whether two states look alike to a request: they know the same sessions, now and later, and they
    are as ready; and the clusters its access reaches show it the same. Of those, a read is shown
    what its roles let it read; a change the whole cluster, where its role and the cluster's switch
    let it make that change, and the switch alone elsewhere; and a stream what it is sent while its
    session holds the cluster, and for exports and tails its records. *)
Definition looks_alike (st st' : AppState) (allowed : list AllowedHost) (r : HttpRequest) : Prop :=
  ap_auth st = ap_auth st' ∧ (∀ i, ap_later st i = ap_later st' i) ∧ ap_tail_permit st = ap_tail_permit st' ∧
  match rq_route r with
  | ReadyRoute => clusters_ready (ap_reads st) = clusters_ready (ap_reads st')
  | ResourceRoute resource =>
      ∀ access, let_through st allowed r = Some access →
        let same_reads :=
          public_visitor {| vi_access := access; vi_clusters := ap_reads st |} =
          public_visitor {| vi_access := access; vi_clusters := ap_reads st' |} in
        match resource with
        | ReadResource _ => same_reads
        | ChangeResource _ change =>
            public_clusters (capability_for change) access (ap_changes st) =
            public_clusters (capability_for change) access (ap_changes st')
        | StreamResource cluster stream =>
            same_reads ∧
            same_stream access cluster (guards_of st (guard (ap_auth st) (rq_session r))) stream
              (ap_streams st cluster) (ap_streams st' cluster)
        end
  | _ => True
  end.

(** ** MCP *)

Inductive McpCall : Type :=
  | ReadCall (call : ToolRead)
  | ChangeCall (cluster : option string) (call : ToolChange)
  | ListCall.

(** The [Authorization] and [Origin] headers of a call, and what it asks. *)
Record McpRequest : Type := { mq_authorization : list string; mq_origin : list string; mq_call : McpCall }.

Section mcp.
Context {REL : ResultLib}.

Inductive McpReached : Type :=
  | McpRefused (error : ApiError)
  | OriginRefused
  | ReadCalled (answer : Effects * Response)
  | ChangeCalled (answer : (bool * list Event) * result ApiError CallToolResult * nat)
  | Listed (tools : list string).

Context (to_lowercase : string → string) (random : N) (has_registry : string → bool).
(** SHA-256, [HeaderValue::to_str], and rmcp's check of an origin. *)
Context (sha256 : string → string) (header_str : string → option string) (origin_allowed : list string → bool).

(** [service], with a permit to run or none and the limiter's word on a live call. *)
Definition mcp_service (st : AppState) (mcp : McpConfig) (admitted permit : bool) (t : nat) (call : McpCall) : McpReached :=
  let access := mcp_access mcp in
  let visitor := {| vi_access := access; vi_clusters := ap_reads st |} in
  match call with
  | ReadCall call => ReadCalled (run to_lowercase random admitted visitor call permit)
  | ChangeCall cluster call =>
      ChangeCalled
        (if admitted
         then tool_change char_debug base64_decode encode_payload has_registry
                {| se_access := access; se_clusters := ap_changes st |} cluster call permit t
         else (false, [], Err RateLimited, t))
  | ListCall => Listed (list_tools visitor)
  end.

(** [mcp_router]. *)
Definition mcp_router (st : AppState) (mcp : McpBlock) (admitted permit : bool) (t : nat) (r : McpRequest) : McpReached :=
  let serve := mcp_service st (mb_tools mcp) admitted permit t (mq_call r) in
  match mb_secret mcp with
  | Some secret =>
      match require_secret sha256 header_str (sha256 secret) (mq_authorization r) with
      | Ok _ => serve
      | Err error => McpRefused error
      end
  | None => if origin_allowed (mq_origin r) then serve else OriginRefused
  end.

(** With a secret, a call that does not carry it, once, is refused before anything is looked at. *)
Lemma mcp_router_refuses st mcp admitted permit t r secret :
  mb_secret mcp = Some secret →
  gateway_admits sha256 header_str (sha256 secret) (mq_authorization r) = false →
  mcp_router st mcp admitted permit t r = McpRefused NotFromGateway.
Proof. intros Hs Ha. unfold mcp_router, require_secret. by rewrite Hs, Ha. Qed.
End mcp.

(** ** Listeners *)

Inductive Served_ : Set := ServesUi | ServesMcp.

(** The listeners of [main], in the order they are bound. *)
Definition listeners (c : Config) : list (Served_ * SocketAddr) :=
  (ServesUi, config_bind c) ::
  match cf_mcp c with Some mcp => [(ServesMcp, mb_bind mcp)] | None => [] end.

(** [serve_until]: every address is bound before any is served. *)
Fixpoint bind_all (bind : SocketAddr → result string ()) (all : list (Served_ * SocketAddr)) : result string (list (Served_ * SocketAddr)) :=
  match all with
  | [] => Ok []
  | listener :: all =>
      _ ← map_err (λ _, "failed to bind " +:+ SocketAddr_text listener.2) (bind listener.2);
      bound ← bind_all bind all;
      Ok (listener :: bound)
  end.

(** [end_on_shutdown]: which bodies end when klens starts to shut down. *)
Definition ends_on_shutdown (content_type : option string) : bool :=
  match content_type with Some value => starts_with "text/event-stream" value | None => false end.

(** A checked configuration never serves MCP where it serves the UI. *)
Lemma listeners_distinct c : config_check c = Ok () → NoDup (listeners c).*2.
Proof.
  intros Hc. pose proof (config_check_spec c) as Hs. rewrite Hc in Hs. unfold listeners.
  destruct (cf_mcp c) as [mcp|]; cbn; [|apply NoDup_singleton].
  apply NoDup_cons. split; [|apply NoDup_singleton].
  intros H%list_elem_of_singleton. by destruct (Hs mcp eq_refl).
Qed.

(** ** Properties *)

(** What a read answers rests on what its caller may read. *)
Lemma http_response_alike v v' read :
  public_visitor v = public_visitor v' → http_response v read = http_response v' read.
Proof.
  intros Hv. unfold http_response. by rewrite <- (reads_public v), <- (reads_public v'), Hv.
Qed.

Lemma with_guards_ext {A} (guards guards' : Guards) (turns : list A) :
  (∀ i, guards i = guards' i) → with_guards guards turns = with_guards guards' turns.
Proof.
  revert guards guards'. induction turns as [|turn turns IH]; intros guards guards' Hg; [done|].
  cbn [with_guards]. by rewrite Hg, (IH _ (λ i, guards' (S i))).
Qed.

(** The guards of states that know the same sessions send the same. *)
Lemma guards_alike st st' holder v name source permit r :
  (∀ i, ap_later st i = ap_later st' i) →
  open_stream v name source (guards_of st holder) permit r = open_stream v name source (guards_of st' holder) permit r.
Proof.
  intros Hl. assert (∀ i, guards_of st holder i = guards_of st' holder i) as Hg by (intros i; unfold guards_of; by rewrite Hl).
  destruct r; cbn [open_stream]; unfold get_updates, get_export, get_tail; by rewrite (with_guards_ext _ _ _ Hg).
Qed.

(** Who may reach a resource, as the router decides. *)
Lemma ui_router_resource st allowed t r resource : rq_route r = ResourceRoute resource →
  (ui_router st allowed t r).1 =
  match let_through st allowed r with
  | Some access => reach st t access (guard (ap_auth st) (rq_session r)) resource
  | None => Refused_ (if au_enabled (ap_auth st) then Unauthorized else HostNotAllowed)
  end.
Proof.
  intros Hr. unfold ui_router, host_refused, app_reply, let_through, require_session, access_from_session.
  rewrite Hr. cbn [is_probe negb andb fst].
  destruct (au_enabled (ap_auth st)); cbn [negb andb].
  - destruct (as_user (rq_session r)) as [user|]; [|done]. cbn. by destruct (access_from_user _ _).
  - by destruct (hosts_allow _ _).
Qed.

(** C9 (safety): what the server of the UI answers tells a request about the clusters only what its caller
    may know of them, whatever it asks: a read what its roles let it read, a change nothing but the
    switch of a cluster where it may not make that change, and a stream nothing that came after its
    session lost the cluster, or for an export or a tail the cluster's records. No answer goes
    without the headers that refuse framing; and a caller without a live session, or at a host that
    is not allowed while authentication is off, reaches no resource and learns nothing but whether
    klens is ready. *)
Theorem ui_discloses st st' allowed t r :
  looks_alike st st' allowed r →
  ui_router st allowed t r = ui_router st' allowed t r ∧
  (ui_router st allowed t r).2 = FRAMING ∧
  ∀ resource, rq_route r = ResourceRoute resource → let_through st allowed r = None →
    (ui_router st allowed t r).1 = Refused_ (if au_enabled (ap_auth st) then Unauthorized else HostNotAllowed).
Proof.
  intros (Ha & Hlater & Hpermit & Hl).
  split; [|split; [done|intros resource Hr Hn; by rewrite (ui_router_resource _ _ _ _ _ Hr), Hn]].
  assert ((ui_router st allowed t r).1 = (ui_router st' allowed t r).1) as Heq; [|unfold ui_router in *; cbn in *; by f_equal].
  destruct (rq_route r) as [| | |resource| | |] eqn:Hr;
    try (unfold ui_router, host_refused, app_reply; by rewrite Hr, <- Ha).
  - unfold ui_router, host_refused, app_reply. rewrite Hr. cbn. unfold ready_status. by rewrite Hl.
  - rewrite !(ui_router_resource _ _ _ _ _ Hr). unfold let_through in *. rewrite <- Ha.
    destruct (if au_enabled _ then _ else _) as [access|]; [|done]. specialize (Hl _ eq_refl). cbn zeta in Hl.
    destruct resource as [read|cluster change|cluster stream]; cbn [reach].
    + f_equal. by apply http_response_alike.
    + f_equal. by rewrite <- (http_change_public _ _ _ _ (ap_changes st)), Hl, http_change_public.
    + destruct Hl as [Hv Hs]. f_equal. rewrite <- Hpermit, <- (guards_alike st st' _ _ _ _ _ _ Hlater).
      by apply open_stream_alike.
Qed.
End server.

(** ** Examples *)

#[local] Existing Instances plain_expiry_lib sample_oidc_lib sample_payload_lib sample_redact_lib sample_filter_lib
  sample_timestamp_lib sample_api_time.

(** A matcher that finds nothing, and readers of texts that none of the examples prints. *)
#[local] Instance no_matches : FrizbeeLib :=
  {| Pattern := (); parse_query _ := []; pt_needle _ := ""; pt_negated _ := false; with_max_typos _ p := p;
     match_list _ _ := [] |}.
#[local] Instance no_values : ValueJson := {| f64_json _ := JNull; instant_json _ := JNull |}.
#[local] Instance no_texts : KrafkaTexts := {| error_code_debug _ := ""; krafka_text _ := "" |}.
#[local] Instance named_as_is : HttpLib := {| authority_of host := Some {| at_host := host; at_port := None |} |}.

(** A cluster that tells a stream no more than these changes. *)
Definition bus_stream (received : list Received) : StreamSource :=
  {| sd_bus := received; sd_export _ := Err Timeout_; sd_pages := []; sd_tail _ := Err Timeout_; sd_batches := [] |}.

(** A server with one cluster, whose ACLs klens has read or not, with what a new subscriber of its
    changes will receive. Its sessions are over by then. *)
Definition a_server (acls : option AclListing) (received : list Received) : AppState :=
  {| ap_auth := AuthState_enabled (Some ops_roles);
     ap_reads := [{| sr_cluster := "dev"; sr_writable := false;
                     sr_store := set_lane (store_new "dev" 30) {| ln_table := acls; ln_version := 1; ln_health := LaneHealth_default; ln_kick := false; ln_refresh := false |};
                     sr_has_registry := false; sr_broker_configs _ := Err Timeout_; sr_subject_schema _ _ := Err Timeout_;
                     sr_read _ := Err Timeout_; sr_record _ := Err Timeout_ |}];
     ap_changes := []; ap_streams _ := bus_stream received; ap_tail_permit := true;
     ap_later _ := (AuthState_enabled (Some ops_roles), 0%Z) |}.

(** Alice, whose role covers records only, asks for something. *)
Definition asks_for (resource : Resource) (user : option SessionUser) : HttpRequest :=
  {| rq_host := Some "klens.example.com"; rq_target := None;
     rq_session := {| as_user := user; as_id := Some 7%Z |}; rq_route := ResourceRoute resource |}.

#[local] Abbreviation serves st r := (ui_router (λ c, c) (λ _, None) (λ _ _, Err Timeout_) st [] 0 r).

(** Whether klens has read ACLs or not, she is told the same; a stranger is told to sign in; and what
    changes once her session is over is not told her either. *)
Lemma ui_discloses_witness :
  let acls := ReadResource (GetAcls "dev") in
  let updates := StreamResource "dev" (UpdatesOf None None 5) in
  serves (a_server (Some (AclsEnabled [])) []) (asks_for acls (Some alice)) =
    serves (a_server None []) (asks_for acls (Some alice)) ∧
  (serves (a_server None []) (asks_for acls None)).1 = Refused_ Unauthorized ∧
  serves (a_server None [Got ChAcls]) (asks_for updates (Some alice)) =
    serves (a_server None [Got ChQuotas; Got ChAcls]) (asks_for updates (Some alice)).
Proof.
  intros acls updates. split; [|split].
  - refine (proj1 (ui_discloses (λ c, c) (λ _, None) (λ _ _, Err Timeout_) _ _ [] 0 _ _)).
    do 3 (split; [done|]). intros access [= <-]. reflexivity.
  - refine (proj2 (proj2 (ui_discloses (λ c, c) (λ _, None) (λ _ _, Err Timeout_) (a_server None []) (a_server None []) [] 0 (asks_for acls None) _)) _ eq_refl eq_refl).
    do 3 (split; [done|]). done.
  - refine (proj1 (ui_discloses (λ c, c) (λ _, None) (λ _ _, Err Timeout_) _ _ [] 0 _ _)).
    do 3 (split; [done|]). intros access [= <-]. split; [reflexivity|]. intros _. vm_compute. exact I.
Defined.

(** With authentication off, a page that points its own name at klens is refused, and the probes are
    not. *)
Example other_hosts_refused :
  let open := {| ap_auth := AuthState_disabled; ap_reads := []; ap_changes := []; ap_streams _ := bus_stream [];
                 ap_tail_permit := true; ap_later _ := (AuthState_disabled, 0%Z) |} in
  let at_ host route := {| rq_host := host; rq_target := None; rq_session := {| as_user := None; as_id := None |};
                           rq_route := route |} in
  let answer r := (ui_router (λ c, c) (λ _, None) (λ _ _, Err Timeout_) open loopback 0 r).1 in
  answer (at_ (Some "rebound.example.com") WebPage) = Refused_ HostNotAllowed ∧
  answer (at_ None WebPage) = Refused_ HostNotAllowed ∧
  answer (at_ (Some "LOCALHOST") WebPage) = WebAsset ∧
  answer (at_ (Some "10.1.2.3") ReadyRoute) = Status 204.
Proof. by vm_compute. Qed.
